(* ===== verification/_CoqProject ===== *)
-Q . S2P
Prelude.v
Cell.v
Ring.v
Fragment.v
Onion.v
FlowControl.v
CircTable.v
Conflux.v
Dht.v
DhtFile.v
Pir.v
Lifecycle.v
LifecycleSafe.v
NumTheory.v
Field.v
FieldPow.v
Elligator.v
Wire.v
Descriptor.v
Microdesc.v
Consensus.v
Select.v
DaRelays.v
Text.v
TextConsensus.v
Base64.v
TextRoundtrip.v
Crypto.v
Handshake.v
Build.v
Fips202.v
Sponge.v
Mlkem.v
NttRing.v
MlkemNtt.v
MlkemPack.v
MlkemKem.v
MlkemSym.v
PqBuild.v
Link.v
LinkSafe.v
LinkUp.v
LinkAsync.v
