(* ===== verification/Prelude.v ===== *)
(** * Verification of MOOR, an onion router with post-quantum key exchange

    MOOR carries TCP streams over circuits of relays. A client builds a circuit hop by
    hop, wraps every 514-byte cell in one layer of encryption per hop, and relays peel
    or add one layer each. Directory authorities collect relay descriptors and publish
    a signed consensus from which clients choose relays. Hidden services store their
    descriptors in a distributed hash table on the relays. This library models the
    parts of [src/src] and [src/include/moor] that do this, and proves what they have
    to guarantee to each other. The source is C; each definition keeps the name of the
    function, type or constant it translates.

    ** Conventions

    Integers are [Z]; a fixed-width value is kept in range by the wrap-around functions
    of this file ([u8], [u16], [u32], [u64], [s64]) wherever the C operation can leave
    its range. Bytes are [Z] below 256, buffers lists of them. State is passed
    explicitly; a failing operation returns [None] or a constructor of its own outcome
    type. Code outside [src/] (libsodium's primitives, [calloc], the kernel, zlib) is an
    argument of the definitions that use it; what a theorem needs of it is a hypothesis
    about that argument, stated as its documentation has it, and the witness of the
    theorem instantiates it.

    ** The parts and where they are modelled

    The data path, from the link up:
    - [Cell]: [cell.c]; packing of cells, the relay header and the running digest that
      tells a hop that a cell is its own. Two ends that process the same cells stay in
      step.
    - [Onion]: the encryption of [circuit.c] and the forwarding of
      [moor_relay_handle_relay] in [relay.c]. A cell for hop [n] is recognised there and
      nowhere before, in both directions, and no nonce is used twice.
    - [Fragment]: [fragment.c]; what was split is put together again, in any order of
      the slots' use, and the receiver's slots stay well formed whatever arrives.
    - [Ring], [FlowControl]: SENDME windows, their authentication and congestion
      control, on the client ([circuit.c]) and the exit ([relay.c]). The protocol is a
      step relation of the two ends and the channel between them.
    - [Conflux]: [conflux.c] and the client's receive path in [socks5.c]; cells
      that travel over several circuits are delivered in order.
    - [CircTable]: the open-addressing table of [circuit.c] refines a finite map.
    - [Lifecycle], [LifecycleSafe]: allocation, marking and freeing of circuits and
      connections, and the relay handlers that create, extend, join and destroy them,
      on an explicit heap. No run reads freed memory, apart from the cases listed.

    Links between nodes:
    - [Link]: [connection.c] with the output queue of [scheduler.c]; the Noise_IK and KEM
      handshake of both ends, and the framing, encryption and rekeying of cells. What the
      socket takes and delivers at each call is an argument.
    - [LinkSafe]: two ends in step deliver cells in order through any partial writes and
      reads and any number of rotations of keys by records. Two theorems show where the code
      falls short of it: rotation by time, and frames that overtake queued bytes.
    - [LinkUp]: two honest ends that run the handshake end in step in both directions,
      over ML-KEM, which is where the theorems of [LinkSafe] start.
    - [LinkAsync]: the same handshake as the callbacks of the event loop. It completes
      however the callbacks come, and calls its completion function exactly once.

    Building circuits:
    - [Crypto]: the wrappers of [crypto.c] around libsodium that do more than forward:
      key derivation, blinded keys, base32, key files.
    - [Handshake], [Build]: CREATE and EXTEND of both kinds on the client ([circuit.c])
      and the relay ([relay.c]), with the address filter of the relay, and their
      composition over the onion encryption.
    - [PqBuild]: the same with ML-KEM. A build through honest relays ends with hops whose
      keys, nonces and digests agree, which is where the theorems of [Onion] start.
    - [Fips202], [Sponge]: [pqclean/common/fips202.c]; the permutation is that of
      FIPS 202, and hashing in pieces is hashing at once.
    - [Mlkem], [NttRing], [MlkemNtt], [MlkemPack], [MlkemKem], [MlkemSym]:
      [pqclean/ml_kem_768] and [kem.c]. The number theoretic transform multiplies
      in the ring, encodings are inverted, and decapsulation recovers what was encapsulated
      when the noise is small and rejects implicitly otherwise. [NttRing] has the algebra,
      [Mlkem] and [MlkemSym] the code.

    Descriptors of hidden services:
    - [Dht], [DhtFile]: the first half of [dht.c]; the store refines a finite map with
      expiry, and survives being saved and loaded.
    - [Pir]: the second half of [dht.c]; both private queries retrieve the descriptor.

    The directory:
    - [Wire]: readers for the binary formats.
    - [Descriptor], [Microdesc]: relay descriptors and the microdescriptor consensus of
      [node.c], with their round trips.
    - [Consensus]: what authorities sign and clients verify ([directory.c]).
    - [Select]: the weighted choice of relays ([node.c]).
    - [DaRelays]: the table of relays of an authority ([directory.c]).
    - [Text], [TextConsensus], [Base64], [TextRoundtrip]: the text form of the
      consensus ([node.c]), printing, parsing and their round trip.

    Obfuscation:
    - [NumTheory], [Field], [FieldPow], [Elligator]: [elligator2.c]; the limb arithmetic
      is the field's, and the maps are those of Elligator 2.

    Interfaces between parts are type classes: [CircuitTable] is what [Lifecycle]
    uses of the table and [CircTable] provides, [Base64] what the text format uses
    of the codec, and [Symmetric] with [SymmetricLaws] what ML-KEM uses of the hash functions,
    which [MlkemSym] provides from [Fips202].

    ** Bounds and fuel

    Loops whose recursion is not structural run on fuel, and a theorem or lemma shows
    that the fuel given is enough: the table size for the removal loop of [CircTable],
    the payload length for the sender of [Fragment], the number of slots for the
    draining loop of [Conflux]. Random draws by rejection ([Select], [Elligator]) consume
    a list of draws, and the theorems say for which draws they return. The matrix of
    ML-KEM is sampled by rejection from a hash function, with no bound on the blocks it needs: its fuel
    is an argument of the scheme, and the theorems hold for every fuel with which the key
    pair was made. Receiving on a link runs on fuel above the number of events and twice
    the bytes that the socket still delivers, which is the measure its calls decrease; the
    callbacks of [LinkAsync] are bounded by the 3320 bytes of the handshake. Theorems on
    [CircTable], [Ring] and [Pir] hold for every size and are instantiated at those of
    the code.

    ** What is not modelled

    - The socket calls, the event loop, threads and locks: an operation runs to its end,
      as the single event loop makes it do. Of [connection.c] the pool of connections,
      its identity table, listening and accepting, the reapers and connections over a
      pluggable transport are not modelled.
    - The primitives of libsodium and the vendored cJSON, and of PQClean the signature schemes
      ML-DSA-65 and Falcon-512, which are parameters too: Falcon computes in
      floating point, and what a signature promises is a matter of probability.
    - The mode set-up of [main.c], the local proxies beyond the receive path
      ([socks5.c], [transparent.c], [dns_server.c]), hidden service rendezvous, the
      pluggable transports, configuration, monitoring and logging. They are I/O around
      the parts above; each is listed in the manifest with its reason.
    - Secrecy: what an observer learns is not a property of a run and is not stated. *)

From stdpp Require Export base numbers list gmap.
From Stdlib Require Export ZArith Lia.

#[global] Open Scope Z_scope.

(** ** Notations and automation *)

Declare Scope moor_scope.
Delimit Scope moor_scope with moor.

Create HintDb moor.
Create Rewrite HintDb width.

(** Case analysis on every boolean [Z] or [nat] comparison that guards the goal
    or a hypothesis, turning each into the proposition it decides. *)
Ltac zcase1 :=
  match goal with
  | |- context [if ?a <? ?b then _ else _] => destruct (Z.ltb_spec a b)
  | |- context [if ?a <=? ?b then _ else _] => destruct (Z.leb_spec a b)
  | |- context [if ?a =? ?b then _ else _] => destruct (Z.eqb_spec a b)
  | H : context [if ?a <? ?b then _ else _] |- _ => destruct (Z.ltb_spec a b)
  | H : context [if ?a <=? ?b then _ else _] |- _ => destruct (Z.leb_spec a b)
  | H : context [if ?a =? ?b then _ else _] |- _ => destruct (Z.eqb_spec a b)
  end.

Ltac zcases := repeat (zcase1; simplify_eq/=).

(** [lia] with division and remainder by constants. *)
Ltac zdiv_lia := Z.to_euclidean_division_equations; lia.

(** ** Fixed-width unsigned integers

    A C [uintN_t] is a [Z] in [0, 2^N); every assignment that can leave the range
    is followed by the wrap-around of its type. *)

Definition u8 (z : Z) : Z := z mod 2 ^ 8.
Definition u16 (z : Z) : Z := z mod 2 ^ 16.
Definition u32 (z : Z) : Z := z mod 2 ^ 32.
Definition u64 (z : Z) : Z := z mod 2 ^ 64.

Definition UINT32_MAX : Z := 2 ^ 32 - 1.
Definition UINT64_MAX : Z := 2 ^ 64 - 1.

Definition is_u8 (z : Z) : Prop := 0 <= z < 2 ^ 8.
Definition is_u16 (z : Z) : Prop := 0 <= z < 2 ^ 16.
Definition is_u32 (z : Z) : Prop := 0 <= z < 2 ^ 32.
Definition is_u64 (z : Z) : Prop := 0 <= z < 2 ^ 64.

(** A C [int32_t]: two's complement wrap-around of a mathematical integer. *)
Definition s32 (z : Z) : Z := (z + 2 ^ 31) mod 2 ^ 32 - 2 ^ 31.
Definition s64 (z : Z) : Z := (z + 2 ^ 63) mod 2 ^ 64 - 2 ^ 63.

Lemma u8_range z : is_u8 (u8 z).
Proof. apply Z.mod_pos_bound; lia. Qed.
Lemma u16_range z : is_u16 (u16 z).
Proof. apply Z.mod_pos_bound; lia. Qed.
Lemma u32_range z : is_u32 (u32 z).
Proof. apply Z.mod_pos_bound; lia. Qed.
Lemma u64_range z : is_u64 (u64 z).
Proof. apply Z.mod_pos_bound; lia. Qed.

Lemma u8_small z : is_u8 z → u8 z = z.
Proof. apply Z.mod_small. Qed.
Lemma u16_small z : is_u16 z → u16 z = z.
Proof. apply Z.mod_small. Qed.
Lemma u32_small z : is_u32 z → u32 z = z.
Proof. apply Z.mod_small. Qed.
Lemma u64_small z : is_u64 z → u64 z = z.
Proof. apply Z.mod_small. Qed.

Lemma s32_small z : - 2 ^ 31 <= z < 2 ^ 31 → s32 z = z.
Proof. intros. unfold s32. rewrite Z.mod_small; lia. Qed.
Lemma s64_small z : - 2 ^ 63 <= z < 2 ^ 63 → s64 z = z.
Proof. intros. unfold s64. rewrite Z.mod_small; lia. Qed.

#[export] Hint Resolve u8_range u16_range u32_range u64_range : moor.
#[export] Hint Rewrite u8_small u16_small u32_small u64_small
  using (unfold is_u8, is_u16, is_u32, is_u64 in *; lia) : width.

(** ** Byte buffers

    A C byte array is the list of its bytes, each a [Z] in [0, 256). *)

Abbreviation bytes := (list Z).

Definition bytes_ok (l : bytes) : Prop := Forall is_u8 l.

Definition zeros (n : nat) : bytes := replicate n 0.

(** [memcpy(dst + off, src, length src)], for a range inside [dst]. *)
Definition blit (off : nat) (src dst : bytes) : bytes :=
  take off dst ++ src ++ drop (off + length src) dst.

(** The [n] bytes at [buf + off]. *)
Definition slice (off n : nat) (buf : bytes) : bytes := take n (drop off buf).

(** The byte at [buf[i]]; every use is inside the buffer. *)
Definition byte_at (i : nat) (buf : bytes) : Z := nth i buf 0.

(** Byte-wise XOR of two buffers. *)
Definition xor_bytes (a b : bytes) : bytes := zip_with Z.lxor a b.

(** Constant-time equality ([sodium_memcmp(a, b, n) == 0] on [n]-byte buffers). *)
Definition bytes_eqb (a b : bytes) : bool := bool_decide (a = b).

(** Big-endian store and load: [buf[0] = v >> 8(n-1); ...; buf[n-1] = v]. *)
Fixpoint be_put (n : nat) (v : Z) : bytes :=
  match n with
  | O => []
  | S n' => u8 (Z.shiftr v (8 * Z.of_nat n')) :: be_put n' v
  end.

(** Little-endian store: [for (i = 0; i < n; i++) buf[i] = v >> (8 * i)]. *)
Definition le_put (n : nat) (v : Z) : bytes :=
  map (λ i, u8 (Z.shiftr v (8 * Z.of_nat i))) (seq 0 n).

Definition be_get (l : bytes) : Z :=
  fold_left (λ acc b, Z.lor (Z.shiftl acc 8) b) l 0.

(** ** Scans

    [for (i = 0; i < n; i++) if (f(a[i])) break;]: the first index that satisfies
    the test. *)
Fixpoint find_index {A} (f : A → bool) (l : list A) : option nat :=
  match l with
  | [] => None
  | x :: l => if f x then Some O else S <$> find_index f l
  end.

(** ** Lemmas on byte buffers *)

Lemma length_be_put n v : length (be_put n v) = n.
Proof. induction n; simpl; auto. Qed.

Lemma be_put_ok n v : bytes_ok (be_put n v).
Proof. induction n; constructor; auto using u8_range. Qed.

Lemma fold_be_shift l acc :
  bytes_ok l → 0 <= acc →
  fold_left (λ a b, Z.lor (Z.shiftl a 8) b) l acc =
  acc * 2 ^ (8 * Z.of_nat (length l)) + be_get l.
Proof.
  unfold be_get. revert acc. induction l as [|b l IH]; intros acc Hl Hacc; simpl.
  { lia. }
  inversion Hl as [|? ? Hb Hl']; subst. unfold is_u8 in Hb.
  assert (Hlor : ∀ x, 0 <= x → Z.lor (Z.shiftl x 8) b = x * 256 + b).
  { intros x Hx. rewrite Z.shiftl_mul_pow2 by lia. change (2 ^ 8) with 256.
    rewrite <- Z.lxor_lor, <- Z.add_nocarry_lxor; [lia| |];
      apply Z.bits_inj'; intros i Hi; rewrite Z.land_spec, Z.bits_0;
      destruct (Z.lt_ge_cases i 8);
      [ replace (x * 256) with (x * 2 ^ 8) by lia; rewrite Z.mul_pow2_bits_low by lia; auto
      | rewrite <- (Z.mod_small b (2 ^ 8)) by lia; rewrite Z.mod_pow2_bits_high by lia; apply andb_false_r
      | replace (x * 256) with (x * 2 ^ 8) by lia; rewrite Z.mul_pow2_bits_low by lia; auto
      | rewrite <- (Z.mod_small b (2 ^ 8)) by lia; rewrite Z.mod_pow2_bits_high by lia; apply andb_false_r ]. }
  rewrite (Hlor acc), (Hlor 0) by lia.
  rewrite (IH (acc * 256 + b)), (IH (0 * 256 + b)) by (auto; lia).
  rewrite Nat2Z.inj_succ. replace (8 * Z.succ (Z.of_nat (length l)))
    with (8 * Z.of_nat (length l) + 8) by lia.
  rewrite Z.pow_add_r by lia. lia.
Qed.

Lemma be_get_cons b l :
  is_u8 b → bytes_ok l →
  be_get (b :: l) = b * 2 ^ (8 * Z.of_nat (length l)) + be_get l.
Proof.
  intros Hb Hl. unfold be_get at 1. simpl. change (Z.shiftl 0 8) with 0.
  rewrite Z.lor_0_l. apply fold_be_shift; [done | unfold is_u8 in Hb; lia].
Qed.

Lemma be_get_range l : bytes_ok l → 0 <= be_get l < 2 ^ (8 * Z.of_nat (length l)).
Proof.
  induction l as [|b l IH]; intros Hl; [done|].
  inversion Hl as [|? ? Hb Hl']; subst. rewrite be_get_cons by done.
  specialize (IH Hl'). unfold is_u8 in Hb. cbn [length]. rewrite Nat2Z.inj_succ.
  replace (8 * Z.succ (Z.of_nat (length l))) with (8 * Z.of_nat (length l) + 8) by lia.
  rewrite Z.pow_add_r by lia. nia.
Qed.

(** Loading what was stored gives the value back, up to the width written. *)
Lemma be_get_put n v : be_get (be_put n v) = v mod 2 ^ (8 * Z.of_nat n).
Proof.
  induction n as [|n IH]; simpl be_put; [by rewrite Z.mod_1_r|].
  rewrite be_get_cons by auto using u8_range, be_put_ok.
  rewrite length_be_put, IH. unfold u8. rewrite Z.shiftr_div_pow2 by lia.
  rewrite Nat2Z.inj_succ.
  replace (8 * Z.succ (Z.of_nat n)) with (8 * Z.of_nat n + 8) by lia.
  rewrite Z.pow_add_r by lia. rewrite (Z.rem_mul_r v) by lia. lia.
Qed.

Lemma be_get_put_small n v :
  0 <= v < 2 ^ (8 * Z.of_nat n) → be_get (be_put n v) = v.
Proof. intros. rewrite be_get_put. by apply Z.mod_small. Qed.

Lemma be_put_mod n m v :
  (n <= m)%nat → be_put n (v mod 2 ^ (8 * Z.of_nat m)) = be_put n v.
Proof.
  intros Hnm. induction n as [|n IH]; simpl; [done|]. rewrite IH by lia.
  f_equal. unfold u8. rewrite <- !Z.land_ones by lia.
  apply Z.bits_inj'. intros i Hi. rewrite !Z.land_spec, !Z.shiftr_spec, Z.land_spec by lia.
  destruct (Z.lt_ge_cases i 8); [|rewrite (Z.ones_spec_high 8) by lia; by rewrite !andb_false_r].
  rewrite (Z.ones_spec_low 8), (Z.ones_spec_low (8 * Z.of_nat m)) by lia. by rewrite !andb_true_r.
Qed.

(** Storing what was loaded gives the bytes back. *)
Lemma be_put_get l : bytes_ok l → be_put (length l) (be_get l) = l.
Proof.
  induction l as [|b l IH]; intros Hl; [done|].
  inversion Hl as [|? ? Hb Hl']; subst. cbn [length be_put].
  pose proof (be_get_range l Hl') as Hr. rewrite be_get_cons by done.
  set (k := 8 * Z.of_nat (length l)) in *.
  assert (0 < 2 ^ k) by (apply Z.pow_pos_nonneg; lia).
  f_equal.
  - rewrite Z.shiftr_div_pow2 by lia. rewrite Z.div_add_l by lia.
    rewrite (Z.div_small (be_get l)) by done. rewrite Z.add_0_r. by apply u8_small.
  - rewrite <- (be_put_mod _ (length l)) by lia. fold k.
    rewrite Z.add_comm, Z.mod_add by lia. rewrite Z.mod_small by done. auto.
Qed.

Lemma length_le_put n v : length (le_put n v) = n.
Proof. unfold le_put. by rewrite length_map, length_seq. Qed.

(** The little-endian bytes are the big-endian ones reversed. *)
Lemma le_put_rev n v : le_put n v = rev (be_put n v).
Proof.
  unfold le_put. induction n as [|n IH]; [done|]. rewrite seq_S, map_app, IH. done.
Qed.

Lemma be_put_inj n v w :
  0 <= v < 2 ^ (8 * Z.of_nat n) → 0 <= w < 2 ^ (8 * Z.of_nat n) →
  be_put n v = be_put n w → v = w.
Proof.
  intros Hv Hw H. rewrite <- (be_get_put_small n v), <- (be_get_put_small n w) by done.
  by rewrite H.
Qed.

Lemma le_put_inj n v w :
  0 <= v < 2 ^ (8 * Z.of_nat n) → 0 <= w < 2 ^ (8 * Z.of_nat n) →
  le_put n v = le_put n w → v = w.
Proof.
  intros Hv Hw H. rewrite !le_put_rev in H. apply (f_equal (@rev Z)) in H.
  rewrite !rev_involutive in H. by eapply be_put_inj.
Qed.

Lemma length_blit off src dst :
  (off + length src <= length dst)%nat → length (blit off src dst) = length dst.
Proof. intros. unfold blit. rewrite !length_app, length_take, length_drop. lia. Qed.

Lemma bytes_ok_app a b : bytes_ok (a ++ b) ↔ bytes_ok a ∧ bytes_ok b.
Proof. apply Forall_app. Qed.

Lemma bytes_ok_take n l : bytes_ok l → bytes_ok (take n l).
Proof. apply Forall_take. Qed.

Lemma bytes_ok_drop n l : bytes_ok l → bytes_ok (drop n l).
Proof. apply Forall_drop. Qed.

Lemma bytes_ok_zeros n : bytes_ok (zeros n).
Proof. apply Forall_replicate. unfold is_u8. lia. Qed.

Lemma bytes_ok_slice off n l : bytes_ok l → bytes_ok (slice off n l).
Proof. intros. by apply bytes_ok_take, bytes_ok_drop. Qed.

Lemma bytes_ok_blit off src dst :
  bytes_ok src → bytes_ok dst → bytes_ok (blit off src dst).
Proof.
  intros. unfold blit. apply bytes_ok_app; split; [by apply bytes_ok_take|].
  apply bytes_ok_app; split; [done | by apply bytes_ok_drop].
Qed.

Lemma length_zeros n : length (zeros n) = n.
Proof. apply length_replicate. Qed.

Lemma length_slice off n l : length (slice off n l) = (n `min` (length l - off))%nat.
Proof. unfold slice. by rewrite length_take, length_drop. Qed.

#[export] Hint Resolve be_put_ok bytes_ok_take bytes_ok_drop bytes_ok_zeros
  bytes_ok_slice bytes_ok_blit : moor.

(** Reading back the range a [memcpy] wrote, and a range it did not touch. *)
Lemma slice_blit_same off src dst :
  (off + length src <= length dst)%nat → slice off (length src) (blit off src dst) = src.
Proof.
  intros. unfold slice, blit. rewrite drop_app_ge by (rewrite length_take; lia).
  rewrite length_take, Nat.min_l by lia. rewrite Nat.sub_diag, drop_0.
  by rewrite take_app_length.
Qed.

Lemma slice_blit_eq off n src dst :
  length src = n → (off + n <= length dst)%nat → slice off n (blit off src dst) = src.
Proof. intros <-. apply slice_blit_same. Qed.

Lemma slice_blit_before off off' n src dst :
  (off' + n <= off)%nat → (off <= length dst)%nat →
  slice off' n (blit off src dst) = slice off' n dst.
Proof.
  intros. unfold slice, blit. rewrite drop_app_le by (rewrite length_take; lia).
  rewrite take_app_le by (rewrite length_drop, length_take; lia).
  rewrite <- (take_drop off dst) at 2. rewrite drop_app_le by (rewrite length_take; lia).
  by rewrite take_app_le by (rewrite length_drop, length_take; lia).
Qed.

Lemma slice_blit_after off off' n src dst :
  (off + length src <= off')%nat → (off + length src <= length dst)%nat →
  slice off' n (blit off src dst) = slice off' n dst.
Proof.
  intros. unfold slice, blit. rewrite drop_app_ge by (rewrite length_take; lia).
  rewrite length_take, Nat.min_l by lia. rewrite drop_app_ge by lia.
  rewrite drop_drop. do 2 f_equal. lia.
Qed.

(** Writing the bytes a range already holds changes nothing. *)
Lemma blit_slice_id off n buf :
  (off + n <= length buf)%nat → blit off (slice off n buf) buf = buf.
Proof.
  intros. unfold blit. rewrite length_slice, Nat.min_l by lia. unfold slice.
  rewrite <- drop_drop, (take_drop n), take_drop. done.
Qed.

Lemma blit_blit off src1 src2 dst :
  length src1 = length src2 → (off + length src2 <= length dst)%nat →
  blit off src1 (blit off src2 dst) = blit off src1 dst.
Proof.
  intros Hl Hb. unfold blit. rewrite take_app_le by (rewrite length_take; lia).
  rewrite take_take, Nat.min_l by lia. do 2 f_equal.
  rewrite drop_app_ge by (rewrite length_take; lia).
  rewrite length_take, Nat.min_l by lia.
  rewrite drop_app_ge by lia. rewrite drop_drop. f_equal. lia.
Qed.

Lemma length_xor_bytes a b : length (xor_bytes a b) = (length a `min` length b)%nat.
Proof. apply length_zip_with. Qed.

Lemma lxor_range n a b : 0 <= n → 0 <= a < 2 ^ n → 0 <= b < 2 ^ n → 0 <= Z.lxor a b < 2 ^ n.
Proof.
  intros Hn [Ha0 Ha] [Hb0 Hb].
  assert (0 <= Z.lxor a b) by (apply Z.lxor_nonneg; lia). split; [done|].
  destruct (Z.eq_dec (Z.lxor a b) 0) as [->|Hne]; [lia|].
  destruct (Z.lt_ge_cases (Z.lxor a b) (2 ^ n)) as [|Hge]; [done|]. exfalso.
  pose proof (Z.log2_le_mono _ _ Hge) as Hl. rewrite Z.log2_pow2 in Hl by lia.
  assert (Z.testbit (Z.lxor a b) (Z.log2 (Z.lxor a b)) = true) as Hb'
    by (apply Z.bit_log2; lia).
  rewrite Z.lxor_spec, <- (Z.mod_small a (2 ^ n)), <- (Z.mod_small b (2 ^ n)) in Hb' by lia.
  rewrite !Z.mod_pow2_bits_high in Hb' by (rewrite ?Z.mod_small; lia). done.
Qed.

Lemma lor_range n a b : 0 <= n → 0 <= a < 2 ^ n → 0 <= b < 2 ^ n → 0 <= Z.lor a b < 2 ^ n.
Proof.
  intros Hn Ha Hb. split; [apply Z.lor_nonneg; lia|].
  rewrite <- (Z.mod_small a (2 ^ n)), <- (Z.mod_small b (2 ^ n)), <- !Z.land_ones, <- Z.land_lor_distr_l by lia.
  rewrite Z.land_ones by lia. apply Z.mod_pos_bound. lia.
Qed.

Lemma shiftl_lor_add n a b : 0 <= n → 0 <= b < 2 ^ n → Z.lor (Z.shiftl a n) b = a * 2 ^ n + b.
Proof.
  intros Hn Hb. rewrite Z.shiftl_mul_pow2 by lia.
  assert (Z.land (a * 2 ^ n) b = 0) as H0.
  { apply Z.bits_inj'. intros k Hk. rewrite Z.land_spec, Z.bits_0.
    destruct (Z.lt_ge_cases k n).
    - rewrite Z.mul_pow2_bits_low by lia. done.
    - rewrite <- (Z.mod_small b (2 ^ n)), Z.mod_pow2_bits_high by lia. apply andb_false_r. }
  by rewrite Z.add_nocarry_lxor, Z.lxor_lor.
Qed.

Lemma is_u8_lxor a b : is_u8 a → is_u8 b → is_u8 (Z.lxor a b).
Proof. apply (lxor_range 8). lia. Qed.

Lemma is_u32_lxor a b : is_u32 a → is_u32 b → is_u32 (Z.lxor a b).
Proof. apply (lxor_range 32). lia. Qed.

Lemma bytes_ok_xor a b : bytes_ok a → bytes_ok b → bytes_ok (xor_bytes a b).
Proof.
  intros Ha. revert b. induction Ha as [|x a Hx Ha IH]; intros [|y b] Hb;
    inversion Hb; subst; constructor; [by apply is_u8_lxor | by apply IH].
Qed.

(** XOR with the same buffer twice is the identity: what makes a stream cipher
    and a correction word invertible. *)
Lemma xor_bytes_cancel k m :
  length k = length m → xor_bytes k (xor_bytes k m) = m.
Proof.
  revert m. induction k as [|x k IH]; intros [|y m] Hl; simplify_eq/=; [done|].
  f_equal; [|auto]. by rewrite <- Z.lxor_assoc, Z.lxor_nilpotent, Z.lxor_0_l.
Qed.

Lemma xor_bytes_comm a b : xor_bytes a b = xor_bytes b a.
Proof.
  revert b. induction a as [|x a IH]; intros [|y b]; simpl; auto.
  unfold xor_bytes in *. simpl. f_equal; [apply Z.lxor_comm | apply IH].
Qed.

Lemma xor_bytes_assoc a b c :
  xor_bytes a (xor_bytes b c) = xor_bytes (xor_bytes a b) c.
Proof.
  revert b c. induction a as [|x a IH]; intros [|y b] [|z c]; simpl; auto.
  unfold xor_bytes in *. simpl. f_equal; [symmetry; apply Z.lxor_assoc | apply IH].
Qed.

Lemma xor_bytes_nilpotent a : xor_bytes a a = zeros (length a).
Proof.
  induction a as [|x a IH]; simpl; [done|]. unfold zeros. simpl.
  f_equal; [apply Z.lxor_nilpotent | exact IH].
Qed.

Lemma xor_bytes_0_l n a : length a = n → xor_bytes (zeros n) a = a.
Proof.
  intros <-. induction a as [|x a IH]; simpl; [done|]. f_equal. exact IH.
Qed.

Lemma bytes_eqb_eq a b : bytes_eqb a b = true ↔ a = b.
Proof. apply bool_decide_eq_true. Qed.

Lemma bytes_eqb_neq a b : bytes_eqb a b = false ↔ a ≠ b.
Proof. apply bool_decide_eq_false. Qed.

Lemma bytes_eqb_refl a : bytes_eqb a a = true.
Proof. by apply bytes_eqb_eq. Qed.

(** ** Lemmas on scans *)

Section FindIndex.
  Context {A : Type}.
  Implicit Types (f : A → bool) (l : list A).

Lemma find_index_Some f l i :
  find_index f l = Some i →
  ∃ x, l !! i = Some x ∧ f x = true ∧ ∀ j y, (j < i)%nat → l !! j = Some y → f y = false.
Proof.
  revert i. induction l as [|x l IH]; intros i; simpl; [done|].
  destruct (f x) eqn:E.
  - intros [= <-]. exists x. split; [done|]. split; [done|]. intros; lia.
  - destruct (find_index f l) as [k|] eqn:E2; [|done]. intros [= <-].
    destruct (IH k eq_refl) as (y & Hy & Hf & Hmin). exists y. split; [done|]. split; [done|].
    intros [|j] z Hj Hz; simplify_eq/=; [done|]. eapply Hmin; [|done]. lia.
Qed.

Lemma find_index_None f l : find_index f l = None ↔ Forall (λ x, f x = false) l.
Proof.
  induction l as [|x l IH]; simpl; [by split|]. rewrite Forall_cons.
  destruct (f x); [by split; [|intros [? _]]|]. rewrite <- IH.
  destruct (find_index f l); simpl; split; [done|by intros [_ ?]|done|done].
Qed.

Lemma find_index_lt f l i : find_index f l = Some i → (i < length l)%nat.
Proof. intros (x & Hx & _)%find_index_Some. by eapply lookup_lt_Some. Qed.

Lemma find_index_intro f l i x :
  l !! i = Some x → f x = true →
  (∀ j y, (j < i)%nat → l !! j = Some y → f y = false) → find_index f l = Some i.
Proof.
  revert i. induction l as [|z l IH]; intros i Hi Hf Hmin; [done|]. simpl.
  destruct i as [|i]; simplify_eq/=; [by rewrite Hf|].
  rewrite (Hmin O z ltac:(lia) eq_refl). rewrite (IH i Hi Hf); [done|].
  intros j y Hj Hy. eapply (Hmin (S j)); [lia|done].
Qed.

Lemma find_index_ext f g l :
  (∀ x, x ∈ l → f x = g x) → find_index f l = find_index g l.
Proof.
  induction l as [|x l IH]; intros H; simpl; [done|].
  rewrite (H x) by set_solver. rewrite IH; [done|]. intros y Hy. apply H. set_solver.
Qed.

(** Overwriting a non-matching cell by a non-matching value does not move the
    first match. *)
Lemma find_index_insert_other f l i x y :
  l !! i = Some x → f x = false → f y = false →
  find_index f (<[i := y]> l) = find_index f l.
Proof.
  revert i. induction l as [|z l IH]; intros [|i] Hi Hx Hy; simplify_eq/=; [by rewrite Hx, Hy|].
  destruct (f z); [done|]. by rewrite IH.
Qed.

(** Overwriting the first match by another match keeps it first. *)
Lemma find_index_insert_same f l i y :
  find_index f l = Some i → f y = true → find_index f (<[i := y]> l) = Some i.
Proof.
  intros H Hy. pose proof (find_index_lt _ _ _ H).
  destruct (find_index_Some _ _ _ H) as (x & Hx & _ & Hmin).
  apply (find_index_intro _ _ _ y); [by apply list_lookup_insert_eq|done|].
  intros j z Hj Hz. rewrite list_lookup_insert_ne in Hz by lia. eauto.
Qed.
End FindIndex.

Lemma NoDup_insert_fresh {A} (l : list A) i x : NoDup l → x ∉ l → NoDup (<[i := x]> l).
Proof.
  rewrite !NoDup_alt. intros Hl Hx j k y Hj Hk.
  destruct (decide (j = i)) as [->|Hji], (decide (k = i)) as [->|Hki]; [done| | |].
  - rewrite list_lookup_insert_ne in Hk by done. rewrite list_lookup_insert in Hj.
    case_decide; [|naive_solver]. destruct Hx. simplify_eq. by eapply list_elem_of_lookup_2.
  - rewrite list_lookup_insert_ne in Hj by done. rewrite list_lookup_insert in Hk.
    case_decide; [|naive_solver]. destruct Hx. simplify_eq. by eapply list_elem_of_lookup_2.
  - rewrite list_lookup_insert_ne in Hj, Hk by done. by eapply Hl.
Qed.

(** Overwriting the value at the position of a key is an insertion in the map. *)
Lemma list_to_map_update {A} (l : list (list Z * A)) i k x y :
  NoDup l.*1 → l !! i = Some (k, y) →
  (list_to_map (<[i := (k, x)]> l) : gmap (list Z) A) = <[k := x]> (list_to_map l).
Proof.
  intros Hnd Hi. assert (i < length l)%nat as Hlt by by eapply lookup_lt_Some.
  set (rest := take i l ++ drop (S i) l).
  assert (l ≡ₚ (k, y) :: rest) as Hl.
  { rewrite <- (take_drop_middle l i (k, y) Hi) at 1. unfold rest.
    by rewrite <- Permutation_middle. }
  assert (<[i := (k, x)]> l ≡ₚ (k, x) :: rest) as Hl'.
  { rewrite insert_take_drop by done. unfold rest. by rewrite <- Permutation_middle. }
  assert (NoDup (<[i := (k, x)]> l).*1) as Hnd'.
  { rewrite list_fmap_insert. simpl. rewrite list_insert_id; [done|]. by rewrite list_lookup_fmap, Hi. }
  rewrite (list_to_map_proper _ _ Hnd' Hl'), (list_to_map_proper _ _ Hnd Hl).
  rewrite !list_to_map_cons. by rewrite insert_insert_eq.
Qed.

Lemma alter_insert {A} (f : A → A) (l : list A) i x :
  l !! i = Some x → alter f i l = <[i := f x]> l.
Proof.
  intros Hi. rewrite list_insert_alter. apply list_alter_ext; [|done].
  intros y Hy. by simplify_eq.
Qed.

Lemma filter_all {A} (P : A → Prop) `{!∀ x, Decision (P x)} (l : list A) :
  Forall P l → filter P l = l.
Proof. induction 1 as [|x l Hx _ IH]; [done|]. rewrite filter_cons_True by done. by rewrite IH. Qed.
