(* ===== verification/Cell.v ===== *)
(** * Cell: the fixed-size cell format and the rolling relay digest

    Models [src/src/cell.c] and [src/include/moor/cell.h]: the 514-byte link cell,
    the relay header inside its 509-byte payload, the builders of the control
    cells, and the digest that decides at which hop a relay cell is recognised.
    BLAKE2b ([moor_crypto_hash], a libsodium call) is the parameter [hash]. *)

From S2P Require Import Prelude.

(** Sizes fixed by the wire format ([include/moor/limits.h]). *)
Definition MOOR_CELL_SIZE : nat := 514.
Definition MOOR_CELL_HEADER : nat := 5.
Definition MOOR_CELL_PAYLOAD : nat := 509.
Definition MOOR_RELAY_HEADER : nat := 11.
Definition MOOR_RELAY_DATA : nat := 498.

(** ** Commands *)

Inductive moor_cell_cmd_t :=
  | CELL_PADDING | CELL_CREATE | CELL_CREATED | CELL_RELAY | CELL_DESTROY
  | CELL_NETINFO | CELL_CREATE_PQ | CELL_CREATED_PQ | CELL_KEM_CT | CELL_RELAY_EARLY.

Definition cell_code (c : moor_cell_cmd_t) : Z :=
  match c with
  | CELL_PADDING => 0 | CELL_CREATE => 1 | CELL_CREATED => 2 | CELL_RELAY => 3
  | CELL_DESTROY => 4 | CELL_NETINFO => 5 | CELL_CREATE_PQ => 6
  | CELL_CREATED_PQ => 7 | CELL_KEM_CT => 8 | CELL_RELAY_EARLY => 9
  end.

Inductive moor_relay_cmd_t :=
  | RELAY_BEGIN | RELAY_DATA | RELAY_END | RELAY_CONNECTED | RELAY_SENDME
  | RELAY_EXTEND | RELAY_EXTENDED | RELAY_EXTEND2 | RELAY_EXTENDED2 | RELAY_DROP
  | RELAY_RESOLVE | RELAY_RESOLVED | RELAY_ESTABLISH_INTRO | RELAY_INTRO_ESTABLISHED
  | RELAY_INTRODUCE1 | RELAY_INTRODUCE2 | RELAY_RENDEZVOUS1 | RELAY_RENDEZVOUS2
  | RELAY_ESTABLISH_RENDEZVOUS | RELAY_RENDEZVOUS_ESTABLISHED | RELAY_FRAGMENT
  | RELAY_FRAGMENT_END | RELAY_EXTEND_PQ | RELAY_EXTENDED_PQ | RELAY_KEM_OFFER
  | RELAY_KEM_ACCEPT | RELAY_E2E_KEM_CT | RELAY_E2E_KEM_ACK | RELAY_CONFLUX_LINK
  | RELAY_CONFLUX_LINKED | RELAY_CONFLUX_SWITCH | RELAY_XON | RELAY_XOFF
  | RELAY_BEGIN_UDP | RELAY_DHT_STORE | RELAY_DHT_STORED | RELAY_DHT_FETCH
  | RELAY_DHT_FOUND | RELAY_DHT_NOT_FOUND | RELAY_DHT_PIR_QUERY
  | RELAY_DHT_PIR_RESPONSE | RELAY_DHT_DPF_QUERY | RELAY_DHT_DPF_RESPONSE.

Definition relay_code (c : moor_relay_cmd_t) : Z :=
  match c with
  | RELAY_BEGIN => 1 | RELAY_DATA => 2 | RELAY_END => 3 | RELAY_CONNECTED => 4
  | RELAY_SENDME => 5 | RELAY_EXTEND => 6 | RELAY_EXTENDED => 7 | RELAY_EXTEND2 => 8
  | RELAY_EXTENDED2 => 9 | RELAY_DROP => 10 | RELAY_RESOLVE => 11 | RELAY_RESOLVED => 12
  | RELAY_ESTABLISH_INTRO => 32 | RELAY_INTRO_ESTABLISHED => 33
  | RELAY_INTRODUCE1 => 34 | RELAY_INTRODUCE2 => 35 | RELAY_RENDEZVOUS1 => 36
  | RELAY_RENDEZVOUS2 => 37 | RELAY_ESTABLISH_RENDEZVOUS => 38
  | RELAY_RENDEZVOUS_ESTABLISHED => 39 | RELAY_FRAGMENT => 40 | RELAY_FRAGMENT_END => 41
  | RELAY_EXTEND_PQ => 42 | RELAY_EXTENDED_PQ => 43 | RELAY_KEM_OFFER => 44
  | RELAY_KEM_ACCEPT => 45 | RELAY_E2E_KEM_CT => 46 | RELAY_E2E_KEM_ACK => 47
  | RELAY_CONFLUX_LINK => 50 | RELAY_CONFLUX_LINKED => 51 | RELAY_CONFLUX_SWITCH => 52
  | RELAY_XON => 53 | RELAY_XOFF => 54 | RELAY_BEGIN_UDP => 28
  | RELAY_DHT_STORE => 60 | RELAY_DHT_STORED => 61 | RELAY_DHT_FETCH => 62
  | RELAY_DHT_FOUND => 63 | RELAY_DHT_NOT_FOUND => 64 | RELAY_DHT_PIR_QUERY => 66
  | RELAY_DHT_PIR_RESPONSE => 67 | RELAY_DHT_DPF_QUERY => 68
  | RELAY_DHT_DPF_RESPONSE => 69
  end.

(** ** The cell and its relay payload *)

Record moor_cell_t := mk_cell {
  circuit_id : Z;      (* uint32_t *)
  command : Z;         (* uint8_t *)
  payload : bytes;     (* uint8_t[509] *)
}.

Record moor_relay_payload_t := mk_relay {
  relay_command : Z;   (* uint8_t *)
  recognized : Z;      (* uint16_t *)
  stream_id : Z;       (* uint16_t *)
  digest : bytes;      (* uint8_t[4] *)
  data_length : Z;     (* uint16_t *)
  data : bytes;        (* uint8_t[498] *)
}.

Definition payload_ok (p : bytes) : Prop := length p = MOOR_CELL_PAYLOAD ∧ bytes_ok p.

Definition cell_ok (c : moor_cell_t) : Prop :=
  is_u32 (circuit_id c) ∧ is_u8 (command c) ∧ payload_ok (payload c).

Definition relay_ok (r : moor_relay_payload_t) : Prop :=
  is_u8 (relay_command r) ∧ is_u16 (recognized r) ∧ is_u16 (stream_id r) ∧
  length (digest r) = 4%nat ∧ bytes_ok (digest r) ∧ is_u16 (data_length r) ∧
  length (data r) = MOOR_RELAY_DATA ∧ bytes_ok (data r).

(** ** Packing and unpacking *)

Definition moor_cell_pack (c : moor_cell_t) : bytes :=
  be_put 4 (circuit_id c) ++ [command c] ++ take MOOR_CELL_PAYLOAD (payload c).

Definition moor_cell_unpack (wire : bytes) : moor_cell_t :=
  {| circuit_id := be_get (slice 0 4 wire);
     command := byte_at 4 wire;
     payload := slice MOOR_CELL_HEADER MOOR_CELL_PAYLOAD wire |}.

(** [if (data_length > 0 && data_length <= MOOR_RELAY_DATA)] guards the copy of
    the data; a longer length is written in the header with no data. *)
Definition moor_relay_pack (r : moor_relay_payload_t) : bytes :=
  let p := zeros MOOR_CELL_PAYLOAD in
  let p := blit 0 [relay_command r] p in
  let p := blit 1 (be_put 2 (recognized r)) p in
  let p := blit 3 (be_put 2 (stream_id r)) p in
  let p := blit 5 (take 4 (digest r)) p in
  let p := blit 9 (be_put 2 (data_length r)) p in
  if (0 <? data_length r) && (data_length r <=? Z.of_nat MOOR_RELAY_DATA)
  then blit MOOR_RELAY_HEADER (take (Z.to_nat (data_length r)) (data r)) p
  else p.

(** The struct is filled in place: [data] keeps its old bytes past the length. *)
Definition moor_relay_unpack (old : moor_relay_payload_t) (p : bytes)
  : moor_relay_payload_t :=
  let len := be_get (slice 9 2 p) in
  let len := if Z.of_nat MOOR_RELAY_DATA <? len then Z.of_nat MOOR_RELAY_DATA else len in
  {| relay_command := byte_at 0 p;
     recognized := be_get (slice 1 2 p);
     stream_id := be_get (slice 3 2 p);
     digest := slice 5 4 p;
     data_length := len;
     data := blit 0 (slice MOOR_RELAY_HEADER (Z.to_nat len) p) (data old) |}.

(** The eleven header bytes, as one list. *)
Definition relay_header (r : moor_relay_payload_t) : bytes :=
  relay_command r :: be_put 2 (recognized r) ++ be_put 2 (stream_id r) ++
  digest r ++ be_put 2 (data_length r).

(** ** Builders *)

Definition zero_cell : moor_cell_t := mk_cell 0 0 (zeros MOOR_CELL_PAYLOAD).

Definition zero_relay : moor_relay_payload_t :=
  mk_relay 0 0 0 (zeros 4) 0 (zeros MOOR_RELAY_DATA).

Definition moor_cell_create (cid : Z) (relay_identity_pk ephemeral_pk : bytes)
  : moor_cell_t :=
  {| circuit_id := cid;
     command := cell_code CELL_CREATE;
     payload := blit 32 ephemeral_pk
                  (blit 0 relay_identity_pk (zeros MOOR_CELL_PAYLOAD)) |}.

Definition moor_cell_created (cid : Z) (relay_eph_pk auth_tag : bytes) : moor_cell_t :=
  {| circuit_id := cid;
     command := cell_code CELL_CREATED;
     payload := blit 32 auth_tag
                  (blit 0 relay_eph_pk (zeros MOOR_CELL_PAYLOAD)) |}.

Definition moor_cell_destroy (cid : Z) : moor_cell_t :=
  {| circuit_id := cid; command := cell_code CELL_DESTROY;
     payload := zeros MOOR_CELL_PAYLOAD |}.

Definition moor_cell_destroy_reason (cid reason : Z) : moor_cell_t :=
  {| circuit_id := cid; command := cell_code CELL_DESTROY;
     payload := blit 0 [reason] (zeros MOOR_CELL_PAYLOAD) |}.

(** [data] is a nullable pointer, [data_len] a [uint16_t]. *)
Definition moor_cell_relay (cid relay_cmd sid : Z) (data : option bytes) (data_len : Z)
  : moor_cell_t :=
  let d := match data with
           | Some src =>
               if (0 <? data_len) && (data_len <=? Z.of_nat MOOR_RELAY_DATA)
               then blit 0 (take (Z.to_nat data_len) src) (zeros MOOR_RELAY_DATA)
               else zeros MOOR_RELAY_DATA
           | None => zeros MOOR_RELAY_DATA
           end in
  {| circuit_id := cid;
     command := cell_code CELL_RELAY;
     payload := moor_relay_pack (mk_relay relay_cmd 0 sid (zeros 4) data_len d) |}.

(** ** The rolling digest *)

Section Digest.
  (** [moor_crypto_hash]: BLAKE2b-256. *)
  Context (hash : bytes → bytes).

(** Returns the payload with its digest field set and the new running digest. *)
Definition moor_relay_set_digest (p running : bytes) : bytes * bytes :=
  let p := blit 5 (zeros 4) p in
  let new_digest := hash (running ++ p) in
  (blit 5 (take 4 new_digest) p, new_digest).

(** [None] is the return value -1: the running digest is left unchanged. *)
Definition moor_relay_check_digest (p running : bytes) : option bytes :=
  let cell_digest := slice 5 4 p in
  let expected := hash (running ++ blit 5 (zeros 4) p) in
  if bytes_eqb cell_digest (take 4 expected) then Some expected else None.

(** A stream of cells sent on one hop, and the peer's check of each in turn. *)
Fixpoint set_digests (ps : list bytes) (running : bytes) : list bytes * bytes :=
  match ps with
  | [] => ([], running)
  | p :: ps =>
      let '(p', running') := moor_relay_set_digest p running in
      let '(ps', final) := set_digests ps running' in
      (p' :: ps', final)
  end.

Fixpoint check_digests (ps : list bytes) (running : bytes) : option bytes :=
  match ps with
  | [] => Some running
  | p :: ps =>
      match moor_relay_check_digest p running with
      | Some running' => check_digests ps running'
      | None => None
      end
  end.
End Digest.

(** ** Cell format *)

Lemma length_moor_cell_pack c :
  payload_ok (payload c) → length (moor_cell_pack c) = MOOR_CELL_SIZE.
Proof.
  intros [Hl _]. unfold moor_cell_pack.
  rewrite !length_app, length_be_put, length_take, Hl. done.
Qed.

Lemma slice_app_l off n (a b : bytes) :
  (off + n <= length a)%nat → slice off n (a ++ b) = slice off n a.
Proof.
  intros. unfold slice. rewrite drop_app_le by lia.
  apply take_app_le. rewrite length_drop. lia.
Qed.

Lemma slice_app_r off n (a b : bytes) :
  (length a <= off)%nat → slice off n (a ++ b) = slice (off - length a) n b.
Proof. intros. unfold slice. by rewrite drop_app_ge by lia. Qed.

Lemma slice_0_all n (a : bytes) : (length a <= n)%nat → slice 0 n a = a.
Proof. intros. unfold slice. rewrite drop_0. by apply take_ge. Qed.

(** Link cells round-trip: unpacking the 514 wire bytes [moor_cell_pack]
    writes gives back the circuit id, command and payload of every well-formed
    cell. *)
Theorem cell_unpack_pack c : cell_ok c → moor_cell_unpack (moor_cell_pack c) = c.
Proof.
  intros (Hid & Hcmd & Hl & Hok). destruct c as [cid cmd p]. simpl in *.
  unfold moor_cell_unpack, moor_cell_pack. cbn [circuit_id command payload].
  rewrite (take_ge p) by lia. f_equal.
  - rewrite slice_app_l by (by rewrite length_be_put).
    rewrite slice_0_all by (by rewrite length_be_put). by apply be_get_put_small.
  - rewrite app_assoc, slice_app_r by (rewrite length_app, length_be_put; done).
    rewrite length_app, length_be_put. apply slice_0_all. unfold MOOR_CELL_PAYLOAD in *. lia.
Qed.

Lemma cell_unpack_pack_witness :
  moor_cell_unpack (moor_cell_pack (moor_cell_destroy_reason 4026531841 8)) =
  moor_cell_destroy_reason 4026531841 8.
Proof.
  apply cell_unpack_pack. split; [|split; [|split]].
  - unfold is_u32; simpl; lia.
  - unfold is_u8; simpl; lia.
  - reflexivity.
  - apply bytes_ok_blit; [repeat constructor; unfold is_u8; lia | apply bytes_ok_zeros].
Defined.

(** Conversely every 514-byte frame is the packing of a well-formed cell. *)
Lemma cell_pack_unpack w :
  length w = MOOR_CELL_SIZE → bytes_ok w →
  moor_cell_pack (moor_cell_unpack w) = w ∧ cell_ok (moor_cell_unpack w).
Proof.
  intros Hl Hok. unfold MOOR_CELL_SIZE in Hl.
  do 5 (destruct w as [|? w]; [done|]). simpl in Hl.
  assert (Hp : payload_ok (slice MOOR_CELL_HEADER MOOR_CELL_PAYLOAD (z :: z0 :: z1 :: z2 :: z3 :: w))).
  { split; [rewrite length_slice; cbn [length]; unfold MOOR_CELL_PAYLOAD, MOOR_CELL_HEADER; lia
           | by apply bytes_ok_slice]. }
  pose proof Hp as [Hpl _].
  assert (H4 : bytes_ok [z; z0; z1; z2]) by (apply (bytes_ok_take 4) in Hok; exact Hok).
  unfold moor_cell_pack, moor_cell_unpack. cbn [circuit_id command payload].
  change (slice 0 4 (z :: z0 :: z1 :: z2 :: z3 :: w)) with [z; z0; z1; z2].
  split; [|split; [|split; [|done]]].
  - change 4%nat with (length [z; z0; z1; z2]) at 1. rewrite be_put_get by done.
    rewrite take_ge by lia. unfold slice. simpl. do 5 f_equal. apply take_ge.
    unfold MOOR_CELL_PAYLOAD. lia.
  - apply (be_get_range _ H4).
  - unfold byte_at. simpl. by apply (Forall_forall is_u8 (z :: z0 :: z1 :: z2 :: z3 :: w)); set_solver.
Qed.

(** ** Relay payload format *)

Lemma length_relay_header r :
  length (digest r) = 4%nat → length (relay_header r) = MOOR_RELAY_HEADER.
Proof.
  intros H. unfold relay_header. cbn [length]. rewrite !length_app, !length_be_put, H. done.
Qed.

(** The bytes [moor_relay_pack] produces, written out: header, data, zero padding. *)
Lemma moor_relay_pack_form r :
  length (digest r) = 4%nat → length (data r) = MOOR_RELAY_DATA →
  moor_relay_pack r =
    relay_header r ++
    (if (0 <? data_length r) && (data_length r <=? 498)
     then take (Z.to_nat (data_length r)) (data r) ++ zeros (498 - Z.to_nat (data_length r))
     else zeros 498).
Proof.
  intros Hd Hdata. destruct r as [c rc sid d len dat]. cbn [digest data] in *.
  do 4 (destruct d as [|? d]; [done|]). destruct d; [|done].
  set (r := mk_relay _ _ _ _ _ _).
  assert (Hh : blit 9 (be_put 2 len) (blit 5 (take 4 [z; z0; z1; z2])
     (blit 3 (be_put 2 sid) (blit 1 (be_put 2 rc) (blit 0 [c] (zeros MOOR_CELL_PAYLOAD)))))
     = relay_header r ++ zeros 498) by reflexivity.
  unfold moor_relay_pack. subst r. cbn [relay_command recognized stream_id digest data_length data].
  rewrite Hh. change (Z.of_nat MOOR_RELAY_DATA) with 498.
  destruct (Z.ltb_spec 0 len), (Z.leb_spec len 498); simpl andb; try done.
  assert (Hlen : length (take (Z.to_nat len) dat) = Z.to_nat len)
    by (rewrite length_take; unfold MOOR_RELAY_DATA in Hdata; lia).
  unfold blit. rewrite Hlen. rewrite take_app_le by (rewrite length_relay_header; done).
  rewrite take_ge by (rewrite length_relay_header; done). f_equal. f_equal.
  rewrite drop_app_ge by (rewrite length_relay_header by done; lia).
  rewrite length_relay_header by done. unfold zeros. rewrite drop_replicate. f_equal. lia.
Qed.

Lemma length_moor_relay_pack r :
  length (digest r) = 4%nat → length (data r) = MOOR_RELAY_DATA →
  length (moor_relay_pack r) = MOOR_CELL_PAYLOAD.
Proof.
  intros Hd Hdata. rewrite moor_relay_pack_form by done.
  rewrite length_app, length_relay_header by done.
  destruct ((0 <? data_length r) && (data_length r <=? 498)) eqn:E; [|done].
  rewrite length_app, length_take, length_zeros, Hdata.
  unfold MOOR_RELAY_HEADER, MOOR_CELL_PAYLOAD, MOOR_RELAY_DATA. lia.
Qed.

Lemma relay_pack_ok r : relay_ok r → payload_ok (moor_relay_pack r).
Proof.
  intros (Hc & Hr & Hs & Hd & Hdok & Hlen & Hdata & Hdataok).
  split; [by apply length_moor_relay_pack|].
  rewrite moor_relay_pack_form by done. unfold relay_header. rewrite bytes_ok_app. split.
  - constructor; [done|]. rewrite !bytes_ok_app. auto 10 with moor.
  - case_match; [rewrite bytes_ok_app|]; auto with moor.
Qed.

(** What [moor_relay_unpack] reads from the header of a packed payload. *)
Lemma relay_unpack_header old r rest :
  is_u16 (recognized r) → is_u16 (stream_id r) → length (digest r) = 4%nat →
  is_u16 (data_length r) →
  moor_relay_unpack old (relay_header r ++ rest) =
    let len := if 498 <? data_length r then 498 else data_length r in
    {| relay_command := relay_command r; recognized := recognized r;
       stream_id := stream_id r; digest := digest r; data_length := len;
       data := blit 0 (take (Z.to_nat len) rest) (data old) |}.
Proof.
  intros Hr Hs Hd Hl. destruct r as [c rc sid d len dat].
  cbn [recognized stream_id digest data_length] in *.
  do 4 (destruct d as [|? d]; [done|]). destruct d; [|done].
  set (h := relay_header _).
  assert (H9 : slice 9 2 (h ++ rest) = be_put 2 len) by reflexivity.
  assert (H1 : slice 1 2 (h ++ rest) = be_put 2 rc) by reflexivity.
  assert (H3 : slice 3 2 (h ++ rest) = be_put 2 sid) by reflexivity.
  unfold moor_relay_unpack. rewrite H9, H1, H3, !be_get_put_small by done. done.
Qed.

Lemma relay_unpack_pack_eq old r :
  is_u16 (recognized r) → is_u16 (stream_id r) → length (digest r) = 4%nat →
  is_u16 (data_length r) → length (data r) = MOOR_RELAY_DATA → data_length r <= 498 →
  moor_relay_unpack old (moor_relay_pack r) =
    {| r with data := blit 0 (take (Z.to_nat (data_length r)) (data r)) (data old) |}.
Proof.
  intros Hr Hs Hd Hlen Hdata Hmax.
  rewrite moor_relay_pack_form by done. rewrite relay_unpack_header by done.
  unfold is_u16, MOOR_RELAY_DATA in *. cbv zeta.
  destruct (Z.ltb_spec 498 (data_length r)); [lia|].
  destruct r as [c rc sid d len dat]; cbn [data_length data] in *.
  destruct ((0 <? len) && (len <=? 498)) eqn:E.
  - rewrite take_app_le, take_take, Nat.min_id by (rewrite length_take; lia). done.
  - replace len with 0 by lia. done.
Qed.

(** What the receiver of a data cell reads: the command, the stream, the length and
    exactly the sender's bytes. *)
Lemma cell_relay_unpack old cid cmd sid src :
  is_u16 sid → (0 < length src <= MOOR_RELAY_DATA)%nat → length (data old) = MOOR_RELAY_DATA →
  let r := moor_relay_unpack old
             (payload (moor_cell_relay cid cmd sid (Some src) (Z.of_nat (length src)))) in
  relay_command r = cmd ∧ stream_id r = sid ∧ data_length r = Z.of_nat (length src) ∧
  take (length src) (data r) = src ∧ length (data r) = MOOR_RELAY_DATA.
Proof.
  intros Hsid Hlen Hold. cbv zeta. unfold moor_cell_relay.
  replace (0 <? Z.of_nat (length src)) with true by (symmetry; apply Z.ltb_lt; lia).
  replace (Z.of_nat (length src) <=? Z.of_nat MOOR_RELAY_DATA) with true
    by (symmetry; apply Z.leb_le; lia).
  cbn [andb payload]. rewrite Nat2Z.id, (take_ge src) by lia.
  assert (length (blit 0 src (zeros MOOR_RELAY_DATA)) = MOOR_RELAY_DATA) as Hb.
  { rewrite length_blit; rewrite length_zeros; lia. }
  rewrite relay_unpack_pack_eq; cbn [recognized stream_id digest data_length data relay_command];
    [|done|done|done|unfold is_u16, MOOR_RELAY_DATA in *; lia|done|unfold MOOR_RELAY_DATA in *; lia].
  rewrite Nat2Z.id.
  assert (take (length src) (blit 0 src (zeros MOOR_RELAY_DATA)) = src) as ->.
  { unfold blit. simpl. apply take_app_length. }
  split_and!; [done..| |]; [unfold blit; simpl; apply take_app_length|].
  rewrite length_blit; lia.
Qed.

(** Relay payloads round-trip: unpacking a packed payload recovers the
    command, the recognised field, the stream id, the digest and the length, and
    copies exactly [data_length] data bytes over the destination buffer, whose
    remaining bytes keep what they held. *)
Theorem relay_unpack_pack old r :
  relay_ok r → data_length r <= 498 →
  moor_relay_unpack old (moor_relay_pack r) =
    {| r with data := blit 0 (take (Z.to_nat (data_length r)) (data r)) (data old) |}.
Proof.
  intros (_ & Hr & Hs & Hd & _ & Hlen & Hdata & _) Hmax. by apply relay_unpack_pack_eq.
Qed.

Lemma relay_unpack_pack_witness :
  moor_relay_unpack zero_relay
    (moor_relay_pack (mk_relay 2 0 7 [1; 2; 3; 4] 3 (blit 0 [9; 8; 7] (zeros 498)))) =
  mk_relay 2 0 7 [1; 2; 3; 4] 3 (blit 0 [9; 8; 7] (zeros 498)).
Proof.
  rewrite (relay_unpack_pack zero_relay
    (mk_relay 2 0 7 [1; 2; 3; 4] 3 (blit 0 [9; 8; 7] (zeros 498)))).
  - reflexivity.
  - unfold relay_ok, is_u8, is_u16. cbn [relay_command recognized stream_id digest data_length data].
    split; [lia|]. split; [lia|]. split; [lia|]. split; [done|].
    split; [repeat constructor; unfold is_u8; lia|]. split; [lia|]. split; [done|].
    apply bytes_ok_blit; [repeat constructor; unfold is_u8; lia | apply bytes_ok_zeros].
  - simpl. lia.
Defined.

(** An over-long [data_length] is written to the header with no data, and the
    receiver clamps it: the peer reads [MOOR_RELAY_DATA] zero bytes. *)
Lemma relay_unpack_pack_oversize r :
  relay_ok r → 498 < data_length r →
  moor_relay_unpack zero_relay (moor_relay_pack r) =
    {| r with data_length := 498; data := zeros 498 |}.
Proof.
  intros (Hc & Hr & Hs & Hd & Hdok & Hlen & Hdata & Hdataok) Hmax.
  rewrite moor_relay_pack_form by done. rewrite relay_unpack_header by done. simpl.
  destruct (Z.ltb_spec 498 (data_length r)); [|lia].
  destruct (Z.leb_spec (data_length r) 498); [lia|]. rewrite andb_false_r. done.
Qed.

(** ** The rolling digest keeps the two ends of a hop in step *)

Section DigestFacts.
  Context (hash : bytes → bytes).
  Context (hash_length : ∀ m, length (hash m) = 32%nat).

Lemma set_digest_length p d :
  length p = MOOR_CELL_PAYLOAD →
  length (moor_relay_set_digest hash p d).1 = MOOR_CELL_PAYLOAD ∧
  length (moor_relay_set_digest hash p d).2 = 32%nat.
Proof.
  intros Hp. unfold moor_relay_set_digest. cbn [fst snd]. split; [|done].
  assert (length (blit 5 (zeros 4) p) = MOOR_CELL_PAYLOAD)
    by (rewrite length_blit; rewrite ?length_zeros, ?Hp; [done|unfold MOOR_CELL_PAYLOAD; lia]).
  rewrite length_blit; [done|]. rewrite length_take, hash_length. unfold MOOR_CELL_PAYLOAD in *. lia.
Qed.

(** The digest field does not take part in the digest. *)
Lemma set_digest_blank p d x :
  length p = MOOR_CELL_PAYLOAD → length x = 4%nat →
  moor_relay_set_digest hash (blit 5 x p) d = moor_relay_set_digest hash p d.
Proof.
  intros Hp Hx. unfold moor_relay_set_digest.
  rewrite (blit_blit 5 (zeros 4) x); [done| by rewrite Hx |]. rewrite Hx, Hp. unfold MOOR_CELL_PAYLOAD. lia.
Qed.

(** The peer accepts a cell whose digest was set against the same state, and
    both ends move to the same new state. *)
Lemma check_set_digest p d :
  length p = MOOR_CELL_PAYLOAD →
  moor_relay_check_digest hash (moor_relay_set_digest hash p d).1 d =
    Some (moor_relay_set_digest hash p d).2.
Proof.
  intros Hp. unfold moor_relay_set_digest, moor_relay_check_digest. cbn [fst snd].
  set (q := blit 5 (zeros 4) p). set (h := hash (d ++ q)).
  assert (Hq : length q = MOOR_CELL_PAYLOAD)
    by (unfold q; rewrite length_blit; rewrite ?length_zeros, ?Hp; [done|unfold MOOR_CELL_PAYLOAD; lia]).
  assert (H4 : length (take 4 h) = 4%nat) by (rewrite length_take; unfold h; rewrite hash_length; done).
  assert (Hz : blit 5 (zeros 4) (blit 5 (take 4 h) q) = q).
  { rewrite blit_blit by (rewrite ?length_zeros, ?H4, ?Hq; unfold MOOR_CELL_PAYLOAD; lia).
    unfold q. rewrite blit_blit by (rewrite ?length_zeros, ?Hp; unfold MOOR_CELL_PAYLOAD; lia). done. }
  rewrite Hz. fold h. rewrite slice_blit_eq by (rewrite ?Hq; unfold MOOR_CELL_PAYLOAD; lia || done).
  by rewrite bytes_eqb_refl.
Qed.

(** C28. Digest synchrony of a hop: whatever cells one end sends, the other end,
    starting from the same running digest and checking them in order, accepts
    every one of them and finishes with the sender's running digest. *)
Theorem digest_stream_sync (ps : list bytes) (d : bytes) :
  Forall (λ p, length p = MOOR_CELL_PAYLOAD) ps →
  check_digests hash (set_digests hash ps d).1 d = Some (set_digests hash ps d).2.
Proof.
  intros Hps. revert d. induction Hps as [|p ps Hp Hps IH]; intros d; [done|]. cbn [set_digests].
  pose proof (check_set_digest p d Hp) as Hc.
  destruct (moor_relay_set_digest hash p d) as [p' d'] eqn:E.
  specialize (IH d'). destruct (set_digests hash ps d') as [ps' f] eqn:E2.
  cbn [fst snd] in *. cbn [check_digests]. by rewrite Hc.
Qed.

(** A cell accepted against some state carries the first four digest bytes the
    sender would have written, and the state moves to the sender's: acceptance
    is exactly equality with the sender's output. *)
Lemma check_digest_accept p d d' :
  length p = MOOR_CELL_PAYLOAD →
  moor_relay_check_digest hash p d = Some d' ↔ moor_relay_set_digest hash p d = (p, d').
Proof.
  intros Hp. unfold moor_relay_check_digest, moor_relay_set_digest.
  set (q := blit 5 (zeros 4) p). set (h := hash (d ++ q)).
  assert (H4 : length (take 4 h) = 4%nat) by (rewrite length_take; unfold h; rewrite hash_length; done).
  assert (Hb : blit 5 (take 4 h) q = blit 5 (take 4 h) p).
  { unfold q. apply blit_blit; rewrite ?length_zeros, ?H4, ?Hp; unfold MOOR_CELL_PAYLOAD; lia. }
  rewrite Hb. split.
  - destruct (bytes_eqb _ _) eqn:E; [|done]. apply bytes_eqb_eq in E. intros [= <-].
    rewrite <- E. by rewrite blit_slice_id by (rewrite Hp; unfold MOOR_CELL_PAYLOAD; lia).
  - intros [= Hp' <-]. rewrite <- Hp' at 1.
    rewrite slice_blit_eq by (rewrite ?Hp; unfold MOOR_CELL_PAYLOAD; lia || done).
    by rewrite bytes_eqb_refl.
Qed.
End DigestFacts.

(** A stand-in hash with 32 bytes of output, for evaluating the witnesses. *)
Definition toy_hash (m : bytes) : bytes := be_put 32 (fold_left (λ a b, a * 257 + b + 1) m 7).

Lemma digest_stream_sync_witness :
  check_digests toy_hash
    (set_digests toy_hash [moor_relay_pack zero_relay; zeros 509] (zeros 32)).1 (zeros 32) =
  Some (set_digests toy_hash [moor_relay_pack zero_relay; zeros 509] (zeros 32)).2.
Proof.
  apply digest_stream_sync.
  - intros m. apply length_be_put.
  - repeat constructor.
Defined.
