(* ===== verification/Ring.v ===== *)
(** * Ring: circular FIFOs kept in an array

    The pattern of [sendme_auth_expected]/[sendme_auth_head]/[sendme_auth_count]
    and of [sendme_timestamps] in [src/include/moor/circuit.h]: an array of fixed
    size, the next write position and the number of pending elements. The oldest
    element is at [(head + max - count) % max]. [ring_contents] is the queue such
    a triple stands for; pushing appends to it and popping removes its head. *)

From S2P Require Import Prelude.

Section Ring.
  Context {A : Type} (dflt : A).

(** Index of the oldest element. *)
Definition ring_tail (max head count : Z) : Z := (head + max - count) mod max.

(** [arr[i] = x]. *)
Definition ring_write (i : Z) (x : A) (arr : list A) : list A := <[Z.to_nat i := x]> arr.

(** [arr[i]]. *)
Definition ring_read (i : Z) (arr : list A) : A := nth (Z.to_nat i) arr dflt.

(** The elements from the oldest to the newest. *)
Definition ring_contents (max head count : Z) (arr : list A) : list A :=
  map (λ k, ring_read ((head + max - count + k) mod max) arr) (seqZ 0 count).

Definition ring_ok (max head count : Z) (arr : list A) : Prop :=
  0 < max ∧ Z.of_nat (length arr) = max ∧ 0 <= head < max ∧ 0 <= count <= max.

Lemma length_ring_contents max head count arr :
  length (ring_contents max head count arr) = Z.to_nat count.
Proof. unfold ring_contents. by rewrite length_map, length_seqZ. Qed.

Lemma ring_ok_push max head count arr x :
  ring_ok max head count arr → count < max →
  ring_ok max ((head + 1) mod max) (count + 1) (ring_write head x arr).
Proof.
  intros (Hm & Hl & Hh & Hc) Hlt. split; [done|]. split; [unfold ring_write; by rewrite length_insert|].
  pose proof (Z.mod_pos_bound (head + 1) max Hm). lia.
Qed.

Lemma ring_ok_pop max head count arr :
  ring_ok max head count arr → 0 < count → ring_ok max head (count - 1) arr.
Proof. intros (Hm & Hl & Hh & Hc) Hlt. repeat split; lia. Qed.

Lemma ring_read_write_eq i x arr :
  0 <= i < Z.of_nat (length arr) → ring_read i (ring_write i x arr) = x.
Proof.
  intros Hi. unfold ring_read, ring_write. rewrite nth_lookup.
  by rewrite list_lookup_insert_eq by lia.
Qed.

Lemma ring_read_write_ne i j x arr :
  0 <= i → 0 <= j → i ≠ j → ring_read i (ring_write j x arr) = ring_read i arr.
Proof.
  intros Hi Hj Hne. unfold ring_read, ring_write. rewrite !nth_lookup.
  by rewrite list_lookup_insert_ne by lia.
Qed.

(** Pushing appends. *)
Lemma ring_contents_push max head count arr x :
  ring_ok max head count arr → count < max →
  ring_contents max ((head + 1) mod max) (count + 1) (ring_write head x arr) =
  ring_contents max head count arr ++ [x].
Proof.
  intros (Hm & Hl & Hh & Hc) Hlt. unfold ring_contents.
  assert (Hmod : ∀ k, ((head + 1) mod max + max - (count + 1) + k) mod max =
                      (head + max - count + k) mod max).
  { intros k. replace ((head + 1) mod max + max - (count + 1) + k)
      with ((head + 1) mod max + (max - (count + 1) + k)) by lia.
    rewrite Zplus_mod_idemp_l. f_equal. lia. }
  replace (seqZ 0 (count + 1)) with (seqZ 0 count ++ [count])
    by (rewrite seqZ_app by lia; done).
  rewrite map_app. cbn [map]. f_equal.
  - apply map_ext_in. intros k Hk. apply list_elem_of_In, elem_of_seqZ in Hk.
    rewrite Hmod. apply ring_read_write_ne; [apply Z.mod_pos_bound; lia|lia|].
    intros Heq. assert (Hd : (count - k) mod max = 0).
    { replace (count - k) with (head - (head + max - count + k) + 1 * max) by lia.
      rewrite Z.mod_add by lia. rewrite Zminus_mod, Heq, (Z.mod_small head) by lia.
      by rewrite Z.sub_diag. }
    rewrite Z.mod_small in Hd by lia. lia.
  - f_equal. rewrite Hmod. replace (head + max - count + count) with (head + 1 * max) by lia.
    rewrite Z.mod_add, Z.mod_small by lia. apply ring_read_write_eq. lia.
Qed.

(** Popping removes the oldest element, which is the one at [ring_tail]. *)
Lemma ring_contents_pop max head count arr :
  ring_ok max head count arr → 0 < count →
  ring_contents max head count arr =
  ring_read (ring_tail max head count) arr :: ring_contents max head (count - 1) arr.
Proof.
  intros (Hm & Hl & Hh & Hc) Hlt. unfold ring_contents.
  replace (seqZ 0 count) with (0 :: seqZ 1 (count - 1))
    by (rewrite (seqZ_cons 0 count) by lia; rewrite Z.sub_1_r; done).
  cbn [map]. f_equal.
  - unfold ring_tail. by rewrite Z.add_0_r.
  - replace 1 with (0 + 1) by lia. rewrite <- (fmap_add_seqZ 1 0).
    rewrite map_map. apply map_ext. intros k. do 2 f_equal. lia.
Qed.
End Ring.
