(* ===== verification/Fragment.v ===== *)
(** * Fragment: splitting a large relay payload over cells and reassembling it

    Models [src/src/fragment.c] and [src/include/moor/fragment.h]. The sender's
    [while] loop runs on fuel; [fragment_send_total] shows that the fuel given is
    always enough. The reassembly state is the array of eight slots; the two clock
    reads of the receiver are its arguments [now] and [now2]. *)

From S2P Require Import Prelude Cell.

Definition MOOR_FRAGMENT_HEADER : nat := 7.
Definition MOOR_FRAGMENT_DATA : nat := 491.
Definition MOOR_MAX_REASSEMBLY : Z := 4096.
Definition MOOR_MAX_PENDING : nat := 8.
Definition MOOR_FRAGMENT_TIMEOUT_MS : Z := 30000.

(** ** State *)

Record moor_reassembly_t := mk_slot {
  fragment_id : Z;       (* uint16_t *)
  expected_total : Z;    (* uint16_t *)
  inner_relay_cmd : Z;   (* uint8_t *)
  slot_stream_id : Z;    (* uint16_t *)
  buffer : bytes;        (* uint8_t[4096] *)
  received : Z;          (* size_t *)
  next_seq : Z;          (* uint16_t *)
  active : bool;
  started_at : Z;        (* uint64_t *)
}.

Abbreviation moor_reassembly_state_t := (list moor_reassembly_t).

Definition zero_slot : moor_reassembly_t :=
  mk_slot 0 0 0 0 (zeros (Z.to_nat MOOR_MAX_REASSEMBLY)) 0 0 false 0.

Definition moor_reassembly_init : moor_reassembly_state_t :=
  replicate MOOR_MAX_PENDING zero_slot.

(** The two random bytes of [moor_crypto_random] are the argument. *)
Definition moor_fragment_gen_id (random : Z) : Z :=
  if random =? 0 then 1 else random.

(** ** Sending *)

Section Send.
  (** [send_cb] with its context [ctx : St] threaded through; its result is the C
      return code. It is handed exactly the [data_len] bytes it may read. *)
  Context {St : Type}.
  Context (send_cb : Z → Z → Z → bytes → Z → St → Z * St).

(** One iteration's cell data: the 7-byte header, then the chunk. *)
Definition fragment_frame (fid seq total_len relay_cmd : Z) (chunk : bytes) : bytes :=
  be_put 2 fid ++ be_put 2 seq ++ be_put 2 total_len ++ [relay_cmd] ++ chunk.

Fixpoint fragment_send_loop (fuel : nat) (circuit_id relay_cmd sid : Z) (data : bytes)
    (len : nat) (fid : Z) (offset : nat) (seq : Z) (ctx : St) : option (Z * St) :=
  if (offset <? len)%nat then
    match fuel with
    | O => None
    | S fuel =>
        let remaining := (len - offset)%nat in
        let chunk := if (MOOR_FRAGMENT_DATA <? remaining)%nat
                     then MOOR_FRAGMENT_DATA else remaining in
        let is_last := (len <=? offset + chunk)%nat in
        let frag_data := fragment_frame fid seq (u16 (Z.of_nat len)) relay_cmd
                           (slice offset chunk data) in
        let frag_cmd := relay_code (if is_last then RELAY_FRAGMENT_END else RELAY_FRAGMENT) in
        let frag_data_len := u16 (Z.of_nat (MOOR_FRAGMENT_HEADER + chunk)) in
        let '(rc, ctx) := send_cb circuit_id frag_cmd sid frag_data frag_data_len ctx in
        if rc =? 0
        then fragment_send_loop fuel circuit_id relay_cmd sid data len fid
               (offset + chunk) (u16 (seq + 1)) ctx
        else Some (-1, ctx)
    end
  else Some (0, ctx).

(** [data] is nullable and holds at least [len] bytes. *)
Definition moor_fragment_send (circuit_id relay_cmd sid : Z) (data : option bytes)
    (len fid : Z) (ctx : St) : option (Z * St) :=
  match data with
  | None => Some (-1, ctx)
  | Some data =>
      if (len =? 0) || (MOOR_MAX_REASSEMBLY <? len) then Some (-1, ctx)
      else if len <=? Z.of_nat MOOR_RELAY_DATA then
        Some (send_cb circuit_id relay_cmd sid (take (Z.to_nat len) data) (u16 len) ctx)
      else fragment_send_loop (Z.to_nat len) circuit_id relay_cmd sid data
             (Z.to_nat len) fid 0 0 ctx
  end.
End Send.

(** ** Receiving *)

(** Return codes -1, 0 and 1 (with the command and data written out). *)
Inductive receive_result :=
  | Receive_error
  | Receive_more
  | Receive_complete (out_cmd : Z) (out_data : bytes).

Definition slot_stale (now : Z) (s : moor_reassembly_t) : bool :=
  active s && (MOOR_FRAGMENT_TIMEOUT_MS <? u64 (now - started_at s)).

Definition expire_slots (now : Z) (st : moor_reassembly_state_t) : moor_reassembly_state_t :=
  map (λ s, if slot_stale now s then {| s with active := false |} else s) st.

Definition slot_matches (fid : Z) (s : moor_reassembly_t) : bool :=
  active s && (fragment_id s =? fid).

(** The slot index the fragment goes to, with the state in which it was set up.
    [None]: a stream that does not start at 0, or no free slot. *)
Definition find_slot (fid seq total_len inner_cmd sid now2 : Z)
    (st : moor_reassembly_state_t) : option (nat * moor_reassembly_state_t) :=
  match find_index (slot_matches fid) st with
  | Some i => Some (i, st)
  | None =>
      if negb (seq =? 0) then None
      else match find_index (λ s, negb (active s)) st with
           | None => None
           | Some i =>
               Some (i, <[i := mk_slot fid total_len inner_cmd sid (zeros (Z.to_nat MOOR_MAX_REASSEMBLY)) 0 0 true now2]> st)
           end
  end.

(** The checks and the copy once the slot is known. *)
Definition accept_fragment (st : moor_reassembly_state_t) (i : nat)
    (s : moor_reassembly_t) (seq total_len inner_cmd : Z) (payload : bytes) (frag_cmd : Z)
  : moor_reassembly_state_t * receive_result :=
  let payload_len := Z.of_nat (length payload) in
  if negb (seq =? next_seq s) then (st, Receive_error)
  else if negb (total_len =? expected_total s) || negb (inner_cmd =? inner_relay_cmd s)
  then (st, Receive_error)
  else if u64 (MOOR_MAX_REASSEMBLY - received s) <? payload_len then (st, Receive_error)
  else
    let s' := {| s with buffer := blit (Z.to_nat (received s)) payload (buffer s);
                        received := received s + payload_len;
                        next_seq := u16 (next_seq s + 1) |} in
    if frag_cmd =? relay_code RELAY_FRAGMENT_END then
      if negb (received s' =? expected_total s')
      then (<[i := {| s' with active := false |}]> st, Receive_error)
      else (<[i := {| s' with active := false |}]> st,
            Receive_complete (inner_relay_cmd s') (take (Z.to_nat (received s')) (buffer s')))
    else (<[i := s']> st, Receive_more).

(** [relay_data] is the nullable buffer of [relay_data_len] bytes. *)
Definition moor_fragment_receive (st : moor_reassembly_state_t) (relay_data : option bytes)
    (sid frag_cmd now now2 : Z) : moor_reassembly_state_t * receive_result :=
  match relay_data with
  | None => (st, Receive_error)
  | Some relay_data =>
      if (length relay_data <? MOOR_FRAGMENT_HEADER)%nat then (st, Receive_error)
      else
        let st := expire_slots now st in
        let frag_id := be_get (slice 0 2 relay_data) in
        let seq := be_get (slice 2 2 relay_data) in
        let total_len := be_get (slice 4 2 relay_data) in
        let inner_cmd := byte_at 6 relay_data in
        if (MOOR_MAX_REASSEMBLY <? total_len) || (total_len =? 0) then (st, Receive_error)
        else
          let payload := drop MOOR_FRAGMENT_HEADER relay_data in
          match find_slot frag_id seq total_len inner_cmd sid now2 st with
          | None => (st, Receive_error)
          | Some (i, st) =>
              match st !! i with
              | Some s => accept_fragment st i s seq total_len inner_cmd payload frag_cmd
              | None => (st, Receive_error)
              end
          end
  end.

(** ** What a circuit sees *)

(** A callback that always succeeds and logs (command, data): the cells put on
    the circuit. *)
Definition log_cell (_ cmd _ : Z) (data : bytes) (_ : Z) (log : list (Z * bytes))
  : Z * list (Z * bytes) := (0, log ++ [(cmd, data)]).

(** The fragment cells of [data] from [offset] on. *)
Fixpoint frames (fuel : nat) (relay_cmd : Z) (data : bytes) (fid : Z)
    (offset : nat) (seq : Z) : list (Z * bytes) :=
  match fuel with
  | O => []
  | S fuel =>
      if (offset <? length data)%nat then
        let chunk := (MOOR_FRAGMENT_DATA `min` (length data - offset))%nat in
        (relay_code (if (length data <=? offset + chunk)%nat
                     then RELAY_FRAGMENT_END else RELAY_FRAGMENT),
         fragment_frame fid seq (u16 (Z.of_nat (length data))) relay_cmd
           (slice offset chunk data))
        :: frames fuel relay_cmd data fid (offset + chunk) (u16 (seq + 1))
      else []
  end.

(** A fragment cell arriving on the circuit, with the clock values read. *)
Record arrival := mk_arrival {
  arr_cmd : Z; arr_data : bytes; arr_sid : Z; arr_now : Z; arr_now2 : Z
}.

Fixpoint receive_all (st : moor_reassembly_state_t) (es : list arrival)
  : list (arrival * receive_result) :=
  match es with
  | [] => []
  | e :: es =>
      let '(st', r) := moor_fragment_receive st (Some (arr_data e)) (arr_sid e)
                         (arr_cmd e) (arr_now e) (arr_now2 e) in
      (e, r) :: receive_all st' es
  end.

(** The fragment belongs to stream [fid]. *)
Definition arrival_of (fid : Z) (e : arrival) : bool :=
  (MOOR_FRAGMENT_HEADER <=? length (arr_data e))%nat &&
  (be_get (slice 0 2 (arr_data e)) =? fid).

(** The slot collecting stream [fid], if any. *)
Definition pending (fid : Z) (st : moor_reassembly_state_t) : option moor_reassembly_t :=
  match find_index (slot_matches fid) st with Some i => st !! i | None => None end.

(** ** Invariant of the reassembly state *)

Definition slot_ok (s : moor_reassembly_t) : Prop :=
  length (buffer s) = Z.to_nat MOOR_MAX_REASSEMBLY ∧ 0 <= received s <= MOOR_MAX_REASSEMBLY.

(** Eight slots inside their bounds, and no fragment id collected twice. *)
Definition reassembly_ok (st : moor_reassembly_state_t) : Prop :=
  length st = MOOR_MAX_PENDING ∧ Forall slot_ok st ∧
  ∀ i j s t, st !! i = Some s → st !! j = Some t →
    active s = true → active t = true → fragment_id s = fragment_id t → i = j.

(** ** Lemmas *)

Lemma slot_ok_blit s payload :
  slot_ok s → Z.of_nat (length payload) <= MOOR_MAX_REASSEMBLY - received s →
  length (blit (Z.to_nat (received s)) payload (buffer s)) = Z.to_nat MOOR_MAX_REASSEMBLY.
Proof.
  intros [Hl Hr] Hp. unfold MOOR_MAX_REASSEMBLY in *. rewrite length_blit; lia.
Qed.

Lemma expire_slots_ok now st : reassembly_ok st → reassembly_ok (expire_slots now st).
Proof.
  intros (Hl & Hok & Hu). unfold expire_slots. split; [by rewrite length_map|]. split.
  - rewrite Forall_fmap. eapply Forall_impl; [exact Hok|].
    intros s [? ?]. simpl. by destruct (slot_stale now s).
  - intros i j s t Hi Hj Hs Ht Hid. rewrite list_lookup_fmap in Hi, Hj.
    destruct (st !! i) as [a|] eqn:Ea; [|done]. destruct (st !! j) as [b|] eqn:Eb; [|done].
    simplify_eq/=. destruct (slot_stale now a), (slot_stale now b); try done.
    eapply Hu; eauto.
Qed.

(** Replacing a slot by one whose id clashes with no other active slot. *)
Lemma reassembly_ok_insert i s' st :
  reassembly_ok st → slot_ok s' →
  (active s' = true → ∀ j t, st !! j = Some t → active t = true →
     fragment_id t = fragment_id s' → j = i) →
  reassembly_ok (<[i := s']> st).
Proof.
  intros (Hl & Hok & Hu) Hs' Hclash. split; [by rewrite length_insert|]. split.
  { by apply Forall_insert. }
  intros j k a b Hj Hk Ha Hb Hid.
  apply list_lookup_insert_Some in Hj as [(<- & <- & _)|[Hne Hj]];
    apply list_lookup_insert_Some in Hk as [(Hik & <- & _)|[Hne' Hk]]; subst; try done.
  - symmetry. eapply Hclash; eauto.
  - eapply Hclash; eauto.
  - eapply Hu; eauto.
Qed.

Lemma find_slot_ok fid seq total cmd sid now2 st i st' :
  reassembly_ok st → find_slot fid seq total cmd sid now2 st = Some (i, st') →
  reassembly_ok st'.
Proof.
  intros Hok. unfold find_slot. destruct (find_index (slot_matches fid) st) eqn:E.
  { by intros [= _ <-]. }
  destruct (negb (seq =? 0)); [done|].
  destruct (find_index (λ s, negb (active s)) st) as [k|] eqn:E2; [|done].
  intros [= <- <-]. apply reassembly_ok_insert; [done| |].
  - split; [done|]. unfold MOOR_MAX_REASSEMBLY. simpl. lia.
  - intros _ j t Hj Ht Hid. simpl in Hid. apply find_index_None in E.
    rewrite Forall_lookup in E. specialize (E j t Hj). unfold slot_matches in E.
    rewrite Ht, Hid, Z.eqb_refl in E. done.
Qed.

Lemma accept_fragment_ok st i s seq total cmd payload frag_cmd :
  reassembly_ok st → st !! i = Some s →
  reassembly_ok (accept_fragment st i s seq total cmd payload frag_cmd).1.
Proof.
  intros Hok Hi. pose proof Hok as (_ & Hall & Hu).
  assert (Hs : slot_ok s) by (rewrite Forall_lookup in Hall; eauto).
  unfold accept_fragment. repeat (case_match; [done|]).
  assert (Hlen : Z.of_nat (length payload) <= MOOR_MAX_REASSEMBLY - received s).
  { destruct Hs as [_ ?]. unfold MOOR_MAX_REASSEMBLY in *.
    rewrite u64_small in * by (unfold is_u64; lia). lia. }
  pose proof (slot_ok_blit _ _ Hs Hlen) as Hb. destruct Hs as [_ Hr].
  repeat case_match; apply reassembly_ok_insert; try done; try (split; cbn; [done|lia]).
  intros Ha j t Hj Ht Hid. cbn in Ha, Hid. eapply Hu; eauto.
Qed.

(** C25. Reassembly stays inside its buffers: every arriving fragment, valid or
    not, leaves eight slots with at most 4096 received bytes each (so the
    [size_t] subtraction of the bounds check never wraps and the copy never
    overruns), and no fragment id is ever collected in two slots. *)
Theorem fragment_receive_ok st relay_data sid frag_cmd now now2 :
  reassembly_ok st →
  reassembly_ok (moor_fragment_receive st relay_data sid frag_cmd now now2).1.
Proof.
  intros Hok. unfold moor_fragment_receive. destruct relay_data as [d|]; [|done].
  case_match; [done|]. pose proof (expire_slots_ok now st Hok) as Hex.
  case_match; [done|]. destruct (find_slot _ _ _ _ _ _ _) as [[i st']|] eqn:E; [|done].
  pose proof (find_slot_ok _ _ _ _ _ _ _ _ _ Hex E) as Hok'.
  destruct (st' !! i) as [s|] eqn:Hi; [|done]. by apply accept_fragment_ok.
Qed.

Lemma moor_reassembly_init_ok : reassembly_ok moor_reassembly_init.
Proof.
  split; [done|]. split.
  - apply Forall_replicate. split; [apply length_zeros|]. unfold MOOR_MAX_REASSEMBLY. simpl. lia.
  - intros i j s t Hi _ Hs. apply lookup_replicate in Hi as [-> _]. done.
Qed.

Lemma fragment_receive_ok_witness :
  reassembly_ok
    (moor_fragment_receive moor_reassembly_init (Some [0; 9; 0; 0; 2; 0; 2; 65; 66]) 5
       (relay_code RELAY_FRAGMENT) 1000 1000).1.
Proof. apply fragment_receive_ok. exact moor_reassembly_init_ok. Defined.

(** *** The header of a fragment cell *)

Lemma fragment_frame_header fid seq total cmd chunk :
  let d := fragment_frame fid seq total cmd chunk in
  slice 0 2 d = be_put 2 fid ∧ slice 2 2 d = be_put 2 seq ∧ slice 4 2 d = be_put 2 total ∧
  byte_at 6 d = cmd ∧ drop MOOR_FRAGMENT_HEADER d = chunk ∧
  length d = (MOOR_FRAGMENT_HEADER + length chunk)%nat.
Proof. done. Qed.

(** *** The sender emits [frames] *)

Lemma fragment_send_loop_frames fuel cid cmd sid data fid offset seq log :
  (length data - offset <= fuel)%nat → (offset <= length data)%nat →
  fragment_send_loop log_cell fuel cid cmd sid data (length data) fid offset seq log =
  Some (0, log ++ frames fuel cmd data fid offset seq).
Proof.
  revert offset seq log. induction fuel as [|fuel IH]; intros offset seq log Hf Ho; simpl.
  { destruct (Nat.ltb_spec offset (length data)); [lia|]. by rewrite app_nil_r. }
  destruct (Nat.ltb_spec offset (length data)); [|by rewrite app_nil_r].
  replace (if (MOOR_FRAGMENT_DATA <? length data - offset)%nat
           then MOOR_FRAGMENT_DATA else (length data - offset)%nat)
    with (MOOR_FRAGMENT_DATA `min` (length data - offset))%nat
    by (destruct (Nat.ltb_spec MOOR_FRAGMENT_DATA (length data - offset)); lia).

  rewrite IH by (unfold MOOR_FRAGMENT_DATA; lia). by rewrite <- app_assoc.
Qed.

(** The loop finishes within [len - offset] iterations whatever the callback does. *)
Lemma fragment_send_loop_total {St} (cb : Z → Z → Z → bytes → Z → St → Z * St)
    fuel cid cmd sid data len fid offset seq ctx :
  (len - offset <= fuel)%nat →
  is_Some (fragment_send_loop cb fuel cid cmd sid data len fid offset seq ctx).
Proof.
  revert offset seq ctx. induction fuel as [|fuel IH]; intros offset seq ctx Hf; simpl;
    destruct (Nat.ltb_spec offset len); eauto; [lia|].
  destruct (cb _ _ _ _ _ _) as [rc ctx']. destruct (rc =? 0); [|eauto].
  apply IH. unfold MOOR_FRAGMENT_DATA. case_match; lia.
Qed.

Lemma fragment_send_total {St} (cb : Z → Z → Z → bytes → Z → St → Z * St)
    cid cmd sid data len fid ctx :
  is_Some (moor_fragment_send cb cid cmd sid data len fid ctx).
Proof.
  unfold moor_fragment_send. destruct data; [|eauto]. do 2 (case_match; [eauto|]).
  apply fragment_send_loop_total. lia.
Qed.

(** *** A slot being filled *)

(** [s] holds the first [offset] bytes of [data], in stream [fid]. *)
Definition collecting (fid cmd t0 : Z) (data : bytes) (offset : nat) (seq : Z)
    (s : moor_reassembly_t) : Prop :=
  active s = true ∧ fragment_id s = fid ∧ slot_ok s ∧ received s = Z.of_nat offset ∧
  next_seq s = seq ∧ expected_total s = Z.of_nat (length data) ∧ inner_relay_cmd s = cmd ∧
  take offset (buffer s) = take offset data ∧ started_at s = t0.

(** The clock reads of an arrival fall inside the 30 s lifetime of the slot. *)
Definition in_time (t0 : Z) (e : arrival) : Prop :=
  t0 <= arr_now e <= t0 + MOOR_FRAGMENT_TIMEOUT_MS.

Lemma collecting_matches fid cmd t0 data offset seq s :
  collecting fid cmd t0 data offset seq s → slot_matches fid s = true.
Proof. intros (Ha & Hf & _). unfold slot_matches. by rewrite Ha, Hf, Z.eqb_refl. Qed.

Lemma collecting_not_stale fid cmd t0 data offset seq s now :
  collecting fid cmd t0 data offset seq s → is_u64 t0 →
  t0 <= now <= t0 + MOOR_FRAGMENT_TIMEOUT_MS → slot_stale now s = false.
Proof.
  intros (_ & _ & _ & _ & _ & _ & _ & _ & Hst) Ht Hn. unfold slot_stale. rewrite Hst.
  unfold MOOR_FRAGMENT_TIMEOUT_MS in *. rewrite u64_small by (unfold is_u64 in *; lia).
  destruct (Z.ltb_spec 30000 (now - t0)); [lia|]. apply andb_false_r.
Qed.

Lemma pending_expire fid now st i s :
  find_index (slot_matches fid) st = Some i → st !! i = Some s → slot_stale now s = false →
  find_index (slot_matches fid) (expire_slots now st) = Some i ∧
  expire_slots now st !! i = Some s.
Proof.
  intros Hf Hi Hs. destruct (find_index_Some _ _ _ Hf) as (x & Hx & Hm & Hmin). simplify_eq.
  assert (Hl : expire_slots now st !! i = Some s)
    by (unfold expire_slots; rewrite list_lookup_fmap, Hi; simpl; by rewrite Hs).
  split; [|done]. apply (find_index_intro _ _ _ s); [done..|].
  intros j y Hj Hy. unfold expire_slots in Hy. rewrite list_lookup_fmap in Hy.
  destruct (st !! j) as [z|] eqn:Ez; [|done]. simplify_eq/=.
  specialize (Hmin j z Hj Ez). by destruct (slot_stale now z).
Qed.

Lemma pending_insert_other fid st j x y i s :
  find_index (slot_matches fid) st = Some i → st !! i = Some s →
  st !! j = Some x → slot_matches fid x = false → slot_matches fid y = false →
  find_index (slot_matches fid) (<[j := y]> st) = Some i ∧ <[j := y]> st !! i = Some s.
Proof.
  intros Hf Hi Hj Hx Hy. split; [by rewrite (find_index_insert_other _ _ _ x)|].
  destruct (decide (i = j)) as [->|Hne]; [|by rewrite list_lookup_insert_ne by done].
  destruct (find_index_Some _ _ _ Hf) as (z & Hz & Hm & _). congruence.
Qed.

Lemma accept_other fid st i s j x seq total cmd payload frag_cmd :
  find_index (slot_matches fid) st = Some i → st !! i = Some s →
  st !! j = Some x → slot_matches fid x = false →
  let st' := (accept_fragment st j x seq total cmd payload frag_cmd).1 in
  find_index (slot_matches fid) st' = Some i ∧ st' !! i = Some s.
Proof.
  intros Hf Hi Hj Hx. unfold accept_fragment. cbv zeta.
  repeat match goal with |- context [if ?b then _ else _] => destruct b end;
    cbn [fst]; try done; by apply (pending_insert_other fid st j x).
Qed.

Lemma find_slot_other fid fid' st i s seq total cmd sid now2 j st' :
  fid' ≠ fid → find_index (slot_matches fid) st = Some i → st !! i = Some s →
  find_slot fid' seq total cmd sid now2 st = Some (j, st') →
  find_index (slot_matches fid) st' = Some i ∧ st' !! i = Some s ∧
  ∃ x, st' !! j = Some x ∧ slot_matches fid x = false.
Proof.
  intros Hne Hf Hi. unfold find_slot.
  destruct (find_index (slot_matches fid') st) as [k|] eqn:Ek.
  - intros [= <- <-]. destruct (find_index_Some _ _ _ Ek) as (x & Hx & Hm & _).
    split; [done|]. split; [done|]. exists x. split; [done|].
    unfold slot_matches in *. destruct (active x); [simpl in *; lia|done].
  - destruct (negb (seq =? 0)); [done|].
    destruct (find_index (λ s, negb (active s)) st) as [k|] eqn:Ek'; [|done].
    intros [= <- <-]. destruct (find_index_Some _ _ _ Ek') as (x & Hx & Hm & _).
    rewrite list_lookup_insert_eq by (by eapply lookup_lt_Some).
    assert (Hy : ∀ b, slot_matches fid (mk_slot fid' total cmd sid b 0 0 true now2) = false)
      by (intros; unfold slot_matches; cbn [active fragment_id]; simpl; lia).
    destruct (pending_insert_other fid st k x
      (mk_slot fid' total cmd sid (zeros (Z.to_nat MOOR_MAX_REASSEMBLY)) 0 0 true now2) i s) as [H1 H2]; auto.
    { unfold slot_matches. by destruct (active x). }
    split; [exact H1|]. split; [exact H2|]. eauto.
Qed.

(** Fragments of other streams do not disturb the slot. *)
Lemma receive_other fid st e i s :
  arrival_of fid e = false →
  find_index (slot_matches fid) st = Some i → st !! i = Some s →
  slot_stale (arr_now e) s = false →
  let st' := (moor_fragment_receive st (Some (arr_data e)) (arr_sid e) (arr_cmd e)
                (arr_now e) (arr_now2 e)).1 in
  find_index (slot_matches fid) st' = Some i ∧ st' !! i = Some s.
Proof.
  intros Ho Hf Hi Hs. unfold moor_fragment_receive, arrival_of in *.
  destruct (Nat.ltb_spec (length (arr_data e)) MOOR_FRAGMENT_HEADER); [done|].
  destruct (Nat.leb_spec MOOR_FRAGMENT_HEADER (length (arr_data e))); [|lia].
  rewrite andb_true_l in Ho. apply Z.eqb_neq in Ho. cbv zeta.
  destruct (pending_expire _ _ _ _ _ Hf Hi Hs) as [Hf' Hi'].
  destruct (_ || _); [done|].
  destruct (find_slot _ _ _ _ _ _ _) as [[j st']|] eqn:E; [|done].
  destruct (find_slot_other fid _ _ _ _ _ _ _ _ _ _ _ Ho Hf' Hi' E)
    as (Hf2 & Hi2 & x & Hx & Hm).
  rewrite Hx. by apply accept_other.
Qed.

(** The chunk a sender cuts at [offset]. *)
Definition chunk_at (data : bytes) (offset : nat) : nat :=
  (MOOR_FRAGMENT_DATA `min` (length data - offset))%nat.

(** Accepting the fragment the slot waits for: either the message is complete and
    is [data], or the slot now holds one more chunk. *)
Lemma accept_own fid cmd t0 data offset seq st i s :
  Z.of_nat (length data) <= MOOR_MAX_REASSEMBLY → (offset < length data)%nat →
  find_index (slot_matches fid) st = Some i → st !! i = Some s →
  collecting fid cmd t0 data offset seq s →
  let n := chunk_at data offset in
  let last := (length data <=? offset + n)%nat in
  let '(st', r) := accept_fragment st i s seq (Z.of_nat (length data)) cmd
        (slice offset n data)
        (relay_code (if last then RELAY_FRAGMENT_END else RELAY_FRAGMENT)) in
  if last then r = Receive_complete cmd data
  else r = Receive_more ∧ find_index (slot_matches fid) st' = Some i ∧
       ∃ s', st' !! i = Some s' ∧ collecting fid cmd t0 data (offset + n) (u16 (seq + 1)) s'.
Proof.
  intros Hmax Hoff Hf Hi Hc. pose proof Hc as (Ha & Hid & Hok & Hr & Hseq & Htot & Hcmd & Hbuf & Ht).
  intros n last.
  assert (Hn : (offset + n <= length data)%nat) by (unfold n, chunk_at; lia).
  assert (Hsl : length (slice offset n data) = n) by (rewrite length_slice; lia).
  pose proof Hok as [Hbl Hrange]. unfold MOOR_MAX_REASSEMBLY in *.
  assert (Hu : u64 (4096 - received s) = 4096 - Z.of_nat offset)
    by (rewrite Hr; apply u64_small; unfold is_u64; lia).
  assert (Hnew : take (offset + n) (blit offset (slice offset n data) (buffer s))
                 = take (offset + n) data).
  { unfold blit, slice in *. rewrite app_assoc, take_app_le
      by (rewrite length_app, length_take, Hsl; lia).
    rewrite take_ge by (rewrite length_app, length_take, Hsl; lia).
    by rewrite Hbuf, take_take_drop. }
  unfold accept_fragment, MOOR_MAX_REASSEMBLY. cbv zeta. rewrite Hsl, Hseq, Hcmd, Htot, Hu, Hr, !Z.eqb_refl.
  cbn [negb orb].
  destruct (Z.ltb_spec (4096 - Z.of_nat offset) (Z.of_nat n)); [lia|].
  rewrite Nat2Z.id. cbn [received expected_total inner_relay_cmd buffer].
  rewrite <- Nat2Z.inj_add, Nat2Z.id.
  destruct last eqn:El; unfold last in El.
  - apply Nat.leb_le in El. rewrite Z.eqb_refl.
    replace (offset + n)%nat with (length data) in * by lia. rewrite Z.eqb_refl. cbn [negb].
    rewrite Hnew. by rewrite take_ge by lia.
  - change (relay_code RELAY_FRAGMENT =? relay_code RELAY_FRAGMENT_END) with false.
    cbv iota. split; [done|]. split.
    { apply find_index_insert_same; [done|]. by apply (collecting_matches _ _ _ _ _ _ _ Hc). }
    eexists. split; [apply list_lookup_insert_eq; by eapply lookup_lt_Some|].
    unfold collecting, slot_ok, MOOR_MAX_REASSEMBLY.
    cbn [active fragment_id received next_seq expected_total inner_relay_cmd buffer started_at].
    rewrite length_blit by (rewrite Hsl; lia).
    repeat split; try done; lia.
Qed.

(** The events of stream [fid] among the results. *)
Definition own_results (fid : Z) (l : list (arrival * receive_result)) : list receive_result :=
  snd <$> filter (λ p, arrival_of fid p.1 = true) l.

(** The cells of stream [fid] among the arrivals. *)
Definition own_cells (fid : Z) (es : list arrival) : list (Z * bytes) :=
  (λ e, (arr_cmd e, arr_data e)) <$> filter (λ e, arrival_of fid e = true) es.

Lemma own_results_nil fid st es : own_cells fid es = [] → own_results fid (receive_all st es) = [].
Proof.
  unfold own_cells, own_results. revert st. induction es as [|e es IH]; intros st; [done|].
  cbn [receive_all]. destruct (moor_fragment_receive _ _ _ _ _ _) as [st' r].
  rewrite !filter_cons. cbn [fst]. case_decide; [done|]. apply IH.
Qed.

Lemma frames_cons fuel cmd data fid offset seq :
  (offset < length data)%nat → (length data - offset <= fuel)%nat →
  frames fuel cmd data fid offset seq =
    (relay_code (if (length data <=? offset + chunk_at data offset)%nat
                 then RELAY_FRAGMENT_END else RELAY_FRAGMENT),
     fragment_frame fid seq (u16 (Z.of_nat (length data))) cmd
       (slice offset (chunk_at data offset) data))
    :: frames (fuel - 1) cmd data fid (offset + chunk_at data offset) (u16 (seq + 1)).
Proof.
  intros Ho Hf. destruct fuel as [|fuel]; [lia|]. simpl.
  destruct (Nat.ltb_spec offset (length data)); [|lia]. by rewrite Nat.sub_0_r.
Qed.

Lemma frames_nil fuel cmd data fid offset seq :
  (length data <= offset)%nat → frames fuel cmd data fid offset seq = [].
Proof.
  intros. destruct fuel; [done|]. simpl. by destruct (Nat.ltb_spec offset (length data)); [lia|].
Qed.

(** What [moor_fragment_receive] does with a frame, once past its header checks. *)
Lemma receive_frame st fid seq cmd (data chunk : bytes) sid frag_cmd now now2 :
  is_u16 fid → is_u16 seq → 0 < Z.of_nat (length data) <= MOOR_MAX_REASSEMBLY →
  moor_fragment_receive st (Some (fragment_frame fid seq (u16 (Z.of_nat (length data))) cmd chunk))
    sid frag_cmd now now2 =
  match find_slot fid seq (Z.of_nat (length data)) cmd sid now2 (expire_slots now st) with
  | None => (expire_slots now st, Receive_error)
  | Some (i, st) =>
      match st !! i with
      | Some s => accept_fragment st i s seq (Z.of_nat (length data)) cmd chunk frag_cmd
      | None => (st, Receive_error)
      end
  end.
Proof.
  intros Hf Hs Hl. unfold moor_fragment_receive, MOOR_MAX_REASSEMBLY in *.
  destruct (fragment_frame_header fid seq (u16 (Z.of_nat (length data))) cmd chunk)
    as (H0 & H2 & H4 & H6 & Hd & Hlen).
  rewrite Hlen, H0, H2, H4, H6, Hd, (u16_small (Z.of_nat _)) by (unfold is_u16; lia).
  rewrite !be_get_put_small by (unfold is_u16 in *; lia).
  destruct (Nat.ltb_spec (MOOR_FRAGMENT_HEADER + length chunk) MOOR_FRAGMENT_HEADER); [lia|].
  destruct (Z.ltb_spec 4096 (Z.of_nat (length data))); [lia|].
  destruct (Z.eqb_spec (Z.of_nat (length data)) 0); [lia|done].
Qed.

(** Once a slot collects [data], whatever else arrives meanwhile, the remaining
    frames complete it. *)
Lemma receive_rest fid cmd t0 data : ∀ es fuel st i s offset seq,
  is_u16 fid → is_u64 t0 → Z.of_nat (length data) <= MOOR_MAX_REASSEMBLY → (offset < length data)%nat →
  find_index (slot_matches fid) st = Some i → st !! i = Some s →
  collecting fid cmd t0 data offset seq s → is_u16 seq →
  Forall (in_time t0) es → (length data - offset <= fuel)%nat →
  own_cells fid es = frames fuel cmd data fid offset seq →
  own_results fid (receive_all st es) =
    replicate (length (frames fuel cmd data fid offset seq) - 1) Receive_more
      ++ [Receive_complete cmd data].
Proof.
  induction es as [|e es IH]; intros fuel st i s offset seq Hfid Ht0 Hmax Hoff Hf Hi Hc Hseq
    Htime Hfuel Hown; rewrite frames_cons in Hown |- * by done; [done|].
  inversion Htime as [|? ? He Hes]; subst. clear Htime.
  pose proof (collecting_not_stale _ _ _ _ _ _ _ _ Hc Ht0 He) as Hns.
  unfold own_cells in Hown. rewrite filter_cons in Hown. cbn [receive_all].
  destruct (decide (arrival_of fid e = true)) as [Ha|Ha].
  - rewrite fmap_cons in Hown. injection Hown as Hcmd Hdata Hrest.
    fold (own_cells fid es) in Hrest. rewrite Hcmd, Hdata, receive_frame by (done || lia).
    destruct (pending_expire _ _ _ _ _ Hf Hi Hns) as [Hf' Hi'].
    unfold find_slot. rewrite Hf', Hi'.
    pose proof (accept_own _ _ _ _ _ _ _ _ _ Hmax Hoff Hf' Hi' Hc) as Hacc. cbv zeta in Hacc.
    destruct (accept_fragment _ _ _ _ _ _ _ _) as [st' r].
    unfold own_results. rewrite filter_cons_True by done. rewrite fmap_cons. cbn [snd].
    fold (own_results fid (receive_all st' es)).
    destruct (Nat.leb_spec (length data) (offset + chunk_at data offset)) as [Hlast|Hlast].
    + subst r. rewrite frames_nil in Hrest |- * by done. simpl. f_equal. by apply own_results_nil.
    + destruct Hacc as (-> & Hf2 & s' & Hs' & Hc').
      assert (Hfuel' : (length data - (offset + chunk_at data offset) <= fuel - 1)%nat)
        by (unfold chunk_at, MOOR_FRAGMENT_DATA; lia).
      rewrite (IH _ _ _ _ _ _ Hfid Ht0 Hmax Hlast Hf2 Hs' Hc' (u16_range _) Hes Hfuel' Hrest).
      rewrite (frames_cons (fuel - 1)) by done. simpl. by rewrite Nat.sub_0_r.
  - assert (Ha' : arrival_of fid e = false) by (by destruct (arrival_of fid e)).
    pose proof (receive_other fid st e i s Ha' Hf Hi Hns) as [Hf' Hi'].
    destruct (moor_fragment_receive _ _ _ _ _ _) as [st' r]. cbn [fst] in *.
    unfold own_results. rewrite filter_cons_False by done.
    fold (own_results fid (receive_all st' es)).
    rewrite (IH fuel st' i s offset seq); try done.
    + by rewrite frames_cons by done.
    + by rewrite frames_cons by done.
Qed.

(** The first frame opens a slot of its own. *)
Lemma find_slot_fresh fid cmd sid now2 (data : bytes) st :
  pending fid st = None → Exists (λ s, active s = false) st → Z.of_nat (length data) <= MOOR_MAX_REASSEMBLY →
  ∃ i st' s, find_slot fid 0 (Z.of_nat (length data)) cmd sid now2 st = Some (i, st') ∧
    find_index (slot_matches fid) st' = Some i ∧ st' !! i = Some s ∧
    collecting fid cmd now2 data 0 0 s.
Proof.
  intros Hp Hfree Hl. unfold pending, find_slot in *.
  destruct (find_index (slot_matches fid) st) as [k|] eqn:Ek.
  { apply find_index_lt in Ek. apply lookup_ge_None in Hp. lia. }
  rewrite Z.eqb_refl. cbn [negb].
  destruct (find_index (λ s, negb (active s)) st) as [i|] eqn:Ei.
  2: { apply find_index_None in Ei. apply Exists_exists in Hfree as (x & Hx & Hxa).
       rewrite Forall_forall in Ei. specialize (Ei x Hx). by rewrite Hxa in Ei. }
  set (s := mk_slot _ _ _ _ _ _ _ _ _). pose proof (find_index_lt _ _ _ Ei) as Hlt.
  exists i, (<[i := s]> st), s.
  assert (Hs : collecting fid cmd now2 data 0 0 s).
  { unfold collecting, slot_ok, s, MOOR_MAX_REASSEMBLY.
    cbn [active fragment_id received next_seq expected_total inner_relay_cmd buffer started_at].
    rewrite length_zeros. repeat split; lia. }
  split; [done|]. split; [|split; [by apply list_lookup_insert_eq|done]].
  apply (find_index_intro _ _ _ s);
    [by apply list_lookup_insert_eq | by apply (collecting_matches _ _ _ _ _ _ _ Hs) |].
  intros j y Hj Hy. rewrite list_lookup_insert_ne in Hy by lia.
  apply find_index_None in Ek. rewrite Forall_lookup in Ek. eauto.
Qed.

(** C20. Fragmentation round trip under interleaving: a payload of 499..4096 bytes
    cut into cells by [moor_fragment_send] is handed back whole, with its inner
    command, when its last cell arrives, and every earlier cell answers "more".
    The cells may be interleaved in any way with other fragment cells on the same
    circuit (any contents, valid or not), as long as the first one finds a free
    slot and they all arrive within the 30 s lifetime of the slot. *)
Theorem fragment_roundtrip cid cmd sid data fid st e0 es cells t0 :
  is_u16 fid → is_u64 t0 → 498 < Z.of_nat (length data) <= MOOR_MAX_REASSEMBLY →
  moor_fragment_send log_cell cid cmd sid (Some data) (Z.of_nat (length data)) fid [] =
    Some (0, cells) →
  pending fid (expire_slots (arr_now e0) st) = None →
  Exists (λ s, active s = false) (expire_slots (arr_now e0) st) →
  arr_now2 e0 = t0 → Forall (in_time t0) es →
  arrival_of fid e0 = true → own_cells fid (e0 :: es) = cells →
  own_results fid (receive_all st (e0 :: es)) =
    replicate (length cells - 1) Receive_more ++ [Receive_complete cmd data].
Proof.
  intros Hfid Ht0 Hlen Hsend Hpend Hfree He0 Htime Harr Hown.
  assert (Hcells : cells = frames (length data) cmd data fid 0 0).
  { revert Hsend. unfold moor_fragment_send, MOOR_MAX_REASSEMBLY, MOOR_RELAY_DATA in *.
    destruct (Z.eqb_spec (Z.of_nat (length data)) 0); [lia|].
    destruct (Z.ltb_spec 4096 (Z.of_nat (length data))); [lia|].
    destruct (Z.leb_spec (Z.of_nat (length data)) (Z.of_nat 498)); [lia|]. cbn [orb].
    rewrite Nat2Z.id, fragment_send_loop_frames by lia. by intros [= <-]. }
  rewrite Hcells in *. clear Hsend Hcells. rewrite frames_cons in Hown |- * by lia.
  unfold own_cells in Hown. rewrite filter_cons_True, fmap_cons in Hown by done.
  injection Hown as Hc0 Hd0 Hrest. fold (own_cells fid es) in Hrest.
  cbn [receive_all]. rewrite Hc0, Hd0, receive_frame by (done || lia).
  destruct (find_slot_fresh fid cmd (arr_sid e0) (arr_now2 e0) data _ Hpend Hfree ltac:(lia))
    as (i & st' & s & -> & Hf & Hi & Hc). rewrite Hi.
  assert (Hmax : Z.of_nat (length data) <= MOOR_MAX_REASSEMBLY) by lia.
  assert (Hpos : (0 < length data)%nat) by lia.
  pose proof (accept_own _ _ _ _ _ _ _ _ _ Hmax Hpos Hf Hi Hc) as Hacc. cbv zeta in Hacc.
  destruct (accept_fragment _ _ _ _ _ _ _ _) as [st'' r].
  unfold own_results. rewrite filter_cons_True by done. rewrite fmap_cons. cbn [snd].
  fold (own_results fid (receive_all st'' es)).
  assert (Hchunk : (chunk_at data 0 = 491)%nat) by (unfold chunk_at, MOOR_FRAGMENT_DATA; lia).
  rewrite Nat.add_0_l, Hchunk in *. destruct (Nat.leb_spec (length data) 491); [lia|].
  destruct Hacc as (-> & Hf2 & s' & Hs' & Hc'). rewrite He0 in Hc'.
  rewrite (receive_rest fid cmd t0 data es (length data - 1) st'' i s' 491 (u16 (0 + 1)));
    try done; try lia.
  rewrite (frames_cons (length data - 1)) by lia. simpl. by rewrite Nat.sub_0_r.
Qed.

(** A 500-byte message in two cells, with a fragment of another stream between. *)
Definition sample_data : bytes := replicate 491 7 ++ replicate 9 5.
Definition sample_cells : list (Z * bytes) := frames 500 2 sample_data 77 0 0.
Definition sample_trace : list arrival :=
  match sample_cells with
  | [c1; c2] =>
      [ mk_arrival c1.1 c1.2 3 1000 1000;
        mk_arrival (relay_code RELAY_FRAGMENT) (fragment_frame 9 0 20 2 [1; 2]) 3 2000 2000;
        mk_arrival c2.1 c2.2 3 30900 30900 ]
  | _ => []
  end.

Lemma fragment_roundtrip_witness :
  own_results 77 (receive_all moor_reassembly_init sample_trace) =
    [Receive_more; Receive_complete 2 sample_data].
Proof.
  change sample_trace with
    (match sample_trace with e :: es => e :: es | [] => [] end).
  apply (fragment_roundtrip 1 2 3 sample_data 77 moor_reassembly_init
           (nth 0 sample_trace (mk_arrival 0 [] 0 0 0)) (drop 1 sample_trace) sample_cells 1000).
  - unfold is_u16. lia.
  - unfold is_u64. lia.
  - unfold sample_data, MOOR_MAX_REASSEMBLY. rewrite length_app, !length_replicate. lia.
  - vm_compute. reflexivity.
  - vm_compute. reflexivity.
  - apply Exists_cons_hd. reflexivity.
  - vm_compute. reflexivity.
  - apply Forall_cons. split; [|apply Forall_cons; split; [|apply Forall_nil; done]];
      unfold in_time; vm_compute; split; congruence.
  - vm_compute. reflexivity.
  - vm_compute. reflexivity.
Defined.
