(* ===== verification/Onion.v ===== *)
(** * Onion: layered circuit encryption and recognition of relay cells

    Models the circuit cryptography of [src/src/circuit.c]
    ([moor_circuit_encrypt_forward], [moor_circuit_decrypt_backward],
    [moor_circuit_relay_decrypt], [moor_circuit_relay_encrypt]), the stream cipher
    call of [src/src/crypto.c], and the way [moor_relay_handle_relay]
    ([src/src/relay.c]) peels, recognises and forwards a cell.

    ChaCha20 (libsodium's [crypto_stream_chacha20_ietf_xor]) and BLAKE2b are
    parameters; what is used of ChaCha20 is its documentation: it returns 0 and
    XORs the message with a keystream that depends on nonce, key and length only. *)

From S2P Require Import Prelude Cell.

Definition MOOR_CIRC_CELL_QUEUE_MAX : Z := 2500.
Definition MOOR_MAX_RELAY_EARLY : Z := 8.
Definition DESTROY_REASON_PROTOCOL : Z := 1.

(** ** State *)

(** [circ->hops[i]] of a client circuit; the list holds the first [num_hops]. *)
Record hop_t := mk_hop {
  forward_key : bytes;
  backward_key : bytes;
  forward_nonce : Z;       (* uint64_t *)
  backward_nonce : Z;      (* uint64_t *)
  forward_digest : bytes;
  backward_digest : bytes;
  node_id : bytes;
}.

(** The fields of a relay-side [moor_circuit_t] the cell path reads and writes.
    [next_open] is [next_conn && next_conn->state == CONN_STATE_OPEN], likewise
    [prev_open]; [queue_depth] is the summed depth of the two cell queues;
    [marked_for_close] holds the reason once the circuit is marked. *)
Record relay_circ := mk_relay_circ {
  relay_forward_key : bytes;
  relay_backward_key : bytes;
  relay_forward_nonce : Z;
  relay_backward_nonce : Z;
  relay_forward_digest : bytes;
  relay_backward_digest : bytes;
  prev_circuit_id : Z;
  next_circuit_id : Z;
  prev_open : bool;
  next_open : bool;
  queue_depth : Z;
  relay_early_count : Z;   (* uint8_t *)
  last_cell_time : Z;
  marked_for_close : option Z;
}.

(** What the relay does with a cell. *)
Inductive relay_action :=
  | Recognized (r : moor_relay_payload_t)   (* handled at this hop *)
  | ForwardNext (c : moor_cell_t)           (* queued toward the next hop *)
  | ForwardPrev (c : moor_cell_t)           (* queued toward the previous hop *)
  | QueueOverflow                           (* circuit destroyed, return -1 *)
  | EarlyOverflow                           (* RELAY_EARLY limit, return -1 *)
  | Dropped.                                (* no open connection onward *)

Section Onion.
  Context (crypto_stream_chacha20_ietf_xor : bytes → bytes → bytes → Z * bytes).
  Context (hash : bytes → bytes).

(** 12-byte IETF nonce: the 64-bit counter in little-endian, then four zeros. *)
Definition nonce_buf (nonce : Z) : bytes := le_put 8 nonce ++ zeros 4.

Definition moor_crypto_stream_xor (buf key : bytes) (nonce : Z) : Z * bytes :=
  crypto_stream_chacha20_ietf_xor buf (nonce_buf nonce) key.

(** ** Client side *)

(** [for (i = num_hops - 1; i >= 0; i--)], with [i + 1] as the argument. *)
Fixpoint encrypt_forward_loop (i : nat) (hops : list hop_t) (p : bytes)
  : Z * list hop_t * bytes :=
  match i with
  | O => (0, hops, p)
  | S i =>
      match hops !! i with
      | None => (-1, hops, p)
      | Some h =>
          if forward_nonce h =? UINT64_MAX then (-1, hops, p)
          else
            let '(rc, p) := moor_crypto_stream_xor p (forward_key h) (forward_nonce h) in
            if negb (rc =? 0) then (-1, hops, p)
            else encrypt_forward_loop i
                   (<[i := {| h with forward_nonce := u64 (forward_nonce h + 1) |}]> hops) p
      end
  end.

Definition moor_circuit_encrypt_forward (hops : list hop_t) (p : bytes)
  : Z * list hop_t * bytes :=
  let n := length hops in
  let '(hops, p) :=
    match hops !! (n - 1)%nat with
    | Some h =>
        let '(p, d) := moor_relay_set_digest hash p (forward_digest h) in
        (<[(n - 1)%nat := {| h with forward_digest := d |}]> hops, p)
    | None => (hops, p)
    end in
  encrypt_forward_loop n hops p.

(** [for (i = 0; i < num_hops; i++)], [todo] counting the hops left. *)
Fixpoint decrypt_backward_loop (todo i : nat) (hops : list hop_t) (p : bytes)
  : Z * list hop_t * bytes :=
  match todo with
  | O => (0, hops, p)
  | S todo =>
      match hops !! i with
      | None => (-1, hops, p)
      | Some h =>
          if backward_nonce h =? UINT64_MAX then (-1, hops, p)
          else
            let '(rc, p) := moor_crypto_stream_xor p (backward_key h) (backward_nonce h) in
            if negb (rc =? 0) then (-1, hops, p)
            else decrypt_backward_loop todo (S i)
                   (<[i := {| h with backward_nonce := u64 (backward_nonce h + 1) |}]> hops) p
      end
  end.

Definition moor_circuit_decrypt_backward (hops : list hop_t) (p : bytes)
  : Z * list hop_t * bytes :=
  let n := length hops in
  let '(rc, hops, p) := decrypt_backward_loop n 0 hops p in
  if negb (rc =? 0) then (-1, hops, p)
  else
    match hops !! (n - 1)%nat with
    | None => (0, hops, p)
    | Some h =>
        match moor_relay_check_digest hash p (backward_digest h) with
        | None => (-1, hops, p)
        | Some d => (0, <[(n - 1)%nat := {| h with backward_digest := d |}]> hops, p)
        end
    end.

(** ** Relay side *)

(** [now] is [time(NULL)]. *)
Definition moor_circuit_relay_decrypt (c : relay_circ) (p : bytes) (now : Z)
  : Z * relay_circ * bytes :=
  if relay_forward_nonce c =? UINT64_MAX then (-1, c, p)
  else
    let '(rc, p) := moor_crypto_stream_xor p (relay_forward_key c) (relay_forward_nonce c) in
    if negb (rc =? 0) then (-1, c, p)
    else (0, {| c with relay_forward_nonce := u64 (relay_forward_nonce c + 1);
                       last_cell_time := now |}, p).

(** The effect of [moor_circuit_mark_for_close] on this record: only the first
    mark counts. *)
Definition mark_circ (c : relay_circ) (reason : Z) : relay_circ :=
  match marked_for_close c with
  | Some _ => c
  | None => {| c with marked_for_close := Some reason |}
  end.

Definition moor_circuit_relay_encrypt (c : relay_circ) (p : bytes)
  : Z * relay_circ * bytes :=
  if relay_backward_nonce c =? UINT64_MAX
  then (-1, mark_circ c DESTROY_REASON_PROTOCOL, zeros MOOR_CELL_PAYLOAD)
  else
    let '(rc, p) := moor_crypto_stream_xor p (relay_backward_key c) (relay_backward_nonce c) in
    if negb (rc =? 0)
    then (-1, mark_circ c DESTROY_REASON_PROTOCOL, zeros MOOR_CELL_PAYLOAD)
    else (0, {| c with relay_backward_nonce := u64 (relay_backward_nonce c + 1) |}, p).

(** A cell from [prev_conn]: peel, try to recognise, else pass on. The return
    value of the peel is not looked at; the local [relay] struct is uninitialised
    before it is unpacked ([old]). *)
Definition handle_relay_forward (c : relay_circ) (work : moor_cell_t)
    (old : moor_relay_payload_t) (now : Z) : relay_circ * relay_action :=
  let '(_, c, p) := moor_circuit_relay_decrypt c (payload work) now in
  let relay := moor_relay_unpack old p in
  match (if recognized relay =? 0
         then moor_relay_check_digest hash p (relay_forward_digest c) else None) with
  | Some d => ({| c with relay_forward_digest := d |}, Recognized relay)
  | None =>
      if MOOR_CIRC_CELL_QUEUE_MAX <? queue_depth c then (c, QueueOverflow)
      else if next_open c then
        let fwd := {| work with circuit_id := next_circuit_id c; payload := p |} in
        if command work =? cell_code CELL_RELAY_EARLY then
          if MOOR_MAX_RELAY_EARLY <=? relay_early_count c then (c, EarlyOverflow)
          else ({| c with relay_early_count := u8 (relay_early_count c + 1) |}, ForwardNext fwd)
        else (c, ForwardNext fwd)
      else (c, Dropped)
  end.

(** A cell from [next_conn]: add a layer and pass it back. *)
Definition handle_relay_backward (c : relay_circ) (work : moor_cell_t)
  : relay_circ * relay_action :=
  let '(_, c, p) := moor_circuit_relay_encrypt c (payload work) in
  if prev_open c
  then (c, ForwardPrev {| work with circuit_id := prev_circuit_id c; payload := p |})
  else (c, Dropped).

(** A cell travelling from the client along the relays of a circuit: the relays
    after it went by, and where and as what it was recognised. *)
Fixpoint path_forward (rs : list relay_circ) (cell : moor_cell_t)
    (old : moor_relay_payload_t) (now : Z)
  : list relay_circ * option (nat * moor_relay_payload_t) :=
  match rs with
  | [] => ([], None)
  | r :: rs =>
      match handle_relay_forward r cell old now with
      | (r, Recognized x) => (r :: rs, Some (O, x))
      | (r, ForwardNext c) =>
          let '(rs, res) := path_forward rs c old now in
          (r :: rs, (λ '(k, x), (S k, x)) <$> res)
      | (r, _) => (r :: rs, None)
      end
  end.

(** A cell travelling back: it enters the relay nearest the originator first. *)
Fixpoint path_backward (rs : list relay_circ) (cell : moor_cell_t)
  : list relay_circ * option moor_cell_t :=
  match rs with
  | [] => ([], Some cell)
  | r :: rs =>
      match path_backward rs cell with
      | (rs, Some cell) =>
          match handle_relay_backward r cell with
          | (r, ForwardPrev c) => (r :: rs, Some c)
          | (r, _) => (r :: rs, None)
          end
      | (rs, None) => (r :: rs, None)
      end
  end.

(** A client sending a sequence of relay payloads, each travelling the path. *)
Fixpoint send_all (hops : list hop_t) (rs : list relay_circ) (cid : Z)
    (msgs : list moor_relay_payload_t) (old : moor_relay_payload_t) (now : Z)
  : list hop_t * list relay_circ * list (option (nat * moor_relay_payload_t)) :=
  match msgs with
  | [] => (hops, rs, [])
  | m :: msgs =>
      let '(rc, hops, p) := moor_circuit_encrypt_forward hops (moor_relay_pack m) in
      if rc =? 0 then
        let '(rs, res) := path_forward rs (mk_cell cid (cell_code CELL_RELAY) p) old now in
        let '(hops, rs, out) := send_all hops rs cid msgs old now in
        (hops, rs, res :: out)
      else (hops, rs, [])
  end.

(** A relay that answers: set the backward digest, add the layer, queue backward. *)
Definition relay_originate (c : relay_circ) (cell : moor_cell_t)
  : relay_circ * moor_cell_t :=
  let '(p, d) := moor_relay_set_digest hash (payload cell) (relay_backward_digest c) in
  let '(_, c, p) := moor_circuit_relay_encrypt {| c with relay_backward_digest := d |} p in
  (c, {| cell with payload := p |}).

(** The nonces hop [i] of a client circuit has encrypted under, over any sequence
    of cells, whether each call succeeded or not. *)
Fixpoint nonces_used (i : nat) (hops : list hop_t) (ps : list bytes) : list bytes :=
  match ps with
  | [] => []
  | p :: ps =>
      let '(_, hops', _) := moor_circuit_encrypt_forward hops p in
      match hops !! i, hops' !! i with
      | Some h, Some h' =>
          if forward_nonce h' =? forward_nonce h then nonces_used i hops' ps
          else nonce_buf (forward_nonce h) :: nonces_used i hops' ps
      | _, _ => []
      end
  end.

(** The relay at the end of the path answering with a sequence of payloads, each
    travelling back to the client, which decrypts it. *)
Fixpoint answer_all (hops : list hop_t) (ri : list relay_circ) (r : relay_circ)
    (msgs : list moor_relay_payload_t) (old : moor_relay_payload_t)
  : list hop_t * list relay_circ * relay_circ * list (Z * moor_relay_payload_t) :=
  match msgs with
  | [] => (hops, ri, r, [])
  | m :: msgs =>
      let '(r, cell) := relay_originate r
           (mk_cell (prev_circuit_id r) (cell_code CELL_RELAY) (moor_relay_pack m)) in
      match path_backward ri cell with
      | (ri, None) => (hops, ri, r, [])
      | (ri, Some cell) =>
          let '(rc, hops, p) := moor_circuit_decrypt_backward hops (payload cell) in
          let '(hops, ri, r, out) := answer_all hops ri r msgs old in
          (hops, ri, r, (rc, moor_relay_unpack old p) :: out)
      end
  end.
End Onion.

(** ** Keys, nonces and digests of the two ends of a hop agree *)

Definition hop_sync (h : hop_t) (r : relay_circ) : Prop :=
  forward_key h = relay_forward_key r ∧ forward_nonce h = relay_forward_nonce r ∧
  forward_digest h = relay_forward_digest r ∧
  backward_key h = relay_backward_key r ∧ backward_nonce h = relay_backward_nonce r ∧
  backward_digest h = relay_backward_digest r.

(** The relay can pass cells on: the next link is open and its queue is not over
    the limit. *)
Definition can_forward (r : relay_circ) : Prop :=
  next_open r = true ∧ queue_depth r <= MOOR_CIRC_CELL_QUEUE_MAX.

Section Facts.
  Context (chacha : bytes → bytes → bytes → Z * bytes).
  Context (ks : bytes → bytes → nat → bytes).
  Context (hash : bytes → bytes).
  Hypothesis chacha_xors : ∀ m n k, chacha m n k = (0, xor_bytes (ks n k (length m)) m).
  Hypothesis ks_length : ∀ n k l, length (ks n k l) = l.
  Hypothesis hash_length : ∀ m, length (hash m) = 32%nat.

(** One onion layer. *)
Definition layer (key : bytes) (nonce : Z) (p : bytes) : bytes :=
  xor_bytes (ks (nonce_buf nonce) key (length p)) p.

Lemma stream_xor_layer p key nonce :
  moor_crypto_stream_xor chacha p key nonce = (0, layer key nonce p).
Proof. unfold moor_crypto_stream_xor. by rewrite chacha_xors. Qed.

Lemma length_layer key nonce p : length (layer key nonce p) = length p.
Proof. unfold layer. rewrite length_xor_bytes, ks_length. lia. Qed.

(** A layer removes itself. *)
Lemma layer_layer key nonce p : layer key nonce (layer key nonce p) = p.
Proof.
  unfold layer at 1. rewrite length_layer. unfold layer.
  by rewrite xor_bytes_cancel by (by rewrite ks_length).
Qed.

Definition bump_forward (h : hop_t) : hop_t :=
  {| h with forward_nonce := forward_nonce h + 1 |}.
Definition bump_backward (h : hop_t) : hop_t :=
  {| h with backward_nonce := backward_nonce h + 1 |}.

(** All forward layers of a hop list, innermost for the last hop. *)
Definition wrap (hops : list hop_t) (p : bytes) : bytes :=
  foldr (λ h q, layer (forward_key h) (forward_nonce h) q) p hops.

Definition unwrap (hops : list hop_t) (p : bytes) : bytes :=
  fold_left (λ q h, layer (backward_key h) (backward_nonce h) q) hops p.

Lemma length_wrap hops p : length (wrap hops p) = length p.
Proof. induction hops as [|h hops IH]; simpl; [done|]. by rewrite length_layer. Qed.

Definition forward_live (h : hop_t) : Prop := 0 <= forward_nonce h < UINT64_MAX.
Definition backward_live (h : hop_t) : Prop := 0 <= backward_nonce h < UINT64_MAX.

Lemma wrap_snoc hops h p :
  wrap (hops ++ [h]) p = wrap hops (layer (forward_key h) (forward_nonce h) p).
Proof. unfold wrap. by rewrite foldr_app. Qed.

Lemma encrypt_forward_loop_wrap pre post p :
  Forall forward_live pre →
  encrypt_forward_loop chacha (length pre) (pre ++ post) p =
    (0, map bump_forward pre ++ post, wrap pre p).
Proof.
  revert post p. induction pre as [|h pre IH] using rev_ind; intros post p Hl; [done|].
  apply Forall_app in Hl as [Hl Hh]. apply Forall_cons_1 in Hh as [Hh _].
  rewrite length_app, Nat.add_1_r. cbn [encrypt_forward_loop].
  rewrite <- app_assoc. change ([h] ++ post) with (h :: post).
  rewrite (list_lookup_middle pre _ h) by done.
  unfold forward_live, UINT64_MAX in Hh.
  destruct (Z.eqb_spec (forward_nonce h) UINT64_MAX); [unfold UINT64_MAX in *; lia|].
  rewrite stream_xor_layer. cbn [negb Z.eqb]. rewrite u64_small by (unfold is_u64; lia).
  fold (bump_forward h). rewrite insert_app_r_alt by lia. rewrite Nat.sub_diag. cbn [insert list_insert].
  rewrite (IH (bump_forward h :: post)) by done.
  rewrite map_app, <- app_assoc, wrap_snoc. done.
Qed.

Lemma decrypt_backward_loop_unwrap pre todo p :
  Forall backward_live todo →
  decrypt_backward_loop chacha (length todo) (length pre) (pre ++ todo) p =
    (0, pre ++ map bump_backward todo, unwrap todo p).
Proof.
  intros Hl. revert pre p. induction Hl as [|h todo Hh Hl IH]; intros pre p; [done|].
  cbn [length decrypt_backward_loop]. rewrite (list_lookup_middle pre _ h) by done.
  unfold backward_live, UINT64_MAX in Hh.
  destruct (Z.eqb_spec (backward_nonce h) UINT64_MAX); [unfold UINT64_MAX in *; lia|].
  rewrite stream_xor_layer. cbn [negb Z.eqb]. rewrite u64_small by (unfold is_u64; lia).
  fold (bump_backward h). rewrite insert_app_r_alt by lia. rewrite Nat.sub_diag. cbn [insert list_insert].
  specialize (IH (pre ++ [bump_backward h]) (layer (backward_key h) (backward_nonce h) p)).
  rewrite length_app, Nat.add_1_r, <- !app_assoc in IH. exact IH.
Qed.

(** [moor_circuit_encrypt_forward] as a whole, on a circuit with a last hop. *)
Lemma encrypt_forward_eq hops h p :
  Forall forward_live (hops ++ [h]) →
  moor_circuit_encrypt_forward chacha hash (hops ++ [h]) p =
    let '(q, d) := moor_relay_set_digest hash p (forward_digest h) in
    (0, map bump_forward (hops ++ [{| h with forward_digest := d |}]),
     wrap (hops ++ [h]) q).
Proof.
  intros Hl. unfold moor_circuit_encrypt_forward.
  assert (Hn : (length (hops ++ [h]) - 1 = length hops)%nat) by (rewrite length_app; simpl; lia).
  rewrite Hn, (list_lookup_middle hops [] h) by done.
  destruct (moor_relay_set_digest hash p (forward_digest h)) as [q d].
  rewrite insert_app_r_alt by lia. rewrite Nat.sub_diag. cbn [insert list_insert].
  set (h' := {| h with forward_digest := d |}).
  assert (Hl' : Forall forward_live (hops ++ [h'])).
  { apply Forall_app in Hl as [Hi Hh]. apply Forall_cons_1 in Hh as [Hh _].
    apply Forall_app. split; [done|]. by constructor. }
  rewrite length_app. change (length [h]) with (length [h']). rewrite <- length_app.
  pose proof (encrypt_forward_loop_wrap (hops ++ [h']) [] q Hl') as E.
  rewrite !app_nil_r in E. rewrite E, !wrap_snoc. done.
Qed.

Lemma decrypt_backward_eq hops h p :
  Forall backward_live (hops ++ [h]) →
  moor_circuit_decrypt_backward chacha hash (hops ++ [h]) p =
    let q := unwrap (hops ++ [h]) p in
    match moor_relay_check_digest hash q (backward_digest h) with
    | None => (-1, map bump_backward (hops ++ [h]), q)
    | Some d => (0, map bump_backward (hops ++ [{| h with backward_digest := d |}]), q)
    end.
Proof.
  intros Hl. unfold moor_circuit_decrypt_backward.
  pose proof (decrypt_backward_loop_unwrap [] (hops ++ [h]) p Hl) as E. cbn [app length] in E.
  rewrite E. cbn [negb Z.eqb]. rewrite map_app. cbn [map].
  assert (Hn : (length (hops ++ [h]) - 1 = length (map bump_backward hops))%nat)
    by (rewrite length_app, length_map; simpl; lia).
  rewrite Hn, (list_lookup_middle (map bump_backward hops) [] (bump_backward h)) by done.
  cbn [backward_digest bump_backward].
  destruct (moor_relay_check_digest hash _ (backward_digest h)); [|done].
  rewrite insert_app_r_alt by lia. rewrite Nat.sub_diag, map_app. done.
Qed.
(** *** A relay peels one layer *)

Definition peeled (r : relay_circ) (now : Z) : relay_circ :=
  {| r with relay_forward_nonce := relay_forward_nonce r + 1; last_cell_time := now |}.

Lemma relay_decrypt_layer h r p now :
  hop_sync h r → forward_live h →
  moor_circuit_relay_decrypt chacha r (layer (forward_key h) (forward_nonce h) p) now =
    (0, peeled r now, p).
Proof.
  intros (Hk & Hn & _) Hl. unfold moor_circuit_relay_decrypt.
  unfold forward_live, UINT64_MAX in Hl. rewrite <- Hn.
  destruct (Z.eqb_spec (forward_nonce h) UINT64_MAX); [unfold UINT64_MAX in *; lia|].
  rewrite stream_xor_layer, <- Hk, layer_layer. cbn [negb Z.eqb].
  rewrite u64_small by (unfold is_u64; lia). unfold peeled. by rewrite <- Hn, <- Hk.
Qed.

Lemma hop_sync_peeled h r now : hop_sync h r → hop_sync (bump_forward h) (peeled r now).
Proof.
  intros (? & Hn & ? & ? & ? & ?). unfold hop_sync, bump_forward, peeled.
  repeat split; cbn; try done. by rewrite Hn.
Qed.

(** The digest field is four bytes of the header; the rest of the payload does not
    depend on it. *)
Lemma relay_unpack_blit_digest old p x :
  length p = MOOR_CELL_PAYLOAD → length x = 4%nat →
  moor_relay_unpack old (blit 5 x p) = {| (moor_relay_unpack old p) with digest := x |}.
Proof.
  intros Hp Hx. unfold MOOR_CELL_PAYLOAD in Hp.
  do 9 (destruct p as [|? p]; [done|]).
  do 4 (destruct x as [|? x]; [done|]). destruct x; [|done]. reflexivity.
Qed.

(** What the hop at the far end reads from a cell whose digest was set for it. *)
Lemma unpack_digest_payload old m d :
  relay_ok m → data_length m <= 498 →
  moor_relay_unpack old (moor_relay_set_digest hash (moor_relay_pack m) d).1 =
    {| m with digest := take 4 (moor_relay_set_digest hash (moor_relay_pack m) d).2;
              data := blit 0 (take (Z.to_nat (data_length m)) (data m)) (data old) |}.
Proof.
  intros Hok Hlen. pose proof (relay_pack_ok m Hok) as [Hp _].
  unfold moor_relay_set_digest. cbn [fst snd].
  assert (Hz : length (blit 5 (zeros 4) (moor_relay_pack m)) = MOOR_CELL_PAYLOAD)
    by (rewrite length_blit; rewrite ?length_zeros, ?Hp; [done|unfold MOOR_CELL_PAYLOAD; lia]).
  rewrite relay_unpack_blit_digest; [|done|rewrite length_take, hash_length; done].
  rewrite relay_unpack_blit_digest by done.
  destruct Hok as (H1 & H2 & H3 & H4 & H5 & H6 & H7 & H8).
  rewrite moor_relay_pack_form, relay_unpack_header by done. unfold is_u16, MOOR_RELAY_DATA in *.
  cbv zeta. destruct (Z.ltb_spec 498 (data_length m)); [lia|].
  destruct m as [c rc sid dg len dat]; cbn [data_length data] in *.
  destruct ((0 <? len) && (len <=? 498)) eqn:E.
  - rewrite take_app_le, take_take, Nat.min_id by (rewrite length_take; lia). done.
  - replace len with 0 by lia. done.
Qed.
(** *** Travelling the path forward *)

(** What passing a cell on does to a relay: [RELAY_EARLY] cells are counted. *)
Definition passed (cmd now : Z) (r : relay_circ) : relay_circ :=
  if cmd =? cell_code CELL_RELAY_EARLY
  then {| (peeled r now) with relay_early_count := u8 (relay_early_count r + 1) |} else peeled r now.

(** The relay passes cells of that command on. *)
Definition may_pass (cmd : Z) (r : relay_circ) : Prop :=
  can_forward r ∧ (cmd = cell_code CELL_RELAY_EARLY → relay_early_count r < MOOR_MAX_RELAY_EARLY).

(** A relay on the way either recognises the cell by accident, or passes its
    inner layers on. *)
Lemma handle_relay_forward_mid h r cell q old now :
  hop_sync h r → forward_live h → may_pass (command cell) r →
  payload cell = layer (forward_key h) (forward_nonce h) q →
  (∃ r' x, handle_relay_forward chacha hash r cell old now = (r', Recognized x)) ∨
  handle_relay_forward chacha hash r cell old now =
    (passed (command cell) now r, ForwardNext (mk_cell (next_circuit_id r) (command cell) q)).
Proof.
  intros Hs Hl [[Hopen Hq] He] Hp. unfold handle_relay_forward.
  rewrite Hp, (relay_decrypt_layer h) by done.
  destruct (if recognized _ =? 0 then _ else None) as [d|]; [left; eauto|right].
  change (queue_depth (peeled r now)) with (queue_depth r).
  change (next_open (peeled r now)) with (next_open r).
  change (relay_early_count (peeled r now)) with (relay_early_count r).
  destruct (Z.ltb_spec MOOR_CIRC_CELL_QUEUE_MAX (queue_depth r)); [lia|].
  rewrite Hopen. unfold passed. destruct (Z.eqb_spec (command cell) (cell_code CELL_RELAY_EARLY)) as [E|]; [|done].
  specialize (He E). destruct (Z.leb_spec MOOR_MAX_RELAY_EARLY (relay_early_count r)); [lia|].
  change (next_open (peeled r now)) with (next_open r). by rewrite Hopen.
Qed.

(** The hop the digest was set for recognises the cell. *)
Lemma handle_relay_forward_last h r cell m old now :
  hop_sync h r → forward_live h → relay_ok m → data_length m <= 498 → recognized m = 0 →
  let '(q, d) := moor_relay_set_digest hash (moor_relay_pack m) (forward_digest h) in
  payload cell = layer (forward_key h) (forward_nonce h) q →
  handle_relay_forward chacha hash r cell old now =
    ({| (peeled r now) with relay_forward_digest := d |},
     Recognized {| m with digest := take 4 d;
                          data := blit 0 (take (Z.to_nat (data_length m)) (data m)) (data old) |}).
Proof.
  intros Hs Hl Hok Hlen Hrec. pose proof (relay_pack_ok m Hok) as [Hp _].
  pose proof (unpack_digest_payload old m (forward_digest h) Hok Hlen) as Hu.
  pose proof (check_set_digest hash hash_length (moor_relay_pack m) (forward_digest h) Hp) as Hck.
  destruct (moor_relay_set_digest hash _ _) as [q d]. cbn [fst snd] in *. intros Hc.
  unfold handle_relay_forward. rewrite Hc, (relay_decrypt_layer h) by done.
  rewrite Hu. cbn [recognized]. rewrite Hrec. cbn [Z.eqb].
  replace (relay_forward_digest (peeled r now)) with (forward_digest h)
    by (destruct Hs as (_ & _ & ? & _); done).
  by rewrite Hck.
Qed.

(** A wrapped cell travelling [ri ++ [r]]: recognised early by accident, or
    delivered at the last relay with every relay one nonce further. *)
Lemma path_forward_passes hi h ri r m old now : ∀ cell,
  Forall2 hop_sync hi ri → hop_sync h r → Forall forward_live (hi ++ [h]) →
  Forall (may_pass (command cell)) ri →
  relay_ok m → data_length m <= 498 → recognized m = 0 →
  let '(q, d) := moor_relay_set_digest hash (moor_relay_pack m) (forward_digest h) in
  payload cell = wrap (hi ++ [h]) q →
  (∃ rs' k x, path_forward chacha hash (ri ++ [r]) cell old now = (rs', Some (k, x)) ∧
              (k < length ri)%nat) ∨
  path_forward chacha hash (ri ++ [r]) cell old now =
    (map (passed (command cell) now) ri ++ [{| (peeled r now) with relay_forward_digest := d |}],
     Some (length ri,
       {| m with digest := take 4 d;
                 data := blit 0 (take (Z.to_nat (data_length m)) (data m)) (data old) |})).
Proof.
  intros cell Hsync. revert cell.
  induction Hsync as [|h1 r1 hi ri Hs1 Hsync IH]; intros cell Hs Hlive Hfwd Hok Hlen Hrec;
    inversion Hlive as [|? ? Hl1 Hlive']; subst.
  - pose proof (handle_relay_forward_last h r cell m old now Hs Hl1 Hok Hlen Hrec) as Hlast.
    destruct (moor_relay_set_digest hash _ _) as [q d]. intros Hp. right.
    cbn [app path_forward]. rewrite Hlast by done. done.
  - inversion Hfwd as [|? ? Hf1 Hfwd']; subst.
    specialize (IH (mk_cell (next_circuit_id r1) (command cell)
      (wrap (hi ++ [h]) (moor_relay_set_digest hash (moor_relay_pack m) (forward_digest h)).1))
      Hs Hlive' Hfwd' Hok Hlen Hrec).
    destruct (moor_relay_set_digest hash _ _) as [q d]. cbn [fst] in IH. intros Hp.
    destruct (handle_relay_forward_mid h1 r1 cell (wrap (hi ++ [h]) q) old now Hs1 Hl1 Hf1 Hp)
      as [(r' & x & E)|E]; cbn [app path_forward]; rewrite E.
    + left. do 3 eexists. split; [done|]. simpl. lia.
    + destruct (IH eq_refl) as [(rs' & k & x & E' & Hk)|E']; rewrite E'; cbn [fmap option_fmap option_map].
      * left. do 3 eexists. split; [done|]. simpl. lia.
      * right. done.
Qed.

Lemma path_forward_delivers hi h ri r m old now cell :
  Forall2 hop_sync hi ri → hop_sync h r → Forall forward_live (hi ++ [h]) →
  Forall can_forward ri → command cell = cell_code CELL_RELAY →
  relay_ok m → data_length m <= 498 → recognized m = 0 →
  let '(q, d) := moor_relay_set_digest hash (moor_relay_pack m) (forward_digest h) in
  payload cell = wrap (hi ++ [h]) q →
  (∃ rs' k x, path_forward chacha hash (ri ++ [r]) cell old now = (rs', Some (k, x)) ∧
              (k < length ri)%nat) ∨
  path_forward chacha hash (ri ++ [r]) cell old now =
    (map (λ r, peeled r now) ri ++ [{| (peeled r now) with relay_forward_digest := d |}],
     Some (length ri,
       {| m with digest := take 4 d;
                 data := blit 0 (take (Z.to_nat (data_length m)) (data m)) (data old) |})).
Proof.
  intros Hsync Hs Hlive Hfwd Hc. replace (map (λ r, peeled r now) ri) with (map (passed (command cell) now) ri)
    by (apply map_ext; intros a; by rewrite Hc).
  apply path_forward_passes; [done..|]. eapply Forall_impl; [exact Hfwd|]. intros x Hx. split; [done|]. by rewrite Hc.
Qed.

(** [m] as the far hop reads it into [old]. *)
Definition delivered_as (old m x : moor_relay_payload_t) : Prop :=
  relay_command x = relay_command m ∧ recognized x = 0 ∧ stream_id x = stream_id m ∧
  data_length x = data_length m ∧
  data x = blit 0 (take (Z.to_nat (data_length m)) (data m)) (data old).

(** A payload the client may send: one relay cell's worth, not yet recognised. *)
Definition sendable (m : moor_relay_payload_t) : Prop :=
  relay_ok m ∧ data_length m <= 498 ∧ recognized m = 0.

(** The hop's forward nonce leaves room for [n] more cells. *)
Definition forward_room (n : nat) (h : hop_t) : Prop :=
  0 <= forward_nonce h ∧ forward_nonce h + Z.of_nat n <= UINT64_MAX.

Lemma forward_room_bump n h : forward_room (S n) h → forward_live h ∧ forward_room n (bump_forward h).
Proof. unfold forward_room, forward_live. cbn [bump_forward forward_nonce]. lia. Qed.

(** C8. Onion routing delivers: a client and the relays of its circuit that agree
    on keys, nonces and digests carry any sequence of relay payloads to the last
    hop, in order and unchanged, however many hops there are, and still agree
    afterwards. The only way out is an intermediate relay whose own running digest
    accidentally matches a cell meant for another hop; a run in which that does
    not happen (no result at an earlier hop) delivers every payload at the end. *)
Theorem onion_forward_delivery msgs : ∀ hi h ri r cid old now hops' rs' out,
  Forall2 hop_sync hi ri → hop_sync h r →
  Forall (forward_room (length msgs)) (hi ++ [h]) → Forall can_forward ri →
  Forall sendable msgs →
  send_all chacha hash (hi ++ [h]) (ri ++ [r]) cid msgs old now = (hops', rs', out) →
  Forall (λ res, ∀ k x, res = Some (k, x) → (length ri <= k)%nat) out →
  Forall2 hop_sync hops' rs' ∧
  Forall2 (λ m res, ∃ x, res = Some (length ri, x) ∧ delivered_as old m x) msgs out.
Proof.
  induction msgs as [|m msgs IH]; intros hi h ri r cid old now hops' rs' out Hsync Hs Hroom
    Hfwd Hmsgs Hrun Hearly; cbn [send_all] in Hrun.
  { simplify_eq. split; [|done]. apply Forall2_app; [done|]. by constructor. }
  inversion Hmsgs as [|? ? (Hok & Hlen & Hrec) Hmsgs']; subst.
  assert (Hlive : Forall forward_live (hi ++ [h]))
    by (eapply Forall_impl; [exact Hroom|]; intros x Hx; by apply forward_room_bump in Hx as [? _]).
  rewrite encrypt_forward_eq in Hrun by done.
  pose proof (path_forward_delivers hi h ri r m old now
    (mk_cell cid (cell_code CELL_RELAY)
       (wrap (hi ++ [h]) (moor_relay_set_digest hash (moor_relay_pack m) (forward_digest h)).1))
    Hsync Hs Hlive Hfwd eq_refl Hok Hlen Hrec) as Hpath.
  destruct (moor_relay_set_digest hash _ _) as [q d]. cbn [fst] in Hpath.
  rewrite Z.eqb_refl in Hrun.
  destruct (Hpath eq_refl) as [(rs1 & k & x & E & Hk)|E]; rewrite E in Hrun; clear Hpath.
  { destruct (send_all _ _ _ _ _ _ _ _) as [[h2 r2] out2]. simplify_eq.
    inversion Hearly as [|? ? He _]; subst. specialize (He k x eq_refl). lia. }
  destruct (send_all _ _ _ _ _ _ _ _) as [[h2 r2] out2] eqn:E2. simplify_eq.
  inversion Hearly as [|? ? _ Hearly']; subst.
  rewrite map_app in E2. cbn [map] in E2.
  apply IH in E2.
  - rewrite length_map in E2. destruct E2 as [H1 H2]. split; [done|]. constructor; [|done].
    eexists. split; [done|]. by unfold delivered_as.
  - apply Forall2_fmap_2. eapply Forall2_impl; [exact Hsync|]. intros. by apply hop_sync_peeled.
  - destruct Hs as (? & ? & ? & ? & ? & ?). unfold hop_sync. cbn. repeat split; congruence.
  - apply Forall_app in Hroom as [Hr1 Hr2]. apply Forall_app. split.
    + apply Forall_fmap. eapply Forall_impl; [exact Hr1|]. intros x Hx.
      by apply forward_room_bump in Hx as [_ ?].
    + apply Forall_cons_1 in Hr2 as [Hr2 _]. constructor; [|done].
      by apply forward_room_bump in Hr2 as [_ ?].
  - apply Forall_fmap. exact Hfwd.
  - done.
  - by rewrite length_map.
Qed.
(** *** Travelling the path backward *)

Definition sealed (r : relay_circ) : relay_circ :=
  {| r with relay_backward_nonce := relay_backward_nonce r + 1 |}.

Lemma relay_encrypt_layer h r p :
  hop_sync h r → backward_live h →
  moor_circuit_relay_encrypt chacha r p =
    (0, sealed r, layer (backward_key h) (backward_nonce h) p).
Proof.
  intros (_ & _ & _ & Hk & Hn & _) Hl. unfold moor_circuit_relay_encrypt.
  unfold backward_live, UINT64_MAX in Hl. rewrite <- Hn.
  destruct (Z.eqb_spec (backward_nonce h) UINT64_MAX); [unfold UINT64_MAX in *; lia|].
  rewrite stream_xor_layer, <- Hk. cbn [negb Z.eqb].
  rewrite u64_small by (unfold is_u64; lia). unfold sealed. by rewrite <- Hn, <- Hk.
Qed.

Lemma hop_sync_sealed h r : hop_sync h r → hop_sync (bump_backward h) (sealed r).
Proof.
  intros (? & ? & ? & ? & Hn & ?). unfold hop_sync, bump_backward, sealed.
  repeat split; cbn; try done. by rewrite Hn.
Qed.

(** Layers added by the relays on the way back, outermost nearest the client. *)
Definition wrap_back (hops : list hop_t) (p : bytes) : bytes :=
  foldr (λ h q, layer (backward_key h) (backward_nonce h) q) p hops.

Lemma unwrap_wrap_back hops p : unwrap hops (wrap_back hops p) = p.
Proof.
  unfold unwrap, wrap_back. revert p. induction hops as [|h hops IH]; intros p; simpl; [done|].
  by rewrite layer_layer.
Qed.

Lemma path_backward_wraps hi ri cell :
  Forall2 hop_sync hi ri → Forall backward_live hi → Forall (λ r, prev_open r = true) ri →
  ∃ cid, path_backward chacha ri cell =
    (map sealed ri, Some (mk_cell cid (command cell) (wrap_back hi (payload cell)))).
Proof.
  intros Hsync. induction Hsync as [|h r hi ri Hs Hsync IH]; intros Hl Hopen.
  { destruct cell as [cid cmd p]. exists cid. done. }
  inversion Hl; inversion Hopen as [|? ? Ho Hopen']; subst.
  destruct (IH ltac:(done) Hopen') as [cid E]. cbn [path_backward]. rewrite E.
  unfold handle_relay_backward. cbn [payload]. rewrite (relay_encrypt_layer h) by done.
  change (prev_open (sealed r)) with (prev_open r). rewrite Ho. eauto.
Qed.

Definition backward_room (n : nat) (h : hop_t) : Prop :=
  0 <= backward_nonce h ∧ backward_nonce h + Z.of_nat n <= UINT64_MAX.

Lemma backward_room_bump n h :
  backward_room (S n) h → backward_live h ∧ backward_room n (bump_backward h).
Proof. unfold backward_room, backward_live. cbn [bump_backward backward_nonce]. lia. Qed.

(** One answer: the client decrypts it to what the last relay packed. *)
Lemma answer_one hi h ri r m old :
  Forall2 hop_sync hi ri → hop_sync h r → Forall backward_live (hi ++ [h]) →
  Forall (λ r, prev_open r = true) ri → relay_ok m → data_length m <= 498 →
  ∃ d cid q,
    relay_originate chacha hash r
      (mk_cell (prev_circuit_id r) (cell_code CELL_RELAY) (moor_relay_pack m)) =
      ({| (sealed r) with relay_backward_digest := d |},
       mk_cell (prev_circuit_id r) (cell_code CELL_RELAY) q) ∧
    ∃ c, path_backward chacha ri (mk_cell (prev_circuit_id r) (cell_code CELL_RELAY) q) =
      (map sealed ri, Some (mk_cell cid (cell_code CELL_RELAY) c)) ∧
    ∃ p, moor_circuit_decrypt_backward chacha hash (hi ++ [h]) c =
      (0, map bump_backward (hi ++ [{| h with backward_digest := d |}]), p) ∧
      moor_relay_unpack old p =
        {| m with digest := take 4 d;
                  data := blit 0 (take (Z.to_nat (data_length m)) (data m)) (data old) |}.
Proof.
  intros Hsync Hs Hl Hopen Hok Hlen. pose proof (relay_pack_ok m Hok) as [Hp _].
  pose proof (unpack_digest_payload old m (backward_digest h) Hok Hlen) as Hu.
  pose proof (check_set_digest hash hash_length (moor_relay_pack m) (backward_digest h) Hp) as Hck.
  pose proof Hs as (_ & _ & _ & _ & _ & Hd). apply Forall_app in Hl as [Hl1 Hl2].
  pose proof (Forall_cons_1 _ _ _ Hl2) as [Hh _].
  unfold relay_originate. cbn [payload]. rewrite <- Hd.
  destruct (moor_relay_set_digest hash _ _) as [q d]. cbn [fst snd] in *.
  destruct (path_backward_wraps hi ri (mk_cell (prev_circuit_id r) (cell_code CELL_RELAY)
    (layer (backward_key h) (backward_nonce h) q)) Hsync Hl1 Hopen) as [cid E].
  exists d, cid, (layer (backward_key h) (backward_nonce h) q). split.
  { assert (Hs' : hop_sync {| h with backward_digest := d |} {| r with relay_backward_digest := d |})
      by (destruct Hs as (? & ? & ? & ? & ? & ?); unfold hop_sync; cbn; done).
    by rewrite (relay_encrypt_layer _ _ _ Hs' Hh). }
  eexists. split; [exact E|]. cbn [payload].
  eexists. rewrite decrypt_backward_eq by (by apply Forall_app).
  replace (unwrap (hi ++ [h]) _) with q.
  { cbv zeta. rewrite Hck. done. }
  unfold unwrap. rewrite fold_left_app.
  change (fold_left (λ q0 h0, layer (backward_key h0) (backward_nonce h0) q0) hi) with (unwrap hi).
  rewrite unwrap_wrap_back. simpl. by rewrite layer_layer.
Qed.
(** C19. Answers come back: whatever the last relay of the path sends is decrypted
    by the client to the same payloads, in order, each accepted (return value 0)
    by the digest check, and both ends still agree afterwards. *)
Theorem onion_backward_delivery msgs : ∀ hi h ri r old hops' ri' r' out,
  Forall2 hop_sync hi ri → hop_sync h r →
  Forall (backward_room (length msgs)) (hi ++ [h]) → Forall (λ r, prev_open r = true) ri →
  Forall sendable msgs →
  answer_all chacha hash (hi ++ [h]) ri r msgs old = (hops', ri', r', out) →
  Forall2 hop_sync hops' (ri' ++ [r']) ∧
  Forall2 (λ m res, res.1 = 0 ∧ delivered_as old m res.2) msgs out.
Proof.
  induction msgs as [|m msgs IH]; intros hi h ri r old hops' ri' r' out Hsync Hs Hroom
    Hopen Hmsgs Hrun; cbn [answer_all] in Hrun.
  { simplify_eq. split; [|done]. apply Forall2_app; [done|]. by constructor. }
  inversion Hmsgs as [|? ? (Hok & Hlen & Hrec) Hmsgs']; subst.
  assert (Hlive : Forall backward_live (hi ++ [h]))
    by (eapply Forall_impl; [exact Hroom|]; intros x Hx; by apply backward_room_bump in Hx as [? _]).
  destruct (answer_one hi h ri r m old Hsync Hs Hlive Hopen Hok Hlen)
    as (d & cid & q & E1 & c & E2 & p & E3 & E4).
  rewrite E1, E2 in Hrun. cbn [payload] in Hrun. rewrite E3, E4 in Hrun.
  destruct (answer_all _ _ _ _ _ _ _) as [[[h2 ri2] r2] out2] eqn:E5. simplify_eq.
  rewrite map_app in E5. cbn [map] in E5. apply IH in E5.
  - destruct E5 as [H1 H2]. split; [done|]. constructor; [|done].
    split; [done|]. by unfold delivered_as.
  - apply Forall2_fmap_2. eapply Forall2_impl; [exact Hsync|]. intros. by apply hop_sync_sealed.
  - destruct Hs as (? & ? & ? & ? & ? & ?). unfold hop_sync. cbn. repeat split; congruence.
  - apply Forall_app in Hroom as [Hr1 Hr2]. apply Forall_app. split.
    + apply Forall_fmap. eapply Forall_impl; [exact Hr1|]. intros x Hx.
      by apply backward_room_bump in Hx as [_ ?].
    + apply Forall_cons_1 in Hr2 as [Hr2 _]. constructor; [|done].
      by apply backward_room_bump in Hr2 as [_ ?].
  - apply Forall_fmap. exact Hopen.
  - done.
Qed.
End Facts.

(** ** Nonces *)

Section Nonces.
  Context (chacha : bytes → bytes → bytes → Z * bytes) (hash : bytes → bytes).

Lemma nonce_buf_inj a b : is_u64 a → is_u64 b → nonce_buf a = nonce_buf b → a = b.
Proof.
  unfold nonce_buf, is_u64. intros Ha Hb E.
  apply app_inj_1 in E as [E _]; [|by rewrite !length_le_put]. by apply (le_put_inj 8).
Qed.

(** The nonce of a hop is kept, or was not yet the maximum and moved up by one. *)
Definition nonce_step (h h' : hop_t) : Prop :=
  forward_nonce h' = forward_nonce h ∨
  (forward_nonce h ≠ UINT64_MAX ∧ forward_nonce h' = u64 (forward_nonce h + 1)).

Lemma encrypt_forward_loop_nonces i : ∀ hops p rc hops' q,
  encrypt_forward_loop chacha i hops p = (rc, hops', q) →
  (∀ j, (i <= j)%nat → hops' !! j = hops !! j) ∧
  (∀ j h, hops !! j = Some h → ∃ h', hops' !! j = Some h' ∧ nonce_step h h').
Proof.
  induction i as [|i IH]; intros hops p rc hops' q E; cbn [encrypt_forward_loop] in E.
  { simplify_eq. split; [done|]. intros j h Hj. exists h. by split; [|left]. }
  assert (Hsame : hops' = hops →
    (∀ j, (S i <= j)%nat → hops' !! j = hops !! j) ∧
    (∀ j h, hops !! j = Some h → ∃ h', hops' !! j = Some h' ∧ nonce_step h h')).
  { intros ->. split; [done|]. intros j h Hj. exists h. by split; [|left]. }
  destruct (hops !! i) as [h|] eqn:Hh; [|apply Hsame; congruence].
  destruct (Z.eqb_spec (forward_nonce h) UINT64_MAX); [apply Hsame; congruence|].
  destruct (moor_crypto_stream_xor _ _ _ _) as [rc1 p1].
  destruct (negb (rc1 =? 0)); [apply Hsame; congruence|].
  apply IH in E as [H1 H2]. split.
  - intros j Hj. rewrite H1 by lia. by rewrite list_lookup_insert_ne by lia.
  - intros j h1 Hj. destruct (decide (j = i)) as [->|Hne].
    + simplify_eq. rewrite H1 by lia.
      rewrite list_lookup_insert_eq by (by eapply lookup_lt_Some). eexists. split; [done|]. by right.
    + apply H2. by rewrite list_lookup_insert_ne by lia.
Qed.

Lemma encrypt_forward_nonces hops p rc hops' q i h :
  moor_circuit_encrypt_forward chacha hash hops p = (rc, hops', q) →
  hops !! i = Some h → ∃ h', hops' !! i = Some h' ∧ nonce_step h h'.
Proof.
  unfold moor_circuit_encrypt_forward. intros E Hi.
  destruct (hops !! (length hops - 1)%nat) as [l|] eqn:Hl.
  - destruct (moor_relay_set_digest hash p (forward_digest l)) as [p1 d].
    apply encrypt_forward_loop_nonces in E as [_ E].
    destruct (decide (i = (length hops - 1)%nat)) as [->|Hne].
    + assert (l = h) as -> by congruence. eapply (E _ {| h with forward_digest := d |}).
      apply list_lookup_insert_eq. by eapply lookup_lt_Some.
    + apply E. by rewrite list_lookup_insert_ne by lia.
  - apply encrypt_forward_loop_nonces in E as [_ E]. eauto.
Qed.

End Nonces.

(** ** Witnesses: a two-hop circuit over a stand-in cipher *)

Definition toy_ks (n k : bytes) (l : nat) : bytes :=
  map (λ i, u8 (be_get n + be_get k + 31 * Z.of_nat i)) (seq 0 l).
Definition toy_chacha (m n k : bytes) : Z * bytes := (0, xor_bytes (toy_ks n k (length m)) m).

Lemma toy_ks_length n k l : length (toy_ks n k l) = l.
Proof. unfold toy_ks. by rewrite length_map, length_seq. Qed.

Lemma toy_hash_length m : length (toy_hash m) = 32%nat.
Proof. apply length_be_put. Qed.

Definition hop_of (k : Z) : hop_t := mk_hop [k] [k + 1] 5 9 [k; 7] [k; 8] [].
Definition relay_of (k : Z) : relay_circ :=
  mk_relay_circ [k] [k + 1] 5 9 [k; 7] [k; 8] 11 12 true true 0 0 0 None.
Definition sample_msgs : list moor_relay_payload_t :=
  [ mk_relay 2 0 3 (zeros 4) 2 (blit 0 [65; 66] (zeros 498));
    mk_relay 3 0 3 (zeros 4) 0 (zeros 498) ].

Lemma hop_relay_sync k : hop_sync (hop_of k) (relay_of k).
Proof. by unfold hop_sync. Qed.

Lemma sample_msgs_sendable : Forall sendable sample_msgs.
Proof.
  repeat constructor; unfold is_u8, is_u16; cbn; try lia; try done;
    try apply bytes_ok_zeros; apply bytes_ok_blit;
    try apply bytes_ok_zeros; repeat constructor; unfold is_u8; lia.
Qed.

Lemma onion_forward_delivery_witness :
  let '(hops', rs', out) :=
    send_all toy_chacha toy_hash [hop_of 1; hop_of 2] [relay_of 1; relay_of 2] 11
      sample_msgs zero_relay 0 in
  Forall2 hop_sync hops' rs' ∧
  Forall2 (λ m res, ∃ x, res = Some (1%nat, x) ∧ delivered_as zero_relay m x) sample_msgs out.
Proof.
  destruct (send_all toy_chacha toy_hash [hop_of 1; hop_of 2] [relay_of 1; relay_of 2] 11
    sample_msgs zero_relay 0) as [[hops' rs'] out] eqn:E.
  apply (onion_forward_delivery toy_chacha toy_ks toy_hash (λ m n k, eq_refl)
    toy_ks_length toy_hash_length sample_msgs [hop_of 1] (hop_of 2) [relay_of 1] (relay_of 2)
    11 zero_relay 0 hops' rs' out); [| | | | | exact E |].
  - repeat constructor.
  - apply hop_relay_sync.
  - repeat constructor; unfold UINT64_MAX; cbn; lia.
  - repeat constructor. cbn. unfold MOOR_CIRC_CELL_QUEUE_MAX. lia.
  - exact sample_msgs_sendable.
  - assert (Ho : forallb (λ res, match res with Some (k, _) => (1 <=? k)%nat | None => true end)
                  (send_all toy_chacha toy_hash [hop_of 1; hop_of 2] [relay_of 1; relay_of 2] 11
                     sample_msgs zero_relay 0).2 = true) by (vm_compute; reflexivity).
    rewrite E in Ho. cbn [snd] in Ho. apply Is_true_true, forallb_True in Ho.
    eapply Forall_impl; [exact Ho|]. intros res Hres k x ->. cbn [length].
    by apply Nat.leb_le, Is_true_true.
Defined.

Lemma onion_backward_delivery_witness :
  let '(hops', ri', r', out) :=
    answer_all toy_chacha toy_hash [hop_of 1; hop_of 2] [relay_of 1] (relay_of 2)
      sample_msgs zero_relay in
  Forall2 hop_sync hops' (ri' ++ [r']) ∧
  Forall2 (λ m res, res.1 = 0 ∧ delivered_as zero_relay m res.2) sample_msgs out.
Proof.
  destruct (answer_all toy_chacha toy_hash [hop_of 1; hop_of 2] [relay_of 1] (relay_of 2)
    sample_msgs zero_relay) as [[[hops' ri'] r'] out] eqn:E.
  apply (onion_backward_delivery toy_chacha toy_ks toy_hash (λ m n k, eq_refl)
    toy_ks_length toy_hash_length sample_msgs [hop_of 1] (hop_of 2) [relay_of 1] (relay_of 2)
    zero_relay hops' ri' r' out); [| | | | | exact E].
  - repeat constructor.
  - apply hop_relay_sync.
  - repeat constructor; unfold UINT64_MAX; cbn; lia.
  - repeat constructor.
  - exact sample_msgs_sendable.
Defined.

