(* ===== verification/FlowControl.v ===== *)
(** * FlowControl: SENDME windows, SENDME authentication and congestion control

    Models the client side of flow control in [src/src/circuit.c]
    ([moor_circuit_find_stream], [moor_circuit_send_data],
    [moor_circuit_handle_sendme], [moor_circuit_maybe_send_sendme],
    [circ_init_fields]) and the exit side in [src/src/relay.c] (the [RELAY_DATA]
    and [RELAY_SENDME] cases of [moor_relay_handle_relay], [exit_target_read_cb]).

    Windows and counters are [Z]; the arithmetic of the RTT estimator keeps the
    wrap-around of [uint64_t] and [int64_t] written out, and [cc_invariant]
    bounds it. Queueing a cell ([moor_circuit_queue_cell]) is the parameter
    [queue_cell] here; the cell queues have a file of their own. *)

From S2P Require Import Prelude Ring Cell Onion.

Definition MOOR_SENDME_INCREMENT : Z := 100.
Definition MOOR_CIRCUIT_WINDOW : Z := 1000.
Definition MOOR_STREAM_WINDOW : Z := 100.
Definition MOOR_MAX_STREAMS : nat := 64.
Definition MOOR_SENDME_AUTH_MAX : Z := 10.
Definition MOOR_SENDME_AUTH_LEN : nat := 20.
Definition MOOR_CC_SENDME_TS_MAX : Z := 20.
Definition MOOR_CC_SS_RTT_EXIT_PCT : Z := 50.
Definition MOOR_CC_CWND_INIT : Z := 124.
Definition MOOR_CC_CWND_MIN : Z := MOOR_SENDME_INCREMENT.
Definition MOOR_CC_CWND_MAX : Z := 2000.
Definition MOOR_CC_SSTHRESH_INIT : Z := 1000.

(** [cc_state]: [MOOR_CC_SLOW_START] (0) or [MOOR_CC_CONG_AVOIDANCE] (1). *)
Inductive cc_state_t := MOOR_CC_SLOW_START | MOOR_CC_CONG_AVOIDANCE.

(** ** State *)

Record moor_stream_t := mk_stream {
  s_stream_id : Z;        (* uint16_t; 0 is a free slot *)
  target_fd : Z;
  connected : bool;
  deliver_window : Z;     (* int32_t *)
  package_window : Z;     (* int32_t *)
  xoff_sent : bool;
  xoff_recv : bool;
}.

(** The flow-control fields of [moor_circuit_t]. *)
Record circ_flow := mk_flow {
  circ_package_window : Z;
  circ_deliver_window : Z;
  cc_state : cc_state_t;
  cwnd : Z;
  ssthresh : Z;
  inflight : Z;
  srtt_us : Z;                        (* uint64_t *)
  rtt_var_us : Z;                     (* uint64_t *)
  sendme_timestamps : list Z;         (* uint64_t[20] *)
  sendme_ts_head : Z;
  sendme_ts_count : Z;
  rtt_initialized : bool;
  cc_path_type : Z;
  min_rtt_us : Z;                     (* uint64_t *)
  bdp : Z;                            (* int64_t *)
  cwnd_full : bool;
  sendme_ack_count : Z;               (* uint32_t *)
  sendme_auth_expected : list bytes;  (* uint8_t[10][20] *)
  sendme_auth_head : Z;
  sendme_auth_count : Z;
  sendme_auth_cells_sent : Z;
  streams : list moor_stream_t;       (* [64] *)
}.

Definition free_stream : moor_stream_t := mk_stream 0 (-1) false 0 0 false false.

(** [calloc] followed by [circ_init_fields]. *)
Definition circ_init_fields : circ_flow :=
  {| circ_package_window := MOOR_CIRCUIT_WINDOW;
     circ_deliver_window := MOOR_CIRCUIT_WINDOW;
     cc_state := MOOR_CC_SLOW_START;
     cwnd := MOOR_CC_CWND_INIT;
     ssthresh := MOOR_CC_SSTHRESH_INIT;
     inflight := 0; srtt_us := 0; rtt_var_us := 0;
     sendme_timestamps := replicate 20 0; sendme_ts_head := 0; sendme_ts_count := 0;
     rtt_initialized := false; cc_path_type := 0; min_rtt_us := UINT64_MAX;
     bdp := 0; cwnd_full := false; sendme_ack_count := 0;
     sendme_auth_expected := replicate 10 (zeros 20);
     sendme_auth_head := 0; sendme_auth_count := 0; sendme_auth_cells_sent := 0;
     streams := replicate MOOR_MAX_STREAMS free_stream |}.

(** Stream id 0 marks a free slot and never matches. *)
Definition moor_circuit_find_stream (ss : list moor_stream_t) (sid : Z) : option nat :=
  if sid =? 0 then None else find_index (λ s, s_stream_id s =? sid) ss.

Definition update_stream (i : nat) (g : moor_stream_t → moor_stream_t) (f : circ_flow)
  : circ_flow :=
  {| f with streams := alter g i (streams f) |}.

(** ** The authentication FIFO *)

Definition sendme_auth_push (digest : bytes) (f : circ_flow) : circ_flow :=
  if sendme_auth_count f <? MOOR_SENDME_AUTH_MAX then
    {| f with
       sendme_auth_expected := ring_write (sendme_auth_head f)
         (take MOOR_SENDME_AUTH_LEN digest) (sendme_auth_expected f);
       sendme_auth_head := (sendme_auth_head f + 1) mod MOOR_SENDME_AUTH_MAX;
       sendme_auth_count := sendme_auth_count f + 1 |}
  else f.

Definition sendme_auth_oldest (f : circ_flow) : bytes :=
  ring_read [] (ring_tail MOOR_SENDME_AUTH_MAX (sendme_auth_head f) (sendme_auth_count f))
    (sendme_auth_expected f).

(** ** Client: sending data *)

(** The windows after a [RELAY_DATA] cell went out on stream slot [si]. *)
Definition account_windows (f : circ_flow) (si : option nat) : circ_flow :=
  let f := {| f with
     inflight := inflight f + 1;
     cwnd_full := if cwnd f <=? inflight f + 1 then true else cwnd_full f;
     circ_package_window := if 0 <? circ_package_window f
                            then circ_package_window f - 1 else circ_package_window f |} in
  match si with
  | Some i => update_stream i
      (λ s, if 0 <? package_window s
            then {| s with package_window := package_window s - 1 |} else s) f
  | None => f
  end.

Definition record_timestamp (now : Z) (f : circ_flow) : circ_flow :=
  if sendme_ts_count f <? MOOR_CC_SENDME_TS_MAX then
    {| f with
       sendme_timestamps := ring_write (sendme_ts_head f) now (sendme_timestamps f);
       sendme_ts_head := (sendme_ts_head f + 1) mod MOOR_CC_SENDME_TS_MAX;
       sendme_ts_count := sendme_ts_count f + 1 |}
  else f.

(** The bookkeeping after a [RELAY_DATA] cell: windows, and at every
    [MOOR_SENDME_INCREMENT]th cell in flight the time and the digest to expect.
    [num_hops] and [fwd_digest] are the circuit's last hop's. *)
Definition account_data (f : circ_flow) (si : option nat) (num_hops : nat)
    (fwd_digest : bytes) (now : Z) : circ_flow :=
  let f := account_windows f si in
  if (0 <? inflight f) && (Z.rem (inflight f) MOOR_SENDME_INCREMENT =? 0) then
    let f := record_timestamp now f in
    if (0 <? num_hops)%nat then sendme_auth_push fwd_digest f else f
  else f.

(** The client circuit: id, hops, flow control, and the queue cells go to. *)
Record client_circ (Q : Type) := mk_client {
  cl_id : Z;
  cl_hops : list hop_t;
  cl_flow : circ_flow;
  cl_out : Q;
}.
Arguments mk_client {Q}.
Arguments cl_id {Q}.
Arguments cl_hops {Q}.
Arguments cl_flow {Q}.
Arguments cl_out {Q}.

Definition last_forward_digest (hops : list hop_t) : bytes :=
  match last hops with Some h => forward_digest h | None => [] end.
Definition last_backward_digest (hops : list hop_t) : bytes :=
  match last hops with Some h => backward_digest h | None => [] end.

(** [stream && stream->package_window <= 0]. *)
Definition stream_blocked (f : circ_flow) (si : option nat) : bool :=
  match si with
  | Some i => match streams f !! i with Some s => package_window s <=? 0 | None => false end
  | None => false
  end.

Section Client.
  Context (chacha : bytes → bytes → bytes → Z * bytes) (hash : bytes → bytes).
  Context {Q : Type} (queue_cell : moor_cell_t → Z → Q → Z * Q).

(** Build, encrypt and queue one forward relay cell; 0 or -1. *)
Definition send_relay_cell (c : client_circ Q) (cmd sid : Z) (data : option bytes) (len : Z)
  : Z * client_circ Q :=
  let cell := moor_cell_relay (cl_id c) cmd sid data len in
  let '(rc, hops, p) := moor_circuit_encrypt_forward chacha hash (cl_hops c) (payload cell) in
  let c := {| c with cl_hops := hops |} in
  if negb (rc =? 0) then (-1, c)
  else
    let '(rc, q) := queue_cell {| cell with payload := p |} 0 (cl_out c) in
    let c := {| c with cl_out := q |} in
    if negb (rc =? 0) then (-1, c) else (0, c).

(** The [while (len > 0)] loop; [data] is what is left, [total_len] the length
    asked for, [clock] the clock reading when that many bytes are left. *)
Fixpoint send_data_loop (fuel : nat) (c : client_circ Q) (si : option nat) (sid : Z)
    (data : bytes) (total_len : Z) (clock : nat → Z) : option (Z * client_circ Q) :=
  let len := Z.of_nat (length data) in
  if 0 <? len then
    match fuel with
    | O => None
    | S fuel =>
        let partial := if len <? total_len then s32 (total_len - len) else -1 in
        if circ_package_window (cl_flow c) <=? 0 then Some (partial, c)
        else if stream_blocked (cl_flow c) si then Some (partial, c)
        else
          let chunk := if Z.of_nat MOOR_RELAY_DATA <? len then Z.of_nat MOOR_RELAY_DATA else len in
          let '(rc, c) := send_relay_cell c (relay_code RELAY_DATA) sid (Some data) chunk in
          if negb (rc =? 0) then Some (-1, c)
          else
            let f := account_data (cl_flow c) si (length (cl_hops c))
                       (last_forward_digest (cl_hops c)) (clock (length data)) in
            send_data_loop fuel {| c with cl_flow := f |} si sid
              (drop (Z.to_nat chunk) data) total_len clock
    end
  else Some (0, c).

Definition moor_circuit_send_data (c : client_circ Q) (sid : Z) (data : bytes)
    (clock : nat → Z) : option (Z * client_circ Q) :=
  send_data_loop (length data) c (moor_circuit_find_stream (streams (cl_flow c)) sid) sid
    data (Z.of_nat (length data)) clock.

(** ** Client: acknowledging delivered data *)

Definition moor_circuit_maybe_send_sendme (c : client_circ Q) (sid : Z)
  : Z * client_circ Q :=
  let f := cl_flow c in
  if sid =? 0 then
    if circ_deliver_window f <=? 0 then (-1, c)
    else
      let f := {| f with circ_deliver_window := circ_deliver_window f - 1 |} in
      let c := {| c with cl_flow := f |} in
      if circ_deliver_window f <=? MOOR_CIRCUIT_WINDOW - MOOR_SENDME_INCREMENT then
        let body := take MOOR_SENDME_AUTH_LEN (last_backward_digest (cl_hops c)) in
        let '(rc, c) := send_relay_cell c (relay_code RELAY_SENDME) 0 (Some body)
                          (Z.of_nat MOOR_SENDME_AUTH_LEN) in
        if negb (rc =? 0) then (-1, c)
        else (0, {| c with cl_flow := {| (cl_flow c) with circ_deliver_window :=
                     circ_deliver_window (cl_flow c) + MOOR_SENDME_INCREMENT |} |})
      else (0, c)
  else
    match moor_circuit_find_stream (streams f) sid with
    | None => (0, c)
    | Some i =>
        match streams f !! i with
        | None => (0, c)
        | Some s =>
            if deliver_window s <=? 0 then (-1, c)
            else
              let s := {| s with deliver_window := deliver_window s - 1 |} in
              let c := {| c with cl_flow := update_stream i (λ _, s) f |} in
              if deliver_window s <=? MOOR_STREAM_WINDOW - MOOR_SENDME_INCREMENT then
                let '(rc, c) := send_relay_cell c (relay_code RELAY_SENDME) sid None 0 in
                if negb (rc =? 0) then (-1, c)
                else (0, {| c with cl_flow := update_stream i
                       (λ s, {| s with deliver_window := deliver_window s + MOOR_SENDME_INCREMENT |})
                       (cl_flow c) |})
              else (0, c)
        end
    end.
End Client.

(** ** Client: receiving a SENDME *)

(** [g_cc_params]: alpha, beta, gamma and delta per path type. *)
Record moor_cc_params_t := mk_cc_params { alpha : Z; beta : Z; gamma : Z; delta : Z }.

Definition cc_params_for (f : circ_flow) : moor_cc_params_t :=
  if cc_path_type f =? 1 then mk_cc_params 60 200 100 15
  else if cc_path_type f =? 2 then mk_cc_params 10 31 20 5
  else mk_cc_params 30 100 50 10.

(** RTT measurement: pop the oldest timestamp and fold the sample into the
    smoothed estimate. C's [/] on signed operands truncates ([Z.quot]). *)
Definition rtt_sample (f : circ_flow) (now : Z) : circ_flow :=
  if 0 <? sendme_ts_count f then
    let tail := ring_tail MOOR_CC_SENDME_TS_MAX (sendme_ts_head f) (sendme_ts_count f) in
    let sent_at := ring_read 0 tail (sendme_timestamps f) in
    let f := {| f with sendme_ts_count := sendme_ts_count f - 1 |} in
    if sent_at <? now then
      let rtt_us := u64 (u64 (now - sent_at) * 1000) in
      if (0 <? rtt_us) && (rtt_us <? 60000000) then
        if negb (rtt_initialized f) then
          {| f with srtt_us := rtt_us; rtt_var_us := rtt_us / 2; rtt_initialized := true |}
        else
          let diff := s64 (s64 rtt_us - s64 (srtt_us f)) in
          let abs_diff := if diff <? 0 then u64 (- diff) else u64 diff in
          {| f with srtt_us := u64 (s64 (srtt_us f) + Z.quot diff 8);
                    rtt_var_us := u64 (u64 (3 * rtt_var_us f) + abs_diff) / 4 |}
      else f
    else f
  else f.

(** [min_rtt_us], the BDP and the queue estimate: the new state and [queue]. *)
Definition bdp_estimate (f : circ_flow) : circ_flow * Z :=
  let f := if rtt_initialized f && (srtt_us f <? min_rtt_us f)
           then {| f with min_rtt_us := srtt_us f |} else f in
  if rtt_initialized f && (0 <? srtt_us f) && negb (min_rtt_us f =? UINT64_MAX) then
    let b := s64 (Z.quot (s64 (cwnd f * s64 (min_rtt_us f))) (s64 (srtt_us f))) in
    let b := if b <? 0 then 0 else b in
    let queue := s64 (cwnd f - b) in
    ({| f with bdp := b |}, if queue <? 0 then 0 else queue)
  else (f, 0).

(** Slow start: leave it on a queue estimate above gamma (capping [cwnd]) or on
    RTT inflation, else grow by one SENDME increment up to [ssthresh]. *)
Definition slow_start (f : circ_flow) (queue : Z) : circ_flow :=
  let ccp := cc_params_for f in
  let cap := s32 (bdp f + gamma ccp) in
  if rtt_initialized f && (gamma ccp <? queue) then
    let w := if cap <? cwnd f then cap else cwnd f in
    {| f with cwnd := w; cc_state := MOOR_CC_CONG_AVOIDANCE; ssthresh := w |}
  else if rtt_initialized f && negb (min_rtt_us f =? UINT64_MAX) &&
          (u64 (min_rtt_us f * (100 + MOOR_CC_SS_RTT_EXIT_PCT)) / 100 <? srtt_us f) then
    {| f with cc_state := MOOR_CC_CONG_AVOIDANCE; ssthresh := cwnd f |}
  else
    let w := cwnd f + MOOR_SENDME_INCREMENT in
    if ssthresh f <=? w
    then {| f with cwnd := w; cc_state := MOOR_CC_CONG_AVOIDANCE; ssthresh := w |}
    else {| f with cwnd := w |}.

(** Congestion avoidance: [cwnd] moves by delta, and only if it was filled. *)
Definition cong_avoidance (f : circ_flow) (queue : Z) : circ_flow :=
  let ccp := cc_params_for f in
  if cwnd_full f then
    if queue <? alpha ccp then {| f with cwnd := cwnd f + delta ccp |}
    else if beta ccp <? queue then {| f with cwnd := cwnd f - delta ccp |}
    else f
  else f.

Definition clamp_cwnd (f : circ_flow) : circ_flow :=
  let w := if cwnd f <? MOOR_CC_CWND_MIN then MOOR_CC_CWND_MIN else cwnd f in
  {| f with cwnd := if MOOR_CC_CWND_MAX <? w then MOOR_CC_CWND_MAX else w |}.

(** [min_rtt_us] restarts from the current estimate when [cwnd] is pinned. *)
Definition reset_min_rtt (f : circ_flow) : circ_flow :=
  match cc_state f with
  | MOOR_CC_CONG_AVOIDANCE =>
      if (cwnd f =? MOOR_CC_CWND_MIN) && rtt_initialized f
      then {| f with min_rtt_us := srtt_us f |} else f
  | MOOR_CC_SLOW_START => f
  end.

Definition vegas_adjust (f : circ_flow) (queue : Z) : circ_flow :=
  let f := match cc_state f with
           | MOOR_CC_SLOW_START => slow_start f queue
           | MOOR_CC_CONG_AVOIDANCE => cong_avoidance f queue
           end in
  let f := clamp_cwnd f in
  reset_min_rtt {| f with cwnd_full := false |}.

(** The windows after an accepted SENDME. *)
Definition ack_windows (f : circ_flow) : circ_flow :=
  let w := if MOOR_CIRCUIT_WINDOW <? circ_package_window f
           then MOOR_CIRCUIT_WINDOW else circ_package_window f in
  {| f with sendme_auth_count := sendme_auth_count f - 1;
            inflight := if MOOR_SENDME_INCREMENT <=? inflight f
                        then inflight f - MOOR_SENDME_INCREMENT else 0;
            circ_package_window := w + MOOR_SENDME_INCREMENT |}.

(** Everything a circuit-level SENDME does once its digest is accepted. *)
Definition sendme_accepted (f : circ_flow) (now : Z) : circ_flow :=
  let f := rtt_sample (ack_windows f) now in
  let '(f, queue) := bdp_estimate f in
  vegas_adjust {| f with sendme_ack_count := u32 (sendme_ack_count f + 1) |} queue.

(** [sendme_data] holds [sendme_len] bytes. *)
Definition moor_circuit_handle_sendme (f : circ_flow) (sid : Z) (sendme_data : bytes)
    (now : Z) : Z * circ_flow :=
  if sid =? 0 then
    if sendme_auth_count f =? 0 then (-1, f)
    else if (length sendme_data <? MOOR_SENDME_AUTH_LEN)%nat then (-1, f)
    else if negb (bytes_eqb (take MOOR_SENDME_AUTH_LEN sendme_data) (sendme_auth_oldest f))
    then (-1, f)
    else (0, sendme_accepted f now)
  else
    match moor_circuit_find_stream (streams f) sid with
    | None => (0, f)
    | Some i =>
        (0, update_stream i
              (λ s, let w := if MOOR_STREAM_WINDOW <? package_window s
                             then MOOR_STREAM_WINDOW else package_window s in
                    {| s with package_window := w + MOOR_SENDME_INCREMENT |}) f)
    end.

(** ** Exit: receiving data *)

(** One [send()] on the target socket. *)
Inductive send_result := Sent (n : nat) | WouldBlock | SendError.

Inductive stream_fwd := STREAM_FWD_OK | STREAM_FWD_EAGAIN | STREAM_FWD_ERROR.

(** [sends] answers the successive [send()] calls; what [send] accepts is at most
    what it is offered. Returns the status and [*bytes_written]; [None] when the
    answers run out. *)
Fixpoint moor_stream_forward_to_target (sends : list send_result) (data_length total : nat)
  : option (stream_fwd * nat) :=
  if (total <? data_length)%nat then
    match sends with
    | [] => None
    | WouldBlock :: _ => Some (STREAM_FWD_EAGAIN, total)
    | SendError :: _ => Some (STREAM_FWD_ERROR, total)
    | Sent O :: _ => Some (STREAM_FWD_OK, total)
    | Sent n :: sends => moor_stream_forward_to_target sends data_length (total + n)
    end
  else Some (STREAM_FWD_OK, total).

Section Exit.
  (** Build, digest, encrypt and queue one backward relay cell (command, stream
      id, body) on the sink [Q]; [true] when it was queued. *)
  Context {Q : Type} (reply : Z → Z → bytes → Q → bool * Q).

(** The part of [RELAY_DATA] after the label [sendme_check]: first the circuit
    window, then the stream window. [prev_open] is
    [prev_conn && prev_conn->state == CONN_STATE_OPEN]. *)
Definition sendme_check_circ (f : circ_flow) (fwd_digest : bytes) (q : Q)
  : Z * circ_flow * Q :=
  if circ_deliver_window f <=? MOOR_CIRCUIT_WINDOW - MOOR_SENDME_INCREMENT then
    if MOOR_CIRCUIT_WINDOW <? circ_deliver_window f + MOOR_SENDME_INCREMENT
    then (-1, f, q)
    else
      let '(ok, q) := reply (relay_code RELAY_SENDME) 0
                        (take MOOR_SENDME_AUTH_LEN fwd_digest) q in
      (0, if ok : bool then {| f with circ_deliver_window :=
                         circ_deliver_window f + MOOR_SENDME_INCREMENT |} else f, q)
  else (0, f, q).

Definition sendme_check_stream (f : circ_flow) (i : nat) (sid : Z) (q : Q)
  : circ_flow * Q :=
  match streams f !! i with
  | Some s =>
      if deliver_window s <=? MOOR_STREAM_WINDOW - MOOR_SENDME_INCREMENT then
        let '(ok, q) := reply (relay_code RELAY_SENDME) sid [] q in
        (if ok : bool then update_stream i (λ s, {| s with deliver_window :=
                         deliver_window s + MOOR_SENDME_INCREMENT |}) f else f, q)
      else (f, q)
  | None => (f, q)
  end.

Definition sendme_check (f : circ_flow) (prev_open : bool) (fwd_digest : bytes)
    (si : option nat) (sid : Z) (q : Q) : Z * circ_flow * Q :=
  if negb prev_open then (0, f, q)
  else
    let '(rc, f, q) := sendme_check_circ f fwd_digest q in
    if negb (rc =? 0) then (rc, f, q)
    else match si with
         | Some i => let '(f, q) := sendme_check_stream f i sid q in (0, f, q)
         | None => (0, f, q)
         end.

(** Both windows one down. *)
Definition deliver_down (f : circ_flow) (i : nat) : circ_flow :=
  update_stream i (λ s, {| s with deliver_window := deliver_window s - 1 |})
    {| f with circ_deliver_window := circ_deliver_window f - 1 |}.

(** [case RELAY_DATA] at the exit, for a recognised cell of [data_length] bytes;
    [fwd_digest] is [relay_forward_digest], already advanced past this cell.
    [fwd] is the outcome of [moor_stream_forward_to_target]. *)
Definition exit_relay_data (f : circ_flow) (prev_conn prev_open : bool)
    (fwd_digest : bytes) (sid : Z) (data_length : nat) (fwd : stream_fwd * nat) (q : Q)
  : Z * circ_flow * Q :=
  let si := moor_circuit_find_stream (streams f) sid in
  match (match si with Some i => streams f !! i | None => None end), si with
  | Some s, Some i =>
      if target_fd s <? 0 then
        sendme_check {| f with circ_deliver_window := circ_deliver_window f - 1 |}
          prev_open fwd_digest si sid q
      else if negb (connected s) then
        sendme_check (deliver_down f i) prev_open fwd_digest si sid q
      else if (circ_deliver_window f <=? 0) || (deliver_window s <=? 0) then
        let f := if - MOOR_CIRCUIT_WINDOW <? circ_deliver_window f
                 then {| f with circ_deliver_window := circ_deliver_window f - 1 |} else f in
        let f := update_stream i
                   (λ s, if - MOOR_STREAM_WINDOW <? deliver_window s
                         then {| s with deliver_window := deliver_window s - 1 |} else s) f in
        sendme_check f prev_open fwd_digest si sid q
      else
        let '(status, total_sent) := fwd in
        match status with
        | STREAM_FWD_ERROR =>
            let q := if prev_conn then (reply (relay_code RELAY_END) sid [] q).2 else q in
            (0, update_stream i (λ s, {| s with target_fd := -1; s_stream_id := 0 |}) f, q)
        | _ =>
            let '(f, q) :=
              match status with
              | STREAM_FWD_EAGAIN =>
                  if negb (xoff_sent s) && prev_conn then
                    let '(ok, q) := reply (relay_code RELAY_XOFF) sid [] q in
                    (if ok : bool then update_stream i (λ s, {| s with xoff_sent := true |}) f else f, q)
                  else (f, q)
              | _ => (f, q)
              end in
            if (total_sent =? 0)%nat then
              sendme_check (deliver_down f i) prev_open fwd_digest si sid q
            else
              let xoff := match streams f !! i with Some s => xoff_sent s | None => false end in
              let '(f, q) :=
                if xoff && (data_length <=? total_sent)%nat && prev_conn then
                  let '(ok, q) := reply (relay_code RELAY_XON) sid [] q in
                  (if ok : bool then update_stream i (λ s, {| s with xoff_sent := false |}) f else f, q)
                else (f, q) in
              sendme_check (deliver_down f i) prev_open fwd_digest si sid q
        end
  | _, _ =>
      sendme_check {| f with circ_deliver_window := circ_deliver_window f - 1 |}
        prev_open fwd_digest None sid q
  end.

(** ** Rendezvous point *)

Inductive rp_outcome := RpDropped | RpForward.

(** A recognised cell on a circuit joined to a partner: the deliver window and its
    SENDME (sent with no body), then the cell goes to the partner. [partner_open]
    is the check made again after the SENDME. *)
Definition rp_forward (f : circ_flow) (prev_open partner_open : bool) (relay_cmd : Z) (q : Q)
  : rp_outcome * circ_flow * Q :=
  let pass f q := (if partner_open then RpForward else RpDropped, f, q) in
  if relay_cmd =? relay_code RELAY_DATA then
    if circ_deliver_window f <=? 0 then (RpDropped, f, q)
    else
      let f := {| f with circ_deliver_window := circ_deliver_window f - 1 |} in
      if circ_deliver_window f <=? MOOR_CIRCUIT_WINDOW - MOOR_SENDME_INCREMENT then
        let q := if prev_open then (reply (relay_code RELAY_SENDME) 0 [] q).2 else q in
        pass {| f with circ_deliver_window := circ_deliver_window f + MOOR_SENDME_INCREMENT |} q
      else pass f q
  else pass f q.

(** ** Exit: sending data *)

(** The tail of [exit_target_read_cb], from the window decrements on: [n] bytes
    were read for stream slot [i]; the digest recorded is the one after the cell.
    [bwd_digest] is [relay_backward_digest] once [reply] has advanced it. *)
Definition exit_send_data (f : circ_flow) (prev_open : bool) (i : nat) (sid : Z)
    (buf : bytes) (bwd_digest : Q → bytes) (q : Q) : circ_flow * Q :=
  let f := update_stream i (λ s, {| s with package_window := package_window s - 1 |}) f in
  let f := {| f with circ_package_window := circ_package_window f - 1 |} in
  if negb prev_open then (f, q)
  else
    let '(_, q) := reply (relay_code RELAY_DATA) sid buf q in
    let f := {| f with sendme_auth_cells_sent := sendme_auth_cells_sent f + 1 |} in
    if MOOR_SENDME_INCREMENT <=? sendme_auth_cells_sent f then
      (sendme_auth_push (bwd_digest q) {| f with sendme_auth_cells_sent := 0 |}, q)
    else (f, q).

(** Whether [exit_target_read_cb] may read from the target at all. *)
Definition exit_may_read (f : circ_flow) (sid : Z) : bool :=
  match moor_circuit_find_stream (streams f) sid with
  | Some i => match streams f !! i with
              | Some s => (0 <? package_window s) && (0 <? circ_package_window f)
              | None => false end
  | None => false
  end.

(** [case RELAY_SENDME] at the exit. [relay_data] is the whole 498-byte buffer the
    cell was unpacked into, of which [data_length] bytes came from the cell. *)
Definition exit_relay_sendme (f : circ_flow) (sid : Z) (relay_data : bytes)
    (data_length : Z) : Z * circ_flow :=
  if sid =? 0 then
    let auth :=
      if 0 <? sendme_auth_count f then
        if data_length <? 8 then None
        else if bytes_eqb (take MOOR_SENDME_AUTH_LEN relay_data) (sendme_auth_oldest f)
        then Some {| f with sendme_auth_count := sendme_auth_count f - 1 |}
        else None
      else Some f in
    match auth with
    | None => (-1, f)
    | Some f =>
        if MOOR_CIRCUIT_WINDOW <? circ_package_window f then (-1, f)
        else (0, {| f with circ_package_window := circ_package_window f + MOOR_SENDME_INCREMENT |})
    end
  else
    match moor_circuit_find_stream (streams f) sid with
    | None => (0, f)
    | Some i =>
        match streams f !! i with
        | None => (0, f)
        | Some s =>
            if MOOR_STREAM_WINDOW <? package_window s then (-1, f)
            else (0, update_stream i (λ s, {| s with package_window :=
                       package_window s + MOOR_SENDME_INCREMENT |}) f)
        end
    end.
End Exit.

(** ** The two ends of a circuit, with the cells between them *)

(** A reply sink that logs every backward cell and never refuses one. *)
Definition log_reply (cmd sid : Z) (body : bytes) (q : list (Z * Z * bytes))
  : bool * list (Z * Z * bytes) := (true, q ++ [(cmd, sid, body)]).

(** The bodies of the circuit-level SENDMEs among logged cells. *)
Definition circuit_sendmes (q : list (Z * Z * bytes)) : list bytes :=
  omap (λ '(cmd, sid, body),
    if (cmd =? relay_code RELAY_SENDME) && (sid =? 0) then Some body else None) q.

(** Client and exit of one circuit: flow state and running digest of each, the
    forward cells on their way (with whether each is [RELAY_DATA]), and the bodies
    of the circuit-level SENDMEs on their way back. Both directions are lossless
    and ordered, as a circuit is. *)
Record flow_sys := mk_sys {
  c_flow : circ_flow;
  c_digest : bytes;
  fwd_chan : list (bool * bytes);
  e_flow : circ_flow;
  e_digest : bytes;
  sendme_chan : list bytes;
}.

Section System.
  Context (hash : bytes → bytes).

Definition sys_init (d : bytes) : flow_sys :=
  mk_sys circ_init_fields d [] circ_init_fields d [].

Inductive flow_step : flow_sys → flow_sys → Prop :=
  (* the client sends a DATA cell; any stream slot, any clock *)
  | step_send_data s p si now q d :
      length p = MOOR_CELL_PAYLOAD → 0 < circ_package_window (c_flow s) →
      moor_relay_set_digest hash p (c_digest s) = (q, d) →
      flow_step s {| s with c_flow := account_data (c_flow s) si 3 d now;
                            c_digest := d; fwd_chan := fwd_chan s ++ [(true, q)] |}
  (* the client sends any other cell *)
  | step_send_other s p q d :
      length p = MOOR_CELL_PAYLOAD →
      moor_relay_set_digest hash p (c_digest s) = (q, d) →
      flow_step s {| s with c_digest := d; fwd_chan := fwd_chan s ++ [(false, q)] |}
  (* the exit handles a DATA cell, whatever the stream and the socket do, short of
     a socket error *)
  | step_exit_data s q rest d sid len fwd rc f' log :
      fwd_chan s = (true, q) :: rest →
      moor_relay_check_digest hash q (e_digest s) = Some d →
      fwd.1 ≠ STREAM_FWD_ERROR →
      exit_relay_data log_reply (e_flow s) true true d sid len fwd [] = (rc, f', log) →
      flow_step s {| s with fwd_chan := rest; e_flow := f'; e_digest := d;
                            sendme_chan := sendme_chan s ++ circuit_sendmes log |}
  | step_exit_other s q rest d :
      fwd_chan s = (false, q) :: rest →
      moor_relay_check_digest hash q (e_digest s) = Some d →
      flow_step s {| s with fwd_chan := rest; e_digest := d |}
  (* the client handles a SENDME, accepted or not *)
  | step_sendme s b rest now rc f' :
      sendme_chan s = b :: rest →
      moor_circuit_handle_sendme (c_flow s) 0 b now = (rc, f') →
      flow_step s {| s with c_flow := f'; sendme_chan := rest |}.

(** What the exit will do with the cells in the channel: its digest, its deliver
    window and the SENDMEs it will emit. *)
Fixpoint exit_future (chan : list (bool * bytes)) (d : bytes) (dw : Z)
  : option (bytes * Z * list bytes) :=
  match chan with
  | [] => Some (d, dw, [])
  | (is_data, q) :: chan =>
      match moor_relay_check_digest hash q d with
      | None => None
      | Some d =>
          if is_data : bool then
            if dw - 1 <=? MOOR_CIRCUIT_WINDOW - MOOR_SENDME_INCREMENT then
              (λ '(d', w, out), (d', w, take MOOR_SENDME_AUTH_LEN d :: out))
                <$> exit_future chan d (dw - 1 + MOOR_SENDME_INCREMENT)
            else exit_future chan d (dw - 1)
          else exit_future chan d dw
      end
  end.

Definition auth_queue (f : circ_flow) : list bytes :=
  ring_contents [] MOOR_SENDME_AUTH_MAX (sendme_auth_head f) (sendme_auth_count f)
    (sendme_auth_expected f).

Definition auth_ring_ok (f : circ_flow) : Prop :=
  ring_ok MOOR_SENDME_AUTH_MAX (sendme_auth_head f) (sendme_auth_count f)
    (sendme_auth_expected f).

(** The invariant tying the two ends together. *)
Definition flow_inv (s : flow_sys) : Prop :=
  ∃ dw F,
    exit_future (fwd_chan s) (e_digest s) (circ_deliver_window (e_flow s)) =
      Some (c_digest s, dw, F) ∧
    auth_ring_ok (c_flow s) ∧
    auth_queue (c_flow s) = sendme_chan s ++ F ∧
    Forall (λ b, length b = MOOR_SENDME_AUTH_LEN) (sendme_chan s ++ F) ∧
    900 < circ_deliver_window (e_flow s) <= 1000 ∧ 900 < dw <= 1000 ∧
    inflight (c_flow s) = 100 * Z.of_nat (length (sendme_chan s ++ F)) + (1000 - dw) ∧
    circ_package_window (c_flow s) = 1000 - inflight (c_flow s) ∧
    0 <= circ_package_window (c_flow s).
End System.

(** ** Lemmas: which fields each operation leaves alone *)

(** What the window protocol looks at. *)
Definition window_view (f : circ_flow) : list bytes * Z * Z * Z * Z :=
  (sendme_auth_expected f, sendme_auth_head f, sendme_auth_count f, inflight f,
   circ_package_window f).

Ltac split_ifs :=
  repeat match goal with |- context [if ?b then _ else _] => destruct b end.

Lemma rtt_sample_view f now : window_view (rtt_sample f now) = window_view f.
Proof. unfold rtt_sample. split_ifs; done. Qed.

Lemma min_rtt_view (f : circ_flow) (b : bool) : window_view (if b then {| f with min_rtt_us := srtt_us f |} else f) = window_view f.
Proof. by destruct b. Qed.

Lemma bdp_estimate_view f : window_view (bdp_estimate f).1 = window_view f.
Proof.
  unfold bdp_estimate. rewrite <- (min_rtt_view f (rtt_initialized f && (srtt_us f <? min_rtt_us f))).
  set (g := if rtt_initialized f && (srtt_us f <? min_rtt_us f) then _ else f).
  cbv zeta. split_ifs; done.
Qed.

Lemma slow_start_view f queue : window_view (slow_start f queue) = window_view f.
Proof. unfold slow_start. split_ifs; done. Qed.

Lemma cong_avoidance_view f queue : window_view (cong_avoidance f queue) = window_view f.
Proof. unfold cong_avoidance. split_ifs; done. Qed.

Lemma reset_min_rtt_view f : window_view (reset_min_rtt f) = window_view f.
Proof. unfold reset_min_rtt. destruct (cc_state f); [done|]. split_ifs; done. Qed.

Lemma vegas_adjust_view f queue : window_view (vegas_adjust f queue) = window_view f.
Proof.
  unfold vegas_adjust. rewrite reset_min_rtt_view.
  transitivity (window_view (match cc_state f with
    | MOOR_CC_SLOW_START => slow_start f queue
    | MOOR_CC_CONG_AVOIDANCE => cong_avoidance f queue end)); [done|].
  destruct (cc_state f); [apply slow_start_view | apply cong_avoidance_view].
Qed.

Lemma sendme_accepted_view f now :
  window_view (sendme_accepted f now) = window_view (ack_windows f).
Proof.
  pose proof (bdp_estimate_view (rtt_sample (ack_windows f) now)) as E.
  rewrite rtt_sample_view in E. unfold sendme_accepted.
  destruct (bdp_estimate _) as [g queue]. by rewrite vegas_adjust_view.
Qed.

(** ** The exit's circuit-level window *)

Section ExitWindow.
  Context (d : bytes).

Lemma circuit_sendmes_app a b : circuit_sendmes (a ++ b) = circuit_sendmes a ++ circuit_sendmes b.
Proof. apply omap_app. Qed.

(** With the log sink and an open link, [sendme_check] answers with one
    circuit-level SENDME exactly when the window is a whole increment down. *)
Lemma sendme_check_circuit f si sid rc f' log0 log :
  circ_deliver_window f <= 1000 → (sid = 0 → si = None) →
  sendme_check log_reply f true d si sid log0 = (rc, f', log) →
  rc = 0 ∧
  (if circ_deliver_window f <=? 900
   then circ_deliver_window f' = circ_deliver_window f + 100 ∧
        circuit_sendmes log = circuit_sendmes log0 ++ [take MOOR_SENDME_AUTH_LEN d]
   else circ_deliver_window f' = circ_deliver_window f ∧
        circuit_sendmes log = circuit_sendmes log0).
Proof.
  intros Hle Hsid. unfold sendme_check. cbn [negb].
  assert (Hc : ∃ f1 log1, sendme_check_circ log_reply f d log0 = (0, f1, log1) ∧
    if circ_deliver_window f <=? 900
    then circ_deliver_window f1 = circ_deliver_window f + 100 ∧
         circuit_sendmes log1 = circuit_sendmes log0 ++ [take MOOR_SENDME_AUTH_LEN d]
    else circ_deliver_window f1 = circ_deliver_window f ∧
         circuit_sendmes log1 = circuit_sendmes log0).
  { unfold sendme_check_circ, MOOR_CIRCUIT_WINDOW, MOOR_SENDME_INCREMENT.
    change (1000 - 100) with 900. destruct (Z.leb_spec (circ_deliver_window f) 900); [|eauto].
    destruct (Z.ltb_spec 1000 (circ_deliver_window f + 100)); [lia|]. cbn [log_reply].
    do 2 eexists. split; [done|]. split; [done|]. by rewrite circuit_sendmes_app. }
  destruct Hc as (f1 & log1 & -> & Hc). cbn [negb Z.eqb].
  destruct si as [i|]; [|intros [= <- <- <-]; done].
  unfold sendme_check_stream. destruct (streams f1 !! i) as [s|]; [|intros [= <- <- <-]; done].
  destruct (deliver_window s <=? _); [|intros [= <- <- <-]; done]. cbn [log_reply].
  intros [= <- <- <-]. split; [done|].
  assert (Hs : circuit_sendmes (log1 ++ [(relay_code RELAY_SENDME, sid, [])]) = circuit_sendmes log1).
  { rewrite circuit_sendmes_app. unfold circuit_sendmes at 2. cbn.
    destruct (Z.eqb_spec sid 0) as [->|]; [by specialize (Hsid eq_refl)|]. apply app_nil_r. }
  change (relay_code RELAY_SENDME) with 5 in Hs. rewrite <- Hs in Hc. exact Hc.
Qed.
Lemma update_stream_window i g f :
  circ_deliver_window (update_stream i g f) = circ_deliver_window f.
Proof. done. Qed.

(** Every way through [RELAY_DATA] short of a socket error takes exactly one cell
    off the circuit window and then checks it. *)
Lemma exit_relay_data_checks f sid len fwd r :
  fwd.1 ≠ STREAM_FWD_ERROR → 0 < circ_deliver_window f →
  exit_relay_data log_reply f true true d sid len fwd [] = r →
  ∃ g log0 si, sendme_check log_reply g true d si sid log0 = r ∧ (sid = 0 → si = None) ∧
    circ_deliver_window g = circ_deliver_window f - 1 ∧ circuit_sendmes log0 = [].
Proof.
  intros Herr Hw <-. unfold exit_relay_data.
  assert (H0 : sid = 0 → moor_circuit_find_stream (streams f) sid = None)
    by (unfold moor_circuit_find_stream; by intros ->).
  destruct (moor_circuit_find_stream (streams f) sid) as [i|];
    [|by do 3 eexists; split; [reflexivity|]].
  assert (Hsid : sid = 0 → Some i = None) by done. clear H0.
  destruct (streams f !! i) as [s|]; [|by do 3 eexists; split; [reflexivity|]].
  destruct (target_fd s <? 0); [by do 3 eexists; split; [reflexivity|]|].
  destruct (negb (connected s)); [by do 3 eexists; split; [reflexivity|]|].
  destruct (_ || _).
  { do 3 eexists. split; [reflexivity|]. split; [done|]. rewrite update_stream_window.
    destruct (Z.ltb_spec (- MOOR_CIRCUIT_WINDOW) (circ_deliver_window f)); [done|].
    unfold MOOR_CIRCUIT_WINDOW in *. lia. }
  destruct fwd as [status total]. cbn [fst] in Herr.
  assert (Hst : ∃ f1 log1, (match status with
      | STREAM_FWD_EAGAIN =>
          if negb (xoff_sent s) && true then
            let '(ok, q) := log_reply (relay_code RELAY_XOFF) sid [] [] in
            (if ok : bool then update_stream i (λ s, {| s with xoff_sent := true |}) f else f, q)
          else (f, [])
      | _ => (f, [])
      end) = (f1, log1) ∧ circ_deliver_window f1 = circ_deliver_window f ∧
      circuit_sendmes log1 = []).
  { destruct status; [by eauto| |by eauto].
    destruct (negb (xoff_sent s) && true); cbn [log_reply]; by eauto. }
  destruct Hst as (f1 & log1 & Hst & Hw1 & Hl1).
  assert (Hrest : ∀ b : bool, ∃ f2 log2,
      (if b then let '(ok, q) := log_reply (relay_code RELAY_XON) sid [] log1 in
                 (if ok : bool then update_stream i (λ s, {| s with xoff_sent := false |}) f1 else f1, q)
       else (f1, log1)) = (f2, log2) ∧
      circ_deliver_window f2 = circ_deliver_window f ∧ circuit_sendmes log2 = []).
  { intros []; cbn [log_reply]; [|by eauto]. do 2 eexists. split; [done|]. split; [done|].
    by rewrite circuit_sendmes_app, Hl1. }
  assert (Hdone : ∀ g log0, circ_deliver_window g = circ_deliver_window f →
    circuit_sendmes log0 = [] →
    ∃ g' log1 si, sendme_check log_reply g' true d si sid log1 =
      sendme_check log_reply (deliver_down g i) true d (Some i) sid log0 ∧ (sid = 0 → si = None) ∧
      circ_deliver_window g' = circ_deliver_window f - 1 ∧ circuit_sendmes log1 = []).
  { intros g log0 Hg Hlog. do 3 eexists. split; [reflexivity|]. split; [done|]. split; [|done].
    unfold deliver_down. rewrite update_stream_window. cbn [circ_deliver_window]. by rewrite Hg. }
  destruct status; [injection Hst as -> <- | rewrite Hst | done];
    (destruct (total =? 0)%nat; [by apply Hdone|]);
    match goal with |- context [if ?b then _ else (f1, _)] =>
      destruct (Hrest b) as (f2 & log2 & -> & Hw2 & Hl2) end; by apply Hdone.
Qed.

Lemma exit_relay_data_circuit f sid len fwd rc f' log :
  fwd.1 ≠ STREAM_FWD_ERROR → 900 < circ_deliver_window f <= 1000 →
  exit_relay_data log_reply f true true d sid len fwd [] = (rc, f', log) →
  rc = 0 ∧
  (if circ_deliver_window f - 1 <=? 900
   then circ_deliver_window f' = circ_deliver_window f - 1 + 100 ∧
        circuit_sendmes log = [take MOOR_SENDME_AUTH_LEN d]
   else circ_deliver_window f' = circ_deliver_window f - 1 ∧ circuit_sendmes log = []).
Proof.
  intros Herr Hw E. apply exit_relay_data_checks in E as (g & log0 & si & E & Hsi & Hg & Hl); [|done|lia].
  apply sendme_check_circuit in E as [-> E]; [|lia|done]. rewrite Hg, Hl in E. done.
Qed.
End ExitWindow.

(** ** The client's windows *)

Lemma account_windows_view f si :
  0 < circ_package_window f →
  window_view (account_windows f si) =
    (sendme_auth_expected f, sendme_auth_head f, sendme_auth_count f, inflight f + 1,
     circ_package_window f - 1).
Proof.
  intros Hw. unfold account_windows, window_view.
  destruct (Z.ltb_spec 0 (circ_package_window f)); [|lia]. by destruct si.
Qed.

Lemma record_timestamp_view now f : window_view (record_timestamp now f) = window_view f.
Proof. unfold record_timestamp. by destruct (_ <? _). Qed.

Lemma view_auth f g :
  (window_view f).1.1 = (window_view g).1.1 → auth_queue f = auth_queue g ∧
  (auth_ring_ok f ↔ auth_ring_ok g) ∧ sendme_auth_oldest f = sendme_auth_oldest g ∧
  sendme_auth_count f = sendme_auth_count g.
Proof.
  unfold window_view, auth_queue, auth_ring_ok, sendme_auth_oldest. cbn [fst]. intros [= -> -> ->]. done.
Qed.

Lemma view_windows f g :
  window_view f = window_view g →
  inflight f = inflight g ∧ circ_package_window f = circ_package_window g.
Proof. unfold window_view. intros [= _ _ _ -> ->]. done. Qed.

Lemma sendme_auth_push_queue dg f :
  auth_ring_ok f → sendme_auth_count f < 10 →
  auth_ring_ok (sendme_auth_push dg f) ∧
  auth_queue (sendme_auth_push dg f) = auth_queue f ++ [take MOOR_SENDME_AUTH_LEN dg] ∧
  inflight (sendme_auth_push dg f) = inflight f ∧
  circ_package_window (sendme_auth_push dg f) = circ_package_window f.
Proof.
  intros Hok Hlt. unfold sendme_auth_push.
  destruct (Z.ltb_spec (sendme_auth_count f) MOOR_SENDME_AUTH_MAX);
    [|unfold MOOR_SENDME_AUTH_MAX in *; lia].
  unfold auth_ring_ok, auth_queue. cbn [sendme_auth_head sendme_auth_count sendme_auth_expected].
  split; [by apply ring_ok_push|]. split; [by apply ring_contents_push|]. done.
Qed.

(** A DATA cell of a client with room in its window and its queue: one more cell
    in flight, and the digest queued exactly at each hundredth. *)
Lemma account_data_spec f si dg now :
  auth_ring_ok f → sendme_auth_count f < 10 → 0 < circ_package_window f → 0 <= inflight f →
  let g := account_data f si 3 dg now in
  auth_ring_ok g ∧ inflight g = inflight f + 1 ∧
  circ_package_window g = circ_package_window f - 1 ∧
  auth_queue g = auth_queue f ++
    (if (inflight f + 1) mod 100 =? 0 then [take MOOR_SENDME_AUTH_LEN dg] else []).
Proof.
  intros Hok Hcnt Hw Hin g. pose proof (account_windows_view f si Hw) as Hv.
  unfold g, account_data. set (f1 := account_windows f si) in *.
  assert (Hif : inflight f1 = inflight f + 1) by (apply (f_equal (λ v, v.1.2)) in Hv; exact Hv).
  assert (Hpw : circ_package_window f1 = circ_package_window f - 1)
    by (apply (f_equal snd) in Hv; exact Hv).
  rewrite Hif, Z.rem_mod_nonneg by (unfold MOOR_SENDME_INCREMENT; lia).
  destruct (Z.ltb_spec 0 (inflight f + 1)); [|lia]. cbn [andb].
  unfold MOOR_SENDME_INCREMENT. destruct ((inflight f + 1) mod 100 =? 0).
  - change (0 <? 3)%nat with true. cbv iota.
    pose proof (record_timestamp_view now f1) as Hv2. rewrite Hv in Hv2.
    destruct (view_auth (record_timestamp now f1) f) as (Hq & Ho & _ & Hc); [by rewrite Hv2|].
    destruct (sendme_auth_push_queue dg (record_timestamp now f1)) as (H1 & H2 & H3 & H4);
      [by apply Ho | by rewrite Hc |].
    rewrite H2, H3, H4, Hq. apply (f_equal (λ v, (v.1.2, v.2))) in Hv2. by injection Hv2 as -> ->.
  - destruct (view_auth f1 f) as (Hq & Ho & _); [by rewrite Hv|].
    rewrite Hq, app_nil_r. split; [by apply Ho|done].
Qed.

(** ** The protocol invariant *)

Section Protocol.
  Context (hash : bytes → bytes).
  Context (hash_length : ∀ m, length (hash m) = 32%nat).

Lemma exit_future_snoc chan b q : ∀ d dw d1 w1 F d2,
  exit_future hash chan d dw = Some (d1, w1, F) →
  moor_relay_check_digest hash q d1 = Some d2 →
  exit_future hash (chan ++ [(b, q)]) d dw =
    Some (if b : bool then
            if w1 - 1 <=? 900 then (d2, w1 - 1 + 100, F ++ [take MOOR_SENDME_AUTH_LEN d2])
            else (d2, w1 - 1, F)
          else (d2, w1, F)).
Proof.
  induction chan as [|[b' q'] chan IH]; intros d dw d1 w1 F d2 HF Hc.
  - injection HF as -> -> <-. cbn [app exit_future]. rewrite Hc.
    unfold MOOR_CIRCUIT_WINDOW, MOOR_SENDME_INCREMENT. change (1000 - 100) with 900.
    destruct b; [|done]. by destruct (w1 - 1 <=? 900).
  - cbn [app exit_future] in *. destruct (moor_relay_check_digest hash q' d) as [d'|]; [|done].
    destruct b'; [destruct (_ <=? _)|]; [|by eapply IH|by eapply IH].
    destruct (exit_future hash chan d' _) as [[[d3 w3] F3]|] eqn:E; [|done].
    injection HF as -> -> <-. rewrite (IH _ _ _ _ _ _ E Hc).
    destruct b; [destruct (w1 - 1 <=? 900)|]; done.
Qed.

Lemma length_take_digest q d d' :
  moor_relay_check_digest hash q d = Some d' → length (take MOOR_SENDME_AUTH_LEN d') = MOOR_SENDME_AUTH_LEN.
Proof.
  unfold moor_relay_check_digest. case_match; [|done]. intros [= <-].
  rewrite length_take, hash_length. done.
Qed.

Lemma flow_inv_init d : length d = 32%nat → flow_inv hash (sys_init d).
Proof.
  intros Hd. exists 1000, []. cbn. unfold auth_ring_ok, ring_ok, MOOR_SENDME_AUTH_MAX, MOOR_CIRCUIT_WINDOW. cbn.
  repeat split; try done; try lia.
Qed.

Lemma auth_queue_length f : auth_ring_ok f → Z.of_nat (length (auth_queue f)) = sendme_auth_count f.
Proof. intros (_ & _ & _ & Hc). unfold auth_queue. rewrite length_ring_contents. lia. Qed.

Lemma flow_inv_send_data s p si now q d :
  length p = MOOR_CELL_PAYLOAD → 0 < circ_package_window (c_flow s) →
  moor_relay_set_digest hash p (c_digest s) = (q, d) → flow_inv hash s →
  flow_inv hash {| s with c_flow := account_data (c_flow s) si 3 d now;
                          c_digest := d; fwd_chan := fwd_chan s ++ [(true, q)] |}.
Proof.
  intros Hp Hw Hset (dw & F & HF & Hring & Hq & Hlen & Hdw & Hdw' & Hin & Hpw & Hpos).
  pose proof (check_set_digest hash hash_length p (c_digest s) Hp) as Hc.
  rewrite Hset in Hc. cbn [fst snd] in Hc.
  pose proof (exit_future_snoc _ true q _ _ _ _ _ _ HF Hc) as HF'. cbv iota in HF'.
  pose proof (auth_queue_length _ Hring) as Hcnt. rewrite Hq in Hcnt.
  destruct (account_data_spec (c_flow s) si d now) as (H1 & H2 & H3 & H4); [done|lia|done|lia|].
  assert (Hmod : ((inflight (c_flow s) + 1) mod 100 =? 0) = (dw - 1 <=? 900)).
  { rewrite Hin. set (n := Z.of_nat _).
    replace (100 * n + (1000 - dw) + 1) with (1001 - dw + n * 100) by lia.
    rewrite Z.mod_add by lia. destruct (Z.leb_spec (dw - 1) 900).
    - replace dw with 901 by lia. done.
    - rewrite Z.mod_small by lia. lia. }
  rewrite Hmod in H4. clear Hmod.
  unfold flow_inv. cbn [c_flow c_digest fwd_chan e_flow e_digest sendme_chan].
  pose proof (length_take_digest _ _ _ Hc) as Hd20.
  destruct (Z.leb_spec (dw - 1) 900).
  - exists (dw - 1 + 100), (F ++ [take MOOR_SENDME_AUTH_LEN d]). rewrite H2, H3, H4, Hq, !app_assoc.
    rewrite !length_app in *. cbn [length]. split; [done|]. split; [done|]. split; [done|].
    split; [apply Forall_app; split; [done|by constructor]|]. lia.
  - exists (dw - 1), F. rewrite H2, H3, H4, Hq, app_nil_r.
    split; [done|]. split; [done|]. split; [done|]. split; [done|]. lia.
Qed.
Lemma flow_inv_send_other s p q d :
  length p = MOOR_CELL_PAYLOAD → moor_relay_set_digest hash p (c_digest s) = (q, d) →
  flow_inv hash s →
  flow_inv hash {| s with c_digest := d; fwd_chan := fwd_chan s ++ [(false, q)] |}.
Proof.
  intros Hp Hset (dw & F & HF & Hrest).
  pose proof (check_set_digest hash hash_length p (c_digest s) Hp) as Hc.
  rewrite Hset in Hc. cbn [fst snd] in Hc.
  exists dw, F. split; [|done]. cbn [c_digest fwd_chan e_flow e_digest].
  by rewrite (exit_future_snoc _ false q _ _ _ _ _ _ HF Hc).
Qed.

Lemma flow_inv_exit_data s q rest d sid len fwd rc f' log :
  fwd_chan s = (true, q) :: rest →
  moor_relay_check_digest hash q (e_digest s) = Some d →
  fwd.1 ≠ STREAM_FWD_ERROR →
  exit_relay_data log_reply (e_flow s) true true d sid len fwd [] = (rc, f', log) →
  flow_inv hash s →
  flow_inv hash {| s with fwd_chan := rest; e_flow := f'; e_digest := d;
                          sendme_chan := sendme_chan s ++ circuit_sendmes log |}.
Proof.
  intros Hch Hd Herr He (dw & F & HF & Hring & Hq & Hlen & Hdw & Hdw' & Hin & Hpw & Hpos).
  apply exit_relay_data_circuit in He as [_ He]; [|done|done].
  rewrite Hch in HF. cbn [exit_future] in HF. rewrite Hd in HF.
  unfold MOOR_CIRCUIT_WINDOW, MOOR_SENDME_INCREMENT in HF. change (1000 - 100) with 900 in HF.
  unfold flow_inv. cbn [c_flow c_digest fwd_chan e_flow e_digest sendme_chan].
  destruct (Z.leb_spec (circ_deliver_window (e_flow s) - 1) 900); destruct He as [Hf' Hlog].
  - destruct (exit_future hash rest d _) as [[[d1 w1] F1]|] eqn:E; [|done].
    injection HF as -> -> <-. exists dw, F1.
    rewrite Hlog, Hf', <- app_assoc. cbn [app]. split; [done|].
    do 3 (split; [done|]). split; [lia|]. split; [lia|]. split; [|lia]. exact Hin.
  - exists dw, F. rewrite Hlog, Hf', app_nil_r. split; [done|].
    do 3 (split; [done|]). split; [lia|]. split; [lia|]. split; [|lia]. exact Hin.
Qed.

(** The SENDME at the head of the channel is the one the client expects. *)
Lemma flow_inv_sendme_accept s b rest now :
  sendme_chan s = b :: rest → flow_inv hash s →
  moor_circuit_handle_sendme (c_flow s) 0 b now = (0, sendme_accepted (c_flow s) now).
Proof.
  intros Hch (dw & F & HF & Hring & Hq & Hlen & _). rewrite Hch in Hq, Hlen.
  pose proof (auth_queue_length _ Hring) as Hcnt. rewrite Hq in Hcnt. cbn [app length] in Hcnt.
  apply Forall_cons_1 in Hlen as [Hb _].
  unfold moor_circuit_handle_sendme. cbn [Z.eqb].
  destruct (Z.eqb_spec (sendme_auth_count (c_flow s)) 0); [lia|].
  rewrite Hb, Nat.ltb_irrefl, take_ge by lia.
  unfold auth_queue in Hq. rewrite ring_contents_pop in Hq by (done || lia).
  injection Hq as Hq _. unfold sendme_auth_oldest. by rewrite Hq, bytes_eqb_refl.
Qed.

Lemma flow_inv_sendme s b rest now :
  sendme_chan s = b :: rest → flow_inv hash s →
  flow_inv hash {| s with c_flow := sendme_accepted (c_flow s) now; sendme_chan := rest |}.
Proof.
  intros Hch (dw & F & HF & Hring & Hq & Hlen & Hdw & Hdw' & Hin & Hpw & Hpos).
  rewrite Hch in Hq, Hlen, Hin. cbn [app length] in Hin.
  pose proof (auth_queue_length _ Hring) as Hcnt. rewrite Hq in Hcnt. cbn [app length] in Hcnt.
  apply Forall_cons_1 in Hlen as [_ Hlen].
  pose proof (sendme_accepted_view (c_flow s) now) as Hv.
  destruct (view_auth (sendme_accepted (c_flow s) now) (ack_windows (c_flow s))) as (HqA & HoA & _);
    [by rewrite Hv|].
  apply view_windows in Hv as [HiA HpA].
  set (g := sendme_accepted (c_flow s) now) in *. clearbody g.
  unfold ack_windows, MOOR_SENDME_INCREMENT, MOOR_CIRCUIT_WINDOW in HiA, HpA.
  cbn [inflight circ_package_window] in HiA, HpA.
  destruct (Z.leb_spec 100 (inflight (c_flow s))); [|lia].
  destruct (Z.ltb_spec 1000 (circ_package_window (c_flow s))); [lia|].
  exists dw, F. cbn [c_flow c_digest fwd_chan e_flow e_digest sendme_chan].
  rewrite HiA, HpA, HqA. split; [done|]. split.
  { apply HoA. unfold auth_ring_ok, ack_windows.
    cbn [sendme_auth_head sendme_auth_count sendme_auth_expected]. apply ring_ok_pop; [done|lia]. }
  split.
  { unfold auth_queue in Hq |- *. rewrite ring_contents_pop in Hq by (done || lia).
    injection Hq as _ Hq. exact Hq. }
  split; [done|]. lia.
Qed.

Lemma flow_step_inv s s' : flow_step hash s s' → flow_inv hash s → flow_inv hash s'.
Proof.
  intros Hstep Hinv. destruct Hstep as [s p si now q d Hp Hw Hset|s p q d Hp Hset|s q rest d sid len fwd rc f' log Hch Hd Herr He|s q rest d Hch Hd|s b rest now rc f' Hch Hs].
  - by apply (flow_inv_send_data s p).
  - by apply (flow_inv_send_other s p).
  - by eapply flow_inv_exit_data.
  - destruct Hinv as (dw & F & HF & Hrest). exists dw, F. split; [|done].
    rewrite Hch in HF. cbn [exit_future] in HF. rewrite Hd in HF. done.
  - rewrite (flow_inv_sendme_accept s b rest now Hch Hinv) in Hs. injection Hs as <- <-.
    by apply (flow_inv_sendme s b).
Qed.

End Protocol.

(** The system after one DATA cell was sent. *)
Definition one_cell_sent : flow_sys :=
  let '(q, d) := moor_relay_set_digest toy_hash (zeros 509) (zeros 32) in
  {| (sys_init (zeros 32)) with c_flow := account_data circ_init_fields None 3 d 0;
       c_digest := d; fwd_chan := [(true, q)] |}.


(** ** Congestion control *)

(** The bounds the estimator and the window keep: [cwnd] between 100 and 2000
    cells, the smoothed RTT positive and below 60 s once measured, and the
    bandwidth-delay product within the same range as the window. *)
Definition cc_ok (f : circ_flow) : Prop :=
  100 <= cwnd f <= 2000 ∧ 0 <= bdp f <= 2000 ∧ 0 <= rtt_var_us f < 60000000 ∧
  (if rtt_initialized f
   then 1 <= srtt_us f < 60000000 ∧
        (min_rtt_us f = UINT64_MAX ∨ 1 <= min_rtt_us f < 60000000)
   else min_rtt_us f = UINT64_MAX).

(** Smoothing keeps the estimate between the old value and the sample. *)
Lemma srtt_smooth srtt rtt :
  1 <= srtt < 60000000 → 1 <= rtt < 60000000 →
  1 <= srtt + Z.quot (rtt - srtt) 8 < 60000000.
Proof. intros. zdiv_lia. Qed.

Lemma rtt_sample_ok f now :
  cc_ok f → cc_ok (rtt_sample f now) ∧ cc_state (rtt_sample f now) = cc_state f.
Proof.
  intros Hok. unfold rtt_sample. destruct (0 <? _); [|done]. cbv zeta.
  set (sent := ring_read 0 _ _). destruct (sent <? now); [|done].
  set (rtt := u64 (u64 (now - sent) * 1000)).
  destruct ((0 <? rtt) && (rtt <? 60000000)) eqn:E; [|done].
  assert (Hr : 1 <= rtt < 60000000) by lia. clearbody rtt. clear E.
  destruct Hok as (Hw & Hb & Hv & Hi). unfold cc_ok. cbn [rtt_initialized].
  destruct (rtt_initialized f); cbn [negb cwnd bdp rtt_var_us srtt_us min_rtt_us rtt_initialized cc_state].
  - destruct Hi as [Hs Hm]. rewrite !(s64_small rtt), !(s64_small (srtt_us f)) by lia.
    rewrite (s64_small (rtt - srtt_us f)) by lia.
    pose proof (srtt_smooth _ _ Hs Hr). rewrite (u64_small (3 * _)) by (unfold is_u64; lia).
    rewrite (u64_small (srtt_us f + _)) by (unfold is_u64; lia).
    destruct (Z.ltb_spec (rtt - srtt_us f) 0);
      [rewrite (u64_small (- _)) by (unfold is_u64; lia)
      |rewrite (u64_small (rtt - _)) by (unfold is_u64; lia)];
      rewrite u64_small by (unfold is_u64; lia); repeat split; try done; zdiv_lia.
  - repeat split; try lia; try zdiv_lia; by left.
Qed.

(** The estimate is computed without wrap-around: the BDP is exactly
    [cwnd * min_rtt / srtt], at most [cwnd], and the queue is what remains. *)
Lemma bdp_estimate_ok f :
  cc_ok f →
  let '(g, queue) := bdp_estimate f in
  cc_ok g ∧ cc_state g = cc_state f ∧ cwnd g = cwnd f ∧ 0 <= queue <= 2000 ∧
  (rtt_initialized f = true →
     rtt_initialized g = true ∧ bdp g = cwnd f * min_rtt_us g / srtt_us g ∧
     min_rtt_us g <= srtt_us g ∧ queue = cwnd f - bdp g).
Proof.
  intros (Hw & Hb & Hv & Hi). unfold bdp_estimate.
  destruct (rtt_initialized f) eqn:Ei; cbn [andb];
    [|rewrite ?Ei; unfold cc_ok; repeat split; rewrite ?Ei; done || lia].
  destruct Hi as [Hs Hm].
  set (g := if srtt_us f <? min_rtt_us f then _ else f).
  assert (Hg : rtt_initialized g = true ∧ srtt_us g = srtt_us f ∧ cwnd g = cwnd f ∧
    bdp g = bdp f ∧ rtt_var_us g = rtt_var_us f ∧ cc_state g = cc_state f ∧
    1 <= min_rtt_us g <= srtt_us g).
  { unfold g. destruct (Z.ltb_spec (srtt_us f) (min_rtt_us f)); cbn; repeat split; try done; try lia;
      destruct Hm; unfold UINT64_MAX in *; lia. }
  clearbody g. destruct Hg as (Hgi & Hgs & Hgw & Hgb & Hgv & Hgc & Hgm).
  rewrite Hgi, Hgs, Hgw. cbn [andb].
  destruct (Z.ltb_spec 0 (srtt_us f)); [|lia].
  destruct (Z.eqb_spec (min_rtt_us g) UINT64_MAX); [unfold UINT64_MAX in *; lia|]. cbn [negb].
  rewrite (s64_small (min_rtt_us g)), (s64_small (srtt_us f)) by lia.
  rewrite (s64_small (cwnd f * _)) by nia. rewrite Z.quot_div_nonneg by nia.
  set (b := cwnd f * min_rtt_us g / srtt_us f).
  assert (Hbr : 0 <= b <= cwnd f).
  { unfold b. split; [apply Z.div_pos; nia|]. apply Z.div_le_upper_bound; nia. }
  rewrite (s64_small b) by lia. destruct (Z.ltb_spec b 0); [lia|].
  rewrite s64_small by lia. destruct (Z.ltb_spec (cwnd f - b) 0); [lia|].
  split; [|split; [done|split; [done|split; [lia|]]]].
  2: { intros _. cbn [bdp rtt_initialized min_rtt_us srtt_us]. rewrite Hgs in Hgm.
       repeat split; try done; lia. }
  unfold cc_ok. cbn [cwnd bdp rtt_var_us rtt_initialized srtt_us min_rtt_us cc_state].
  rewrite ?Hgi, ?Hgw, ?Hgv, ?Hgs. repeat split; try done; try lia; right; lia.
Qed.

Lemma vegas_adjust_ok f queue :
  cc_ok f → 0 <= queue <= 2000 →
  cc_ok (vegas_adjust f queue) ∧
  (cc_state f = MOOR_CC_CONG_AVOIDANCE → cc_state (vegas_adjust f queue) = MOOR_CC_CONG_AVOIDANCE).
Proof.
  intros (Hw & Hb & Hv & Hi) Hq. unfold vegas_adjust.
  set (g := match cc_state f with MOOR_CC_SLOW_START => _ | _ => _ end).
  assert (Hg : bdp g = bdp f ∧ rtt_var_us g = rtt_var_us f ∧ rtt_initialized g = rtt_initialized f ∧
    srtt_us g = srtt_us f ∧ min_rtt_us g = min_rtt_us f ∧
    (cc_state f = MOOR_CC_CONG_AVOIDANCE → cc_state g = MOOR_CC_CONG_AVOIDANCE)).
  { unfold g. destruct (cc_state f) eqn:Ec;
      [unfold slow_start | unfold cong_avoidance]; split_ifs; cbn; rewrite ?Ec; done. }
  clearbody g. destruct Hg as (Hgb & Hgv & Hgi & Hgs & Hgm & Hgc).
  assert (Hcl : 100 <= cwnd (clamp_cwnd g) <= 2000).
  { unfold clamp_cwnd, MOOR_CC_CWND_MIN, MOOR_CC_CWND_MAX, MOOR_SENDME_INCREMENT. cbn.
    destruct (Z.ltb_spec (cwnd g) 100); zcases; lia. }
  assert (Hframe : ∀ x : circ_flow,
    cwnd (reset_min_rtt x) = cwnd x ∧ bdp (reset_min_rtt x) = bdp x ∧
    rtt_var_us (reset_min_rtt x) = rtt_var_us x ∧
    rtt_initialized (reset_min_rtt x) = rtt_initialized x ∧
    srtt_us (reset_min_rtt x) = srtt_us x ∧ cc_state (reset_min_rtt x) = cc_state x ∧
    (min_rtt_us (reset_min_rtt x) = min_rtt_us x ∨
     (rtt_initialized x = true ∧ min_rtt_us (reset_min_rtt x) = srtt_us x))).
  { intros x. unfold reset_min_rtt. destruct (cc_state x) eqn:E; [by auto 10|].
    destruct (cwnd x =? _); destruct (rtt_initialized x) eqn:E2; cbn; rewrite ?E, ?E2; auto 10. }
  cbv zeta.
  set (x := {| (clamp_cwnd g) with cwnd_full := false |}).
  assert (Hx : cwnd x = cwnd (clamp_cwnd g) ∧ bdp x = bdp f ∧ rtt_var_us x = rtt_var_us f ∧
    rtt_initialized x = rtt_initialized f ∧ srtt_us x = srtt_us f ∧ min_rtt_us x = min_rtt_us f ∧
    cc_state x = cc_state g) by done.
  clearbody x. destruct Hx as (X1 & X2 & X3 & X4 & X5 & X6 & X7).
  destruct (Hframe x) as (F1 & F2 & F3 & F4 & F5 & F6 & F7).
  unfold cc_ok. rewrite F1, F2, F3, F4, F5, F6, X1, X2, X3, X4, X5, X7.
  rewrite X4, X5, X6 in F7. split; [|done]. split; [exact Hcl|]. split; [done|]. split; [done|].
  destruct (rtt_initialized f); [|destruct F7 as [->|[? _]]; done].
  destruct Hi as [Hs Hm]. split; [done|]. destruct F7 as [->|[_ ->]]; [done|]. by right.
Qed.



(** ** Where the protocol breaks *)

(** A rendezvous point acknowledges data with a SENDME that carries no
    digest, and the client's handler refuses every such SENDME and leaves its
    windows as they were: on a joined circuit the sender's circuit window is
    never refilled by the rendezvous point. *)
Theorem rp_sendme_rejected f relay_open :
  circ_deliver_window f = 901 →
  ∃ f' log,
    rp_forward log_reply f true relay_open (relay_code RELAY_DATA) [] =
      (if relay_open then RpForward else RpDropped, f', log) ∧
    circuit_sendmes log = [[]] ∧ circ_deliver_window f' = 1000 ∧
    ∀ b g now, b ∈ circuit_sendmes log → moor_circuit_handle_sendme g 0 b now = (-1, g).
Proof.
  intros Hw. unfold rp_forward. rewrite Hw. cbn. do 2 eexists. split; [done|]. split; [done|].
  split; [done|]. intros b g now Hb. apply list_elem_of_singleton in Hb as ->.
  unfold moor_circuit_handle_sendme. cbn. by destruct (sendme_auth_count g =? 0).
Qed.

Lemma rp_sendme_rejected_witness :
  ∃ f' log,
    rp_forward log_reply {| circ_init_fields with circ_deliver_window := 901 |} true true
      (relay_code RELAY_DATA) [] = (RpForward, f', log) ∧
    circuit_sendmes log = [[]] ∧ circ_deliver_window f' = 1000 ∧
    ∀ b g now, b ∈ circuit_sendmes log → moor_circuit_handle_sendme g 0 b now = (-1, g).
Proof. apply (rp_sendme_rejected _ true). reflexivity. Defined.

(** A burst of DATA cells sent by the client, given the digest after each. *)
Definition client_burst (f : circ_flow) (ds : list bytes) : circ_flow :=
  fold_left (λ f d, account_data f None 3 d 0) ds f.

(** The same burst at the exit, with what the socket did for each cell: the flow
    state and the circuit-level SENDMEs sent. *)
Fixpoint exit_burst (f : circ_flow) (sid : Z) (cells : list (bytes * (stream_fwd * nat)))
  : circ_flow * list bytes :=
  match cells with
  | [] => (f, [])
  | (d, fwd) :: cells =>
      let '(_, f, log) := exit_relay_data log_reply f true true d sid 10 fwd [] in
      let '(f, out) := exit_burst f sid cells in (f, circuit_sendmes log ++ out)
  end.

Lemma client_burst_quiet ds : ∀ f,
  auth_ring_ok f → sendme_auth_count f < 10 →
  0 <= inflight f → inflight f mod 100 + Z.of_nat (length ds) < 100 →
  Z.of_nat (length ds) <= circ_package_window f →
  let g := client_burst f ds in
  auth_ring_ok g ∧ auth_queue g = auth_queue f ∧
  inflight g = inflight f + Z.of_nat (length ds) ∧
  circ_package_window g = circ_package_window f - Z.of_nat (length ds).
Proof.
  induction ds as [|d ds IH]; intros f Hr Hc Hi Hm Hw; cbn [client_burst fold_left length] in *.
  { repeat split; try done; try apply Hr; lia. }
  destruct (account_data_spec f None d 0) as (H1 & H2 & H3 & H4); [done..|lia|done|].
  assert (Hmod : (inflight f + 1) mod 100 = inflight f mod 100 + 1) by zdiv_lia.
  rewrite Hmod in H4. destruct (Z.eqb_spec (inflight f mod 100 + 1) 0);
    [pose proof (Z.mod_pos_bound (inflight f) 100); lia|]. rewrite app_nil_r in H4.
  pose proof (auth_queue_length _ H1) as Hl1. pose proof (auth_queue_length _ Hr) as Hl.
  rewrite H4 in Hl1.
  destruct (IH (account_data f None 3 d 0)) as (J1 & J2 & J3 & J4);
    [done|lia|lia|rewrite H2, Hmod; lia|lia|].
  unfold client_burst in *. rewrite J2, J3, J4, H2, H3, H4. repeat split; try apply J1; try done; lia.
Qed.

Lemma exit_burst_quiet sid cells : ∀ f,
  Forall (λ c, c.2.1 ≠ STREAM_FWD_ERROR) cells →
  circ_deliver_window f <= 1000 → 900 < circ_deliver_window f - Z.of_nat (length cells) →
  (exit_burst f sid cells).2 = [] ∧
  circ_deliver_window (exit_burst f sid cells).1 = circ_deliver_window f - Z.of_nat (length cells).
Proof.
  induction cells as [|[d fwd] cells IH]; intros f Hall Hle Hgt; cbn [exit_burst length] in *.
  { split; [done|]. cbn [fst]. lia. }
  apply Forall_cons_1 in Hall as [Hne Hall].
  destruct (exit_relay_data log_reply f true true d sid 10 fwd []) as [[rc f1] log] eqn:E.
  apply exit_relay_data_circuit in E as [_ E]; [|done|lia].
  destruct (Z.leb_spec (circ_deliver_window f - 1) 900); [lia|]. destruct E as [Hw Hl].
  destruct (IH f1) as [J1 J2]; [done|lia|lia|].
  destruct (exit_burst f1 sid cells) as [f2 out]. cbn [fst snd] in *.
  rewrite Hl, J1, J2. split; [done|lia].
Qed.

Lemma exit_burst_app sid a b : ∀ f,
  exit_burst f sid (a ++ b) =
    let '(f1, out1) := exit_burst f sid a in
    let '(f2, out2) := exit_burst f1 sid b in (f2, out1 ++ out2).
Proof.
  induction a as [|[d fwd] a IH]; intros f; cbn [app exit_burst].
  { by destruct (exit_burst f sid b). }
  destruct (exit_relay_data _ _ _ _ _ _ _ _ _) as [[rc f1] log]. rewrite IH.
  destruct (exit_burst f1 sid a) as [f2 out2]. destruct (exit_burst f2 sid b) as [f3 out3].
  by rewrite app_assoc.
Qed.

(** A socket error closes the stream and does not count the cell. *)
Lemma exit_relay_data_error f d sid i s len n :
  moor_circuit_find_stream (streams f) sid = Some i → streams f !! i = Some s →
  0 <= target_fd s → connected s = true → 0 < circ_deliver_window f → 0 < deliver_window s →
  exit_relay_data log_reply f true true d sid len (STREAM_FWD_ERROR, n) [] =
    (0, update_stream i (λ s, {| s with target_fd := -1; s_stream_id := 0 |}) f,
     [(relay_code RELAY_END, sid, [])]).
Proof.
  intros Hf Hs Hfd Hc Hw Hsw. unfold exit_relay_data. rewrite Hf, Hs, Hc. cbn [negb].
  destruct (Z.ltb_spec (target_fd s) 0); [lia|].
  destruct (Z.leb_spec (circ_deliver_window f) 0); [lia|].
  destruct (Z.leb_spec (deliver_window s) 0); [lia|]. done.
Qed.

(** After 101 cells the client waits for the digest of the hundredth. *)
Lemma client_burst_rejects ds d100 d101 now :
  length ds = 99%nat → take MOOR_SENDME_AUTH_LEN d100 ≠ take MOOR_SENDME_AUTH_LEN d101 →
  let client := client_burst circ_init_fields (ds ++ [d100] ++ [d101]) in
  moor_circuit_handle_sendme client 0 (take MOOR_SENDME_AUTH_LEN d101) now = (-1, client).
Proof.
  intros Hlen Hne. unfold client_burst. rewrite !fold_left_app. fold (client_burst circ_init_fields ds).
  destruct (client_burst_quiet ds circ_init_fields) as (Q1 & Q2 & Q3 & Q4).
  { unfold auth_ring_ok, ring_ok, MOOR_SENDME_AUTH_MAX. cbn. repeat split; done || lia. }
  { done. } { done. } { rewrite Hlen. done. } { rewrite Hlen. done. }
  rewrite Hlen in *. set (c99 := client_burst circ_init_fields ds) in *. clearbody c99.
  change (inflight circ_init_fields) with 0 in Q3.
  change (auth_queue circ_init_fields) with (@nil bytes) in Q2.
  change (circ_package_window circ_init_fields) with 1000 in Q4.
  pose proof (auth_queue_length _ Q1) as L. rewrite Q2 in L. cbn [length fold_left] in *.
  destruct (account_data_spec c99 None d100 0) as (R1 & R2 & R3 & R4); [done|lia|lia|lia|].
  rewrite Q3, Q2 in R4. rewrite Q3 in R2.
  change ((0 + Z.of_nat 99 + 1) mod 100 =? 0) with true in R4. cbn [app] in R4.
  set (c100 := account_data c99 None 3 d100 0) in *. clearbody c100.
  pose proof (auth_queue_length _ R1) as L100. rewrite R4 in L100. cbn [length] in L100.
  destruct (account_data_spec c100 None d101 0) as (S1 & S2 & S3 & S4); [done|lia|lia|lia|].
  rewrite R2, R4 in S4. change ((0 + Z.of_nat 99 + 1 + 1) mod 100 =? 0) with false in S4.
  cbn [app] in S4.
  set (c101 := account_data c100 None 3 d101 0) in *. clearbody c101.
  pose proof (auth_queue_length _ S1) as L101. rewrite S4 in L101. cbn [length] in L101.
  unfold moor_circuit_handle_sendme. cbn [Z.eqb].
  destruct (Z.eqb_spec (sendme_auth_count c101) 0); [done|].
  destruct (_ <? _)%nat; [done|]. rewrite take_take, Nat.min_id.
  unfold auth_queue in S4. rewrite ring_contents_pop in S4 by (done || lia).
  injection S4 as S4 _. unfold sendme_auth_oldest. rewrite S4.
  destruct (bytes_eqb _ _) eqn:Eb; [|done]. apply bytes_eqb_eq in Eb. by symmetry in Eb.
Qed.

(** A socket error at the exit desynchronises SENDME authentication. If the
    first of 101 DATA cells hits a socket error, the exit does not count it and
    sends its SENDME after the 101st cell, with that cell's digest; the client
    recorded the digest after the 100th, and (unless the two 20-byte digests
    happen to agree) rejects the SENDME and keeps its window as it was. *)
Theorem exit_socket_error_desync e sid i s d1 n mid d101 fwd now :
  moor_circuit_find_stream (streams e) sid = Some i → streams e !! i = Some s →
  0 <= target_fd s → connected s = true → 0 < deliver_window s →
  circ_deliver_window e = 1000 → length mid = 99%nat →
  Forall (λ c, c.2.1 ≠ STREAM_FWD_ERROR) mid → fwd.1 ≠ STREAM_FWD_ERROR →
  let cells := (d1, (STREAM_FWD_ERROR, n)) :: mid ++ [(d101, fwd)] in
  let client := client_burst circ_init_fields (map fst cells) in
  (∀ d100 f, last mid = Some (d100, f) →
     take MOOR_SENDME_AUTH_LEN d100 ≠ take MOOR_SENDME_AUTH_LEN d101) →
  (exit_burst e sid cells).2 = [take MOOR_SENDME_AUTH_LEN d101] ∧
  moor_circuit_handle_sendme client 0 (take MOOR_SENDME_AUTH_LEN d101) now = (-1, client).
Proof.
  intros Hf Hs Hfd Hc Hsw Hw Hmid Hall Hlast cells client Hne. split.
  - unfold cells. cbn [exit_burst]. rewrite (exit_relay_data_error e d1 sid i s) by (done || lia).
    set (e1 := update_stream i _ e). assert (Hw1 : circ_deliver_window e1 = 1000) by done. clearbody e1.
    rewrite exit_burst_app. destruct (exit_burst_quiet sid mid e1) as [J1 J2]; [done|lia|lia|].
    destruct (exit_burst e1 sid mid) as [e2 out2]. cbn [fst snd] in *. subst out2.
    cbn [exit_burst]. destruct (exit_relay_data log_reply e2 true true d101 sid 10 fwd []) as [[rc e3] log] eqn:E.
    apply exit_relay_data_circuit in E as [_ E]; [|done|lia].
    destruct (Z.leb_spec (circ_deliver_window e2 - 1) 900); [|lia]. destruct E as [_ ->]. done.
  - destruct (exists_last (l := mid)) as (mid' & [d100 f100] & Emid); [by destruct mid|].
    assert (Hds : map fst cells = (d1 :: map fst mid') ++ [d100] ++ [d101]).
    { unfold cells. rewrite Emid. cbn [map fst]. rewrite !map_app. cbn [map fst app].
      by rewrite <- app_assoc. }
    unfold client. rewrite Hds. apply client_burst_rejects.
    + rewrite Emid, length_app in Hmid. cbn [length] in *. rewrite length_map. lia.
    + eapply Hne. by rewrite Emid, last_snoc.
Qed.

(** The exit's circuit with stream 7 connected. *)
Definition sample_exit : circ_flow :=
  {| circ_init_fields with streams := [mk_stream 7 5 true 100 100 false false] |}.

Lemma exit_socket_error_desync_witness :
  let mid := replicate 98 (zeros 32, (STREAM_FWD_OK, 10%nat))
             ++ [(be_put 32 (2 ^ 255), (STREAM_FWD_OK, 10%nat))] in
  let cells := (zeros 32, (STREAM_FWD_ERROR, 0%nat)) :: mid ++ [(zeros 32, (STREAM_FWD_OK, 10%nat))] in
  let client := client_burst circ_init_fields (map fst cells) in
  (exit_burst sample_exit 7 cells).2 = [zeros 20] ∧
  moor_circuit_handle_sendme client 0 (zeros 20) 0 = (-1, client).
Proof.
  apply (exit_socket_error_desync sample_exit 7 0 (mk_stream 7 5 true 100 100 false false)
    (zeros 32) 0 (replicate 98 (zeros 32, (STREAM_FWD_OK, 10%nat))
             ++ [(be_put 32 (2 ^ 255), (STREAM_FWD_OK, 10%nat))]) (zeros 32) (STREAM_FWD_OK, 10%nat) 0).
  - reflexivity.
  - reflexivity.
  - cbn. lia.
  - reflexivity.
  - cbn. lia.
  - reflexivity.
  - reflexivity.
  - apply Forall_app. split; [apply Forall_replicate | apply Forall_singleton]; discriminate.
  - discriminate.
  - intros d100 f. rewrite last_snoc. intros [= <- _]. vm_compute. discriminate.
Defined.

(** ** What [moor_circuit_send_data] puts on the circuit *)

(** A queue that accepts every cell. *)
Definition log_queue (c : moor_cell_t) (_ : Z) (q : list moor_cell_t)
  : Z * list moor_cell_t := (0, q ++ [c]).

(** Cells needed for [n] bytes. *)
Definition cells_for (n : Z) : Z := (n + 497) / 498.

(** Cells the windows leave room for on stream slot [si]. *)
Definition send_room (f : circ_flow) (si : option nat) : Z :=
  match si with
  | Some i => match streams f !! i with
              | Some s => Z.min (circ_package_window f) (package_window s)
              | None => circ_package_window f end
  | None => circ_package_window f
  end.

Section SendData.
  Context (chacha : bytes → bytes → bytes → Z * bytes) (ks : bytes → bytes → nat → bytes).
  Context (hash : bytes → bytes).
  Context (chacha_xors : ∀ m n k, chacha m n k = (0, xor_bytes (ks n k (length m)) m)).

Lemma send_relay_cell_ok (c : client_circ (list moor_cell_t)) cmd sid data len n :
  cl_hops c ≠ [] → Forall (forward_room (S n)) (cl_hops c) →
  ∃ hops' cell,
    send_relay_cell chacha hash log_queue c cmd sid data len =
      (0, {| c with cl_hops := hops'; cl_out := cl_out c ++ [cell] |}) ∧
    hops' ≠ [] ∧ length hops' = length (cl_hops c) ∧ Forall (forward_room n) hops' ∧
    circuit_id cell = cl_id c.
Proof.
  intros Hne Hroom. unfold send_relay_cell.
  destruct (exists_last Hne) as (hi & h & Hh). rewrite Hh in *.
  assert (Hlive : Forall forward_live (hi ++ [h]))
    by (eapply Forall_impl; [exact Hroom|]; intros x Hx; by apply forward_room_bump in Hx as [? _]).
  rewrite (encrypt_forward_eq chacha ks hash chacha_xors) by done.
  destruct (moor_relay_set_digest hash _ _) as [q d]. cbn [negb Z.eqb log_queue].
  exists (map bump_forward (hi ++ [{| h with forward_digest := d |}])).
  eexists. split; [done|]. split; [by destruct hi|].
  split; [rewrite length_map, !length_app; done|]. split; [|done].
  apply Forall_app in Hroom as [H1 H2]. apply Forall_cons_1 in H2 as [H2 _].
  apply Forall_fmap, Forall_app. split.
  - eapply Forall_impl; [exact H1|]. intros x Hx. by apply forward_room_bump in Hx as [_ ?].
  - constructor; [|done]. by apply forward_room_bump in H2 as [_ ?].
Qed.

Lemma account_data_room f si hops dg now :
  0 < circ_package_window f → 0 < send_room f si →
  let g := account_data f si hops dg now in
  send_room g si = send_room f si - 1 ∧ circ_package_window g = circ_package_window f - 1 ∧
  inflight g = inflight f + 1.
Proof.
  intros Hw Hr g. assert (Hg : streams g = streams (account_windows f si) ∧
    circ_package_window g = circ_package_window (account_windows f si) ∧
    inflight g = inflight (account_windows f si)).
  { unfold g, account_data. destruct (_ && _); [|done].
    assert (Ht : ∀ x, streams (record_timestamp now x) = streams x ∧
      circ_package_window (record_timestamp now x) = circ_package_window x ∧
      inflight (record_timestamp now x) = inflight x)
      by (intros x; unfold record_timestamp; by destruct (_ <? _)).
    destruct (0 <? hops)%nat; [|apply Ht]. unfold sendme_auth_push.
    destruct (_ <? _); [|apply Ht]. cbn [streams circ_package_window inflight]. apply Ht. }
  clearbody g. destruct Hg as (G1 & G2 & G3). unfold send_room in *. rewrite G1, G2, G3.
  unfold account_windows. destruct (Z.ltb_spec 0 (circ_package_window f)); [|lia].
  destruct si as [i|]; cbn [streams update_stream circ_package_window inflight]; [|done].
  rewrite list_lookup_alter_eq. destruct (streams f !! i) as [s|]; cbn; [|done].
  destruct (Z.ltb_spec 0 (package_window s)); [cbn; lia|lia].
Qed.

Lemma send_room_blocked f si :
  (send_room f si <=? 0) = (circ_package_window f <=? 0) || stream_blocked f si.
Proof.
  unfold send_room, stream_blocked. destruct si as [i|]; [destruct (streams f !! i)|]; lia.
Qed.

(** The loop from [data] on, [k] full cells having gone out before. *)
Lemma send_data_loop_spec si sid total clock : ∀ fuel data c k,
  (length data <= fuel)%nat → cl_hops c ≠ [] → Forall (forward_room (length data)) (cl_hops c) →
  0 <= send_room (cl_flow c) si → 0 <= k →
  (0 < Z.of_nat (length data) → total - Z.of_nat (length data) = 498 * k) →
  0 <= total < 2 ^ 31 →
  ∃ n rc c' cells,
    send_data_loop chacha hash log_queue fuel c si sid data total clock = Some (rc, c') ∧
    n = Z.min (cells_for (Z.of_nat (length data))) (send_room (cl_flow c) si) ∧
    cl_out c' = cl_out c ++ cells ∧ Z.of_nat (length cells) = n ∧
    circ_package_window (cl_flow c') = circ_package_window (cl_flow c) - n ∧
    inflight (cl_flow c') = inflight (cl_flow c) + n ∧
    rc = (if n =? cells_for (Z.of_nat (length data)) then 0
          else if k + n =? 0 then -1 else 498 * (k + n)).
Proof.
  induction fuel as [|fuel IH]; intros data c k Hfuel Hne Hroom Hr Hk Hprog Htot;
    cbn [send_data_loop].
  { destruct data; [|cbn in Hfuel; lia]. exists 0, 0, c, []. rewrite app_nil_r.
    change (cells_for (Z.of_nat (length []))) with 0. repeat split; done || lia. }
  destruct (Z.ltb_spec 0 (Z.of_nat (length data))) as [Hpos|Hz].
  2: { exists 0, 0, c, []. rewrite app_nil_r. replace (Z.of_nat (length data)) with 0 by lia.
       change (cells_for 0) with 0. repeat split; done || lia. }
  specialize (Hprog Hpos).
  assert (Hcf : 1 <= cells_for (Z.of_nat (length data))) by (unfold cells_for; zdiv_lia).
  set (f := cl_flow c) in *.
  set (partial := if Z.of_nat (length data) <? total then _ else -1).
  assert (Hpart : partial = if k =? 0 then -1 else 498 * k).
  { unfold partial. destruct (Z.ltb_spec (Z.of_nat (length data)) total), (Z.eqb_spec k 0); try lia.
    rewrite s32_small by lia. lia. }
  pose proof (send_room_blocked f si) as Hblock.
  destruct (Z.eq_dec (send_room f si) 0) as [Hz|Hnz].
  - destruct (Z.leb_spec (send_room f si) 0); [|lia].
    destruct (circ_package_window f <=? 0) eqn:Eb1, (stream_blocked f si) eqn:Eb2; try done;
    exists 0, partial, c, []; rewrite app_nil_r;
    (split; [done|]); (split; [lia|]); (split; [done|]); (split; [done|]);
    (split; [fold f; lia|]); (split; [fold f; lia|]); rewrite Z.add_0_r;
    by destruct (Z.eqb_spec 0 (cells_for (Z.of_nat (length data)))); [lia|].
  - destruct (Z.leb_spec (send_room f si) 0); [lia|].
    destruct (circ_package_window f <=? 0) eqn:Eb1; [done|].
    destruct (stream_blocked f si) eqn:Eb2; [done|]. clear Hblock.
    set (chunk := if Z.of_nat MOOR_RELAY_DATA <? Z.of_nat (length data) then _ else _).
    assert (Hch : chunk = Z.min 498 (Z.of_nat (length data)))
      by (unfold chunk, MOOR_RELAY_DATA; destruct (Z.ltb_spec (Z.of_nat 498) (Z.of_nat (length data))); lia).
    destruct (send_relay_cell_ok c (relay_code RELAY_DATA) sid (Some data) chunk (length data - 1))
      as (hops' & cell & -> & Hne' & Hlen' & Hroom' & _); [done| |].
    { by replace (S (length data - 1)) with (length data) by lia. }
    cbn [negb Z.eqb cl_flow cl_hops]. fold f.
    destruct (account_data_room f si (length hops') (last_forward_digest hops') (clock (length data)))
      as (A1 & A2 & A3); [lia|lia|].
    set (f' := account_data _ _ _ _ _) in *. clearbody f'.
    assert (Hdrop : Z.of_nat (length (drop (Z.to_nat chunk) data)) = Z.of_nat (length data) - chunk)
      by (rewrite length_drop; lia).
    destruct (IH (drop (Z.to_nat chunk) data)
      {| c with cl_hops := hops'; cl_out := cl_out c ++ [cell]; cl_flow := f' |} (k + 1))
      as (n & rc & c' & cells & E & Hn & Hout & Hnl & Hpw & Hif & Hrc);
      cbn [cl_hops cl_flow cl_out] in *; try done; try lia.
    { eapply Forall_impl; [exact Hroom'|]. intros x [? ?]. split; [done|]. lia. }
    exists (n + 1), rc, c', (cell :: cells). split; [exact E|].
    assert (Hcells : cells_for (Z.of_nat (length data) - chunk) = cells_for (Z.of_nat (length data)) - 1)
      by (unfold cells_for; rewrite Hch; zdiv_lia).
    rewrite Hdrop, Hcells in Hn, Hrc.
    split; [lia|]. split; [by rewrite Hout, <- app_assoc|]. split; [cbn [length]; lia|].
    split; [lia|]. split; [lia|]. rewrite Hrc.
    replace (k + 1 + n) with (k + (n + 1)) by lia.
    destruct (Z.eqb_spec n (cells_for (Z.of_nat (length data)) - 1)),
      (Z.eqb_spec (n + 1) (cells_for (Z.of_nat (length data)))); try lia; done.
Qed.
(** Sending data respects both windows and reports what it did: on a circuit
    with keys and nonces in order and a queue that accepts cells,
    [moor_circuit_send_data] always returns; it puts exactly as many cells on the
    circuit as the data needs and the circuit and stream windows allow, takes them
    off the circuit window and adds them to the cells in flight; and it returns 0
    when everything went out, -1 when nothing did, and the number of bytes sent
    (498 per cell) otherwise. *)
Theorem send_data_spec (c : client_circ (list moor_cell_t)) sid data clock :
  cl_hops c ≠ [] → Forall (forward_room (length data)) (cl_hops c) →
  Z.of_nat (length data) < 2 ^ 31 →
  let si := moor_circuit_find_stream (streams (cl_flow c)) sid in
  0 <= send_room (cl_flow c) si →
  let need := cells_for (Z.of_nat (length data)) in
  let n := Z.min need (send_room (cl_flow c) si) in
  ∃ rc c' cells,
    moor_circuit_send_data chacha hash log_queue c sid data clock = Some (rc, c') ∧
    cl_out c' = cl_out c ++ cells ∧ Z.of_nat (length cells) = n ∧
    circ_package_window (cl_flow c') = circ_package_window (cl_flow c) - n ∧
    inflight (cl_flow c') = inflight (cl_flow c) + n ∧
    rc = (if n =? need then 0 else if n =? 0 then -1 else 498 * n).
Proof.
  intros Hne Hroom Hlen si Hr need n. unfold moor_circuit_send_data.
  destruct (send_data_loop_spec si sid (Z.of_nat (length data)) clock (length data) data c 0)
    as (n' & rc & c' & cells & E & Hn & Hout & Hnl & Hpw & Hif & Hrc); [done..|lia| |lia|].
  { intros _. lia. }
  exists rc, c', cells. fold need in Hn, Hrc. fold n in Hn. subst n'. rewrite Z.add_0_l in Hrc. done.
Qed.
End SendData.

Lemma send_data_spec_witness :
  ∃ rc c' cells,
    moor_circuit_send_data toy_chacha toy_hash log_queue
      (mk_client 9 [hop_of 1] circ_init_fields []) 0 (zeros 600) (λ _, 0) = Some (rc, c') ∧
    cl_out c' = [] ++ cells ∧ Z.of_nat (length cells) = 2 ∧
    circ_package_window (cl_flow c') = 1000 - 2 ∧ inflight (cl_flow c') = 0 + 2 ∧ rc = 0.
Proof.
  apply (send_data_spec toy_chacha toy_ks toy_hash (λ m n k, eq_refl)
    (mk_client 9 [hop_of 1] circ_init_fields []) 0 (zeros 600) (λ _, 0)).
  - discriminate.
  - repeat constructor; vm_compute; congruence.
  - reflexivity.
  - vm_compute. congruence.
Defined.
