(* ===== verification/CircTable.v ===== *)
(** * CircTable: the circuit hash table

    Models the open-addressing table of [src/src/circuit.c] ([circ_ht_hash],
    [circ_ht_insert], [circ_ht_lookup], [circ_ht_remove]): 4096 slots, linear
    probing, and removal that clears a slot and re-inserts the entries that follow
    it. The loops are translated over the list of probed slots; the [while] loop of
    the removal runs on fuel equal to the table size, which
    [circ_ht_remove_spec] shows to be enough.

    The theorems state that, as long as a slot stays free, the table is a finite
    map from (connection, circuit id) to circuits: it refines [gmap]. They are
    proved for any table size and any hash into it, and instantiated at the end. *)

From S2P Require Import Prelude.

(** A connection pointer (0 is NULL), and a circuit id. *)
Abbreviation ht_key := (Z * Z)%type.

(** Pointers to circuits. *)
Abbreviation circ_ptr := Z.

(** [circ_ht_entry_t]; an empty slot is one whose [circ] is NULL. *)
Record circ_ht_entry_t := mk_entry { ht_k : ht_key; ht_circ : circ_ptr }.

Abbreviation table := (list (option circ_ht_entry_t)).

Definition CIRC_HT_SIZE : nat := Z.to_nat 4096.

(** Changes to the table. *)
Inductive ht_op := HtInsert (k : ht_key) (c : circ_ptr) | HtRemove (k : ht_key).

(** What a change does to the map the table stands for: an insertion under a key
    that is taken, and any operation with a NULL connection or circuit id 0, does
    nothing. *)
Definition map_op (m : gmap (Z * Z) circ_ptr) (op : ht_op) : gmap (Z * Z) circ_ptr :=
  match op with
  | HtInsert k c =>
      if negb (k.1 =? 0) && negb (k.2 =? 0)
      then match m !! k with Some _ => m | None => <[k := c]> m end else m
  | HtRemove k => if negb (k.1 =? 0) && negb (k.2 =? 0) then delete k m else m
  end.

Definition circ_ht_hash (k : ht_key) : nat :=
  let '(conn, cid) := k in
  let key := Z.lxor conn (u64 (cid * 2654435769)) in
  Z.to_nat (Z.land (u32 (Z.shiftr (u64 (key * 11400714819323198485)) 32)) (4096 - 1)).

(** The guard [!conn || cid == 0] of the three operations. *)
Definition key_valid (k : ht_key) : bool := negb (k.1 =? 0) && negb (k.2 =? 0).

Section Table.
  Context (size : nat) (hash : ht_key → nat).

Definition empty_table : table := replicate size None.

(** The slots [(idx + i) & MASK] for [i = 0 .. size - 1] ([probes_mod]): from [idx] to
    the end, then from the start. *)
Definition probes (idx : nat) : list nat := drop idx (seq 0 size) ++ take idx (seq 0 size).

Fixpoint insert_loop (slots : list nat) (k : ht_key) (c : circ_ptr) (t : table) : Z * table :=
  match slots with
  | [] => (-1, t)
  | s :: slots =>
      match t !! s with
      | Some (Some e) =>
          if bool_decide (ht_k e = k) then (if ht_circ e =? c then 0 else -1, t)
          else insert_loop slots k c t
      | _ => (0, <[s := Some (mk_entry k c)]> t)
      end
  end.

Definition circ_ht_insert (k : ht_key) (c : circ_ptr) (t : table) : Z * table :=
  if key_valid k then insert_loop (probes (hash k)) k c t else (-1, t).

Fixpoint lookup_loop (slots : list nat) (k : ht_key) (t : table) : option circ_ptr :=
  match slots with
  | [] => None
  | s :: slots =>
      match t !! s with
      | Some (Some e) => if bool_decide (ht_k e = k) then Some (ht_circ e)
                         else lookup_loop slots k t
      | _ => None
      end
  end.

Definition circ_ht_lookup (k : ht_key) (t : table) : option circ_ptr :=
  if key_valid k then lookup_loop (probes (hash k)) k t else None.

(** [while (g_circ_ht[j].circ != NULL) ...; j = (j + 1) & MASK]. [None]: the fuel
    ran out. *)
Fixpoint reinsert_loop (fuel j : nat) (t : table) : option table :=
  match t !! j with
  | Some (Some e) =>
      match fuel with
      | O => None
      | S fuel =>
          let t := <[j := None]> t in
          let '(_, t) := circ_ht_insert (ht_k e) (ht_circ e) t in
          reinsert_loop fuel ((j + 1) mod size)%nat t
      end
  | _ => Some t
  end.

Fixpoint remove_loop (slots : list nat) (k : ht_key) (t : table) : option table :=
  match slots with
  | [] => Some t
  | s :: slots =>
      match t !! s with
      | Some (Some e) =>
          if bool_decide (ht_k e = k)
          then reinsert_loop size ((s + 1) mod size)%nat (<[s := None]> t)
          else remove_loop slots k t
      | _ => Some t
      end
  end.

Definition circ_ht_remove (k : ht_key) (t : table) : option table :=
  if key_valid k then remove_loop (probes (hash k)) k t else Some t.

Definition table_op (t : option table) (op : ht_op) : option table :=
  match t, op with
  | None, _ => None
  | Some t, HtInsert k c => Some (circ_ht_insert k c t).2
  | Some t, HtRemove k => circ_ht_remove k t
  end.

(** ** Virtual positions

    [free] is a slot known to be empty. Virtual positions run from [free + 1] to
    [free + size]; position [x] stands for slot [x mod size], and the last one is
    the free slot. Probing from the home of a key never has to wrap around in this
    numbering. *)

Definition get (t : table) (x : nat) : option circ_ht_entry_t :=
  match t !! (x mod size)%nat with Some e => e | None => None end.

Definition home (free : nat) (k : ht_key) : nat :=
  if (hash k <=? free)%nat then (hash k + size)%nat else hash k.

(** [t] holds [k ↦ c] at virtual position [x]. *)
Definition holds (t : table) (x : nat) (k : ht_key) (c : circ_ptr) : Prop :=
  get t x = Some (mk_entry k c).

Definition in_window (free x : nat) : Prop := (free < x <= free + size)%nat.

(** Every entry before [j] sits after its home with no gap between; every entry
    from [j] on at least has no gap from [j]. The plain invariant has [j] at the
    end of the window. *)
Definition linked (free j : nat) (t : table) : Prop :=
  ∀ x k c, in_window free x → holds t x k c →
    (home free k <= x)%nat ∧ key_valid k = true ∧
    ∀ y, (home free k <= y <= x)%nat → (x < j ∨ j <= y)%nat → get t y ≠ None.

(** No key is stored twice. *)
Definition distinct_keys (t : table) : Prop :=
  ∀ i j k c d, t !! i = Some (Some (mk_entry k c)) → t !! j = Some (Some (mk_entry k d)) → i = j.

Definition free_ok (free : nat) (t : table) : Prop :=
  length t = size ∧ (free < size)%nat ∧ t !! free = Some None.

(** The table invariant: some slot is free, and probing finds every key. *)
Definition table_ok (t : table) : Prop :=
  (∃ free, free_ok free t ∧ linked free (free + size) t) ∧ distinct_keys t.

(** The map a table stands for. *)
Definition represents (t : table) (m : gmap ht_key circ_ptr) : Prop :=
  ∀ k c, m !! k = Some c ↔ Some (mk_entry k c) ∈ t.

(** At least two free slots: room for one more key. *)
Definition has_room (t : table) : Prop :=
  ∃ i j, i ≠ j ∧ t !! i = Some None ∧ t !! j = Some None.
End Table.

Section Facts.
  Context (size : nat) (hash : ht_key → nat).
  Context (hash_lt : ∀ k, (hash k < size)%nat).

Lemma window_mod free x :
  (free < size)%nat → in_window size free x →
  (x < size ∧ x mod size = x ∨ size <= x ∧ x mod size = x - size)%nat.
Proof.
  intros Hf Hx. unfold in_window in Hx. destruct (Nat.lt_ge_cases x size).
  - left. split; [done|]. by apply Nat.mod_small.
  - right. split; [done|]. replace x with (x - size + 1 * size)%nat at 1 by lia.
    rewrite Nat.Div0.mod_add. apply Nat.mod_small. lia.
Qed.

Lemma window_inj free x y :
  (free < size)%nat → in_window size free x → in_window size free y →
  (x mod size = y mod size)%nat → x = y.
Proof.
  intros Hf Hx Hy. pose proof (window_mod _ _ Hf Hx). pose proof (window_mod _ _ Hf Hy).
  unfold in_window in *. lia.
Qed.

(** Every slot has its virtual position. *)
Lemma slot_virtual free s :
  (free < size)%nat → (s < size)%nat →
  let x := if (s <=? free)%nat then (s + size)%nat else s in
  in_window size free x ∧ (x mod size = s)%nat.
Proof.
  intros Hf Hs. cbv zeta. unfold in_window. destruct (Nat.leb_spec s free).
  - split; [lia|]. replace (s + size)%nat with (s + 1 * size)%nat by lia.
    rewrite Nat.Div0.mod_add. by apply Nat.mod_small.
  - split; [lia|]. by apply Nat.mod_small.
Qed.

Lemma home_window free k : (free < size)%nat → in_window size free (home size hash free k).
Proof. intros Hf. apply (slot_virtual free (hash k) Hf (hash_lt k)). Qed.

Lemma home_mod free k : (free < size)%nat → (home size hash free k mod size = hash k)%nat.
Proof. intros Hf. apply (slot_virtual free (hash k) Hf (hash_lt k)). Qed.

Lemma get_free free t : free_ok size free t → get size t (free + size) = None.
Proof.
  intros (Hl & Hf & Ht). unfold get. replace (free + size)%nat with (free + 1 * size)%nat by lia.
  rewrite Nat.Div0.mod_add, Nat.mod_small by done. by rewrite Ht.
Qed.

Lemma get_insert free t x y e :
  length t = size → (free < size)%nat → in_window size free x → in_window size free y →
  get size (<[(x mod size)%nat := e]> t) y = if decide (x = y) then e else get size t y.
Proof.
  intros Hl Hf Hx Hy. unfold get. destruct (decide (x = y)) as [->|Hne].
  - rewrite list_lookup_insert_eq; [done|]. rewrite Hl. apply Nat.mod_upper_bound. lia.
  - rewrite list_lookup_insert_ne; [done|]. intros E. by apply Hne, (window_inj free).
Qed.

(** Probing starts at the home of the key and goes up. *)
Lemma probes_mod idx :
  (idx < size)%nat → probes size idx = map (λ i, (idx + i) mod size)%nat (seq 0 size).
Proof.
  intros Hi. apply list_eq. intros i. unfold probes. rewrite list_lookup_fmap.
  assert (Hl : length (drop idx (seq 0 size)) = (size - idx)%nat) by (by rewrite length_drop, length_seq).
  destruct (decide (i < size)%nat) as [Hlt|Hge].
  - rewrite (lookup_seq_lt 0 size i) by done. cbn [fmap option_fmap option_map].
    destruct (decide (i < size - idx)%nat) as [H1|H1].
    + rewrite lookup_app_l, lookup_drop, lookup_seq_lt by (rewrite ?Hl; lia).
      by rewrite Nat.mod_small by lia.
    + rewrite lookup_app_r, Hl, lookup_take_lt, lookup_seq_lt by (rewrite ?Hl; lia). f_equal.
      rewrite (Nat.add_comm 0 i), Nat.add_0_r. replace (idx + i)%nat with ((i - (size - idx)) + 1 * size)%nat by lia.
      rewrite Nat.Div0.mod_add, Nat.mod_small by lia. lia.
  - rewrite !lookup_ge_None_2; [done|rewrite length_seq; lia|].
    rewrite length_app, Hl, length_take, length_seq. lia.
Qed.

Lemma probes_home free k :
  (free < size)%nat →
  probes size (hash k) = map (λ x, x mod size)%nat (seq (home size hash free k) size).
Proof.
  intros Hf. rewrite (probes_mod (hash k) (hash_lt k)), <- (Nat.add_0_r (home size hash free k)).
  rewrite <- fmap_add_seq, map_map. apply map_ext. intros i.
  rewrite <- (home_mod free k Hf). rewrite Nat.Div0.add_mod_idemp_l. f_equal. 
Qed.

(** From any position of the window there is a first empty one. *)
Lemma first_empty free t x :
  free_ok size free t → in_window size free x →
  ∃ y, in_window size free y ∧ (x <= y)%nat ∧ get size t y = None ∧
       ∀ z, (x <= z < y)%nat → get size t z ≠ None.
Proof.
  intros Hf Hx. pose proof (get_free _ _ Hf) as Hend. unfold in_window in *.
  assert (Hn : ∃ n, n = (free + size - x)%nat) by eauto. destruct Hn as [n Hn].
  revert x Hx Hn. induction n as [|n IH]; intros x Hx Hn.
  - exists x. replace x with (free + size)%nat by lia. repeat split; try lia; try done.
  - destruct (get size t x) as [e|] eqn:E.
    + destruct (IH (S x)) as (y & Hy & Hxy & Hg & Hb); [lia|lia|].
      exists y. split; [done|]. split; [lia|]. split; [done|]. intros z Hz.
      destruct (decide (z = x)) as [->|]; [congruence|]. apply Hb. lia.
    + exists x. repeat split; try lia; done.
Qed.
(** *** The three loops stop at the same slot *)

(** First probed slot that is empty or holds the key. *)
Fixpoint scan (slots : list nat) (k : ht_key) (t : table) : option (nat * option circ_ht_entry_t) :=
  match slots with
  | [] => None
  | s :: slots =>
      match t !! s with
      | Some (Some e) => if bool_decide (ht_k e = k) then Some (s, Some e) else scan slots k t
      | _ => Some (s, None)
      end
  end.

Lemma insert_loop_scan slots k c t :
  insert_loop slots k c t =
    match scan slots k t with
    | None => (-1, t)
    | Some (s, None) => (0, <[s := Some (mk_entry k c)]> t)
    | Some (s, Some e) => (if ht_circ e =? c then 0 else -1, t)
    end.
Proof.
  induction slots as [|s slots IH]; cbn [insert_loop scan]; [done|].
  destruct (t !! s) as [[e|]|]; [|done|done]. by case_bool_decide.
Qed.

Lemma lookup_loop_scan slots k t :
  lookup_loop slots k t =
    match scan slots k t with Some (_, Some e) => Some (ht_circ e) | _ => None end.
Proof.
  induction slots as [|s slots IH]; cbn [lookup_loop scan]; [done|].
  destruct (t !! s) as [[e|]|]; [|done|done]. by case_bool_decide.
Qed.

Lemma remove_loop_scan slots k t :
  remove_loop size hash slots k t =
    match scan slots k t with
    | Some (s, Some _) => reinsert_loop size hash size ((s + 1) mod size)%nat (<[s := None]> t)
    | _ => Some t
    end.
Proof.
  induction slots as [|s slots IH]; cbn [remove_loop scan]; [done|].
  destruct (t !! s) as [[e|]|]; [|done|done]. by case_bool_decide.
Qed.

(** Scanning upwards stops at [y] when everything before holds other keys. *)
Lemma scan_stops n : ∀ x y k t,
  (x <= y < x + n)%nat →
  (∀ z, (x <= z < y)%nat → ∃ e, get size t z = Some e ∧ ht_k e ≠ k) →
  (∀ e, get size t y = Some e → ht_k e = k) →
  scan (map (λ x, x mod size)%nat (seq x n)) k t = Some ((y mod size)%nat, get size t y).
Proof.
  induction n as [|n IH]; intros x y k t Hy Hbefore Hat; [lia|]. cbn [seq map scan].
  destruct (decide (x = y)) as [->|Hne].
  - unfold get in *. destruct (t !! (y mod size)%nat) as [[e|]|]; [|done|done].
    rewrite bool_decide_eq_true_2; [done|]. by apply Hat.
  - destruct (Hbefore x) as (e & He & Hk); [lia|].
    replace (t !! (x mod size)%nat) with (Some (Some e)).
    2: { unfold get in He. destruct (t !! (x mod size)%nat) as [o|]; [by subst|done]. }
    rewrite bool_decide_eq_false_2 by done. apply IH; [lia| |done]. intros z Hz. apply Hbefore. lia.
Qed.

(** Where the scan of a key stops in a table without gaps before [j]: at the slot
    of the key when it is stored before [j], else at the first empty slot. *)
Lemma scan_key free k t y :
  free_ok size free t → in_window size free y → (home size hash free k <= y)%nat →
  (∀ z, (home size hash free k <= z < y)%nat → ∃ e, get size t z = Some e ∧ ht_k e ≠ k) →
  (∀ e, get size t y = Some e → ht_k e = k) →
  scan (probes size (hash k)) k t = Some ((y mod size)%nat, get size t y).
Proof.
  intros (Hl & Hf & _) Hy Hle Hb Ha. rewrite (probes_home free) by done.
  apply scan_stops; [|done|done]. pose proof (home_window free k Hf). unfold in_window in *. lia.
Qed.

Lemma holds_slot free t x k c :
  (free < size)%nat → in_window size free x →
  holds size t x k c ↔ t !! (x mod size)%nat = Some (Some (mk_entry k c)).
Proof.
  intros. unfold holds, get. destruct (t !! (x mod size)%nat) as [o|]; split; congruence.
Qed.

(** A stored key is found. *)
Lemma scan_present free k c t x :
  free_ok size free t → linked size hash free (free + size) t → distinct_keys t →
  in_window size free x → holds size t x k c →
  scan (probes size (hash k)) k t = Some ((x mod size)%nat, Some (mk_entry k c)).
Proof.
  intros Hf Hl Hd Hx Hh. pose proof Hf as (Hlen & Hlt & _).
  destruct (Hl x k c Hx Hh) as (Hhome & _ & Hpath).
  assert (Hend : (x < free + size)%nat).
  { destruct (decide (x = (free + size)%nat)) as [->|]; [|unfold in_window in Hx; lia].
    unfold holds in Hh. by rewrite (get_free _ _ Hf) in Hh. }
  rewrite (scan_key free k t x); [by rewrite Hh|done..| |].
  - intros z Hz. destruct (get size t z) as [[k' c']|] eqn:E; [|by destruct (Hpath z); [lia|lia|]].
    exists (mk_entry k' c'). split; [done|]. cbn. intros ->.
    assert (Hzw : in_window size free z) by (pose proof (home_window free k Hlt); unfold in_window in *; lia).
    apply holds_slot with (free := free) in Hh, E; [|done..].
    assert (x mod size = z mod size)%nat as Em by eauto.
    apply (window_inj free) in Em; [lia|done..].
  - intros e He. unfold holds in Hh. rewrite Hh in He. by injection He as <-.
Qed.

(** A key that is not stored is stopped by the first empty slot after its home. *)
Lemma scan_absent free k t :
  free_ok size free t → (∀ c, Some (mk_entry k c) ∉ t) →
  ∃ y, in_window size free y ∧ (home size hash free k <= y)%nat ∧ get size t y = None ∧
    (∀ z, (home size hash free k <= z < y)%nat → get size t z ≠ None) ∧
    scan (probes size (hash k)) k t = Some ((y mod size)%nat, None).
Proof.
  intros Hf Hno. pose proof Hf as (Hlen & Hlt & _).
  destruct (first_empty _ _ _ Hf (home_window free k Hlt)) as (y & Hy & Hle & Hg & Hb).
  exists y. split; [done|]. split; [done|]. split; [done|]. split; [done|].
  rewrite <- Hg. apply (scan_key free); [done..| |by rewrite Hg].
  intros z Hz. destruct (get size t z) as [[k' c']|] eqn:E; [|by destruct (Hb z)].
  exists (mk_entry k' c'). split; [done|]. cbn. intros ->. apply (Hno c').
  unfold get in E. destruct (t !! (z mod size)%nat) as [o|] eqn:E2; [|done]. subst o.
  by eapply list_elem_of_lookup_2.
Qed.
(** *** Changing the free slot *)

Lemma get_shift t x : get size t (x + size) = get size t x.
Proof.
  unfold get. replace (x + size)%nat with (x + 1 * size)%nat by lia. by rewrite Nat.Div0.mod_add.
Qed.

Lemma linked_change f g t :
  free_ok size f t → linked size hash f (f + size) t → free_ok size g t →
  linked size hash g (g + size) t.
Proof.
  intros Hf Hl Hg x k c Hx Hh. pose proof Hf as (Hlen & Hflt & _). pose proof Hg as (_ & Hglt & Hgt).
  pose proof (window_mod _ _ Hglt Hx) as Hm. set (s := (x mod size)%nat) in *.
  assert (Hs : (s < size)%nat) by (apply Nat.mod_upper_bound; lia).
  destruct (slot_virtual f s Hflt Hs) as [Hx0 Hx0m].
  set (x0 := if (s <=? f)%nat then (s + size)%nat else s) in *.
  assert (Hh0 : holds size t x0 k c) by (unfold holds, get in *; by rewrite Hx0m).
  destruct (Hl x0 k c Hx0 Hh0) as (Hle & Hkv & Hpath).
  assert (Hend : (x0 < f + size)%nat).
  { destruct (decide (x0 = (f + size)%nat)) as [E|]; [|unfold in_window in Hx0; lia].
    unfold holds in Hh0. by rewrite E, (get_free _ _ Hf) in Hh0. }
  destruct (slot_virtual f g Hflt Hglt) as [Hg0 Hg0m].
  set (g0 := if (g <=? f)%nat then (g + size)%nat else g) in *.
  assert (Hgap : ¬ (home size hash f k <= g0 <= x0)%nat).
  { intros Hin. apply (Hpath g0); [done|left; done|]. unfold get. by rewrite Hg0m, Hgt. }
  pose proof (hash_lt k) as Hh1. unfold home, in_window in *.
  assert (Hget : ∀ y δ, get size t (y + δ) = get size t y ∨ (δ ≠ size ∧ δ ≠ 0%nat)).
  { intros y δ. destruct (decide (δ = size)) as [->|]; [left; apply get_shift|].
    destruct (decide (δ = 0%nat)) as [->|]; [left; by rewrite Nat.add_0_r|]. by right. }
  split; [|split; [done|]].
  - destruct (Nat.leb_spec s f), (Nat.leb_spec (hash k) f), (Nat.leb_spec (hash k) g),
      (Nat.leb_spec g f); lia.
  - intros y Hy _.
    assert (Hcase : (∃ y0, get size t y = get size t y0 ∧
      ((if (hash k <=? f)%nat then (hash k + size)%nat else hash k) <= y0 <= x0)%nat)).
    { destruct (Nat.leb_spec s f), (Nat.leb_spec (hash k) f), (Nat.leb_spec (hash k) g),
        (Nat.leb_spec g f); try lia;
        first [ exists y; split; [done|lia]
              | exists (y + size)%nat; split; [by rewrite get_shift|lia]
              | exists (y - size)%nat; split; [rewrite <- (get_shift t (y - size)); f_equal; lia|lia] ]. }
    destruct Hcase as (y0 & -> & Hy0). apply Hpath; [done|]. left. lia.
Qed.

(** *** The table as a set of entries *)

Lemma elem_holds free t k c :
  length t = size → (free < size)%nat →
  Some (mk_entry k c) ∈ t ↔ ∃ x, in_window size free x ∧ holds size t x k c.
Proof.
  intros Hl Hf. split.
  - intros [s Hs]%list_elem_of_lookup_1. pose proof (lookup_lt_Some _ _ _ Hs) as Hlt. rewrite Hl in Hlt.
    destruct (slot_virtual free s Hf Hlt) as [Hx Hm]. eexists. split; [exact Hx|].
    unfold holds, get. by rewrite Hm, Hs.
  - intros (x & Hx & Hh). apply (holds_slot free) in Hh; [|done..]. by eapply list_elem_of_lookup_2.
Qed.

Lemma table_ok_free t f :
  table_ok size hash t → free_ok size f t → linked size hash f (f + size) t.
Proof. intros [(g & Hg & Hl) _] Hf. by apply (linked_change g). Qed.

(** Looking a key up gives the map's answer. *)
Lemma circ_ht_lookup_spec t m k :
  table_ok size hash t → represents t m →
  circ_ht_lookup size hash k t = m !! k.
Proof.
  intros [(free & Hf & Hl) Hd] Hrep. pose proof Hf as (Hlen & Hlt & _). unfold circ_ht_lookup.
  destruct (m !! k) as [c|] eqn:Em.
  - apply Hrep, (elem_holds free) in Em as (x & Hx & Hh); [|done..].
    destruct (Hl x k c Hx Hh) as (_ & -> & _). rewrite lookup_loop_scan.
    by rewrite (scan_present free k c t x).
  - destruct (key_valid k); [|done]. rewrite lookup_loop_scan.
    destruct (scan_absent free k t Hf) as (y & _ & _ & _ & _ & ->); [|done].
    intros c Hin%Hrep. congruence.
Qed.

(** Filling the first empty slot after the key's home keeps the table linked. *)
Lemma linked_fill free j t y k c :
  free_ok size free t → in_window size free y → linked size hash free j t →
  (home size hash free k <= y)%nat → key_valid k = true →
  (∀ z, (home size hash free k <= z < y)%nat → get size t z ≠ None) →
  linked size hash free j (<[(y mod size)%nat := Some (mk_entry k c)]> t).
Proof.
  intros (Hlen & Hlt & _) Hy Hl Hle Hkv Hpath x k' c' Hx Hh. unfold holds in Hh.
  rewrite (get_insert free) in Hh by done.
  assert (Hw : ∀ z kk, (home size hash free kk <= z <= x)%nat → in_window size free z).
  { intros z kk Hz. pose proof (home_window free kk Hlt). unfold in_window in *. lia. }
  destruct (decide (y = x)) as [->|Hne].
  - injection Hh as <- <-. split; [done|]. split; [done|]. intros z Hz _.
    rewrite (get_insert free) by eauto. destruct (decide (x = z)); [done|]. apply Hpath. lia.
  - destruct (Hl x k' c' Hx Hh) as (H1 & H2 & H3). split; [done|]. split; [done|].
    intros z Hz Hj. rewrite (get_insert free) by eauto. destruct (decide (y = z)); [done|]. by apply H3.
Qed.
Lemma elem_fill (t : table) (s : nat) e0 e :
  t !! s = Some None → Some e ∈ <[s := Some e0]> t ↔ e = e0 ∨ Some e ∈ t.
Proof.
  intros Hs. pose proof (lookup_lt_Some _ _ _ Hs) as Hlt. split.
  - intros [i Hi]%list_elem_of_lookup_1. apply list_lookup_insert_Some in Hi as [(_ & E & _)|[_ Hi]].
    + injection E as ->. by left.
    + right. by eapply list_elem_of_lookup_2.
  - intros [->|[i Hi]%list_elem_of_lookup_1].
    + apply (list_elem_of_lookup_2 _ s). by apply list_lookup_insert_eq.
    + apply (list_elem_of_lookup_2 _ i). rewrite list_lookup_insert_ne; [done|]. congruence.
Qed.

Lemma elem_clear (t : table) (s : nat) e0 e :
  t !! s = Some (Some e0) → distinct_keys t →
  Some e ∈ <[s := None]> t ↔ Some e ∈ t ∧ ht_k e ≠ ht_k e0.
Proof.
  intros Hs Hd. split.
  - intros [i Hi]%list_elem_of_lookup_1. apply list_lookup_insert_Some in Hi as [(_ & E & _)|[Hne Hi]]; [done|].
    split; [by eapply list_elem_of_lookup_2|]. intros E. apply Hne.
    destruct e as [k c], e0 as [k0 c0]. cbn in E. subst. eauto.
  - intros [[i Hi]%list_elem_of_lookup_1 Hne]. apply (list_elem_of_lookup_2 _ i).
    rewrite list_lookup_insert_ne; [done|]. congruence.
Qed.

Lemma distinct_fill (t : table) (s : nat) k c :
  distinct_keys t → (∀ d, Some (mk_entry k d) ∉ t) → distinct_keys (<[s := Some (mk_entry k c)]> t).
Proof.
  intros Hd Hno i j k' c' d' Hi Hj.
  apply list_lookup_insert_Some in Hi as [(<- & E & _)|[Hni Hi]];
    apply list_lookup_insert_Some in Hj as [(Hj0 & E' & _)|[Hnj Hj]]; simplify_eq; try done.
  - destruct (Hno d'). by eapply list_elem_of_lookup_2.
  - destruct (Hno c'). by eapply list_elem_of_lookup_2.
  - eauto.
Qed.

Lemma distinct_clear (t : table) (s : nat) : distinct_keys t → distinct_keys (<[s := None]> t).
Proof.
  intros Hd i j k c d Hi Hj.
  apply list_lookup_insert_Some in Hi as [(_ & ? & _)|[_ Hi]]; [done|].
  apply list_lookup_insert_Some in Hj as [(_ & ? & _)|[_ Hj]]; [done|]. eauto.
Qed.

Lemma free_ok_insert free t y e :
  free_ok size free t → in_window size free y → y ≠ (free + size)%nat →
  free_ok size free (<[(y mod size)%nat := e]> t).
Proof.
  intros (Hl & Hf & Ht) Hy Hne. split; [by rewrite length_insert|]. split; [done|].
  rewrite list_lookup_insert_ne; [done|]. intros E. apply Hne.
  apply (window_inj free); [done|done|unfold in_window; lia|].
  rewrite E. replace (free + size)%nat with (free + 1 * size)%nat by lia.
  by rewrite Nat.Div0.mod_add, Nat.mod_small by done.
Qed.

Lemma get_slot free t y :
  free_ok size free t → get size t y = None → t !! (y mod size)%nat = Some None.
Proof.
  intros (Hl & Hf & _) Hg. unfold get in Hg.
  destruct (lookup_lt_is_Some_2 t (y mod size)%nat) as [o Ho].
  { rewrite Hl. apply Nat.mod_upper_bound. lia. }
  rewrite Ho in Hg. by subst.
Qed.

(** *** Inserting *)

Lemma circ_ht_insert_spec t m k c :
  table_ok size hash t → represents t m → has_room t → key_valid k = true →
  match m !! k with
  | Some c' => circ_ht_insert size hash k c t = (if c' =? c then 0 else -1, t)
  | None => ∃ t', circ_ht_insert size hash k c t = (0, t') ∧
              table_ok size hash t' ∧ represents t' (<[k := c]> m)
  end.
Proof.
  intros Hok Hrep (i & j & Hij & Hi & Hj) Hkv. pose proof Hok as [(f0 & Hf0 & Hl0) Hd].
  pose proof Hf0 as (Hlen & _). unfold circ_ht_insert. rewrite Hkv, insert_loop_scan.
  destruct (m !! k) as [c'|] eqn:Em.
  { apply Hrep, (elem_holds f0) in Em as (x & Hx & Hh); [|done|apply Hf0].
    by rewrite (scan_present f0 k c' t x). }
  assert (Hno : ∀ d, Some (mk_entry k d) ∉ t) by (intros d Hin%Hrep; congruence).
  assert (Hfree : ∀ f, t !! f = Some None → free_ok size f t)
    by (intros f Hf; split; [done|]; split; [rewrite <- Hlen; by eapply lookup_lt_Some|done]).
  destruct (scan_absent i k t (Hfree i Hi) Hno) as (y & _ & _ & _ & _ & Hscan). rewrite Hscan.
  assert (∃ f, t !! f = Some None ∧ f ≠ (y mod size)%nat) as (f & Hf & Hfy)
    by (destruct (decide (i = (y mod size)%nat)) as [->|]; eauto).
  destruct (scan_absent f k t (Hfree f Hf) Hno) as (z & Hz & Hzh & Hzg & Hzp & Hzs).
  rewrite Hscan in Hzs. injection Hzs as Hyz. eexists. split; [done|].
  pose proof (Hfree f Hf) as Hff. pose proof Hff as (_ & Hflt & _). rewrite Hyz in *. split.
  - split; [|by apply distinct_fill]. exists f. split.
    + apply free_ok_insert; [done..|]. intros ->. apply Hfy.
      replace (f + size)%nat with (f + 1 * size)%nat by lia.
      by rewrite Nat.Div0.mod_add, Nat.mod_small.
    + apply linked_fill; try done. by apply table_ok_free.
  - intros k' c'. rewrite elem_fill by (by eapply get_slot). rewrite lookup_insert_Some, (Hrep k' c').
    split.
    + intros [[<- <-]|[Hne Hin]]; [by left|by right].
    + intros [E|Hin]; [injection E as <- <-; by left|]. right. split; [|done]. intros <-. by apply (Hno c').
Qed.

(** *** Removing *)

Lemma linked_clear free j t x e :
  free_ok size free t → in_window size free x → (x < free + size)%nat → (j = x ∨ j = free + size)%nat →
  linked size hash free j t → get size t x = Some e →
  linked size hash free (S x) (<[(x mod size)%nat := None]> t).
Proof.
  intros Hf Hx Hxe Hj Hl Hg x' k c Hx' Hh. pose proof Hf as (Hlen & Hlt & _). unfold holds in Hh.
  rewrite (get_insert free) in Hh by done. destruct (decide (x = x')) as [->|Hne]; [done|].
  assert (x' ≠ (free + size)%nat) by (intros ->; by rewrite (get_free _ _ Hf) in Hh).
  destruct (Hl x' k c Hx' Hh) as (H1 & H2 & H3). split; [done|]. split; [done|].
  intros y Hy Hside.
  assert (Hyw : in_window size free y) by (pose proof (home_window free k Hlt); unfold in_window in *; lia).
  rewrite (get_insert free) by done. destruct (decide (x = y)); [lia|]. apply H3; [done|].
  unfold in_window in *. lia.
Qed.

Lemma linked_end free j t :
  free_ok size free t → in_window size free j → linked size hash free j t → get size t j = None →
  linked size hash free (free + size) t.
Proof.
  intros Hf Hj Hl Hg x k c Hx Hh. destruct (Hl x k c Hx Hh) as (H1 & H2 & H3).
  split; [done|]. split; [done|]. intros y Hy _. apply H3; [done|].
  destruct (Nat.lt_ge_cases x j); [by left|]. right.
  destruct (Nat.lt_ge_cases y j); [|done]. exfalso. apply (H3 j); [lia|lia|done].
Qed.

Lemma succ_mod x : ((x mod size + 1) mod size = (S x) mod size)%nat.
Proof. rewrite Nat.Div0.add_mod_idemp_l. f_equal. lia. Qed.

Lemma reinsert_loop_spec free : ∀ fuel j t,
  free_ok size free t → in_window size free j → linked size hash free j t → distinct_keys t →
  (free + size - j <= fuel)%nat →
  ∃ t', reinsert_loop size hash fuel (j mod size)%nat t = Some t' ∧ free_ok size free t' ∧
    linked size hash free (free + size) t' ∧ distinct_keys t' ∧ ∀ e, Some e ∈ t' ↔ Some e ∈ t.
Proof.
  induction fuel as [|fuel IH]; intros j t Hf Hj Hl Hd Hfuel; cbn [reinsert_loop].
  - assert (j = (free + size)%nat) as -> by (unfold in_window in Hj; lia).
    pose proof (get_free _ _ Hf) as Hg. rewrite (get_slot free _ _ Hf Hg). exists t. done.
  - pose proof Hf as (Hlen & Hlt & _).
    destruct (get size t j) as [[k c]|] eqn:Hg.
    2: { rewrite (get_slot free _ _ Hf Hg). exists t. split; [done|]. split; [done|].
         split; [by apply (linked_end free j)|done]. }
    assert (Hjs : t !! (j mod size)%nat = Some (Some (mk_entry k c))) by (by apply (holds_slot free)).
    rewrite Hjs. cbn [ht_k ht_circ].
    assert (Hje : (j < free + size)%nat).
    { destruct (decide (j = (free + size)%nat)) as [->|]; [|unfold in_window in Hj; lia].
      by rewrite (get_free _ _ Hf) in Hg. }
    destruct (Hl j k c Hj Hg) as (Hhome & Hkv & _).
    set (t1 := <[(j mod size)%nat := None]> t).
    assert (Hf1 : free_ok size free t1) by (apply free_ok_insert; [done|done|lia]).
    assert (Hno : ∀ d, Some (mk_entry k d) ∉ t1)
      by (intros d Hin; apply (elem_clear _ _ _ _ Hjs Hd) in Hin as [_ Hne]; done).
    unfold circ_ht_insert. rewrite Hkv, insert_loop_scan.
    destruct (scan_absent free k t1 Hf1 Hno) as (y & Hy & Hyh & Hyg & Hyp & ->).
    assert (Hyj : (y <= j)%nat).
    { destruct (Nat.le_gt_cases y j); [done|]. exfalso. apply (Hyp j); [lia|].
      unfold t1. rewrite (get_insert free) by done. by rewrite decide_True. }
    rewrite succ_mod. destruct (IH (S j) (<[(y mod size)%nat := Some (mk_entry k c)]> t1))
      as (t' & E & Hf' & Hl' & Hd' & Hin').
    + apply free_ok_insert; [done|done|lia].
    + unfold in_window in *. lia.
    + apply linked_fill; try done. apply (linked_clear free j t j (mk_entry k c)); auto.
    + apply distinct_fill; [by apply distinct_clear|done].
    + lia.
    + exists t'. split; [done|]. split; [done|]. split; [done|]. split; [done|]. intros e.
      rewrite Hin', elem_fill by (by eapply get_slot). unfold t1. rewrite (elem_clear _ _ _ _ Hjs Hd).
      split.
      * intros [->|[? _]]; [by eapply list_elem_of_lookup_2|done].
      * intros Hin. destruct (decide (ht_k e = k)) as [Ek|]; [left|by right].
        destruct e as [k' c']. cbn in Ek. subst k'. apply list_elem_of_lookup_1 in Hin as [i Hi].
        assert (i = (j mod size)%nat) as -> by eauto. congruence.
Qed.

Lemma circ_ht_remove_spec t m k :
  table_ok size hash t → represents t m →
  ∃ t', circ_ht_remove size hash k t = Some t' ∧ table_ok size hash t' ∧ represents t' (delete k m).
Proof.
  intros Hok Hrep. pose proof Hok as [(free & Hf & Hl) Hd]. pose proof Hf as (Hlen & Hlt & _).
  unfold circ_ht_remove.
  assert (Hnone : m !! k = None → represents t (delete k m)) by (intros E; by rewrite delete_id).
  destruct (m !! k) as [c|] eqn:Em.
  2: { exists t. split; [|split; [done|by apply Hnone]]. destruct (key_valid k); [|done].
       rewrite remove_loop_scan. destruct (scan_absent free k t Hf) as (y & _ & _ & _ & _ & ->); [|done].
       intros c Hin%Hrep. congruence. }
  apply Hrep, (elem_holds free) in Em as (x & Hx & Hh); [|done..].
  destruct (Hl x k c Hx Hh) as (Hhome & -> & _). rewrite remove_loop_scan.
  rewrite (scan_present free k c t x), succ_mod by done.
  assert (Hxs : t !! (x mod size)%nat = Some (Some (mk_entry k c))) by (by apply (holds_slot free)).
  assert (Hxe : (x < free + size)%nat).
  { destruct (decide (x = (free + size)%nat)) as [->|]; [|unfold in_window in Hx; lia].
    unfold holds in Hh. by rewrite (get_free _ _ Hf) in Hh. }
  destruct (reinsert_loop_spec free size (S x) (<[(x mod size)%nat := None]> t))
    as (t' & E & Hf' & Hl' & Hd' & Hin').
  - apply free_ok_insert; [done|done|lia].
  - unfold in_window in *. lia.
  - apply (linked_clear free (free + size) t x (mk_entry k c)); auto.
  - by apply distinct_clear.
  - unfold in_window in *. lia.
  - exists t'. split; [done|]. split; [by split; [exists free|]|]. intros k' c'.
    rewrite Hin', (elem_clear _ _ _ _ Hxs Hd), lookup_delete_Some, (Hrep k' c'). cbn.
    split; intros [? ?]; split; congruence.
Qed.
(** *** Room in the table *)

Lemma none_one (t : table) : (length (omap id t) < length t)%nat → ∃ i, t !! i = Some None.
Proof.
  induction t as [|[e|] t IH]; cbn; [lia| |by exists 0%nat].
  intros H. destruct IH as [i Hi]; [cbn in *; lia|]. by exists (S i).
Qed.

Lemma none_two (t : table) : (length (omap id t) + 1 < length t)%nat → has_room t.
Proof.
  induction t as [|[e|] t IH]; cbn; [lia| |].
  - intros H. destruct IH as (i & j & Hij & Hi & Hj); [cbn in *; lia|].
    exists (S i), (S j). split; [lia|done].
  - intros H. destruct (none_one t) as [i Hi]; [lia|]. exists 0%nat, (S i). done.
Qed.

Lemma distinct_NoDup t : distinct_keys t → NoDup (ht_k <$> omap id t).
Proof.
  induction t as [|[e|] t IH]; intros Hd; cbn; [constructor| |].
  - assert (Hd' : distinct_keys t)
      by (intros i j k c d Hi Hj; assert (S i = S j) by (eapply Hd; cbn; eauto); lia).
    constructor; [|by apply IH]. intros (e' & He & Hin)%list_elem_of_fmap.
    apply list_elem_of_omap in Hin as (o & Ho & Eo). cbn in Eo. subst o.
    apply list_elem_of_lookup_1 in Ho as [i Hi]. destruct e as [k c], e' as [k' c']. cbn in He. subst k'.
    assert (0%nat = S i) by (eapply (Hd 0%nat (S i)); cbn; eauto). lia.
  - apply IH. intros i j k c d Hi Hj. assert (S i = S j) by (eapply Hd; cbn; eauto). lia.
Qed.

Lemma represents_room t m :
  length t = size → distinct_keys t → represents t m → (Datatypes.S (base.size m) < size)%nat →
  has_room t.
Proof.
  intros Hl Hd Hrep Hsz. apply none_two. rewrite Hl.
  assert (Hle : (length (ht_k <$> omap id t) <= base.size m)%nat).
  { rewrite <- (size_list_to_set (C := gset ht_key)) by (by apply distinct_NoDup).
    rewrite <- size_dom. apply subseteq_size. intros k Hk. apply elem_of_list_to_set in Hk.
    apply list_elem_of_fmap in Hk as ([k' c] & -> & Hin). apply list_elem_of_omap in Hin as (o & Ho & Eo).
    cbn in Eo. subst o. apply elem_of_dom. exists c. by apply Hrep. }
  rewrite length_fmap in Hle. lia.
Qed.

Lemma empty_table_ok :
  (0 < size)%nat → table_ok size hash (empty_table size) ∧ represents (empty_table size) ∅.
Proof.
  intros Hs. unfold empty_table. split; [split|].
  - exists 0%nat. split; [split; [apply length_replicate|split; [done|by apply lookup_replicate_2]]|].
    intros x k c Hx Hh. apply (holds_slot 0) in Hh; [|done..].
    by apply lookup_replicate_1 in Hh as [? _].
  - intros i j k c d Hi. by apply lookup_replicate_1 in Hi as [? _].
  - intros k c. rewrite lookup_empty. split; [done|]. intros Hin.
    by apply elem_of_replicate in Hin as [? _].
Qed.

Lemma table_op_spec t m op :
  table_ok size hash t → represents t m → (S (base.size m) < size)%nat →
  ∃ t', table_op size hash (Some t) op = Some t' ∧ table_ok size hash t' ∧ represents t' (map_op m op).
Proof.
  intros Hok Hrep Hsz. pose proof Hok as [(f & (Hlen & _) & _) Hd].
  destruct op as [k c|k]; cbn [table_op map_op]; change (negb _ && negb _) with (key_valid k).
  - destruct (key_valid k) eqn:Hkv; [|unfold circ_ht_insert; rewrite Hkv; eauto].
    pose proof (circ_ht_insert_spec t m k c Hok Hrep (represents_room t m Hlen Hd Hrep Hsz) Hkv) as Hi.
    destruct (m !! k) as [c'|]; [rewrite Hi; eauto|]. destruct Hi as (t' & -> & ?). eauto.
  - destruct (key_valid k) eqn:Hkv; [|unfold circ_ht_remove; rewrite Hkv; eauto].
    destruct (circ_ht_remove_spec t m k Hok Hrep) as (t' & -> & ?). eauto.
Qed.
End Facts.

(** ** The table of the program *)

Lemma circ_ht_hash_lt k : (circ_ht_hash k < CIRC_HT_SIZE)%nat.
Proof.
  destruct k as [conn cid]. unfold circ_ht_hash, CIRC_HT_SIZE. change (4096 - 1) with (Z.ones 12).
  rewrite Z.land_ones by lia. match goal with |- (Z.to_nat (?a mod _) < _)%nat =>
    pose proof (Z.mod_pos_bound a (2 ^ 12)) end. lia.
Qed.

(** C11. The circuit table is a finite map: whatever sequence of insertions and
    removals is applied to the empty table, as long as at most 4094 circuits are
    registered at any time, every operation terminates and every lookup gives the
    circuit the same operations on a finite map give, through all collisions of
    the hash and all displacements of a removal. *)
Theorem circ_ht_refines_map ops :
  (∀ pre, pre `prefix_of` ops → Z.of_nat (base.size (fold_left map_op pre ∅)) < 4095) →
  ∃ t, fold_left (table_op CIRC_HT_SIZE circ_ht_hash) ops (Some (empty_table CIRC_HT_SIZE)) = Some t ∧
    ∀ k, circ_ht_lookup CIRC_HT_SIZE circ_ht_hash k t = fold_left map_op ops ∅ !! k.
Proof.
  intros Hsz.
  assert (Hgo : ∃ t, fold_left (table_op CIRC_HT_SIZE circ_ht_hash) ops (Some (empty_table CIRC_HT_SIZE)) = Some t ∧
    table_ok CIRC_HT_SIZE circ_ht_hash t ∧ represents t (fold_left map_op ops ∅)).
  { induction ops as [|op ops IH] using rev_ind.
    - exists (empty_table CIRC_HT_SIZE). split; [done|]. apply empty_table_ok. unfold CIRC_HT_SIZE. lia.
    - destruct IH as (t & E & Hok & Hrep).
      { intros pre Hpre. apply Hsz. by apply prefix_app_r. }
      rewrite !fold_left_app, E. cbn [fold_left]. apply table_op_spec; [apply circ_ht_hash_lt|done|done|].
      assert (Hp : ops `prefix_of` ops ++ [op]) by (by exists [op]).
      specialize (Hsz ops Hp). unfold CIRC_HT_SIZE. lia. }
  destruct Hgo as (t & E & Hok & Hrep). exists t. split; [done|]. intros k.
  by apply circ_ht_lookup_spec; [apply circ_ht_hash_lt| |].
Qed.

(** Two circuits registered, the first unregistered. *)
Definition sample_ops : list ht_op :=
  [HtInsert (4096, 7) 100; HtInsert (8192, 9) 200; HtRemove (4096, 7)].

Lemma circ_ht_refines_map_witness :
  ∃ t, fold_left (table_op CIRC_HT_SIZE circ_ht_hash) sample_ops (Some (empty_table CIRC_HT_SIZE)) = Some t ∧
    ∀ k, circ_ht_lookup CIRC_HT_SIZE circ_ht_hash k t = fold_left map_op sample_ops ∅ !! k.
Proof.
  apply circ_ht_refines_map. intros pre [rest E]. unfold sample_ops in E.
  destruct pre as [|a [|b [|c [|d pre]]]]; cbn [app] in E; simplify_eq/=;
    try (vm_compute; reflexivity).
Defined.
