(* ===== verification/Conflux.v ===== *)
(** * Conflux: multi-path circuits with an encrypted sequence number

    Models [src/src/conflux.c] and [src/include/moor/conflux.h]: the Feistel
    permutation on sequence numbers, the legs and their selection, sending, the
    reorder buffer and its delivery, together with the client's receive path of
    [src/src/socks5.c] that feeds the buffer and drains it.

    Circuits live in a store shared by the legs ([circ_store]): adding and failing
    a leg, and freeing the set, change the circuit's [conflux] pointer. BLAKE2b,
    the key derivation and the transmission of a finished cell are parameters. The
    [double] ratio of the round-robin fallback is computed with the Standard
    Library's IEEE 754 binary64 operations. *)

From S2P Require Import Prelude Cell.
From Stdlib Require Import SpecFloat.

Definition MOOR_CONFLUX_MAX_LEGS : nat := 4.
Definition MOOR_CONFLUX_REORDER_BUF : nat := 32.
Definition CONFLUX_DATA : nat := 490.

(** ** State *)

Record moor_conflux_reorder_entry_t := mk_reorder {
  re_seq : Z;             (* uint64_t *)
  re_stream_id : Z;       (* uint16_t *)
  re_data : bytes;        (* data[0 .. data_len - 1] *)
  re_valid : bool;
  re_buffered_at : Z;     (* uint64_t, ms *)
}.

(** [leg_circuit] is the pointer to the circuit, [None] for NULL. *)
Record moor_conflux_leg_t := mk_leg {
  leg_circuit : option Z;
  leg_weight : Z;         (* uint64_t *)
  leg_sent_count : Z;     (* uint64_t *)
  leg_active : bool;
  leg_srtt_us : Z;        (* uint64_t *)
  leg_min_rtt_us : Z;     (* uint64_t *)
  leg_rtt_initialized : bool;
}.

(** [legs] holds the first [num_legs] entries of the array. *)
Record moor_conflux_set_t := mk_set {
  legs : list moor_conflux_leg_t;
  next_send_seq : Z;      (* uint64_t *)
  next_recv_seq : Z;      (* uint64_t *)
  reorder : list moor_conflux_reorder_entry_t;
  seq_key : bytes;
  reorder_timeout_ms : Z; (* uint32_t *)
}.

(** The circuit fields the set touches: the package window, whether the circuit's
    [conflux] pointer is set, the circuit id and the first hop's key. *)
Record cf_circ := mk_cf_circ {
  cf_package_window : Z;
  cf_in_set : bool;
  cf_circuit_id : Z;
  cf_first_key : option bytes;    (* None: num_hops = 0 *)
}.

Abbreviation circ_store := (gmap Z cf_circ).

Definition empty_entry : moor_conflux_reorder_entry_t := mk_reorder 0 0 [] false 0.

(** ** The Feistel permutation *)

Section Feistel.
  Context (hash : bytes → bytes).

Definition feistel_round_fn (key : bytes) (round_num r_half : Z) : Z :=
  be_get (take 4 (hash (key ++ [round_num] ++ be_put 4 r_half))).

Fixpoint feistel_rounds (rounds : list Z) (key : bytes) (L R : Z) : Z * Z :=
  match rounds with
  | [] => (L, R)
  | i :: rounds => feistel_rounds rounds key R (Z.lxor L (feistel_round_fn key i R))
  end.

Definition feistel_encrypt (key : bytes) (seq : Z) : Z :=
  let '(L, R) := feistel_rounds [0; 1; 2; 3] key (u32 (Z.shiftr seq 32)) (Z.land seq (Z.ones 32)) in
  Z.lor (Z.shiftl L 32) R.

Fixpoint feistel_unrounds (rounds : list Z) (key : bytes) (L R : Z) : Z * Z :=
  match rounds with
  | [] => (L, R)
  | i :: rounds => feistel_unrounds rounds key (Z.lxor R (feistel_round_fn key i L)) L
  end.

Definition feistel_decrypt (key : bytes) (enc : Z) : Z :=
  let '(L, R) := feistel_unrounds [3; 2; 1; 0] key (u32 (Z.shiftr enc 32)) (Z.land enc (Z.ones 32)) in
  Z.lor (Z.shiftl L 32) R.

Definition moor_conflux_encrypt_seq (cset : option moor_conflux_set_t) (seq : Z) : Z :=
  match cset with None => seq | Some c => feistel_encrypt (seq_key c) seq end.
End Feistel.

(** ** Legs *)

Definition leg_of (p window : Z) : moor_conflux_leg_t :=
  mk_leg (Some p) (if 0 <? window then window else 1000) 0 true 0 0 false.

Definition set_in_set (b : bool) (p : Z) (st : circ_store) : circ_store :=
  alter (λ c, {| c with cf_in_set := b |}) p st.

(** [kdf] is [moor_crypto_kdf(seq_key, 32, key, 1, "moorcfx!")]; [rand_key] and
    [rand32] are the bytes drawn from [moor_crypto_random]. [None]: the allocation
    failed or [first] is NULL or dangling. *)
Definition moor_conflux_create (kdf : bytes → bytes) (rand_key : bytes) (rand32 : Z)
    (first : Z) (st : circ_store) : option (moor_conflux_set_t * circ_store) :=
  match st !! first with
  | None => None
  | Some c =>
      Some ({| legs := [leg_of first (cf_package_window c)];
               next_send_seq := 0; next_recv_seq := 0;
               reorder := replicate MOOR_CONFLUX_REORDER_BUF empty_entry;
               seq_key := match cf_first_key c with Some k => kdf k | None => rand_key end;
               reorder_timeout_ms := 8000 + rand32 mod 4001 |},
            set_in_set true first st)
  end.

(** Reuse the first inactive slot, else append; -1 when the four slots are taken.
    (The reused slot's circuit pointer and counters are overwritten.) *)
Definition moor_conflux_add_leg (cs : moor_conflux_set_t) (p : Z) (st : circ_store)
  : Z * moor_conflux_set_t * circ_store :=
  match st !! p with
  | None => (-1, cs, st)
  | Some c =>
      let leg := leg_of p (cf_package_window c) in
      match find_index (λ l, negb (leg_active l)) (legs cs) with
      | Some i => (0, {| cs with legs := <[i := leg]> (legs cs) |}, set_in_set true p st)
      | None =>
          if (MOOR_CONFLUX_MAX_LEGS <=? length (legs cs))%nat then (-1, cs, st)
          else (0, {| cs with legs := legs cs ++ [leg] |}, set_in_set true p st)
      end
  end.

(** [!legs[i].active || !legs[i].circuit] negated. *)
Definition leg_usable (l : moor_conflux_leg_t) : bool :=
  leg_active l && bool_decide (is_Some (leg_circuit l)).

(** First loop: the usable leg with an RTT and the lowest smoothed one; the
    accumulator is [(best, best_rtt)]. *)
Fixpoint select_rtt (i : nat) (ls : list moor_conflux_leg_t) (acc : option nat * Z)
  : option nat * Z :=
  match ls with
  | [] => acc
  | l :: ls =>
      select_rtt (S i) ls
        (if leg_usable l && leg_rtt_initialized l && (leg_srtt_us l <? acc.2)
         then (Some i, leg_srtt_us l) else acc)
  end.

(** IEEE 754 binary64. *)
Definition double_of (z : Z) : spec_float := binary_normalize 53 1024 z 0 false.
Definition double_div : spec_float → spec_float → spec_float := SFdiv 53 1024.

Definition leg_ratio (l : moor_conflux_leg_t) : spec_float :=
  double_div (double_of (leg_sent_count l))
             (double_of (if 0 <? leg_weight l then leg_weight l else 1)).

(** Second loop: the usable leg with the lowest [sent_count / weight]. *)
Fixpoint select_ratio (i : nat) (ls : list moor_conflux_leg_t) (acc : option nat * spec_float)
  : option nat * spec_float :=
  match ls with
  | [] => acc
  | l :: ls =>
      select_ratio (S i) ls
        (if leg_usable l && SFltb (leg_ratio l) acc.2 then (Some i, leg_ratio l) else acc)
  end.

(** [None] is -1. *)
Definition moor_conflux_select_leg (cs : moor_conflux_set_t) : option nat :=
  match (select_rtt 0 (legs cs) (None, UINT64_MAX)).1 with
  | Some i => Some i
  | None => (select_ratio 0 (legs cs) (None, double_of (10 ^ 18))).1
  end.

Definition moor_conflux_update_rtt (cs : moor_conflux_set_t) (leg_idx : Z) (rtt_us : Z)
  : moor_conflux_set_t :=
  if (leg_idx <? 0) || (Z.of_nat (length (legs cs)) <=? leg_idx) then cs
  else {| cs with legs := alter (λ l,
     if negb (leg_rtt_initialized l)
     then {| l with leg_srtt_us := rtt_us; leg_min_rtt_us := rtt_us; leg_rtt_initialized := true |}
     else {| l with leg_srtt_us := u64 (u64 (leg_srtt_us l * 7) + rtt_us) / 8;
                    leg_min_rtt_us := if rtt_us <? leg_min_rtt_us l then rtt_us
                                      else leg_min_rtt_us l |}) (Z.to_nat leg_idx) (legs cs) |}.

(** The first leg of the circuit is dropped; -1 when no leg is left active. *)
Definition moor_conflux_leg_failed (cs : moor_conflux_set_t) (p : Z) (st : circ_store)
  : Z * moor_conflux_set_t * circ_store :=
  let '(cs, st) :=
    match find_index (λ l, bool_decide (leg_circuit l = Some p)) (legs cs) with
    | Some i => ({| cs with legs := alter (λ l, {| l with leg_active := false; leg_circuit := None |})
                                      i (legs cs) |}, set_in_set false p st)
    | None => (cs, st)
    end in
  (if existsb leg_active (legs cs) then 0 else -1, cs, st).

Definition moor_conflux_free (cs : moor_conflux_set_t) (st : circ_store) : circ_store :=
  fold_left (λ st l, match leg_circuit l with Some p => set_in_set false p st | None => st end)
    (legs cs) st.

(** ** Sending *)

Section Send.
  Context (hash : bytes → bytes).
  (** Encrypting and sending a relay cell on circuit [p]: 0, or nonzero when either
      step failed. *)
  Context {Net : Type} (transmit : Z → moor_cell_t → Net → Z * Net).

(** One round of [while (offset < len)], [data] being what is left to send; with
    return code 0 the last component is what is left after it. *)
Definition conflux_send_one (cs : moor_conflux_set_t) (st : circ_store) (sid : Z) (data : bytes)
    (net : Net) : Z * moor_conflux_set_t * circ_store * Net * bytes :=
  match moor_conflux_select_leg cs with
  | None => (-1, cs, st, net, data)
  | Some i =>
      match legs cs !! i with
      | Some leg =>
          match leg_circuit leg with
          | Some p =>
              let chunk := (CONFLUX_DATA `min` length data)%nat in
              if next_send_seq cs =? UINT64_MAX then (-1, cs, st, net, data)
              else
                let seq := next_send_seq cs in
                let enc_seq := feistel_encrypt hash (seq_key cs) seq in
                let cell_data := be_put 8 enc_seq ++ take chunk data in
                let cid := match st !! p with Some c => cf_circuit_id c | None => 0 end in
                let cell := moor_cell_relay cid (relay_code RELAY_DATA) sid
                              (Some cell_data) (u16 (Z.of_nat (8 + chunk))) in
                let '(rc, net) := transmit p cell net in
                if negb (rc =? 0) then
                  (-1, {| cs with next_send_seq := u64 (seq + 1) |}, st, net, data)
                else
                  (0, {| cs with next_send_seq := u64 (seq + 1);
                                 legs := <[i := {| leg with
                                   leg_sent_count := u64 (leg_sent_count leg + 1) |}]> (legs cs) |},
                   alter (λ c, if 0 <? cf_package_window c
                               then {| c with cf_package_window := cf_package_window c - 1 |}
                               else c) p st,
                   net, drop chunk data)
          | None => (-1, cs, st, net, data)
          end
      | None => (-1, cs, st, net, data)
      end
  end.

(** [None]: out of fuel, which a fuel of [length data] never is. *)
Fixpoint conflux_send_loop (fuel : nat) (cs : moor_conflux_set_t) (st : circ_store)
    (sid : Z) (data : bytes) (net : Net)
  : option (Z * moor_conflux_set_t * circ_store * Net) :=
  match data, fuel with
  | [], _ => Some (0, cs, st, net)
  | _, O => None
  | _, S fuel =>
      let '(rc, cs, st, net, rest) := conflux_send_one cs st sid data net in
      if rc =? 0 then conflux_send_loop fuel cs st sid rest net else Some (-1, cs, st, net)
  end.

Definition moor_conflux_send_data (cs : moor_conflux_set_t) (st : circ_store) (sid : Z)
    (data : option bytes) (net : Net) : option (Z * moor_conflux_set_t * circ_store * Net) :=
  match data with
  | None => Some (-1, cs, st, net)
  | Some data => conflux_send_loop (length data) cs st sid data net
  end.
End Send.

(** ** Receiving *)

Definition entry_stale (now timeout : Z) (e : moor_conflux_reorder_entry_t) : bool :=
  re_valid e && (timeout <? u64 (now - re_buffered_at e)).

(** The lowest valid buffered sequence number, [UINT64_MAX] when there is none. *)
Definition min_buffered (es : list moor_conflux_reorder_entry_t) : Z :=
  fold_left (λ m e, if re_valid e && (re_seq e <? m) then re_seq e else m) es UINT64_MAX.

(** Expire stale entries and, if any was expired and the next sequence number is
    not buffered, skip to the lowest buffered one. *)
Definition conflux_expire (cs : moor_conflux_set_t) (now : Z) : moor_conflux_set_t :=
  let timeout := if 0 <? reorder_timeout_ms cs then reorder_timeout_ms cs else 10000 in
  let expired_any := existsb (entry_stale now timeout) (reorder cs) in
  let es := map (λ e, if entry_stale now timeout e then {| e with re_valid := false |} else e)
              (reorder cs) in
  let found_next := existsb (λ e, re_valid e && (re_seq e =? next_recv_seq cs)) es in
  let min_seq := min_buffered es in
  {| cs with reorder := es;
             next_recv_seq :=
               if expired_any && negb found_next && negb (min_seq =? UINT64_MAX)
                  && (next_recv_seq cs <? min_seq)
               then min_seq else next_recv_seq cs |}.

(** Return codes 1 (in order, the caller delivers the payload), 0 (buffered) and
    -1. [from] is the nullable circuit the cell came from; [now] and [now2] the two
    clock reads. *)
Definition moor_conflux_receive (hash : bytes → bytes) (cs : moor_conflux_set_t)
    (from : option Z) (enc_seq sid : Z) (data : option bytes) (now now2 : Z)
  : Z * moor_conflux_set_t :=
  match data with
  | None => (-1, cs)
  | Some data =>
      let seq := feistel_decrypt hash (seq_key cs) enc_seq in
      let cs := conflux_expire cs now in
      let leg_found :=
        match from with
        | None => true
        | Some p => existsb (λ l, bool_decide (leg_circuit l = Some p) && leg_active l) (legs cs)
        end in
      if negb leg_found then (-1, cs)
      else if seq =? next_recv_seq cs then
        if next_recv_seq cs =? UINT64_MAX then (-1, cs)
        else (1, {| cs with next_recv_seq := u64 (next_recv_seq cs + 1) |})
      else if seq <? next_recv_seq cs then (-1, cs)
      else if Z.of_nat MOOR_CONFLUX_REORDER_BUF <=? seq - next_recv_seq cs then (-1, cs)
      else if existsb (λ e, re_valid e && (re_seq e =? seq)) (reorder cs) then (-1, cs)
      else
        match find_index (λ e, negb (re_valid e)) (reorder cs) with
        | None => (-1, cs)
        | Some i =>
            if (CONFLUX_DATA <? length data)%nat then
              (* seq and stream_id of the free slot were overwritten already *)
              (-1, {| cs with reorder := alter (λ e, {| e with re_seq := seq; re_stream_id := sid |})
                                           i (reorder cs) |})
            else (0, {| cs with reorder := <[i := mk_reorder seq sid data true now2]> (reorder cs) |})
        end
  end.

(** [Some (stream, data)] is return code 1; [len_out] the room in [data_out]. The
    code -1 of an exhausted counter is [None] with the entry consumed. *)
Definition moor_conflux_deliver (cs : moor_conflux_set_t) (len_out : nat)
  : option (Z * bytes) * moor_conflux_set_t :=
  match find_index (λ e, re_valid e && (re_seq e =? next_recv_seq cs)) (reorder cs) with
  | None => (None, cs)
  | Some i =>
      match reorder cs !! i with
      | None => (None, cs)
      | Some e =>
          if (len_out <? length (re_data e))%nat then (None, cs)
          else
            let cs := {| cs with reorder := <[i := {| e with re_valid := false |}]> (reorder cs) |} in
            if next_recv_seq cs =? UINT64_MAX then (None, cs)
            else (Some (re_stream_id e, re_data e),
                  {| cs with next_recv_seq := u64 (next_recv_seq cs + 1) |})
      end
  end.

(** The client: drain everything that is in order; [MOOR_RELAY_DATA] bytes of room.
    Each delivery frees a slot, so 32 rounds empty the buffer. *)
Fixpoint conflux_drain (fuel : nat) (cs : moor_conflux_set_t) : list (Z * bytes) * moor_conflux_set_t :=
  match fuel with
  | O => ([], cs)
  | S fuel =>
      match moor_conflux_deliver cs MOOR_RELAY_DATA with
      | (Some out, cs) => let '(outs, cs) := conflux_drain fuel cs in (out :: outs, cs)
      | (None, cs) => ([], cs)
      end
  end.

(** [case RELAY_DATA] of the client on a circuit with a conflux set: the stream data
    handed to the application, in order. *)
Definition conflux_client_data (hash : bytes → bytes) (cs : moor_conflux_set_t) (from : Z)
    (sid : Z) (relay_data : bytes) (now now2 : Z) : list (Z * bytes) * moor_conflux_set_t :=
  let enc_seq := be_get (take 8 relay_data) in
  let payload := drop 8 relay_data in
  match moor_conflux_receive hash cs (Some from) enc_seq sid (Some payload) now now2 with
  | (1, cs) => let '(outs, cs) := conflux_drain (S MOOR_CONFLUX_REORDER_BUF) cs in
               ((sid, payload) :: outs, cs)
  | (0, cs) => conflux_drain (S MOOR_CONFLUX_REORDER_BUF) cs
  | (_, cs) => ([], cs)
  end.

(** ** The Feistel network is a permutation of the 64-bit integers *)

Lemma split_halves v : is_u64 v →
  Z.lor (Z.shiftl (u32 (Z.shiftr v 32)) 32) (Z.land v (Z.ones 32)) = v.
Proof.
  intros Hv. rewrite Z.land_ones, Z.shiftr_div_pow2 by lia.
  rewrite shiftl_lor_add by (lia || apply Z.mod_pos_bound; lia).
  unfold u32, is_u64 in *. zdiv_lia.
Qed.

Lemma join_halves L R : is_u32 L → is_u32 R →
  u32 (Z.shiftr (Z.lor (Z.shiftl L 32) R) 32) = L ∧
  Z.land (Z.lor (Z.shiftl L 32) R) (Z.ones 32) = R ∧
  is_u64 (Z.lor (Z.shiftl L 32) R).
Proof.
  intros HL HR. unfold is_u32, is_u64 in *. rewrite shiftl_lor_add by lia.
  rewrite Z.land_ones, Z.shiftr_div_pow2 by lia. unfold u32. zdiv_lia.
Qed.

Section FeistelTheory.
  Context (hash : bytes → bytes) (key : bytes).
  Context (hash_bytes : ∀ m, bytes_ok (hash m)).

Lemma feistel_round_fn_range i r : is_u32 (feistel_round_fn hash key i r).
Proof.
  unfold feistel_round_fn, is_u32. pose proof (be_get_range (take 4 (hash (key ++ [i] ++ be_put 4 r)))) as H.
  specialize (H (bytes_ok_take _ _ (hash_bytes _))). rewrite length_take in H.
  assert (2 ^ (8 * Z.of_nat (4 `min` length (hash (key ++ [i] ++ be_put 4 r)))) <= 2 ^ 32)
    by (apply Z.pow_le_mono_r; lia). lia.
Qed.

Lemma feistel_rounds_range rs L R : is_u32 L → is_u32 R →
  is_u32 (feistel_rounds hash rs key L R).1 ∧ is_u32 (feistel_rounds hash rs key L R).2.
Proof.
  revert L R. induction rs as [|i rs IH]; intros L R HL HR; simpl; [done|].
  apply IH; [done|]. apply is_u32_lxor; [done|apply feistel_round_fn_range].
Qed.

Lemma feistel_unrounds_range rs L R : is_u32 L → is_u32 R →
  is_u32 (feistel_unrounds hash rs key L R).1 ∧ is_u32 (feistel_unrounds hash rs key L R).2.
Proof.
  revert L R. induction rs as [|i rs IH]; intros L R HL HR; simpl; [done|].
  apply IH; [|done]. apply is_u32_lxor; [done|apply feistel_round_fn_range].
Qed.

Lemma feistel_unrounds_app rs rs' L R :
  feistel_unrounds hash (rs ++ rs') key L R =
  feistel_unrounds hash rs' key (feistel_unrounds hash rs key L R).1 (feistel_unrounds hash rs key L R).2.
Proof. revert L R. induction rs; intros; simpl; auto. Qed.

Lemma feistel_rounds_app rs rs' L R :
  feistel_rounds hash (rs ++ rs') key L R =
  feistel_rounds hash rs' key (feistel_rounds hash rs key L R).1 (feistel_rounds hash rs key L R).2.
Proof. revert L R. induction rs; intros; simpl; auto. Qed.

Lemma feistel_unrounds_rounds rs L R :
  feistel_unrounds hash (rev rs) key (feistel_rounds hash rs key L R).1 (feistel_rounds hash rs key L R).2
  = (L, R).
Proof.
  revert L R. induction rs as [|i rs IH]; intros L R; simpl; [done|].
  rewrite feistel_unrounds_app, IH. simpl. by rewrite Z.lxor_assoc, Z.lxor_nilpotent, Z.lxor_0_r.
Qed.

Lemma feistel_rounds_unrounds rs L R :
  feistel_rounds hash (rev rs) key (feistel_unrounds hash rs key L R).1 (feistel_unrounds hash rs key L R).2
  = (L, R).
Proof.
  revert L R. induction rs as [|i rs IH]; intros L R; simpl; [done|].
  rewrite feistel_rounds_app, IH. simpl. by rewrite Z.lxor_assoc, Z.lxor_nilpotent, Z.lxor_0_r.
Qed.

Lemma halves_range v : is_u32 (u32 (Z.shiftr v 32)) ∧ is_u32 (Z.land v (Z.ones 32)).
Proof. split; [apply u32_range|]. rewrite Z.land_ones by lia. apply u32_range. Qed.

Lemma feistel_encrypt_range v : is_u64 (feistel_encrypt hash key v).
Proof.
  unfold feistel_encrypt. destruct (halves_range v).
  destruct (feistel_rounds_range [0; 1; 2; 3] (u32 (Z.shiftr v 32)) (Z.land v (Z.ones 32))); [done..|].
  destruct (feistel_rounds _ _ _ _ _) as [L R]. by apply join_halves.
Qed.

Lemma feistel_decrypt_encrypt v : is_u64 v →
  feistel_decrypt hash key (feistel_encrypt hash key v) = v.
Proof.
  intros Hv. unfold feistel_encrypt, feistel_decrypt. destruct (halves_range v).
  pose proof (feistel_rounds_range [0; 1; 2; 3] (u32 (Z.shiftr v 32)) (Z.land v (Z.ones 32)))
    as [HL HR]; [done..|].
  pose proof (feistel_unrounds_rounds [0; 1; 2; 3] (u32 (Z.shiftr v 32)) (Z.land v (Z.ones 32))) as Hun.
  destruct (feistel_rounds _ _ _ _ _) as [L R].
  destruct (join_halves L R HL HR) as (-> & -> & _). change (rev [0; 1; 2; 3]) with [3; 2; 1; 0] in Hun.
  simpl fst in Hun; simpl snd in Hun. rewrite Hun. by apply split_halves.
Qed.

Lemma feistel_encrypt_decrypt v : is_u64 v →
  feistel_encrypt hash key (feistel_decrypt hash key v) = v.
Proof.
  intros Hv. unfold feistel_encrypt, feistel_decrypt. destruct (halves_range v).
  pose proof (feistel_unrounds_range [3; 2; 1; 0] (u32 (Z.shiftr v 32)) (Z.land v (Z.ones 32)))
    as [HL HR]; [done..|].
  pose proof (feistel_rounds_unrounds [3; 2; 1; 0] (u32 (Z.shiftr v 32)) (Z.land v (Z.ones 32))) as Hun.
  destruct (feistel_unrounds _ _ _ _ _) as [L R].
  destruct (join_halves L R HL HR) as (-> & -> & _). change (rev [3; 2; 1; 0]) with [0; 1; 2; 3] in Hun.
  simpl fst in Hun; simpl snd in Hun. rewrite Hun. by apply split_halves.
Qed.
End FeistelTheory.

(** ** The reorder buffer *)

(** What the sender numbered: message [k] of the list travels with sequence number
    [k]. *)
Definition seq_cell (hash : bytes → bytes) (key : bytes) (k : Z) (payload : bytes) : bytes :=
  be_put 8 (feistel_encrypt hash key k) ++ payload.

(** An arriving cell: which message it carries, from which circuit, and the two
    clock reads of [moor_conflux_receive]. *)
Record arrival := mk_arrival { a_index : nat; a_from : Z; a_now : Z; a_now2 : Z }.

Fixpoint conflux_run (hash : bytes → bytes) (msgs : list (Z * bytes)) (cs : moor_conflux_set_t)
    (arrs : list arrival) : list (Z * bytes) * moor_conflux_set_t :=
  match arrs with
  | [] => ([], cs)
  | a :: arrs =>
      match msgs !! a_index a with
      | None => conflux_run hash msgs cs arrs
      | Some (sid, payload) =>
          let '(outs, cs) := conflux_client_data hash cs (a_from a) sid
              (seq_cell hash (seq_key cs) (Z.of_nat (a_index a)) payload) (a_now a) (a_now2 a) in
          let '(outs', cs) := conflux_run hash msgs cs arrs in (outs ++ outs', cs)
      end
  end.

(** The sequence numbers held by the buffer. *)
Definition valid_seqs (es : list moor_conflux_reorder_entry_t) : list Z :=
  omap (λ e, if re_valid e then Some (re_seq e) else None) es.

Lemma valid_seqs_app es es' : valid_seqs (es ++ es') = valid_seqs es ++ valid_seqs es'.
Proof. apply omap_app. Qed.

Lemma valid_seqs_middle es i e x : es !! i = Some e →
  valid_seqs es ≡ₚ valid_seqs [e] ++ valid_seqs (take i es ++ drop (S i) es) ∧
  valid_seqs (<[i := x]> es) ≡ₚ valid_seqs [x] ++ valid_seqs (take i es ++ drop (S i) es).
Proof.
  intros Hi. rewrite insert_take_drop by (by eapply lookup_lt_Some).
  rewrite <- (take_drop_middle es i e Hi) at 1.
  rewrite (cons_middle e), (cons_middle x), !valid_seqs_app.
  split; rewrite !app_assoc; f_equiv; apply Permutation_app_comm.
Qed.

Lemma valid_seqs_consume es i e : es !! i = Some e → re_valid e = true →
  valid_seqs es ≡ₚ re_seq e :: valid_seqs (<[i := {| e with re_valid := false |}]> es).
Proof.
  intros Hi He. destruct (valid_seqs_middle es i e {| e with re_valid := false |} Hi) as [-> ->].
  simpl. by rewrite He.
Qed.

Lemma valid_seqs_store es i e x : es !! i = Some e → re_valid e = false → re_valid x = true →
  valid_seqs (<[i := x]> es) ≡ₚ re_seq x :: valid_seqs es.
Proof.
  intros Hi He Hx. destruct (valid_seqs_middle es i e x Hi) as [-> ->].
  simpl. by rewrite He, Hx.
Qed.

Lemma elem_of_valid_seqs es k :
  k ∈ valid_seqs es ↔ ∃ e, e ∈ es ∧ re_valid e = true ∧ re_seq e = k.
Proof.
  unfold valid_seqs. rewrite list_elem_of_omap. split; intros (e & He & Hk); exists e.
  - destruct (re_valid e); naive_solver.
  - destruct Hk as [-> ->]. done.
Qed.

Lemma length_valid_seqs es : (length (valid_seqs es) <= length es)%nat.
Proof. induction es as [|e es IH]; simpl; [lia|]. destruct (re_valid e); simpl; lia. Qed.

Lemma valid_seqs_full es :
  Forall (λ e, negb (re_valid e) = false) es → length (valid_seqs es) = length es.
Proof.
  induction 1 as [|e es He _ IH]; simpl; [done|]. destruct (re_valid e); [|done].
  simpl. by rewrite IH.
Qed.

Lemma existsb_seq es k :
  existsb (λ e, re_valid e && (re_seq e =? k)) es = bool_decide (k ∈ valid_seqs es).
Proof.
  apply eq_true_iff_eq. rewrite existsb_exists, bool_decide_eq_true, elem_of_valid_seqs.
  split; intros (e & He & Hk); exists e; rewrite ?list_elem_of_In in *.
  - apply andb_true_iff in Hk as [? ?%Z.eqb_eq]. done.
  - destruct Hk as [-> ->]. rewrite Z.eqb_refl. done.
Qed.

Lemma find_seq_None es k :
  find_index (λ e, re_valid e && (re_seq e =? k)) es = None ↔ k ∉ valid_seqs es.
Proof.
  rewrite find_index_None, elem_of_valid_seqs, Forall_forall. split.
  - intros H (e & He & Hv & <-). specialize (H e He). rewrite Hv, Z.eqb_refl in H. done.
  - intros H e He. apply not_true_iff_false. intros [? ?%Z.eqb_eq]%andb_true_iff. naive_solver.
Qed.

Section Delivery.
  Context (hash : bytes → bytes) (hash_bytes : ∀ m, bytes_ok (hash m)).
  Context (msgs : list (Z * bytes)) (msgs_few : Z.of_nat (length msgs) < UINT64_MAX).
  Context (msgs_small : Forall (λ m, (length m.2 <= CONFLUX_DATA)%nat) msgs).

(** Messages [a], ..., [b - 1]. *)
Definition seg (a b : Z) : list (Z * bytes) := take (Z.to_nat (b - a)) (drop (Z.to_nat a) msgs).

Definition entry_sound (e : moor_conflux_reorder_entry_t) : Prop :=
  re_valid e = true →
  0 <= re_seq e ∧ msgs !! Z.to_nat (re_seq e) = Some (re_stream_id e, re_data e).

(** Every buffered entry is the message of its sequence number. *)
Record rb_inv (cs : moor_conflux_set_t) : Prop := {
  rb_length : length (reorder cs) = MOOR_CONFLUX_REORDER_BUF;
  rb_sound : Forall entry_sound (reorder cs);
  rb_next : 0 <= next_recv_seq cs <= Z.of_nat (length msgs);
}.

(** Receiving and draining change the buffer and the counter only. *)
Definition same_set (cs cs' : moor_conflux_set_t) : Prop :=
  cs' = {| cs with reorder := reorder cs'; next_recv_seq := next_recv_seq cs' |}.

Lemma same_set_trans cs1 cs2 cs3 : same_set cs1 cs2 → same_set cs2 cs3 → same_set cs1 cs3.
Proof. unfold same_set. intros H ->. simpl. rewrite H. done. Qed.

Lemma seg_nil a : seg a a = [].
Proof. unfold seg. by rewrite Z.sub_diag. Qed.

Lemma seg_cons a b m : 0 <= a < b → msgs !! Z.to_nat a = Some m → seg a b = m :: seg (a + 1) b.
Proof.
  intros Hab Hm. unfold seg. rewrite (drop_S _ _ _ Hm).
  replace (Z.to_nat (b - a)) with (S (Z.to_nat (b - (a + 1)))) by lia.
  simpl. do 3 f_equal. lia.
Qed.

Lemma seg_app a b c : 0 <= a <= b → b <= c → seg a b ++ seg b c = seg a c.
Proof.
  intros Hab Hbc. unfold seg.
  replace (Z.to_nat b) with (Z.to_nat a + Z.to_nat (b - a))%nat by lia.
  rewrite <- drop_drop.
  replace (Z.to_nat (c - a)) with (Z.to_nat (b - a) + Z.to_nat (c - b))%nat by lia.
  by rewrite take_take_drop.
Qed.

Lemma seg_all n : seg 0 n = take (Z.to_nat n) msgs.
Proof. unfold seg. by rewrite Z.sub_0_r. Qed.

Lemma lookup_seq_bound k m : 0 <= k → msgs !! Z.to_nat k = Some m →
  k < Z.of_nat (length msgs) ∧ is_u64 k ∧ (length m.2 <= CONFLUX_DATA)%nat.
Proof.
  intros Hk Hm. pose proof (lookup_lt_Some _ _ _ Hm).
  unfold UINT64_MAX, is_u64 in *. split; [lia|]. split; [lia|].
  by apply (Forall_lookup_1 _ _ _ _ msgs_small Hm).
Qed.

(** A delivery hands out exactly the next message. *)
Lemma deliver_spec cs : rb_inv cs →
  ((next_recv_seq cs ∉ valid_seqs (reorder cs)) ∧
   moor_conflux_deliver cs MOOR_RELAY_DATA = (None, cs)) ∨
  (∃ m es, msgs !! Z.to_nat (next_recv_seq cs) = Some m ∧
     let cs' := {| cs with reorder := es; next_recv_seq := next_recv_seq cs + 1 |} in
     moor_conflux_deliver cs MOOR_RELAY_DATA = (Some m, cs') ∧ rb_inv cs' ∧
     valid_seqs (reorder cs) ≡ₚ next_recv_seq cs :: valid_seqs es).
Proof.
  intros [Hlen Hsound Hnext]. unfold moor_conflux_deliver.
  destruct (find_index _ _) as [i|] eqn:Hf; [right|left; by apply find_seq_None in Hf].
  apply find_index_Some in Hf as (e & Hi & [Hv Hs%Z.eqb_eq]%andb_true_iff & _). rewrite Hi.
  destruct (Forall_lookup_1 _ _ _ _ Hsound Hi Hv) as [He0 He].
  destruct (lookup_seq_bound _ _ He0 He) as (Hlt & H64 & Hsz). simpl in Hsz.
  rewrite (proj2 (Nat.ltb_ge _ _)) by (unfold MOOR_RELAY_DATA, CONFLUX_DATA in *; lia).
  cbn [next_recv_seq reorder]. rewrite (proj2 (Z.eqb_neq _ _)) by lia.
  exists (re_stream_id e, re_data e), (<[i := {| e with re_valid := false |}]> (reorder cs)).
  rewrite Hs in He. split; [done|]. simpl.
  rewrite u64_small by (unfold is_u64, UINT64_MAX in *; lia). split; [done|]. split.
  - split; simpl; [by rewrite length_insert| |lia]. by apply Forall_insert.
  - rewrite <- Hs at 1. by apply valid_seqs_consume.
Qed.

(** Draining hands out the longest run of consecutive buffered messages and stops
    only when the next one is not there: 33 rounds are enough. *)
Lemma drain_spec fuel cs : rb_inv cs → (length (valid_seqs (reorder cs)) < fuel)%nat →
  ∃ cs', conflux_drain fuel cs = (seg (next_recv_seq cs) (next_recv_seq cs'), cs') ∧
    rb_inv cs' ∧ same_set cs cs' ∧ next_recv_seq cs <= next_recv_seq cs' ∧
    (next_recv_seq cs' ∉ valid_seqs (reorder cs')) ∧
    valid_seqs (reorder cs) ≡ₚ
      seqZ (next_recv_seq cs) (next_recv_seq cs' - next_recv_seq cs) ++ valid_seqs (reorder cs').
Proof.
  revert cs. induction fuel as [|fuel IH]; intros cs Hinv Hfuel; [lia|]. cbn [conflux_drain].
  destruct (deliver_spec cs Hinv) as [[Hno ->]|(m & es & Hm & -> & Hinv' & Hperm)].
  - exists cs. rewrite seg_nil, Z.sub_diag. simpl. split_and!; [done|done|by destruct cs|lia|done|done].
  - pose proof (Permutation_length Hperm) as Hl. simpl in Hl.
    destruct (IH _ Hinv') as (cs' & -> & Hi & Hss & Hle & Hno & Hp); [simpl; lia|].
    cbn [next_recv_seq reorder] in *. exists cs'.
    assert (0 <= next_recv_seq cs) by apply Hinv.
    split; [by rewrite (seg_cons (next_recv_seq cs) _ m) by (lia || done)|].
    split_and!; [done| |lia|done|].
    { unfold same_set in *. rewrite Hss. by destruct cs. }
    rewrite Hperm, Hp. rewrite (seqZ_cons (next_recv_seq cs)) by lia.
    replace (Z.succ (next_recv_seq cs)) with (next_recv_seq cs + 1) by lia.
    replace (Z.pred (next_recv_seq cs' - next_recv_seq cs))
      with (next_recv_seq cs' - (next_recv_seq cs + 1)) by lia. done.
Qed.

Lemma expire_entry_sound now timeout es : Forall entry_sound es →
  Forall entry_sound
    (map (λ e, if entry_stale now timeout e then {| e with re_valid := false |} else e) es).
Proof.
  intros H. induction H as [|e es He _ IH]; simpl; constructor; [|done].
  by destruct (entry_stale now timeout e).
Qed.

Lemma min_buffered_spec es :
  min_buffered es = UINT64_MAX ∨ min_buffered es ∈ valid_seqs es.
Proof.
  unfold min_buffered. generalize UINT64_MAX as m. induction es as [|e es IH]; intros m; simpl; [by left|].
  destruct (re_valid e); simpl; [|apply IH].
  destruct (re_seq e <? m); [|destruct (IH m); [by left|right; by right]].
  right. destruct (IH (re_seq e)) as [->|]; [left|by right].
Qed.

(** Expiry keeps the invariant and never moves the counter back. *)
Lemma expire_spec cs now : rb_inv cs →
  rb_inv (conflux_expire cs now) ∧ same_set cs (conflux_expire cs now) ∧
  next_recv_seq cs <= next_recv_seq (conflux_expire cs now).
Proof.
  intros [Hlen Hsound Hnext]. unfold conflux_expire.
  set (timeout := if 0 <? reorder_timeout_ms cs then _ else _). clearbody timeout.
  set (es := map _ _). assert (Forall entry_sound es) as Hes by by apply expire_entry_sound.
  assert (length es = MOOR_CONFLUX_REORDER_BUF) as Hl by (unfold es; by rewrite length_map).
  clearbody es. set (n := if _ && _ then _ else _).
  assert (next_recv_seq cs <= n <= Z.of_nat (length msgs)) as Hn.
  { subst n. destruct (_ && _) eqn:Hc; [|lia].
    apply andb_true_iff in Hc as [[_ Hm%negb_true_iff%Z.eqb_neq]%andb_true_iff Hlt%Z.ltb_lt].
    destruct (min_buffered_spec es) as [?|(e & He & Hv & Heq)%elem_of_valid_seqs]; [done|].
    destruct (proj1 (Forall_forall _ _) Hes e He Hv) as [He0 He'].
    destruct (lookup_seq_bound _ _ He0 He'). lia. }
  clearbody n. split_and!; simpl; [split; simpl; [done|done|lia]|by destruct cs|lia].
Qed.

Definition from_leg (cs : moor_conflux_set_t) (p : Z) : bool :=
  existsb (λ l, bool_decide (leg_circuit l = Some p) && leg_active l) (legs cs).

(** The three outcomes of receiving message [i], [cs1] being the state after expiry. *)
Lemma receive_spec cs p (i : nat) sid payload now now2 :
  rb_inv cs → msgs !! i = Some (sid, payload) →
  let cs1 := conflux_expire cs now in
  let k := Z.of_nat i in
  let r := moor_conflux_receive hash cs (Some p) (feistel_encrypt hash (seq_key cs) k) sid
             (Some payload) now now2 in
  (r = (-1, cs1) ∧
   (from_leg cs1 p = false ∨ k < next_recv_seq cs1 ∨ next_recv_seq cs1 + 32 <= k ∨
    k ∈ valid_seqs (reorder cs1) ∨ length (valid_seqs (reorder cs1)) = MOOR_CONFLUX_REORDER_BUF)) ∨
  (r = (1, {| cs1 with next_recv_seq := k + 1 |}) ∧ k = next_recv_seq cs1) ∨
  (∃ j e, let es := <[j := mk_reorder k sid payload true now2]> (reorder cs1) in
     r = (0, {| cs1 with reorder := es |}) ∧ reorder cs1 !! j = Some e ∧ re_valid e = false ∧
     next_recv_seq cs1 < k < next_recv_seq cs1 + 32 ∧ (k ∉ valid_seqs (reorder cs1))).
Proof.
  intros Hinv Hm. cbv zeta. destruct (expire_spec cs now Hinv) as (Hinv1 & Hss & _).
  destruct (lookup_seq_bound (Z.of_nat i) (sid, payload)) as (Hlt & H64 & Hsz);
    [lia|by rewrite Nat2Z.id|]. simpl in Hsz.
  unfold moor_conflux_receive. rewrite feistel_decrypt_encrypt by done.
  change (existsb _ (legs (conflux_expire cs now))) with (from_leg (conflux_expire cs now) p).
  set (cs1 := conflux_expire cs now) in *. clearbody cs1. destruct Hinv1 as [Hl1 Hs1 Hn1].
  destruct (from_leg cs1 p); simpl; [|left; by split; [|left]].
  destruct (Z.eqb_spec (Z.of_nat i) (next_recv_seq cs1)) as [Heq|Hne].
  { rewrite (proj2 (Z.eqb_neq _ _)) by (rewrite <- Heq; unfold UINT64_MAX in *; lia).
    right; left. rewrite <- Heq, u64_small by (unfold is_u64, UINT64_MAX in *; lia). done. }
  destruct (Z.ltb_spec (Z.of_nat i) (next_recv_seq cs1)); [left; split; [done|by right; left]|].
  change (Z.of_nat MOOR_CONFLUX_REORDER_BUF) with 32.
  destruct (Z.leb_spec 32 (Z.of_nat i - next_recv_seq cs1)); [left; split; [done|right; right; left; lia]|].
  rewrite existsb_seq. case_bool_decide as Hin; [left; split; [done|by right; right; right; left]|].
  destruct (find_index _ _) as [j|] eqn:Hf.
  - apply find_index_Some in Hf as (e & Hj & He%negb_true_iff & _).
    rewrite (proj2 (Nat.ltb_ge _ _)) by done. right; right. exists j, e. split_and!; [done..|lia|lia|done].
  - left. split; [done|]. do 4 right. apply find_index_None in Hf.
    by rewrite valid_seqs_full, Hl1.
Qed.

Lemma seq_cell_parse key k payload :
  be_get (take 8 (seq_cell hash key k payload)) = feistel_encrypt hash key k ∧
  drop 8 (seq_cell hash key k payload) = payload.
Proof.
  unfold seq_cell. rewrite take_app_length', drop_app_length' by (by rewrite length_be_put).
  split; [|done]. apply be_get_put_small. by apply feistel_encrypt_range.
Qed.

Lemma client_data_eq cs p (i : nat) sid payload now now2 :
  conflux_client_data hash cs p sid (seq_cell hash (seq_key cs) (Z.of_nat i) payload) now now2 =
  match moor_conflux_receive hash cs (Some p) (feistel_encrypt hash (seq_key cs) (Z.of_nat i)) sid
          (Some payload) now now2 with
  | (1, cs) => let '(outs, cs) := conflux_drain (S MOOR_CONFLUX_REORDER_BUF) cs in
               ((sid, payload) :: outs, cs)
  | (0, cs) => conflux_drain (S MOOR_CONFLUX_REORDER_BUF) cs
  | (_, cs) => ([], cs)
  end.
Proof.
  unfold conflux_client_data.
  by destruct (seq_cell_parse (seq_key cs) (Z.of_nat i) payload) as [-> ->].
Qed.

Lemma rb_inv_fuel cs : rb_inv cs → (length (valid_seqs (reorder cs)) < S MOOR_CONFLUX_REORDER_BUF)%nat.
Proof. intros [H _ _]. pose proof (length_valid_seqs (reorder cs)). lia. Qed.

(** Where message [k] is the next one, it and the run behind it are delivered. *)
Lemma drain_after_accept cs (i : nat) sid payload :
  rb_inv cs → msgs !! i = Some (sid, payload) → Z.of_nat i = next_recv_seq cs →
  ∃ cs', conflux_drain (S MOOR_CONFLUX_REORDER_BUF) {| cs with next_recv_seq := Z.of_nat i + 1 |} =
      (seg (Z.of_nat i + 1) (next_recv_seq cs'), cs') ∧
    (sid, payload) :: seg (Z.of_nat i + 1) (next_recv_seq cs') =
      seg (next_recv_seq cs) (next_recv_seq cs') ∧
    rb_inv cs' ∧ same_set cs cs' ∧ next_recv_seq cs < next_recv_seq cs' ∧
    (next_recv_seq cs' ∉ valid_seqs (reorder cs')) ∧
    valid_seqs (reorder cs) ≡ₚ
      seqZ (next_recv_seq cs + 1) (next_recv_seq cs' - (next_recv_seq cs + 1)) ++
      valid_seqs (reorder cs').
Proof.
  intros [Hl Hs Hn] Hm Heq. destruct (lookup_seq_bound (Z.of_nat i) (sid, payload)) as [Hlt _];
    [lia|by rewrite Nat2Z.id|].
  assert (rb_inv {| cs with next_recv_seq := Z.of_nat i + 1 |}) as Hinv by (split; simpl; [done..|lia]).
  destruct (drain_spec _ _ Hinv (rb_inv_fuel _ Hinv)) as (cs' & -> & Hi & Hss & Hle & Hno & Hp).
  cbn [next_recv_seq reorder] in *. exists cs'. split; [done|]. split.
  { rewrite <- Heq. symmetry. apply seg_cons; [lia|by rewrite Nat2Z.id]. }
  split; [done|]. split; [unfold same_set in *; rewrite Hss; by destruct cs|].
  split; [lia|]. split; [done|]. by rewrite <- Heq.
Qed.

Lemma drain_after_buffer cs j e (i : nat) sid payload now2 :
  rb_inv cs → msgs !! i = Some (sid, payload) → reorder cs !! j = Some e → re_valid e = false →
  let cs1 := {| cs with reorder := <[j := mk_reorder (Z.of_nat i) sid payload true now2]> (reorder cs) |} in
  rb_inv cs1 ∧ valid_seqs (reorder cs1) ≡ₚ Z.of_nat i :: valid_seqs (reorder cs).
Proof.
  intros [Hl Hs Hn] Hm Hj He. split.
  - split; simpl; [by rewrite length_insert| |done]. apply Forall_insert; [done|].
    intros _. simpl. rewrite Nat2Z.id. split; [lia|done].
  - by apply (valid_seqs_store _ _ _ (mk_reorder (Z.of_nat i) sid payload true now2) Hj).
Qed.

(** Whatever arrives, and whatever expires, what is handed out is a run of messages
    past the counter. *)
Lemma client_data_safe cs p (i : nat) sid payload now now2 :
  rb_inv cs → msgs !! i = Some (sid, payload) →
  ∃ mid cs', conflux_client_data hash cs p sid
      (seq_cell hash (seq_key cs) (Z.of_nat i) payload) now now2 = (seg mid (next_recv_seq cs'), cs') ∧
    next_recv_seq cs <= mid <= next_recv_seq cs' ∧ rb_inv cs' ∧ same_set cs cs'.
Proof.
  intros Hinv Hm. rewrite client_data_eq. destruct (expire_spec cs now Hinv) as (Hi1 & Hss1 & Hle1).
  destruct (receive_spec cs p i sid payload now now2 Hinv Hm)
    as [[-> _]|[[-> Heq]|(j & e & -> & Hj & He & _)]].
  - exists (next_recv_seq (conflux_expire cs now)), (conflux_expire cs now). rewrite seg_nil.
    split_and!; [done|lia|lia|done|done].
  - destruct (drain_after_accept _ i sid payload Hi1 Hm Heq) as (cs' & -> & -> & Hi' & Hss & Hlt & _).
    eexists _, cs'. split_and!; [done|lia|lia|done|]. by apply (same_set_trans _ _ _ Hss1).
  - destruct (drain_after_buffer _ j e i sid payload now2 Hi1 Hm Hj He) as [Hi2 _].
    destruct (drain_spec _ _ Hi2 (rb_inv_fuel _ Hi2)) as (cs' & -> & Hi' & Hss & Hle & _).
    cbn [next_recv_seq] in *. eexists _, cs'. split_and!; [done|lia|lia|done|].
    apply (same_set_trans _ _ _ Hss1). unfold same_set in *. rewrite Hss. by destruct (conflux_expire cs now).
Qed.

Lemma conflux_run_sublist cs arrs : rb_inv cs →
  (conflux_run hash msgs cs arrs).1 `sublist_of` drop (Z.to_nat (next_recv_seq cs)) msgs.
Proof.
  revert cs. induction arrs as [|a arrs IH]; intros cs Hinv; simpl; [apply sublist_nil_l|].
  destruct (msgs !! a_index a) as [[sid payload]|] eqn:Hm; [|by apply IH].
  destruct (client_data_safe cs (a_from a) (a_index a) sid payload (a_now a) (a_now2 a) Hinv Hm)
    as (mid & cs' & -> & Hmid & Hinv' & Hss).
  specialize (IH cs' Hinv'). destruct (conflux_run hash msgs cs' arrs) as [outs cs'']. simpl in *.
  assert (0 <= next_recv_seq cs) by apply Hinv.
  etrans; [|apply (sublist_drop _ (Z.to_nat (mid - next_recv_seq cs)))].
  rewrite drop_drop. replace (Z.to_nat (next_recv_seq cs) + Z.to_nat (mid - next_recv_seq cs))%nat
    with (Z.to_nat mid) by lia.
  rewrite <- (take_drop (Z.to_nat (next_recv_seq cs' - mid)) (drop (Z.to_nat mid) msgs)).
  apply sublist_app; [done|]. rewrite drop_drop.
  by replace (Z.to_nat mid + Z.to_nat (next_recv_seq cs' - mid))%nat
    with (Z.to_nat (next_recv_seq cs')) by lia.
Qed.

(** *** Without expiry: the abstract receiver

    [seen] is the set of messages that arrived. The counter is the first one that
    did not, and the buffer holds exactly the later ones that did. *)
Definition fresh (t0 t : Z) (e : moor_conflux_reorder_entry_t) : Prop :=
  re_valid e = true → t0 <= re_buffered_at e <= t.

Record rb_seen (seen : list nat) (cs : moor_conflux_set_t) : Prop := {
  seen_nodup : NoDup (valid_seqs (reorder cs));
  seen_window : ∀ k, k ∈ valid_seqs (reorder cs) → next_recv_seq cs < k < next_recv_seq cs + 32;
  seen_buffered : ∀ i, next_recv_seq cs <= Z.of_nat i →
    (Z.of_nat i ∈ valid_seqs (reorder cs) ↔ i ∈ seen);
  seen_delivered : ∀ i, Z.of_nat i < next_recv_seq cs → i ∈ seen;
}.

Lemma deliver_Forall (P : moor_conflux_reorder_entry_t → Prop) cs n :
  (∀ e, P e → P {| e with re_valid := false |}) → Forall P (reorder cs) →
  Forall P (reorder (moor_conflux_deliver cs n).2).
Proof.
  intros HP H. unfold moor_conflux_deliver. destruct (find_index _ _) as [i|]; [|done].
  destruct (reorder cs !! i) as [e|] eqn:Hi; [|done].
  destruct (n <? length (re_data e))%nat; [done|].
  destruct (_ =? _); simpl; (apply Forall_insert; [done|]; apply HP; by apply (Forall_lookup_1 _ _ _ _ H Hi)).
Qed.

Lemma drain_Forall (P : moor_conflux_reorder_entry_t → Prop) fuel cs :
  (∀ e, P e → P {| e with re_valid := false |}) → Forall P (reorder cs) →
  Forall P (reorder (conflux_drain fuel cs).2).
Proof.
  intros HP. revert cs. induction fuel as [|fuel IH]; intros cs H; [done|]. cbn [conflux_drain].
  pose proof (deliver_Forall P cs MOOR_RELAY_DATA HP H) as H'.
  destruct (moor_conflux_deliver _ _) as [[m|] cs']; [|done].
  specialize (IH cs' H'). by destruct (conflux_drain fuel cs').
Qed.

Lemma expire_fresh cs t0 t now : 0 <= t0 → t <= now → now < 2 ^ 64 →
  now - t0 <= reorder_timeout_ms cs → Forall (fresh t0 t) (reorder cs) →
  conflux_expire cs now = cs.
Proof.
  intros Ht0 Ht Hnow Hto Hf. unfold conflux_expire.
  set (timeout := if 0 <? reorder_timeout_ms cs then _ else _).
  assert (now - t0 <= timeout) as Hto' by (unfold timeout; destruct (Z.ltb_spec 0 (reorder_timeout_ms cs)); lia).
  assert (Forall (λ e, entry_stale now timeout e = false) (reorder cs)) as Hs.
  { eapply Forall_impl; [exact Hf|]. intros e He. unfold entry_stale.
    destruct (re_valid e) eqn:Hv; [|done]. specialize (He Hv). simpl. apply Z.ltb_ge.
    rewrite u64_small by (unfold is_u64; lia). lia. }
  clear Hf. clearbody timeout.
  assert (existsb (entry_stale now timeout) (reorder cs) = false) as ->.
  { apply not_true_iff_false. intros (e & He & Hv)%existsb_exists.
    rewrite Forall_forall in Hs. rewrite Hs in Hv; [done|by apply list_elem_of_In]. }
  assert (map (λ e, if entry_stale now timeout e then {| e with re_valid := false |} else e)
            (reorder cs) = reorder cs) as ->.
  { induction Hs as [|e es He _ IH]; simpl; [done|]. by rewrite He, IH. }
  by destruct cs.
Qed.

(** The buffer always has room for a message inside the window. *)
Lemma window_room cs seen : rb_seen seen cs →
  (length (valid_seqs (reorder cs)) < MOOR_CONFLUX_REORDER_BUF)%nat.
Proof.
  intros Hs. assert (valid_seqs (reorder cs) ⊆+ seqZ (next_recv_seq cs + 1) 31) as Hsub.
  { apply NoDup_submseteq; [apply Hs|]. intros k Hk. apply elem_of_seqZ.
    pose proof (seen_window _ _ Hs k Hk). lia. }
  apply submseteq_length in Hsub. rewrite length_seqZ in Hsub. unfold MOOR_CONFLUX_REORDER_BUF. lia.
Qed.

Lemma seen_again seen cs i : rb_seen seen cs → i ∈ seen → rb_seen (i :: seen) cs.
Proof.
  intros [H1 H2 H3 H4] Hin. split; [done|done| |].
  - intros i' Hi'. rewrite H3 by done. rewrite elem_of_cons. split; [by right|]. by intros [->|].
  - intros i' Hi'. right. auto.
Qed.

Lemma seen_accept seen cs cs' (i : nat) : rb_seen seen cs → Z.of_nat i = next_recv_seq cs →
  next_recv_seq cs < next_recv_seq cs' → (next_recv_seq cs' ∉ valid_seqs (reorder cs')) →
  valid_seqs (reorder cs) ≡ₚ
    seqZ (next_recv_seq cs + 1) (next_recv_seq cs' - (next_recv_seq cs + 1)) ++
    valid_seqs (reorder cs') →
  rb_seen (i :: seen) cs'.
Proof.
  intros [H1 H2 H3 H4] Hi Hlt Hno Hp. rewrite Hp in H1. apply NoDup_app in H1 as (_ & Hdisj & Hnd).
  assert (∀ k, k ∈ valid_seqs (reorder cs) ↔
    next_recv_seq cs < k < next_recv_seq cs' ∨ k ∈ valid_seqs (reorder cs')) as Hk.
  { intros k. rewrite Hp, elem_of_app, elem_of_seqZ. split; intros [?|?]; (by right) || (left; lia). }
  assert (∀ k, k ∈ valid_seqs (reorder cs') → next_recv_seq cs' < k) as Hgt.
  { intros k Hin. destruct (decide (k = next_recv_seq cs')) as [->|]; [done|].
    destruct (decide (k < next_recv_seq cs')); [|lia]. exfalso.
    pose proof (H2 k (proj2 (Hk k) (or_intror Hin))). apply (Hdisj k); [apply elem_of_seqZ; lia|done]. }
  split; [done| | |].
  - intros k Hin. pose proof (Hgt k Hin). pose proof (H2 k (proj2 (Hk k) (or_intror Hin))). lia.
  - intros i' Hi'. rewrite elem_of_cons, <- H3, Hk by lia. split; [by right; right|].
    intros [->|[?|?]]; [lia|lia|done].
  - intros i' Hi'. rewrite elem_of_cons. destruct (decide (Z.of_nat i' < next_recv_seq cs)); [auto|].
    destruct (decide (i' = i)); [by left|right]. apply H3; [lia|]. apply Hk. left. lia.
Qed.

Lemma seen_buffer seen cs cs' (i : nat) : rb_seen seen cs →
  next_recv_seq cs' = next_recv_seq cs → next_recv_seq cs < Z.of_nat i < next_recv_seq cs + 32 →
  Z.of_nat i ∉ valid_seqs (reorder cs) →
  valid_seqs (reorder cs') ≡ₚ Z.of_nat i :: valid_seqs (reorder cs) → rb_seen (i :: seen) cs'.
Proof.
  intros [H1 H2 H3 H4] Hn Hi Hnew Hp. split; rewrite ?Hn.
  - rewrite Hp. by constructor.
  - intros k. rewrite Hp, elem_of_cons. intros [->|?]; [lia|auto].
  - intros i' Hi'. rewrite Hp, !elem_of_cons, H3 by done. split; intros [?|?]; auto; left; lia.
  - intros i' Hi'. right. auto.
Qed.

Lemma drain_nothing cs seen : rb_inv cs → rb_seen seen cs →
  conflux_drain (S MOOR_CONFLUX_REORDER_BUF) cs = ([], cs).
Proof.
  intros Hinv Hs. destruct (deliver_spec cs Hinv) as [[_ H]|(m & es & _ & _ & _ & Hp)].
  - cbn [conflux_drain]. by rewrite H.
  - assert (next_recv_seq cs ∈ valid_seqs (reorder cs)) as Hin by (rewrite Hp; left).
    pose proof (seen_window _ _ Hs _ Hin). lia.
Qed.

(** A message within the window is taken in: delivered with the run behind it, or
    buffered. *)
Lemma client_data_seen cs p (i : nat) sid payload now now2 seen t0 t :
  rb_inv cs → rb_seen seen cs → Forall (fresh t0 t) (reorder cs) →
  msgs !! i = Some (sid, payload) → from_leg cs p = true → Z.of_nat i < next_recv_seq cs + 32 →
  0 <= t0 → t <= now <= now2 → now2 < 2 ^ 64 → t0 <= now2 → now2 - t0 <= reorder_timeout_ms cs →
  ∃ cs', conflux_client_data hash cs p sid
      (seq_cell hash (seq_key cs) (Z.of_nat i) payload) now now2 =
      (seg (next_recv_seq cs) (next_recv_seq cs'), cs') ∧
    next_recv_seq cs <= next_recv_seq cs' ∧
    rb_inv cs' ∧ same_set cs cs' ∧ rb_seen (i :: seen) cs' ∧ Forall (fresh t0 now2) (reorder cs').
Proof.
  intros Hinv Hseen Hfresh Hm Hleg Hwin Ht0 Hnow Hn2 Ht2 Hto. rewrite client_data_eq.
  pose proof (receive_spec cs p i sid payload now now2 Hinv Hm) as Hr. cbv zeta in Hr.
  rewrite (expire_fresh cs t0 t now) in Hr by (lia || done).
  assert (Forall (fresh t0 now2) (reorder cs)) as Hf2.
  { eapply Forall_impl; [exact Hfresh|]. intros e He Hv. specialize (He Hv). lia. }
  destruct Hr as [[-> Hrej]|[[-> Heq]|(j & e & -> & Hj & He & Hk & Hnew)]].
  - exists cs. rewrite seg_nil. split_and!; [done|lia|done|by destruct cs| |done].
    apply seen_again; [done|]. pose proof (window_room cs seen Hseen) as Hroom.
    destruct Hrej as [?|[?|[?|[Hin|?]]]]; [congruence|by apply (seen_delivered _ _ Hseen)|lia| |lia].
    apply (seen_buffered _ _ Hseen); [|done]. pose proof (seen_window _ _ Hseen _ Hin). lia.
  - destruct (drain_after_accept cs i sid payload Hinv Hm Heq)
      as (cs' & Hd & Hseg & Hi' & Hss & Hlt & Hno & Hp). rewrite Hd, Hseg.
    exists cs'. split_and!; [done|lia|done|done|by apply (seen_accept seen cs)|].
    pose proof (drain_Forall (fresh t0 now2) (S MOOR_CONFLUX_REORDER_BUF)
        {| cs with next_recv_seq := Z.of_nat i + 1 |} ltac:(done) Hf2) as H. by rewrite Hd in H.
  - destruct (drain_after_buffer cs j e i sid payload now2 Hinv Hm Hj He) as [Hi1 Hp1].
    set (cs1 := {| cs with reorder := _ |}) in *.
    assert (rb_seen (i :: seen) cs1) as Hs1 by by apply (seen_buffer seen cs).
    rewrite (drain_nothing cs1 _ Hi1 Hs1). exists cs1. rewrite seg_nil.
    split_and!; [done|simpl; lia|done|by destruct cs|done|]. apply Forall_insert; [done|].
    intros _. simpl. lia.
Qed.

(** Clock reads that never go back and stay below [t1]. *)
Fixpoint clock_ok (t t1 : Z) (arrs : list arrival) : Prop :=
  match arrs with
  | [] => True
  | a :: arrs => t <= a_now a <= a_now2 a ∧ a_now2 a <= t1 ∧ clock_ok (a_now2 a) t1 arrs
  end.

(** No message overtakes another by the size of the buffer: when one arrives, all
    those 32 or more places before it have arrived. *)
Fixpoint windowed (seen : list nat) (arrs : list arrival) : Prop :=
  match arrs with
  | [] => True
  | a :: arrs => (∀ j, (j + 32 <= a_index a)%nat → j ∈ seen) ∧ windowed (a_index a :: seen) arrs
  end.

Lemma conflux_run_seen cs arrs seen t0 t t1 :
  rb_inv cs → rb_seen seen cs → Forall (fresh t0 t) (reorder cs) →
  Forall (λ a, (a_index a < length msgs)%nat ∧ from_leg cs (a_from a) = true) arrs →
  0 <= t0 <= t → t1 < 2 ^ 64 → t1 - t0 <= reorder_timeout_ms cs →
  clock_ok t t1 arrs → windowed seen arrs →
  ∃ cs', conflux_run hash msgs cs arrs = (seg (next_recv_seq cs) (next_recv_seq cs'), cs') ∧
    next_recv_seq cs <= next_recv_seq cs' ∧ rb_inv cs' ∧ rb_seen (rev (map a_index arrs) ++ seen) cs'.
Proof.
  revert cs seen t. induction arrs as [|a arrs IH];
    intros cs seen t Hinv Hseen Hfresh Hok Ht0 Ht1 Hto Hclock Hwin.
  { exists cs. simpl. rewrite seg_nil. split_and!; [done|lia|done|done]. }
  simpl. apply Forall_cons in Hok as [[Hlt Hleg] Hok].
  destruct Hclock as (Hnow & Hn2 & Hclock), Hwin as [Hw Hwin].
  destruct (lookup_lt_is_Some_2 _ _ Hlt) as [[sid payload] Hm]. rewrite Hm.
  assert (0 <= next_recv_seq cs) as Hpos by apply Hinv.
  assert (Z.of_nat (a_index a) < next_recv_seq cs + 32) as Hw32.
  { destruct (decide (Z.of_nat (a_index a) < next_recv_seq cs + 32)) as [|Hge]; [done|]. exfalso.
    assert (Z.to_nat (next_recv_seq cs) ∈ seen) as Hin by (apply Hw; lia).
    apply (seen_buffered _ _ Hseen) in Hin; [|lia].
    pose proof (seen_window _ _ Hseen _ Hin). lia. }
  destruct (client_data_seen cs (a_from a) (a_index a) sid payload (a_now a) (a_now2 a) seen t0 t)
    as (cs1 & -> & Hle1 & Hinv1 & Hss & Hseen1 & Hf1); [done..|lia|lia|lia|lia|lia|].
  destruct (IH cs1 (a_index a :: seen) (a_now2 a)) as (cs' & -> & Hle & Hinv' & Hseen');
    [done|done|done| |lia|done| |done|done|].
  { rewrite Hss. exact Hok. }
  { rewrite Hss. exact Hto. }
  exists cs'. rewrite seg_app by lia. split_and!; [done|lia|done|]. by rewrite <- app_assoc.
Qed.
End Delivery.

Definition empty_buffer (cs : moor_conflux_set_t) : Prop :=
  next_recv_seq cs = 0 ∧ reorder cs = replicate MOOR_CONFLUX_REORDER_BUF empty_entry.

Lemma empty_buffer_inv msgs cs : empty_buffer cs →
  rb_inv msgs cs ∧ rb_seen [] cs ∧ (∀ t0 t, Forall (fresh t0 t) (reorder cs)).
Proof.
  intros [Hn Hr]. assert (valid_seqs (reorder cs) = []) as Hv by by rewrite Hr.
  split_and!.
  - split; [by rewrite Hr|rewrite Hr; by apply Forall_replicate|lia].
  - split; rewrite ?Hv; [constructor|set_solver|set_solver|lia].
  - intros t0 t. rewrite Hr. by apply Forall_replicate.
Qed.


Definition demo_set : moor_conflux_set_t :=
  mk_set [leg_of 7 1000; leg_of 9 500] 0 0 (replicate MOOR_CONFLUX_REORDER_BUF empty_entry)
    (zeros 32) 8000.

Definition demo_msgs : list (Z * bytes) := [(5, [1; 2]); (6, [3]); (5, [4; 5; 6])].


(** Whatever arrives on whatever circuits, in whatever order and at whatever times,
    also when buffered cells expire and the receiver skips over lost ones, the data
    handed to the application is a subsequence of the sent messages: nothing is
    delivered twice, out of order or under another stream. *)
Theorem conflux_never_reorders hash msgs cs arrs :
  (∀ m, bytes_ok (hash m)) →
  Z.of_nat (length msgs) < UINT64_MAX →
  Forall (λ m, (length m.2 <= CONFLUX_DATA)%nat) msgs →
  empty_buffer cs →
  (conflux_run hash msgs cs arrs).1 `sublist_of` msgs.
Proof.
  intros Hhash Hfew Hsmall Hempty.
  destruct (empty_buffer_inv msgs cs Hempty) as (Hinv & _). destruct Hempty as [Hz _].
  pose proof (conflux_run_sublist hash Hhash msgs Hfew Hsmall cs arrs Hinv) as H.
  by rewrite Hz in H.
Qed.

Lemma conflux_never_reorders_witness :
  (conflux_run toy_hash demo_msgs demo_set
     [mk_arrival 1 9 10 11; mk_arrival 2 7 9000 9001; mk_arrival 0 7 9002 9003;
      mk_arrival 2 9 9000000 9000000]).1 `sublist_of` demo_msgs.
Proof.
  apply conflux_never_reorders.
  - intros m. apply be_put_ok.
  - reflexivity.
  - repeat constructor; cbv; lia.
  - split; reflexivity.
Defined.

(** The sequence-number cipher is a permutation of the 64-bit integers: decryption
    inverts encryption and encryption inverts decryption, for every key, so distinct
    sequence numbers never collide on the wire. *)
Theorem feistel_permutation hash key v :
  (∀ m, bytes_ok (hash m)) → is_u64 v →
  is_u64 (feistel_encrypt hash key v) ∧
  feistel_decrypt hash key (feistel_encrypt hash key v) = v ∧
  feistel_encrypt hash key (feistel_decrypt hash key v) = v.
Proof.
  intros Hhash Hv. split_and!; [by apply feistel_encrypt_range|by apply feistel_decrypt_encrypt|
    by apply feistel_encrypt_decrypt].
Qed.

Lemma feistel_permutation_witness :
  feistel_decrypt toy_hash (zeros 32) (feistel_encrypt toy_hash (zeros 32) 123456789012) = 123456789012.
Proof.
  apply (feistel_permutation toy_hash (zeros 32) 123456789012).
  - intros m. apply be_put_ok.
  - split; [discriminate|reflexivity].
Defined.

(** ** Sending: consecutive numbers over usable legs *)

Lemma select_rtt_spec i ls acc :
  let r := select_rtt i ls acc in
  (r = acc ∨ ∃ k l, r = (Some (i + k)%nat, leg_srtt_us l) ∧ ls !! k = Some l ∧
     leg_usable l = true ∧ leg_rtt_initialized l = true ∧ leg_srtt_us l < acc.2) ∧
  r.2 <= acc.2 ∧
  (∀ l, l ∈ ls → leg_usable l = true → leg_rtt_initialized l = true → r.2 <= leg_srtt_us l).
Proof.
  revert i acc. induction ls as [|l ls IH]; intros i acc; simpl.
  { split_and!; [by left|lia|]. intros l Hl. by apply elem_of_nil in Hl. }
  destruct (leg_usable l && leg_rtt_initialized l && (leg_srtt_us l <? acc.2)) eqn:Hc.
  - apply andb_true_iff in Hc as [[Hu Hr]%andb_true_iff Hlt%Z.ltb_lt].
    destruct (IH (S i) (Some i, leg_srtt_us l)) as (H1 & H2 & H3). simpl in *. split_and!.
    + right. destruct H1 as [->|(k & l' & -> & Hk & ? & ? & ?)].
      * exists O, l. rewrite Nat.add_0_r. done.
      * exists (S k), l'. rewrite Nat.add_succ_r. simpl. split_and!; [done..|lia].
    + lia.
    + intros l' [->|Hin]%elem_of_cons; [done|]. by apply H3.
  - destruct (IH (S i) acc) as (H1 & H2 & H3). split_and!; [|done|].
    + destruct H1 as [->|(k & l' & -> & Hk & ?)]; [by left|right].
      exists (S k), l'. rewrite Nat.add_succ_r. done.
    + intros l' [->|Hin]%elem_of_cons Hu Hr; [|by apply H3].
      rewrite Hu, Hr in Hc. simpl in Hc. apply Z.ltb_ge in Hc. lia.
Qed.

Lemma select_ratio_spec i ls acc :
  (select_ratio i ls acc).1 = acc.1 ∨
  ∃ k l, (select_ratio i ls acc).1 = Some (i + k)%nat ∧ ls !! k = Some l ∧ leg_usable l = true.
Proof.
  revert i acc. induction ls as [|l ls IH]; intros i acc; simpl; [by left|].
  destruct (leg_usable l && SFltb (leg_ratio l) acc.2) eqn:Hc.
  - apply andb_true_iff in Hc as [Hu _]. right.
    destruct (IH (S i) (Some i, leg_ratio l)) as [->|(k & l' & -> & Hk & ?)].
    + exists O, l. rewrite Nat.add_0_r. done.
    + exists (S k), l'. rewrite Nat.add_succ_r. done.
  - destruct (IH (S i) acc) as [->|(k & l' & -> & Hk & ?)]; [by left|right].
    exists (S k), l'. rewrite Nat.add_succ_r. done.
Qed.

Lemma select_leg_usable cs i : moor_conflux_select_leg cs = Some i →
  ∃ l p, legs cs !! i = Some l ∧ leg_active l = true ∧ leg_circuit l = Some p.
Proof.
  assert (∀ l, leg_usable l = true → ∃ p, leg_active l = true ∧ leg_circuit l = Some p) as Hu.
  { intros l [? [p ?]%bool_decide_eq_true]%andb_true_iff. by exists p. }
  unfold moor_conflux_select_leg.
  pose proof (select_rtt_spec 0 (legs cs) (None, UINT64_MAX)) as [H _]. cbv zeta in H.
  destruct H as [->|(k & l & -> & Hk & Hl & _)]; cbn [fst snd Nat.add].
  - pose proof (select_ratio_spec 0 (legs cs) (None, double_of (10 ^ 18))) as H.
    destruct H as [->|(k & l & -> & Hk & Hl)]; [done|]. simpl. intros [= <-].
    destruct (Hu l Hl) as (p & ? & ?). by exists l, p.
  - intros [= <-]. destruct (Hu l Hl) as (p & ? & ?). by exists l, p.
Qed.

(** A leg with a measured round-trip time: selection cannot fail. *)
Definition has_rtt_leg (cs : moor_conflux_set_t) : Prop :=
  ∃ l, l ∈ legs cs ∧ leg_usable l = true ∧ leg_rtt_initialized l = true ∧ leg_srtt_us l < UINT64_MAX.

Lemma select_leg_exists cs : has_rtt_leg cs → ∃ i, moor_conflux_select_leg cs = Some i.
Proof.
  intros (l & Hl & Hu & Hr & Hlt). unfold moor_conflux_select_leg.
  pose proof (select_rtt_spec 0 (legs cs) (None, UINT64_MAX)) as (H & _ & Hmin). cbv zeta in H, Hmin.
  specialize (Hmin l Hl Hu Hr).
  destruct H as [Heq|(k & l' & -> & _)]; [|by eexists].
  rewrite Heq in Hmin. simpl in Hmin. lia.
Qed.

(** The 490-byte pieces of a buffer. *)
Fixpoint conflux_chunks (fuel : nat) (data : bytes) : list bytes :=
  match fuel, data with
  | S fuel, _ :: _ => take CONFLUX_DATA data :: conflux_chunks fuel (drop CONFLUX_DATA data)
  | _, _ => []
  end.

Lemma concat_conflux_chunks fuel data : (length data <= fuel)%nat →
  concat (conflux_chunks fuel data) = data ∧
  Forall (λ c, (length c <= CONFLUX_DATA)%nat) (conflux_chunks fuel data).
Proof.
  revert data. induction fuel as [|fuel IH]; intros [|b data] Hlen;
    [done|simpl in Hlen; lia|done|]. cbn [conflux_chunks concat].
  destruct (IH (drop CONFLUX_DATA (b :: data))) as [-> IH2].
  { rewrite length_drop. unfold CONFLUX_DATA. cbn [length] in *. lia. }
  split; [by rewrite take_drop|]. constructor; [rewrite length_take; lia|done].
Qed.

Section SendTheory.
  Context (hash : bytes → bytes) (sid : Z).
  (** A network that records what was sent and refuses what [accepts] says. *)
  Context (accepts : Z → moor_cell_t → bool).

Definition log_transmit (p : Z) (c : moor_cell_t) (net : list (Z * moor_cell_t))
  : Z * list (Z * moor_cell_t) :=
  if accepts p c then (0, net ++ [(p, c)]) else (-1, net).

Definition data_cell (st : circ_store) (p : Z) (key : bytes) (k : Z) (chunk : bytes) : moor_cell_t :=
  moor_cell_relay (match st !! p with Some c => cf_circuit_id c | None => 0 end)
    (relay_code RELAY_DATA) sid (Some (seq_cell hash key k chunk)) (Z.of_nat (8 + length chunk)).

(** What sending does not change about the set and the circuits. *)
Definition same_paths (cs cs' : moor_conflux_set_t) (st st' : circ_store) : Prop :=
  seq_key cs' = seq_key cs ∧ (∀ p, from_leg cs' p = from_leg cs p) ∧
  (has_rtt_leg cs → has_rtt_leg cs') ∧
  (∀ p, cf_circuit_id <$> st' !! p = cf_circuit_id <$> st !! p).

Lemma same_paths_trans cs1 cs2 cs3 st1 st2 st3 :
  same_paths cs1 cs2 st1 st2 → same_paths cs2 cs3 st2 st3 → same_paths cs1 cs3 st1 st3.
Proof.
  intros (H1 & H2 & H3 & H4) (H1' & H2' & H3' & H4'). split_and!; [congruence| |auto|].
  - intros p. by rewrite H2'.
  - intros p. by rewrite H4'.
Qed.

Lemma data_cell_same cs cs' st st' p k chunk : same_paths cs cs' st st' →
  data_cell st' p (seq_key cs') k chunk = data_cell st p (seq_key cs) k chunk.
Proof.
  intros (Hk & _ & _ & Hid). unfold data_cell. rewrite Hk. specialize (Hid p).
  destruct (st' !! p), (st !! p); simplify_eq/=; congruence.
Qed.

Lemma existsb_insert_same {A} (g : A → bool) ls i l x : ls !! i = Some l → g x = g l →
  existsb g (<[i := x]> ls) = existsb g ls.
Proof.
  intros Hi Hg. rewrite insert_take_drop by (by eapply lookup_lt_Some).
  rewrite <- (take_drop_middle ls i l Hi) at 3. rewrite !existsb_app. simpl. by rewrite Hg.
Qed.

(** Counting a sent cell on leg [i]. *)
Lemma same_paths_sent cs st i l p n (m : Z) f : legs cs !! i = Some l →
  (∀ c, cf_circuit_id (f c) = cf_circuit_id c) →
  same_paths cs {| cs with next_send_seq := n;
                           legs := <[i := {| l with leg_sent_count := m |}]> (legs cs) |}
    st (alter f p st).
Proof.
  intros Hi Hf. split_and!; cbn [seq_key]; [done| | |].
  - intros p'. unfold from_leg. by apply (existsb_insert_same _ _ _ l).
  - intros (l' & [j Hj]%list_elem_of_lookup & Hl'). destruct (decide (j = i)) as [->|Hne].
    + assert (l' = l) as -> by congruence. exists {| l with leg_sent_count := m |}. split; [|exact Hl'].
      apply list_elem_of_lookup. exists i. cbn [legs]. apply list_lookup_insert_eq. by eapply lookup_lt_Some.
    + exists l'. split; [|done]. apply list_elem_of_lookup. exists j. cbn [legs]. by rewrite list_lookup_insert_ne.
  - intros p'. destruct (decide (p' = p)) as [->|Hne].
    + rewrite lookup_alter_eq. destruct (st !! p); simpl; [by rewrite Hf|done].
    + by rewrite lookup_alter_ne.
Qed.

(** The cells on the wire are the first pieces of the data, numbered consecutively
    from [k], each on a circuit that is an active leg. *)
Fixpoint numbered (cs : moor_conflux_set_t) (st : circ_store) (k : Z) (chunks : list bytes)
    (sent : list (Z * moor_cell_t)) : Prop :=
  match sent, chunks with
  | [], _ => True
  | (p, c) :: sent, chunk :: chunks =>
      from_leg cs p = true ∧ c = data_cell st p (seq_key cs) k chunk ∧
      numbered cs st (k + 1) chunks sent
  | _ :: _, [] => False
  end.

Lemma numbered_same cs cs' st st' k chunks sent : same_paths cs cs' st st' →
  numbered cs' st' k chunks sent → numbered cs st k chunks sent.
Proof.
  intros Hsame. revert k chunks. induction sent as [|[p c] sent IH]; intros k [|chunk chunks]; simpl; auto.
  intros (Hp & -> & Hs). split_and!; [|by apply data_cell_same|by apply IH].
  destruct Hsame as (_ & Hf & _). by rewrite <- Hf.
Qed.

(** One round: refused for a reason, or one numbered cell on an active leg. *)
Lemma send_one_spec cs st data net : is_u64 (next_send_seq cs) →
  (∃ cs' st', conflux_send_one hash log_transmit cs st sid data net = (-1, cs', st', net, data) ∧
     ¬ ((∀ p c, accepts p c = true) ∧ has_rtt_leg cs ∧ next_send_seq cs < UINT64_MAX)) ∨
  (∃ p cs' st', conflux_send_one hash log_transmit cs st sid data net =
      (0, cs', st', net ++ [(p, data_cell st p (seq_key cs) (next_send_seq cs) (take CONFLUX_DATA data))],
       drop CONFLUX_DATA data) ∧
     from_leg cs p = true ∧ next_send_seq cs' = next_send_seq cs + 1 ∧
     is_u64 (next_send_seq cs') ∧ same_paths cs cs' st st').
Proof.
  intros H64. unfold conflux_send_one.
  destruct (moor_conflux_select_leg cs) as [i|] eqn:Hsel.
  2: { left. eexists _, _. split; [done|]. intros (_ & Hr & _).
       destruct (select_leg_exists _ Hr). congruence. }
  destruct (select_leg_usable cs i Hsel) as (l & p & Hl & Hact & Hp). rewrite Hl, Hp.
  destruct (Z.eqb_spec (next_send_seq cs) UINT64_MAX) as [Hmax|Hmax].
  { left. eexists _, _. split; [done|]. lia. }
  assert (take (CONFLUX_DATA `min` length data) data = take CONFLUX_DATA data ∧
          drop (CONFLUX_DATA `min` length data) data = drop CONFLUX_DATA data) as [-> ->].
  { destruct (decide (CONFLUX_DATA <= length data)%nat); [by rewrite Nat.min_l|].
    rewrite Nat.min_r by lia. by rewrite !(take_ge data), !(drop_ge data) by lia. }
  assert (u16 (Z.of_nat (8 + CONFLUX_DATA `min` length data)) =
          Z.of_nat (8 + length (take CONFLUX_DATA data))) as ->.
  { rewrite length_take. apply u16_small. unfold is_u16, CONFLUX_DATA. lia. }
  fold (seq_cell hash (seq_key cs) (next_send_seq cs) (take CONFLUX_DATA data)).
  fold (data_cell st p (seq_key cs) (next_send_seq cs) (take CONFLUX_DATA data)).
  unfold log_transmit. destruct (accepts p _) eqn:Hacc; cbn -[CONFLUX_DATA data_cell].
  2: { left. eexists _, _. split; [done|]. intros (Ha & _). by rewrite Ha in Hacc. }
  right. eexists p, _, _. split; [done|]. cbn [next_send_seq].
  rewrite u64_small by (unfold is_u64, UINT64_MAX in *; lia). split_and!; [|done| |].
  - unfold from_leg. apply existsb_exists. exists l. rewrite Hact, Hp, bool_decide_true by done.
    split; [|done]. apply list_elem_of_In. by eapply list_elem_of_lookup_2.
  - unfold is_u64, UINT64_MAX in *; lia.
  - rewrite <- Hp at 1. apply same_paths_sent; [done|]. intros c. by destruct (0 <? cf_package_window c).
Qed.

Lemma send_loop_spec fuel cs st data net :
  is_u64 (next_send_seq cs) → (length data <= fuel)%nat →
  ∃ rc cs' st' sent,
    conflux_send_loop hash log_transmit fuel cs st sid data net = Some (rc, cs', st', net ++ sent) ∧
    numbered cs st (next_send_seq cs) (conflux_chunks fuel data) sent ∧
    (rc = 0 ∧ length sent = length (conflux_chunks fuel data) ∧
       next_send_seq cs' = next_send_seq cs + Z.of_nat (length sent) ∨
     rc = -1) ∧
    ((∀ p c, accepts p c = true) → has_rtt_leg cs →
     next_send_seq cs + Z.of_nat (length (conflux_chunks fuel data)) <= UINT64_MAX → rc = 0).
Proof.
  revert cs st data net. induction fuel as [|fuel IH]; intros cs st [|b data] net H64 Hlen;
    [|simpl in Hlen; lia| |];
    [exists 0, cs, st, []; rewrite app_nil_r;
       (split_and!; [done..|left; simpl; split_and!; [done|done|lia]|done])..|].
  cbn [conflux_send_loop conflux_chunks]. destruct (send_one_spec cs st (b :: data) net H64)
    as [(cs' & st' & -> & Hno)|(p & cs1 & st1 & -> & Hp & Hn & Hu & Hsame)]; cbn [Z.eqb].
  { exists (-1), cs', st', []. rewrite app_nil_r. split_and!; [done..|by right|].
    intros Ha Hr Hle. destruct Hno. split_and!; [done|done|]. cbn [length] in Hle. lia. }
  destruct (IH cs1 st1 (drop CONFLUX_DATA (b :: data))
    (net ++ [(p, data_cell st p (seq_key cs) (next_send_seq cs) (take CONFLUX_DATA (b :: data)))]) Hu)
    as (rc & cs' & st' & sent & -> & Hnum & Hrc & Hlive).
  { rewrite length_drop. unfold CONFLUX_DATA. cbn [length] in *. lia. }
  eexists rc, cs', st', (_ :: sent). rewrite <- app_assoc. split; [done|].
  rewrite Hn in *. cbn [numbered length]. split_and!; [done|done|by eapply numbered_same| |].
  - destruct Hrc as [(-> & ? & ?)| ->]; [left; split_and!; [done|lia|lia]|by right].
  - intros Ha Hr Hle. apply Hlive; [done| |lia]. by apply Hsame.
Qed.
End SendTheory.

(** Sending cuts the data into pieces of at most 490 bytes and puts them on active
    legs under consecutive, encrypted sequence numbers, starting at the set's
    counter; it always returns. Return code 0 means every piece was sent and the
    counter advanced by their number, and while the network accepts the cells, some
    leg has a measured round-trip time and the counter is not exhausted, that is
    the outcome. *)
Theorem conflux_send_numbered hash sid accepts cs st data net :
  is_u64 (next_send_seq cs) →
  ∃ rc cs' st' sent,
    let chunks := conflux_chunks (length data) data in
    moor_conflux_send_data hash (log_transmit accepts) cs st sid (Some data) net
      = Some (rc, cs', st', net ++ sent) ∧
    concat chunks = data ∧ Forall (λ c, (length c <= CONFLUX_DATA)%nat) chunks ∧
    numbered hash sid cs st (next_send_seq cs) chunks sent ∧
    (rc = 0 ∧ length sent = length chunks ∧
       next_send_seq cs' = next_send_seq cs + Z.of_nat (length sent) ∨ rc = -1) ∧
    ((∀ p c, accepts p c = true) → has_rtt_leg cs →
     next_send_seq cs + Z.of_nat (length chunks) <= UINT64_MAX → rc = 0).
Proof.
  intros H64. destruct (concat_conflux_chunks (length data) data) as [Hc Hl]; [done|].
  destruct (send_loop_spec hash sid accepts (length data) cs st data net H64)
    as (rc & cs' & st' & sent & Hrun & Hnum & Hrc & Hlive); [done|].
  exists rc, cs', st', sent. cbv zeta. unfold moor_conflux_send_data. split_and!; done.
Qed.

Lemma conflux_send_numbered_witness :
  ∃ rc cs' st' sent,
    moor_conflux_send_data toy_hash (log_transmit (λ _ _, true))
      (moor_conflux_update_rtt demo_set 1 30000)
      {[7 := mk_cf_circ 1000 true 70 None; 9 := mk_cf_circ 500 true 90 None]} 5
      (Some (repeat 1 600)) [] = Some (rc, cs', st', sent) ∧ rc = 0.
Proof.
  destruct (conflux_send_numbered toy_hash 5 (λ _ _, true) (moor_conflux_update_rtt demo_set 1 30000)
    {[7 := mk_cf_circ 1000 true 70 None; 9 := mk_cf_circ 500 true 90 None]} (repeat 1 600) [])
    as (rc & cs' & st' & sent & H & _ & _ & _ & _ & Hlive).
  - split; [discriminate|reflexivity].
  - exists rc, cs', st', sent. split; [exact H|]. apply Hlive; [reflexivity| |discriminate].
    exists {| (leg_of 9 500) with leg_srtt_us := 30000; leg_min_rtt_us := 30000;
                                  leg_rtt_initialized := true |}.
    split; [|split; [reflexivity|split; reflexivity]]. cbv. right. left.
Defined.
