(* ===== verification/Dht.v ===== *)
(** * The descriptor DHT: ring, responsible relays and the relay's store

    Models the first half of [src/src/dht.c] and [src/include/moor/dht.h]: ring
    positions and XOR distance, the choice of the relays responsible for a
    descriptor, the bounded store of descriptors with its epochs and expiry, the
    per-address rate limit and the handlers of RELAY_DHT_STORE and
    RELAY_DHT_FETCH, together with the chunking of the publisher. The PIR queries
    are in [Pir].

    BLAKE2b and the transmission of a finished cell (digest, onion layer, send) are
    parameters. One handler call reads the clock once. The arrays are modelled at
    their full size: a slot past [num_entries] keeps what it last held. *)

From S2P Require Import Prelude Cell.

Definition MOOR_DHT_REPLICAS : nat := 3.
Definition MOOR_DHT_MAX_STORED : nat := 256.
Definition MOOR_DHT_SMALL_NET_THRESH : nat := 6.
Definition MOOR_DHT_MAX_DESC_DATA : nat := Z.to_nat 32768.
Definition MOOR_DHT_EPOCH_TTL : Z := 2 * 86400.
Definition MOOR_TIME_PERIOD_SECS : Z := 86400.
Definition NODE_FLAG_RUNNING : Z := 16.
Definition DHT_STORE_RATE_SLOTS : nat := 256.
Definition DHT_STORE_RATE_INTERVAL : Z := 10.
Definition DHT_CHUNK_MAX : nat := 462.

Lemma max_desc_data : Z.of_nat MOOR_DHT_MAX_DESC_DATA = 32768.
Proof. reflexivity. Qed.
#[global] Opaque MOOR_DHT_MAX_DESC_DATA.

(** ** State *)

(** The fields of a consensus relay and of the consensus that the DHT reads. *)
Record dht_node := mk_node { nd_identity_pk : bytes; nd_flags : Z }.

Record dht_consensus := mk_dht_consensus {
  c_relays : list dht_node;
  c_srv_current : bytes;
  c_srv_previous : bytes;
}.

Record moor_dht_entry_t := mk_entry {
  de_hash : bytes;        (* uint8_t[32] *)
  de_data : bytes;        (* uint8_t[MOOR_DHT_MAX_DESC_DATA] *)
  de_data_len : Z;        (* uint16_t *)
  de_received : Z;        (* uint32_t *)
  de_stored_at : Z;       (* uint64_t *)
  de_epoch : Z;           (* uint64_t *)
}.

Record moor_dht_store_t := mk_store {
  entries : list moor_dht_entry_t;   (* [MOOR_DHT_MAX_STORED] *)
  num_entries : nat;
}.

Record moor_dht_responsible_t := mk_responsible {
  relay_indices : list nat;
  full_replication : bool;
}.

Record dht_rate_t := mk_rate { dr_hash : bytes; dr_last_store : Z; dr_circuit_id : Z }.

Definition zero_entry : moor_dht_entry_t :=
  mk_entry (zeros 32) (zeros MOOR_DHT_MAX_DESC_DATA) 0 0 0 0.

(** ** Ring computation *)

Definition epoch_label : bytes :=
  [109; 111; 111; 114; 45; 100; 104; 116; 45; 101; 112; 111; 99; 104].  (* moor-dht-epoch *)

Section Ring.
  Context (hash : bytes → bytes).

Definition moor_dht_compute_epoch_nonce (srv : bytes) (time_period : Z) : bytes :=
  hash (epoch_label ++ srv ++ be_put 8 time_period).

Definition moor_dht_relay_ring_pos (identity_pk epoch_nonce : bytes) : bytes :=
  hash (identity_pk ++ epoch_nonce).

Definition moor_dht_desc_ring_pos (address_hash epoch_nonce : bytes) : bytes :=
  hash (address_hash ++ epoch_nonce).

Definition moor_dht_xor_distance (a b : bytes) : bytes := xor_bytes a b.

(** Big-endian comparison, most significant byte first. *)
Fixpoint moor_dht_distance_cmp (d1 d2 : bytes) : Z :=
  match d1, d2 with
  | x :: d1, y :: d2 =>
      if x <? y then -1 else if y <? x then 1 else moor_dht_distance_cmp d1 d2
  | _, _ => 0
  end.

(** ** Responsible relays *)

Definition is_running (n : dht_node) : bool := negb (Z.land (nd_flags n) NODE_FLAG_RUNNING =? 0).

(** The indices of the running relays, from index [i] on. *)
Fixpoint running_from (i : nat) (relays : list dht_node) : list nat :=
  match relays with
  | [] => []
  | n :: relays => if is_running n then i :: running_from (S i) relays
                   else running_from (S i) relays
  end.

(** Index of the farthest of the best so far; the first one on a tie. *)
Fixpoint worst_from (j worst : nat) (wd : bytes) (best : list (bytes * nat)) : nat :=
  match best with
  | [] => worst
  | (d, _) :: best =>
      if 0 <? moor_dht_distance_cmp d wd then worst_from (S j) j d best
      else worst_from (S j) worst wd best
  end.

Definition worst_of (best : list (bytes * nat)) : nat :=
  match best with [] => O | (d, _) :: best => worst_from 1 0 d best end.

(** One relay of the O(n k) scan; [best] pairs a distance with a relay index. *)
Definition consider (dist : bytes) (i : nat) (best : list (bytes * nat)) : list (bytes * nat) :=
  if (length best <? MOOR_DHT_REPLICAS)%nat then best ++ [(dist, i)]
  else
    let worst := worst_of best in
    match best !! worst with
    | Some (wd, _) =>
        if moor_dht_distance_cmp dist wd <? 0 then <[worst := (dist, i)]> best else best
    | None => best
    end.

Definition relay_distance (desc_pos nonce : bytes) (n : dht_node) : bytes :=
  moor_dht_xor_distance desc_pos (moor_dht_relay_ring_pos (nd_identity_pk n) nonce).

Fixpoint closest_loop (desc_pos nonce : bytes) (i : nat) (relays : list dht_node)
    (best : list (bytes * nat)) : list (bytes * nat) :=
  match relays with
  | [] => best
  | n :: relays =>
      closest_loop desc_pos nonce (S i) relays
        (if is_running n then consider (relay_distance desc_pos nonce n) i best else best)
  end.

(** [None] is the return code -1. *)
Definition moor_dht_find_responsible (address_hash : bytes) (relays : list dht_node) (srv : bytes)
    (time_period : Z) : option moor_dht_responsible_t :=
  let running_count := length (running_from 0 relays) in
  if (running_count =? 0)%nat then None
  else if (running_count <? MOOR_DHT_SMALL_NET_THRESH)%nat then
    Some (mk_responsible (take MOOR_DHT_REPLICAS (running_from 0 relays)) true)
  else
    let nonce := moor_dht_compute_epoch_nonce srv time_period in
    let desc_pos := moor_dht_desc_ring_pos address_hash nonce in
    Some (mk_responsible (snd <$> closest_loop desc_pos nonce 0 relays []) false).

Definition moor_dht_is_responsible (our_pk address_hash : bytes) (relays : list dht_node)
    (srv : bytes) (time_period : Z) : bool :=
  match moor_dht_find_responsible address_hash relays srv time_period with
  | None => false
  | Some resp =>
      existsb (λ i, match relays !! i with
                    | Some n => bytes_eqb (nd_identity_pk n) our_pk
                    | None => false
                    end) (relay_indices resp)
  end.
End Ring.

(** ** The store *)

Definition moor_dht_store_init : moor_dht_store_t :=
  mk_store (replicate MOOR_DHT_MAX_STORED zero_entry) 0.

(** The entries in use. *)
Definition live (st : moor_dht_store_t) : list moor_dht_entry_t := take (num_entries st) (entries st).

Definition entry_index (st : moor_dht_store_t) (address_hash : bytes) : option nat :=
  find_index (λ e, bytes_eqb (de_hash e) address_hash) (live st).

Definition set_entry (i : nat) (e : moor_dht_entry_t) (st : moor_dht_store_t) : moor_dht_store_t :=
  {| st with entries := <[i := e]> (entries st) |}.

(** Overwriting an entry also clears what is left of a longer predecessor. *)
Definition replace_data (e : moor_dht_entry_t) (data : bytes) (data_len epoch now : Z)
  : moor_dht_entry_t :=
  let buf := blit 0 (take (Z.to_nat data_len) data) (de_data e) in
  let buf := if data_len <? de_data_len e
             then blit (Z.to_nat data_len) (zeros (Z.to_nat (de_data_len e - data_len))) buf
             else buf in
  mk_entry (de_hash e) buf data_len data_len now epoch.

Definition moor_dht_store_put (st : moor_dht_store_t) (address_hash : bytes) (data : option bytes)
    (data_len epoch now : Z) : Z * moor_dht_store_t :=
  match data with
  | None => (-1, st)
  | Some data =>
      if (data_len =? 0) || (Z.of_nat MOOR_DHT_MAX_DESC_DATA <? data_len) then (-1, st)
      else
        match entry_index st address_hash with
        | Some i =>
            match entries st !! i with
            | Some e =>
                if epoch <? de_epoch e then (-1, st)
                else (0, set_entry i (replace_data e data data_len epoch now) st)
            | None => (-1, st)
            end
        | None =>
            if (MOOR_DHT_MAX_STORED <=? num_entries st)%nat then (-1, st)
            else
              let idx := num_entries st in
              (0, mk_store
                    (alter (λ e, mk_entry address_hash
                                   (blit 0 (take (Z.to_nat data_len) data) (de_data e))
                                   data_len data_len now epoch) idx (entries st))
                    (S idx))
        end
  end.

Definition moor_dht_store_get (st : moor_dht_store_t) (address_hash : bytes)
  : option moor_dht_entry_t :=
  match entry_index st address_hash with
  | Some i => entries st !! i
  | None => None
  end.

Definition entry_expired (now : Z) (e : moor_dht_entry_t) : bool :=
  MOOR_DHT_EPOCH_TTL <? u64 (now - de_stored_at e).

(** [for (i = 0; i < num_entries; )]: an expired entry is overwritten by the last
    one, which is then looked at in turn. Each round advances [i] or drops an entry,
    so [num_entries] rounds are enough. *)
Fixpoint expire_loop (fuel i : nat) (now : Z) (st : moor_dht_store_t) : moor_dht_store_t :=
  match fuel with
  | O => st
  | S fuel =>
      if (num_entries st <=? i)%nat then st
      else
        match entries st !! i, entries st !! (num_entries st - 1)%nat with
        | Some e, Some last =>
            if entry_expired now e then
              expire_loop fuel i now
                (mk_store
                   (if (i <? num_entries st - 1)%nat then <[i := last]> (entries st)
                    else <[i := zero_entry]> (entries st))
                   (num_entries st - 1))
            else expire_loop fuel (S i) now st
        | _, _ => st
        end
  end.

Definition moor_dht_store_expire (st : moor_dht_store_t) (now : Z) : moor_dht_store_t :=
  expire_loop (num_entries st) 0 now st.

(** ** The per-address rate limit *)

(** The loop scans for the address and remembers the slot with the oldest
    [last_store] on the way. *)
Fixpoint oldest_from (j oldest : nat) (oldest_time : Z) (rates : list dht_rate_t) : nat :=
  match rates with
  | [] => oldest
  | r :: rates =>
      if dr_last_store r <? oldest_time then oldest_from (S j) j (dr_last_store r) rates
      else oldest_from (S j) oldest oldest_time rates
  end.

Definition dht_store_rate_check (rates : list dht_rate_t) (addr_hash : bytes) (circ_id now : Z)
  : Z * list dht_rate_t :=
  match find_index (λ r, bytes_eqb (dr_hash r) addr_hash) rates with
  | Some i =>
      match rates !! i with
      | Some r =>
          if dr_circuit_id r =? circ_id then
            (0, <[i := {| r with dr_last_store := now |}]> rates)
          else if u64 (now - dr_last_store r) <? DHT_STORE_RATE_INTERVAL then (-1, rates)
          else (0, <[i := {| r with dr_last_store := now; dr_circuit_id := circ_id |}]> rates)
      | None => (-1, rates)
      end
  | None =>
      (0, <[oldest_from 0 0 UINT64_MAX rates := mk_rate addr_hash now circ_id]> rates)
  end.

(** ** RELAY_DHT_STORE *)

(** [memset] of the entry's data and the header fields of a descriptor that starts
    to arrive. *)
Definition reset_entry (address_hash : bytes) (total now : Z) : moor_dht_entry_t :=
  mk_entry address_hash (zeros MOOR_DHT_MAX_DESC_DATA) total 0 now (now / MOOR_TIME_PERIOD_SECS).

(** The slot of a multi-cell store: the address's entry, reset when it is a stale
    partial one or the size changed, or a new one. [None]: the store is full. *)
Definition chunk_slot (st : moor_dht_store_t) (address_hash : bytes) (total now : Z)
  : option (nat * moor_dht_entry_t * moor_dht_store_t) :=
  match entry_index st address_hash with
  | Some i =>
      match entries st !! i with
      | Some e =>
          let e := if (de_received e <? de_data_len e) && (60 <? u64 (now - de_stored_at e))
                   then reset_entry (de_hash e) total now else e in
          let e := if negb (total =? de_data_len e) then reset_entry (de_hash e) total now else e in
          Some (i, e, st)
      | None => None
      end
  | None =>
      if (MOOR_DHT_MAX_STORED <=? num_entries st)%nat then None
      else Some (num_entries st, reset_entry address_hash total now,
                 {| st with num_entries := S (num_entries st) |})
  end.

(** Copying a chunk: [received_bytes] is the highest end seen. *)
Definition put_chunk (e : moor_dht_entry_t) (offset : Z) (chunk : bytes) (total : Z)
  : moor_dht_entry_t :=
  let end_ := offset + Z.of_nat (length chunk) in
  if (end_ <=? Z.of_nat MOOR_DHT_MAX_DESC_DATA) && (end_ <=? total) then
    {| e with de_data := blit (Z.to_nat offset) chunk (de_data e);
              de_received := if de_received e <? end_ then end_ else de_received e |}
  else e.

Section Handlers.
  Context (hash : bytes → bytes).
  (** Digest, onion layer and send towards the previous hop: 0 or an error code. *)
  Context {Net : Type} (transmit : moor_cell_t → Net → Z * Net).

(** Responsible under the current or the previous shared random value, or in the
    previous time period. *)
Definition dht_responsible (our_pk address_hash : bytes) (cns : dht_consensus) (now : Z) : bool :=
  let tp := now / MOOR_TIME_PERIOD_SECS in
  moor_dht_is_responsible hash our_pk address_hash (c_relays cns) (c_srv_current cns) tp ||
  moor_dht_is_responsible hash our_pk address_hash (c_relays cns) (c_srv_previous cns) tp ||
  moor_dht_is_responsible hash our_pk address_hash (c_relays cns) (c_srv_current cns)
    (if 0 <? tp then tp - 1 else 0).

Definition send_ack (prev_open : bool) (prev_cid : Z) (address_hash : bytes) (net : Net) : Net :=
  if prev_open
  then (transmit (moor_cell_relay prev_cid (relay_code RELAY_DHT_STORED) 0 (Some address_hash) 32) net).2
  else net.

(** The defence-in-depth check. [self] is the relay's key and consensus, [None] when
    either is missing. *)
Definition dht_admits (self : option (bytes * dht_consensus)) (address_hash : bytes) (now : Z) : bool :=
  match self with
  | Some (our_pk, cns) =>
      match c_relays cns with
      | [] => true
      | _ => dht_responsible our_pk address_hash cns now
      end
  | None => true
  end.

(** The circuit is its id, whether [prev_conn] is open, and [prev_circuit_id]. *)
Definition moor_dht_handle_store (self : option (bytes * dht_consensus)) (circ_id : Z)
    (prev_open : bool) (prev_cid : Z) (now : Z) (payload : bytes)
    (st : moor_dht_store_t) (rates : list dht_rate_t) (net : Net)
  : Z * moor_dht_store_t * list dht_rate_t * Net :=
  if (length payload <? 36)%nat then (-1, st, rates, net)
  else
    let address_hash := take 32 payload in
    if negb (dht_admits self address_hash now) then (-1, st, rates, net)
    else
      let '(rl, rates) := dht_store_rate_check rates address_hash circ_id now in
      if negb (rl =? 0) then (-1, st, rates, net)
      else
        let total := be_get (slice 32 2 payload) in
        let offset := be_get (slice 34 2 payload) in
        let chunk := drop 36 payload in
        let chunk_len := Z.of_nat (length chunk) in
        if (Z.of_nat MOOR_DHT_MAX_DESC_DATA <? total) || (total =? 0) then (-1, st, rates, net)
        else if (total <=? offset) || (chunk_len =? 0) || (total <? offset + chunk_len) then
          (-1, st, rates, net)
        else if (offset =? 0) && (total <=? chunk_len) then
          let '(rc, st) := moor_dht_store_put st address_hash (Some chunk) total
                             (now / MOOR_TIME_PERIOD_SECS) now in
          if negb (rc =? 0) then (-1, st, rates, net)
          else (0, st, rates, send_ack prev_open prev_cid address_hash net)
        else
          match chunk_slot st address_hash total now with
          | None => (-1, st, rates, net)
          | Some (i, e, st) =>
              let e := put_chunk e offset chunk total in
              let st := set_entry i e st in
              if de_received e <? total then (0, st, rates, net)
              else (0, st, rates, send_ack prev_open prev_cid address_hash net)
          end.

(** ** RELAY_DHT_FETCH *)

Definition dht_header (address_hash : bytes) (total off : Z) : bytes :=
  address_hash ++ be_put 2 total ++ be_put 2 off.

Definition found_cell (prev_cid : Z) (e : moor_dht_entry_t) (off cl : nat) : moor_cell_t :=
  moor_cell_relay prev_cid (relay_code RELAY_DHT_FOUND) 0
    (Some (dht_header (de_hash e) (de_data_len e) (Z.of_nat off) ++ slice off cl (de_data e)))
    (u16 (Z.of_nat (36 + cl))).

(** [while (remaining > 0)]; out of fuel never happens with [remaining] rounds. *)
Fixpoint fetch_chunks (fuel : nat) (prev_cid : Z) (e : moor_dht_entry_t) (off remaining : nat)
    (net : Net) : Z * Net :=
  match fuel with
  | O => (0, net)
  | S fuel =>
      if (remaining =? 0)%nat then (0, net)
      else
        let cl := (if DHT_CHUNK_MAX <? remaining then DHT_CHUNK_MAX else remaining)%nat in
        let '(rc, net) := transmit (found_cell prev_cid e off cl) net in
        if negb (rc =? 0) then (-1, net)
        else fetch_chunks fuel prev_cid e (off + cl) (remaining - cl) net
  end.

Definition moor_dht_handle_fetch (prev_open : bool) (prev_cid : Z) (payload : bytes)
    (st : moor_dht_store_t) (net : Net) : Z * Net :=
  if (length payload <? 32)%nat then (-1, net)
  else if negb prev_open then (-1, net)
  else
    let not_found :=
      (0, (transmit (moor_cell_relay prev_cid (relay_code RELAY_DHT_NOT_FOUND) 0
                       (Some (take 32 payload)) 32) net).2) in
    match moor_dht_store_get st (take 32 payload) with
    | None => not_found
    | Some e =>
        if de_data_len e <=? 0 then not_found
        else
          let n := Z.to_nat (de_data_len e) in
          let chunk_len := (if DHT_CHUNK_MAX <? n then DHT_CHUNK_MAX else n)%nat in
          let '(rc, net) := transmit (found_cell prev_cid e 0 chunk_len) net in
          if negb (rc =? 0) then (-1, net)
          else if (DHT_CHUNK_MAX <? n)%nat
          then fetch_chunks n prev_cid e DHT_CHUNK_MAX (n - DHT_CHUNK_MAX) net
          else (0, net)
    end.
End Handlers.

(** ** The publisher's chunks *)

(** [while (off < data_len)] of [moor_dht_publish]: the payloads of the
    RELAY_DHT_STORE cells. *)
Fixpoint publish_from (fuel : nat) (address_hash data : bytes) (off : nat) : list bytes :=
  match fuel with
  | O => []
  | S fuel =>
      if (length data <=? off)%nat then []
      else
        let chunk := (if DHT_CHUNK_MAX <? length data - off then DHT_CHUNK_MAX
                      else length data - off)%nat in
        (dht_header address_hash (Z.of_nat (length data)) (Z.of_nat off) ++ slice off chunk data)
        :: publish_from fuel address_hash data (off + chunk)
  end.

Definition publish_payloads (address_hash data : bytes) : list bytes :=
  publish_from (length data) address_hash data 0.

(** ** The responsible relays are the closest ones *)

Lemma distance_cmp_spec d1 d2 : length d1 = length d2 → bytes_ok d1 → bytes_ok d2 →
  match be_get d1 ?= be_get d2 with
  | Lt => moor_dht_distance_cmp d1 d2 = -1
  | Eq => moor_dht_distance_cmp d1 d2 = 0
  | Gt => moor_dht_distance_cmp d1 d2 = 1
  end.
Proof.
  revert d2. induction d1 as [|x d1 IH]; intros [|y d2] Hlen H1 H2; [done..|].
  apply Forall_cons in H1 as [Hx H1], H2 as [Hy H2]. injection Hlen as Hlen.
  specialize (IH d2 Hlen H1 H2). rewrite !be_get_cons, <- Hlen by done. cbn [moor_dht_distance_cmp].
  pose proof (be_get_range d1 H1) as R1. pose proof (be_get_range d2 H2) as R2.
  rewrite <- Hlen in R2. set (B := 2 ^ (8 * Z.of_nat (length d1))) in *.
  destruct (Z.ltb_spec x y); [|destruct (Z.ltb_spec y x)].
  - rewrite (proj2 (Z.compare_lt_iff _ _)); [done|nia].
  - rewrite (proj2 (Z.compare_gt_iff _ _)); [done|nia].
  - assert (x = y) as -> by lia.
    destruct (be_get d1 ?= be_get d2) eqn:E.
    + rewrite Z.compare_eq_iff in E. rewrite E, Z.compare_refl. done.
    + rewrite (proj2 (Z.compare_lt_iff _ _)); [done|]. rewrite Z.compare_lt_iff in E. lia.
    + rewrite (proj2 (Z.compare_gt_iff _ _)); [done|]. rewrite Z.compare_gt_iff in E. lia.
Qed.

(** Distances of one width. *)
Definition dist_ok (d : bytes) : Prop := length d = 32%nat ∧ bytes_ok d.

Lemma distance_cmp_neg d1 d2 : dist_ok d1 → dist_ok d2 →
  (moor_dht_distance_cmp d1 d2 <? 0) = (be_get d1 <? be_get d2).
Proof.
  intros [L1 O1] [L2 O2]. pose proof (distance_cmp_spec d1 d2) as H.
  rewrite L1, L2 in H. specialize (H eq_refl O1 O2).
  destruct (Z.compare_spec (be_get d1) (be_get d2)); rewrite H; simpl; lia.
Qed.

Lemma distance_cmp_pos d1 d2 : dist_ok d1 → dist_ok d2 →
  (0 <? moor_dht_distance_cmp d1 d2) = (be_get d2 <? be_get d1).
Proof.
  intros [L1 O1] [L2 O2]. pose proof (distance_cmp_spec d1 d2) as H.
  rewrite L1, L2 in H. specialize (H eq_refl O1 O2).
  destruct (Z.compare_spec (be_get d1) (be_get d2)); rewrite H; simpl; lia.
Qed.

Lemma worst_from_spec pre best w wd wi :
  Forall (λ x, dist_ok x.1) best → dist_ok wd →
  pre !! w = Some (wd, wi) → (∀ x, x ∈ pre → be_get x.1 <= be_get wd) →
  ∃ d i, (pre ++ best) !! worst_from (length pre) w wd best = Some (d, i) ∧
    (∀ x, x ∈ pre ++ best → be_get x.1 <= be_get d).
Proof.
  revert pre w wd wi. induction best as [|[d i] best IH]; intros pre w wd wi Hok Hwd Hw Hmax.
  { exists wd, wi. rewrite app_nil_r. done. }
  apply Forall_cons in Hok as [Hd Hok]. cbn [worst_from]. rewrite distance_cmp_pos by done.
  assert (pre ++ (d, i) :: best = (pre ++ [(d, i)]) ++ best) as -> by by rewrite <- app_assoc.
  replace (S (length pre)) with (length (pre ++ [(d, i)])) by (rewrite length_app; simpl; lia).
  destruct (Z.ltb_spec (be_get wd) (be_get d)).
  - apply (IH _ _ d i); [done|done|by rewrite lookup_app_r, Nat.sub_diag by lia|].
    intros x [Hx| ->%list_elem_of_singleton]%elem_of_app; [specialize (Hmax x Hx); lia|done].
  - apply (IH _ _ wd wi); [done|done|by rewrite lookup_app_l by (by eapply lookup_lt_Some)|].
    intros x [Hx| ->%list_elem_of_singleton]%elem_of_app; [by apply Hmax|done].
Qed.

Lemma worst_of_spec best : best ≠ [] → Forall (λ x, dist_ok x.1) best →
  ∃ d i, best !! worst_of best = Some (d, i) ∧ (∀ x, x ∈ best → be_get x.1 <= be_get d).
Proof.
  destruct best as [|[d i] best]; [done|]. intros _ Hok. apply Forall_cons in Hok as [Hd Hok].
  apply (worst_from_spec [(d, i)] best 0 d i); [done..|].
  intros x ->%list_elem_of_singleton. done.
Qed.

Section Closest.
  Context (hash : bytes → bytes) (hash_ok : ∀ m, dist_ok (hash m)).
  Context (desc_pos nonce : bytes) (desc_ok : dist_ok desc_pos).
  Context (all : list dht_node).

Abbreviation dist := (relay_distance hash desc_pos nonce).

Lemma relay_distance_ok n : dist_ok (dist n).
Proof.
  destruct desc_ok as [Hl Ho]. destruct (hash_ok (nd_identity_pk n ++ nonce)) as [Hl' Ho'].
  unfold relay_distance, moor_dht_xor_distance, moor_dht_relay_ring_pos. split.
  - rewrite length_xor_bytes, Hl, Hl'. done.
  - by apply bytes_ok_xor.
Qed.

Definition running_at (j : nat) : option dht_node :=
  match all !! j with Some n => if is_running n then Some n else None | None => None end.

(** After the first [k] relays: the best are distinct running relays with their
    distances, and every other running one is no closer than any of them. *)
Record closest_inv (k : nat) (best : list (bytes * nat)) : Prop := {
  cl_nodup : NoDup (snd <$> best);
  cl_len : (length best <= MOOR_DHT_REPLICAS)%nat;
  cl_sound : ∀ d i, (d, i) ∈ best → (i < k)%nat ∧ ∃ n, running_at i = Some n ∧ d = dist n;
  cl_best : ∀ j n, (j < k)%nat → running_at j = Some n → j ∉ snd <$> best →
    length best = MOOR_DHT_REPLICAS ∧ (∀ x, x ∈ best → be_get x.1 <= be_get (dist n));
}.

Lemma closest_dists k best : closest_inv k best → Forall (λ x, dist_ok x.1) best.
Proof.
  intros Hi. apply Forall_forall. intros [d i] Hin.
  destruct (cl_sound _ _ Hi d i Hin) as (_ & n & _ & ->). apply relay_distance_ok.
Qed.

Lemma closest_skip k best : closest_inv k best → running_at k = None → closest_inv (S k) best.
Proof.
  intros [H1 H2 H3 H4] Hk. split; [done|done| |].
  - intros d i Hin. destruct (H3 d i Hin) as [? ?]. split; [lia|done].
  - intros j n Hj Hn Hout. apply (H4 j); [|done|done].
    assert (j ≠ k) by congruence. lia.
Qed.

Lemma closest_fill k best n : closest_inv k best → running_at k = Some n →
  (length best < MOOR_DHT_REPLICAS)%nat → closest_inv (S k) (best ++ [(dist n, k)]).
Proof.
  intros [H1 H2 H3 H4] Hk Hlt. split.
  - rewrite fmap_app. simpl. apply NoDup_app. split_and!; [done| |apply NoDup_singleton].
    intros i Hi ->%list_elem_of_singleton. apply list_elem_of_fmap in Hi as ([d i] & -> & Hin).
    destruct (H3 _ _ Hin). simpl in *. lia.
  - rewrite length_app. simpl. lia.
  - intros d i [Hin|[= -> ->]%list_elem_of_singleton]%elem_of_app.
    + destruct (H3 d i Hin). split; [lia|done].
    + split; [lia|]. by exists n.
  - intros j n' Hj Hn Hout. rewrite fmap_app, elem_of_app in Hout. exfalso.
    destruct (decide (j = k)) as [->|]; [apply Hout; right; simpl; by left|].
    destruct (H4 j n') as [? _]; [lia|done|by intros ?; apply Hout; left|lia].
Qed.

Lemma closest_full_skip k best n d w i : closest_inv k best → running_at k = Some n →
  length best = MOOR_DHT_REPLICAS → best !! w = Some (d, i) →
  (∀ x, x ∈ best → be_get x.1 <= be_get d) → be_get d <= be_get (dist n) →
  closest_inv (S k) best.
Proof.
  intros [H1 H2 H3 H4] Hk Hfull Hw Hmax Hle. split; [done|done| |].
  - intros d' i' Hin. destruct (H3 d' i' Hin) as [? ?]. split; [lia|done].
  - intros j n' Hj Hn Hout. destruct (decide (j = k)) as [->|].
    + split; [done|]. intros x Hx. specialize (Hmax x Hx). simplify_eq. lia.
    + apply (H4 j); [lia|done|done].
Qed.

Lemma closest_replace k best n d w i : closest_inv k best → running_at k = Some n →
  length best = MOOR_DHT_REPLICAS → best !! w = Some (d, i) →
  (∀ x, x ∈ best → be_get x.1 <= be_get d) → be_get (dist n) < be_get d →
  closest_inv (S k) (<[w := (dist n, k)]> best).
Proof.
  intros [H1 H2 H3 H4] Hk Hfull Hw Hmax Hlt.
  assert (∀ x, x ∈ <[w := (dist n, k)]> best → x = (dist n, k) ∨ x ∈ best ∧ x.2 ≠ i) as Hin.
  { intros x [w' Hx]%list_elem_of_lookup. destruct (decide (w' = w)) as [->|Hne].
    - rewrite list_lookup_insert_eq in Hx by (by eapply lookup_lt_Some). left. congruence.
    - rewrite list_lookup_insert_ne in Hx by done. right.
      split; [by eapply list_elem_of_lookup_2|]. intros Heq. apply Hne.
      apply (NoDup_lookup _ _ _ i H1); rewrite list_lookup_fmap; [rewrite Hx|rewrite Hw]; simpl; congruence. }
  assert (∀ j, j ∉ snd <$> <[w := (dist n, k)]> best → j = i ∨ j ∉ snd <$> best) as Hout.
  { intros j Hj. destruct (decide (j = i)) as [|Hne]; [by left|right]. contradict Hj.
    apply list_elem_of_fmap in Hj as (x & -> & [w' Hx]%list_elem_of_lookup).
    apply list_elem_of_fmap. exists x. split; [done|]. apply list_elem_of_lookup. exists w'.
    rewrite list_lookup_insert_ne; [done|]. intros ->. simplify_eq. }
  split.
  - rewrite list_fmap_insert. apply NoDup_insert_fresh; [done|]. simpl.
    intros (x & -> & Hx)%list_elem_of_fmap. destruct x as [d' i'].
    destruct (H3 d' i' Hx). simpl in *. lia.
  - by rewrite length_insert.
  - intros d' i' [[= -> ->]|[Hx _]]%Hin; [split; [lia|by exists n]|].
    destruct (H3 d' i' Hx). split; [lia|done].
  - intros j n' Hj Hn Hj'. split; [by rewrite length_insert|].
    assert (be_get d <= be_get (dist n')) as Hd.
    { destruct (Hout j Hj') as [->|Hno].
      - destruct (H3 d i) as (_ & n'' & Hn'' & ->); [by eapply list_elem_of_lookup_2|].
        assert (n'' = n') as -> by congruence. lia.
      - destruct (decide (j = k)) as [->|].
        + destruct Hj'. apply list_elem_of_fmap. exists (dist n, k). split; [done|].
          apply list_elem_of_lookup. exists w. apply list_lookup_insert_eq. by eapply lookup_lt_Some.
        + destruct (H4 j n') as [_ Hle]; [lia|done|done|].
          apply (Hle (d, i)). by eapply list_elem_of_lookup_2. }
    intros x [->|[Hx _]]%Hin; [simpl; lia|]. specialize (Hmax x Hx). lia.
Qed.

Lemma consider_inv k best n : closest_inv k best → running_at k = Some n →
  closest_inv (S k) (consider (dist n) k best).
Proof.
  intros Hi Hk. unfold consider. destruct (Nat.ltb_spec (length best) MOOR_DHT_REPLICAS).
  { by apply closest_fill. }
  assert (length best = MOOR_DHT_REPLICAS) as Hfull by (pose proof (cl_len _ _ Hi); lia).
  destruct (worst_of_spec best) as (d & i & Hw & Hmax); [by destruct best| |].
  { by eapply closest_dists. }
  rewrite Hw. rewrite distance_cmp_neg; [|apply relay_distance_ok|].
  2: { apply (Forall_lookup_1 _ _ _ _ (closest_dists _ _ Hi) Hw). }
  destruct (Z.ltb_spec (be_get (dist n)) (be_get d)).
  - by eapply closest_replace.
  - by eapply closest_full_skip.
Qed.

Lemma closest_loop_inv relays k best : drop k all = relays → closest_inv k best →
  closest_inv (length all) (closest_loop hash desc_pos nonce k relays best).
Proof.
  revert k best. induction relays as [|n relays IH]; intros k best Hd Hi; simpl.
  - assert (length all <= k)%nat as Hk.
    { apply (f_equal length) in Hd. rewrite length_drop in Hd. simpl in Hd. lia. }
    destruct Hi as [H1 H2 H3 H4]. split; [done|done| |].
    + intros d i Hin. destruct (H3 d i Hin) as [_ (n & Hn & ->)]. split; [|by exists n].
      unfold running_at in Hn. destruct (all !! i) eqn:E; [|done]. by eapply lookup_lt_Some.
    + intros j n Hj. apply H4. lia.
  - assert (all !! k = Some n) as Hk by (rewrite <- (Nat.add_0_r k), <- lookup_drop, Hd; done).
    apply IH; [rewrite <- Nat.add_1_r, <- drop_drop, Hd; done|].
    destruct (is_running n) eqn:Hr.
    + apply consider_inv; [done|]. unfold running_at. by rewrite Hk, Hr.
    + apply closest_skip; [done|]. unfold running_at. by rewrite Hk, Hr.
Qed.
End Closest.

Lemma elem_of_running_from relays i j :
  j ∈ running_from i relays ↔ ∃ n, (i <= j)%nat ∧ relays !! (j - i)%nat = Some n ∧ is_running n = true.
Proof.
  revert i. induction relays as [|n relays IH]; intros i; simpl.
  { rewrite elem_of_nil. split; [done|]. intros (n & _ & Hn & _). by destruct (j - i)%nat. }
  assert (j ∈ running_from (S i) relays ↔
    ∃ n', (i < j)%nat ∧ (n :: relays) !! (j - i)%nat = Some n' ∧ is_running n' = true) as Hs.
  { rewrite IH. split; intros (n' & Hle & Hn' & Hr); exists n'; (split; [lia|]).
    - replace (j - i)%nat with (S (j - S i)) by lia. done.
    - replace (j - i)%nat with (S (j - S i)) in Hn' by lia. done. }
  destruct (is_running n) eqn:Hr; [rewrite elem_of_cons|]; rewrite Hs; split.
  - intros [->|(n' & ? & ?)]; [exists n; rewrite Nat.sub_diag; done|exists n'; split; [lia|done]].
  - intros (n' & Hle & Hn' & Hr'). destruct (decide (j = i)) as [->|]; [by left|right].
    exists n'. split; [lia|done].
  - intros (n' & ? & ?). exists n'. split; [lia|done].
  - intros (n' & Hle & Hn' & Hr'). exists n'. split; [|done]. destruct (decide (j = i)) as [->|]; [|lia].
    rewrite Nat.sub_diag in Hn'. simpl in Hn'. congruence.
Qed.

Lemma running_from_NoDup relays i : NoDup (running_from i relays).
Proof.
  revert i. induction relays as [|n relays IH]; intros i; simpl; [constructor|].
  destruct (is_running n); [|done]. constructor; [|done].
  rewrite elem_of_running_from. intros (n' & ? & _). lia.
Qed.



(** ** The store refines a bounded map *)

(** What a reader of an entry sees. *)
Record dht_view := mk_view { v_data : bytes; v_stored_at : Z; v_epoch : Z }.

Definition view_of (e : moor_dht_entry_t) : dht_view :=
  mk_view (take (Z.to_nat (de_data_len e)) (de_data e)) (de_stored_at e) (de_epoch e).

Definition entry_ok (e : moor_dht_entry_t) : Prop :=
  length (de_data e) = MOOR_DHT_MAX_DESC_DATA ∧ 0 <= de_data_len e <= 32768.

Record store_ok (st : moor_dht_store_t) : Prop := {
  so_length : length (entries st) = MOOR_DHT_MAX_STORED;
  so_num : (num_entries st <= MOOR_DHT_MAX_STORED)%nat;
  so_nodup : NoDup (de_hash <$> live st);
  so_entries : Forall entry_ok (entries st);
}.

Definition keyed (e : moor_dht_entry_t) : bytes * dht_view := (de_hash e, view_of e).

(** The abstract state: addresses to views. *)
Definition store_abs (st : moor_dht_store_t) : gmap bytes dht_view := list_to_map (keyed <$> live st).

Definition abs_put (m : gmap bytes dht_view) (h data : bytes) (epoch now : Z) : Z * gmap bytes dht_view :=
  match m !! h with
  | Some v => if epoch <? v_epoch v then (-1, m) else (0, <[h := mk_view data now epoch]> m)
  | None => if (MOOR_DHT_MAX_STORED <=? size m)%nat then (-1, m)
            else (0, <[h := mk_view data now epoch]> m)
  end.

Definition abs_expire (m : gmap bytes dht_view) (now : Z) : gmap bytes dht_view :=
  filter (λ '(_, v), (MOOR_DHT_EPOCH_TTL <? u64 (now - v_stored_at v)) = false) m.

Lemma keyed_fst l : (keyed <$> l).*1 = de_hash <$> l.
Proof. rewrite <- list_fmap_compose. done. Qed.

Lemma abs_lookup st h v : store_ok st →
  store_abs st !! h = Some v ↔ ∃ e, e ∈ live st ∧ de_hash e = h ∧ view_of e = v.
Proof.
  intros Hok. unfold store_abs. rewrite <- elem_of_list_to_map by (rewrite keyed_fst; apply Hok).
  rewrite list_elem_of_fmap. unfold keyed. split.
  - intros (e & [= -> ->] & He). by exists e.
  - intros (e & He & <- & <-). by exists e.
Qed.

Lemma abs_size st : store_ok st → size (store_abs st) = num_entries st.
Proof.
  intros Hok. rewrite <- length_map_to_list.
  unfold store_abs. erewrite Permutation_length; [|apply map_to_list_to_map; rewrite keyed_fst; apply Hok].
  rewrite length_fmap. unfold live. rewrite length_take. pose proof (so_num _ Hok). pose proof (so_length _ Hok). lia.
Qed.

Lemma live_lookup st i : (i < num_entries st)%nat → live st !! i = entries st !! i.
Proof. intros. unfold live. by rewrite lookup_take_lt. Qed.

Lemma entry_index_spec st h :
  match entry_index st h with
  | Some i => ∃ e, (i < num_entries st)%nat ∧ entries st !! i = Some e ∧ live st !! i = Some e ∧ de_hash e = h
  | None => ∀ e, e ∈ live st → de_hash e ≠ h
  end.
Proof.
  unfold entry_index. destruct (find_index _ _) as [i|] eqn:Hf.
  - apply find_index_Some in Hf as (e & Hi & Heq%bytes_eqb_eq & _).
    assert (i < num_entries st)%nat as Hlt.
    { apply lookup_lt_Some in Hi. unfold live in Hi. rewrite length_take in Hi. lia. }
    exists e. rewrite <- (live_lookup st) by done. done.
  - intros e He Heq. apply find_index_None in Hf. rewrite Forall_forall in Hf.
    specialize (Hf e He). by apply bytes_eqb_neq in Hf.
Qed.

Lemma abs_None st h : store_ok st → (∀ e, e ∈ live st → de_hash e ≠ h) → store_abs st !! h = None.
Proof.
  intros Hok H. destruct (store_abs st !! h) as [v|] eqn:E; [|done].
  apply abs_lookup in E as (e & He & Heq & _); [|done]. by destruct (H e He).
Qed.

(** Reading is a lookup. *)
Lemma store_get_abs st h : store_ok st →
  view_of <$> moor_dht_store_get st h = store_abs st !! h.
Proof.
  intros Hok. unfold moor_dht_store_get. pose proof (entry_index_spec st h) as Hi.
  destruct (entry_index st h) as [i|].
  - destruct Hi as (e & Hlt & He & Hl & Hh). rewrite He. simpl. symmetry. apply abs_lookup; [done|].
    exists e. split; [by eapply list_elem_of_lookup_2|done].
  - by rewrite abs_None.
Qed.

Lemma live_set_entry st i e : live (set_entry i e st) = <[i := e]> (live st).
Proof.
  unfold live, set_entry. simpl. destruct (decide (i < num_entries st)%nat).
  - by apply take_insert_lt.
  - rewrite take_insert_ge by lia. rewrite list_insert_ge; [done|]. rewrite length_take. lia.
Qed.

(** Overwriting a live entry under its own address. *)
Lemma set_entry_spec st i e e' : store_ok st → (i < num_entries st)%nat →
  entries st !! i = Some e → de_hash e' = de_hash e → entry_ok e' →
  store_ok (set_entry i e' st) ∧ store_abs (set_entry i e' st) = <[de_hash e := view_of e']> (store_abs st).
Proof.
  intros Hok Hlt Hi Hh He'.
  assert (live st !! i = Some e) as Hl by by rewrite live_lookup.
  assert (de_hash <$> live (set_entry i e' st) = de_hash <$> live st) as Heq.
  { rewrite live_set_entry, list_fmap_insert, Hh. apply list_insert_id. by rewrite list_lookup_fmap, Hl. }
  assert (store_ok (set_entry i e' st)) as Hok'.
  { destruct Hok. split; simpl; [by rewrite length_insert|done|by rewrite Heq|by apply Forall_insert]. }
  split; [done|]. unfold store_abs. rewrite live_set_entry, list_fmap_insert.
  unfold keyed at 1. rewrite Hh. apply (list_to_map_update _ _ _ _ (view_of e)).
  - rewrite keyed_fst. apply Hok.
  - by rewrite list_lookup_fmap, Hl.
Qed.

(** Filling the slot after the last live entry. *)
Lemma append_spec st e : store_ok st → (num_entries st < MOOR_DHT_MAX_STORED)%nat →
  (∀ e', e' ∈ live st → de_hash e' ≠ de_hash e) → entry_ok e →
  let st' := mk_store (<[num_entries st := e]> (entries st)) (S (num_entries st)) in
  store_ok st' ∧ store_abs st' = <[de_hash e := view_of e]> (store_abs st).
Proof.
  intros Hok Hlt Hnew He. cbv zeta. set (st' := mk_store _ _).
  assert (live st' = live st ++ [e]) as Hlive.
  { unfold live, st'. simpl. rewrite (take_S_r _ _ e).
    - by rewrite take_insert_ge.
    - apply list_lookup_insert_eq. by rewrite (so_length _ Hok). }
  assert (de_hash e ∉ de_hash <$> live st) as Hfresh.
  { intros (e' & Heq & Hin)%list_elem_of_fmap. by destruct (Hnew e' Hin). }
  split.
  - destruct Hok as [H1 H2 H3 H4]. split; simpl; [by rewrite length_insert|lia| |by apply Forall_insert].
    fold st'. rewrite Hlive, fmap_app. apply NoDup_app. split_and!; [done| |apply NoDup_singleton].
    by intros h Hh ->%list_elem_of_singleton.
  - unfold store_abs. rewrite Hlive, fmap_app. unfold keyed at 2. simpl.
    apply list_to_map_snoc. by rewrite keyed_fst.
Qed.

Lemma take_blit n data buf : length data = n → take n (blit 0 data buf) = data.
Proof. intros <-. unfold blit. simpl. apply take_app_length. Qed.

Lemma replace_data_spec e data epoch now :
  entry_ok e → (0 < length data <= MOOR_DHT_MAX_DESC_DATA)%nat →
  let e' := replace_data e data (Z.of_nat (length data)) epoch now in
  entry_ok e' ∧ de_hash e' = de_hash e ∧ view_of e' = mk_view data now epoch.
Proof.
  intros [Hl Hd] Hlen. cbv zeta. unfold replace_data. rewrite Nat2Z.id, (take_ge data) by lia.
  assert (length (blit 0 data (de_data e)) = MOOR_DHT_MAX_DESC_DATA) as Hb by (rewrite length_blit; lia).
  pose proof max_desc_data as Hmax.
  unfold entry_ok, view_of. cbn [de_data de_data_len de_hash de_stored_at de_epoch]. rewrite Nat2Z.id.
  destruct (Z.ltb_spec (Z.of_nat (length data)) (de_data_len e)).
  - split_and!; [|lia|lia|done|].
    + rewrite length_blit; [done|]. rewrite length_zeros, Hb. lia.
    + f_equal. unfold blit at 1. rewrite take_app_le by (rewrite length_take, Hb; lia).
      rewrite take_take, Nat.min_id. by apply take_blit.
  - split_and!; [done|lia|lia|done|]. f_equal. by apply take_blit.
Qed.

Lemma store_put_spec st h data epoch now :
  store_ok st → (0 < length data <= MOOR_DHT_MAX_DESC_DATA)%nat →
  let '(rc, st') := moor_dht_store_put st h (Some data) (Z.of_nat (length data)) epoch now in
  store_ok st' ∧ (rc, store_abs st') = abs_put (store_abs st) h data epoch now.
Proof.
  intros Hok Hlen. unfold moor_dht_store_put, abs_put.
  replace (Z.of_nat (length data) =? 0) with false by (symmetry; apply Z.eqb_neq; lia).
  replace (Z.of_nat MOOR_DHT_MAX_DESC_DATA <? Z.of_nat (length data)) with false
    by (symmetry; apply Z.ltb_ge; lia). cbn [orb].
  pose proof (entry_index_spec st h) as Hi. destruct (entry_index st h) as [i|].
  - destruct Hi as (e & Hlt & He & Hl & <-). rewrite He.
    assert (store_abs st !! de_hash e = Some (view_of e)) as ->.
    { apply abs_lookup; [done|]. exists e. split; [by eapply list_elem_of_lookup_2|done]. }
    cbn [view_of v_epoch]. destruct (epoch <? de_epoch e); [done|].
    destruct (replace_data_spec e data epoch now) as (Hok' & Hh' & Hv'); [|done|].
    { apply (Forall_lookup_1 _ _ _ _ (so_entries _ Hok) He). }
    destruct (set_entry_spec st i e (replace_data e data (Z.of_nat (length data)) epoch now))
      as [? ->]; [done..|]. by rewrite Hv'.
  - rewrite (abs_None st h Hok Hi), (abs_size st Hok).
    destruct (Nat.leb_spec MOOR_DHT_MAX_STORED (num_entries st)) as [|Hroom]; [done|].
    destruct (lookup_lt_is_Some_2 (entries st) (num_entries st)) as [old Hold].
    { by rewrite (so_length _ Hok). }
    rewrite (alter_insert _ _ _ _ Hold). set (e := mk_entry h _ _ _ _ _).
    destruct (Forall_lookup_1 _ _ _ _ (so_entries _ Hok) Hold) as [Hbuf _].
    pose proof max_desc_data as Hmax.
    destruct (append_spec st e) as [? ->]; [done|done|done| |].
    { split; simpl; [|lia]. rewrite length_blit; [done|]. rewrite length_take. lia. }
    split; [done|]. subst e. unfold view_of. cbn [de_hash de_data de_data_len de_stored_at de_epoch].
    rewrite !Nat2Z.id, (take_ge data) by lia. by rewrite take_blit.
Qed.

(** One store operation. *)
Inductive dht_op :=
  | DhtPut (h data : bytes) (epoch now : Z)
  | DhtExpire (now : Z).

Definition dht_op_ok (o : dht_op) : Prop :=
  match o with
  | DhtPut _ data _ _ => (0 < length data <= MOOR_DHT_MAX_DESC_DATA)%nat
  | DhtExpire _ => True
  end.

Definition dht_run (o : dht_op) (st : moor_dht_store_t) : moor_dht_store_t :=
  match o with
  | DhtPut h data epoch now =>
      (moor_dht_store_put st h (Some data) (Z.of_nat (length data)) epoch now).2
  | DhtExpire now => moor_dht_store_expire st now
  end.

Definition dht_abs_run (o : dht_op) (m : gmap bytes dht_view) : gmap bytes dht_view :=
  match o with
  | DhtPut h data epoch now => (abs_put m h data epoch now).2
  | DhtExpire now => abs_expire m now
  end.

(** *** Expiry *)

Abbreviation keep now := (λ e, entry_expired now e = false).

(** Dropping live entry [i] by moving the last one over it. *)
Lemma swap_out st i e lst : store_ok st → (i < num_entries st)%nat →
  entries st !! i = Some e → entries st !! (num_entries st - 1)%nat = Some lst →
  let st' := mk_store (if (i <? num_entries st - 1)%nat then <[i := lst]> (entries st)
                       else <[i := zero_entry]> (entries st)) (num_entries st - 1) in
  live st ≡ₚ e :: live st' ∧ take i (live st') = take i (live st) ∧ store_ok st'.
Proof.
  intros Hok Hlt Hi Hl. cbv zeta. set (st' := mk_store _ _).
  pose proof (so_length _ Hok) as Hlen. pose proof (so_num _ Hok) as Hnum.
  set (n := (num_entries st - 1)%nat) in *. assert (num_entries st = S n) as Hn by lia.
  assert (live st = take n (entries st) ++ [lst]) as Hlive.
  { unfold live. rewrite Hn. by apply take_S_r. }
  assert (live st ≡ₚ e :: live st' ∧ take i (live st') = take i (live st)) as [Hp Ht].
  { rewrite Hlive. unfold live, st'. cbn [entries num_entries]. fold n.
    destruct (Nat.ltb_spec i n) as [Hin|Hge].
    - rewrite take_insert_lt, take_insert_ge, take_app_le by (rewrite ?length_take; lia).
      split; [|done]. set (l := take n (entries st)).
      assert (l !! i = Some e) as Hli by (unfold l; by rewrite lookup_take_lt).
      rewrite (insert_take_drop l i lst) by (by eapply lookup_lt_Some).
      assert (l ≡ₚ e :: take i l ++ drop (S i) l) as Hl'.
      { rewrite <- (take_drop_middle l i e Hli) at 1. by rewrite <- Permutation_middle. }
      rewrite <- Permutation_cons_append, Hl' at 1. rewrite <- Permutation_middle. apply perm_swap.
    - assert (i = n) as -> by lia. assert (e = lst) as -> by congruence.
      rewrite take_insert_ge by lia. rewrite take_app_le by (rewrite length_take; lia).
      split; [|done]. symmetry. apply Permutation_cons_append. }
  split; [done|]. split; [done|]. destruct Hok as [H1 H2 H3 H4]. split.
  - unfold st'. cbn [entries]. destruct (_ <? _)%nat; by rewrite length_insert.
  - unfold st'. cbn [num_entries]. lia.
  - rewrite Hp in H3. by apply NoDup_cons in H3 as [_ ?].
  - unfold st'. cbn [entries]. destruct (_ <? _)%nat; (apply Forall_insert; [exact H4|]).
    + exact (Forall_lookup_1 _ _ _ _ H4 Hl).
    + split; [apply length_zeros|simpl; lia].
Qed.

Lemma expire_loop_spec fuel i now st : store_ok st →
  (num_entries st <= fuel + i)%nat → Forall (keep now) (take i (live st)) →
  store_ok (expire_loop fuel i now st) ∧
  live (expire_loop fuel i now st) ≡ₚ filter (keep now) (live st).
Proof.
  assert (∀ j st, (num_entries st <= j)%nat → Forall (keep now) (take j (live st)) →
    live st ≡ₚ filter (keep now) (live st)) as Hend.
  { intros j st' Hj Hk. rewrite filter_all; [done|]. unfold live in *.
    by rewrite take_take, Nat.min_r in Hk by lia. }
  revert i st. induction fuel as [|fuel IH]; intros i st Hok Hf Hk; cbn [expire_loop].
  { split; [done|]. by apply (Hend i). }
  destruct (Nat.leb_spec (num_entries st) i) as [|Hlt]; [split; [done|by apply (Hend i)]|].
  pose proof (so_length _ Hok) as Hlen. pose proof (so_num _ Hok) as Hnum.
  destruct (lookup_lt_is_Some_2 (entries st) i) as [e He]; [lia|].
  destruct (lookup_lt_is_Some_2 (entries st) (num_entries st - 1)) as [lst Hlst]; [lia|].
  rewrite He, Hlst. destruct (entry_expired now e) eqn:Hexp.
  - destruct (swap_out st i e lst Hok Hlt He Hlst) as (Hp & Ht & Hok'). cbv zeta in *.
    set (st' := mk_store _ _) in *.
    destruct (IH i st' Hok') as [H1 H2]; [unfold st'; cbn [num_entries]; lia|by rewrite Ht|]. split; [done|].
    rewrite H2, Hp, filter_cons_False; [done|]. congruence.
  - apply IH; [done|lia|]. rewrite (take_S_r _ _ e) by (by rewrite live_lookup).
    apply Forall_app. split; [done|]. by repeat constructor.
Qed.

Lemma store_expire_spec st now : store_ok st →
  store_ok (moor_dht_store_expire st now) ∧
  store_abs (moor_dht_store_expire st now) = abs_expire (store_abs st) now.
Proof.
  intros Hok. destruct (expire_loop_spec (num_entries st) 0 now st) as [Hok' Hp]; [done|lia|done|].
  split; [done|]. fold (moor_dht_store_expire st now) in Hok', Hp.
  apply map_eq. intros h. apply option_eq. intros v. unfold abs_expire.
  rewrite map_lookup_filter_Some, !abs_lookup by done. split.
  - intros (e & He & <- & <-). rewrite Hp, list_elem_of_filter in He. destruct He as [Hk He].
    split; [by exists e|done].
  - intros [(e & He & <- & <-) Hk]. exists e. rewrite Hp, list_elem_of_filter. done.
Qed.

Lemma store_init_ok : store_ok moor_dht_store_init.
Proof.
  split; [apply length_replicate|unfold moor_dht_store_init; cbn [num_entries]; lia|constructor|].
  apply Forall_replicate. split; [apply length_zeros|cbn [zero_entry de_data_len]; lia].
Qed.

Lemma dht_run_spec o st : store_ok st → dht_op_ok o →
  store_ok (dht_run o st) ∧ store_abs (dht_run o st) = dht_abs_run o (store_abs st).
Proof.
  intros Hok Ho. destruct o as [h data epoch now|now]; [|by apply store_expire_spec].
  cbn [dht_run dht_abs_run].
  pose proof (store_put_spec st h data epoch now Hok Ho) as H.
  destruct (moor_dht_store_put _ _ _ _ _ _) as [rc st']. destruct H as [Hok' H].
  rewrite <- H. done.
Qed.


Definition demo_ops : list dht_op :=
  [DhtPut (repeat 1 32) [5; 6] 100 8640000; DhtPut (repeat 2 32) [7] 100 8640001;
   DhtExpire 8900000; DhtPut (repeat 1 32) [8; 9; 10] 99 8640002].


(** ** Publishing a descriptor *)

(** The address is in the rate table under this circuit. *)
Definition rate_owned (rates : list dht_rate_t) (h : bytes) (circ_id : Z) : Prop :=
  ∃ i r, find_index (λ r, bytes_eqb (dr_hash r) h) rates = Some i ∧ rates !! i = Some r ∧
    dr_circuit_id r = circ_id.

Lemma oldest_from_lt j oldest t rates :
  (oldest < j + length rates)%nat → (oldest_from j oldest t rates < j + length rates)%nat.
Proof.
  revert j oldest t. induction rates as [|r rates IH]; intros j oldest t H; simpl in *; [done|].
  destruct (_ <? _); rewrite Nat.add_succ_r; apply (IH (S j)); lia.
Qed.

Lemma rate_check_owns rates h circ_id now rates' : rates ≠ [] →
  dht_store_rate_check rates h circ_id now = (0, rates') → rate_owned rates' h circ_id.
Proof.
  intros Hne. unfold dht_store_rate_check, rate_owned.
  destruct (find_index _ rates) as [i|] eqn:Hf.
  - pose proof (find_index_lt _ _ _ Hf) as Hlt.
    destruct (find_index_Some _ _ _ Hf) as (r & Hr & Hh & _). rewrite Hr.
    destruct (Z.eqb_spec (dr_circuit_id r) circ_id); [|destruct (_ <? _); [done|]];
      intros [= <-]; (eexists i, _; split; [by apply find_index_insert_same|];
        split; [by apply list_lookup_insert_eq|done]).
  - intros [= <-]. set (o := oldest_from 0 0 UINT64_MAX rates).
    assert (o < length rates)%nat as Ho.
    { apply (oldest_from_lt 0). destruct rates; [done|]. simpl. lia. }
    exists o, (mk_rate h now circ_id). split; [|split; [by apply list_lookup_insert_eq|done]].
    apply (find_index_intro _ _ _ (mk_rate h now circ_id)); [by apply list_lookup_insert_eq|apply bytes_eqb_refl|].
    intros j r Hj Hr. rewrite list_lookup_insert_ne in Hr by lia.
    apply find_index_None in Hf. by apply (Forall_lookup_1 _ _ _ _ Hf Hr).
Qed.

(** The storer of an address may always update it. *)
Lemma rate_check_owned rates h circ_id now : rate_owned rates h circ_id →
  ∃ rates', dht_store_rate_check rates h circ_id now = (0, rates') ∧ rate_owned rates' h circ_id.
Proof.
  intros (i & r & Hf & Hr & Hc).
  assert (∃ rates', dht_store_rate_check rates h circ_id now = (0, rates')) as [rates' H].
  { unfold dht_store_rate_check. rewrite Hf, Hr, Hc, Z.eqb_refl. by eexists. }
  exists rates'. split; [done|]. eapply rate_check_owns; [|done]. intros ->. done.
Qed.

Lemma parse_header h total off chunk : length h = 32%nat → is_u16 total → is_u16 off →
  let p := dht_header h total off ++ chunk in
  (36 <= length p)%nat ∧ take 32 p = h ∧ be_get (slice 32 2 p) = total ∧
  be_get (slice 34 2 p) = off ∧ drop 36 p = chunk.
Proof.
  intros Hh Ht Ho. cbv zeta. unfold dht_header. rewrite <- !app_assoc. split_and!.
  - rewrite !length_app, !length_be_put. lia.
  - by rewrite take_app_length' by done.
  - unfold slice. rewrite drop_app_length', take_app_length' by (by rewrite ?length_be_put).
    by apply be_get_put_small.
  - rewrite app_assoc. unfold slice.
    rewrite drop_app_length', take_app_length' by (rewrite ?length_app, ?length_be_put; lia).
    by apply be_get_put_small.
  - rewrite !app_assoc. apply drop_app_length'. rewrite !length_app, !length_be_put. lia.
Qed.

Lemma publish_from_end fuel h data off : (length data <= off)%nat → publish_from fuel h data off = [].
Proof. intros H. destruct fuel; [done|]. cbn [publish_from]. by rewrite (proj2 (Nat.leb_le _ _)). Qed.

(** Writing the next piece of a buffer after the ones before it. *)
Lemma blit_next data off c : (off + c <= length data)%nat →
  blit off (slice off c data) (blit 0 (take off data) (zeros MOOR_DHT_MAX_DESC_DATA)) =
  blit 0 (take (off + c) data) (zeros MOOR_DHT_MAX_DESC_DATA).
Proof.
  intros Hc. unfold blit, slice. simpl. rewrite <- take_take_drop, !length_app, !length_take, !length_drop.
  rewrite take_app_length' by (rewrite length_take; lia). rewrite <- app_assoc. do 2 f_equal.
  rewrite drop_app_ge by (rewrite length_take; lia). rewrite length_take, drop_drop. f_equal. lia.
Qed.

Section Publish.
  Context (hash : bytes → bytes) {Net : Type} (transmit : moor_cell_t → Net → Z * Net).
  Context (self : option (bytes * dht_consensus)) (circ_id : Z) (prev_open : bool) (prev_cid : Z).
  Context (h data : bytes) (h_len : length h = 32%nat).
  Context (data_len : (0 < length data <= MOOR_DHT_MAX_DESC_DATA)%nat).

Abbreviation handle := (moor_dht_handle_store hash transmit self circ_id prev_open prev_cid).
Abbreviation ack := (send_ack transmit prev_open prev_cid h).

(** A relay that handles the arriving payloads one after the other; [None] when one
    was refused. *)
Fixpoint store_run (arrivals : list (Z * bytes)) (st : moor_dht_store_t) (rates : list dht_rate_t)
    (net : Net) : option (moor_dht_store_t * list dht_rate_t * Net) :=
  match arrivals with
  | [] => Some (st, rates, net)
  | (now, p) :: arrivals =>
      let '(rc, st, rates, net) := handle now p st rates net in
      if rc =? 0 then store_run arrivals st rates net else None
  end.

(** The entry after the first [off] bytes, the first chunk having come at [t0]. *)
Definition partial (off : nat) (t0 : Z) : moor_dht_entry_t :=
  mk_entry h (blit 0 (take off data) (zeros MOOR_DHT_MAX_DESC_DATA)) (Z.of_nat (length data))
    (Z.of_nat off) t0 (t0 / MOOR_TIME_PERIOD_SECS).

Lemma put_chunk_partial off c t0 : (off + c <= length data)%nat → (0 < c)%nat →
  put_chunk (partial off t0) (Z.of_nat off) (slice off c data) (Z.of_nat (length data)) =
  partial (off + c) t0.
Proof.
  intros Hc Hc0. assert (length (slice off c data) = c) as Hl by (rewrite length_slice; lia).
  pose proof max_desc_data as Hmax.
  unfold put_chunk, partial. cbn [de_data de_received]. rewrite Hl.
  rewrite (proj2 (Z.leb_le _ _)), (proj2 (Z.leb_le _ _)), (proj2 (Z.ltb_lt _ _)) by lia.
  cbn [andb]. rewrite Nat2Z.id, blit_next by lia. f_equal. lia.
Qed.

(** A well-formed chunk of a descriptor that needs several. *)
Lemma handle_chunk now off c st rates rates' net :
  dht_admits hash self h now = true → dht_store_rate_check rates h circ_id now = (0, rates') →
  (0 < c)%nat → (off + c <= length data)%nat → (off ≠ 0 ∨ c < length data)%nat →
  handle now (dht_header h (Z.of_nat (length data)) (Z.of_nat off) ++ slice off c data) st rates net =
  match chunk_slot st h (Z.of_nat (length data)) now with
  | None => (-1, st, rates', net)
  | Some (i, e, st) =>
      let e := put_chunk e (Z.of_nat off) (slice off c data) (Z.of_nat (length data)) in
      if de_received e <? Z.of_nat (length data) then (0, set_entry i e st, rates', net)
      else (0, set_entry i e st, rates', ack net)
  end.
Proof.
  intros Ha Hr Hc Hoc Hmulti. pose proof max_desc_data as Hmax.
  destruct (parse_header h (Z.of_nat (length data)) (Z.of_nat off) (slice off c data))
    as (H1 & H2 & H3 & H4 & H5); [done|unfold is_u16; lia|unfold is_u16; lia|].
  set (p := dht_header _ _ _ ++ _) in *. clearbody p.
  assert (length (slice off c data) = c) as Hl by (rewrite length_slice; lia).
  unfold moor_dht_handle_store. rewrite (proj2 (Nat.ltb_ge _ _)) by lia.
  rewrite H2, H3, H4, H5, Ha, Hr, Hl. cbn [negb Z.eqb].
  destruct (Z.ltb_spec (Z.of_nat MOOR_DHT_MAX_DESC_DATA) (Z.of_nat (length data))); [lia|].
  destruct (Z.eqb_spec (Z.of_nat (length data)) 0); [lia|]. cbn [orb].
  destruct (Z.leb_spec (Z.of_nat (length data)) (Z.of_nat off)); [lia|].
  destruct (Z.eqb_spec (Z.of_nat c) 0); [lia|].
  destruct (Z.ltb_spec (Z.of_nat (length data)) (Z.of_nat off + Z.of_nat c)); [lia|]. cbn [orb].
  destruct (Z.eqb_spec (Z.of_nat off) 0), (Z.leb_spec (Z.of_nat (length data)) (Z.of_nat c));
    cbn [andb]; [lia|done..].
Qed.

(** The store while the descriptor is arriving. *)
Definition arriving (st0 st : moor_dht_store_t) (off : nat) (t0 : Z) : Prop :=
  store_ok st ∧ store_abs st = <[h := view_of (partial off t0)]> (store_abs st0) ∧
  ∃ i, entry_index st h = Some i ∧ entries st !! i = Some (partial off t0).

Lemma partial_ok off t0 : entry_ok (partial off t0).
Proof.
  pose proof max_desc_data as Hmax.
  split; cbn [partial de_data de_data_len]; [|lia].
  rewrite length_blit; rewrite ?length_zeros; [done|]. rewrite length_take. lia.
Qed.

Lemma arriving_first now c st rates rates' net :
  store_ok st → store_abs st !! h = None → (num_entries st < MOOR_DHT_MAX_STORED)%nat →
  dht_admits hash self h now = true → dht_store_rate_check rates h circ_id now = (0, rates') →
  (0 < c < length data)%nat →
  ∃ st', handle now (dht_header h (Z.of_nat (length data)) 0 ++ slice 0 c data) st rates net =
    (0, st', rates', net) ∧ arriving st st' c now.
Proof.
  intros Hok Hnone Hroom Ha Hr Hc. rewrite (handle_chunk now 0 c _ _ rates') by (done || lia).
  assert (∀ e, e ∈ live st → de_hash e ≠ h) as Hfresh.
  { intros e He Heq. assert (store_abs st !! h = Some (view_of e)); [|congruence].
    apply abs_lookup; [done|]. by exists e. }
  unfold chunk_slot. pose proof (entry_index_spec st h) as Hi.
  destruct (entry_index st h) as [i|].
  { destruct Hi as (e & _ & _ & Hl & Heq). destruct (Hfresh e); [|done]. by eapply list_elem_of_lookup_2. }
  rewrite (proj2 (Nat.leb_gt _ _)) by done.
  change (reset_entry h (Z.of_nat (length data)) now) with (partial 0 now).
  change 0 with (Z.of_nat 0) at 1. rewrite put_chunk_partial by lia. cbn [Nat.add].
  cbn [partial de_received]. rewrite (proj2 (Z.ltb_lt _ _)) by lia. fold (partial c now).
  eexists. split; [done|].
  destruct (append_spec st (partial c now)) as [Hok' Habs]; [done|done|done|apply partial_ok|].
  split; [done|]. split; [done|]. exists (num_entries st). split.
  - unfold entry_index. apply (find_index_intro _ _ _ (partial c now)).
    + rewrite live_lookup by (simpl; lia). apply list_lookup_insert_eq.
      cbn [entries]. by rewrite (so_length _ Hok).
    + apply bytes_eqb_refl.
    + intros j e Hj He. rewrite live_lookup in He by (simpl; lia). simpl in He.
      rewrite list_lookup_insert_ne in He by lia. rewrite <- live_lookup in He by done.
      apply bytes_eqb_neq. apply Hfresh. by eapply list_elem_of_lookup_2.
  - apply list_lookup_insert_eq. cbn [entries]. by rewrite (so_length _ Hok).
Qed.

Lemma arriving_next st0 st now off c t0 rates rates' net :
  arriving st0 st off t0 → 0 <= t0 <= now → now <= t0 + 60 →
  dht_admits hash self h now = true → dht_store_rate_check rates h circ_id now = (0, rates') →
  (0 < off)%nat → (0 < c)%nat → (off + c <= length data)%nat →
  ∃ st', handle now (dht_header h (Z.of_nat (length data)) (Z.of_nat off) ++ slice off c data) st rates net =
    (0, st', rates', if (off + c <? length data)%nat then net else ack net) ∧
    arriving st0 st' (off + c) t0.
Proof.
  intros (Hok & Habs & i & Hi & He) Ht Hnow Ha Hr Hoff Hc Hoc.
  rewrite (handle_chunk now off c _ _ rates') by (done || lia).
  unfold chunk_slot. rewrite Hi, He. cbn [partial de_received de_data_len de_stored_at de_hash].
  assert ((60 <? u64 (now - t0)) = false) as ->.
  { apply Z.ltb_ge. rewrite u64_small by (unfold is_u64; lia). lia. }
  rewrite andb_false_r. cbn [de_data_len]. rewrite Z.eqb_refl. cbn [negb]. fold (partial off t0).
  rewrite put_chunk_partial by lia. cbn [partial de_received]. fold (partial (off + c) t0).
  pose proof (entry_index_spec st h) as Hspec. rewrite Hi in Hspec.
  destruct Hspec as (e & Hlt & He' & Hl & _). assert (e = partial off t0) as -> by congruence.
  destruct (set_entry_spec st i (partial off t0) (partial (off + c) t0)) as [Hok' Habs'];
    [done|done|done|done|apply partial_ok|].
  exists (set_entry i (partial (off + c) t0) st). split.
  { destruct (Z.ltb_spec (Z.of_nat (off + c)) (Z.of_nat (length data))), (Nat.ltb_spec (off + c) (length data));
      done || lia. }
  split; [done|]. split; [rewrite Habs', Habs; apply insert_insert_eq|].
  exists i. split.
  - unfold entry_index in *. rewrite live_set_entry. apply find_index_insert_same; [done|apply bytes_eqb_refl].
  - apply list_lookup_insert_eq. by eapply lookup_lt_Some.
Qed.

Definition admitted (t0 : Z) (a : Z * bytes) : Prop :=
  t0 <= a.1 <= t0 + 60 ∧ dht_admits hash self h a.1 = true.

Lemma store_run_rest fuel off t0 st0 st arrivals rates net :
  arriving st0 st off t0 → rate_owned rates h circ_id → 0 <= t0 →
  (0 < off < length data)%nat → (length data <= fuel + off)%nat →
  arrivals.*2 = publish_from fuel h data off → Forall (admitted t0) arrivals →
  ∃ st' rates', store_run arrivals st rates net = Some (st', rates', ack net) ∧
    arriving st0 st' (length data) t0.
Proof.
  revert off st arrivals rates. induction fuel as [|fuel IH];
    intros off st arrivals rates Harr Hown Ht0 Hoff Hfuel Hpay Hadm; [lia|].
  cbn [publish_from] in Hpay. rewrite (proj2 (Nat.leb_gt _ _)) in Hpay by lia.
  set (c := (if DHT_CHUNK_MAX <? length data - off then DHT_CHUNK_MAX else length data - off)%nat) in *.
  assert (0 < c)%nat as Hc0 by (unfold c, DHT_CHUNK_MAX; destruct (_ <? _)%nat; lia).
  assert (off + c <= length data)%nat as Hoc.
  { unfold c. destruct (Nat.ltb_spec DHT_CHUNK_MAX (length data - off)); lia. }
  clearbody c. destruct arrivals as [|[now p] arrivals]; [done|]. simpl in Hpay.
  injection Hpay as -> Hpay. apply Forall_cons in Hadm as [[Hnow Ha] Hadm]. simpl in Hnow, Ha.
  destruct (rate_check_owned rates h circ_id now Hown) as (rates1 & Hr & Hown1).
  destruct (arriving_next st0 st now off c t0 rates rates1 net) as (st1 & Heq & Harr1);
    [done|lia|lia|done|done|lia|lia|lia|].
  cbn [store_run]. rewrite Heq. cbn [Z.eqb].
  destruct (Nat.ltb_spec (off + c) (length data)) as [Hlt|Hge].
  - apply (IH (off + c)%nat); [done|done|done|lia|lia|done|done].
  - assert (arrivals = []) as ->.
    { rewrite publish_from_end in Hpay by lia. destruct arrivals; [reflexivity|discriminate Hpay]. }
    exists st1, rates1. replace (length data) with (off + c)%nat by lia. done.
Qed.

(** A descriptor that fits in one cell is stored directly. *)
Lemma handle_single now st rates rates' net :
  store_ok st → store_abs st !! h = None → (num_entries st < MOOR_DHT_MAX_STORED)%nat →
  dht_admits hash self h now = true → dht_store_rate_check rates h circ_id now = (0, rates') →
  ∃ st', handle now (dht_header h (Z.of_nat (length data)) 0 ++ data) st rates net =
    (0, st', rates', ack net) ∧ store_ok st' ∧
    store_abs st' = <[h := mk_view data now (now / MOOR_TIME_PERIOD_SECS)]> (store_abs st).
Proof.
  intros Hok Hnone Hroom Ha Hr. pose proof max_desc_data as Hmax.
  destruct (parse_header h (Z.of_nat (length data)) 0 data)
    as (H1 & H2 & H3 & H4 & H5); [done|unfold is_u16; lia|unfold is_u16; lia|].
  set (p := dht_header _ _ _ ++ _) in *. clearbody p.
  unfold moor_dht_handle_store. rewrite (proj2 (Nat.ltb_ge _ _)) by lia.
  rewrite H2, H3, H4, H5, Ha, Hr. cbn [negb Z.eqb andb].
  destruct (Z.ltb_spec (Z.of_nat MOOR_DHT_MAX_DESC_DATA) (Z.of_nat (length data))); [lia|].
  destruct (Z.eqb_spec (Z.of_nat (length data)) 0); [lia|]. cbn [orb].
  destruct (Z.leb_spec (Z.of_nat (length data)) 0); [lia|].
  destruct (Z.ltb_spec (Z.of_nat (length data)) (0 + Z.of_nat (length data))); [lia|]. cbn [orb].
  rewrite Z.leb_refl.
  pose proof (store_put_spec st h data (now / MOOR_TIME_PERIOD_SECS) now Hok data_len) as Hput.
  destruct (moor_dht_store_put _ _ _ _ _ _) as [rc st']. destruct Hput as [Hok' Hput].
  unfold abs_put in Hput. rewrite Hnone, abs_size, (proj2 (Nat.leb_gt _ _)) in Hput by done.
  injection Hput as -> Habs. exists st'. cbn [Z.eqb negb].
  split; [reflexivity|]. split; [exact Hok'|exact Habs].
Qed.

Lemma store_run_publish t0 arrivals st rates rates' net :
  store_ok st → store_abs st !! h = None → (num_entries st < MOOR_DHT_MAX_STORED)%nat →
  rates ≠ [] → dht_store_rate_check rates h circ_id t0 = (0, rates') → 0 <= t0 →
  arrivals.*2 = publish_payloads h data → Forall (admitted t0) arrivals →
  (fst <$> head arrivals) = Some t0 →
  ∃ st' rates'', store_run arrivals st rates net = Some (st', rates'', ack net) ∧ store_ok st' ∧
    store_abs st' = <[h := mk_view data t0 (t0 / MOOR_TIME_PERIOD_SECS)]> (store_abs st).
Proof.
  intros Hok Hnone Hroom Hne Hr Ht0 Hpay Hadm Hhead.
  pose proof max_desc_data as Hmax.
  pose proof (rate_check_owns _ _ _ _ _ Hne Hr) as Hown.
  destruct arrivals as [|[now p] arrivals]; [discriminate Hhead|]. simpl in Hhead. injection Hhead as ->.
  apply Forall_cons in Hadm as [[_ Ha] Hadm]. simpl in Ha.
  assert (∃ fuel, length data = S fuel) as [fuel Hlen] by (exists (length data - 1)%nat; lia).
  unfold publish_payloads in Hpay. rewrite Hlen in Hpay. cbn [publish_from] in Hpay.
  rewrite (proj2 (Nat.leb_gt _ _)), Nat.sub_0_r in Hpay by lia. injection Hpay as -> Hpay.
  destruct (Nat.ltb_spec DHT_CHUNK_MAX (length data)) as [Hbig|Hsmall].
  - destruct (arriving_first t0 DHT_CHUNK_MAX st rates rates' net) as (st1 & Heq & Harr);
      [done..|unfold DHT_CHUNK_MAX in *; lia|].
    cbn [store_run]. change (Z.of_nat 0) with 0. rewrite Heq. cbn [Z.eqb].
    destruct (store_run_rest fuel DHT_CHUNK_MAX t0 st st1 arrivals rates' net)
      as (st' & rates'' & Hrun & Hok' & Habs & _); [done|done|done|unfold DHT_CHUNK_MAX in *; lia|
        unfold DHT_CHUNK_MAX; lia|done|done|].
    exists st', rates''. split; [done|]. split; [done|]. rewrite Habs. f_equal.
    unfold view_of, partial. cbn [de_data de_data_len de_stored_at de_epoch].
    rewrite Nat2Z.id, (take_ge data) by lia. by rewrite take_blit.
  - assert (arrivals = []) as ->.
    { rewrite publish_from_end in Hpay by lia. destruct arrivals; [reflexivity|discriminate Hpay]. }
    assert (slice 0 (length data) data = data) as -> by (unfold slice; simpl; by rewrite take_ge).
    destruct (handle_single t0 st rates rates' net) as (st' & Heq & Hst'); [done..|].
    cbn [store_run]. change (Z.of_nat 0) with 0. rewrite Heq. cbn [Z.eqb].
    exists st', rates'. split; [reflexivity|exact Hst'].
Qed.
End Publish.

(** Publishing a new descriptor stores it. When a relay that is responsible for the
    address and has room handles the cells [moor_dht_publish] cuts a descriptor of
    up to 32768 bytes into, in order and within a minute, it accepts every one of
    them, acknowledges the descriptor exactly once, with the last cell, and from then
    on the lookup of the address returns exactly the published bytes, while every
    other address is untouched. *)
Theorem publish_stores hash {Net} (transmit : moor_cell_t → Net → Z * Net)
    self circ_id prev_open prev_cid h data t0 arrivals st rates rates' net :
  length h = 32%nat → (0 < length data <= MOOR_DHT_MAX_DESC_DATA)%nat →
  store_ok st → moor_dht_store_get st h = None → (num_entries st < MOOR_DHT_MAX_STORED)%nat →
  rates ≠ [] → dht_store_rate_check rates h circ_id t0 = (0, rates') → 0 <= t0 →
  arrivals.*2 = publish_payloads h data → Forall (admitted hash self h t0) arrivals →
  (fst <$> head arrivals) = Some t0 →
  ∃ st' rates'',
    store_run hash transmit self circ_id prev_open prev_cid arrivals st rates net =
      Some (st', rates'', send_ack transmit prev_open prev_cid h net) ∧ store_ok st' ∧
    (view_of <$> moor_dht_store_get st' h = Some (mk_view data t0 (t0 / MOOR_TIME_PERIOD_SECS))) ∧
    (∀ h', h' ≠ h → view_of <$> moor_dht_store_get st' h' = view_of <$> moor_dht_store_get st h').
Proof.
  intros Hh Hd Hok Hnone Hroom Hne Hr Ht0 Hpay Hadm Hhead.
  assert (store_abs st !! h = None) as Habs by (rewrite <- store_get_abs, Hnone; done).
  destruct (store_run_publish hash transmit self circ_id prev_open prev_cid h data Hh Hd
    t0 arrivals st rates rates' net Hok Habs Hroom Hne Hr Ht0 Hpay Hadm Hhead)
    as (st' & rates'' & Hrun & Hok' & Habs').
  exists st', rates''. split; [exact Hrun|]. split; [exact Hok'|].
  rewrite store_get_abs, Habs' by exact Hok'. split; [apply lookup_insert_eq|].
  intros h' Hne'. rewrite !store_get_abs, Habs' by assumption. by rewrite lookup_insert_ne.
Qed.

Definition demo_desc : bytes := repeat 7 600.
Definition demo_addr : bytes := repeat 3 32.
Definition log_send (c : moor_cell_t) (net : list moor_cell_t) : Z * list moor_cell_t := (0, net ++ [c]).
Definition demo_rates : list dht_rate_t := replicate DHT_STORE_RATE_SLOTS (mk_rate (zeros 32) 0 0).

Lemma publish_stores_witness :
  ∃ st' rates'',
    store_run toy_hash log_send None 5 true 9 ((λ p, (90000, p)) <$> publish_payloads demo_addr demo_desc)
      moor_dht_store_init demo_rates [] =
      Some (st', rates'', send_ack log_send true 9 demo_addr []) ∧
    view_of <$> moor_dht_store_get st' demo_addr = Some (mk_view demo_desc 90000 1).
Proof.
  destruct (publish_stores toy_hash log_send None 5 true 9 demo_addr demo_desc 90000
    ((λ p, (90000, p)) <$> publish_payloads demo_addr demo_desc)
    moor_dht_store_init demo_rates (dht_store_rate_check demo_rates demo_addr 5 90000).2 [])
    as (st' & rates'' & Hrun & _ & Hget & _).
  - reflexivity.
  - pose proof max_desc_data. cbn [demo_desc]. unfold demo_desc. rewrite repeat_length. lia.
  - apply store_init_ok.
  - reflexivity.
  - apply Nat.ltb_lt. reflexivity.
  - discriminate.
  - vm_compute. reflexivity.
  - lia.
  - rewrite <- list_fmap_compose. apply list_fmap_id.
  - apply Forall_fmap, Forall_true. intros p. split; [cbn [fst]; lia|reflexivity].
  - reflexivity.
  - exists st', rates''. split; [exact Hrun|exact Hget].
Defined.

(** Publishing a descriptor of the same size again is torn: the entry still counts
    all bytes as received, so the relay acknowledges the first cell of the new
    descriptor, and from then until the remaining cells arrive (the publisher closes
    the circuit once acknowledged) it serves the new first 462 bytes followed by
    the old rest. The entry's age and epoch stay those of the old one. *)
Theorem republish_torn hash {Net} (transmit : moor_cell_t → Net → Z * Net)
    self circ_id prev_open prev_cid h old new t1 e1 now st rates rates' net :
  length h = 32%nat → store_ok st →
  (DHT_CHUNK_MAX < length old <= MOOR_DHT_MAX_DESC_DATA)%nat → length new = length old →
  (∃ i e, entry_index st h = Some i ∧ entries st !! i = Some e ∧
     view_of e = mk_view old t1 e1 ∧ de_data_len e = Z.of_nat (length old) ∧
     de_received e = Z.of_nat (length old)) →
  dht_store_rate_check rates h circ_id now = (0, rates') → dht_admits hash self h now = true →
  ∃ st', moor_dht_handle_store hash transmit self circ_id prev_open prev_cid now
      (dht_header h (Z.of_nat (length new)) 0 ++ slice 0 DHT_CHUNK_MAX new) st rates net =
      (0, st', rates', send_ack transmit prev_open prev_cid h net) ∧
    (view_of <$> moor_dht_store_get st' h =
       Some (mk_view (take DHT_CHUNK_MAX new ++ drop DHT_CHUNK_MAX old) t1 e1)).
Proof.
  intros Hh Hok Hlen Hnew (i & e & Hi & He & Hv & Hdl & Hrcv) Hr Ha.
  pose proof max_desc_data as Hmax.
  change 0 with (Z.of_nat 0) at 1.
  rewrite (handle_chunk hash transmit self circ_id prev_open prev_cid h new Hh ltac:(lia) now 0
    DHT_CHUNK_MAX st rates rates' net Ha Hr) by (unfold DHT_CHUNK_MAX in *; lia).
  unfold chunk_slot. rewrite Hi, He, Hnew, Hrcv, Hdl, Z.ltb_irrefl. cbn [andb]. rewrite Hdl, Z.eqb_refl.
  cbn [negb]. assert (length (slice 0 DHT_CHUNK_MAX new) = DHT_CHUNK_MAX) as Hs
    by (rewrite length_slice; unfold DHT_CHUNK_MAX in *; lia).
  unfold put_chunk. rewrite Hs.
  rewrite (proj2 (Z.leb_le _ _)), (proj2 (Z.leb_le _ _)) by (unfold DHT_CHUNK_MAX in *; lia). cbn [andb].
  set (e' := {| e with de_data := _; de_received := _ |}).
  assert (de_received e' = Z.of_nat (length old)) as ->.
  { unfold e'. cbn [de_received]. rewrite Hrcv. destruct (Z.ltb_spec (Z.of_nat (length old)) (Z.of_nat 0 + Z.of_nat DHT_CHUNK_MAX));
      [unfold DHT_CHUNK_MAX in *; lia|done]. }
  rewrite Z.ltb_irrefl. eexists. split; [done|].
  pose proof (entry_index_spec st h) as Hspec. rewrite Hi in Hspec.
  destruct Hspec as (e0 & Hlt & He0 & _ & He0h). assert (e0 = e) as -> by congruence.
  destruct (Forall_lookup_1 _ _ _ _ (so_entries _ Hok) He) as [Hbuf _].
  destruct (set_entry_spec st i e e') as [Hok' Habs]; [done|done|done|done| |].
  { split; unfold e'; cbn [de_data de_data_len]; [|lia]. rewrite length_blit; [done|]. simpl. rewrite Hs, Hbuf. unfold DHT_CHUNK_MAX in *; lia. }
  rewrite store_get_abs, Habs, He0h, lookup_insert_eq by done. f_equal.
  unfold view_of in *. injection Hv as Hv Ht He1. unfold e'. cbn [de_data de_data_len de_stored_at de_epoch].
  rewrite Ht, He1. f_equal. rewrite Hdl, Nat2Z.id in *. unfold blit.
  change (Z.to_nat (Z.of_nat 0)) with O. rewrite take_0, app_nil_l, Nat.add_0_l.
  rewrite take_app_ge by (rewrite Hs; unfold DHT_CHUNK_MAX in *; lia).
  rewrite !Hs. unfold slice. rewrite drop_0. f_equal.
  rewrite <- skipn_firstn_comm, Hv. done.
Qed.

Definition demo_entry : moor_dht_entry_t :=
  mk_entry demo_addr (blit 0 demo_desc (zeros MOOR_DHT_MAX_DESC_DATA)) 600 600 90000 1.

Definition demo_store : moor_dht_store_t :=
  mk_store (<[O := demo_entry]> (entries moor_dht_store_init)) 1.

Lemma demo_entry_ok : entry_ok demo_entry ∧ view_of demo_entry = mk_view demo_desc 90000 1.
Proof.
  pose proof max_desc_data. split.
  - split; cbn [demo_entry de_data de_data_len]; [|lia].
    rewrite length_blit; [apply length_zeros|]. rewrite length_zeros. unfold demo_desc. rewrite repeat_length. lia.
  - unfold view_of, demo_entry. cbn [de_data de_data_len de_stored_at de_epoch]. by rewrite take_blit.
Qed.

Lemma demo_store_ok : store_ok demo_store.
Proof.
  apply (append_spec moor_dht_store_init demo_entry store_init_ok).
  - apply Nat.ltb_lt. reflexivity.
  - intros e He. by apply elem_of_nil in He.
  - apply demo_entry_ok.
Qed.

Lemma republish_torn_witness :
  ∃ st', moor_dht_handle_store toy_hash log_send None 6 true 9 95000
      (dht_header demo_addr (Z.of_nat (length (repeat 8 600))) 0 ++ slice 0 DHT_CHUNK_MAX (repeat 8 600))
      demo_store demo_rates [] =
      (0, st', (dht_store_rate_check demo_rates demo_addr 6 95000).2, send_ack log_send true 9 demo_addr []) ∧
    (view_of <$> moor_dht_store_get st' demo_addr =
       Some (mk_view (take DHT_CHUNK_MAX (repeat 8 600) ++ drop DHT_CHUNK_MAX demo_desc) 90000 1)).
Proof.
  apply (republish_torn toy_hash log_send None 6 true 9 demo_addr demo_desc (repeat 8 600) 90000 1 95000
    demo_store demo_rates (dht_store_rate_check demo_rates demo_addr 6 95000).2 []).
  - reflexivity.
  - apply demo_store_ok.
  - pose proof max_desc_data. unfold demo_desc, DHT_CHUNK_MAX. rewrite repeat_length. lia.
  - reflexivity.
  - exists O, demo_entry. split; [reflexivity|]. split; [reflexivity|]. split; [apply demo_entry_ok|].
    split; reflexivity.
  - vm_compute. reflexivity.
  - reflexivity.
Defined.
