(* ===== verification/DhtFile.v ===== *)
(** * The descriptor store on disk

    Models [moor_dht_store_save] and [moor_dht_store_load] of [src/src/dht.c]: the
    file is its list of bytes, integers are written in the little-endian order of
    the supported machines, and reading stops at the first short read. Opening,
    writing and renaming the file succeed. *)

From S2P Require Import Prelude Cell Dht.

(** [fwrite(e->data, data_len, 1, f)] of zero bytes returns 0: [None]. *)
Definition save_entry (e : moor_dht_entry_t) : option bytes :=
  if de_data_len e =? 0 then None
  else Some (de_hash e ++ le_put 2 (de_data_len e) ++ take (Z.to_nat (de_data_len e)) (de_data e)
             ++ le_put 8 (de_stored_at e) ++ le_put 8 (de_epoch e)).

Fixpoint save_entries (es : list moor_dht_entry_t) : option bytes :=
  match es with
  | [] => Some []
  | e :: es =>
      match save_entry e with
      | None => None
      | Some b => match save_entries es with None => None | Some bs => Some (b ++ bs) end
      end
  end.

Definition dht_magic : bytes := [77; 68; 72; 84].

(** [None] is -1: the temporary file is removed. *)
Definition moor_dht_store_save (st : moor_dht_store_t) : option bytes :=
  match save_entries (live st) with
  | None => None
  | Some body => Some (dht_magic ++ [1] ++ le_put 4 (Z.of_nat (num_entries st)) ++ body)
  end.

(** Little-endian integers read back. *)
Definition le_get (l : bytes) : Z := be_get (rev l).

(** [fread(buf, n, 1, f) == 1]: [n] bytes and the rest; zero bytes count as a
    failure. *)
Definition fread (n : nat) (f : bytes) : option (bytes * bytes) :=
  if (n =? 0)%nat || (length f <? n)%nat then None else Some (take n f, drop n f).

(** One entry of the file: address, length, data, time and epoch. *)
Definition load_entry (f : bytes) : option (bytes * Z * bytes * Z * Z * bytes) :=
  match fread 32 f with
  | None => None
  | Some (addr, f) =>
  match fread 2 f with
  | None => None
  | Some (dl, f) =>
      let dlen := le_get dl in
      if Z.of_nat MOOR_DHT_MAX_DESC_DATA <? dlen then None
      else
        match fread (Z.to_nat dlen) f with
        | None => None
        | Some (d, f) =>
        match fread 8 f with
        | None => None
        | Some (sa, f) =>
        match fread 8 f with
        | None => None
        | Some (ep, f) => Some (addr, dlen, d, le_get sa, le_get ep, f)
        end end end
  end end.

(** The loop over [n] entries; [loaded] counts the unexpired ones. *)
Fixpoint load_entries (n : nat) (now : Z) (f : bytes) (loaded : nat) (es : list moor_dht_entry_t)
  : nat * list moor_dht_entry_t :=
  match n with
  | O => (loaded, es)
  | S n =>
      match load_entry f with
      | None => (loaded, es)
      | Some (addr, dlen, d, stored_at, epoch, f) =>
          if MOOR_DHT_EPOCH_TTL <? u64 (now - stored_at) then load_entries n now f loaded es
          else
            load_entries n now f (S loaded)
              (alter (λ e, mk_entry addr (blit 0 d (de_data e)) dlen dlen stored_at epoch) loaded es)
      end
  end.

(** [None] is -1, the store being untouched. *)
Definition moor_dht_store_load (st : moor_dht_store_t) (file : bytes) (now : Z)
  : option moor_dht_store_t :=
  match fread 4 file with
  | None => None
  | Some (magic, f) =>
  match fread 1 f with
  | None => None
  | Some (version, f) =>
  match fread 4 f with
  | None => None
  | Some (nb, f) =>
      let n := le_get nb in
      if negb (bytes_eqb magic dht_magic) || negb (bytes_eqb version [1])
         || (Z.of_nat MOOR_DHT_MAX_STORED <? n) then None
      else
        let '(loaded, es) := load_entries (Z.to_nat n) now f 0 (entries st) in
        Some (mk_store es loaded)
  end end end.

(** ** Saving and loading *)

Lemma le_get_put n v : 0 <= v < 2 ^ (8 * Z.of_nat n) → le_get (le_put n v) = v.
Proof. intros H. unfold le_get. rewrite le_put_rev, rev_involutive. by apply be_get_put_small. Qed.

Lemma fread_app n a f : length a = n → (0 < n)%nat → fread n (a ++ f) = Some (a, f).
Proof.
  intros Ha Hn. unfold fread. rewrite (proj2 (Nat.eqb_neq _ _)) by lia. cbn [orb].
  rewrite (proj2 (Nat.ltb_ge _ _)) by (rewrite length_app; lia).
  by rewrite take_app_length', drop_app_length'.
Qed.

(** An entry whose fields fit the file. *)
Definition storable (e : moor_dht_entry_t) : Prop :=
  entry_ok e ∧ 0 < de_data_len e ∧ length (de_hash e) = 32%nat ∧
  is_u64 (de_stored_at e) ∧ is_u64 (de_epoch e).

Lemma load_save_entry e f : storable e →
  ∃ b, save_entry e = Some b ∧
    load_entry (b ++ f) = Some (de_hash e, de_data_len e, v_data (view_of e), de_stored_at e, de_epoch e, f).
Proof.
  intros ((Hl & Hd) & Hpos & Hh & Hs & He). unfold save_entry.
  rewrite (proj2 (Z.eqb_neq _ _)) by lia. eexists. split; [done|].
  pose proof max_desc_data as Hmax. unfold load_entry. rewrite <- !app_assoc.
  rewrite fread_app by lia. rewrite fread_app by (apply length_le_put || lia).
  rewrite le_get_put by (simpl; lia). rewrite (proj2 (Z.ltb_ge _ _)) by lia.
  rewrite fread_app by (rewrite ?length_take; lia).
  rewrite fread_app by (apply length_le_put || lia). rewrite fread_app by (apply length_le_put || lia).
  rewrite !le_get_put by assumption. reflexivity.
Qed.

Definition unexpired_entry (now : Z) (e : moor_dht_entry_t) : Prop := entry_expired now e = false.

#[global] Instance fresh_entry_dec now e : Decision (unexpired_entry now e).
Proof. unfold unexpired_entry. apply _. Defined.

(** What an entry looks like after a restart: the padding behind the data is lost. *)
Definition same_view (e e' : moor_dht_entry_t) : Prop :=
  de_hash e' = de_hash e ∧ view_of e' = view_of e ∧ de_data_len e' = de_data_len e ∧
  de_received e' = de_data_len e ∧ entry_ok e'.

(** Loading what was saved fills the slots from [loaded] on with the unexpired
    entries, in order. *)
Lemma load_entries_spec es now loaded arr :
  Forall storable es → Forall entry_ok arr → (loaded + length es <= length arr)%nat →
  ∃ body new arr', save_entries es = Some body ∧
    load_entries (length es) now body loaded arr = ((loaded + length new)%nat, arr') ∧
    Forall2 same_view (filter (unexpired_entry now) es) new ∧ Forall entry_ok arr' ∧
    length arr' = length arr ∧ take (loaded + length new) arr' = take loaded arr ++ new.
Proof.
  intros Hes. revert loaded arr. induction Hes as [|e es He Hes IH]; intros loaded arr Harr Hlen.
  { exists [], [], arr. rewrite Nat.add_0_r, app_nil_r. split_and!; [done..|constructor|done|done|done]. }
  cbn [length] in Hlen. cbn [save_entries length load_entries].
  destruct (decide (unexpired_entry now e)) as [Hf|Hf].
  - destruct (lookup_lt_is_Some_2 arr loaded) as [old Hold]; [lia|].
    set (e' := mk_entry (de_hash e) (blit 0 (v_data (view_of e)) (de_data old)) (de_data_len e)
                 (de_data_len e) (de_stored_at e) (de_epoch e)).
    destruct He as ((Hbuf & Hd) & Hpos & Hrest).
    assert (length (v_data (view_of e)) = Z.to_nat (de_data_len e)) as Hvl.
    { unfold view_of. cbn [v_data]. rewrite length_take, Hbuf. pose proof max_desc_data. lia. }
    assert (entry_ok e') as Hok'.
    { split; [|exact Hd]. unfold e'. cbn [de_data]. rewrite length_blit;
        rewrite (proj1 (Forall_lookup_1 _ _ _ _ Harr Hold)); [reflexivity|]. rewrite Hvl.
      pose proof max_desc_data. lia. }
    destruct (IH (S loaded) (<[loaded := e']> arr)) as (body & new & arr' & Hs & Hl & Hv & Ha & Hn & Ht);
      [by apply Forall_insert|rewrite length_insert; lia|].
    destruct (load_save_entry e body) as (b & -> & Hle); [by split|]. rewrite Hs.
    exists (b ++ body), (e' :: new), arr'. split; [reflexivity|]. rewrite Hle.
    unfold unexpired_entry, entry_expired in Hf. rewrite Hf.
    rewrite (alter_insert _ _ _ old Hold). fold e'. rewrite Hl, filter_cons_True by exact Hf.
    cbn [length]. rewrite length_insert in Hn.
    replace (S loaded + length new)%nat with (loaded + S (length new))%nat in * by lia.
    split; [reflexivity|]. split; [|split; [exact Ha|split; [exact Hn|]]].
    + constructor; [|exact Hv]. split_and!; [reflexivity| |reflexivity|reflexivity|exact Hok'].
      unfold view_of at 1, e'. cbn [de_data de_data_len de_stored_at de_epoch].
      rewrite take_blit by exact Hvl. reflexivity.
    + rewrite Ht. rewrite (take_S_r _ _ e') by (apply list_lookup_insert_eq; lia).
      rewrite take_insert_ge by lia. by rewrite <- app_assoc.
  - destruct (IH loaded arr) as (body & new & arr' & Hs & Hl & Hrest); [exact Harr|lia|].
    destruct (load_save_entry e body He) as (b & -> & Hle). rewrite Hs.
    exists (b ++ body), new, arr'. split; [reflexivity|]. rewrite Hle.
    assert ((MOOR_DHT_EPOCH_TTL <? u64 (now - de_stored_at e)) = true) as ->.
    { unfold unexpired_entry, entry_expired in Hf. by apply not_false_iff_true in Hf. }
    rewrite filter_cons_False by exact Hf. split; [exact Hl|exact Hrest].
Qed.

(** C30. The store survives a restart. Saving a store of complete descriptors and loading
    the file into an empty store, at any later time, gives back exactly the
    unexpired descriptors: every address has the bytes, the storage time and the
    epoch it had, as if the store had only been expired. *)
Theorem dht_save_load st now h :
  store_ok st → Forall storable (live st) →
  ∃ file st', moor_dht_store_save st = Some file ∧
    moor_dht_store_load moor_dht_store_init file now = Some st' ∧ store_ok st' ∧
    view_of <$> moor_dht_store_get st' h =
      view_of <$> moor_dht_store_get (moor_dht_store_expire st now) h.
Proof.
  intros Hok Hst.
  assert (length (live st) = num_entries st) as Hnum.
  { unfold live. rewrite length_take, (so_length _ Hok). pose proof (so_num _ Hok). lia. }
  pose proof store_init_ok as Hinit.
  destruct (load_entries_spec (live st) now 0 (entries moor_dht_store_init))
    as (body & new & arr' & Hs & Hl & Hv & Ha & Hn & Ht);
    [exact Hst|apply Hinit|rewrite (so_length _ Hinit), Hnum; apply Hok|].
  unfold moor_dht_store_save. rewrite Hs.
  exists (dht_magic ++ [1] ++ le_put 4 (Z.of_nat (num_entries st)) ++ body), (mk_store arr' (length new)).
  split; [reflexivity|]. rewrite take_0 in Ht. cbn [app Nat.add] in Ht, Hl.
  assert (live (mk_store arr' (length new)) = new) as Hlive by exact Ht.
  assert (NoDup (de_hash <$> new) ∧ (length new <= num_entries st)%nat) as [Hnd Hcount].
  { assert (de_hash <$> new = de_hash <$> filter (unexpired_entry now) (live st)) as ->.
    { symmetry. clear -Hv. induction Hv as [|x y l k [Hh _] _ IH]; [reflexivity|]. rewrite !fmap_cons, IH, Hh. done. }
    split; [|rewrite <- Hnum, <- (Forall2_length _ _ _ Hv); apply length_filter].
    eapply sublist_NoDup; [apply (so_nodup _ Hok)|]. apply fmap_sublist, sublist_filter. }
  assert (store_ok (mk_store arr' (length new))) as Hok'.
  { split; cbn [entries num_entries].
    - by rewrite Hn, (so_length _ Hinit).
    - pose proof (so_num _ Hok). lia.
    - by rewrite Hlive.
    - exact Ha. }
  split.
  { unfold moor_dht_store_load. rewrite fread_app by (reflexivity || lia).
    rewrite fread_app by (reflexivity || lia). rewrite fread_app by (apply length_le_put || lia).
    pose proof (so_num _ Hok) as H256. unfold MOOR_DHT_MAX_STORED in H256.
    rewrite le_get_put by (simpl; lia). rewrite !bytes_eqb_refl. cbn [negb orb].
    rewrite (proj2 (Z.ltb_ge _ _)) by (unfold MOOR_DHT_MAX_STORED; lia).
    rewrite Nat2Z.id, <- Hnum, Hl. reflexivity. }
  split; [exact Hok'|].
  destruct (expire_loop_spec (num_entries st) 0 now st) as [Hexp Hperm]; [exact Hok|lia|constructor|].
  fold (moor_dht_store_expire st now) in Hexp, Hperm.
  rewrite !store_get_abs by assumption. f_equal. unfold store_abs. rewrite Hlive.
  assert (keyed <$> new = keyed <$> filter (unexpired_entry now) (live st)) as ->.
  { symmetry. clear -Hv. induction Hv as [|x y l k (Hh & Hx & _) _ IH]; [reflexivity|].
    rewrite !fmap_cons, IH. unfold keyed at 1 3. by rewrite Hh, Hx. }
  symmetry. apply list_to_map_proper; [rewrite keyed_fst; apply Hexp|]. by rewrite Hperm.
Qed.

Lemma dht_save_load_witness :
  ∃ file st', moor_dht_store_save demo_store = Some file ∧
    moor_dht_store_load moor_dht_store_init file 90060 = Some st' ∧
    view_of <$> moor_dht_store_get st' demo_addr =
      view_of <$> moor_dht_store_get (moor_dht_store_expire demo_store 90060) demo_addr.
Proof.
  destruct (dht_save_load demo_store 90060 demo_addr) as (file & st' & H1 & H2 & _ & H3).
  - apply demo_store_ok.
  - apply Forall_singleton. split; [apply demo_entry_ok|]. split; [reflexivity|].
    split; [reflexivity|]. split; split; discriminate || reflexivity.
  - exists file, st'. split; [exact H1|]. split; [exact H2|exact H3].
Defined.
