(* ===== verification/Pir.v ===== *)
(** * Private retrieval of descriptors from the DHT

    Models the second half of [src/src/dht.c]: the XOR-bitmask query, the
    distributed point function (DPF) of Boyle, Gilboa and Ishai with its key
    generation, full-domain evaluation and wire format, the handlers of
    RELAY_DHT_PIR_QUERY and RELAY_DHT_DPF_QUERY over the relay's store, the
    multi-cell response and the client that receives two of them and combines
    them.

    BLAKE2b keyed with the PRG label, the ChaCha20 key stream, the random seeds and
    masks, and the transmission of a cell are parameters. Allocations succeed. *)

From S2P Require Import Prelude Cell Dht.

Definition DPF_LAMBDA : nat := 16.
Definition DPF_LEVELS : nat := 8.
Definition DPF_DOMAIN_SIZE : nat := 256.
Definition DPF_KEY_WIRE_SIZE : nat := 177.
Definition PIR_RESP_HDR : nat := 8.
Definition PIR_CHUNK_MAX : nat := 490.
Definition PIR_RECV_MAX_CELLS : nat := 96.

(** ** The distributed point function *)

(** Control bits are bytes with value 0 or 1. *)
Record dpf_cw_t := mk_cw { cw_s : bytes; cw_t_left : Z; cw_t_right : Z }.

Record dpf_key_t := mk_key {
  dk_seed : bytes;
  dk_t : Z;
  dk_cw : list dpf_cw_t;     (* [DPF_LEVELS] *)
  dk_cw_leaf : bytes;
}.

Section Dpf.
  (** [crypto_generichash_blake2b] keyed with the label, and [crypto_stream_chacha20]
      of a length under the zero nonce. *)
  Context (blake2b_prg : bytes → bytes) (chacha20_stream : nat → bytes → bytes).

Definition dpf_prg (seed : bytes) : bytes * Z * bytes * Z :=
  let out := chacha20_stream (2 * DPF_LAMBDA + 2) (blake2b_prg seed) in
  (slice 0 DPF_LAMBDA out, Z.land (byte_at DPF_LAMBDA out) 1,
   slice (DPF_LAMBDA + 1) DPF_LAMBDA out, Z.land (byte_at (2 * DPF_LAMBDA + 1) out) 1).

(** A party's state at one level. *)
Abbreviation party := (bytes * Z)%type.

(** One level of the key generation towards direction [dir]: the correction word
    and the two parties' states below the kept child. *)
Definition gen_level (dir : Z) (a b : party) : dpf_cw_t * party * party :=
  let '(s_a, t_a) := a in
  let '(s_b, t_b) := b in
  let '(s_a_l, t_a_l, s_a_r, t_a_r) := dpf_prg s_a in
  let '(s_b_l, t_b_l, s_b_r, t_b_r) := dpf_prg s_b in
  let '(s_keep_a, s_lose_a, t_keep_a) :=
    if dir =? 0 then (s_a_l, s_a_r, t_a_l) else (s_a_r, s_a_l, t_a_r) in
  let '(s_keep_b, s_lose_b, t_keep_b) :=
    if dir =? 0 then (s_b_l, s_b_r, t_b_l) else (s_b_r, s_b_l, t_b_r) in
  let cw := mk_cw (xor_bytes s_lose_a s_lose_b)
              (Z.lxor (Z.lxor t_a_l t_b_l) (if dir =? 0 then 1 else 0))
              (Z.lxor (Z.lxor t_a_r t_b_r) (if dir =? 1 then 1 else 0)) in
  let cw_t := if dir =? 0 then cw_t_left cw else cw_t_right cw in
  (cw,
   if negb (t_a =? 0) then (xor_bytes s_keep_a (cw_s cw), Z.lxor t_keep_a cw_t)
   else (s_keep_a, t_keep_a),
   if negb (t_b =? 0) then (xor_bytes s_keep_b (cw_s cw), Z.lxor t_keep_b cw_t)
   else (s_keep_b, t_keep_b)).

Fixpoint gen_levels (dirs : list Z) (a b : party) : list dpf_cw_t * party * party :=
  match dirs with
  | [] => ([], a, b)
  | dir :: dirs =>
      let '(cw, a, b) := gen_level dir a b in
      let '(cws, a, b) := gen_levels dirs a b in (cw :: cws, a, b)
  end.

(** The direction bits of a target, most significant first. *)
Definition target_dirs (target : Z) : list Z :=
  (λ i, Z.land (Z.shiftr target (Z.of_nat (DPF_LEVELS - 1 - i))) 1) <$> seq 0 DPF_LEVELS.

(** [cw_leaf[0] ^= 1]. *)
Definition flip_first (l : bytes) : bytes :=
  match l with [] => [] | x :: l => Z.lxor x 1 :: l end.

Definition moor_dpf_gen (seed_a seed_b : bytes) (target : Z) : dpf_key_t * dpf_key_t :=
  let '(cws, (s_a, _), (s_b, _)) := gen_levels (target_dirs target) (seed_a, 0) (seed_b, 1) in
  let leaf := flip_first (xor_bytes s_a s_b) in
  (mk_key seed_a 0 cws leaf, mk_key seed_b 1 cws leaf).

(** Expanding a node: its left and right child. *)
Definition expand (cw : dpf_cw_t) (node : party) : list party :=
  let '(s, t) := node in
  let '(s_l, t_l, s_r, t_r) := dpf_prg s in
  if negb (t =? 0)
  then [(xor_bytes s_l (cw_s cw), Z.lxor t_l (cw_t_left cw));
        (xor_bytes s_r (cw_s cw), Z.lxor t_r (cw_t_right cw))]
  else [(s_l, t_l); (s_r, t_r)].

(** The nodes of a level; [next_count] is twice their number, at most [n]. *)
Fixpoint eval_levels (n : nat) (cws : list dpf_cw_t) (nodes : list party) : list party :=
  match cws with
  | [] => nodes
  | cw :: cws => eval_levels n cws (take n (concat (expand cw <$> nodes)))
  end.

Definition leaf_output (leaf : bytes) (node : party) : Z :=
  let '(s, t) := node in
  let val := if negb (t =? 0) then xor_bytes s leaf else s in
  Z.land (byte_at 0 val) 1.

Definition moor_dpf_eval_full (key : dpf_key_t) (n : nat) : list Z :=
  let n := (if DPF_DOMAIN_SIZE <? n then DPF_DOMAIN_SIZE else n)%nat in
  leaf_output (dk_cw_leaf key) <$> eval_levels n (dk_cw key) [(dk_seed key, dk_t key)].
End Dpf.

(** ** The key on the wire *)

Definition cw_bytes (cw : dpf_cw_t) : bytes := cw_s cw ++ [cw_t_left cw] ++ [cw_t_right cw].

Definition moor_dpf_key_serialize (key : dpf_key_t) : bytes :=
  dk_seed key ++ [dk_t key] ++ concat (cw_bytes <$> dk_cw key) ++ dk_cw_leaf key.

Fixpoint parse_cws (k : nat) (d : bytes) : list dpf_cw_t :=
  match k with
  | O => []
  | S k => mk_cw (take DPF_LAMBDA d) (Z.land (byte_at DPF_LAMBDA d) 1)
             (Z.land (byte_at (DPF_LAMBDA + 1) d) 1)
           :: parse_cws k (drop (DPF_LAMBDA + 2) d)
  end.

(** [None] is -1. *)
Definition moor_dpf_key_deserialize (d : bytes) : option dpf_key_t :=
  if (length d <? DPF_KEY_WIRE_SIZE)%nat then None
  else
    let rest := drop (DPF_LAMBDA + 1) d in
    Some (mk_key (take DPF_LAMBDA d) (Z.land (byte_at DPF_LAMBDA d) 1)
            (parse_cws DPF_LEVELS rest)
            (slice (DPF_LEVELS * (DPF_LAMBDA + 2)) DPF_LAMBDA rest)).

(** ** The slots of a store *)

Record flat_slot := mk_slot { fl_data : bytes; fl_len : Z; fl_time : Z }.

Definition empty_slot : flat_slot := mk_slot (zeros MOOR_DHT_MAX_DESC_DATA) 0 0.

Definition slot_of (address_hash : bytes) : Z :=
  Z.lxor (byte_at 0 address_hash) (byte_at 1 address_hash).

(** One entry: the latest one of a slot wins. *)
Definition place_entry (flat : list flat_slot) (e : moor_dht_entry_t) : list flat_slot :=
  alter (λ s,
    if fl_time s <=? de_stored_at e then
      let dlen := if Z.of_nat MOOR_DHT_MAX_DESC_DATA <? de_data_len e
                  then Z.of_nat MOOR_DHT_MAX_DESC_DATA else de_data_len e in
      mk_slot (take (Z.to_nat dlen) (de_data e) ++ zeros (MOOR_DHT_MAX_DESC_DATA - Z.to_nat dlen))
        dlen (de_stored_at e)
    else s) (Z.to_nat (slot_of (de_hash e))) flat.

Definition flatten_store (st : moor_dht_store_t) : list flat_slot :=
  fold_left place_entry (live st) (replicate 256 empty_slot).

(** XOR of the slots selected by [sel], empty ones skipped. *)
Fixpoint xor_slots (sel : nat → bool) (j : nat) (flat : list flat_slot) (result : bytes) : bytes :=
  match flat with
  | [] => result
  | s :: flat =>
      xor_slots sel (S j) flat
        (if sel j && negb (fl_len s =? 0) then xor_bytes result (fl_data s) else result)
  end.

Definition pir_answer (sel : nat → bool) (st : moor_dht_store_t) : bytes :=
  xor_slots sel 0 (flatten_store st) (zeros MOOR_DHT_MAX_DESC_DATA).

Definition mask_bit (bitmask : bytes) (j : nat) : bool :=
  negb (Z.land (byte_at (j / 8) bitmask) (Z.shiftl 1 (Z.of_nat (j mod 8))) =? 0).

(** ** The query handlers *)

Section Query.
  Context {Net : Type} (transmit : moor_cell_t → Net → Z * Net).

Definition response_data (query_id result : bytes) (off chunk : nat) : bytes :=
  query_id ++ be_put 2 (Z.of_nat MOOR_DHT_MAX_DESC_DATA) ++ be_put 2 (Z.of_nat off)
  ++ slice off chunk result.

(** [while (off < total)]: 67 cells of 490 bytes carry the 32768. *)
Fixpoint send_response (fuel : nat) (cmd : moor_relay_cmd_t) (prev_cid : Z)
    (query_id result : bytes) (off : nat) (net : Net) : Z * Net :=
  match fuel with
  | O => (0, net)
  | S fuel =>
      if (MOOR_DHT_MAX_DESC_DATA <=? off)%nat then (0, net)
      else
        let left_ := (MOOR_DHT_MAX_DESC_DATA - off)%nat in
        let chunk := (if PIR_CHUNK_MAX <? left_ then PIR_CHUNK_MAX else left_)%nat in
        let cell := moor_cell_relay prev_cid (relay_code cmd) 0
                      (Some (response_data query_id result off chunk))
                      (u16 (Z.of_nat (PIR_RESP_HDR + chunk))) in
        let '(rc, net) := transmit cell net in
        if negb (rc =? 0) then (-1, net)
        else send_response fuel cmd prev_cid query_id result (off + chunk) net
  end.

Definition PIR_CELLS : nat := 67.

Definition moor_dht_handle_pir_query (prev_open : bool) (prev_cid : Z) (payload : bytes)
    (st : moor_dht_store_t) (net : Net) : Z * Net :=
  if (length payload <? 36)%nat then (-1, net)
  else if negb prev_open then (-1, net)
  else
    let result := pir_answer (mask_bit (slice 4 32 payload)) st in
    send_response PIR_CELLS RELAY_DHT_PIR_RESPONSE prev_cid (take 4 payload) result 0 net.

Definition moor_dht_handle_dpf_query (blake2b_prg : bytes → bytes)
    (chacha20_stream : nat → bytes → bytes) (prev_open : bool) (prev_cid : Z) (payload : bytes)
    (st : moor_dht_store_t) (net : Net) : Z * Net :=
  if (length payload <? 4 + DPF_KEY_WIRE_SIZE)%nat then (-1, net)
  else if negb prev_open then (-1, net)
  else
    match moor_dpf_key_deserialize (drop 4 payload) with
    | None => (-1, net)
    | Some key =>
        let bits := moor_dpf_eval_full blake2b_prg chacha20_stream key DPF_DOMAIN_SIZE in
        let result := pir_answer (λ j, negb (nth j bits 0 =? 0)) st in
        send_response PIR_CELLS RELAY_DHT_DPF_RESPONSE prev_cid (take 4 payload) result 0 net
    end.
End Query.

(** ** The client *)

(** One response cell after decryption: the buffer, the bytes received and the total
    announced ([None]: this is the first cell). [None]: -1. *)
Definition recv_step (expected_qid : bytes) (expected_cmd : moor_relay_cmd_t)
    (rp : moor_relay_payload_t) (out : bytes) (total : option Z) : option (bytes * Z * Z) :=
  if negb (relay_command rp =? relay_code expected_cmd) then None
  else if data_length rp <? 8 then None
  else if negb (bytes_eqb (take 4 (data rp)) expected_qid) then None
  else
    let resp_total := be_get (slice 4 2 (data rp)) in
    let offset := be_get (slice 6 2 (data rp)) in
    let chunk := data_length rp - 8 in
    let ok := match total with
              | None => negb (Z.of_nat MOOR_DHT_MAX_DESC_DATA <? resp_total)
              | Some t => resp_total =? t
              end in
    if negb ok then None
    else if resp_total <? offset + chunk then None
    else Some (blit (Z.to_nat offset) (slice PIR_RESP_HDR (Z.to_nat chunk) (data rp)) out,
               offset + chunk, resp_total).

(** [cells] is what the circuit delivers before a timeout or an error. *)
Fixpoint recv_loop (fuel : nat) (qid : bytes) (cmd : moor_relay_cmd_t)
    (cells : list moor_relay_payload_t) (out : bytes) (received : Z) (total : option Z)
  : option bytes :=
  match fuel with
  | O => if match total with Some t => t | None => 0 end <=? received then Some out else None
  | S fuel =>
      match cells with
      | [] => None
      | rp :: cells =>
          match recv_step qid cmd rp out total with
          | None => None
          | Some (out, received, t) =>
              if t <=? received then Some out
              else recv_loop fuel qid cmd cells out received (Some t)
          end
      end
  end.

Definition dht_recv_pir_response_ex (qid : bytes) (cmd : moor_relay_cmd_t)
    (cells : list moor_relay_payload_t) : option bytes :=
  recv_loop PIR_RECV_MAX_CELLS qid cmd cells (zeros MOOR_DHT_MAX_DESC_DATA) 0 None.

(** [result = R1 XOR R2]; an all-zero result is "not found". *)
Definition pir_combine (r1 r2 : bytes) : option bytes :=
  let result := xor_bytes r1 r2 in
  if forallb (λ b, b =? 0) result then None else Some result.

(** The two masks of the XOR query: [s2] is [s1] with the slot's bit flipped. *)
Definition flip_mask (slot : Z) (s1 : bytes) : bytes :=
  alter (λ b, Z.lxor b (Z.shiftl 1 (slot mod 8))) (Z.to_nat (slot / 8)) s1.

Definition pir_query (query_id mask : bytes) : bytes := query_id ++ mask.

Definition dpf_query (query_id : bytes) (key : dpf_key_t) : bytes :=
  query_id ++ moor_dpf_key_serialize key.

(** A fetch whose two replicas answered: [cells1] and [cells2] are the decrypted
    answers. *)
Definition dht_fetch_answers (cmd : moor_relay_cmd_t) (qid1 qid2 : bytes)
    (cells1 cells2 : list moor_relay_payload_t) : option bytes :=
  match dht_recv_pir_response_ex qid1 cmd cells1 with
  | None => None
  | Some r1 =>
      match dht_recv_pir_response_ex qid2 cmd cells2 with
      | None => None
      | Some r2 => pir_combine r1 r2
      end
  end.

(** ** The point function is correct *)

Definition is_bit (b : Z) : Prop := b = 0 ∨ b = 1.

Lemma land_1_bit x : is_bit (Z.land x 1).
Proof.
  assert (Z.land x 1 = x mod 2) as -> by exact (Z.land_ones x 1 ltac:(lia)).
  pose proof (Z.mod_pos_bound x 2 ltac:(lia)). unfold is_bit. lia.
Qed.

Lemma xor_bytes_cancel_r a b : length a = length b → xor_bytes b (xor_bytes a b) = a.
Proof.
  intros H. rewrite (xor_bytes_comm a b), xor_bytes_assoc, xor_bytes_nilpotent.
  by apply xor_bytes_0_l.
Qed.

Lemma xor_bytes_cancel_l a b : length a = length b → xor_bytes a (xor_bytes a b) = b.
Proof. intros H. rewrite (xor_bytes_comm a b). by apply xor_bytes_cancel_r. Qed.

Section DpfTheory.
  Context (blake2b_prg : bytes → bytes) (chacha20_stream : nat → bytes → bytes).
  Context (stream_length : ∀ n k, length (chacha20_stream n k) = n).

Abbreviation prg := (dpf_prg blake2b_prg chacha20_stream).
Abbreviation expand_ := (expand blake2b_prg chacha20_stream).
Abbreviation party := (bytes * Z)%type.

Lemma dpf_prg_ok seed : ∃ s_l t_l s_r t_r, prg seed = (s_l, t_l, s_r, t_r) ∧
  length s_l = DPF_LAMBDA ∧ length s_r = DPF_LAMBDA ∧ is_bit t_l ∧ is_bit t_r.
Proof.
  eexists _, _, _, _. split; [reflexivity|].
  split; [|split; [|split; apply land_1_bit]]; rewrite length_slice, stream_length; reflexivity.
Qed.

(** The two parties' nodes on the path to the target: their control bits differ. *)
Definition on_path (a b : party) : Prop :=
  length a.1 = DPF_LAMBDA ∧ length b.1 = DPF_LAMBDA ∧ is_bit a.2 ∧ is_bit b.2 ∧ a.2 ≠ b.2.

(** One level: off the path the children agree, on it the control bits differ. *)
Lemma gen_level_correct dir a b : is_bit dir → on_path a b →
  let '(cw, a', b') := gen_level blake2b_prg chacha20_stream dir a b in
  on_path a' b' ∧
  ∃ x, expand_ cw a = (if dir =? 0 then [a'; x] else [x; a']) ∧
       expand_ cw b = (if dir =? 0 then [b'; x] else [x; b']).
Proof.
  intros Hdir. destruct a as [s_a t_a], b as [s_b t_b]. intros (Ha & Hb & Hta & Htb & Hne). cbn [fst snd] in Ha, Hb, Hta, Htb, Hne.
  unfold gen_level, expand. cbv beta iota.
  destruct (dpf_prg_ok s_a) as (sal & tal & sar & tar & -> & Hsal & Hsar & Htal & Htar).
  destruct (dpf_prg_ok s_b) as (sbl & tbl & sbr & tbr & -> & Hsbl & Hsbr & Htbl & Htbr).
  unfold is_bit in *.
  destruct Hdir as [-> | ->], Hta as [-> | ->], Htb as [-> | ->]; try lia; simpl.
  all: split; [split_and!; simpl; rewrite ?length_xor_bytes, ?Hsal, ?Hsar, ?Hsbl, ?Hsbr; try done|].
  all: try solve [unfold is_bit; destruct Htal as [-> | ->], Htar as [-> | ->], Htbl as [-> | ->],
    Htbr as [-> | ->]; vm_compute; first [by left | by right | discriminate]].
  all: eexists; split; [reflexivity|]; repeat f_equal.
  all: rewrite ?xor_bytes_cancel_r, ?xor_bytes_cancel_l by congruence; try done.
  all: destruct Htal as [-> | ->], Htar as [-> | ->], Htbl as [-> | ->], Htbr as [-> | ->]; done.
Qed.

(** The tree without the bound on the number of nodes. *)
Fixpoint grow (cws : list dpf_cw_t) (nodes : list party) : list party :=
  match cws with [] => nodes | cw :: cws => grow cws (concat (expand_ cw <$> nodes)) end.

Lemma length_expand cw node : length (expand_ cw node) = 2%nat.
Proof.
  destruct node as [s t]. unfold expand. destruct (prg s) as [[[? ?] ?] ?].
  by destruct (negb (t =? 0)).
Qed.

Lemma length_children cw nodes : length (concat (expand_ cw <$> nodes)) = (2 * length nodes)%nat.
Proof.
  induction nodes as [|x nodes IH]; [done|]. rewrite fmap_cons. cbn [concat].
  rewrite length_app, length_expand, IH. simpl. lia.
Qed.

Lemma grow_app cws xs ys : grow cws (xs ++ ys) = grow cws xs ++ grow cws ys.
Proof.
  revert xs ys. induction cws as [|cw cws IH]; intros xs ys; [done|]. cbn [grow].
  rewrite fmap_app, concat_app. apply IH.
Qed.

Lemma length_grow cws nodes : length (grow cws nodes) = (2 ^ length cws * length nodes)%nat.
Proof.
  revert nodes. induction cws as [|cw cws IH]; intros nodes; cbn [grow length Nat.pow]; [lia|].
  rewrite IH, length_children. lia.
Qed.

Lemma eval_levels_grow n cws nodes : (2 ^ length cws * length nodes <= n)%nat →
  eval_levels blake2b_prg chacha20_stream n cws nodes = grow cws nodes.
Proof.
  revert nodes. induction cws as [|cw cws IH]; intros nodes Hn; [done|].
  cbn [eval_levels grow length Nat.pow] in *.
  assert (1 <= 2 ^ length cws)%nat by (clear; induction (length cws); simpl; lia).
  rewrite take_ge by (rewrite length_children; nia). apply IH. rewrite length_children. lia.
Qed.

(** The leaf a path of directions leads to. *)
Fixpoint path_index (dirs : list Z) : nat :=
  match dirs with
  | [] => O
  | d :: dirs => ((if (d =? 0)%Z then 0 else 2 ^ length dirs) + path_index dirs)%nat
  end.

Lemma grow_correct dirs a b : Forall is_bit dirs → on_path a b →
  let '(cws, a', b') := gen_levels blake2b_prg chacha20_stream dirs a b in
  on_path a' b' ∧ length cws = length dirs ∧
  ∃ pre post, grow cws [a] = pre ++ a' :: post ∧ grow cws [b] = pre ++ b' :: post ∧
    length pre = path_index dirs.
Proof.
  intros Hd. revert a b. induction Hd as [|d dirs Hd _ IH]; intros a b Hab; simpl.
  { split; [done|]. split; [done|]. by exists [], []. }
  pose proof (gen_level_correct d a b Hd Hab) as H.
  destruct (gen_level _ _ d a b) as [[cw a1] b1]. destruct H as (Hab1 & x & Ha & Hb).
  specialize (IH a1 b1 Hab1).
  destruct (gen_levels _ _ dirs a1 b1) as [[cws a'] b'].
  destruct IH as (Hab' & Hlen & pre & post & Hga & Hgb & Hpre).
  split; [done|]. split; [by rewrite <- Hlen|]. cbn [grow]. cbn [fmap list_fmap concat].
  rewrite Ha, Hb, !app_nil_r. destruct (d =? 0).
  - exists pre, (post ++ grow cws [x]).
    change [a1; x] with ([a1] ++ [x]). change [b1; x] with ([b1] ++ [x]).
    rewrite !grow_app, Hga, Hgb, <- !app_assoc. done.
  - exists (grow cws [x] ++ pre), post.
    change [x; a1] with ([x] ++ [a1]). change [x; b1] with ([x] ++ [b1]).
    rewrite !grow_app, Hga, Hgb, <- !app_assoc, length_app, length_grow, Hpre, Hlen.
    split_and!; [done|done|]. simpl. lia.
Qed.

Lemma leaf_outputs_differ a b : on_path a b →
  let leaf := flip_first (xor_bytes a.1 b.1) in
  Z.lxor (leaf_output leaf a) (leaf_output leaf b) = 1.
Proof.
  destruct a as [[|x s_a] t_a], b as [[|y s_b] t_b]; intros (Ha & Hb & Hta & Htb & Hne); [done..|].
  cbn [fst snd] in *. assert (∀ u v, Z.lxor u (Z.lxor (Z.lxor v u) 1) = Z.lxor v 1) as Hx.
  { intros u v. rewrite <- Z.lxor_assoc, (Z.lxor_comm v u), <- Z.lxor_assoc, Z.lxor_nilpotent.
    by rewrite Z.lxor_0_l. }
  assert (∀ v, Z.lxor (Z.land v 1) (Z.land (Z.lxor v 1) 1) = 1) as Hbit.
  { intros v. assert (Z.land (Z.lxor v 1) 1 = Z.lxor (Z.land v 1) 1) as ->.
    { apply Z.bits_inj'. intros n Hn. rewrite Z.land_spec, !Z.lxor_spec, Z.land_spec.
      destruct (Z.testbit v n), (Z.testbit 1 n); done. }
    destruct (land_1_bit v) as [-> | ->]; done. }
  destruct Hta as [-> | ->], Htb as [-> | ->]; try done; cbn.
  - rewrite Hx. apply Hbit.
  - rewrite (Z.lxor_comm x y), Hx, Z.lxor_comm. apply Hbit.
Qed.
End DpfTheory.

Lemma target_dirs_ok t : 0 <= t < 256 →
  Forall is_bit (target_dirs t) ∧ length (target_dirs t) = DPF_LEVELS ∧ path_index (target_dirs t) = Z.to_nat t.
Proof.
  intros Ht. split_and!.
  - apply Forall_fmap, Forall_true. intros i. apply land_1_bit.
  - reflexivity.
  - assert (forallb (λ t, (path_index (target_dirs t) =? Z.to_nat t)%nat) (seqZ 0 256) = true) as H
      by (vm_compute; reflexivity).
    rewrite forallb_forall in H. apply Nat.eqb_eq. apply H. apply list_elem_of_In, elem_of_seqZ. lia.
Qed.

(** Evaluating the two keys of a pair: the outputs agree everywhere but at the
    target, where they are different bits. *)
Lemma dpf_eval_pair blake2b_prg chacha20_stream seed_a seed_b target :
  (∀ n k, length (chacha20_stream n k) = n) →
  length seed_a = DPF_LAMBDA → length seed_b = DPF_LAMBDA → 0 <= target < 256 →
  let keys := moor_dpf_gen blake2b_prg chacha20_stream seed_a seed_b target in
  let eval k := moor_dpf_eval_full blake2b_prg chacha20_stream k DPF_DOMAIN_SIZE in
  ∃ pre x y post, eval keys.1 = pre ++ x :: post ∧ eval keys.2 = pre ++ y :: post ∧
    length pre = Z.to_nat target ∧ length (eval keys.1) = 256%nat ∧ Z.lxor x y = 1 ∧
    Forall is_bit (pre ++ x :: post) ∧ is_bit y.
Proof.
  intros Hs Ha Hb Ht. destruct (target_dirs_ok target Ht) as (Hbits & Hlen & Hpath).
  unfold moor_dpf_gen. cbv zeta.
  pose proof (grow_correct blake2b_prg chacha20_stream Hs (target_dirs target)
    (seed_a, 0) (seed_b, 1) Hbits) as H.
  destruct (gen_levels _ _ _ _ _) as [[cws [s_a t_a]] [s_b t_b]].
  destruct H as (Hab & Hcws & pre & post & Hga & Hgb & Hpre).
  { split_and!; [done|done|by left|by right|done]. }
  unfold moor_dpf_eval_full. cbn [fst snd dk_cw dk_seed dk_t dk_cw_leaf].
  change ((if DPF_DOMAIN_SIZE <? DPF_DOMAIN_SIZE then DPF_DOMAIN_SIZE else DPF_DOMAIN_SIZE)%nat) with 256%nat.
  rewrite !eval_levels_grow by (rewrite Hcws, Hlen; simpl; lia).
  assert (length (grow blake2b_prg chacha20_stream cws [(seed_a, 0)]) = 256%nat) as H256
    by (rewrite length_grow, Hcws, Hlen; done).
  rewrite length_fmap, H256. rewrite Hga, Hgb, !fmap_app, !fmap_cons.
  set (leaf := flip_first (xor_bytes s_a s_b)).
  eexists _, _, _, _. split; [done|]. split; [done|].
  assert (∀ node : bytes * Z, is_bit (leaf_output leaf node)) as Hbit.
  { intros [s t]. apply land_1_bit. }
  split_and!; [by rewrite length_fmap, Hpre, Hpath|done| | |apply Hbit].
  - apply (leaf_outputs_differ (s_a, t_a) (s_b, t_b) Hab).
  - rewrite Forall_app, Forall_cons. split_and!; [|apply Hbit|]; apply Forall_fmap, Forall_true; intros; apply Hbit.
Qed.

(** The distributed point function is correct: for every target slot and every
    pair of seeds, the XOR of the two parties' outputs is 1 at the target and 0 at
    each of the other 255 points. *)
Theorem dpf_point_function blake2b_prg chacha20_stream seed_a seed_b target j :
  (∀ n k, length (chacha20_stream n k) = n) →
  length seed_a = DPF_LAMBDA → length seed_b = DPF_LAMBDA → 0 <= target < 256 → (j < 256)%nat →
  let keys := moor_dpf_gen blake2b_prg chacha20_stream seed_a seed_b target in
  ∃ out_a out_b,
    moor_dpf_eval_full blake2b_prg chacha20_stream keys.1 DPF_DOMAIN_SIZE !! j = Some out_a ∧
    moor_dpf_eval_full blake2b_prg chacha20_stream keys.2 DPF_DOMAIN_SIZE !! j = Some out_b ∧
    Z.lxor out_a out_b = (if Z.of_nat j =? target then 1 else 0).
Proof.
  intros Hs Ha Hb Ht Hj. cbv zeta.
  destruct (dpf_eval_pair blake2b_prg chacha20_stream seed_a seed_b target Hs Ha Hb Ht)
    as (pre & x & y & post & HA & HB & Hpre & Hlen & Hxy & _).
  rewrite HA in Hlen. rewrite HA, HB.
  destruct (Z.eqb_spec (Z.of_nat j) target) as [Heq|Hne].
  - exists x, y. rewrite !lookup_app_r by lia. replace (j - length pre)%nat with O by lia. done.
  - assert ((pre ++ x :: post) !! j = (pre ++ y :: post) !! j) as Hsame.
    { destruct (decide (j < length pre)%nat); [by rewrite !lookup_app_l|].
      rewrite !lookup_app_r by lia. replace (j - length pre)%nat with (S (j - length pre - 1)) by lia. done. }
    destruct (lookup_lt_is_Some_2 (pre ++ x :: post) j) as [v Hv]; [lia|].
    exists v, v. rewrite <- Hsame. split_and!; [done|done|]. apply Z.lxor_nilpotent.
Qed.

Definition toy_stream (n : nat) (k : bytes) : bytes := be_put n (fold_left (λ a b, a * 1000003 + b + 1) k 11).

Lemma dpf_point_function_witness :
  ∃ out_a out_b,
    moor_dpf_eval_full toy_hash toy_stream
      (moor_dpf_gen toy_hash toy_stream (repeat 1 16) (repeat 9 16) 77).1 256 !! 77%nat = Some out_a ∧
    moor_dpf_eval_full toy_hash toy_stream
      (moor_dpf_gen toy_hash toy_stream (repeat 1 16) (repeat 9 16) 77).2 256 !! 77%nat = Some out_b ∧
    Z.lxor out_a out_b = 1.
Proof.
  apply (dpf_point_function toy_hash toy_stream (repeat 1 16) (repeat 9 16) 77 77).
  - intros n k. apply length_be_put.
  - reflexivity.
  - reflexivity.
  - lia.
  - lia.
Defined.

(** ** The key survives the wire *)

Definition cw_ok (cw : dpf_cw_t) : Prop :=
  length (cw_s cw) = DPF_LAMBDA ∧ is_bit (cw_t_left cw) ∧ is_bit (cw_t_right cw).

Definition key_ok (k : dpf_key_t) : Prop :=
  length (dk_seed k) = DPF_LAMBDA ∧ is_bit (dk_t k) ∧ length (dk_cw k) = DPF_LEVELS ∧
  Forall cw_ok (dk_cw k) ∧ length (dk_cw_leaf k) = DPF_LAMBDA.

Lemma land_bit b : is_bit b → Z.land b 1 = b.
Proof. intros [-> | ->]; done. Qed.

Lemma byte_at_app_r a b i : byte_at (length a + i) (a ++ b) = byte_at i b.
Proof. unfold byte_at. rewrite app_nth2 by lia. f_equal. lia. Qed.

Lemma parse_cws_bytes cws rest : Forall cw_ok cws →
  parse_cws (length cws) (concat (cw_bytes <$> cws) ++ rest) = cws ∧
  length (concat (cw_bytes <$> cws)) = (length cws * (DPF_LAMBDA + 2))%nat.
Proof.
  induction 1 as [|cw cws (Hs & Hl & Hr) _ IH]; [done|]. destruct cw as [s tl tr]; simpl in Hs, Hl, Hr.
  destruct IH as [IH IHlen]. rewrite fmap_cons. cbn [concat length parse_cws].
  split.
  2: { rewrite length_app, IHlen. unfold cw_bytes. cbn [cw_s cw_t_left cw_t_right].
       rewrite !length_app, Hs. simpl. lia. }
  rewrite <- !app_assoc. set (R := concat (cw_bytes <$> cws) ++ rest) in *. clearbody R.
  unfold cw_bytes. cbn [cw_s cw_t_left cw_t_right]. rewrite <- !app_assoc.
  rewrite (take_app_length' s _ DPF_LAMBDA) by done.
  assert (byte_at DPF_LAMBDA (s ++ [tl] ++ [tr] ++ R) = tl) as ->.
  { rewrite <- Hs, <- (Nat.add_0_r (length s)). by rewrite byte_at_app_r. }
  assert (byte_at (DPF_LAMBDA + 1) (s ++ [tl] ++ [tr] ++ R) = tr) as ->.
  { rewrite <- Hs. by rewrite byte_at_app_r. }
  rewrite !land_bit by done. f_equal.
  rewrite <- drop_drop, drop_app_length' by done. exact IH.
Qed.

Lemma length_serialize k : key_ok k → length (moor_dpf_key_serialize k) = DPF_KEY_WIRE_SIZE.
Proof.
  intros (Hs & Ht & Hn & Hcw & Hl). unfold moor_dpf_key_serialize.
  destruct (parse_cws_bytes (dk_cw k) [] Hcw) as [_ Hc].
  rewrite !length_app, Hc, Hs, Hn, Hl. reflexivity.
Qed.

Lemma key_roundtrip k : key_ok k → moor_dpf_key_deserialize (moor_dpf_key_serialize k) = Some k.
Proof.
  intros Hok. unfold moor_dpf_key_deserialize. rewrite length_serialize by done.
  destruct Hok as (Hs & Ht & Hn & Hcw & Hl). destruct k as [seed t cws leaf].
  cbn [dk_seed dk_t dk_cw dk_cw_leaf] in *.
  unfold moor_dpf_key_serialize. cbn [dk_seed dk_t dk_cw dk_cw_leaf].
  destruct (parse_cws_bytes cws leaf Hcw) as [Hp Hc]. rewrite Hn in Hp, Hc.
  rewrite (take_app_length' seed) by done.
  assert (byte_at DPF_LAMBDA (seed ++ [t] ++ concat (cw_bytes <$> cws) ++ leaf) = t) as ->.
  { rewrite <- Hs, <- (Nat.add_0_r (length seed)). by rewrite byte_at_app_r. }
  assert (drop (DPF_LAMBDA + 1) (seed ++ [t] ++ concat (cw_bytes <$> cws) ++ leaf) =
          concat (cw_bytes <$> cws) ++ leaf) as ->.
  { rewrite <- drop_drop, drop_app_length' by done. done. }
  rewrite Hp, land_bit by done. do 2 f_equal. unfold slice.
  rewrite drop_app_length' by (rewrite Hc; done). rewrite take_ge; [done|]. rewrite Hl. done.
Qed.

Lemma gen_levels_ok blake2b_prg chacha20_stream dirs a b :
  (∀ n k, length (chacha20_stream n k) = n) → Forall is_bit dirs → on_path a b →
  Forall cw_ok (gen_levels blake2b_prg chacha20_stream dirs a b).1.1.
Proof.
  intros Hs Hd. revert a b. induction Hd as [|d dirs Hd _ IH]; intros a b Hab; [constructor|].
  cbn [gen_levels]. pose proof (gen_level_correct blake2b_prg chacha20_stream Hs d a b Hd Hab) as H.
  assert (cw_ok (gen_level blake2b_prg chacha20_stream d a b).1.1) as Hcw.
  { destruct a as [s_a t_a], b as [s_b t_b]. unfold gen_level. cbv beta iota.
    destruct (dpf_prg_ok blake2b_prg chacha20_stream Hs s_a) as (sal & tal & sar & tar & -> & Hsal & Hsar & Htal & Htar).
    destruct (dpf_prg_ok blake2b_prg chacha20_stream Hs s_b) as (sbl & tbl & sbr & tbr & -> & Hsbl & Hsbr & Htbl & Htbr).
    assert (∀ x y z, is_bit x → is_bit y → is_bit z → is_bit (Z.lxor (Z.lxor x y) z)) as Hb3.
    { intros x y z [-> | ->] [-> | ->] [-> | ->]; (by left) || (by right). }
    destruct Hd as [-> | ->]; simpl; split_and!; cbn [cw_s cw_t_left cw_t_right];
      rewrite ?length_xor_bytes, ?Hsal, ?Hsar, ?Hsbl, ?Hsbr; try done;
      (apply Hb3; [done|done|(by left) || (by right)]). }
  destruct (gen_level _ _ d a b) as [[cw a1] b1]. destruct H as [Hab1 _]. specialize (IH a1 b1 Hab1).
  destruct (gen_levels _ _ dirs a1 b1) as [[cws a'] b']. by constructor.
Qed.

Lemma length_flip_first l : length (flip_first l) = length l.
Proof. by destruct l. Qed.

Lemma dpf_gen_ok blake2b_prg chacha20_stream seed_a seed_b target :
  (∀ n k, length (chacha20_stream n k) = n) →
  length seed_a = DPF_LAMBDA → length seed_b = DPF_LAMBDA → 0 <= target < 256 →
  key_ok (moor_dpf_gen blake2b_prg chacha20_stream seed_a seed_b target).1 ∧
  key_ok (moor_dpf_gen blake2b_prg chacha20_stream seed_a seed_b target).2.
Proof.
  intros Hs Ha Hb Ht. destruct (target_dirs_ok target Ht) as (Hbits & Hlen & _).
  assert (on_path (seed_a, 0) (seed_b, 1)) as Hpath by (split_and!; [done|done|by left|by right|done]).
  pose proof (gen_levels_ok blake2b_prg chacha20_stream _ _ _ Hs Hbits Hpath) as Hcws.
  pose proof (grow_correct blake2b_prg chacha20_stream Hs _ _ _ Hbits Hpath) as H.
  unfold moor_dpf_gen. destruct (gen_levels _ _ _ _ _) as [[cws [s_a t_a]] [s_b t_b]].
  destruct H as ((Hla & Hlb & _) & Hn & _). cbn [fst] in *.
  unfold key_ok. cbn [fst snd dk_seed dk_t dk_cw dk_cw_leaf].
  rewrite length_flip_first, length_xor_bytes, Hla, Hlb, Hn, Hlen.
  split; (split_and!; [done|(by left) || (by right)|done|done|done]).
Qed.

(** ** XOR over the slots *)

Definition slot_ok (s : flat_slot) : Prop := length (fl_data s) = MOOR_DHT_MAX_DESC_DATA.

Abbreviation MAX := MOOR_DHT_MAX_DESC_DATA.

(** What a slot contributes when it is selected. *)
Definition slot_value (s : flat_slot) : bytes := if fl_len s =? 0 then zeros MAX else fl_data s.

Definition slot_pick (b : bool) (s : flat_slot) : bytes := if b then slot_value s else zeros MAX.

(** The XOR of the selected slots as a sum. *)
Fixpoint xsum (sel : nat → bool) (j : nat) (flat : list flat_slot) : bytes :=
  match flat with [] => zeros MAX | s :: flat => xor_bytes (slot_pick (sel j) s) (xsum sel (S j) flat) end.

Lemma length_slot_value s : slot_ok s → length (slot_value s) = MAX.
Proof. intros H. unfold slot_value. destruct (fl_len s =? 0); [apply length_zeros|done]. Qed.

Lemma length_pick b s : slot_ok s → length (slot_pick b s) = MAX.
Proof. intros H. destruct b; [by apply length_slot_value|apply length_zeros]. Qed.

Lemma length_xsum sel j flat : Forall slot_ok flat → length (xsum sel j flat) = MAX.
Proof.
  intros H. revert j. induction H as [|s flat Hs _ IH]; intros j; cbn [xsum]; [apply length_zeros|].
  rewrite length_xor_bytes, length_pick, IH by done. lia.
Qed.

Lemma xor_zeros_r a : length a = MAX → xor_bytes a (zeros MAX) = a.
Proof. intros H. rewrite xor_bytes_comm. by apply xor_bytes_0_l. Qed.

Lemma xor_zeros_l a : length a = MAX → xor_bytes (zeros MAX) a = a.
Proof. by apply xor_bytes_0_l. Qed.

Lemma xor_self a : length a = MAX → xor_bytes a a = zeros MAX.
Proof. intros <-. apply xor_bytes_nilpotent. Qed.

Lemma xor_shuffle a b c d :
  xor_bytes (xor_bytes a b) (xor_bytes c d) = xor_bytes (xor_bytes a c) (xor_bytes b d).
Proof. rewrite !xor_bytes_assoc. f_equal. rewrite <- !xor_bytes_assoc. f_equal. apply xor_bytes_comm. Qed.

Lemma xor_slots_xsum sel j flat r : Forall slot_ok flat → length r = MAX →
  xor_slots sel j flat r = xor_bytes r (xsum sel j flat).
Proof.
  intros H. revert j r. induction H as [|s flat Hs Hf IH]; intros j r Hr; cbn [xor_slots xsum].
  { by rewrite xor_zeros_r. }
  assert ((if sel j && negb (fl_len s =? 0) then xor_bytes r (fl_data s) else r) =
          xor_bytes r (slot_pick (sel j) s)) as ->.
  { unfold slot_pick, slot_value. destruct (sel j), (fl_len s =? 0); cbn [andb negb];
      rewrite ?xor_zeros_r by done; done. }
  rewrite IH by (rewrite length_xor_bytes, length_pick by done; lia).
  by rewrite xor_bytes_assoc.
Qed.

Lemma pick_xor b c s : slot_ok s → xor_bytes (slot_pick b s) (slot_pick c s) = slot_pick (xorb b c) s.
Proof.
  intros H. destruct b, c; cbn [xorb slot_pick];
    rewrite ?xor_zeros_l, ?xor_zeros_r, ?xor_self by (by apply length_slot_value || apply length_zeros); done.
Qed.

Lemma xsum_xor f g j flat : Forall slot_ok flat →
  xor_bytes (xsum f j flat) (xsum g j flat) = xsum (λ i, xorb (f i) (g i)) j flat.
Proof.
  intros H. revert j. induction H as [|s flat Hs _ IH]; intros j; cbn [xsum].
  { apply xor_self, length_zeros. }
  by rewrite xor_shuffle, IH, pick_xor.
Qed.

Lemma xsum_point f k j flat s : Forall slot_ok flat → (j <= k)%nat → flat !! (k - j)%nat = Some s →
  (∀ i, (j <= i < j + length flat)%nat → f i = (i =? k)%nat) → xsum f j flat = slot_value s.
Proof.
  intros H. revert j. induction H as [|s' flat Hs Hf IH]; intros j Hj Hk Hsel; [done|]. cbn [xsum].
  assert (f j = (j =? k)%nat) as -> by (apply Hsel; simpl; lia).
  destruct (Nat.eqb_spec j k) as [->|Hne].
  - rewrite Nat.sub_diag in Hk. simplify_eq/=.
    assert (∀ i l, Forall slot_ok l → (k < i)%nat → (∀ x, (i <= x < i + length l)%nat → f x = false) →
      xsum f i l = zeros MAX) as Hz.
    { intros i l Hl. revert i. induction Hl as [|x l Hx Hl IHl]; intros i Hi Hfalse; [done|]. cbn [xsum].
      rewrite Hfalse by (simpl; lia). rewrite IHl; [apply xor_self, length_zeros|lia|].
      intros y Hy. apply Hfalse. simpl. lia. }
    rewrite Hz; [by apply xor_zeros_r, length_slot_value|done|lia|].
    intros x Hx. rewrite Hsel by (simpl; lia). apply Nat.eqb_neq. lia.
  - replace (k - j)%nat with (S (k - S j)) in Hk by lia. simpl in Hk.
    rewrite (IH (S j)) by (done || lia || (intros i Hi; apply Hsel; simpl; lia)).
    cbn [slot_pick]. apply xor_zeros_l, length_slot_value.
    by apply (Forall_lookup_1 _ _ _ _ Hf Hk).
Qed.

(** ** The slots of a store *)

Lemma place_entry_ok flat e : Forall slot_ok flat → entry_ok e → Forall slot_ok (place_entry flat e).
Proof.
  intros Hf [Hl Hd]. unfold place_entry. apply Forall_alter; [done|].
  intros s _ Hs. destruct (_ <=? _); [|done]. unfold slot_ok. cbn [fl_data].
  pose proof max_desc_data. rewrite length_app, length_take, length_zeros, Hl.
  destruct (Z.ltb_spec (Z.of_nat MAX) (de_data_len e)); lia.
Qed.

Lemma flatten_store_ok st : store_ok st →
  Forall slot_ok (flatten_store st) ∧ length (flatten_store st) = 256%nat.
Proof.
  intros Hok. unfold flatten_store.
  assert (Forall entry_ok (live st)) as Hl by (apply Forall_take, Hok).
  assert (∀ flat, Forall slot_ok flat → length flat = 256%nat →
    Forall slot_ok (fold_left place_entry (live st) flat) ∧
    length (fold_left place_entry (live st) flat) = 256%nat) as H.
  { induction Hl as [|e es He _ IH]; intros flat Hf Hlen; [done|]. cbn [fold_left].
    apply IH; [by apply place_entry_ok|]. unfold place_entry. by rewrite length_alter. }
  apply H; [|apply length_replicate]. apply Forall_replicate, length_zeros.
Qed.

Lemma place_entries_other es flat k :
  (∀ e, e ∈ es → Z.to_nat (slot_of (de_hash e)) ≠ k) → fold_left place_entry es flat !! k = flat !! k.
Proof.
  revert flat. induction es as [|e es IH]; intros flat H; [done|]. cbn [fold_left].
  rewrite IH; [|intros e' He'; apply H; by right].
  unfold place_entry. apply list_lookup_alter_ne. apply H. by left.
Qed.

(** A descriptor alone in its slot is what the slot holds, padded with zeros. *)
Lemma flatten_lookup st e : store_ok st → e ∈ live st → 0 <= de_stored_at e →
  0 <= slot_of (de_hash e) < 256 →
  (∀ e', e' ∈ live st → slot_of (de_hash e') = slot_of (de_hash e) → e' = e) →
  (∀ e', e' ∈ live st → 0 <= slot_of (de_hash e')) →
  flatten_store st !! Z.to_nat (slot_of (de_hash e)) =
    Some (mk_slot (v_data (view_of e) ++ zeros (MAX - Z.to_nat (de_data_len e)))
            (de_data_len e) (de_stored_at e)).
Proof.
  intros Hok He Ht Hslot Huniq Hpos. unfold flatten_store.
  assert (entry_ok e) as [Hl Hd].
  { assert (Forall entry_ok (live st)) as Hall by (apply Forall_take, Hok).
    by apply (proj1 (Forall_forall _ _) Hall). }
  assert (NoDup (live st)) as Hnd by (eapply NoDup_fmap_1; apply Hok).
  apply list_elem_of_split in He as (pre & post & Heq). rewrite Heq in *.
  apply NoDup_app in Hnd as (_ & Hdisj & Hnd). apply NoDup_cons in Hnd as [Hnot _].
  assert (∀ e', e' ∈ pre ++ e :: post → e' ≠ e →
    Z.to_nat (slot_of (de_hash e')) ≠ Z.to_nat (slot_of (de_hash e))) as Hne.
  { intros e' He' Hne Hc. apply Hne, (Huniq e' He'). specialize (Hpos e' He'). lia. }
  rewrite fold_left_app. cbn [fold_left].
  rewrite place_entries_other.
  2: { intros e' He'. apply Hne; [apply elem_of_app; right; by right|]. intros ->. done. }
  unfold place_entry at 1. rewrite list_lookup_alter_eq, place_entries_other.
  2: { intros e' He'. apply Hne; [apply elem_of_app; by left|]. intros ->. apply (Hdisj e He'). by left. }
  rewrite lookup_replicate_2 by lia. cbn [fmap option_fmap option_map empty_slot fl_time].
  rewrite (proj2 (Z.leb_le _ _)) by lia. pose proof max_desc_data as Hmax.
  rewrite (proj2 (Z.ltb_ge _ _)) by lia. reflexivity.
Qed.

(** ** The response crosses the circuit *)

(** The cells of a response, from offset [off] on. *)
Fixpoint response_cells (fuel : nat) (cmd : moor_relay_cmd_t) (prev_cid : Z)
    (query_id result : bytes) (off : nat) : list moor_cell_t :=
  match fuel with
  | O => []
  | S fuel =>
      if (MAX <=? off)%nat then []
      else
        let chunk := (PIR_CHUNK_MAX `min` (MAX - off))%nat in
        moor_cell_relay prev_cid (relay_code cmd) 0 (Some (response_data query_id result off chunk))
          (Z.of_nat (8 + chunk))
        :: response_cells fuel cmd prev_cid query_id result (off + chunk)
  end.

Lemma chunk_min n : (if PIR_CHUNK_MAX <? n then PIR_CHUNK_MAX else n)%nat = (PIR_CHUNK_MAX `min` n)%nat.
Proof. destruct (Nat.ltb_spec PIR_CHUNK_MAX n); lia. Qed.

Lemma send_response_cells fuel cmd prev_cid qid result off net :
  send_response log_send fuel cmd prev_cid qid result off net =
    (0, net ++ response_cells fuel cmd prev_cid qid result off).
Proof.
  revert off net. induction fuel as [|fuel IH]; intros off net; cbn [send_response response_cells].
  { by rewrite app_nil_r. }
  destruct (MAX <=? off)%nat; [by rewrite app_nil_r|]. rewrite chunk_min.
  unfold PIR_RESP_HDR. rewrite u16_small by (unfold is_u16, PIR_CHUNK_MAX; lia).
  unfold log_send at 1. cbn [Z.eqb negb]. rewrite IH, <- app_assoc. done.
Qed.

Lemma slice_take m off n (d : bytes) : (off + n <= m)%nat → slice off n (take m d) = slice off n d.
Proof.
  intros H. unfold slice. rewrite skipn_firstn_comm, take_take. f_equal. lia.
Qed.

Definition read_cell (c : moor_cell_t) : moor_relay_payload_t := moor_relay_unpack zero_relay (payload c).

Section Response.
  Context (cmd : moor_relay_cmd_t) (prev_cid : Z) (qid result : bytes).
  Context (qid_length : length qid = 4%nat) (result_length : length result = MAX).

(** One cell is accepted and its bytes land at their offset. *)
Lemma recv_step_cell off chunk out total :
  (0 < chunk <= PIR_CHUNK_MAX)%nat → (off + chunk <= MAX)%nat →
  (total = None ∨ total = Some (Z.of_nat MAX)) →
  recv_step qid cmd (read_cell (moor_cell_relay prev_cid (relay_code cmd) 0
      (Some (response_data qid result off chunk)) (Z.of_nat (8 + chunk)))) out total =
  Some (blit off (slice off chunk result) out, Z.of_nat (off + chunk), Z.of_nat MAX).
Proof.
  intros Hc Hoc Htot. pose proof max_desc_data as Hmax.
  set (src := response_data qid result off chunk).
  assert (length src = 8 + chunk)%nat as Hlen.
  { unfold src, response_data. rewrite !length_app, !length_be_put, length_slice, qid_length. lia. }
  destruct (cell_relay_unpack zero_relay prev_cid (relay_code cmd) 0 src) as (H1 & _ & H3 & H4 & _);
    [unfold is_u16; lia|unfold PIR_CHUNK_MAX, MOOR_RELAY_DATA in *; lia|done|].
  rewrite Hlen in H1, H3, H4. unfold read_cell.
  set (r := moor_relay_unpack _ _) in *. clearbody r. unfold recv_step.
  rewrite H1, Z.eqb_refl, H3. cbn [negb]. rewrite (proj2 (Z.ltb_ge _ _)) by lia.
  assert (∀ o n, (o + n <= 8 + chunk)%nat → slice o n (data r) = slice o n src) as Hs.
  { intros o n Ho. by rewrite <- H4, slice_take. }
  assert (take 4 (data r) = qid) as ->.
  { change (slice 0 4 (data r) = qid). rewrite Hs by lia. unfold slice, src, response_data.
    rewrite drop_0. by apply take_app_length'. }
  rewrite bytes_eqb_refl. cbn [negb].
  assert (be_get (slice 4 2 (data r)) = Z.of_nat MAX) as ->.
  { rewrite Hs by lia. unfold slice, src, response_data.
    rewrite drop_app_length', take_app_length' by done. apply be_get_put_small. lia. }
  assert (be_get (slice 6 2 (data r)) = Z.of_nat off) as ->.
  { rewrite Hs by lia. unfold slice, src, response_data. rewrite app_assoc.
    rewrite drop_app_length', take_app_length' by (rewrite ?length_app, ?length_be_put; lia).
    apply be_get_put_small. lia. }
  assert (slice 8 chunk (data r) = slice off chunk result) as Hd.
  { rewrite Hs by lia. unfold slice at 1, src, response_data. rewrite !app_assoc.
    rewrite drop_app_length' by (rewrite !length_app, !length_be_put; lia).
    apply take_ge. rewrite length_slice. lia. }
  replace (Z.of_nat (8 + chunk) - 8) with (Z.of_nat chunk) by lia.
  rewrite !Nat2Z.id. unfold PIR_RESP_HDR. rewrite Hd.
  assert (match total with None => negb (Z.of_nat MAX <? Z.of_nat MAX) | Some t => Z.of_nat MAX =? t end = true) as ->.
  { destruct Htot as [-> | ->]; [by rewrite Z.ltb_irrefl|apply Z.eqb_refl]. }
  cbn [negb]. rewrite (proj2 (Z.ltb_ge _ _)) by lia. do 3 f_equal. lia.
Qed.

Lemma recv_response fuel fuel' off total received :
  (off < MAX)%nat → (MAX <= off + fuel * PIR_CHUNK_MAX)%nat → (fuel <= fuel')%nat →
  (total = None ∨ total = Some (Z.of_nat MAX)) →
  recv_loop fuel' qid cmd (read_cell <$> response_cells fuel cmd prev_cid qid result off)
    (blit 0 (take off result) (zeros MAX)) received total = Some result.
Proof.
  revert fuel' off total received. induction fuel as [|fuel IH];
    intros fuel' off total received Hoff Hfuel Hf' Htot; [lia|].
  destruct fuel' as [|fuel']; [lia|]. cbn [response_cells].
  rewrite (proj2 (Nat.leb_gt _ _)) by done. rewrite fmap_cons. cbn [recv_loop].
  set (chunk := (PIR_CHUNK_MAX `min` (MAX - off))%nat).
  assert (0 < chunk <= PIR_CHUNK_MAX)%nat as Hc by (unfold chunk, PIR_CHUNK_MAX; lia).
  assert (off + chunk <= MAX)%nat as Hoc by (unfold chunk; lia).
  rewrite recv_step_cell by done.
  assert (blit off (slice off chunk result) (blit 0 (take off result) (zeros MAX)) =
          blit 0 (take (off + chunk) result) (zeros MAX)) as -> by (apply blit_next; lia).
  destruct (Z.leb_spec (Z.of_nat MAX) (Z.of_nat (off + chunk))) as [Hdone|Hmore].
  - f_equal. assert (off + chunk = MAX)%nat as -> by lia. rewrite take_ge by lia.
    unfold blit. rewrite take_0, app_nil_l, drop_ge, app_nil_r; [done|]. rewrite length_zeros. lia.
  - apply IH; [lia| |lia|by right]. unfold chunk in *. lia.
Qed.

(** What the relay sends, the client reads. *)
Lemma response_roundtrip :
  dht_recv_pir_response_ex qid cmd
    (read_cell <$> (send_response log_send PIR_CELLS cmd prev_cid qid result 0 []).2) = Some result.
Proof.
  rewrite send_response_cells. cbn [snd app]. unfold dht_recv_pir_response_ex.
  pose proof max_desc_data as Hmax.
  assert (blit 0 (take 0 result) (zeros MAX) = zeros MAX) as <- by (unfold blit; rewrite !take_0; apply drop_0).
  apply recv_response; [lia|unfold PIR_CELLS, PIR_CHUNK_MAX; lia|unfold PIR_CELLS, PIR_RECV_MAX_CELLS; lia|by left].
Qed.
End Response.

(** ** Retrieval *)

(** The relay's answer to a well-formed DPF query. *)
Lemma dpf_query_answer blake2b_prg chacha20_stream prev_cid qid key st :
  length qid = 4%nat → key_ok key →
  moor_dht_handle_dpf_query log_send blake2b_prg chacha20_stream true prev_cid (dpf_query qid key) st [] =
  send_response log_send PIR_CELLS RELAY_DHT_DPF_RESPONSE prev_cid qid
    (pir_answer (λ j, negb (nth j (moor_dpf_eval_full blake2b_prg chacha20_stream key DPF_DOMAIN_SIZE) 0 =? 0)) st)
    0 [].
Proof.
  intros Hq Hk. unfold moor_dht_handle_dpf_query, dpf_query.
  rewrite length_app, Hq, length_serialize by done. cbn [negb].
  rewrite (proj2 (Nat.ltb_ge _ _)) by lia.
  rewrite drop_app_length', take_app_length' by done. rewrite key_roundtrip by exact Hk. reflexivity.
Qed.

Lemma length_pir_answer sel st : store_ok st → length (pir_answer sel st) = MAX.
Proof.
  intros Hok. destruct (flatten_store_ok st Hok) as [Hf _]. unfold pir_answer.
  rewrite xor_slots_xsum by (done || apply length_zeros).
  rewrite length_xor_bytes, length_xsum, length_zeros by done. lia.
Qed.

(** The XOR of the answers of two relays with the same slots. *)
Lemma pir_answers_xor f g st1 st2 : store_ok st1 → store_ok st2 →
  flatten_store st1 = flatten_store st2 →
  xor_bytes (pir_answer f st1) (pir_answer g st2) =
  xsum (λ i, xorb (f i) (g i)) 0 (flatten_store st1).
Proof.
  intros H1 H2 Heq. destruct (flatten_store_ok st1 H1) as [Hf _]. unfold pir_answer. rewrite <- Heq.
  rewrite !xor_slots_xsum by (done || apply length_zeros).
  rewrite !xor_zeros_l by (by apply length_xsum). by apply xsum_xor.
Qed.

Lemma sel_point pre x y post i : Forall is_bit (pre ++ x :: post) → is_bit y → Z.lxor x y = 1 →
  xorb (negb (nth i (pre ++ x :: post) 0 =? 0)) (negb (nth i (pre ++ y :: post) 0 =? 0)) =
  (i =? length pre)%nat.
Proof.
  intros Hbits Hy Hxy. apply Forall_app in Hbits as [_ [Hx _]%Forall_cons].
  destruct (Nat.eqb_spec i (length pre)) as [->|Hne].
  - rewrite !app_nth2, Nat.sub_diag by lia. cbn [nth]. destruct Hx as [-> | ->], Hy as [-> | ->]; done.
  - assert (nth i (pre ++ x :: post) 0 = nth i (pre ++ y :: post) 0) as ->; [|apply xorb_nilpotent].
    destruct (decide (i < length pre)%nat); [by rewrite !app_nth1|].
    rewrite !app_nth2 by lia. by destruct (i - length pre)%nat eqn:E; [lia|].
Qed.

Lemma combine_nonzero r1 r2 d z : xor_bytes r1 r2 = d ++ z →
  existsb (λ b, negb (b =? 0)) d = true → pir_combine r1 r2 = Some (d ++ z).
Proof.
  intros Heq (b & Hb & Hnz)%existsb_exists.
  unfold pir_combine. rewrite Heq. destruct (forallb _ _) eqn:E; [|done].
  rewrite forallb_forall in E. specialize (E b (in_or_app _ _ _ (or_introl Hb))).
  apply Z.eqb_eq in E. subst b. done.
Qed.

(** The one slot where the selections differ is what the client obtains. *)
Lemma retrieve_slot f g st1 st2 e : store_ok st1 → store_ok st2 →
  flatten_store st1 = flatten_store st2 →
  e ∈ live st1 → 0 <= de_stored_at e → 0 <= slot_of (de_hash e) < 256 →
  (∀ e', e' ∈ live st1 → slot_of (de_hash e') = slot_of (de_hash e) → e' = e) →
  (∀ e', e' ∈ live st1 → 0 <= slot_of (de_hash e')) →
  existsb (λ b, negb (b =? 0)) (v_data (view_of e)) = true →
  (∀ i, (i < 256)%nat → xorb (f i) (g i) = (i =? Z.to_nat (slot_of (de_hash e)))%nat) →
  pir_combine (pir_answer f st1) (pir_answer g st2) =
  Some (v_data (view_of e) ++ zeros (MAX - Z.to_nat (de_data_len e))).
Proof.
  intros Hok1 Hok2 Hflat He Ht Hslot Huniq Hpos Hnz Hsel.
  pose proof (flatten_lookup st1 e Hok1 He Ht Hslot Huniq Hpos) as Hlook.
  destruct (flatten_store_ok st1 Hok1) as [Hf H256]. apply combine_nonzero; [|done].
  rewrite pir_answers_xor by done.
  erewrite (xsum_point _ (Z.to_nat (slot_of (de_hash e)))); [|done|lia|by rewrite Nat.sub_0_r|].
  2: { intros i Hi. apply Hsel. lia. }
  unfold slot_value. cbn [fl_len fl_data]. destruct (Z.eqb_spec (de_data_len e) 0) as [Hz|]; [|done].
  unfold view_of in Hnz. cbn [v_data] in Hnz. rewrite Hz in Hnz. discriminate Hnz.
Qed.


(** An entry placed in slot 6 of an otherwise empty store. *)
Definition demo_pir_entry : moor_dht_entry_t :=
  mk_entry (5 :: 3 :: zeros 30) (blit 0 [7; 8; 9] (zeros MAX)) 3 3 90000 1.
Definition demo_pir_store : moor_dht_store_t :=
  mk_store (<[O := demo_pir_entry]> (entries moor_dht_store_init)) 1.

Lemma demo_pir_store_ok : store_ok demo_pir_store.
Proof.
  apply (append_spec moor_dht_store_init demo_pir_entry store_init_ok).
  - apply Nat.ltb_lt. reflexivity.
  - intros e He. by apply elem_of_nil in He.
  - pose proof max_desc_data. split; cbn [demo_pir_entry de_data de_data_len]; [|lia].
    rewrite length_blit; [apply length_zeros|]. rewrite length_zeros. simpl. lia.
Qed.


(** ** The XOR-mask query *)

Lemma land_shiftl_1 b k : 0 <= k → negb (Z.land b (Z.shiftl 1 k) =? 0) = Z.testbit b k.
Proof.
  intros Hk. rewrite Z.shiftl_1_l. apply Bool.eq_iff_eq_true. rewrite negb_true_iff, Z.eqb_neq. split.
  - intros Hne. destruct (Z.testbit b k) eqn:E; [done|]. destruct Hne.
    apply Z.bits_inj'. intros n Hn. rewrite Z.land_spec, Z.pow2_bits_eqb, Z.bits_0 by lia.
    destruct (Z.eqb_spec k n) as [->|]; [by rewrite E|apply andb_false_r].
  - intros Hb H0. assert (Z.testbit (Z.land b (2 ^ k)) k = true) as H.
    { rewrite Z.land_spec, Hb, Z.pow2_bits_true by lia. done. }
    rewrite H0, Z.bits_0 in H. done.
Qed.

Lemma mask_bit_testbit m j : mask_bit m j = Z.testbit (byte_at (j / 8) m) (Z.of_nat (j mod 8)).
Proof. apply land_shiftl_1. lia. Qed.

Lemma flip_mask_point slot s1 i : length s1 = 32%nat → 0 <= slot < 256 → (i < 256)%nat →
  xorb (mask_bit s1 i) (mask_bit (flip_mask slot s1) i) = (i =? Z.to_nat slot)%nat.
Proof.
  intros Hl Hs Hi. rewrite !mask_bit_testbit. unfold flip_mask, byte_at.
  rewrite !nth_lookup.
  assert (i / 8 < 32)%nat as Hi8 by (apply Nat.Div0.div_lt_upper_bound; lia).
  destruct (lookup_lt_is_Some_2 s1 (i / 8)) as [b Hb]; [lia|]. rewrite Hb.
  destruct (decide (i / 8 = Z.to_nat (slot / 8))%nat) as [Heq|Hne].
  - rewrite <- Heq, list_lookup_alter_eq, Hb.
    cbn [fmap option_fmap option_map from_option]. unfold id.
    rewrite Z.lxor_spec, Z.shiftl_1_l, Z.pow2_bits_eqb by (apply Z.mod_pos_bound; lia).
    rewrite <- xorb_assoc, xorb_nilpotent, xorb_false_l.
    pose proof (Nat.div_mod_eq i 8). pose proof (Z.div_mod slot 8 ltac:(lia)).
    pose proof (Nat.mod_upper_bound i 8 ltac:(lia)). pose proof (Z.mod_pos_bound slot 8 ltac:(lia)).
    destruct (Z.eqb_spec (slot mod 8) (Z.of_nat (i mod 8))), (Nat.eqb_spec i (Z.to_nat slot)); lia.
  - rewrite list_lookup_alter_ne, Hb, xorb_nilpotent by done. symmetry. apply Nat.eqb_neq. intros ->.
    apply Hne. rewrite Z2Nat.inj_div by lia. done.
Qed.

Lemma pir_query_answer prev_cid qid mask st :
  length qid = 4%nat → length mask = 32%nat →
  moor_dht_handle_pir_query log_send true prev_cid (pir_query qid mask) st [] =
  send_response log_send PIR_CELLS RELAY_DHT_PIR_RESPONSE prev_cid qid (pir_answer (mask_bit mask) st) 0 [].
Proof.
  intros Hq Hm. unfold moor_dht_handle_pir_query, pir_query. rewrite length_app, Hq, Hm. cbn [negb Nat.ltb Nat.leb Nat.add].
  unfold slice. rewrite take_app_length', drop_app_length' by done. rewrite take_ge by lia. reflexivity.
Qed.

Lemma length_flip_mask slot m : length (flip_mask slot m) = length m.
Proof. apply length_alter. Qed.

(** A bitmask query retrieves the descriptor: for every random mask, two relays
    with the same slots, one asked with the mask and one with the slot's bit
    flipped, answer with buffers whose combination is the descriptor of the
    address, padded with zeros. *)
Theorem pir_fetch_retrieves mask qid1 qid2 cid1 cid2 st1 st2 e :
  length mask = 32%nat → length qid1 = 4%nat → length qid2 = 4%nat →
  store_ok st1 → store_ok st2 → flatten_store st1 = flatten_store st2 →
  e ∈ live st1 → 0 <= de_stored_at e → 0 <= slot_of (de_hash e) < 256 →
  (∀ e', e' ∈ live st1 → slot_of (de_hash e') = slot_of (de_hash e) → e' = e) →
  (∀ e', e' ∈ live st1 → 0 <= slot_of (de_hash e')) →
  existsb (λ b, negb (b =? 0)) (v_data (view_of e)) = true →
  let ask cid qid m st := moor_dht_handle_pir_query log_send true cid (pir_query qid m) st [] in
  dht_fetch_answers RELAY_DHT_PIR_RESPONSE qid1 qid2
    (read_cell <$> (ask cid1 qid1 mask st1).2)
    (read_cell <$> (ask cid2 qid2 (flip_mask (slot_of (de_hash e)) mask) st2).2) =
  Some (v_data (view_of e) ++ zeros (MAX - Z.to_nat (de_data_len e))).
Proof.
  intros Hm Hq1 Hq2 Hok1 Hok2 Hflat He Ht Hslot Huniq Hpos Hnz. cbv beta zeta.
  rewrite !pir_query_answer by (done || by rewrite length_flip_mask).
  unfold dht_fetch_answers. rewrite !response_roundtrip by (done || by apply length_pir_answer).
  apply retrieve_slot; [done..|]. intros i Hi. by apply flip_mask_point.
Qed.

Lemma pir_fetch_retrieves_witness :
  dht_fetch_answers RELAY_DHT_PIR_RESPONSE [1; 2; 3; 4] [5; 6; 7; 8]
    (read_cell <$> (moor_dht_handle_pir_query log_send true 11 (pir_query [1; 2; 3; 4] (repeat 170 32))
       demo_pir_store []).2)
    (read_cell <$> (moor_dht_handle_pir_query log_send true 12
       (pir_query [5; 6; 7; 8] (flip_mask (slot_of (de_hash demo_pir_entry)) (repeat 170 32)))
       demo_pir_store []).2) =
  Some (v_data (view_of demo_pir_entry) ++ zeros (MAX - Z.to_nat 3)).
Proof.
  apply (pir_fetch_retrieves (repeat 170 32) [1; 2; 3; 4] [5; 6; 7; 8] 11 12 demo_pir_store demo_pir_store
    demo_pir_entry).
  - reflexivity.
  - reflexivity.
  - reflexivity.
  - apply demo_pir_store_ok.
  - apply demo_pir_store_ok.
  - reflexivity.
  - left.
  - cbn [demo_pir_entry de_stored_at]. lia.
  - split; [discriminate|reflexivity].
  - intros e' He' _. apply list_elem_of_singleton in He'. exact He'.
  - intros e' He'. apply list_elem_of_singleton in He'. rewrite He'. discriminate.
  - unfold view_of. cbn [v_data demo_pir_entry de_data de_data_len]. unfold blit. rewrite take_0, app_nil_l.
    reflexivity.
Defined.

(** ** Replicas with different contents *)

Lemma xsum_insert g j flat k s1 s2 : Forall slot_ok flat → slot_ok s2 → flat !! k = Some s1 →
  g (j + k)%nat = true →
  xsum g j (<[k := s2]> flat) = xor_bytes (xsum g j flat) (xor_bytes (slot_value s1) (slot_value s2)).
Proof.
  intros H H2. revert j k. induction H as [|s flat Hs Hf IH]; intros j k Hk Hg; [done|].
  destruct k as [|k]; simplify_eq/=.
  - rewrite Nat.add_0_r in Hg. rewrite Hg. cbn [slot_pick].
    rewrite (xor_bytes_comm (slot_value s1)), <- xor_bytes_assoc, (xor_bytes_comm (xsum g (S j) flat)).
    rewrite !xor_bytes_assoc, xor_self by (by apply length_slot_value).
    rewrite xor_zeros_l by (by apply length_slot_value). done.
  - rewrite IH by (done || by rewrite Nat.add_succ_l, <- Nat.add_succ_r). by rewrite xor_bytes_assoc.
Qed.

Lemma xor_eq_cancel a b : length a = MAX → length b = MAX → xor_bytes a b = a → b = zeros MAX.
Proof.
  intros Ha Hb H. rewrite <- (xor_bytes_cancel_l a b) by congruence. rewrite H. by apply xor_self.
Qed.

(** Both queries presuppose that the two replicas hold the same slots. If the stores
    differ in one other slot [k] (as they do when one relay is also responsible for
    a descriptor the other is not) and the second mask selects it, the client
    obtains the descriptor XORed with the difference of the two contents of slot
    [k], which is not the descriptor, and has no way to tell. *)
Theorem pir_unequal_replicas mask st1 st2 e k s1 s2 :
  length mask = 32%nat → store_ok st1 → store_ok st2 →
  flatten_store st1 !! k = Some s1 → slot_ok s2 → flatten_store st2 = <[k := s2]> (flatten_store st1) →
  slot_value s1 ≠ slot_value s2 → mask_bit (flip_mask (slot_of (de_hash e)) mask) k = true →
  e ∈ live st1 → 0 <= de_stored_at e → 0 <= slot_of (de_hash e) < 256 → 0 < de_data_len e →
  (∀ e', e' ∈ live st1 → slot_of (de_hash e') = slot_of (de_hash e) → e' = e) →
  (∀ e', e' ∈ live st1 → 0 <= slot_of (de_hash e')) →
  let desc := v_data (view_of e) ++ zeros (MAX - Z.to_nat (de_data_len e)) in
  let r := xor_bytes (pir_answer (mask_bit mask) st1)
             (pir_answer (mask_bit (flip_mask (slot_of (de_hash e)) mask)) st2) in
  r = xor_bytes desc (xor_bytes (slot_value s1) (slot_value s2)) ∧ r ≠ desc.
Proof.
  intros Hm Hok1 Hok2 Hk Hs2 Hflat Hne Hsel He Ht Hslot Hlen Huniq Hpos. cbv zeta.
  destruct (flatten_store_ok st1 Hok1) as [Hf H256].
  pose proof (Forall_lookup_1 _ _ _ _ Hf Hk) as Hs1.
  pose proof (flatten_lookup st1 e Hok1 He Ht Hslot Huniq Hpos) as Hlook.
  pose proof (Forall_lookup_1 _ _ _ _ Hf Hlook) as Hdesc. unfold slot_ok in Hdesc. cbn [fl_data] in Hdesc.
  set (desc := v_data (view_of e) ++ _) in *.
  assert (∀ g, pir_answer g st2 = xsum g 0 (flatten_store st2)) as Hans2.
  { intros g. destruct (flatten_store_ok st2 Hok2) as [Hf2 _]. unfold pir_answer.
    rewrite xor_slots_xsum by (done || apply length_zeros). apply xor_zeros_l. by apply length_xsum. }
  assert (pir_answer (mask_bit mask) st1 = xsum (mask_bit mask) 0 (flatten_store st1)) as ->.
  { unfold pir_answer. rewrite xor_slots_xsum by (done || apply length_zeros).
    apply xor_zeros_l. by apply length_xsum. }
  rewrite Hans2, Hflat, (xsum_insert _ 0 _ k s1 s2) by done.
  rewrite xor_bytes_assoc, xsum_xor by done.
  erewrite (xsum_point _ (Z.to_nat (slot_of (de_hash e))) 0); [|done|lia|by rewrite Nat.sub_0_r|].
  2: { intros i Hi. apply flip_mask_point; [done|done|lia]. }
  assert (slot_value (mk_slot desc (de_data_len e) (de_stored_at e)) = desc) as ->.
  { unfold slot_value. cbn [fl_len fl_data]. by rewrite (proj2 (Z.eqb_neq _ _)) by lia. }
  split; [done|]. intros Heq.
  apply xor_eq_cancel in Heq; [|done|rewrite length_xor_bytes, !length_slot_value by done; lia].
  apply Hne. rewrite <- (xor_bytes_cancel_l (slot_value s1) (slot_value s2)) by (by rewrite !length_slot_value).
  rewrite Heq. symmetry. apply xor_zeros_r. by apply length_slot_value.
Qed.

(** The second replica also stores a descriptor in slot 0. *)
Definition demo_other_entry : moor_dht_entry_t :=
  mk_entry (4 :: 4 :: zeros 30) (blit 0 [1; 1] (zeros MAX)) 2 2 90001 1.
Definition demo_other_store : moor_dht_store_t :=
  mk_store (<[1%nat := demo_other_entry]> (entries demo_pir_store)) 2.

Lemma demo_other_store_ok : store_ok demo_other_store.
Proof.
  apply (append_spec demo_pir_store demo_other_entry demo_pir_store_ok).
  - apply Nat.ltb_lt. reflexivity.
  - intros e He. apply list_elem_of_singleton in He. rewrite He. discriminate.
  - pose proof max_desc_data. split; cbn [demo_other_entry de_data de_data_len]; [|lia].
    rewrite length_blit; [apply length_zeros|]. rewrite length_zeros. simpl. lia.
Qed.

Definition demo_other_slot : flat_slot :=
  mk_slot (take (Z.to_nat 2) (de_data demo_other_entry) ++ zeros (MAX - Z.to_nat 2)) 2 90001.

Lemma demo_flatten : flatten_store demo_pir_store !! 0%nat = Some empty_slot ∧
  flatten_store demo_other_store = <[0%nat := demo_other_slot]> (flatten_store demo_pir_store).
Proof.
  split; [reflexivity|].
  change (flatten_store demo_other_store) with (place_entry (flatten_store demo_pir_store) demo_other_entry).
  unfold place_entry. rewrite (alter_insert _ _ _ empty_slot) by reflexivity.
  change (Z.to_nat (slot_of (de_hash demo_other_entry))) with O. f_equal.
Qed.

Lemma demo_slots_differ : slot_value empty_slot ≠ slot_value demo_other_slot.
Proof.
  unfold slot_value, demo_other_slot, empty_slot. cbn [fl_len Z.eqb fl_data]. intros H.
  apply (f_equal (byte_at 0)) in H. unfold demo_other_entry, blit in H. cbn [de_data] in H.
  rewrite take_0, app_nil_l in H. cbn in H.
  assert (byte_at 0 (zeros MAX) = 0) as H0.
  { unfold byte_at, zeros. by rewrite nth_lookup, lookup_replicate_2 by (pose proof max_desc_data; lia). }
  rewrite H0 in H. discriminate.
Qed.

Lemma pir_unequal_replicas_witness :
  xor_bytes (pir_answer (mask_bit (repeat 255 32)) demo_pir_store)
    (pir_answer (mask_bit (flip_mask (slot_of (de_hash demo_pir_entry)) (repeat 255 32))) demo_other_store)
  ≠ v_data (view_of demo_pir_entry) ++ zeros (MAX - Z.to_nat 3).
Proof.
  apply (pir_unequal_replicas (repeat 255 32) demo_pir_store demo_other_store demo_pir_entry 0
    empty_slot demo_other_slot).
  - reflexivity.
  - apply demo_pir_store_ok.
  - apply demo_other_store_ok.
  - apply demo_flatten.
  - unfold slot_ok, demo_other_slot. cbn [fl_data]. pose proof max_desc_data.
    rewrite length_app, length_take, length_zeros. unfold demo_other_entry. cbn [de_data].
    rewrite length_blit by (rewrite length_zeros; simpl; lia). rewrite length_zeros. lia.
  - apply demo_flatten.
  - apply demo_slots_differ.
  - reflexivity.
  - left.
  - cbn [demo_pir_entry de_stored_at]. lia.
  - split; [discriminate|reflexivity].
  - reflexivity.
  - intros e' He' _. apply list_elem_of_singleton in He'. exact He'.
  - intros e' He'. apply list_elem_of_singleton in He'. rewrite He'. discriminate.
Defined.
