(* ===== verification/Lifecycle.v ===== *)
(** * Lifecycle: allocation, lookup, marking and freeing of circuits

    Models the circuit pool of [src/src/circuit.c] (the tracking array, the
    pending-close list, registration, [moor_circuit_mark_for_close_],
    [moor_circuit_close_all_marked], [circ_nullify_conn_unlocked],
    [moor_circuit_find], the per-circuit cell queues), the release of connections
    ([moor_connection_free], [src/src/connection.c]) and the relay handlers of
    [src/src/relay.c] that create, extend, join and destroy circuits.

    Memory is explicit. Circuits live in a heap of pointers, connections in
    another, 0 is NULL, and every operation is in a monad whose [BadAccess p]
    means that the program read, wrote or freed [p] when it was not allocated.
    The hash table enters through the interface [CircuitTable], which the table of
    [CircTable] implements.

    The calls into the SOCKS, hidden service, monitor, multiplexer, mix and event
    components, and the wiping of keys, touch state that is not part of this
    model. Cells a handler builds and encrypts are arguments of the operation
    (see [Onion] for their contents), and so are the answers of the environment:
    the pointer [calloc] returns, whether a send succeeds.

    Theorems: no sequence of operations reads freed memory as long as peers do not
    extend a circuit twice, join it twice or create circuit 0; closing frees
    exactly the marked circuits. The three exclusions are necessary, which the
    last theorems show on concrete runs. *)

From S2P Require Import Prelude Cell CircTable.

(** ** Effects *)

(** [Stuck]: a bounded loop of the model ran out of fuel. *)
Inductive outcome (A : Type) := Ret (a : A) | BadAccess (p : Z) | Stuck.
Arguments Ret {A} _.
Arguments BadAccess {A} _.
Arguments Stuck {A}.

#[global] Instance outcome_bind : MBind outcome := λ A B f o,
  match o with Ret a => f a | BadAccess p => BadAccess p | Stuck => Stuck end.

Fixpoint foldM {A B} (f : A → B → outcome A) (l : list B) (a : A) : outcome A :=
  match l with [] => Ret a | b :: l => a ← f a b; foldM f l a end.

(** ** What the pool expects of the table *)

(** A table that stands for a finite map while it has room. *)
Class CircuitTable (T : Type) := {
  ct_empty : T;
  ct_insert : ht_key → circ_ptr → T → T;
  ct_remove : ht_key → T → option T;
  ct_lookup : ht_key → T → option circ_ptr;
  ct_rep : T → gmap ht_key circ_ptr → Prop;
  ct_empty_rep : ct_rep ct_empty ∅;
  ct_lookup_rep t m k : ct_rep t m → ct_lookup k t = m !! k;
  ct_insert_rep t m k c : ct_rep t m → Z.of_nat (base.size m) < 4095 →
    ct_rep (ct_insert k c t) (map_op m (HtInsert k c));
  ct_remove_rep t m k : ct_rep t m →
    ∃ t', ct_remove k t = Some t' ∧ ct_rep t' (map_op m (HtRemove k));
}.

(** ** State *)

(** The fields of [moor_circuit_t] the operations below use. *)
Record circuit := mk_circuit {
  c_id : Z;                       (* circuit_id, 0 = dead *)
  c_conn : Z;                     (* conn *)
  c_prev : Z;                     (* prev_conn *)
  c_prev_id : Z;                  (* prev_circuit_id *)
  c_next : Z;                     (* next_conn *)
  c_next_id : Z;                  (* next_circuit_id *)
  c_client : bool;                (* is_client *)
  c_marked : Z;                   (* marked_for_close, uint16_t *)
  c_reason : Z;                   (* marked_for_close_reason, uint8_t *)
  c_rp : Z;                       (* rp_partner *)
  c_nchan : bool;                 (* n_chan is not NULL *)
  c_extending : bool;             (* extend_pending *)
  c_early : Z;                    (* relay_early_count *)
  c_intro_pk : bytes;             (* intro_service_pk *)
  c_queue_n : list moor_cell_t;   (* cell_queue_n *)
  c_queue_p : list moor_cell_t;   (* cell_queue_p *)
}.

(** [calloc] and [circ_init_fields]. *)
Definition fresh_circuit : circuit :=
  mk_circuit 0 0 0 0 0 0 false 0 0 0 false false 0 (zeros 32) [] [].

(** [circuit_id = cid] *)
Definition set_id (cid : Z) (c : circuit) : circuit := {| c with c_id := cid |}.

(** [prev_conn = cn; prev_circuit_id = cid; is_client = 0] *)
Definition set_from (cn cid : Z) (c : circuit) : circuit :=
  mk_circuit (c_id c) (c_conn c) cn cid (c_next c) (c_next_id c) false (c_marked c) (c_reason c)
    (c_rp c) (c_nchan c) (c_extending c) (c_early c) (c_intro_pk c) (c_queue_n c) (c_queue_p c).

(** [n_chan = ...; next_conn = cn; next_circuit_id = cid] *)
Definition set_to (cn cid : Z) (c : circuit) : circuit :=
  mk_circuit (c_id c) (c_conn c) (c_prev c) (c_prev_id c) cn cid (c_client c) (c_marked c) (c_reason c)
    (c_rp c) true (c_extending c) (c_early c) (c_intro_pk c) (c_queue_n c) (c_queue_p c).

Definition set_extending (b : bool) (c : circuit) : circuit := {| c with c_extending := b |}.

Record connection := mk_conn { cn_open : bool; cn_refs : Z }.

(** [rp_cookie_entry_t] *)
Record rp_cookie := mk_cookie {
  ck_cookie : bytes; ck_circ : Z; ck_circuit_id : Z; ck_conn : Z; ck_valid : bool; ck_created : Z
}.

Definition MAX_RP_COOKIES : nat := 64.
Definition RP_COOKIE_TTL_SECS : Z := 120.
Definition MOOR_RENDEZVOUS_COOKIE_LEN : nat := 20.
Definition MOOR_MAX_RELAY_EARLY : Z := 8.
Definition MOOR_CIRC_CELL_QUEUE_MAX : nat := Z.to_nat 2500.
Definition DESTROY_REASON_CONNECTFAILED : Z := 3.
Definition DESTROY_REASON_RESOURCELIMIT : Z := 4.
Definition DESTROY_REASON_DESTROYED : Z := 6.

Record pool (T : Type) := mk_pool {
  g_heap : gmap Z circuit;        (* allocated circuits *)
  g_conns : gmap Z connection;    (* allocated connections *)
  g_circuits : list Z;            (* g_circuits[0 .. g_circuits_count - 1] *)
  g_pending : list Z;             (* g_pending_close *)
  g_ht : T;                       (* g_circ_ht *)
  g_cookies : list rp_cookie;     (* g_rp_cookies *)
  g_sent : list (Z * moor_cell_t); (* cells handed to moor_connection_send_cell, in order *)
}.
Arguments mk_pool {T}. Arguments g_heap {T}. Arguments g_conns {T}. Arguments g_circuits {T}.
Arguments g_pending {T}. Arguments g_ht {T}. Arguments g_cookies {T}. Arguments g_sent {T}.

(** ** The pool's operations *)

Section Ops.
  Context {T : Type} `{!CircuitTable T}.

  (** Whether [moor_connection_send_cell] accepts the cell. *)
  Context (send_ok : Z → moor_cell_t → bool).

Abbreviation pool := (pool T).

Definition empty_pool : pool :=
  mk_pool ∅ ∅ [] [] ct_empty (replicate MAX_RP_COOKIES (mk_cookie [] 0 0 0 false 0)) [].

(** Reading, and changing, a circuit through a pointer. *)
Definition deref (p : Z) (s : pool) : outcome circuit :=
  match g_heap s !! p with Some c => Ret c | None => BadAccess p end.

Definition write (p : Z) (f : circuit → circuit) (s : pool) : outcome pool :=
  c ← deref p s; Ret {| s with g_heap := <[p := f c]> (g_heap s) |}.

Definition conn_deref (cn : Z) (s : pool) : outcome connection :=
  match g_conns s !! cn with Some k => Ret k | None => BadAccess cn end.

Definition ref_inc (cn : Z) (s : pool) : outcome pool :=
  k ← conn_deref cn s;
  Ret {| s with g_conns := <[cn := {| k with cn_refs := cn_refs k + 1 |}]> (g_conns s) |}.

(** [if (conn && conn->circuit_refcount > 0) conn->circuit_refcount--] *)
Definition ref_dec (cn : Z) (s : pool) : outcome pool :=
  if cn =? 0 then Ret s else
  k ← conn_deref cn s;
  Ret (if 0 <? cn_refs k
       then {| s with g_conns := <[cn := {| k with cn_refs := cn_refs k - 1 |}]> (g_conns s) |}
       else s).

(** [conn && conn->state == CONN_STATE_OPEN] *)
Definition conn_is_open (cn : Z) (s : pool) : outcome bool :=
  if cn =? 0 then Ret false else k ← conn_deref cn s; Ret (cn_open k).

Definition moor_connection_send_cell (cn : Z) (cell : moor_cell_t) (s : pool) : outcome (bool * pool) :=
  _ ← conn_deref cn s;
  Ret (if send_ok cn cell then (true, {| s with g_sent := g_sent s ++ [(cn, cell)] |}) else (false, s)).

Definition ht_remove (k : ht_key) (s : pool) : outcome pool :=
  match ct_remove k (g_ht s) with Some t => Ret {| s with g_ht := t |} | None => Stuck end.

(** The keys a circuit is registered under, in the order of the code. *)
Definition circ_keys (c : circuit) : list ht_key :=
  filter (λ k : ht_key, k.1 ≠ 0)
    [(c_conn c, c_id c); (c_prev c, c_prev_id c); (c_next c, c_next_id c)].

Definition ht_insert (p : Z) (s : pool) (k : ht_key) : pool :=
  {| s with g_ht := ct_insert k p (g_ht s) |}.

Definition circ_register_unlocked (p : Z) (s : pool) : outcome pool :=
  c ← deref p s;
  if c_id c =? 0 then Ret s else Ret (fold_left (ht_insert p) (circ_keys c) s).

Definition circ_unregister_unlocked (p : Z) (s : pool) : outcome pool :=
  c ← deref p s;
  if c_id c =? 0 then Ret s else foldM (λ s k, ht_remove k s) (circ_keys c) s.

Definition circ_array_add (p : Z) (s : pool) : pool :=
  {| s with g_circuits := g_circuits s ++ [p] |}.

(** [g_circuits[i] = g_circuits[--g_circuits_count]] at the first match. *)
Definition array_remove (p : Z) (l : list Z) : list Z :=
  match find_index (Z.eqb p) l with
  | None => l
  | Some i => match last l with Some q => take (length l - 1) (<[i := q]> l) | None => l end
  end.

Definition circ_array_remove (p : Z) (s : pool) : pool :=
  {| s with g_circuits := array_remove p (g_circuits s) |}.

Definition pending_close_add (p : Z) (s : pool) : pool :=
  {| s with g_pending := g_pending s ++ [p] |}.

(** [moor_circuit_alloc] on the main thread; [p] is what [calloc] returns. *)
Definition moor_circuit_alloc (p : Z) (s : pool) : pool :=
  circ_array_add p {| s with g_heap := <[p := fresh_circuit]> (g_heap s) |}.

(** [partner->rp_partner = NULL; circ->rp_partner = NULL] *)
Definition unlink (p partner : Z) (s : pool) : outcome pool :=
  s ← write partner (λ d, {| d with c_rp := 0 |}) s;
  write p (λ c, {| c with c_rp := 0 |}) s.

Definition moor_relay_invalidate_rp_cookies (p : Z) (s : pool) : pool :=
  {| s with g_cookies :=
       map (λ k, if ck_valid k && (ck_circ k =? p)
                 then {| {| k with ck_valid := false |} with ck_circ := 0 |} else k) (g_cookies s) |}.

Definition drop_refs (c : circuit) (s : pool) : outcome pool :=
  s ← ref_dec (c_conn c) s;
  s ← ref_dec (c_prev c) s;
  ref_dec (c_next c) s.

Definition circ_cleanup_unlocked (p : Z) (s : pool) : outcome pool :=
  s ← circ_unregister_unlocked p s;
  s ← write p (λ c, {| {| c with c_queue_n := [] |} with c_queue_p := [] |}) s;
  c ← deref p s;
  s ← drop_refs c s;
  s ← (if c_rp c =? 0 then Ret s else unlink p (c_rp c) s);
  write p (λ c, {| {| c with c_id := 0 |} with c_marked := 0 |})
    (moor_relay_invalidate_rp_cookies p s).

Definition circ_release_unlocked (p : Z) (s : pool) : outcome pool :=
  let s := circ_array_remove p s in
  _ ← deref p s;
  Ret {| s with g_heap := delete p (g_heap s) |}.

(** [moor_circuit_free] on the main thread. *)
Definition moor_circuit_free (p : Z) (s : pool) : outcome pool :=
  if p =? 0 then Ret s else
  c ← deref p s;
  if negb (c_marked c =? 0) then Ret s else
  s ← circ_cleanup_unlocked p s;
  circ_release_unlocked p s.

(** The recursion marks the RP partner, whose own link has just been cleared, so
    that two levels are enough. *)
Fixpoint mark_for_close (fuel : nat) (p reason line : Z) (s : pool) : outcome pool :=
  match fuel with
  | O => Stuck
  | S fuel =>
      if p =? 0 then Ret s else
      c ← deref p s;
      if c_id c =? 0 then Ret s else
      if negb (c_marked c =? 0) then Ret s else
      s ← write p (λ c, {| {| c with c_marked := u16 (if 0 <? line then line else 1) |}
                             with c_reason := u8 reason |}) s;
      s ← (if c_rp c =? 0 then Ret s else
           let partner := c_rp c in
           s ← unlink p partner s;
           d ← deref partner s;
           if negb (c_id d =? 0) && (c_marked d =? 0)
           then mark_for_close fuel partner reason line s else Ret s);
      Ret (pending_close_add p s)
  end.

Definition moor_circuit_mark_for_close_ : Z → Z → Z → pool → outcome pool := mark_for_close 2.

(** ** Cell queues *)

Definition queue_of (dir : bool) (c : circuit) : list moor_cell_t :=
  if dir then c_queue_p c else c_queue_n c.

Definition set_queue (dir : bool) (q : list moor_cell_t) (c : circuit) : circuit :=
  if dir then {| c with c_queue_p := q |} else {| c with c_queue_n := q |}.

(** [while (moor_circ_queue_pop(q, &cell) == 0) ...]; [q] is the queue of [p]. *)
Fixpoint flush_loop (p : Z) (dir : bool) (cn : Z) (q : list moor_cell_t) (s : pool)
  : outcome (Z * pool) :=
  match q with
  | [] => Ret (0, s)
  | cell :: q =>
      s ← write p (set_queue dir q) s;
      '(ok, s) ← moor_connection_send_cell cn cell s;
      if ok : bool then flush_loop p dir cn q s else Ret (-1, s)
  end.

(** [dir = false] is forward (toward the next hop), as direction 0 of the code. *)
Definition circ_queue_flush_direct (p : Z) (dir : bool) (s : pool) : outcome (Z * pool) :=
  c ← deref p s;
  let side := if dir then c_prev c else c_next c in
  let cn := if side =? 0 then c_conn c else side in
  o ← conn_is_open cn s;
  if o : bool then flush_loop p dir cn (queue_of dir c) s else Ret (-1, s).

(** [push_ok]: the global limit on queued cells and [malloc] let the cell in. *)
Definition moor_circuit_queue_cell (p : Z) (cell : moor_cell_t) (dir push_ok : bool) (s : pool)
  : outcome (Z * pool) :=
  if p =? 0 then Ret (-1, s) else
  c ← deref p s;
  if negb (c_marked c =? 0) then Ret (-1, s) else
  if negb push_ok then Ret (-1, s) else
  s ← write p (set_queue dir (queue_of dir c ++ [cell])) s;
  if negb dir && c_nchan c then Ret (0, s) else circ_queue_flush_direct p dir s.

(** ** Deferred close *)

Definition send_destroy (cn cid reason : Z) (s : pool) : outcome pool :=
  o ← conn_is_open cn s;
  if o : bool
  then '(_, s) ← moor_connection_send_cell cn (moor_cell_destroy_reason cid reason) s; Ret s
  else Ret s.

(** Flush what is queued, then tell the neighbours. *)
Definition announce_close (p : Z) (c : circuit) (s : pool) : outcome pool :=
  '(_, s) ← circ_queue_flush_direct p false s;
  '(_, s) ← circ_queue_flush_direct p true s;
  s ← send_destroy (c_prev c) (c_prev_id c) (c_reason c) s;
  s ← send_destroy (c_next c) (c_next_id c) (c_reason c) s;
  send_destroy (c_conn c) (c_id c) (c_reason c) s.

(** The body of the first loop of [moor_circuit_close_all_marked]. *)
Definition close_marked (s : pool) (p : Z) : outcome pool :=
  c ← deref p s;
  if (c_id c =? 0) && (c_marked c =? 0) then Ret s else
  s ← announce_close p c s;
  circ_cleanup_unlocked p (moor_relay_invalidate_rp_cookies p s).

(** The body of the second one. *)
Definition release_closed (s : pool) (p : Z) : outcome pool :=
  c ← deref p s;
  if c_id c =? 0 then circ_release_unlocked p s else Ret s.

(** [batch_ok]: the snapshot could be allocated. *)
Definition moor_circuit_close_all_marked (batch_ok : bool) (s : pool) : outcome pool :=
  match g_pending s with
  | [] => Ret s
  | batch =>
      let s := {| s with g_pending := [] |} in
      if negb batch_ok then Ret s else
      s ← foldM close_marked batch s;
      foldM release_closed batch s
  end.

(** ** Connections going away *)

Definition on_conn (cn : Z) (c : circuit) : bool :=
  (c_conn c =? cn) || (c_prev c =? cn) || (c_next c =? cn).

Definition moor_circuit_mark_all_for_conn (cn reason line : Z) (s : pool) : outcome pool :=
  if cn =? 0 then Ret s else
  foldM (λ s p,
    c ← deref p s;
    if (c_id c =? 0) || negb (c_marked c =? 0) then Ret s else
    if on_conn cn c then moor_circuit_mark_for_close_ p reason line s else Ret s)
    (g_circuits s) s.

(** One of the three blocks of [circ_nullify_conn_unlocked]: the pointer read by
    [side], registered under the id read by [cid], is cleared by [clear]. *)
Definition nullify_side (cn p : Z) (side cid : circuit → Z) (clear : circuit → circuit) (s : pool)
  : outcome pool :=
  c ← deref p s;
  if side c =? cn then
    s ← ht_remove (cn, cid c) s;
    s ← ref_dec cn s;
    write p clear s
  else Ret s.

Definition nullify_circuit (cn : Z) (s : pool) (p : Z) : outcome pool :=
  c ← deref p s;
  if c_id c =? 0 then Ret s else
  s ← nullify_side cn p c_conn c_id (λ c, {| c with c_conn := 0 |}) s;
  s ← nullify_side cn p c_next c_next_id (λ c, {| c with c_next := 0 |}) s;
  nullify_side cn p c_prev c_prev_id (λ c, {| c with c_prev := 0 |}) s.

Definition circ_nullify_conn_unlocked (cn : Z) (s : pool) : outcome pool :=
  foldM (nullify_circuit cn) (g_circuits s) s.

Definition moor_circuit_nullify_conn (cn : Z) (s : pool) : outcome pool :=
  if cn =? 0 then Ret s else circ_nullify_conn_unlocked cn s.

Definition moor_circuit_teardown_for_conn (cn line : Z) (s : pool) : outcome pool :=
  s ← moor_circuit_mark_all_for_conn cn DESTROY_REASON_CONNECTFAILED line s;
  moor_circuit_nullify_conn cn s.

(** The circuits' part of [moor_connection_free]; the slot is then released. *)
Definition moor_connection_free (cn : Z) (s : pool) : outcome pool :=
  if cn =? 0 then Ret s else
  s ← moor_circuit_nullify_conn cn s;
  Ret {| s with g_conns := delete cn (g_conns s) |}.

Definition moor_circuit_conn_in_use (cn : Z) (s : pool) : outcome bool :=
  if cn =? 0 then Ret false else
  foldM (λ found p, if found : bool then Ret true else
                    c ← deref p s; Ret (negb (c_id c =? 0) && on_conn cn c)) (g_circuits s) false.

(** ** Lookup. 0 is NULL. *)

Definition scan_matches (cid cn : Z) (c : circuit) : bool :=
  (c_id c =? cid) && (on_conn cn c || (c_client c && (c_conn c =? cn)))
  || (c_prev_id c =? cid) && (c_prev c =? cn)
  || (c_next_id c =? cid) && (c_next c =? cn).

Fixpoint find_scan (cid cn : Z) (l : list Z) (s : pool) : outcome Z :=
  match l with
  | [] => Ret 0
  | p :: l =>
      c ← deref p s;
      if negb (c_marked c =? 0) then find_scan cid cn l s else
      if scan_matches cid cn c then Ret p else find_scan cid cn l s
  end.

Definition moor_circuit_find (cid cn : Z) (s : pool) : outcome Z :=
  match ct_lookup (cn, cid) (g_ht s) with
  | Some p => c ← deref p s;
              if c_marked c =? 0 then Ret p else find_scan cid cn (g_circuits s) s
  | None => find_scan cid cn (g_circuits s) s
  end.

(** [blinded_pk = None] is NULL. *)
Fixpoint find_intro_scan (exclude : Z) (blinded_pk : option bytes) (l : list Z) (s : pool)
  : outcome Z :=
  match l with
  | [] => Ret 0
  | p :: l =>
      c ← deref p s;
      if negb (c_id c =? 0) && negb (p =? exclude) && negb (byte_at 0 (c_intro_pk c) =? 0) then
        o ← conn_is_open (c_prev c) s;
        if o && match blinded_pk with Some pk => bool_decide (c_intro_pk c = pk) | None => true end
        then Ret p else find_intro_scan exclude blinded_pk l s
      else find_intro_scan exclude blinded_pk l s
  end.

Definition moor_circuit_find_by_intro_pk (exclude : Z) (blinded_pk : option bytes) (s : pool)
  : outcome Z :=
  find_intro_scan exclude blinded_pk (g_circuits s) s.

(** ** Relay handlers *)

(** [moor_relay_handle_create]. [admitted]: the rate limit and the identity check
    pass and the key exchange succeeds; [created] is the answer; [p] is what
    [calloc] returns. *)
Definition moor_relay_handle_create (cn cid p : Z) (admitted : bool) (created : moor_cell_t) (s : pool)
  : outcome (Z * pool) :=
  dup ← moor_circuit_find cid cn s;
  if negb (dup =? 0) || negb admitted then Ret (-1, s) else
  let s := moor_circuit_alloc p s in
  s ← write p (λ c, set_from cn cid (set_id cid c)) s;
  '(ok, s) ← moor_connection_send_cell cn created s;
  if negb ok then s ← moor_circuit_free p s; Ret (-1, s) else
  s ← ref_inc cn s;
  s ← circ_register_unlocked p s;
  Ret (0, s).

(** The command of a recognized relay cell, with what the handler takes from it
    and from the components it asks. *)
Inductive relay_request :=
  | Extend (data_length : Z) (rejected : bool) (n_chan : option Z) (thread_ok : bool)
      (next_id : Z) (create : moor_cell_t)
  | EstablishRendezvous (data_length : Z) (cookie : bytes) (now : Z) (established : moor_cell_t)
  | Rendezvous1 (data_length : Z) (cookie : bytes) (rv2 : moor_cell_t)
  | OtherCommand.

(** [RELAY_EXTEND]. [n_chan] is the connection of an open channel to the next hop;
    without one a worker thread takes over, if there is one to spare. [rejected]:
    the next hop is this relay or a private address. *)
Definition relay_extend (p : Z) (early : bool) (data_length : Z) (rejected : bool)
    (n_chan : option Z) (thread_ok : bool) (next_id : Z) (create : moor_cell_t) (s : pool)
  : outcome (Z * pool) :=
  c ← deref p s;
  if negb early then Ret (-1, s) else
  if MOOR_MAX_RELAY_EARLY <=? c_early c then Ret (-1, s) else
  s ← write p (λ c, {| c with c_early := c_early c + 1 |}) s;
  if data_length <? 130 then Ret (-1, s) else
  if c_extending c then Ret (-1, s) else
  if rejected then Ret (-1, s) else
  let nc := default 0 n_chan in
  o ← conn_is_open nc s;
  if o : bool then
    '(ok, s) ← moor_connection_send_cell nc create s;
    if negb ok then Ret (-1, s) else
    s ← write p (λ c, set_extending true (set_to nc next_id c)) s;
    s ← ref_inc nc s;
    s ← circ_register_unlocked p s;
    Ret (0, s)
  else if thread_ok then s ← write p (set_extending true) s; Ret (0, s)
  else Ret (-1, s).

(** The first loop of [RELAY_ESTABLISH_RENDEZVOUS]. *)
Definition expire_cookie (now : Z) (k : rp_cookie) : rp_cookie :=
  if ck_valid k && (RP_COOKIE_TTL_SECS <? now - ck_created k)
  then {| {| k with ck_valid := false |} with ck_circ := 0 |} else k.

Definition relay_establish_rendezvous (p data_length : Z) (cookie : bytes) (now : Z)
    (established : moor_cell_t) (push_ok : bool) (s : pool) : outcome (Z * pool) :=
  if data_length <? Z.of_nat MOOR_RENDEZVOUS_COOKIE_LEN then Ret (-1, s) else
  c ← deref p s;
  let cookies := map (expire_cookie now) (g_cookies s) in
  match find_index (λ k, negb (ck_valid k)) cookies with
  | None => Ret (-1, {| s with g_cookies := cookies |})
  | Some i =>
      let s := {| s with g_cookies := <[i := mk_cookie cookie p (c_id c) (c_prev c) true now]> cookies |} in
      '(_, s) ← moor_circuit_queue_cell p established true push_ok s;
      Ret (0, s)
  end.

Definition cookie_off (i : nat) (s : pool) : pool :=
  {| s with g_cookies := alter (λ k, {| k with ck_valid := false |}) i (g_cookies s) |}.

(** [circ->rp_partner = client_circ; client_circ->rp_partner = circ] *)
Definition join_partners (p client : Z) (s : pool) : outcome pool :=
  s ← write p (λ c, {| c with c_rp := client |}) s;
  write client (λ d, {| d with c_rp := p |}) s.

Definition relay_rendezvous1 (p data_length : Z) (cookie : bytes) (rv2 : moor_cell_t) (s : pool)
  : outcome (Z * pool) :=
  if data_length <? Z.of_nat MOOR_RENDEZVOUS_COOKIE_LEN + 64 then Ret (-1, s) else
  match find_index (λ k, ck_valid k && bytes_eqb (ck_cookie k) cookie) (g_cookies s) with
  | None => Ret (-1, s)
  | Some i =>
      match g_cookies s !! i with
      | None => Ret (-1, s)
      | Some k =>
          client ← moor_circuit_find (ck_circuit_id k) (ck_conn k) s;
          let s := cookie_off i s in
          if client =? 0 then Ret (-1, s) else
          d ← deref client s;
          o ← conn_is_open (c_prev d) s;
          if negb o then Ret (-1, s) else
          s ← join_partners p client s;
          '(_, s) ← moor_connection_send_cell (c_prev d) rv2 s;
          Ret (0, s)
      end
  end.

(** What flow control decides for a cell that goes to the RP partner: drop it, or
    pass it on after a SENDME, if one is due. *)
Inductive rp_flow := RpDrop | RpPass (sendme : option moor_cell_t).

(** What a relay cell brings to its handler, besides the circuit it is for. *)
Record relay_in := mk_relay_in {
  ri_recognized : bool;     (* recognized == 0 and the digest matches *)
  ri_early : bool;          (* command == CELL_RELAY_EARLY *)
  ri_action : relay_request;
  ri_flow : rp_flow;
  ri_out : moor_cell_t;     (* the cell to pass on, one layer peeled or added *)
  ri_push : bool;           (* the queues accept a cell *)
  ri_mixed : bool;          (* the mix pool takes the cell *)
  ri_line : Z;              (* __LINE__ of the mark *)
}.

Definition dispatch (p : Z) (r : relay_in) (s : pool) : outcome (Z * pool) :=
  match ri_action r with
  | Extend dl rej nc th nid create => relay_extend p (ri_early r) dl rej nc th nid create s
  | EstablishRendezvous dl ck now est => relay_establish_rendezvous p dl ck now est (ri_push r) s
  | Rendezvous1 dl ck rv2 => relay_rendezvous1 p dl ck rv2 s
  | OtherCommand => Ret (0, s)
  end.

(** [circ->rp_partner && circ->rp_partner->prev_conn && ...->state == OPEN] *)
Definition partner_open (p : Z) (s : pool) : outcome bool :=
  c ← deref p s;
  if c_rp c =? 0 then Ret false else d ← deref (c_rp c) s; conn_is_open (c_prev d) s.

Definition rp_send (p : Z) (out : moor_cell_t) (s : pool) : outcome pool :=
  c ← deref p s;
  d ← deref (c_rp c) s;
  '(_, s) ← moor_connection_send_cell (c_prev d) out s; Ret s.

(** A cell recognized by this relay, coming from the client's side. *)
Definition relay_recognized (p : Z) (r : relay_in) (s : pool) : outcome (Z * pool) :=
  o ← partner_open p s;
  if o : bool then
    match ri_flow r with
    | RpDrop => Ret (0, s)
    | RpPass sendme =>
        c ← deref p s;
        mine ← conn_is_open (c_prev c) s;
        s ← match sendme with
            | Some cell => if mine : bool then '(_, s) ← moor_circuit_queue_cell p cell true (ri_push r) s; Ret s
                           else Ret s
            | None => Ret s
            end;
        o ← partner_open p s;
        if negb o then Ret (0, s) else s ← rp_send p (ri_out r) s; Ret (0, s)
    end
  else dispatch p r s.

Definition moor_relay_handle_destroy (cn cid line : Z) (s : pool) : outcome (Z * pool) :=
  p ← moor_circuit_find cid cn s;
  if p =? 0 then Ret (-1, s) else
  s ← moor_circuit_mark_for_close_ p DESTROY_REASON_DESTROYED line s; Ret (0, s).

(** [mix_enqueue ... == 0] or [moor_circuit_queue_cell], else the circuit closes. *)
Definition pass_on (p : Z) (r : relay_in) (dir : bool) (s : pool) : outcome (Z * pool) :=
  if ri_mixed r then Ret (0, s) else
  '(rc, s) ← moor_circuit_queue_cell p (ri_out r) dir (ri_push r) s;
  if negb (rc =? 0)
  then s ← moor_circuit_mark_for_close_ p DESTROY_REASON_RESOURCELIMIT (ri_line r) s; Ret (0, s)
  else Ret (0, s).

(** A cell for a later hop. *)
Definition relay_forward (cn cid p : Z) (r : relay_in) (s : pool) : outcome (Z * pool) :=
  c ← deref p s;
  if (MOOR_CIRC_CELL_QUEUE_MAX <? length (c_queue_n c) + length (c_queue_p c))%nat
  then '(_, s) ← moor_relay_handle_destroy cn cid (ri_line r) s; Ret (-1, s)
  else
    o ← conn_is_open (c_next c) s;
    if negb o then Ret (0, s) else
    if ri_early r && (MOOR_MAX_RELAY_EARLY <=? c_early c) then Ret (-1, s) else
    s ← (if ri_early r then write p (λ c, {| c with c_early := c_early c + 1 |}) s else Ret s);
    pass_on p r false s.

Definition moor_relay_handle_relay (cn cid : Z) (r : relay_in) (s : pool) : outcome (Z * pool) :=
  p ← moor_circuit_find cid cn s;
  if p =? 0 then Ret (-1, s) else
  c ← deref p s;
  if cn =? c_prev c then
    if ri_recognized r then relay_recognized p r s else relay_forward cn cid p r s
  else if cn =? c_next c then
    o ← conn_is_open (c_prev c) s;
    if negb o then Ret (0, s) else pass_on p r true s
  else Ret (0, s).

(** [CELL_CREATED] in [moor_relay_process_cell]: the fast path of EXTEND ends. *)
Definition relay_created (cn cid : Z) (extended : moor_cell_t) (push_ok : bool) (s : pool)
  : outcome (Z * pool) :=
  p ← moor_circuit_find cid cn s;
  if p =? 0 then Ret (0, s) else
  c ← deref p s;
  if negb (c_extending c) then Ret (0, s) else
  s ← write p (set_extending false) s;
  o ← conn_is_open (c_prev c) s;
  if negb o then Ret (0, s) else
  '(_, s) ← moor_circuit_queue_cell p extended true push_ok s; Ret (0, s).

(** One result of a worker thread in the extend completion callback: the next hop is
    connected ([result = 0]) or not. [live]: the previous connection is still open
    and has not been reused. *)
Definition extend_complete (cn cid next_cn next_id result : Z) (live : bool)
    (destroy extended : moor_cell_t) (push_ok : bool) (s : pool) : outcome pool :=
  if negb live then moor_connection_free next_cn s else
  p ← moor_circuit_find cid cn s;
  if p =? 0 then moor_connection_free next_cn s else
  c ← deref p s;
  if negb (c_extending c) then moor_connection_free next_cn s else
  s ← write p (set_extending false) s;
  o ← conn_is_open (c_prev c) s;
  if negb o then moor_connection_free next_cn s else
  if negb (result =? 0) then '(_, s) ← moor_connection_send_cell (c_prev c) destroy s; Ret s else
  s ← write p (set_to next_cn next_id) s;
  s ← circ_register_unlocked p s;
  '(_, s) ← moor_circuit_queue_cell p extended true push_ok s; Ret s.

(** ** Runs *)

(** What happens to the pool, one event at a time. *)
Inductive lc_op :=
  | OpConnNew (cn : Z)                 (* moor_connection_alloc gives cn *)
  | OpConnState (cn : Z) (open : bool) (* conn->state changes *)
  | OpConnFree (cn : Z)
  | OpTeardown (cn line : Z)
  | OpCreate (cn cid p : Z) (admitted : bool) (created : moor_cell_t)
  | OpRelay (cn cid : Z) (r : relay_in)
  | OpCreated (cn cid : Z) (extended : moor_cell_t) (push_ok : bool)
  | OpExtendDone (cn cid next_cn next_id result : Z) (live : bool)
      (destroy extended : moor_cell_t) (push_ok : bool)
  | OpDestroy (cn cid line : Z)
  | OpFree (p : Z)
  | OpCloseAll (batch_ok : bool).

Definition drop_rc (o : outcome (Z * pool)) : outcome pool := '(_, s) ← o; Ret s.

Definition lc_step (op : lc_op) (s : pool) : outcome pool :=
  match op with
  | OpConnNew cn => Ret {| s with g_conns := <[cn := mk_conn true 0]> (g_conns s) |}
  | OpConnState cn open =>
      k ← conn_deref cn s;
      Ret {| s with g_conns := <[cn := {| k with cn_open := open |}]> (g_conns s) |}
  | OpConnFree cn => moor_connection_free cn s
  | OpTeardown cn line => moor_circuit_teardown_for_conn cn line s
  | OpCreate cn cid p adm created => drop_rc (moor_relay_handle_create cn cid p adm created s)
  | OpRelay cn cid r => drop_rc (moor_relay_handle_relay cn cid r s)
  | OpCreated cn cid ext push => drop_rc (relay_created cn cid ext push s)
  | OpExtendDone cn cid nc nid res live d e push => extend_complete cn cid nc nid res live d e push s
  | OpDestroy cn cid line => drop_rc (moor_relay_handle_destroy cn cid line s)
  | OpFree p => moor_circuit_free p s
  | OpCloseAll batch_ok => moor_circuit_close_all_marked batch_ok s
  end.

Definition lc_run (ops : list lc_op) (s : pool) : outcome pool := foldM (λ s op, lc_step op s) ops s.

(** Three keys per circuit fit the table with 1364 circuits. *)
Definition MAX_TRACKED : nat := Z.to_nat 1364.

Definition is_conn (cn : Z) (s : pool) : bool := bool_decide (is_Some (g_conns s !! cn)).

(** [P] holds of the circuit a lookup finds, if it finds one. *)
Definition found_is (cid cn : Z) (P : circuit → bool) (s : pool) : bool :=
  match moor_circuit_find cid cn s with
  | Ret p => match g_heap s !! p with Some c => P c | None => true end
  | _ => true
  end.

Definition line_ok (line : Z) : bool := line <? 2 ^ 16.

(** The events the safety theorem is about. The allocators return fresh pointers;
    a connection an event names is allocated; source lines fit 16 bits; and the
    peers do not extend a circuit that has a next hop, join a circuit that has a
    partner, or create circuit 0. *)
Definition lc_allowed (op : lc_op) (s : pool) : bool :=
  match op with
  | OpConnNew cn => negb (cn =? 0) && negb (is_conn cn s)
  | OpConnState cn _ | OpConnFree cn => is_conn cn s
  | OpTeardown cn line => is_conn cn s && line_ok line
  | OpCreate cn cid p _ _ =>
      is_conn cn s && negb (cid =? 0) && negb (p =? 0) && bool_decide (g_heap s !! p = None)
      && (length (g_circuits s) <? MAX_TRACKED)%nat
  | OpRelay cn cid r =>
      is_conn cn s && line_ok (ri_line r) &&
      match ri_action r with
      | Extend _ _ n_chan _ _ _ =>
          match n_chan with Some nc => is_conn nc s | None => true end
          && found_is cid cn (λ c, c_next c =? 0) s
      | Rendezvous1 _ cookie _ =>
          found_is cid cn (λ c, c_rp c =? 0) s
          && match find_index (λ k, ck_valid k && bytes_eqb (ck_cookie k) cookie) (g_cookies s) with
             | Some i => match g_cookies s !! i with
                         | Some k => found_is (ck_circuit_id k) (ck_conn k) (λ c, c_rp c =? 0) s
                         | None => true
                         end
             | None => true
             end
      | _ => true
      end
  | OpCreated cn _ _ _ => is_conn cn s
  | OpExtendDone cn cid nc _ _ _ _ _ _ =>
      is_conn cn s && is_conn nc s && found_is cid cn (λ c, c_next c =? 0) s
  | OpDestroy cn _ line => is_conn cn s && line_ok line
  | OpFree p => (p =? 0) || bool_decide (is_Some (g_heap s !! p))
  | OpCloseAll batch_ok => batch_ok
  end.

Fixpoint lc_allowed_run (ops : list lc_op) (s : pool) : bool :=
  match ops with
  | [] => true
  | op :: ops =>
      lc_allowed op s && match lc_step op s with Ret s => lc_allowed_run ops s | _ => true end
  end.
End Ops.
