(* ===== verification/LifecycleSafe.v ===== *)
(** * LifecycleSafe: memory safety of the circuit pool

    The invariant of the pool of [Lifecycle] and its preservation by every
    operation. Computations are specified by [ok o Q]: [o] returns, and its result
    satisfies [Q]. Most operations only change fields the invariant does not look
    at; they satisfy [frame], an equivalence of pools under which the invariant is
    [Proper]. *)

From Stdlib Require Import Morphisms.
From S2P Require Import Prelude Cell CircTable Lifecycle.

(** ** Postconditions *)

Definition ok {A} (o : outcome A) (Q : A → Prop) : Prop := ∃ a, o = Ret a ∧ Q a.

Lemma ok_ret {A} (a : A) (Q : A → Prop) : Q a → ok (Ret a) Q.
Proof. intros H. by exists a. Qed.

Lemma ok_bind {A B} (o : outcome A) (f : A → outcome B) Q R :
  ok o Q → (∀ a, Q a → ok (f a) R) → ok (o ≫= f) R.
Proof. intros (a & -> & Ha) Hf. by apply Hf. Qed.

Lemma ok_weaken {A} (o : outcome A) (Q R : A → Prop) : ok o Q → (∀ a, Q a → R a) → ok o R.
Proof. intros (a & -> & Ha) Hf. exists a. auto. Qed.

Lemma ok_foldM {A B} (f : A → B → outcome A) (I : list B → A → Prop) l a :
  I l a → (∀ b l a, I (b :: l) a → ok (f a b) (I l)) → ok (foldM f l a) (I []).
Proof.
  intros Ha Hf. revert a Ha. induction l as [|b l IH]; intros a Ha; [by apply ok_ret|].
  cbn [foldM]. eapply ok_bind; [by apply Hf|]. intros a' Ha'. by apply IH.
Qed.

(** [ok_step lem]: the first computation satisfies [lem]. *)
Ltac ok_step lem := eapply ok_bind; [eapply lem|]; cbv beta.

(** ** The invariant *)

(** Heaps that agree on a field. *)
Definition field_equiv {B} (f : circuit → B) (h1 h2 : gmap Z circuit) : Prop :=
  ∀ p, f <$> h1 !! p = f <$> h2 !! p.

#[global] Instance field_equiv_equivalence {B} (f : circuit → B) : Equivalence (field_equiv f).
Proof. split; intros h; [done|by intros h' H p|intros h' h'' H1 H2 p; by rewrite H1]. Qed.

Lemma field_equiv_lookup {B} (f : circuit → B) h1 h2 p c :
  field_equiv f h1 h2 → h1 !! p = Some c → ∃ c', h2 !! p = Some c' ∧ f c' = f c.
Proof.
  intros H E. specialize (H p). rewrite E in H. destruct (h2 !! p) as [c'|]; [|discriminate H].
  exists c'. split; [done|]. by injection H.
Qed.

(** Identity and connections: what the table and the connections depend on. *)
Definition core (c : circuit) : Z * Z * Z * Z * Z * Z :=
  (c_id c, c_conn c, c_prev c, c_prev_id c, c_next c, c_next_id c).

Lemma core_keys c c' : core c' = core c → circ_keys c' = circ_keys c.
Proof. intros [= ??????]. unfold circ_keys. congruence. Qed.

(** Connections a circuit points to are allocated. *)
Definition conns_known (conns : gmap Z connection) (c : circuit) : Prop :=
  ∀ cn, cn ∈ [c_conn c; c_prev c; c_next c] → cn ≠ 0 → is_Some (conns !! cn).

Lemma core_conns_known conns c c' : core c' = core c → conns_known conns c → conns_known conns c'.
Proof. intros [= ? E2 E3 ? E5 ?]. unfold conns_known. by rewrite E2, E3, E5. Qed.

(** [D] are the circuits that are logically dead but not yet released. *)
Record heap_ok (D : list Z) (h : gmap Z circuit) (conns : gmap Z connection) : Prop := {
  ho_null : h !! 0 = None ∧ conns !! 0 = None;
  ho_dead p c : h !! p = Some c → c_id c = 0 ↔ p ∈ D;
  ho_conns p c : h !! p = Some c → c_id c ≠ 0 → conns_known conns c;
}.

(** Links between joined circuits are symmetric, so that none dangles, and dead
    circuits have none. *)
Definition rp_ok (h : gmap Z circuit) : Prop :=
  ∀ p c, h !! p = Some c → c_rp c ≠ 0 → c_id c ≠ 0 ∧ ∃ d, h !! c_rp c = Some d ∧ c_rp d = p.

(** The tracking array holds exactly the allocated circuits. *)
Definition array_ok (h : gmap Z circuit) (l : list Z) : Prop :=
  NoDup l ∧ (∀ p, p ∈ l ↔ is_Some (h !! p)) ∧ (length l <= MAX_TRACKED)%nat.

Definition marked (h : gmap Z circuit) (p : Z) : Prop := ∃ c, h !! p = Some c ∧ c_marked c ≠ 0.

(** [w] lists the marked circuits. *)
Definition marks_ok (h : gmap Z circuit) (w : list Z) : Prop :=
  NoDup w ∧ ∀ p, p ∈ w ↔ marked h p.

Section Safety.
  Context {T : Type} `{!CircuitTable T} (send_ok : Z → moor_cell_t → bool).

Abbreviation pool := (Lifecycle.pool T).

(** The entries of the table satisfy [P]. *)
Definition ht_entries (P : ht_key → Z → Prop) (t : T) : Prop :=
  ∃ m, ct_rep t m ∧ ∀ k p, m !! k = Some p → P k p.

(** An entry is one of the keys of a live circuit. *)
Definition entry_ok (h : gmap Z circuit) (k : ht_key) (p : Z) : Prop :=
  k.2 ≠ 0 ∧ ∃ c, h !! p = Some c ∧ c_id c ≠ 0 ∧ k ∈ circ_keys c.

Record inv (D : list Z) (s : pool) : Prop := {
  inv_heap : heap_ok D (g_heap s) (g_conns s);
  inv_array : array_ok (g_heap s) (g_circuits s);
  inv_ht : ht_entries (entry_ok (g_heap s)) (g_ht s);
  inv_rp : rp_ok (g_heap s);
}.

(** Between events the pending list is the list of marked circuits. *)
Definition pool_ok (s : pool) : Prop := inv [] s ∧ marks_ok (g_heap s) (g_pending s).

(** [s'] agrees with [s] on identity and connections; on the marks too; on the
    links of joined circuits too. *)
Record shape (s s' : pool) : Prop := {
  sh_heap : field_equiv core (g_heap s) (g_heap s');
  sh_conns cn : is_Some (g_conns s !! cn) ↔ is_Some (g_conns s' !! cn);
  sh_circuits : g_circuits s' = g_circuits s;
  sh_ht : g_ht s' = g_ht s;
}.

Record same (s s' : pool) : Prop := {
  sm_shape : shape s s';
  sm_marked : field_equiv c_marked (g_heap s) (g_heap s');
  sm_pending : g_pending s' = g_pending s;
}.

Record frame (s s' : pool) : Prop := {
  fr_same : same s s';
  fr_rp : field_equiv c_rp (g_heap s) (g_heap s');
}.

#[local] Instance shape_equivalence : Equivalence shape.
Proof.
  split.
  - intros s. by split.
  - intros s s' [???]. by split.
  - intros s s' s'' [H1 H2 H3 H4] [K1 K2 K3 K4].
    split; [by etrans|intros cn; by rewrite H2|congruence..].
Qed.

#[local] Instance same_equivalence : Equivalence same.
Proof.
  split.
  - intros s. by split.
  - intros s s' []. by split; symmetry.
  - intros s s' s'' [] []. split; [by etrans|by etrans|congruence].
Qed.

#[local] Instance frame_equivalence : Equivalence frame.
Proof.
  split.
  - intros s. by split.
  - intros s s' []. by split; symmetry.
  - intros s s' s'' [] []. by split; etrans.
Qed.

Lemma marked_equiv h1 h2 p : field_equiv c_marked h1 h2 → marked h1 p → marked h2 p.
Proof.
  intros H (c & E & Hm). destruct (field_equiv_lookup _ h1 h2 p c H E) as (c' & E' & Hc).
  exists c'. split; [done|congruence].
Qed.

#[local] Instance marked_proper : Proper (field_equiv c_marked ==> eq ==> iff) marked.
Proof. intros h1 h2 H p ? <-. split; apply marked_equiv; [done|by symmetry]. Qed.

#[local] Instance marks_ok_proper : Proper (field_equiv c_marked ==> eq ==> iff) marks_ok.
Proof. intros h1 h2 H w ? <-. unfold marks_ok. by setoid_rewrite H. Qed.

Lemma field_equiv_is_Some {B} (f : circuit → B) h1 h2 p :
  field_equiv f h1 h2 → is_Some (h1 !! p) ↔ is_Some (h2 !! p).
Proof. intros H. specialize (H p). destruct (h1 !! p), (h2 !! p); by try discriminate H. Qed.

#[local] Instance array_ok_proper : Proper (field_equiv core ==> eq ==> iff) array_ok.
Proof.
  intros h1 h2 H l ? <-. unfold array_ok. by setoid_rewrite (λ p, field_equiv_is_Some core h1 h2 p H).
Qed.

Lemma ht_entries_impl (P Q : ht_key → Z → Prop) t :
  ht_entries P t → (∀ k p, P k p → Q k p) → ht_entries Q t.
Proof. intros (m & Hm & HP) HQ. exists m. split; [done|]. intros k p E. by apply HQ, HP. Qed.

Lemma entry_ok_equiv h1 h2 k p : field_equiv core h1 h2 → entry_ok h1 k p → entry_ok h2 k p.
Proof.
  intros H (Hk & c & E & Hid & Hin). split; [done|].
  destruct (field_equiv_lookup core h1 h2 p c H E) as (c' & E' & Hc). exists c'.
  rewrite (core_keys _ _ Hc). injection Hc as ??????. split; [done|split; [congruence|done]].
Qed.

Lemma heap_ok_equiv D h1 h2 conns1 conns2 :
  field_equiv core h1 h2 → (∀ cn, is_Some (conns1 !! cn) ↔ is_Some (conns2 !! cn)) →
  heap_ok D h1 conns1 → heap_ok D h2 conns2.
Proof.
  intros H Hc [[Hn1 Hn2] Hd Hk]. assert (H' : field_equiv core h2 h1) by (by symmetry).
  split.
  - split.
    + specialize (H 0). rewrite Hn1 in H. by destruct (h2 !! 0).
    + apply eq_None_not_Some. rewrite <- Hc, Hn2. apply is_Some_None.
  - intros p c' E. destruct (field_equiv_lookup core h2 h1 p c' H' E) as (c & E1 & [= ??????]).
    rewrite <- (Hd p c E1). split; congruence.
  - intros p c' E Hid. destruct (field_equiv_lookup core h2 h1 p c' H' E) as (c & E1 & Hco).
    assert (Hid' : c_id c ≠ 0) by (injection Hco as ??????; congruence).
    intros cn Hin Hcn. apply Hc. eapply (core_conns_known conns1 c); [done|by apply (Hk p)|done..].
Qed.

Lemma rp_ok_equiv h1 h2 : field_equiv core h1 h2 → field_equiv c_rp h1 h2 → rp_ok h1 → rp_ok h2.
Proof.
  intros Hco H Hr p c' E Hrp. destruct (field_equiv_lookup core h2 h1 p c') as (c0 & E0 & [= ??????]);
    [by symmetry|done|]. destruct (field_equiv_lookup c_rp h2 h1 p c') as (c & E1 & Er); [by symmetry|done|].
  destruct (Hr p c E1) as (Hid & d & Ed & Hd'); [congruence|]. rewrite Er in Ed. split; [congruence|].
  destruct (field_equiv_lookup c_rp h1 h2 _ d H Ed) as (d' & Ed' & Er'). exists d'. split; congruence.
Qed.

Lemma inv_shape D s s' : shape s s' → inv D s → rp_ok (g_heap s') → inv D s'.
Proof.
  intros [Hh Hc Ha Ht] [I1 I2 I3 _] R. split; [by eapply heap_ok_equiv| | |done].
  - rewrite Ha. by rewrite <- Hh.
  - rewrite Ht. eapply ht_entries_impl; [done|]. intros k p. by apply entry_ok_equiv.
Qed.

Lemma inv_frame D s s' : frame s s' → inv D s → inv D s'.
Proof. intros [[S _ _] R] I. eapply inv_shape; [done..|]. eapply rp_ok_equiv; [apply S|done|apply I]. Qed.

Lemma marks_same s s' w : same s s' → marks_ok (g_heap s) w → marks_ok (g_heap s') w.
Proof. intros [_ Hm _]. by rewrite Hm. Qed.

Lemma pool_ok_frame s s' : frame s s' → pool_ok s → pool_ok s'.
Proof.
  intros F [I M]. split; [by eapply inv_frame|]. destruct F as [S _]. rewrite (sm_pending _ _ S).
  by eapply marks_same.
Qed.

Lemma shape_lookup s s' p c :
  shape s s' → g_heap s !! p = Some c → ∃ c', g_heap s' !! p = Some c' ∧ core c' = core c.
Proof. intros S. apply field_equiv_lookup, S. Qed.

Lemma frame_lookup s s' p c :
  frame s s' → g_heap s !! p = Some c →
  ∃ c', g_heap s' !! p = Some c' ∧ core c' = core c ∧ c_marked c' = c_marked c ∧ c_rp c' = c_rp c.
Proof.
  intros [[S M _] R] E. destruct (shape_lookup s s' p c S E) as (c' & E' & Hc). exists c'.
  destruct (field_equiv_lookup _ _ _ p c R E) as (c2 & E2 & Hr).
  destruct (field_equiv_lookup _ _ _ p c M E) as (c3 & E3 & Hm). split_and!; congruence.
Qed.

(** ** Operations that only satisfy [frame] *)

Lemma deref_eq p (s : pool) c : g_heap s !! p = Some c → deref p s = Ret c.
Proof. unfold deref. by intros ->. Qed.

Lemma write_eq p f (s : pool) c :
  g_heap s !! p = Some c → write p f s = Ret {| s with g_heap := <[p := f c]> (g_heap s) |}.
Proof. intros E. unfold write. by rewrite (deref_eq _ _ _ E). Qed.

Lemma fmap_insert_same {B} (f : circuit → B) (h : gmap Z circuit) p c c' :
  h !! p = Some c → f c' = f c → ∀ q, f <$> h !! q = f <$> <[p := c']> h !! q.
Proof.
  intros E Hc q. destruct (decide (p = q)) as [<-|Hne].
  - rewrite lookup_insert_eq, E. cbn. by rewrite Hc.
  - by rewrite lookup_insert_ne.
Qed.

(** A write that keeps identity and connections, and the links. *)
Lemma write_shape p f (s : pool) c :
  g_heap s !! p = Some c → core (f c) = core c → c_rp (f c) = c_rp c →
  ok (write p f s) (λ s', shape s s' ∧ field_equiv c_rp (g_heap s) (g_heap s') ∧
                          g_pending s' = g_pending s ∧ g_heap s' = <[p := f c]> (g_heap s)).
Proof.
  intros E Hc Hr. rewrite (write_eq _ _ _ _ E). apply ok_ret. split_and!; [|..|done|done].
  - split; [intros q; cbn; by apply (fmap_insert_same core _ _ c)|done..].
  - intros q. cbn. by apply (fmap_insert_same c_rp _ _ c).
Qed.

Lemma write_frame p f (s : pool) c :
  g_heap s !! p = Some c → core (f c) = core c → c_marked (f c) = c_marked c → c_rp (f c) = c_rp c →
  ok (write p f s) (λ s', frame s s' ∧ g_heap s' = <[p := f c]> (g_heap s)).
Proof.
  intros E Hc Hm Hr. eapply ok_weaken; [by apply write_shape|]. cbv beta. intros s' (S & R & P & Eh).
  split; [|done]. split; [split; [done| |done]|done]. rewrite Eh. intros q.
  by apply (fmap_insert_same c_marked _ _ c).
Qed.

Definition allocated (cn : Z) (s : pool) : Prop := is_Some (g_conns s !! cn).

Lemma conns_frame (s : pool) conns :
  (∀ cn, is_Some (g_conns s !! cn) ↔ is_Some (conns !! cn)) → frame s {| s with g_conns := conns |}.
Proof. intros H. split; [split; [by split|done..]|done]. Qed.

Lemma conns_update_frame (s : pool) cn k k' :
  g_conns s !! cn = Some k → frame s {| s with g_conns := <[cn := k']> (g_conns s) |}.
Proof.
  intros E. apply conns_frame. intros cn'. rewrite lookup_insert_is_Some'. split; [by right|].
  intros [<-|?]; [by rewrite E|done].
Qed.

Lemma ref_inc_frame cn (s : pool) :
  allocated cn s → ok (ref_inc cn s) (λ s', frame s s' ∧ g_heap s' = g_heap s).
Proof.
  intros [k E]. unfold ref_inc, conn_deref. rewrite E. apply ok_ret.
  split; [by apply (conns_update_frame s cn k)|done].
Qed.

Lemma ref_dec_frame cn (s : pool) :
  (cn ≠ 0 → allocated cn s) → ok (ref_dec cn s) (λ s', frame s s' ∧ g_heap s' = g_heap s).
Proof.
  intros Hcn. unfold ref_dec. destruct (Z.eqb_spec cn 0) as [|Hne]; [by apply ok_ret|].
  destruct (Hcn Hne) as [k E]. unfold conn_deref. rewrite E. apply ok_ret.
  case_match; [|done]. split; [by apply (conns_update_frame s cn k)|done].
Qed.

Lemma conn_is_open_ok cn (s : pool) :
  (cn ≠ 0 → allocated cn s) → ok (conn_is_open cn s) (λ b, b = true → cn ≠ 0 ∧ allocated cn s).
Proof.
  intros Hcn. unfold conn_is_open. destruct (Z.eqb_spec cn 0) as [|Hne]; [by apply ok_ret|].
  destruct (Hcn Hne) as [k E]. unfold conn_deref. rewrite E. apply ok_ret. eauto.
Qed.

Lemma send_frame cn cell (s : pool) :
  allocated cn s →
  ok (moor_connection_send_cell send_ok cn cell s) (λ r, frame s r.2 ∧ g_heap r.2 = g_heap s).
Proof.
  intros [k E]. unfold moor_connection_send_cell, conn_deref. rewrite E. apply ok_ret.
  by destruct (send_ok cn cell).
Qed.

Lemma frame_allocated s s' cn : frame s s' → allocated cn s → allocated cn s'.
Proof. intros F. apply F. Qed.

Lemma set_queue_core dir q c :
  core (set_queue dir q c) = core c ∧ c_marked (set_queue dir q c) = c_marked c ∧
  c_rp (set_queue dir q c) = c_rp c.
Proof. by destruct dir. Qed.

Lemma flush_loop_frame p dir cn q : ∀ s c,
  g_heap s !! p = Some c → allocated cn s →
  ok (flush_loop send_ok p dir cn q s) (λ r, frame s r.2).
Proof.
  induction q as [|cell q IH]; intros s c E Hcn; [by apply ok_ret|].
  cbn [flush_loop]. destruct (set_queue_core dir q c) as (Hc & Hm & Hr).
  ok_step write_frame; [done..|]. intros s1 [F1 E1].
  ok_step send_frame; [by eapply frame_allocated|]. intros [b s2] [F2 E2]. cbn in F2, E2.
  assert (F : frame s s2) by (by etrans). destruct b; [|by apply ok_ret].
  eapply ok_weaken; [eapply (IH s2 (set_queue dir q c))|].
  - rewrite E2, E1. apply lookup_insert_eq.
  - by eapply frame_allocated.
  - intros r F3. by etrans.
Qed.

(** A live circuit: allocated, and not cleaned up. *)
Definition live (s : pool) (p : Z) (c : circuit) : Prop := g_heap s !! p = Some c ∧ c_id c ≠ 0.

Lemma live_conn D s p c cn :
  inv D s → live s p c → cn ∈ [c_conn c; c_prev c; c_next c] → cn ≠ 0 → allocated cn s.
Proof. intros I [E Hid]. by apply (ho_conns _ _ _ (inv_heap _ _ I) p c). Qed.

Lemma frame_live s s' p c :
  frame s s' → live s p c →
  ∃ c', live s' p c' ∧ core c' = core c ∧ c_marked c' = c_marked c ∧ c_rp c' = c_rp c.
Proof.
  intros F [E Hid]. destruct (frame_lookup s s' p c F E) as (c' & E' & Hc & Hr).
  exists c'. split; [|done]. split; [done|]. injection Hc as ??????. congruence.
Qed.

Lemma flush_frame D p dir s c :
  inv D s → live s p c → ok (circ_queue_flush_direct send_ok p dir s) (λ r, frame s r.2).
Proof.
  intros I L. unfold circ_queue_flush_direct. rewrite (deref_eq _ _ _ (proj1 L)).
  cbn [mbind outcome_bind]. cbv zeta. eapply ok_bind.
  - apply conn_is_open_ok. apply (live_conn D s p c); [done..|].
    destruct dir; case_match; rewrite !elem_of_cons; tauto.
  - intros b Hb. destruct b; [|by apply ok_ret]. destruct (Hb eq_refl) as [_ Hcn].
    by apply (flush_loop_frame _ _ _ _ _ c); [apply L|].
Qed.

Lemma queue_cell_frame D p cell dir push s c :
  inv D s → live s p c → ok (moor_circuit_queue_cell send_ok p cell dir push s) (λ r, frame s r.2).
Proof.
  intros I L. unfold moor_circuit_queue_cell. case_match; [by apply ok_ret|].
  rewrite (deref_eq _ _ _ (proj1 L)). cbn [mbind outcome_bind].
  case_match; [by apply ok_ret|]. case_match; [by apply ok_ret|].
  destruct (set_queue_core dir (queue_of dir c ++ [cell]) c) as (Hc & Hm & Hr).
  ok_step write_frame; [apply L|done..|]. intros s1 [F _]. case_match; [by apply ok_ret|].
  destruct (frame_live s s1 p c F L) as (c1 & L1 & _).
  eapply ok_weaken; [eapply (flush_frame D); [by eapply inv_frame|done]|].
  intros r F'. by etrans.
Qed.

Lemma send_destroy_frame cn cid reason s :
  (cn ≠ 0 → allocated cn s) → ok (send_destroy send_ok cn cid reason s) (frame s).
Proof.
  intros Hcn. unfold send_destroy. ok_step conn_is_open_ok; [done|]. intros b Hb.
  destruct b; [|by apply ok_ret]. destruct (Hb eq_refl) as [_ Ha].
  ok_step send_frame; [done|]. intros [b s1] [F _]. by apply ok_ret.
Qed.

Lemma cookies_frame p s : frame s (moor_relay_invalidate_rp_cookies p s).
Proof. by split. Qed.

(** ** The table *)

Lemma key_valid_iff k : negb (k.1 =? 0) && negb (k.2 =? 0) = true ↔ k.1 ≠ 0 ∧ k.2 ≠ 0.
Proof. rewrite andb_true_iff, !negb_true_iff, !Z.eqb_neq. done. Qed.

Lemma ht_remove_ok P k (s : pool) :
  ht_entries P (g_ht s) → (∀ k p, P k p → k.1 ≠ 0 ∧ k.2 ≠ 0) →
  ok (ht_remove k s) (λ s', ∃ t, s' = {| s with g_ht := t |} ∧
                              ht_entries (λ k' p, P k' p ∧ k' ≠ k) t).
Proof.
  intros (m & Hm & HP) Hv. unfold ht_remove. destruct (ct_remove_rep _ m k Hm) as (t & -> & Ht).
  apply ok_ret. exists t. split; [done|]. eexists. split; [done|]. cbn [map_op].
  intros k' p Ek. destruct (negb (k.1 =? 0) && negb (k.2 =? 0)) eqn:Ev.
  - apply lookup_delete_Some in Ek as [Hne Ek]. split; [by apply HP|congruence].
  - split; [by apply HP|]. intros ->. apply HP, Hv, key_valid_iff in Ek. congruence.
Qed.

Lemma ht_remove_all P ks : ∀ s,
  ht_entries P (g_ht s) → (∀ k p, P k p → k.1 ≠ 0 ∧ k.2 ≠ 0) →
  ok (foldM (λ (s : pool) k, ht_remove k s) ks s)
     (λ s', ∃ t, s' = {| s with g_ht := t |} ∧ ht_entries (λ k p, P k p ∧ k ∉ ks) t).
Proof.
  revert P. induction ks as [|k ks IH]; intros P s Hs Hv.
  - apply ok_ret. exists (g_ht s). split; [by destruct s|]. eapply ht_entries_impl; [done|].
    intros k p Hk. split; [done|apply not_elem_of_nil].
  - cbn [foldM]. ok_step ht_remove_ok; [done..|]. intros ? (t & -> & Ht).
    eapply ok_weaken; [apply (IH (λ k' p, P k' p ∧ k' ≠ k)); [done|]|].
    + intros k' p [HP _]. by eapply Hv.
    + intros ? (t' & -> & Ht'). exists t'. split; [done|]. eapply ht_entries_impl; [done|].
      intros k' p [[HP Hne] Hnin]. split; [done|]. by rewrite not_elem_of_cons.
Qed.

Lemma entry_key h k p : entry_ok h k p → k.1 ≠ 0 ∧ k.2 ≠ 0.
Proof.
  intros (Hk & c & _ & _ & Hin). split; [|done]. unfold circ_keys in Hin.
  by apply list_elem_of_filter in Hin as [? _].
Qed.

Lemma circ_keys_length c : (length (circ_keys c) <= 3)%nat.
Proof. unfold circ_keys. etrans; [apply length_filter|done]. Qed.

Lemma size_keys (l : list ht_key) : (base.size (list_to_set l : gset ht_key) <= length l)%nat.
Proof.
  induction l as [|k l IH]; [done|]. cbn [list_to_set length]. rewrite size_union_alt, size_singleton.
  assert (base.size ((list_to_set l : gset ht_key) ∖ {[k]}) <= base.size (list_to_set l : gset ht_key))%nat
    by apply subseteq_size, subseteq_difference_l, reflexivity. lia.
Qed.

(** Three keys per circuit: the table has room. *)
Lemma table_room (h : gmap Z circuit) (l : list Z) (m : gmap ht_key circ_ptr) :
  array_ok h l → (∀ k p, m !! k = Some p → entry_ok h k p) → Z.of_nat (base.size m) < 4095.
Proof.
  intros (_ & Hl & Hn) Hm.
  set (keys := l ≫= λ p, from_option circ_keys [] (h !! p)).
  assert (Hk : (length keys <= 3 * length l)%nat).
  { subst keys. clear. induction l as [|p l IH]; [done|]. rewrite bind_cons, length_app. cbn [length].
    assert (length (from_option circ_keys [] (h !! p)) <= 3)%nat.
    { destruct (h !! p); [apply circ_keys_length|cbn; lia]. } lia. }
  assert (Hd : (base.size m <= length keys)%nat).
  { rewrite <- (size_dom (D := gset ht_key)).
    etrans; [apply (subseteq_size (C := gset ht_key) _ (list_to_set keys))|].
    - intros k Hk'. apply elem_of_dom in Hk' as [p E]. apply elem_of_list_to_set, list_elem_of_bind.
      destruct (Hm k p E) as (_ & c & Ec & _ & Hin). exists p. rewrite Ec. split; [done|]. apply Hl. eauto.
    - apply size_keys. }
  unfold MAX_TRACKED in Hn. lia.
Qed.

Lemma ht_insert_ok h l p k t :
  array_ok h l → ht_entries (entry_ok h) t → (k.2 ≠ 0 → entry_ok h k p) →
  ht_entries (entry_ok h) (ct_insert k p t).
Proof.
  intros Ha (m & Hm & HP) Hk. eexists. split; [apply ct_insert_rep; [done|by eapply table_room]|].
  cbn [map_op]. intros k' p' E. destruct (negb (k.1 =? 0) && negb (k.2 =? 0)) eqn:Ev; [|by apply HP].
  destruct (m !! k) eqn:Em; [by apply HP|].
  apply lookup_insert_Some in E as [[<- <-]|[_ E]]; [|by apply HP].
  apply key_valid_iff in Ev. apply Hk, Ev.
Qed.

(** ** Marking *)

Lemma unlink_ok p c (s : pool) :
  rp_ok (g_heap s) → g_heap s !! p = Some c → c_rp c ≠ 0 →
  ok (unlink p (c_rp c) s) (λ s', same s s' ∧ rp_ok (g_heap s') ∧
    ∃ c' d', g_heap s' !! p = Some c' ∧ c_rp c' = 0 ∧ g_heap s' !! c_rp c = Some d' ∧ c_rp d' = 0).
Proof.
  intros R E Hrp. destruct (R p c E Hrp) as (_ & d & Ed & Hd). unfold unlink.
  rewrite (write_eq _ _ _ _ Ed). cbn [mbind outcome_bind].
  set (h1 := <[c_rp c := {| d with c_rp := 0 |}]> (g_heap s)).
  assert (H1 : ∀ B (f : circuit → B), (∀ c, f {| c with c_rp := 0 |} = f c) → field_equiv f (g_heap s) h1).
  { intros B f Hf q. apply (fmap_insert_same f _ _ d); auto. }
  assert (E1 : ∃ c1, h1 !! p = Some c1).
  { destruct (field_equiv_lookup core _ h1 p c (H1 _ core (λ c, eq_refl)) E) as (c1 & ? & _). eauto. }
  destruct E1 as [c1 E1]. rewrite (write_eq p _ {| s with g_heap := h1 |} c1 E1). apply ok_ret. cbn [g_heap].
  assert (H2 : ∀ B (f : circuit → B), (∀ c, f {| c with c_rp := 0 |} = f c) →
    field_equiv f (g_heap s) (<[p := {| c1 with c_rp := 0 |}]> h1)).
  { intros B f Hf. etrans; [by apply (H1 B f)|]. intros q. apply (fmap_insert_same f _ _ c1); auto. }
  split_and!.
  - split; [split; [by apply H2|done..]|by apply H2|done].
  - intros r e Er Hre. apply lookup_insert_Some in Er as [[<- <-]|[Hrp' Er]]; [done|].
    apply lookup_insert_Some in Er as [[<- <-]|[Hrq Er]]; [done|].
    destruct (R r e Er Hre) as (Hid & e' & Ee & Hee). split; [done|]. exists e'. split; [|done].
    rewrite lookup_insert_ne by congruence. unfold h1. rewrite lookup_insert_ne; congruence.
  - exists {| c1 with c_rp := 0 |}. destruct (decide (p = c_rp c)) as [Hpq|Hne].
    + exists {| c1 with c_rp := 0 |}. rewrite <- Hpq, lookup_insert_eq. done.
    + exists {| d with c_rp := 0 |}. rewrite lookup_insert_eq, lookup_insert_ne by done.
      unfold h1. by rewrite lookup_insert_eq.
Qed.

(** What marking does: the invariant and the marks, with [w] circuits marked but not
    yet on the pending list. *)
Definition marked_more (D : list Z) (s s' : pool) : Prop :=
  inv D s' ∧ shape s s' ∧
  ∀ w, marks_ok (g_heap s) (w ++ g_pending s) → marks_ok (g_heap s') (w ++ g_pending s').

Lemma marked_more_refl D s : inv D s → marked_more D s s.
Proof. intros I. by split_and!. Qed.

Lemma marked_more_trans D s s' s'' :
  marked_more D s s' → marked_more D s' s'' → marked_more D s s''.
Proof.
  intros (I & C & M) (I' & C' & M'). split_and!; [done|by etrans|]. intros w Hw. by apply M', M.
Qed.

Lemma marks_add h p c m w l :
  h !! p = Some c → c_marked c = 0 → c_marked m ≠ 0 →
  marks_ok h (w ++ l) → marks_ok (<[p := m]> h) ((p :: w) ++ l).
Proof.
  intros E Hc Hm [Hn H]. split.
  - apply NoDup_cons. split; [|done]. rewrite H. intros (c' & E' & Hc'). congruence.
  - intros q. cbn [app]. rewrite elem_of_cons, H. unfold marked. split.
    + intros [->|(c' & E' & Hc')]; [exists m; by rewrite lookup_insert_eq|].
      exists c'. rewrite lookup_insert_ne; [done|congruence].
    + intros (c' & E' & Hc'). apply lookup_insert_Some in E' as [[<- _]|[_ E']]; [by left|right; eauto].
Qed.

Lemma line_marks line : line < 2 ^ 16 → u16 (if 0 <? line then line else 1) ≠ 0.
Proof.
  intros Hl. unfold u16. destruct (Z.ltb_spec 0 line); [rewrite Z.mod_small by lia; lia|done].
Qed.

(** The mark itself. *)
Lemma set_mark_ok D p c reason line (s : pool) :
  inv D s → g_heap s !! p = Some c → c_marked c = 0 → line < 2 ^ 16 →
  ok (write p (λ c, {| {| c with c_marked := u16 (if 0 <? line then line else 1) |}
                        with c_reason := u8 reason |}) s)
     (λ s', inv D s' ∧ shape s s' ∧ g_pending s' = g_pending s ∧
        (∃ c', g_heap s' !! p = Some c' ∧ c_rp c' = c_rp c ∧ c_id c' = c_id c) ∧
        ∀ w, marks_ok (g_heap s) (w ++ g_pending s) → marks_ok (g_heap s') ((p :: w) ++ g_pending s)).
Proof.
  intros I E Hm Hl. eapply ok_weaken; [by apply (write_shape _ _ _ c)|]. cbv beta.
  intros s' (S & R & P & Eh). split_and!; [|done|done| |].
  - eapply inv_shape; [done..|]. eapply rp_ok_equiv; [apply S|done|apply I].
  - eexists. rewrite Eh, lookup_insert_eq. done.
  - intros w Hw. rewrite Eh. apply (marks_add _ _ c); [done..|by apply line_marks|done].
Qed.

(** Adding the circuit that was marked to the pending list. *)
Lemma marked_more_add D s s' p :
  inv D s' → shape s s' →
  (∀ w, marks_ok (g_heap s) (w ++ g_pending s) → marks_ok (g_heap s') ((p :: w) ++ g_pending s')) →
  marked_more D s (pending_close_add p s').
Proof.
  intros I S M. split_and!; [by destruct I|by destruct S|]. intros w Hw.
  destruct (M w Hw) as [Hn H]. cbn [g_heap g_pending pending_close_add].
  assert (Hp : (p :: w) ++ g_pending s' ≡ₚ w ++ g_pending s' ++ [p]).
  { cbn [app]. rewrite app_assoc. apply Permutation_cons_append. }
  split; [by rewrite <- Hp|]. intros q. by rewrite <- Hp.
Qed.

Lemma mark_single D n p c reason line (s : pool) :
  inv D s → g_heap s !! p = Some c → c_rp c = 0 → line < 2 ^ 16 →
  ok (mark_for_close (S n) p reason line s) (marked_more D s).
Proof.
  intros I E Hrp Hl. pose proof (marked_more_refl D s I) as Hrefl. cbn [mark_for_close].
  case_match; [by apply ok_ret|]. rewrite (deref_eq _ _ _ E). cbn [mbind outcome_bind].
  case_match; [by apply ok_ret|]. destruct (Z.eqb_spec (c_marked c) 0) as [Hm|]; [|by apply ok_ret].
  cbn [negb]. ok_step (set_mark_ok D p c); [done..|]. intros s1 (I1 & S1 & P1 & _ & M1).
  rewrite Hrp. cbn [Z.eqb mbind outcome_bind]. apply ok_ret, marked_more_add; [done..|].
  intros w Hw. rewrite P1. by apply M1.
Qed.

Lemma mark_ok D n p reason line (s : pool) :
  inv D s → p = 0 ∨ is_Some (g_heap s !! p) → line < 2 ^ 16 →
  ok (mark_for_close (S (S n)) p reason line s) (marked_more D s).
Proof.
  intros I Hp Hl. pose proof (marked_more_refl D s I) as Hrefl. remember (S n) as n' eqn:En.
  cbn [mark_for_close]. destruct (Z.eqb_spec p 0) as [|Hp0]; [by apply ok_ret|].
  destruct Hp as [?|[c E]]; [done|]. rewrite (deref_eq _ _ _ E). cbn [mbind outcome_bind].
  case_match; [by apply ok_ret|]. destruct (Z.eqb_spec (c_marked c) 0) as [Hm|]; [|by apply ok_ret].
  cbn [negb]. ok_step (set_mark_ok D p c); [done..|]. intros s1 (I1 & S1 & P1 & (c1 & E1 & Hr & _) & M1).
  destruct (Z.eqb_spec (c_rp c) 0) as [|Hrp].
  { cbn [mbind outcome_bind]. apply ok_ret, marked_more_add; [done..|]. intros w Hw. rewrite P1. by apply M1. }
  rewrite <- Hr in Hrp |- *. eapply (ok_bind _ _ (λ s3, inv D s3 ∧ shape s1 s3 ∧
    ∀ w, marks_ok (g_heap s1) (w ++ g_pending s1) → marks_ok (g_heap s3) (w ++ g_pending s3))).
  - cbv zeta. ok_step unlink_ok; [apply I1|done..|].
    intros s2 (S2 & R2 & c2 & d2 & _ & _ & Ed & Hd). rewrite (deref_eq _ _ _ Ed). cbn [mbind outcome_bind].
    assert (I2 : inv D s2) by (eapply inv_shape; [apply S2|done..]).
    assert (M2 : ∀ w, marks_ok (g_heap s1) (w ++ g_pending s1) → marks_ok (g_heap s2) (w ++ g_pending s2)).
    { intros w. rewrite (sm_pending _ _ S2). by apply marks_same. }
    case_match; [|apply ok_ret; split_and!; [done|apply S2|done]].
    rewrite En. eapply ok_weaken; [by apply (mark_single D n _ d2)|].
    intros s3 (I3 & S3 & M3). split_and!; [done|etrans; [apply S2|done]|]. intros w Hw. by apply M3, M2.
  - intros s3 (I3 & S3 & M3). apply ok_ret, marked_more_add; [done|by etrans|].
    intros w Hw. apply M3. rewrite P1. by apply M1.
Qed.

(** ** Cleaning up and releasing *)

(** [p] is dead in [s'], everything else is as in [s], links apart. *)
Record closed (p : Z) (s s' : pool) : Prop := {
  cl_circuits : g_circuits s' = g_circuits s;
  cl_pending : g_pending s' = g_pending s;
  cl_conns cn : is_Some (g_conns s !! cn) ↔ is_Some (g_conns s' !! cn);
  cl_dead : ∃ c, g_heap s' !! p = Some c ∧ c_id c = 0 ∧ c_marked c = 0;
  cl_others q : q ≠ p → (λ c, (core c, c_marked c)) <$> g_heap s !! q =
                        (λ c, (core c, c_marked c)) <$> g_heap s' !! q;
}.

Lemma unregister_ok D p c (s : pool) :
  inv D s → live s p c →
  ok (circ_unregister_unlocked p s) (λ s', ∃ t, s' = {| s with g_ht := t |} ∧
    ht_entries (λ k q, entry_ok (g_heap s) k q ∧ q ≠ p) t).
Proof.
  intros I [E Hid]. unfold circ_unregister_unlocked. rewrite (deref_eq _ _ _ E).
  cbn [mbind outcome_bind]. rewrite (proj2 (Z.eqb_neq _ _) Hid).
  eapply ok_weaken; [apply ht_remove_all; [apply I|apply entry_key]|].
  intros s' (t & -> & Ht). exists t. split; [done|]. eapply ht_entries_impl; [done|].
  intros k q [Hq Hk]. split; [done|]. intros ->. destruct Hq as (_ & c' & E' & _ & Hin).
  rewrite E in E'. injection E' as <-. done.
Qed.

(** The last write of the clean-up: the circuit is dead. *)
Lemma bury_ok D p c (s : pool) :
  inv D s → live s p c → c_rp c = 0 → ht_entries (λ k q, entry_ok (g_heap s) k q ∧ q ≠ p) (g_ht s) →
  ok (write p (λ c, {| {| c with c_id := 0 |} with c_marked := 0 |}) s)
     (λ s', inv (p :: D) s' ∧ closed p s s').
Proof.
  intros I [E Hid] Hrp Ht. rewrite (write_eq _ _ _ _ E). apply ok_ret.
  destruct I as [[[Hn1 Hn2] Hd Hk] (A1 & A2 & A3) _ R].
  assert (Hp0 : p ≠ 0) by congruence. split; [split|split; cbn [g_heap g_conns g_circuits g_pending g_ht]].
  - split; cbn [g_heap g_conns]; [split; [by rewrite lookup_insert_ne|done]|..].
    + intros q c' E'. rewrite elem_of_cons.
      apply lookup_insert_Some in E' as [[<- <-]|[Hne E']]; [by split; [left|]|].
      rewrite (Hd q c' E'). split; [by right|by intros [->|]].
    + intros q c' E' Hid'. apply lookup_insert_Some in E' as [[<- <-]|[_ E']]; [done|by apply (Hk q)].
  - split_and!; [done| |done]. intros q. cbn [g_heap g_circuits]. rewrite lookup_insert_is_Some', A2.
    split; [by right|]. intros [<-|?]; [by rewrite E|done].
  - eapply ht_entries_impl; [done|]. intros k q [(Hk2 & c' & E' & Hid' & Hin) Hne]. split; [done|].
    exists c'. cbn [g_heap]. by rewrite lookup_insert_ne.
  - intros q c' E' Hrp'. cbn [g_heap] in E' |- *.
    apply lookup_insert_Some in E' as [[<- <-]|[Hne E']]; [done|].
    destruct (R q c' E' Hrp') as (Hid' & d & Ed & Hdq). split; [done|]. exists d. split; [|done].
    rewrite lookup_insert_ne; [done|]. intros Hpq. rewrite <- Hpq, E in Ed. congruence.
  - done.
  - done.
  - done.
  - eexists. rewrite lookup_insert_eq. done.
  - intros q Hq. by rewrite lookup_insert_ne.
Qed.

Lemma field_equiv_pair {B C} (f : circuit → B) (g : circuit → C) h1 h2 :
  field_equiv f h1 h2 → field_equiv g h1 h2 → field_equiv (λ c, (f c, g c)) h1 h2.
Proof.
  intros Hf Hg p. specialize (Hf p). specialize (Hg p).
  destruct (h1 !! p), (h2 !! p); cbn in *; congruence.
Qed.

Lemma same_closed p s s1 s2 : same s s1 → closed p s1 s2 → closed p s s2.
Proof.
  intros [[H1 H2 H3 H4] M P] [C1 C2 C3 C4 C5]. split; [congruence|congruence| |done|].
  - intros cn. by rewrite H2.
  - intros q Hq. rewrite <- C5 by done. by apply (field_equiv_pair core c_marked).
Qed.

Lemma ht_set_inv D (s : pool) t :
  inv D s → ht_entries (entry_ok (g_heap s)) t → inv D {| s with g_ht := t |}.
Proof. intros [] ?. by split. Qed.

Lemma no_entry_shape p s s' :
  shape s s' → ht_entries (λ k q, entry_ok (g_heap s) k q ∧ q ≠ p) (g_ht s) →
  ht_entries (λ k q, entry_ok (g_heap s') k q ∧ q ≠ p) (g_ht s').
Proof.
  intros S H. rewrite (sh_ht _ _ S). eapply ht_entries_impl; [done|]. intros k q [Hk Hq].
  split; [|done]. eapply entry_ok_equiv; [apply S|done].
Qed.

(** Dropping the references of a circuit. *)
Lemma drop_refs_ok D p c (s : pool) :
  inv D s → live s p c →
  ok (drop_refs c s) (λ s', frame s s' ∧ g_heap s' = g_heap s).
Proof.
  intros I L. unfold drop_refs. assert (Hc : ∀ cn, cn ∈ [c_conn c; c_prev c; c_next c] → cn ≠ 0 → allocated cn s)
    by (intros cn; by apply (live_conn D s p c)).
  ok_step ref_dec_frame; [apply Hc; by left|]. intros s1 [F1 E1].
  ok_step ref_dec_frame; [intros ?; eapply frame_allocated; [done|apply Hc; [by right; left|done]]|].
  intros s2 [F2 E2].
  eapply ok_weaken; [apply ref_dec_frame|].
  - intros ?. eapply frame_allocated; [done|]. eapply frame_allocated; [done|].
    apply Hc; [by right; right; left|done].
  - intros s3 [F3 E3]. split; [etrans; [done|by etrans]|congruence].
Qed.

Lemma live_shape s s' p c : shape s s' → live s p c → ∃ c', live s' p c' ∧ core c' = core c.
Proof.
  intros S [E Hid]. destruct (shape_lookup s s' p c S E) as (c' & E' & Hc). exists c'.
  split; [|done]. split; [done|]. injection Hc as ??????. congruence.
Qed.

(** Unlinking, if there is a partner. *)
Lemma unlink_any_ok D p c (s : pool) :
  inv D s → live s p c →
  ok (if c_rp c =? 0 then Ret s else unlink p (c_rp c) s)
     (λ s', same s s' ∧ inv D s' ∧ ∃ c', live s' p c' ∧ c_rp c' = 0).
Proof.
  intros I L. destruct (Z.eqb_spec (c_rp c) 0) as [|Hrp].
  - apply ok_ret. split_and!; [done..|eauto].
  - eapply ok_weaken; [apply unlink_ok; [apply I|apply L|done]|].
    intros s' (S & R & c' & d' & E & Hr & _). split_and!; [done|by eapply inv_shape; [apply S|..]|].
    destruct (live_shape s s' p c (sm_shape _ _ S) L) as (c2 & [E2 Hid] & _).
    exists c'. split; [|done]. split; [done|congruence].
Qed.

Lemma cleanup_ok D p c (s : pool) :
  inv D s → live s p c →
  ok (circ_cleanup_unlocked p s) (λ s', inv (p :: D) s' ∧ closed p s s').
Proof.
  intros I L. unfold circ_cleanup_unlocked. ok_step (unregister_ok D); [done..|]. intros ? (t & -> & Ht).
  set (s1 := {| s with g_ht := t |}).
  assert (I1 : inv D s1).
  { apply ht_set_inv; [done|]. eapply ht_entries_impl; [done|]. by intros ?? [? _]. }
  ok_step write_frame; [apply L|done..|]. intros s2 [F2 E2].
  set (c2 := {| {| c with c_queue_n := [] |} with c_queue_p := [] |}) in E2.
  assert (L2 : live s2 p c2) by (split; [rewrite E2; apply lookup_insert_eq|apply L]).
  rewrite (deref_eq _ _ _ (proj1 L2)). cbn [mbind outcome_bind].
  assert (I2 : inv D s2) by (by eapply (inv_frame _ s1)).
  ok_step drop_refs_ok; [done..|]. intros s3 [F3 E3].
  assert (I3 : inv D s3) by (by eapply inv_frame).
  ok_step (unlink_any_ok D p c2 s3); [done|split; [rewrite E3|]; apply L2|].
  intros s4 (S4 & I4 & c4 & L4 & Hr4). set (s5 := moor_relay_invalidate_rp_cookies p s4).
  assert (S5 : same s4 s5) by apply (cookies_frame p s4).
  assert (S : same s1 s5) by (etrans; [apply F2|]; etrans; [apply F3|]; by etrans).
  eapply ok_weaken; [eapply (bury_ok D p c4 s5)|].
  - eapply inv_frame; [apply cookies_frame|done].
  - done.
  - done.
  - eapply no_entry_shape; [apply S|done].
  - intros s6 [I6 C6]. split; [done|]. apply (same_closed p s1) in C6 as [?????]; [by split|done].
Qed.

Lemma array_remove_perm p l : p ∈ l → l ≡ₚ p :: array_remove p l.
Proof.
  intros Hp. unfold array_remove. destruct (find_index (Z.eqb p) l) as [i|] eqn:Ei.
  2:{ apply find_index_None in Ei. rewrite Forall_forall in Ei. apply Ei in Hp. by rewrite Z.eqb_refl in Hp. }
  apply find_index_Some in Ei as (x & Ei & Hx & _). apply Z.eqb_eq in Hx as <-.
  apply list_elem_of_split_length in Ei as (a & b & -> & ->).
  assert (Hins : ∀ q, <[length a := q]> (a ++ p :: b) = a ++ q :: b).
  { intros q. rewrite insert_app_r_alt, Nat.sub_diag by done. done. }
  destruct b as [|z b _] using rev_ind.
  - rewrite last_snoc, Hins, length_app. cbn [length]. rewrite take_app_length' by lia.
    by rewrite <- Permutation_cons_append.
  - rewrite app_comm_cons, app_assoc, last_snoc, <- app_assoc, <- app_comm_cons, Hins, length_app. cbn [length].
    replace (a ++ z :: b ++ [z]) with ((a ++ z :: b) ++ [z]) by (by rewrite <- app_assoc).
    rewrite take_app_length' by (rewrite !length_app; cbn; lia).
    rewrite <- (Permutation_middle a (b ++ [z]) p). f_equiv. rewrite app_assoc.
    rewrite <- (Permutation_middle a b z). symmetry. apply Permutation_cons_append.
Qed.

Lemma release_ok D p c (s : pool) :
  inv D s → g_heap s !! p = Some c → c_id c = 0 →
  ok (circ_release_unlocked p s) (λ s', inv D s' ∧ g_heap s' = delete p (g_heap s) ∧
    g_pending s' = g_pending s ∧ g_conns s' = g_conns s).
Proof.
  intros [[[Hn1 Hn2] Hd Hk] (A1 & A2 & A3) Ht R] E Hid. unfold circ_release_unlocked.
  rewrite (deref_eq _ (circ_array_remove p s) _ E). apply ok_ret. split_and!; [|done..].
  assert (Hperm : g_circuits s ≡ₚ p :: array_remove p (g_circuits s)).
  { apply array_remove_perm, A2. eauto. }
  assert (Hnd : NoDup (p :: array_remove p (g_circuits s))) by (by rewrite <- Hperm).
  apply NoDup_cons in Hnd as [Hp Hnd]. split; cbn [g_heap g_conns g_circuits g_ht circ_array_remove];
    [|set (l' := array_remove p (g_circuits s)) in *; clearbody l'|..].
  - split.
    + split; [|done]. by apply lookup_delete_None; right.
    + intros q c' [_ E']%lookup_delete_Some. by apply Hd.
    + intros q c' [_ E']%lookup_delete_Some. by apply (Hk q).
  - split_and!; [done| |].
    + intros q. rewrite lookup_delete_is_Some, <- A2, Hperm, elem_of_cons. split.
      * intros Hq. split; [|by right]. congruence.
      * intros [? [->|?]]; done.
    + rewrite Hperm in A3. cbn [length] in A3. lia.
  - eapply ht_entries_impl; [done|]. intros k q (Hk2 & c' & E' & Hid' & Hin). split; [done|].
    exists c'. split; [|done]. apply lookup_delete_Some. split; [congruence|done].
  - intros q c' [Hne E']%lookup_delete_Some Hrp. destruct (R q c' E' Hrp) as (Hid' & d & Ed & Hdq).
    split; [done|]. exists d. split; [|done]. apply lookup_delete_Some. split; [|done]. intros Hpq.
    rewrite <- Hpq, E in Ed. injection Ed as <-. destruct (R p c E) as [? _]; [|done].
    rewrite Hdq. intros ->. congruence.
Qed.

Lemma closed_marked p s s' q :
  closed p s s' → marked (g_heap s') q ↔ marked (g_heap s) q ∧ q ≠ p.
Proof.
  intros [_ _ _ (c & E & _ & Hm) H]. destruct (decide (q = p)) as [->|Hq].
  - split; [|tauto]. intros (c' & E' & Hm'). congruence.
  - specialize (H q Hq). unfold marked.
    destruct (g_heap s !! q) as [c1|], (g_heap s' !! q) as [c2|]; try discriminate H.
    + injection H as ???????. split.
      * intros (? & [= <-] & ?). split; [|done]. exists c1. split; [done|congruence].
      * intros [(? & [= <-] & ?) _]. exists c2. split; [done|congruence].
    + split; [by intros (? & ? & _)|by intros [(? & ? & _) _]].
Qed.

(** Once the dead circuits are released nothing is left of them. *)
Lemma inv_released D (s : pool) : inv D s → (∀ p, p ∈ D → g_heap s !! p = None) → inv [] s.
Proof.
  intros [[Hn Hd Hk] A Ht R] HD. split; [|done..]. split; [done| |done].
  intros p c E. rewrite (Hd p c E). split; [|by intros ?%not_elem_of_nil].
  intros Hp. rewrite (HD p Hp) in E. done.
Qed.

Lemma free_ok p (s : pool) :
  pool_ok s → p = 0 ∨ is_Some (g_heap s !! p) → ok (moor_circuit_free p s) pool_ok.
Proof.
  intros [I [Hn M]] Hp. unfold moor_circuit_free. destruct (Z.eqb_spec p 0); [by apply ok_ret|].
  destruct Hp as [?|[c E]]; [done|]. rewrite (deref_eq _ _ _ E). cbn [mbind outcome_bind].
  destruct (Z.eqb_spec (c_marked c) 0) as [Hm|]; [|by apply ok_ret]. cbn [negb].
  assert (L : live s p c).
  { split; [done|]. intros Hid. apply (ho_dead _ _ _ (inv_heap _ _ I) p c E) in Hid.
    by apply not_elem_of_nil in Hid. }
  ok_step cleanup_ok; [done..|]. intros s1 [I1 C]. destruct (cl_dead _ _ _ C) as (c1 & E1 & Hid1 & _).
  eapply ok_weaken; [by apply (release_ok [p] p c1)|]. intros s2 (I2 & Eh & Ep & _). split.
  - eapply inv_released; [done|]. intros q ->%list_elem_of_singleton. rewrite Eh. apply lookup_delete_eq.
  - rewrite Ep, (cl_pending _ _ _ C). split; [done|]. intros q. rewrite M, Eh. unfold marked.
    setoid_rewrite lookup_delete_Some. split.
    + intros Hq. assert (Hqp : q ≠ p) by (intros ->; destruct Hq as (? & ? & ?); congruence).
      destruct (proj2 (closed_marked p s s1 q C) (conj Hq Hqp)) as (c' & ? & ?).
      exists c'. split_and!; [congruence|done..].
    + intros (c' & [Hqp E'] & Hm'). apply (closed_marked p s s1 q C). by exists c'.
Qed.

(** ** Closing the marked circuits *)

(** Circuits outside [D] are as they were in [s0], links apart. *)
Definition kept (D : list Z) (s0 s : pool) : Prop :=
  ∀ q, q ∉ D → (λ c, (core c, c_marked c)) <$> g_heap s0 !! q = (λ c, (core c, c_marked c)) <$> g_heap s !! q.

(** The first loop of [moor_circuit_close_all_marked], with the circuits [l] still
    to be closed. *)
Definition closing (batch : list Z) (s0 : pool) (l : list Z) (s : pool) : Prop :=
  ∃ D, inv D s ∧ g_pending s = [] ∧ marks_ok (g_heap s) l ∧ kept D s0 s ∧
    (∀ q, q ∈ batch ↔ q ∈ D ∨ q ∈ l) ∧ (∀ q, q ∈ D → (q ∉ l) ∧ is_Some (g_heap s !! q)).

Lemma announce_close_frame D p c (s : pool) :
  inv D s → live s p c → ok (announce_close send_ok p c s) (frame s).
Proof.
  intros I L. assert (Hc : ∀ cn s', frame s s' → cn ∈ [c_conn c; c_prev c; c_next c] → cn ≠ 0 → allocated cn s').
  { intros cn s' F Hin Hcn. eapply frame_allocated; [done|]. by apply (live_conn D s p c). }
  unfold announce_close. ok_step flush_frame; [done..|]. intros [r1 s1] F1. cbn in F1. cbv beta iota.
  destruct (frame_live s s1 p c F1 L) as (c1 & L1 & _).
  ok_step flush_frame; [by eapply inv_frame|done|]. intros [r2 s2] F2. cbn in F2. cbv beta iota.
  assert (F : frame s s2) by (by etrans).
  ok_step send_destroy_frame; [apply Hc; [done|by right; left]|].
  intros s3 F3. assert (F' : frame s s3) by (by etrans).
  ok_step send_destroy_frame; [apply Hc; [done|by right; right; left]|].
  intros s4 F4. assert (F'' : frame s s4) by (by etrans).
  eapply ok_weaken; [apply send_destroy_frame, Hc; [done|by left]|]. intros s5 F5. by etrans.
Qed.

Lemma closing_step batch s0 p l s s' :
  (∃ D, inv D s ∧ g_pending s = [] ∧ marks_ok (g_heap s) (p :: l) ∧ kept D s0 s ∧
    (∀ q, q ∈ batch ↔ q ∈ D ∨ q ∈ p :: l) ∧ (∀ q, q ∈ D → (q ∉ p :: l) ∧ is_Some (g_heap s !! q)) ∧
    inv (p :: D) s') →
  closed p s s' → closing batch s0 l s'.
Proof.
  intros (D & I & P & [Hn M] & K & HB & HD & I') C. apply NoDup_cons in Hn as [Hp Hn].
  exists (p :: D). split_and!; [done|by rewrite (cl_pending _ _ _ C)|..].
  - split; [done|]. intros q. rewrite (closed_marked p s s' q C), <- M, elem_of_cons.
    split; [|tauto]. intros Hq. split; [by right|]. by intros ->.
  - intros q [Hqp HqD]%not_elem_of_cons. rewrite K by done. by apply C.
  - intros q. rewrite HB, !elem_of_cons. tauto.
  - intros q [->|Hq]%elem_of_cons.
    + split; [done|]. destruct (cl_dead _ _ _ C) as (c & E & _). eauto.
    + destruct (HD q Hq) as [[Hqp Hql]%not_elem_of_cons [c E]]. split; [done|].
      pose proof (cl_others _ _ _ C q Hqp) as Hs. rewrite E in Hs.
      destruct (g_heap s' !! q); [eauto|discriminate Hs].
Qed.

Lemma close_marked_ok batch s0 p l (s : pool) :
  closing batch s0 (p :: l) s → ok (close_marked send_ok s p) (closing batch s0 l).
Proof.
  intros (D & I & P & HM & K & HB & HD). pose proof HM as [Hn M].
  destruct (proj1 (M p)) as (c & E & Hm); [by left|].
  assert (HpD : p ∉ D) by (intros HpD; apply HD in HpD as [[]%not_elem_of_cons _]; done).
  assert (L : live s p c).
  { split; [done|]. intros Hid. by apply (ho_dead _ _ _ (inv_heap _ _ I) p c E) in Hid. }
  unfold close_marked. rewrite (deref_eq _ _ _ E). cbn [mbind outcome_bind].
  rewrite (proj2 (Z.eqb_neq _ _) (proj2 L)). cbn [andb].
  ok_step announce_close_frame; [done..|]. intros s1 F1.
  assert (F : frame s (moor_relay_invalidate_rp_cookies p s1)) by (etrans; [done|apply cookies_frame]).
  destruct (frame_live s _ p c F L) as (c1 & L1 & _).
  eapply ok_weaken; [apply (cleanup_ok D p c1); [by eapply inv_frame|done]|].
  intros s2 [I2 C2]. apply (closing_step batch s0 p l s s2).
  - exists D. by split_and!.
  - eapply same_closed; [apply F|done].
Qed.

(** The second loop, with the circuits [l] still to be released. *)
Definition releasing (D : list Z) (s0 : pool) (l : list Z) (s : pool) : Prop :=
  inv D s ∧ g_pending s = [] ∧ (∀ q, ¬ marked (g_heap s) q) ∧ kept D s0 s ∧ NoDup l ∧
  (∀ q, q ∈ D → (q ∈ l ∧ is_Some (g_heap s !! q)) ∨ g_heap s !! q = None) ∧ (∀ q, q ∈ l → q ∈ D ∧ is_Some (g_heap s !! q)).

Lemma release_closed_ok D s0 p l (s : pool) :
  releasing D s0 (p :: l) s → ok (release_closed s p) (releasing D s0 l).
Proof.
  intros (I & P & M & K & [Hp Hn]%NoDup_cons & HD & Hl).
  destruct (Hl p) as [HpD [c E]]; [by left|]. unfold release_closed. rewrite (deref_eq _ _ _ E).
  cbn [mbind outcome_bind].
  assert (Hid : c_id c = 0) by (by apply (ho_dead _ _ _ (inv_heap _ _ I) p c E)).
  rewrite Hid. cbn [Z.eqb]. eapply ok_weaken; [by apply (release_ok D p c)|].
  intros s' (I' & Eh & Ep & _). split_and!; [done|congruence|..|done| |].
  - intros q (c' & E' & Hm). rewrite Eh in E'. apply lookup_delete_Some in E' as [_ E']. apply (M q). by exists c'.
  - intros q Hq. rewrite K, Eh, lookup_delete_ne; [done|congruence|done].
  - intros q Hq. rewrite Eh. destruct (decide (p = q)) as [<-|Hne]; [right; apply lookup_delete_eq|].
    rewrite lookup_delete_ne by done. destruct (HD q Hq) as [[[->|?]%elem_of_cons ?]|?]; [done|left|right]; done.
  - intros q Hq. rewrite Eh, lookup_delete_ne by congruence. apply Hl. by right.
Qed.

(** What closing the marked circuits achieves. *)
Definition all_closed (s s' : pool) : Prop :=
  pool_ok s' ∧ g_pending s' = [] ∧
  (∀ p, marked (g_heap s) p → g_heap s' !! p = None) ∧
  (∀ p, ¬ marked (g_heap s) p →
     (λ c, (core c, c_marked c)) <$> g_heap s' !! p = (λ c, (core c, c_marked c)) <$> g_heap s !! p).

Lemma closing_start s : pool_ok s → closing (g_pending s) s (g_pending s) {| s with g_pending := [] |}.
Proof.
  intros [I M]. exists []. split_and!; [by destruct I|done..| |].
  - intros q. split; [by right|by intros [?%not_elem_of_nil|?]].
  - by intros q ?%not_elem_of_nil.
Qed.

Lemma closing_end batch s0 s :
  NoDup batch → closing batch s0 [] s → ∃ D, releasing D s0 batch s ∧ ∀ q, q ∈ D ↔ q ∈ batch.
Proof.
  intros Hn (D & I & P & [_ M] & K & HB & HD). exists D.
  assert (Hq : ∀ q, q ∈ D ↔ q ∈ batch).
  { intros q. rewrite HB. split; [by left|by intros [?|?%not_elem_of_nil]]. }
  split; [|done]. split_and!; [done..| |done|done| |].
  - intros q Hm. apply M in Hm. by apply not_elem_of_nil in Hm.
  - intros q HqD. left. split; [by apply Hq|]. by apply HD.
  - intros q Hqb. apply Hq in Hqb. split; [done|]. by apply HD.
Qed.

Lemma close_all_ok s : pool_ok s → ok (moor_circuit_close_all_marked send_ok true s) (all_closed s).
Proof.
  intros Hs. pose proof Hs as [I [Hn M]]. unfold moor_circuit_close_all_marked.
  destruct (g_pending s) as [|p0 batch'] eqn:Eb.
  { apply ok_ret. split_and!; [done..| |done]. intros p Hp. apply M in Hp. by apply not_elem_of_nil in Hp. }
  rewrite <- Eb in *. cbn [negb]. eapply ok_bind.
  { apply (ok_foldM _ (closing (g_pending s) s)); [by apply closing_start|]. intros p l a. apply close_marked_ok. }
  intros s1 C. destruct (closing_end _ _ _ Hn C) as (D & R & HD).
  eapply ok_weaken.
  { apply (ok_foldM _ (releasing D s)); [done|]. intros p l a. apply release_closed_ok. }
  intros s2 (I2 & P2 & M2 & K2 & _ & HD2 & _).
  assert (Hnone : ∀ q, q ∈ D → g_heap s2 !! q = None).
  { intros q [[?%not_elem_of_nil _]|?]%HD2; done. }
  split_and!; [split|done|..].
  - by eapply inv_released.
  - rewrite P2. split; [constructor|]. intros q. split; [by intros ?%not_elem_of_nil|]. intros Hq. by apply M2 in Hq.
  - intros p Hp. apply Hnone, HD, M, Hp.
  - intros p Hp. symmetry. apply K2. by rewrite HD, M.
Qed.

(** ** Lookup *)

Lemma circ_keys_elem k c :
  k ∈ circ_keys c ↔
  k.1 ≠ 0 ∧ (k = (c_conn c, c_id c) ∨ k = (c_prev c, c_prev_id c) ∨ k = (c_next c, c_next_id c)).
Proof.
  unfold circ_keys. rewrite list_elem_of_filter, !elem_of_cons. split; [|tauto].
  intros [? [?|[?|[?|?%not_elem_of_nil]]]]; tauto.
Qed.

Lemma keys_match cid cn c : (cn, cid) ∈ circ_keys c → scan_matches cid cn c = true.
Proof.
  rewrite circ_keys_elem. unfold scan_matches, on_conn.
  intros [_ [[= -> ->]|[[= -> ->]|[= -> ->]]]]; rewrite !Z.eqb_refl; cbn; by rewrite ?orb_true_r.
Qed.

Definition found (cid cn : Z) (s : pool) (p : Z) : Prop :=
  (p = 0 ∧ ∀ q c, g_heap s !! q = Some c → c_marked c = 0 → scan_matches cid cn c = false) ∨
  (∃ c, live s p c ∧ c_marked c = 0 ∧ scan_matches cid cn c = true).

Lemma find_scan_ok cid cn (s : pool) l :
  inv [] s → (∀ p, p ∈ l → is_Some (g_heap s !! p)) →
  ok (find_scan cid cn l s) (λ p,
    (p = 0 ∧ ∀ q c, q ∈ l → g_heap s !! q = Some c → c_marked c = 0 → scan_matches cid cn c = false) ∨
    (∃ c, live s p c ∧ c_marked c = 0 ∧ scan_matches cid cn c = true)).
Proof.
  intros I. induction l as [|p l IH]; intros Hl.
  { apply ok_ret. left. split; [done|]. by intros q c ?%not_elem_of_nil. }
  cbn [find_scan]. destruct (Hl p) as [c E]; [by left|]. rewrite (deref_eq _ _ _ E).
  cbn [mbind outcome_bind]. assert (IH' := IH (λ q Hq, Hl q (list_elem_of_further _ _ _ Hq))).
  destruct (negb (c_marked c =? 0)) eqn:Em; [|destruct (scan_matches cid cn c) eqn:Es].
  - eapply ok_weaken; [exact IH'|]. intros a [[-> Ha]|Ha]; [left|by right]. split; [done|].
    intros q c' [->|Hq]%elem_of_cons E' Hm; [|by eapply Ha]. rewrite E in E'. injection E' as <-.
    rewrite Hm in Em. done.
  - apply ok_ret. right. exists c. apply negb_false_iff, Z.eqb_eq in Em. split_and!; [split|..]; try done.
    intros Hid. apply (ho_dead _ _ _ (inv_heap _ _ I) p c E) in Hid. by apply not_elem_of_nil in Hid.
  - eapply ok_weaken; [exact IH'|]. intros a [[-> Ha]|Ha]; [left|by right]. split; [done|].
    intros q c' [->|Hq]%elem_of_cons E' Hm; [congruence|by eapply Ha].
Qed.

Lemma find_ok cid cn (s : pool) : inv [] s → ok (moor_circuit_find cid cn s) (found cid cn s).
Proof.
  intros I. unfold moor_circuit_find.
  assert (Hscan : ok (find_scan cid cn (g_circuits s) s) (found cid cn s)).
  { pose proof (inv_array _ _ I) as (_ & A & _). eapply ok_weaken; [apply find_scan_ok; [done|]|].
    - intros p. apply A.
    - intros p [[-> Hp]|Hp]; [left|by right]. split; [done|]. intros q c E. eapply Hp; [apply A; eauto|done]. }
  destruct (inv_ht _ _ I) as (m & Hm & Ht). rewrite (ct_lookup_rep _ m _ Hm).
  destruct (m !! (cn, cid)) as [p|] eqn:Ek; [|done].
  destruct (Ht _ _ Ek) as (_ & c & E & Hid & Hin). rewrite (deref_eq _ _ _ E). cbn [mbind outcome_bind].
  destruct (Z.eqb_spec (c_marked c) 0) as [Hc|]; [|done]. apply ok_ret. right. exists c.
  split_and!; [done..|by apply keys_match].
Qed.

(** ** Changing the connections of a circuit *)

Lemma rp_ok_insert (h : gmap Z circuit) p c c' :
  rp_ok h → h !! p = Some c → c_rp c' = c_rp c → (c_rp c' ≠ 0 → c_id c' ≠ 0) → rp_ok (<[p := c']> h).
Proof.
  intros R E Hr Hri q e Ee He.
  assert (Hsame : ∀ r d, h !! r = Some d → ∃ d', <[p := c']> h !! r = Some d' ∧ c_rp d' = c_rp d).
  { intros r d Er. destruct (decide (r = p)) as [->|Hne].
    - exists c'. rewrite lookup_insert_eq. split; [done|congruence].
    - exists d. by rewrite lookup_insert_ne. }
  apply lookup_insert_Some in Ee as [[<- <-]|[Hne Ee]].
  - split; [by apply Hri|]. rewrite Hr in He |- *. destruct (R p c E He) as (_ & d & Ed & Hd).
    destruct (Hsame _ d Ed) as (d' & ? & ?). exists d'. split; [done|congruence].
  - destruct (R q e Ee He) as (Hid & d & Ed & Hd). split; [done|].
    destruct (Hsame _ d Ed) as (d' & ? & ?). exists d'. split; [done|congruence].
Qed.

(** A write that may change identity and connections: the table must hold no key the
    circuit loses. *)
Lemma inv_write D D' p c c' (s : pool) :
  inv D s → g_heap s !! p = Some c →
  (c_id c' = 0 ↔ p ∈ D') → (∀ q, q ≠ p → q ∈ D ↔ q ∈ D') →
  c_rp c' = c_rp c → (c_rp c' ≠ 0 → c_id c' ≠ 0) →
  (c_id c' ≠ 0 → conns_known (g_conns s) c') →
  ht_entries (λ k q, entry_ok (g_heap s) k q ∧ (q = p → c_id c' ≠ 0 ∧ k ∈ circ_keys c')) (g_ht s) →
  inv D' {| s with g_heap := <[p := c']> (g_heap s) |}.
Proof.
  intros [[[Hn1 Hn2] Hd Hk] (A1 & A2 & A3) _ R] E Hp HD Hr Hri Hc Ht.
  split; cbn [g_heap g_conns g_circuits g_ht].
  - split.
    + split; [|done]. apply lookup_insert_None. split; [done|congruence].
    + intros q e [[<- <-]|[Hne Ee]]%lookup_insert_Some; [done|]. rewrite <- HD by done. by apply Hd.
    + intros q e [[<- <-]|[Hne Ee]]%lookup_insert_Some; [done|]. by apply (Hk q).
  - split_and!; [done| |done]. intros q. rewrite lookup_insert_is_Some', A2. split; [by right|].
    intros [<-|?]; [by rewrite E|done].
  - eapply ht_entries_impl; [done|]. intros k q [(Hk2 & e & Ee & Hid & Hin) Hq]. split; [done|].
    destruct (decide (q = p)) as [->|Hne].
    + exists c'. rewrite lookup_insert_eq. split; [done|by apply Hq].
    + exists e. by rewrite lookup_insert_ne.
  - eapply (rp_ok_insert (g_heap s)); done.
Qed.

(** The three blocks of [circ_nullify_conn_unlocked] have this in common. *)
Record side_ok (side cid : circuit → Z) (clear : circuit → circuit) : Prop := {
  sd_key c k : k ∈ circ_keys c → k ≠ (side c, cid c) → k ∈ circ_keys (clear c);
  sd_conns c cn : cn ∈ [c_conn (clear c); c_prev (clear c); c_next (clear c)] →
    cn = 0 ∨ cn ∈ [c_conn c; c_prev c; c_next c];
  sd_rest c : c_id (clear c) = c_id c ∧ c_rp (clear c) = c_rp c ∧ c_marked (clear c) = c_marked c;
}.

Ltac side_tac :=
  split; [intros c k; rewrite !circ_keys_elem; cbn; intros [? [?|[?|?]]] ?; (split; [done|]); tauto|
          intros c cn; cbn; rewrite !elem_of_cons; tauto|done].

Lemma side_conn : side_ok c_conn c_id (λ c, {| c with c_conn := 0 |}).
Proof. side_tac. Qed.

Lemma side_next : side_ok c_next c_next_id (λ c, {| c with c_next := 0 |}).
Proof. side_tac. Qed.

Lemma side_prev : side_ok c_prev c_prev_id (λ c, {| c with c_prev := 0 |}).
Proof. side_tac. Qed.

(** [s'] is [s] with some connection pointers cleared. *)
Record cleared (s s' : pool) : Prop := {
  cd_marked : field_equiv c_marked (g_heap s) (g_heap s');
  cd_conns cn : is_Some (g_conns s !! cn) ↔ is_Some (g_conns s' !! cn);
  cd_circuits : g_circuits s' = g_circuits s;
  cd_pending : g_pending s' = g_pending s;
}.

#[local] Instance cleared_equivalence : Equivalence cleared.
Proof.
  split.
  - intros s. by split.
  - intros s s' [???]. by split.
  - intros s s' s'' [H1 H2 H3 H4] [K1 K2 K3 K4].
    split; [by etrans|intros cn; by rewrite H2|congruence..].
Qed.

Lemma nullify_side_ok cn p side cid clear c (s : pool) :
  side_ok side cid clear → inv [] s → live s p c → allocated cn s →
  ok (nullify_side cn p side cid clear s) (λ s', inv [] s' ∧ cleared s s' ∧
    g_heap s' = <[p := if side c =? cn then clear c else c]> (g_heap s)).
Proof.
  intros [Sk Sc Sr] I L Hcn. unfold nullify_side. rewrite (deref_eq _ _ _ (proj1 L)).
  cbn [mbind outcome_bind]. destruct (Z.eqb_spec (side c) cn) as [Hs|].
  2:{ apply ok_ret. split_and!; [done..|]. symmetry. apply insert_id, L. }
  ok_step ht_remove_ok; [apply I|apply entry_key|]. intros ? (t & -> & Ht).
  ok_step ref_dec_frame; [done|]. intros s2 [F2 E2]. cbn [g_heap] in E2.
  rewrite (write_eq p clear s2 c) by (rewrite E2; apply L). apply ok_ret.
  destruct (Sr c) as (Hid & Hrp & Hm). split_and!.
  - eapply (inv_write [] []).
    + eapply inv_frame; [done|]. apply ht_set_inv; [done|]. eapply ht_entries_impl; [done|]. by intros ?? [? _].
    + rewrite E2. apply L.
    + rewrite Hid. split; [by intros ?%(proj2 L)|by intros ?%not_elem_of_nil].
    + done.
    + done.
    + intros _. rewrite Hid. apply L.
    + intros _ cn' Hin Hne. eapply frame_allocated; [done|]. destruct (Sc c cn' Hin) as [?|Hin']; [done|].
      by apply (live_conn [] s p c).
    + rewrite (sh_ht _ _ (sm_shape _ _ (fr_same _ _ F2))), E2. eapply ht_entries_impl; [done|].
      cbv beta. intros k q [Hk Hne]. split; [done|]. intros ->. rewrite Hid. split; [apply L|].
      destruct Hk as (_ & c0 & E0 & _ & Hin). rewrite (proj1 L) in E0. injection E0 as <-.
      apply Sk; [done|]. by rewrite Hs.
  - destruct F2 as [[[_ H2 H3 _] _ H5] _]. split; [|done..]. cbn [g_heap]. rewrite E2. intros q.
    apply (fmap_insert_same c_marked _ _ c); [apply L|done].
  - cbn [g_heap]. by rewrite E2.
Qed.

Definition nullified (cn : Z) (c : circuit) : circuit :=
  let c := if c_conn c =? cn then {| c with c_conn := 0 |} else c in
  let c := if c_next c =? cn then {| c with c_next := 0 |} else c in
  if c_prev c =? cn then {| c with c_prev := 0 |} else c.

Lemma nullified_off cn c : cn ≠ 0 → on_conn cn (nullified cn c) = false.
Proof.
  intros Hcn. assert (H0 : (0 =? cn) = false) by (by apply Z.eqb_neq).
  unfold nullified, on_conn. destruct (c_conn c =? cn) eqn:E1; cbn [c_conn c_next c_prev];
  destruct (c_next c =? cn) eqn:E2; cbn [c_conn c_next c_prev];
  destruct (c_prev c =? cn) eqn:E3; cbn [c_conn c_next c_prev];
  rewrite ?H0, ?E1, ?E2, ?E3; done.
Qed.

Lemma nullify_circuit_ok cn p c (s : pool) :
  inv [] s → live s p c → allocated cn s →
  ok (nullify_circuit cn s p) (λ s', inv [] s' ∧ cleared s s' ∧
    g_heap s' = <[p := nullified cn c]> (g_heap s)).
Proof.
  intros I L Hcn. unfold nullify_circuit. rewrite (deref_eq _ _ _ (proj1 L)). cbn [mbind outcome_bind].
  rewrite (proj2 (Z.eqb_neq _ _) (proj2 L)).
  ok_step (nullify_side_ok cn p _ _ _ c s side_conn); [done..|]. intros s1 (I1 & C1 & E1).
  set (c1 := if c_conn c =? cn then _ else c) in E1.
  assert (L1 : live s1 p c1).
  { split; [rewrite E1; apply lookup_insert_eq|]. unfold c1. case_match; apply L. }
  ok_step (nullify_side_ok cn p _ _ _ c1 s1 side_next); [done..|by apply C1|]. intros s2 (I2 & C2 & E2).
  set (c2 := if c_next c1 =? cn then _ else c1) in E2.
  assert (L2 : live s2 p c2).
  { split; [rewrite E2; apply lookup_insert_eq|]. unfold c2. case_match; apply L1. }
  eapply ok_weaken; [apply (nullify_side_ok cn p _ _ _ c2 s2 side_prev); [done..|by apply C2, C1]|].
  intros s3 (I3 & C3 & E3). split_and!; [done|etrans; [done|by etrans]|].
  by rewrite E3, E2, E1, !insert_insert_eq.
Qed.

Lemma inv_nil_live p c (s : pool) : inv [] s → g_heap s !! p = Some c → live s p c.
Proof.
  intros I E. split; [done|]. intros Hid. apply (ho_dead _ _ _ (inv_heap _ _ I) p c E) in Hid.
  by apply not_elem_of_nil in Hid.
Qed.

(** Afterwards no circuit points to the connection. *)
Lemma nullify_conn_ok cn (s : pool) :
  inv [] s → allocated cn s →
  ok (moor_circuit_nullify_conn cn s) (λ s', inv [] s' ∧ cleared s s' ∧
    ∀ p c, g_heap s' !! p = Some c → on_conn cn c = false).
Proof.
  intros I Hcn. assert (Hn : cn ≠ 0).
  { intros ->. destruct Hcn as [k E]. destruct (inv_heap _ _ I) as [[_ H0] _ _]. congruence. }
  unfold moor_circuit_nullify_conn. rewrite (proj2 (Z.eqb_neq _ _) Hn).
  eapply ok_weaken.
  { apply (ok_foldM _ (λ l s', inv [] s' ∧ cleared s s' ∧ (∀ p, p ∈ l → p ∈ g_circuits s) ∧
      ∀ p c, g_heap s' !! p = Some c → p ∉ l → on_conn cn c = false)).
    - split_and!; [done..|]. intros p c E Hp. destruct Hp. apply (inv_array _ _ I). eauto.
    - intros p l s1 (I1 & C1 & Hl & H1). destruct (proj1 (proj1 (proj2 (inv_array _ _ I1)) p)) as [c E].
      { rewrite (cd_circuits _ _ C1). apply Hl. by left. }
      eapply ok_weaken; [apply (nullify_circuit_ok cn p c s1); [done|by apply inv_nil_live|by apply C1]|].
      intros s2 (I2 & C2 & E2). split_and!; [done|by etrans|intros q Hq; apply Hl; by right|].
      intros q e Eq Hq. rewrite E2 in Eq. apply lookup_insert_Some in Eq as [[<- <-]|[Hne Eq]].
      + by apply nullified_off.
      + apply (H1 q); [done|]. apply not_elem_of_cons. done. }
  intros s' (I' & C' & _ & H'). split_and!; [done..|]. intros p c E. apply (H' p); [done|apply not_elem_of_nil].
Qed.

Lemma cleared_pool_ok s s' : pool_ok s → inv [] s' → cleared s s' → pool_ok s'.
Proof.
  intros [_ M] I [H _ _ P]. split; [done|]. rewrite P. by rewrite <- H.
Qed.

Lemma conn_free_ok cn (s : pool) : pool_ok s → allocated cn s → ok (moor_connection_free cn s) pool_ok.
Proof.
  intros Hs Hcn. unfold moor_connection_free. case_match; [by apply ok_ret|].
  ok_step nullify_conn_ok; [apply Hs|done|]. intros s1 (I1 & C1 & H1). apply ok_ret.
  pose proof (cleared_pool_ok s s1 Hs I1 C1) as [_ M]. split; [|done].
  destruct I1 as [[[Hn1 Hn2] Hd Hk] A Ht R]. split; [|done..]. split; cbn [g_heap g_conns].
  - split; [done|]. apply lookup_delete_None. by right.
  - done.
  - intros p c E Hid cn' Hin Hne. apply lookup_delete_is_Some. split; [|by apply (Hk p c)].
    intros <-. specialize (H1 p c E). unfold on_conn in H1.
    apply orb_false_iff in H1 as [[E1 E2]%orb_false_iff E3]. apply Z.eqb_neq in E1, E2, E3.
    apply elem_of_cons in Hin as [?|[?|[?|?%not_elem_of_nil]%elem_of_cons]%elem_of_cons]; congruence.
Qed.

Lemma marked_more_ok s s' : pool_ok s → marked_more [] s s' → pool_ok s'.
Proof. intros [_ M] (I & _ & H). split; [done|]. by apply (H []). Qed.

Lemma mark_all_ok cn reason line (s : pool) :
  inv [] s → line < 2 ^ 16 →
  ok (moor_circuit_mark_all_for_conn cn reason line s) (marked_more [] s).
Proof.
  intros I Hl. unfold moor_circuit_mark_all_for_conn. case_match; [by apply ok_ret, marked_more_refl|].
  eapply ok_weaken.
  { apply (ok_foldM _ (λ l s', marked_more [] s s' ∧ ∀ p, p ∈ l → p ∈ g_circuits s)).
    - split; [by apply marked_more_refl|done].
    - intros p l s1 [M1 Hin]. pose proof M1 as (I1 & S1 & _).
      destruct (proj1 (proj1 (proj2 (inv_array _ _ I1)) p)) as [c E].
      { rewrite (sh_circuits _ _ S1). apply Hin. by left. }
      assert (Hl' : ∀ q, q ∈ l → q ∈ g_circuits s) by (intros q Hq; apply Hin; by right).
      rewrite (deref_eq _ _ _ E). cbn [mbind outcome_bind]. case_match; [by apply ok_ret|].
      case_match; [|by apply ok_ret].
      eapply ok_weaken; [apply (mark_ok [] 0); [done|right; eauto|done]|].
      intros s2 M2. split; [by eapply marked_more_trans|done]. }
  by intros s' [? _].
Qed.

Lemma teardown_ok cn line (s : pool) :
  pool_ok s → allocated cn s → line < 2 ^ 16 → ok (moor_circuit_teardown_for_conn cn line s) pool_ok.
Proof.
  intros Hs Hcn Hl. unfold moor_circuit_teardown_for_conn. ok_step mark_all_ok; [apply Hs|done|].
  intros s1 M1. assert (Hs1 : pool_ok s1) by (by eapply marked_more_ok).
  eapply ok_weaken; [apply nullify_conn_ok; [apply Hs1|apply M1, Hcn]|].
  intros s2 (I2 & C2 & _). by eapply cleared_pool_ok.
Qed.

(** ** Creating, extending and joining *)

(** [s'] has the heap and the connections of [s]. *)
Definition same_heap (s s' : pool) : Prop := g_heap s' = g_heap s ∧ g_conns s' = g_conns s.

Lemma register_keys p c ks : ∀ s,
  pool_ok s → live s p c → (∀ k, k ∈ ks → k ∈ circ_keys c) →
  pool_ok (fold_left (ht_insert p) ks s) ∧ same_heap s (fold_left (ht_insert p) ks s).
Proof.
  induction ks as [|k ks IH]; intros s Hs L Hk; [by split|]. cbn [fold_left].
  apply (IH (ht_insert p s k)); [|done|intros k' ?; apply Hk; by right].
  destruct Hs as [I M]. split; [|done]. apply ht_set_inv; [done|].
  eapply ht_insert_ok; [apply I|apply I|]. intros Hk2. split; [done|]. exists c.
  split_and!; [apply L|apply L|apply Hk; by left].
Qed.

Lemma register_ok p c (s : pool) :
  pool_ok s → live s p c → ok (circ_register_unlocked p s) (λ s', pool_ok s' ∧ same_heap s s').
Proof.
  intros Hs L. unfold circ_register_unlocked. rewrite (deref_eq _ _ _ (proj1 L)).
  cbn [mbind outcome_bind]. case_match; [by apply ok_ret|]. by eapply ok_ret, register_keys.
Qed.

(** A write that only adds connections. *)
Lemma write_conn_ok p c f (s : pool) :
  pool_ok s → live s p c → c_id (f c) = c_id c → c_rp (f c) = c_rp c → c_marked (f c) = c_marked c →
  conns_known (g_conns s) (f c) → (∀ k, k ∈ circ_keys c → k ∈ circ_keys (f c)) →
  ok (write p f s) (λ s', pool_ok s' ∧ live s' p (f c) ∧ g_conns s' = g_conns s).
Proof.
  intros [I M] L Hid Hrp Hm Hc Hk. rewrite (write_eq _ _ _ c (proj1 L)). apply ok_ret.
  split_and!; [split|split|done].
  - apply (inv_write [] [] p c); [done|apply L| |done..| |done|].
    + rewrite Hid. split; [by intros ?%(proj2 L)|by intros ?%not_elem_of_nil].
    + intros _. rewrite Hid. apply L.
    + eapply ht_entries_impl; [apply I|]. intros k q Hq. split; [done|]. intros ->. rewrite Hid.
      destruct Hq as (_ & c0 & E0 & ? & Hin). rewrite (proj1 L) in E0. injection E0 as <-. auto.
  - cbn [g_heap g_pending]. assert (H : field_equiv c_marked (g_heap s) (<[p := f c]> (g_heap s))).
    { intros q. apply (fmap_insert_same c_marked _ _ c); [apply L|done]. }
    by rewrite <- H.
  - apply lookup_insert_eq.
  - rewrite Hid. apply L.
Qed.

Lemma alloc_ok p (s : pool) :
  pool_ok s → p ≠ 0 → g_heap s !! p = None → (length (g_circuits s) < MAX_TRACKED)%nat →
  inv [p] (moor_circuit_alloc p s) ∧ marks_ok (g_heap (moor_circuit_alloc p s)) (g_pending s).
Proof.
  intros [[[[Hn1 Hn2] Hd Hk] (A1 & A2 & A3) Ht R] [Mn M]] Hp E Hlen.
  split; [split|split]; cbn [g_heap g_conns g_circuits g_ht moor_circuit_alloc circ_array_add].
  - split.
    + split; [|done]. apply lookup_insert_None. done.
    + intros q c [[<- <-]|[Hne Ec]]%lookup_insert_Some; [split; [by left|done]|].
      rewrite (Hd q c Ec). split; [by intros ?%not_elem_of_nil|]. intros ->%list_elem_of_singleton. done.
    + intros q c [[<- <-]|[Hne Ec]]%lookup_insert_Some; [done|by apply (Hk q)].
  - split_and!.
    + apply NoDup_app. split_and!; [done| |apply NoDup_singleton].
      intros q Hq ->%list_elem_of_singleton. apply A2 in Hq as [c Ec]. congruence.
    + intros q. rewrite elem_of_app, list_elem_of_singleton, lookup_insert_is_Some', A2.
      split; [intros [?| ->]; [by right|by left]|intros [<-|?]; [by right|by left]].
    + rewrite length_app. cbn [length]. lia.
  - eapply ht_entries_impl; [done|]. intros k q (Hk2 & c & Ec & ? & ?). split; [done|]. exists c.
    rewrite lookup_insert_ne; [done|congruence].
  - intros q c [[<- <-]|[Hne Ec]]%lookup_insert_Some Hrp; [done|].
    destruct (R q c Ec Hrp) as (Hid & d & Ed & Hdq). split; [done|]. exists d.
    rewrite lookup_insert_ne; [done|congruence].
  - done.
  - intros q. rewrite M. unfold marked. split.
    + intros (c & Ec & Hm). exists c. rewrite lookup_insert_ne; [done|congruence].
    + intros (c & [[<- <-]|[Hne Ec]]%lookup_insert_Some & Hm); [done|]. by exists c.
Qed.

(** The circuit of a CREATE cell comes to life. *)
Lemma born_ok p cn cid (s : pool) :
  pool_ok s → p ≠ 0 → g_heap s !! p = None → (length (g_circuits s) < MAX_TRACKED)%nat →
  cid ≠ 0 → allocated cn s →
  ok (write p (λ c, set_from cn cid (set_id cid c)) (moor_circuit_alloc p s))
     (λ s', pool_ok s' ∧ g_conns s' = g_conns s ∧ ∃ c, live s' p c).
Proof.
  intros Hs Hp E Hlen Hcid Hcn. destruct (alloc_ok p s Hs Hp E Hlen) as [I [Mn M]].
  assert (Ep : g_heap (moor_circuit_alloc p s) !! p = Some fresh_circuit) by apply lookup_insert_eq.
  rewrite (write_eq _ _ _ _ Ep). apply ok_ret. split_and!; [split|done|].
  - eapply (inv_write [p] []); [done|exact Ep|..].
    + split; [done|by intros ?%not_elem_of_nil].
    + intros q Hq. rewrite list_elem_of_singleton. split; [done|by intros ?%not_elem_of_nil].
    + done.
    + done.
    + intros _ cn' Hin Hne. cbn in Hin. rewrite !elem_of_cons in Hin.
      destruct Hin as [?|[->|[?|?%not_elem_of_nil]]]; done.
    + eapply ht_entries_impl; [apply I|]. intros k q Hq. split; [done|]. intros ->.
      destruct Hq as (_ & c0 & E0 & Hid & _). rewrite Ep in E0. injection E0 as <-. done.
  - split; [exact Mn|]. intros q. etrans; [apply (M q)|]. apply marked_proper; [|reflexivity]. intros r.
    cbn [g_heap]. apply (fmap_insert_same c_marked _ _ fresh_circuit); [exact Ep|done].
  - eexists. split; [apply lookup_insert_eq|done].
Qed.

Lemma handle_create_ok cn cid p adm created (s : pool) :
  pool_ok s → p ≠ 0 → g_heap s !! p = None → (length (g_circuits s) < MAX_TRACKED)%nat →
  cid ≠ 0 → allocated cn s →
  ok (moor_relay_handle_create send_ok cn cid p adm created s) (λ r, pool_ok r.2).
Proof.
  intros Hs Hp E Hlen Hcid Hcn. unfold moor_relay_handle_create. ok_step find_ok; [apply Hs|]. intros dup _.
  case_match; [by apply ok_ret|]. cbv zeta. ok_step (born_ok p cn cid s); [done..|].
  intros s1 (Hs1 & Ec1 & c1 & L1). assert (Hcn1 : allocated cn s1) by (unfold allocated; by rewrite Ec1).
  ok_step send_frame; [done|]. intros [b s2] [F2 E2]. cbn in F2, E2. cbv beta iota.
  assert (Hs2 : pool_ok s2) by (by eapply pool_ok_frame).
  assert (L2 : live s2 p c1) by (split; [rewrite E2|]; apply L1). destruct b; cbn [negb].
  - ok_step ref_inc_frame; [by eapply frame_allocated|]. intros s3 [F3 E3].
    assert (Hs3 : pool_ok s3) by (by eapply pool_ok_frame).
    ok_step (register_ok p c1); [done|split; [rewrite E3|]; apply L2|]. intros s4 [Hs4 _]. by apply ok_ret.
  - ok_step free_ok; [done|right; eexists; apply L2|]. intros s3 Hs3. by apply ok_ret.
Qed.

(** The result code of a handler does not matter here. *)
Abbreviation handled := (λ r : Z * pool, pool_ok r.2).

(** Setting the next hop of a circuit that has none. *)
Lemma set_next_ok p c nc nid f (s : pool) :
  pool_ok s → live s p c → c_next c = 0 → allocated nc s →
  (∀ c, core (f c) = core c ∧ c_rp (f c) = c_rp c ∧ c_marked (f c) = c_marked c) →
  ok (write p (λ c, f (set_to nc nid c)) s)
     (λ s', pool_ok s' ∧ live s' p (f (set_to nc nid c)) ∧ g_conns s' = g_conns s).
Proof.
  intros Hs L Hn Hnc Hf. destruct (Hf (set_to nc nid c)) as (Hc & Hr & Hm).
  apply (write_conn_ok p c (λ c, f (set_to nc nid c))); [done..|by injection Hc|by rewrite Hr|by rewrite Hm| |].
  - eapply core_conns_known; [done|]. intros cn Hin Hne. cbn in Hin. rewrite !elem_of_cons in Hin.
    destruct Hin as [?|[?|[->|?%not_elem_of_nil]]]; [..|done|done];
      (apply (live_conn [] s p c); [apply Hs|done| |done]); subst; [by left|by right; left].
  - intros k. rewrite (core_keys _ _ Hc), !circ_keys_elem. cbn. rewrite Hn.
    intros [Hk [?|[?| ->]]]; [tauto|tauto|done].
Qed.

Lemma relay_extend_ok p c early dl rej n_chan th nid create (s : pool) :
  pool_ok s → live s p c → c_next c = 0 → (∀ nc, n_chan = Some nc → allocated nc s) →
  ok (relay_extend send_ok p early dl rej n_chan th nid create s) handled.
Proof.
  intros Hs L Hn Hnc. unfold relay_extend. rewrite (deref_eq _ _ _ (proj1 L)). cbn [mbind outcome_bind].
  case_match; [by apply ok_ret|]. case_match; [by apply ok_ret|].
  ok_step write_frame; [apply L|done..|]. intros s1 [F1 E1].
  assert (Hs1 : pool_ok s1) by (by eapply pool_ok_frame).
  destruct (frame_live s s1 p c F1 L) as (c1 & L1 & Hc1 & _).
  case_match; [by apply ok_ret|]. case_match; [by apply ok_ret|]. destruct rej; [by apply ok_ret|].
  cbv zeta. ok_step conn_is_open_ok.
  { destruct n_chan as [nc|]; [|done]. intros _. eapply frame_allocated; [done|by apply Hnc]. }
  intros b Hb. destruct b.
  - destruct (Hb eq_refl) as [_ Ha]. ok_step send_frame; [done|]. intros [b2 s2] [F2 E2]. cbn in F2, E2.
    cbv beta iota. assert (Hs2 : pool_ok s2) by (by eapply pool_ok_frame).
    destruct b2; cbn [negb]; [|by apply ok_ret].
    ok_step (set_next_ok p c1 (default 0 n_chan) nid (set_extending true));
      [done|split; [rewrite E2|]; apply L1|by injection Hc1; congruence|by eapply frame_allocated|done|].
    intros s3 (Hs3 & L3 & Ec3). ok_step ref_inc_frame.
    { unfold allocated. rewrite Ec3. by eapply frame_allocated. }
    intros s4 [F4 E4]. ok_step (register_ok p); [by eapply pool_ok_frame|split; [rewrite E4|]; apply L3|].
    intros s5 [Hs5 _]. by apply ok_ret.
  - case_match; [|by apply ok_ret]. ok_step write_frame; [apply L1|done..|]. intros s2 [F2 _].
    apply ok_ret. by eapply pool_ok_frame.
Qed.

Lemma cookies_set_ok (s : pool) ck : pool_ok s → pool_ok {| s with g_cookies := ck |}.
Proof. intros [[] M]. by split. Qed.

Lemma queue_cell_ok p c cell dir push (s : pool) :
  pool_ok s → live s p c → ok (moor_circuit_queue_cell send_ok p cell dir push s) handled.
Proof.
  intros Hs L. eapply ok_weaken; [eapply queue_cell_frame; [apply Hs|done]|].
  intros r F. by apply (pool_ok_frame s).
Qed.

Lemma establish_ok p c dl cookie now est push (s : pool) :
  pool_ok s → live s p c →
  ok (relay_establish_rendezvous send_ok p dl cookie now est push s) handled.
Proof.
  intros Hs L. unfold relay_establish_rendezvous. case_match; [by apply ok_ret|].
  rewrite (deref_eq _ _ _ (proj1 L)). cbn [mbind outcome_bind]. cbv zeta.
  case_match; [|by apply ok_ret, cookies_set_ok].
  ok_step (queue_cell_ok p c); [by apply cookies_set_ok|done|]. intros [r s1] Hs1. by apply ok_ret.
Qed.

(** Joining two circuits neither of which has a partner. *)
Lemma join_rp_ok (h : gmap Z circuit) p q c d :
  rp_ok h → h !! 0 = None → h !! p = Some c → c_rp c = 0 → h !! q = Some d → c_rp d = 0 →
  ∀ c' d', c_rp c' = q → c_id c' ≠ 0 → c_rp d' = p → c_id d' ≠ 0 → rp_ok (<[q := d']> (<[p := c']> h)).
Proof.
  intros R H0 Ec Hc Ed Hd c' d' Hc' Hci' Hd' Hdi' r e Er He.
  apply lookup_insert_Some in Er as [[<- <-]|[Hrq Er]].
  - split; [done|]. rewrite Hd'. destruct (decide (p = q)) as [->|Hne].
    + exists d'. by rewrite lookup_insert_eq.
    + exists c'. rewrite lookup_insert_ne, lookup_insert_eq by done. done.
  - apply lookup_insert_Some in Er as [[<- <-]|[Hrp Er]].
    + split; [done|]. rewrite Hc'. exists d'. by rewrite lookup_insert_eq.
    + destruct (R r e Er He) as (Hid & f & Ef & Hf). split; [done|]. exists f. split; [|done].
      assert (c_rp e ≠ q) by (intros Hx; rewrite Hx, Ed in Ef; injection Ef as <-; congruence).
      assert (c_rp e ≠ p) by (intros Hx; rewrite Hx, Ec in Ef; injection Ef as <-; congruence).
      by rewrite !lookup_insert_ne.
Qed.

Lemma found_is_spec cid cn P p c (s : pool) :
  found_is cid cn P s = true → moor_circuit_find cid cn s = Ret p → g_heap s !! p = Some c → P c = true.
Proof. unfold found_is. intros H E1 E. by rewrite E1, E in H. Qed.

Lemma found_live cid cn (s : pool) p :
  found cid cn s p → (p =? 0) = false → ∃ c, live s p c ∧ c_marked c = 0.
Proof. intros [[-> _]|(c & L & Hm & _)] Hp; [done|eauto]. Qed.

Lemma join_ok p q c d (s : pool) :
  pool_ok s → live s p c → c_rp c = 0 → live s q d → c_rp d = 0 →
  ok (join_partners p q s) (λ s', pool_ok s' ∧ g_conns s' = g_conns s).
Proof.
  intros [I M] Lp Hp Lq Hq. unfold join_partners. rewrite (write_eq _ _ _ _ (proj1 Lp)). cbn [mbind outcome_bind].
  set (h1 := <[p := {| c with c_rp := q |}]> (g_heap s)).
  assert (E1 : ∃ d1, h1 !! q = Some d1 ∧ core d1 = core d ∧ c_marked d1 = c_marked d ∧ c_id d1 ≠ 0).
  { unfold h1. destruct (decide (p = q)) as [<-|Hne].
    - eexists. rewrite lookup_insert_eq. destruct Lp as [E ?], Lq as [E' ?].
      rewrite E in E'. injection E' as <-. done.
    - exists d. rewrite lookup_insert_ne by done. by split_and!; try apply Lq. }
  destruct E1 as (d1 & E1 & Hc1 & Hm1 & Hid1). rewrite (write_eq q _ {| s with g_heap := h1 |} d1 E1).
  apply ok_ret. split; [|done].
  assert (Hf : ∀ B (f : circuit → B), (∀ c v, f {| c with c_rp := v |} = f c) →
    field_equiv f (g_heap s) (<[q := {| d1 with c_rp := p |}]> h1)).
  { intros B f Hf r. etrans; [apply (fmap_insert_same f _ p c {| c with c_rp := q |}); [apply Lp|by apply Hf]|].
    apply (fmap_insert_same f h1 q d1); auto. }
  split; cbn [g_heap g_pending].
  - eapply (inv_shape [] s); [split; cbn [g_heap g_conns g_circuits g_ht]; [by apply Hf|done..]|done|].
    cbn [g_heap]. unfold h1. eapply (join_rp_ok (g_heap s) p q c d); [apply I|apply (inv_heap _ _ I)|apply Lp|
      done|apply Lq|done|done|apply Lp|done|exact Hid1].
  - pose proof (Hf _ c_marked (λ _ _, eq_refl)) as Hmk. by rewrite <- Hmk.
Qed.

Definition cookie_of (cookie : bytes) (s : pool) : option rp_cookie :=
  i ← find_index (λ k, ck_valid k && bytes_eqb (ck_cookie k) cookie) (g_cookies s); g_cookies s !! i.

Lemma rendezvous1_ok p c dl cookie rv2 (s : pool) :
  pool_ok s → live s p c → c_rp c = 0 →
  (∀ k, cookie_of cookie s = Some k → found_is (ck_circuit_id k) (ck_conn k) (λ c, c_rp c =? 0) s = true) →
  ok (relay_rendezvous1 send_ok p dl cookie rv2 s) handled.
Proof.
  intros Hs L Hrp Hk. unfold relay_rendezvous1, cookie_of in *. case_match; [by apply ok_ret|].
  case_match; [|by apply ok_ret]. cbn [mbind option_bind] in Hk. case_match; [|by apply ok_ret].
  specialize (Hk _ eq_refl). destruct (find_ok (ck_circuit_id r) (ck_conn r) s) as (q & Eq & Hq); [apply Hs|].
  rewrite Eq. cbn [mbind outcome_bind]. cbv zeta.
  assert (Hs1 : pool_ok (cookie_off n s)) by (by apply cookies_set_ok).
  case_match; [by apply ok_ret|]. destruct (found_live _ _ _ _ Hq) as (d & Ld & _); [done|].
  assert (Hdr : c_rp d = 0) by (apply Z.eqb_eq, (found_is_spec _ _ _ q d s Hk Eq), Ld).
  rewrite (deref_eq _ _ _ (proj1 Ld : g_heap (cookie_off n s) !! q = Some d)). cbn [mbind outcome_bind].
  ok_step conn_is_open_ok; [apply (live_conn [] s q d); [apply Hs|done|by right; left]|].
  intros b Hb. destruct b; cbn [negb]; [|by apply ok_ret]. destruct (Hb eq_refl) as [_ Ha].
  ok_step (join_ok p q c d); [done..|]. intros s2 [Hs2 Ec2].
  ok_step send_frame; [unfold allocated; by rewrite Ec2|]. intros [b s3] [F3 _].
  apply ok_ret. by apply (pool_ok_frame s2).
Qed.

(** What a relay cell must satisfy, given the circuit it is for. *)
Definition action_ok (c : circuit) (a : relay_request) (s : pool) : Prop :=
  match a with
  | Extend _ _ n_chan _ _ _ => c_next c = 0 ∧ ∀ nc, n_chan = Some nc → allocated nc s
  | Rendezvous1 _ cookie _ => c_rp c = 0 ∧
      ∀ k, cookie_of cookie s = Some k → found_is (ck_circuit_id k) (ck_conn k) (λ c, c_rp c =? 0) s = true
  | _ => True
  end.

Lemma dispatch_ok p c r (s : pool) :
  pool_ok s → live s p c → action_ok c (ri_action r) s → ok (dispatch send_ok p r s) handled.
Proof.
  intros Hs L Ha. unfold dispatch. destruct (ri_action r).
  - destruct Ha. by apply (relay_extend_ok p c).
  - by apply (establish_ok p c).
  - destruct Ha. by apply (rendezvous1_ok p c).
  - by apply ok_ret.
Qed.

(** A partner that is there is live. *)
Lemma partner_live p c (s : pool) :
  pool_ok s → live s p c → c_rp c ≠ 0 → ∃ d, live s (c_rp c) d.
Proof.
  intros [I _] L Hrp. destruct (inv_rp _ _ I p c (proj1 L) Hrp) as (_ & d & Ed & _).
  exists d. by apply inv_nil_live.
Qed.

Lemma partner_open_ok p c (s : pool) :
  pool_ok s → live s p c → ok (partner_open p s) (λ b, b = true → c_rp c ≠ 0 ∧
    ∀ d, g_heap s !! c_rp c = Some d → allocated (c_prev d) s).
Proof.
  intros Hs L. unfold partner_open. rewrite (deref_eq _ _ _ (proj1 L)). cbn [mbind outcome_bind].
  destruct (Z.eqb_spec (c_rp c) 0); [by apply ok_ret|].
  destruct (partner_live p c s) as [d Ld]; [done..|]. rewrite (deref_eq _ _ _ (proj1 Ld)).
  cbn [mbind outcome_bind]. eapply ok_weaken.
  { apply conn_is_open_ok, (live_conn [] s (c_rp c) d); [apply Hs|done|by right; left]. }
  intros b Hb Hb'. split; [done|]. intros d' E. rewrite (proj1 Ld) in E. injection E as <-. by apply Hb.
Qed.

Lemma recognized_ok p c r (s : pool) :
  pool_ok s → live s p c → action_ok c (ri_action r) s → ok (relay_recognized send_ok p r s) handled.
Proof.
  intros Hs L Ha. unfold relay_recognized. ok_step (partner_open_ok p c); [done..|].
  intros b _. destruct b; [|by apply (dispatch_ok p c)].
  destruct (ri_flow r) as [|sendme]; [by apply ok_ret|]. rewrite (deref_eq _ _ _ (proj1 L)).
  cbn [mbind outcome_bind]. ok_step conn_is_open_ok; [apply (live_conn [] s p c); [apply Hs|done|by right; left]|].
  intros mine _. eapply (ok_bind _ _ (frame s)).
  { destruct sendme as [cell|]; [destruct mine|]; [|by apply ok_ret..].
    ok_step queue_cell_frame; [apply Hs|done|]. intros [rc s1] F. by apply ok_ret. }
  intros s1 F. assert (Hs1 : pool_ok s1) by (by eapply pool_ok_frame).
  destruct (frame_live s s1 p c F L) as (c1 & L1 & _).
  ok_step (partner_open_ok p c1); [done..|]. intros b Hb. destruct b; cbn [negb]; [|by apply ok_ret].
  destruct (Hb eq_refl) as [Hrp Hal]. destruct (partner_live p c1 s1) as [d Ld]; [done..|].
  unfold rp_send. rewrite (deref_eq _ _ _ (proj1 L1)). cbn [mbind outcome_bind].
  rewrite (deref_eq _ _ _ (proj1 Ld)). cbn [mbind outcome_bind].
  destruct (send_frame (c_prev d) (ri_out r) s1) as ([b2 s2] & E2 & F2 & _); [by apply Hal, Ld|].
  rewrite E2. cbn [mbind outcome_bind]. apply ok_ret. by apply (pool_ok_frame s1).
Qed.

Lemma mark_pool_ok p c reason line (s : pool) :
  pool_ok s → live s p c → line < 2 ^ 16 → ok (moor_circuit_mark_for_close_ p reason line s) pool_ok.
Proof.
  intros Hs L Hl. eapply ok_weaken; [apply (mark_ok [] 0); [apply Hs|right; eexists; apply L|done]|].
  intros s' M. by eapply marked_more_ok.
Qed.

Lemma handle_destroy_ok cn cid line (s : pool) :
  pool_ok s → line < 2 ^ 16 → ok (moor_relay_handle_destroy cn cid line s) handled.
Proof.
  intros Hs Hl. unfold moor_relay_handle_destroy. ok_step find_ok; [apply Hs|]. intros p Hp.
  case_match; [by apply ok_ret|]. destruct (found_live _ _ _ _ Hp) as (c & L & _); [done|].
  ok_step mark_pool_ok; [done..|]. intros s1 Hs1. by apply ok_ret.
Qed.

Lemma pass_on_ok p c r dir (s : pool) :
  pool_ok s → live s p c → ri_line r < 2 ^ 16 → ok (pass_on send_ok p r dir s) handled.
Proof.
  intros Hs L Hl. unfold pass_on. case_match; [by apply ok_ret|].
  ok_step queue_cell_frame; [apply Hs|done|]. intros [rc s1] F. cbn in F.
  assert (Hs1 : pool_ok s1) by (by eapply pool_ok_frame).
  destruct (frame_live s s1 p c F L) as (c1 & L1 & _). case_match; [|by apply ok_ret].
  ok_step mark_pool_ok; [done..|]. intros s2 Hs2. by apply ok_ret.
Qed.

Lemma relay_forward_ok cn cid p c r (s : pool) :
  pool_ok s → live s p c → ri_line r < 2 ^ 16 → ok (relay_forward send_ok cn cid p r s) handled.
Proof.
  intros Hs L Hl. unfold relay_forward. rewrite (deref_eq _ _ _ (proj1 L)). cbn [mbind outcome_bind].
  case_match.
  { ok_step handle_destroy_ok; [done..|]. intros [rc s1] Hs1. by apply ok_ret. }
  ok_step conn_is_open_ok; [apply (live_conn [] s p c); [apply Hs|done|by right; right; left]|].
  intros b _. destruct b; cbn [negb]; [|by apply ok_ret]. case_match; [by apply ok_ret|].
  eapply (ok_bind _ _ (frame s)).
  { case_match; [|by apply ok_ret]. eapply ok_weaken; [by apply (write_frame _ _ _ c); [apply L|..]|].
    by intros s1 [F _]. }
  intros s1 F. destruct (frame_live s s1 p c F L) as (c1 & L1 & _).
  apply (pass_on_ok p c1); [by eapply pool_ok_frame|done..].
Qed.

Lemma handle_relay_ok cn cid r (s : pool) :
  pool_ok s → ri_line r < 2 ^ 16 →
  (∀ p c, moor_circuit_find cid cn s = Ret p → live s p c → action_ok c (ri_action r) s) →
  ok (moor_relay_handle_relay send_ok cn cid r s) handled.
Proof.
  intros Hs Hl Ha. unfold moor_relay_handle_relay.
  destruct (find_ok cid cn s) as (p & E & Hp); [apply Hs|]. rewrite E. cbn [mbind outcome_bind].
  case_match; [by apply ok_ret|]. destruct (found_live _ _ _ _ Hp) as (c & L & _); [done|].
  rewrite (deref_eq _ _ _ (proj1 L)). cbn [mbind outcome_bind]. case_match; [case_match|case_match].
  - by apply (recognized_ok p c); [..|apply (Ha p c)].
  - by apply (relay_forward_ok cn cid p c).
  - ok_step conn_is_open_ok; [apply (live_conn [] s p c); [apply Hs|done|by right; left]|].
    intros b _. destruct b; cbn [negb]; [|by apply ok_ret]. by apply (pass_on_ok p c).
  - by apply ok_ret.
Qed.

Lemma created_ok cn cid ext push (s : pool) :
  pool_ok s → ok (relay_created send_ok cn cid ext push s) handled.
Proof.
  intros Hs. unfold relay_created. ok_step find_ok; [apply Hs|]. intros p Hp.
  case_match; [by apply ok_ret|]. destruct (found_live _ _ _ _ Hp) as (c & L & _); [done|].
  rewrite (deref_eq _ _ _ (proj1 L)). cbn [mbind outcome_bind]. case_match; [by apply ok_ret|].
  ok_step write_frame; [apply L|done..|]. intros s1 [F _].
  assert (Hs1 : pool_ok s1) by (by eapply pool_ok_frame).
  destruct (frame_live s s1 p c F L) as (c1 & L1 & _). ok_step conn_is_open_ok.
  { intros ?. eapply frame_allocated; [done|]. apply (live_conn [] s p c); [apply Hs|done|by right; left|done]. }
  intros b _. destruct b; cbn [negb]; [|by apply ok_ret].
  ok_step queue_cell_ok; [done..|]. intros [rc s2] Hs2. by apply ok_ret.
Qed.

Lemma extend_complete_ok cn cid nc nid res lv d e push (s : pool) :
  pool_ok s → allocated nc s → found_is cid cn (λ c, c_next c =? 0) s = true →
  ok (extend_complete send_ok cn cid nc nid res lv d e push s) pool_ok.
Proof.
  intros Hs Hnc Hf. unfold extend_complete. destruct lv; cbn [negb]; [|by apply conn_free_ok].
  destruct (find_ok cid cn s) as (p & E & Hp); [apply Hs|]. rewrite E. cbn [mbind outcome_bind].
  case_match; [by apply conn_free_ok|]. destruct (found_live _ _ _ _ Hp) as (c & L & _); [done|].
  assert (Hn : c_next c = 0) by (apply Z.eqb_eq, (found_is_spec _ _ _ p c s Hf E), L).
  rewrite (deref_eq _ _ _ (proj1 L)). cbn [mbind outcome_bind].
  destruct (c_extending c); cbn [negb]; [|by apply conn_free_ok].
  ok_step write_frame; [apply L|done..|]. intros s1 [F _].
  assert (Hs1 : pool_ok s1) by (by eapply pool_ok_frame).
  assert (Hnc1 : allocated nc s1) by (by eapply frame_allocated).
  destruct (frame_live s s1 p c F L) as (c1 & L1 & [= ? ? ? ? Hn1 ?] & _). ok_step conn_is_open_ok.
  { intros ?. eapply frame_allocated; [done|]. apply (live_conn [] s p c); [apply Hs|done|by right; left|done]. }
  intros b Hb. destruct b; cbn [negb]; [|by apply conn_free_ok]. destruct (Hb eq_refl) as [_ Hpa].
  case_match.
  { ok_step send_frame; [done|]. intros [b2 s2] [F2 _]. apply ok_ret. by apply (pool_ok_frame s1). }
  ok_step (set_next_ok p c1 nc nid (λ c, c)); [done..|by rewrite Hn1|done|done|].
  intros s2 (Hs2 & L2 & _). ok_step register_ok; [done..|]. intros s3 [Hs3 [E3 _]].
  ok_step queue_cell_ok; [done|split; [rewrite E3|]; apply L2|]. intros [rc s4] Hs4. by apply ok_ret.
Qed.

(** ** Every event *)

Lemma is_conn_iff cn (s : pool) : is_conn cn s = true ↔ allocated cn s.
Proof. apply bool_decide_eq_true. Qed.

Lemma drop_rc_ok (o : outcome (Z * pool)) : ok o handled → ok (drop_rc o) pool_ok.
Proof. intros H. unfold drop_rc. eapply ok_bind; [exact H|]. intros [rc s] Hs. by apply ok_ret. Qed.

Lemma conn_new_ok cn k (s : pool) :
  pool_ok s → cn ≠ 0 → pool_ok {| s with g_conns := <[cn := k]> (g_conns s) |}.
Proof.
  intros [[[[Hn1 Hn2] Hd Hk] A Ht R] M] Hcn. split; [|done]. split; [|done..]. split; cbn [g_heap g_conns].
  - split; [done|]. by apply lookup_insert_None.
  - done.
  - intros p c E Hid cn' Hin Hne. apply lookup_insert_is_Some'. right. by apply (Hk p c).
Qed.

Lemma relay_allowed_ok cid cn r (s : pool) :
  lc_allowed (OpRelay cn cid r) s = true →
  ri_line r < 2 ^ 16 ∧
  ∀ p c, moor_circuit_find cid cn s = Ret p → live s p c → action_ok c (ri_action r) s.
Proof.
  cbn [lc_allowed]. rewrite !andb_true_iff. intros [[_ Hl] Ha]. split; [by apply Z.ltb_lt|].
  intros p c E [Ec _]. destruct (ri_action r) as [? ? n_chan ? ? ?| |? cookie ?|]; cbn [action_ok]; [|done| |done].
  - apply andb_true_iff in Ha as [Hn Hf]. split.
    + by apply Z.eqb_eq, (found_is_spec _ _ _ p c s Hf E).
    + intros nc ->. by apply is_conn_iff.
  - apply andb_true_iff in Ha as [Hf Hk]. split; [by apply Z.eqb_eq, (found_is_spec _ _ _ p c s Hf E)|].
    intros k Ek. unfold cookie_of in Ek. destruct (find_index _ _) as [i|]; [|done].
    cbn [mbind option_bind] in Ek. by rewrite Ek in Hk.
Qed.

Lemma lc_step_ok op (s : pool) :
  pool_ok s → lc_allowed op s = true → ok (lc_step send_ok op s) pool_ok.
Proof.
  intros Hs Ha. destruct op as [cn|cn b|cn|cn line|cn cid p adm cr|cn cid r|cn cid ext push
    |cn cid nc nid res lv d e push|cn cid line|p|b]; cbn [lc_step].
  - cbn [lc_allowed] in Ha. apply andb_true_iff in Ha as [H%negb_true_iff%Z.eqb_neq _].
    by apply ok_ret, conn_new_ok.
  - apply is_conn_iff in Ha as [k E]. unfold conn_deref. rewrite E. apply ok_ret.
    apply (pool_ok_frame s); [by apply (conns_update_frame s cn k)|done].
  - by apply conn_free_ok; [|apply is_conn_iff].
  - cbn [lc_allowed] in Ha. apply andb_true_iff in Ha as [H Hl%Z.ltb_lt].
    by apply teardown_ok; [|apply is_conn_iff|].
  - cbn [lc_allowed] in Ha. rewrite !andb_true_iff in Ha.
    destruct Ha as [[[[H1 H2%negb_true_iff%Z.eqb_neq] H3%negb_true_iff%Z.eqb_neq]
      H4%bool_decide_eq_true] H5%Nat.ltb_lt].
    by apply drop_rc_ok, handle_create_ok; [..|apply is_conn_iff].
  - apply relay_allowed_ok in Ha as [Hl Ha]. by apply drop_rc_ok, handle_relay_ok.
  - by apply drop_rc_ok, created_ok.
  - cbn [lc_allowed] in Ha. rewrite !andb_true_iff in Ha. destruct Ha as [[_ H2] H3].
    by apply extend_complete_ok; [|apply is_conn_iff|].
  - cbn [lc_allowed] in Ha. apply andb_true_iff in Ha as [_ Hl%Z.ltb_lt].
    by apply drop_rc_ok, handle_destroy_ok.
  - cbn [lc_allowed] in Ha. apply orb_true_iff in Ha as [H%Z.eqb_eq|H%bool_decide_eq_true];
      apply free_ok; [done|by left|done|by right].
  - cbn [lc_allowed] in Ha. subst b. eapply ok_weaken; [by apply close_all_ok|]. by intros s' [? _].
Qed.

Lemma empty_pool_ok : pool_ok (empty_pool (T := T)).
Proof.
  assert (H : ∀ p, g_heap (empty_pool (T := T)) !! p = None) by (intros p; apply lookup_empty).
  split; [split|split].
  - split; [done|..]; intros p c E; by rewrite H in E.
  - split_and!; [constructor| |cbn; lia]. intros p. rewrite H.
    split; [by intros ?%not_elem_of_nil|by intros [? ?]].
  - exists ∅. split; [apply ct_empty_rep|]. intros k p E. by rewrite lookup_empty in E.
  - intros p c E. by rewrite H in E.
  - constructor.
  - intros p. split; [by intros ?%not_elem_of_nil|]. intros (c & E & _). by rewrite H in E.
Qed.

Lemma lc_run_ok ops : ∀ s : pool,
  pool_ok s → lc_allowed_run send_ok ops s = true → ok (lc_run send_ok ops s) pool_ok.
Proof.
  induction ops as [|op ops IH]; intros s Hs Ha; [by apply ok_ret|].
  cbn [lc_allowed_run] in Ha. apply andb_true_iff in Ha as [Ha Hr].
  destruct (lc_step_ok op s Hs Ha) as (s1 & E1 & Hs1). unfold lc_run. cbn [foldM].
  rewrite E1 in Hr |- *. cbn [mbind outcome_bind]. by apply IH.
Qed.
End Safety.

(** ** The table of [CircTable] implements the interface *)

Definition table_rep (t : table) (m : gmap ht_key circ_ptr) : Prop :=
  table_ok CIRC_HT_SIZE circ_ht_hash t ∧ represents t m.

Lemma table_empty_rep : table_rep (empty_table CIRC_HT_SIZE) ∅.
Proof. apply empty_table_ok. unfold CIRC_HT_SIZE. lia. Qed.

Lemma table_lookup_rep t m k :
  table_rep t m → circ_ht_lookup CIRC_HT_SIZE circ_ht_hash k t = m !! k.
Proof. intros [Hok Hr]. by apply circ_ht_lookup_spec; [apply circ_ht_hash_lt|..]. Qed.

Lemma table_insert_rep t m k c :
  table_rep t m → Z.of_nat (base.size m) < 4095 →
  table_rep (circ_ht_insert CIRC_HT_SIZE circ_ht_hash k c t).2 (map_op m (HtInsert k c)).
Proof.
  intros [Hok Hr] Hsz.
  destruct (table_op_spec CIRC_HT_SIZE circ_ht_hash circ_ht_hash_lt t m (HtInsert k c)) as (t' & E & ? & ?);
    [done..|unfold CIRC_HT_SIZE; lia|]. injection E as <-. done.
Qed.

Lemma table_remove_rep t m k :
  table_rep t m →
  ∃ t', circ_ht_remove CIRC_HT_SIZE circ_ht_hash k t = Some t' ∧ table_rep t' (map_op m (HtRemove k)).
Proof.
  intros [Hok Hr]. cbn [map_op]. change (negb (k.1 =? 0) && negb (k.2 =? 0)) with (key_valid k).
  destruct (key_valid k) eqn:Ek.
  - by apply circ_ht_remove_spec; [apply circ_ht_hash_lt|..].
  - exists t. unfold circ_ht_remove. by rewrite Ek.
Qed.

#[global] Instance circ_table : CircuitTable table := {|
  ct_empty := empty_table CIRC_HT_SIZE;
  ct_insert k c t := (circ_ht_insert CIRC_HT_SIZE circ_ht_hash k c t).2;
  ct_remove := circ_ht_remove CIRC_HT_SIZE circ_ht_hash;
  ct_lookup := circ_ht_lookup CIRC_HT_SIZE circ_ht_hash;
  ct_rep := table_rep;
  ct_empty_rep := table_empty_rep;
  ct_lookup_rep := table_lookup_rep;
  ct_insert_rep := table_insert_rep;
  ct_remove_rep := table_remove_rep;
|}.

(** ** The theorems *)

(** A run, and a test of the pool it reaches, by evaluation. *)
Definition run_test (send_ok : Z → moor_cell_t → bool) (ops : list lc_op) (P : pool table → bool) : bool :=
  match lc_run send_ok ops empty_pool with Ret s => P s | _ => false end.

Definition is_bad {A} (p : Z) (o : outcome A) : bool :=
  match o with BadAccess q => q =? p | _ => false end.

Lemma run_test_spec send_ok ops P :
  run_test send_ok ops P = true → ∃ s, lc_run send_ok ops empty_pool = Ret s ∧ P s = true.
Proof. unfold run_test. destruct (lc_run _ _ _) as [s|p|]; [eauto|done..]. Qed.

Lemma is_bad_spec {A} p (o : outcome A) : is_bad p o = true → o = BadAccess p.
Proof. destruct o as [a|q|]; [done| |done]. by intros ->%Z.eqb_eq. Qed.


Definition some_cell (cid : Z) : moor_cell_t := moor_cell_destroy cid.

Definition relay_cell (recognized early : bool) (a : relay_request) : relay_in :=
  mk_relay_in recognized early a (RpPass None) (some_cell 0) true false 1.

Definition extend_to (cn id : Z) : relay_in :=
  relay_cell true true (Extend 130 false (Some cn) true id (some_cell id)).

Definition establish (cookie : bytes) : relay_in :=
  relay_cell true false (EstablishRendezvous 20 cookie 0 (some_cell 0)).

Definition rendezvous (cookie : bytes) : relay_in :=
  relay_cell true false (Rendezvous1 84 cookie (some_cell 0)).

(** Circuits are created, extended and joined, a connection is torn down, the marked
    circuits are closed. *)
Definition sample_run : list lc_op :=
  [OpConnNew 1; OpConnNew 2; OpConnNew 3;
   OpCreate 1 5 100 true (some_cell 5); OpCreate 2 6 200 true (some_cell 6);
   OpRelay 1 5 (establish (zeros 20)); OpRelay 2 6 (rendezvous (zeros 20));
   OpRelay 2 6 (relay_cell true false OtherCommand);
   OpCreate 2 7 300 true (some_cell 7); OpRelay 2 7 (extend_to 3 77); OpCreated 3 77 (some_cell 7) true;
   OpRelay 2 7 (relay_cell false false OtherCommand); OpRelay 3 77 (relay_cell false false OtherCommand);
   OpTeardown 1 10; OpConnFree 1; OpCloseAll true; OpDestroy 3 77 12; OpCloseAll true].



Definition sample_marks : list lc_op :=
  [OpConnNew 1; OpConnNew 2; OpCreate 1 5 100 true (some_cell 5); OpCreate 2 6 200 true (some_cell 6);
   OpDestroy 1 5 42].


(** Extending twice: the first hop's key stays in the table. *)
Definition extend_twice : list lc_op :=
  [OpConnNew 1; OpConnNew 2; OpConnNew 3; OpCreate 1 7 100 true (some_cell 7);
   OpRelay 1 7 (extend_to 2 21); OpCreated 2 21 (some_cell 7) true; OpRelay 1 7 (extend_to 3 31);
   OpDestroy 1 7 1; OpCloseAll true].

(** A second EXTEND is not refused once the first has completed, and it replaces
    the next hop without unregistering the old one. The circuit table then keeps an
    entry for the first hop that survives the circuit: after the circuit is closed,
    any cell from that hop makes the lookup read freed memory. *)
Theorem extend_twice_use_after_free :
  ∃ s : pool table, lc_run (λ _ _, true) extend_twice empty_pool = Ret s ∧
    g_heap s !! 100 = None ∧ moor_circuit_find 21 2 s = BadAccess 100.
Proof.
  destruct (run_test_spec (λ _ _, true) extend_twice (λ s,
    bool_decide (g_heap s !! 100 = None) && is_bad 100 (moor_circuit_find 21 2 s))) as (s & E & P);
    [vm_compute; reflexivity|]. apply andb_true_iff in P as [P1%bool_decide_eq_true P2%is_bad_spec]. eauto.
Qed.

(** Two cookies of one client, joined from two service circuits. *)
Definition join_twice : list lc_op :=
  [OpConnNew 1; OpConnNew 2; OpConnNew 3; OpCreate 1 5 100 true (some_cell 5);
   OpCreate 2 6 200 true (some_cell 6); OpCreate 3 9 300 true (some_cell 9);
   OpRelay 1 5 (establish (zeros 20)); OpRelay 1 5 (establish (1 :: zeros 19));
   OpRelay 2 6 (rendezvous (zeros 20)); OpRelay 3 9 (rendezvous (1 :: zeros 19));
   OpDestroy 1 5 1; OpCloseAll true].

(** RENDEZVOUS1 overwrites an existing partner without unlinking it. A client
    circuit with two cookies, joined from two service circuits, leaves the first
    service circuit pointing at it; once the client circuit is closed, the next
    cell on that service circuit reads freed memory. *)
Theorem join_twice_use_after_free :
  ∃ s : pool table, lc_run (λ _ _, true) join_twice empty_pool = Ret s ∧ g_heap s !! 100 = None ∧
    moor_relay_handle_relay (λ _ _, true) 2 6 (relay_cell true false OtherCommand) s = BadAccess 100.
Proof.
  destruct (run_test_spec (λ _ _, true) join_twice (λ s, bool_decide (g_heap s !! 100 = None) &&
    is_bad 100 (moor_relay_handle_relay (λ _ _, true) 2 6 (relay_cell true false OtherCommand) s)))
    as (s & E & P); [vm_compute; reflexivity|].
  apply andb_true_iff in P as [P1%bool_decide_eq_true P2%is_bad_spec]. eauto.
Qed.

(** CREATE with circuit id 0, then the connection goes away and its slot is reused. *)
Definition create_zero : list lc_op :=
  [OpConnNew 1; OpCreate 1 0 100 true (some_cell 0); OpTeardown 1 1; OpConnFree 1; OpCloseAll true;
   OpConnNew 1].

(** CREATE accepts circuit id 0, which the rest of the pool takes for a dead
    circuit: neither tearing the connection down nor closing frees it, its pointer
    to the connection is not cleared, and when the connection's slot is reused a
    cell with circuit id 0 from the new peer is handled by the old peer's circuit. *)
Theorem create_zero_survives :
  ∃ s : pool table, lc_run (λ _ _, true) create_zero empty_pool = Ret s ∧ g_circuits s = [100] ∧
    moor_circuit_find 0 1 s = Ret 100.
Proof.
  destruct (run_test_spec (λ _ _, true) create_zero (λ s, bool_decide (g_circuits s = [100]) &&
    match moor_circuit_find 0 1 s with Ret p => p =? 100 | _ => false end)) as (s & E & P);
    [vm_compute; reflexivity|]. apply andb_true_iff in P as [P1%bool_decide_eq_true P2].
  exists s. split_and!; [done..|]. destruct (moor_circuit_find 0 1 s); [|done..].
  by apply Z.eqb_eq in P2 as ->.
Qed.
