(* ===== verification/NumTheory.v ===== *)
(** * NumTheory: the prime 2^255 - 19

    The number theory behind the field arithmetic of [Field]: Pocklington's primality
    criterion, and with it a proof that 2^255 - 19 is prime. No code is modelled
    here. *)

From Stdlib Require Import Zdivisibility Zpow_facts Zmod.
From S2P Require Import Prelude.

Definition prod (l : list Z) : Z := foldr Z.mul 1 l.

(** ** Prime factors *)

Lemma prime_or_divisor n : 1 < n → Z.prime n ∨ ∃ d, 1 < d < n ∧ (d | n).
Proof.
  intros Hn. destruct (decide (Exists (λ d, n mod d = 0) (seqZ 2 (n - 2)))) as [He|He].
  - right. apply Exists_exists in He as (d & Hd%elem_of_seqZ & Hdn). exists d. split; [lia|].
    apply Z.mod_divide; [lia|done].
  - left. split; [done|]. intros d Hd Hdn. apply He, Exists_exists. exists d.
    split; [apply elem_of_seqZ; lia|]. apply Z.mod_divide; [lia|done].
Qed.

Lemma prime_divisor n : 1 < n → ∃ r, Z.prime r ∧ (r | n).
Proof.
  assert (H : ∀ m, 0 <= m → ∀ k, 1 < k <= m → ∃ r, Z.prime r ∧ (r | k)).
  { apply (natlike_ind (λ m, ∀ k, 1 < k <= m → ∃ r, Z.prime r ∧ (r | k))); [lia|].
    intros m Hm IH k Hk. destruct (prime_or_divisor k) as [Hp|(d & Hd & Hdk)]; [lia|..].
    - exists k. split; [done|apply Z.divide_refl].
    - destruct (IH d) as (r & Hr & Hrd); [lia|]. exists r. split; [done|by etrans]. }
  intros Hn. apply (H n); lia.
Qed.

(** A composite number has a prime factor up to its square root. *)
Lemma prime_or_small_factor n : 1 < n → Z.prime n ∨ ∃ r, Z.prime r ∧ (r | n) ∧ r * r <= n.
Proof.
  intros Hn. destruct (prime_or_divisor n Hn) as [?|(d & Hd & [e He])]; [by left|right].
  assert (Hm : ∃ m, 1 < m ∧ (m | n) ∧ m * m <= n).
  { destruct (Z.le_ge_cases d e).
    - exists d. split_and!; [lia|by exists e|nia].
    - exists e. split_and!; [nia|exists d; lia|nia]. }
  destruct Hm as (m & Hm1 & Hmn & Hmm). destruct (prime_divisor m Hm1) as (r & Hr & Hrm).
  exists r. split_and!; [done|by etrans|]. apply Z.divide_pos_le in Hrm; [|lia].
  apply Z.prime_ge_2 in Hr. nia.
Qed.

(** Trial division. *)
Definition no_divisor (n : Z) : bool := forallb (λ d, negb (n mod d =? 0)) (seqZ 2 (Z.sqrt n)).

Lemma trial_prime n : 1 < n → no_divisor n = true → Z.prime n.
Proof.
  intros Hn Ht. destruct (prime_or_small_factor n Hn) as [?|(r & Hr & Hrn & Hrr)]; [done|exfalso].
  apply Z.prime_ge_2 in Hr. unfold no_divisor in Ht. rewrite forallb_forall in Ht. specialize (Ht r).
  rewrite negb_true_iff, Z.eqb_neq in Ht. apply Ht.
  - apply list_elem_of_In, elem_of_seqZ. pose proof (Z.sqrt_le_square n r). lia.
  - apply Z.mod_divide; [lia|done].
Qed.

Lemma prime_prod r l : Z.prime r → (r | prod l) → ∃ x, x ∈ l ∧ (r | x).
Proof.
  intros Hr. induction l as [|x l IH]; cbn.
  - intros Hd. apply Z.divide_1_r_nonneg in Hd; apply Z.prime_ge_2 in Hr; lia.
  - intros [Hx|Hl]%(Z.divide_prime_mul _ _ r Hr); [exists x; split; [by left|done]|].
    destruct (IH Hl) as (y & Hy & Hd). exists y. split; [by right|done].
Qed.

Lemma prod_pos l : Forall Z.prime l → 0 < prod l.
Proof.
  unfold prod. induction 1 as [|q l Hq _ IH]; cbn [foldr]; [lia|]. apply Z.prime_ge_2 in Hq. nia.
Qed.

(** Distinct primes that divide a number do so together. *)
Lemma prod_divides l m : Forall Z.prime l → NoDup l → (∀ q, q ∈ l → (q | m)) → (prod l | m).
Proof.
  induction l as [|q l IH]; intros Hp Hn Hd; [apply Z.divide_1_l|].
  apply Forall_cons in Hp as [Hq Hp]. apply NoDup_cons in Hn as [Hql Hn].
  destruct (Hd q) as [k Hk]; [by left|]. cbn. rewrite Z.mul_comm, Hk. apply Z.mul_divide_mono_r.
  apply (Z.gauss _ q); [|].
  - rewrite Z.mul_comm, <- Hk. apply IH; [done..|]. intros x Hx. apply Hd. by right.
  - rewrite Z.gcd_comm. apply Z.coprime_prime_l; [done|]. intros H.
    destruct (prime_prod q l Hq H) as (x & Hx & Hqx). rewrite Forall_forall in Hp.
    apply (Z.divide_prime_prime q x Hq (Hp x Hx)) in Hqx as ->. done.
Qed.

(** ** Pocklington *)

Lemma pow_gcd a r : 1 < r → ∀ y, 0 <= y → ∀ x, 0 <= x →
  a ^ x mod r = 1 → a ^ y mod r = 1 → a ^ Z.gcd x y mod r = 1.
Proof.
  intros Hr. apply (Z_lt_induction (λ y, ∀ x, 0 <= x → a ^ x mod r = 1 → a ^ y mod r = 1 →
    a ^ Z.gcd x y mod r = 1)).
  intros y IH x Hx Ex Ey. destruct (Z.lt_trichotomy y 0) as [Hy|[->|Hy]].
  - rewrite Z.pow_neg_r in Ey by lia. rewrite Z.mod_0_l in Ey; lia.
  - by rewrite Z.gcd_0_r, Z.abs_eq by lia.
  - rewrite Z.gcd_comm, <- Z.gcd_mod, Z.gcd_comm by lia. pose proof (Z.mod_pos_bound x y Hy).
    assert (Hq : 0 <= x / y) by (apply Z.div_pos; lia). apply IH; [lia|lia|done|].
    rewrite (Z.div_mod x y), Z.pow_add_r, Z.pow_mul_r in Ex by nia.
    rewrite <- Z.mul_mod_idemp_l, <- Z.mod_pow_l, Ey, Z.pow_1_l in Ex by lia.
    rewrite (Z.mod_small 1) in Ex by lia. by rewrite Z.mul_1_l in Ex.
Qed.

Lemma mod_1_divide a n r : 1 < n → (r | n) → a mod n = 1 → (r | a - 1).
Proof.
  intros Hn Hr E. etrans; [done|]. apply Z.mod_divide; [lia|].
  rewrite Zminus_mod, E, (Z.mod_small 1), Z.sub_diag by lia. apply Z.mod_0_l. lia.
Qed.

(** [n - 1] has the prime factors [qs], whose product exceeds the root of [n]; 2 is
    a witness for each of them. *)
Definition pocklington_test (n : Z) (qs : list Z) : bool :=
  (1 <? n) && (n <? prod qs * prod qs) && (Zpow_mod 2 (n - 1) n =? 1) && bool_decide (NoDup qs) &&
  forallb (λ q, (0 <? q) && ((n - 1) mod q =? 0) && (Z.gcd (Zpow_mod 2 ((n - 1) / q) n - 1) n =? 1)) qs.

(** A prime factor of [n] is 1 modulo each of the [qs]. *)
Lemma pocklington_factor n q r :
  1 < n → 2 ^ (n - 1) mod n = 1 → Z.prime q → (q | n - 1) →
  Z.gcd (2 ^ ((n - 1) / q) mod n - 1) n = 1 → Z.prime r → (r | n) → (q | r - 1).
Proof.
  intros Hn H2 Hq [m Hm] Hg Hr Hrn. pose proof (Z.prime_ge_2 r Hr) as Hr2. pose proof (Z.prime_ge_2 q Hq) as Hq2.
  assert (Hmod : ∀ a, a mod n = 1 → a mod r = 1).
  { intros a Ha. pose proof (mod_1_divide a n r Hn Hrn Ha) as Hd. apply Z.mod_divide in Hd; [|lia].
    replace a with (a - 1 + 1) by ring. rewrite <- Z.add_mod_idemp_l, Hd by lia. apply Z.mod_small. lia. }
  assert (Hm0 : 0 <= m) by nia. rewrite Hm, Z.div_mul in Hg by lia.
  destruct (Z.BoolSpec_divide_nz q (r - 1)) as [?|Hnq]; [lia|done|exfalso].
  assert (Hd : (Z.gcd (n - 1) (r - 1) | m)).
  { apply (Z.gauss _ q); [rewrite Z.mul_comm, <- Hm; apply Z.gcd_divide_l|].
    rewrite Z.gcd_comm. apply Z.coprime_prime_l; [done|]. intros H'. apply Hnq. etrans; [done|apply Z.gcd_divide_r]. }
  assert (H1 : 2 ^ m mod r = 1).
  { destruct Hd as [k Hk]. pose proof (Z.gcd_nonneg (n - 1) (r - 1)) as Hg0.
    assert (Hk0 : 0 <= k) by (destruct (Z.eq_dec m 0); nia).
    rewrite Hk, Z.mul_comm, Z.pow_mul_r, <- Z.mod_pow_l by lia.
    rewrite pow_gcd; [rewrite Z.pow_1_l by lia; apply Z.mod_small; lia|lia..| |].
    - by apply Hmod.
    - apply Z.fermat_nz; [done|]. intros H0. apply Z.mod_divide in H0; [|lia].
      apply Hmod in H2. assert (H3 : 2 ^ (n - 1) mod r = 0); [|lia]. apply Z.mod_divide; [lia|].
      replace (n - 1) with (Z.succ (n - 2)) by lia. rewrite Z.pow_succ_r by lia. by apply Z.divide_mul_l. }
  assert (Hr1 : (r | 1)).
  { rewrite <- Hg. apply Z.gcd_greatest; [|done].
    replace (2 ^ m mod n - 1) with (2 ^ m - 1 - n * (2 ^ m / n)) by (rewrite Z.mod_eq; lia).
    apply Z.divide_sub_r; [by apply (mod_1_divide _ r); [lia|apply Z.divide_refl|]|]. by apply Z.divide_mul_l. }
  apply Z.divide_1_r_nonneg in Hr1; lia.
Qed.

Lemma pocklington n qs : Forall Z.prime qs → pocklington_test n qs = true → Z.prime n.
Proof.
  unfold pocklington_test. rewrite !andb_true_iff, forallb_forall. intros Hqs [[[[Hn Hs] H2] Hnd] Hf].
  apply Z.ltb_lt in Hn, Hs. apply Z.eqb_eq in H2. apply bool_decide_eq_true in Hnd.
  rewrite Zpow_mod_correct in H2 by lia.
  destruct (prime_or_small_factor n Hn) as [?|(r & Hr & Hrn & Hrr)]; [done|exfalso].
  assert (Hd : (prod qs | r - 1)).
  { apply prod_divides; [done..|]. intros q Hq. rewrite Forall_forall in Hqs.
    specialize (Hf q (proj1 (list_elem_of_In _ _) Hq)). rewrite !andb_true_iff in Hf.
    destruct Hf as [[Hq0%Z.ltb_lt Hqn%Z.eqb_eq] Hg%Z.eqb_eq].
    rewrite Zpow_mod_correct in Hg by lia. apply (pocklington_factor n q r); auto.
    apply Z.mod_divide; [lia|done]. }
  pose proof (Z.prime_ge_2 r Hr). apply Z.divide_pos_le in Hd; [|lia].
  pose proof (prod_pos qs Hqs). nia.
Qed.

(** ** The prime *)

(** The number is prime by the factors [qs] of its predecessor, which the database
    knows or which are small. *)
Create HintDb primes.

Ltac prime_by qs :=
  apply (pocklington _ qs); [|vm_compute; reflexivity];
  repeat (apply Forall_cons; split); [..|apply Forall_nil];
  first [solve [eauto 1 with primes] | apply trial_prime; [done|vm_compute; reflexivity]].

Lemma prime_8574133 : Z.prime 8574133.
Proof. prime_by [991; 103]. Qed.
#[local] Hint Resolve prime_8574133 : primes.

Lemma prime_1919519569386763 : Z.prime 1919519569386763.
Proof. prime_by [8574133; 127]. Qed.
#[local] Hint Resolve prime_1919519569386763 : primes.

Lemma prime_2773320623 : Z.prime 2773320623.
Proof. prime_by [569003]. Qed.
#[local] Hint Resolve prime_2773320623 : primes.

Lemma prime_72106336199 : Z.prime 72106336199.
Proof. prime_by [2773320623]. Qed.
#[local] Hint Resolve prime_72106336199 : primes.

Lemma prime_31757755568855353 : Z.prime 31757755568855353.
Proof. prime_by [430751; 4153]. Qed.
#[local] Hint Resolve prime_31757755568855353 : primes.

Lemma prime_116_bits : Z.prime 75445702479781427272750846543864801.
Proof. prime_by [1919519569386763; 72106336199]. Qed.
#[local] Hint Resolve prime_116_bits : primes.

Lemma prime_236_bits :
  Z.prime 74058212732561358302231226437062788676166966415465897661863160754340907.
Proof. prime_by [75445702479781427272750846543864801; 31757755568855353]. Qed.
#[local] Hint Resolve prime_236_bits : primes.

Definition p25519 : Z := 2 ^ 255 - 19.

Lemma prime_p25519 : Z.prime p25519.
Proof. prime_by [74058212732561358302231226437062788676166966415465897661863160754340907]. Qed.
