(* ===== verification/Field.v ===== *)
(** * Field: arithmetic modulo 2^255 - 19

    Models the field arithmetic of [src/src/elligator2.c]: elements are sixteen
    [int64_t] limbs of about 16 bits, with every 64-bit operation and its wrap-around
    written out ([s64]).

    The lemmas show that on limbs of bounded size nothing wraps and the operations
    are the field's; that [fe_tobytes] gives the canonical encoding except for
    representations within 19 of 2^256, for which its result is listed; and that the
    three exponentiation chains compute the powers their comments claim. *)

From Stdlib Require Import Zdivisibility Zpow_facts Zmod.
From S2P Require Import Prelude NumTheory.

(** ** The code *)

(** [typedef int64_t fe[16]] *)
Abbreviation fe := (list Z).

Definition FE_ZERO : fe := replicate 16 0.
Definition FE_ONE : fe := 1 :: replicate 15 0.
Definition FE_TWO : fe := 2 :: replicate 15 0.
Definition FE_A : fe := [0x6d06; 0x07] ++ replicate 14 0.
Definition FE_SQRTM1 : fe :=
  [0xa0b0; 0x4a0e; 0x1b27; 0xc4ee; 0xe478; 0xad2f; 0x1806; 0x2f43;
   0xd7a7; 0x3dfb; 0x0099; 0x2b4d; 0xdf0b; 0x4fc1; 0x2480; 0x2b83].

(** [out[i] = s[2*i] | (s[2*i+1] << 8)] *)
Fixpoint load_limbs (s : bytes) : fe :=
  match s with a :: b :: s => Z.lor a (Z.shiftl b 8) :: load_limbs s | _ => [] end.

Definition fe_frombytes (s : bytes) : fe := alter (λ x, Z.land x 0x7fff) 15%nat (load_limbs s).

(** One pass over the limbs with a carry; the carry out of the last limb is
    returned. *)
Fixpoint carry_loop (c : Z) (h : fe) : fe * Z :=
  match h with
  | [] => ([], c)
  | x :: h =>
      let x := s64 (x + c) in
      let carry := Z.shiftr x 16 in
      let '(h, c) := carry_loop carry h in
      (s64 (x - s64 (Z.shiftl carry 16)) :: h, c)
  end.

Definition fe_carry (h : fe) : fe :=
  let '(h, c) := carry_loop 0 h in alter (λ x, s64 (x + s64 (c * 38))) 0%nat h.

(** [t[i+1] += t[i] >> 16; t[i] &= 0xffff] for the first limbs; the last one is left
    as it is. *)
Fixpoint mask_loop (c : Z) (t : fe) : fe :=
  match t with
  | [] => []
  | [x] => [s64 (x + c)]
  | x :: t => let x := s64 (x + c) in Z.land x 0xffff :: mask_loop (Z.shiftr x 16) t
  end.

Definition cond_select (mask : Z) (h t : fe) : fe :=
  zip_with (λ x y, Z.lxor x (Z.land mask (Z.lxor x y))) h t.

(** A round of the conditional subtraction of p. *)
Definition sub_round (h : fe) : fe :=
  let t := mask_loop 19 h in
  let mask := s64 (- Z.shiftr (nth 15 t 0) 15) in
  cond_select mask h (alter (λ x, Z.land x 0x7fff) 15%nat t).

Definition store_limbs (h : fe) : bytes := h ≫= λ x, [u8 x; u8 (Z.shiftr x 8)].

Definition fe_tobytes (h : fe) : bytes :=
  store_limbs (sub_round (sub_round (fe_carry (fe_carry (fe_carry h))))).

Definition fe_add (a b : fe) : fe := zip_with (λ x y, s64 (x + y)) a b.
Definition fe_sub (a b : fe) : fe := zip_with (λ x y, s64 (x - y)) a b.
Definition fe_neg (a : fe) : fe := fe_sub FE_ZERO a.

(** [t[i+j] += a[i] * b[j]] for one [i]; [t] starts at index [i]. *)
Fixpoint mul_row (x : Z) (b t : fe) : fe :=
  match b, t with
  | y :: b, z :: t => s64 (z + s64 (x * y)) :: mul_row x b t
  | _, _ => t
  end.

Fixpoint mul_rows (a b t : fe) : fe :=
  match a with
  | [] => t
  | x :: a => match mul_row x b t with [] => [] | z :: t => z :: mul_rows a b t end
  end.

(** [t[i-16] += t[i] * 38] *)
Fixpoint fold_38 (lo hi : fe) : fe :=
  match lo, hi with
  | x :: lo, y :: hi => s64 (x + s64 (y * 38)) :: fold_38 lo hi
  | _, _ => lo
  end.

Definition fe_mul (a b : fe) : fe :=
  let t := mul_rows a b (replicate 31 0) in
  fe_carry (fe_carry (fold_38 (take 16 t) (drop 16 t))).

Definition fe_sq (a : fe) : fe := fe_mul a a.

(** [fe_sq(t, t)], [n] times. *)
Definition fe_sqn (n : nat) (a : fe) : fe := Nat.iter n fe_sq a.

Definition fe_inv (a : fe) : fe :=
  let t0 := fe_sq a in
  let t1 := fe_sqn 2 t0 in
  let t1 := fe_mul a t1 in
  let t0 := fe_mul t0 t1 in
  let t2 := fe_sq t0 in
  let t1 := fe_mul t1 t2 in
  let t2 := fe_sqn 5 t1 in
  let t1 := fe_mul t2 t1 in
  let t2 := fe_sqn 10 t1 in
  let t2 := fe_mul t2 t1 in
  let t3 := fe_sqn 20 t2 in
  let t2 := fe_mul t3 t2 in
  let t2 := fe_sqn 10 t2 in
  let t1 := fe_mul t2 t1 in
  let t2 := fe_sqn 50 t1 in
  let t2 := fe_mul t2 t1 in
  let t3 := fe_sqn 100 t2 in
  let t2 := fe_mul t3 t2 in
  let t2 := fe_sqn 50 t2 in
  let t1 := fe_mul t2 t1 in
  let t1 := fe_sqn 5 t1 in
  fe_mul t1 t0.

(** The common part of [fe_pow_p38] and [fe_legendre]: [a^2] and [a^(2^250 - 1)]. *)
Definition chain_250 (a : fe) : fe * fe :=
  let a2 := fe_sq a in
  let t0 := fe_sqn 2 a2 in
  let t0 := fe_mul a t0 in
  let t1 := fe_mul a2 t0 in
  let t1 := fe_sq t1 in
  let t0 := fe_mul t0 t1 in
  let t1 := fe_sqn 5 t0 in
  let t0 := fe_mul t1 t0 in
  let t1 := fe_sqn 10 t0 in
  let t1 := fe_mul t1 t0 in
  let t2 := fe_sqn 20 t1 in
  let t1 := fe_mul t2 t1 in
  let t1 := fe_sqn 10 t1 in
  let t0 := fe_mul t1 t0 in
  let t1 := fe_sqn 50 t0 in
  let t1 := fe_mul t1 t0 in
  let t2 := fe_sqn 100 t1 in
  let t1 := fe_mul t2 t1 in
  let t1 := fe_sqn 50 t1 in
  (a2, fe_mul t1 t0).

Definition fe_pow_p38 (a : fe) : fe :=
  let '(a2, t0) := chain_250 a in
  let t0 := fe_sqn 2 t0 in
  fe_mul t0 a2.

Definition fe_legendre (a : fe) : fe :=
  let '(a2, t0) := chain_250 a in
  let t0 := fe_sqn 4 t0 in
  let a4 := fe_sq a2 in
  let a6 := fe_mul a4 a2 in
  fe_mul t0 a6.

(** [sodium_is_zero(s, 32)] *)
Definition fe_iszero (a : fe) : bool := forallb (Z.eqb 0) (fe_tobytes a).

(** [1 & ((d - 1) >> 8)], with [d] the byte that collects what differs from one. *)
Definition fe_isone (a : fe) : bool :=
  match fe_tobytes a with
  | [] => false
  | s0 :: s =>
      let d := fold_left Z.lor s (Z.lxor s0 1) in
      negb (Z.land 1 (Z.shiftr (d - 1) 8) =? 0)
  end.

Definition half_bytes : bytes := [0xf6] ++ replicate 30 0xff ++ [0x3f].

(** The loop over the bytes from the last to the first, on [unsigned]. *)
Definition gt_step (st : Z * Z) (b : Z * Z) : Z * Z :=
  let '(gt, lt) := st in
  let '(si, hi) := b in
  let d_gt := Z.shiftr (u32 (hi - si)) 8 in
  let d_lt := Z.shiftr (u32 (si - hi)) 8 in
  let undecided := u32 (1 - Z.lor gt lt) in
  (Z.lor gt (Z.land d_gt undecided), Z.lor lt (Z.land d_lt undecided)).

Definition fe_gt_half (a : fe) : bool :=
  let '(gt, _) := fold_left gt_step (reverse (zip (fe_tobytes a) half_bytes)) (0, 0) in
  negb (Z.land gt 1 =? 0).

Definition fe_cmov (out a : fe) (c : bool) : fe := cond_select (if c then -1 else 0) out a.

(** The root, and whether there is one. *)
Definition fe_sqrt_least (a : fe) : fe * bool :=
  let c := fe_pow_p38 a in
  let c2 := fe_sq c in
  let eq_a := fe_iszero (fe_sub c2 a) in
  let eq_neg_a := fe_iszero (fe_sub c2 (fe_neg a)) in
  let c := fe_cmov c (fe_mul c FE_SQRTM1) eq_neg_a in
  let c := fe_cmov c (fe_neg c) (fe_gt_half c) in
  (c, eq_a || eq_neg_a).

(** ** Values of limbs *)

Fixpoint fe_val (h : fe) : Z := match h with [] => 0 | x :: h => x + 2 ^ 16 * fe_val h end.

(** The limb count and a bound on the limbs. *)
Definition limbs (n : nat) (B : Z) (h : fe) : Prop := length h = n ∧ Forall (λ x, - B <= x <= B) h.

Definition in_range (h : fe) : Prop := Forall (λ x, 0 <= x < 2 ^ 16) h.

Lemma fe_val_app h k : fe_val (h ++ k) = fe_val h + 2 ^ (16 * Z.of_nat (length h)) * fe_val k.
Proof.
  induction h as [|x h IH]; [cbn [app fe_val length]; lia|]. cbn [app fe_val length]. rewrite IH.
  replace (16 * Z.of_nat (S (length h))) with (16 + 16 * Z.of_nat (length h)) by lia.
  rewrite Z.pow_add_r by lia. ring.
Qed.

Lemma fe_val_bound n B h :
  limbs n B h → 0 <= B → Z.abs (fe_val h) * (2 ^ 16 - 1) <= B * (2 ^ (16 * Z.of_nat n) - 1).
Proof.
  intros [<- H] HB. induction H as [|x h Hx _ IH]; [cbn; lia|]. cbn [fe_val length].
  replace (16 * Z.of_nat (S (length h))) with (16 + 16 * Z.of_nat (length h)) by lia.
  rewrite Z.pow_add_r by lia. lia.
Qed.

Lemma in_range_val h : in_range h → 0 <= fe_val h < 2 ^ (16 * Z.of_nat (length h)).
Proof.
  induction 1 as [|x h Hx _ IH]; [done|]. cbn [fe_val length].
  replace (16 * Z.of_nat (S (length h))) with (16 + 16 * Z.of_nat (length h)) by lia.
  rewrite Z.pow_add_r by lia. lia.
Qed.

Lemma in_range_inj h k : in_range h → in_range k → length h = length k → fe_val h = fe_val k → h = k.
Proof.
  intros Hh. revert k. induction Hh as [|x h Hx _ IH]; intros k Hk Hl Hv; [by destruct k|].
  destruct k as [|y k]; [done|]. apply Forall_cons in Hk as [Hy Hk]. cbn [fe_val] in Hv.
  injection Hl as Hl. assert (x = y) by lia. subst y. f_equal. apply IH; [done..|lia].
Qed.

(** ** Carrying *)

Lemma carry_loop_spec h : ∀ c n B,
  limbs n B h → - B <= c <= B → 2 <= B <= 2 ^ 61 →
  ∃ h' c', carry_loop c h = (h', c') ∧ length h' = n ∧ in_range h' ∧
    fe_val h' + 2 ^ (16 * Z.of_nat n) * c' = fe_val h + c.
Proof.
  induction h as [|x h IH]; intros c n B [Hn Hb] Hc HB; cbn [carry_loop].
  { exists [], c. split_and!; [done..|constructor|]. cbn in Hn. subst n. cbn. lia. }
  apply Forall_cons in Hb as [Hx Hb]. destruct n as [|n]; [done|]. injection Hn as Hn. cbv zeta.
  rewrite (s64_small (x + c)) by lia. rewrite Z.shiftr_div_pow2 by lia.
  set (q := (x + c) / 2 ^ 16).
  assert (Hq : 2 ^ 16 * q <= x + c < 2 ^ 16 * q + 2 ^ 16).
  { unfold q. pose proof (Z.div_mod (x + c) (2 ^ 16)). pose proof (Z.mod_pos_bound (x + c) (2 ^ 16)). lia. }
  clearbody q. destruct (IH q n B) as (h' & c' & E & Hl & Hr & Hv); [done|lia|done|].
  rewrite E. rewrite Z.shiftl_mul_pow2 by lia. rewrite (s64_small (q * 2 ^ 16)), s64_small by lia.
  eexists _, c'. split; [done|]. split_and!; [cbn; lia|constructor; [lia|done]|].
  cbn [fe_val]. replace (16 * Z.of_nat (S n)) with (16 + 16 * Z.of_nat n) by lia.
  rewrite Z.pow_add_r by lia. lia.
Qed.

Lemma fe_carry_spec B h :
  limbs 16 B h → 2 <= B <= 2 ^ 56 →
  ∃ x r c, fe_carry h = x + 38 * c :: r ∧ length r = 15%nat ∧ in_range (x :: r) ∧
    fe_val (x :: r) + 2 ^ 256 * c = fe_val h ∧ - B <= c <= B.
Proof.
  intros Hb HB. unfold fe_carry. destruct (carry_loop_spec h 0 16 B) as (h' & c & -> & Hl & Hr & Hv); [done|lia..|].
  destruct h' as [|x r]; [done|]. injection Hl as Hl. exists x, r, c.
  pose proof (in_range_val _ Hr) as Hval. cbn [length] in Hval. rewrite Hl in Hval.
  pose proof (fe_val_bound 16 B h Hb). change (16 * Z.of_nat 16) with 256 in *.
  assert (Hc : - B <= c <= B) by lia. pose proof Hr as [Hx _]%Forall_cons.
  cbn [alter list_alter]. rewrite (s64_small (c * 38)), s64_small by lia.
  split_and!; [f_equal; lia|done..|lia|lia|lia].
Qed.

(** The carry out of the last limb comes back as 38: the value is kept modulo p. *)
Abbreviation Fp := (Zmod p25519).
Definition el (h : fe) : Fp := Zmod.of_Z p25519 (fe_val h).

Lemma of_Z_256 a c : Zmod.of_Z p25519 (a + 38 * c) = Zmod.of_Z p25519 (a + 2 ^ 256 * c).
Proof.
  apply Zmod.of_Z_inj. replace (a + 2 ^ 256 * c) with (a + 38 * c + (2 * c) * p25519) by (unfold p25519; ring).
  by rewrite Z.mod_add.
Qed.

Lemma carry_el B h : limbs 16 B h → 2 <= B <= 2 ^ 56 → el (fe_carry h) = el h.
Proof.
  intros Hb HB. destruct (fe_carry_spec B h Hb HB) as (x & r & c & -> & _ & _ & Hv & _). unfold el.
  cbn [fe_val] in *. rewrite <- Hv. rewrite <- of_Z_256. f_equal. ring.
Qed.

(** All limbs in range but the first, which is off by at most [38 * C]. *)
Definition almost (C : Z) (h : fe) : Prop :=
  ∃ x r c, h = x + 38 * c :: r ∧ length r = 15%nat ∧ in_range (x :: r) ∧ - C <= c <= C.

Lemma almost_limbs C h : almost C h → 0 <= C → limbs 16 (2 ^ 16 + 38 * C) h.
Proof.
  intros (x & r & c & -> & Hl & [Hx Hr]%Forall_cons & Hc) HC. split; [cbn; lia|].
  constructor; [lia|]. eapply Forall_impl; [done|]. cbv beta. lia.
Qed.

Lemma carry_almost B h : limbs 16 B h → 2 <= B <= 2 ^ 56 → almost B (fe_carry h).
Proof.
  intros Hb HB. destruct (fe_carry_spec B h Hb HB) as (x & r & c & -> & Hl & Hr & _ & Hc).
  by exists x, r, c.
Qed.

Lemma almost_val C h : almost C h → - 38 * C <= fe_val h < 2 ^ 256 + 38 * C.
Proof.
  intros (x & r & c & -> & Hl & Hr & Hc). pose proof (in_range_val _ Hr) as H. cbn [length] in H.
  rewrite Hl in H. change (16 * Z.of_nat 16) with 256 in H. cbn [fe_val] in *. lia.
Qed.

(** A second pass leaves at most 38 in excess, *)
Lemma carry_almost_1 C h : almost C h → 0 <= C <= 2 ^ 50 → almost 1 (fe_carry h).
Proof.
  intros Ha HC. pose proof (almost_val C h Ha) as Hval.
  destruct (fe_carry_spec (2 ^ 16 + 38 * C) h) as (x & r & c & -> & Hl & Hr & Hv & _);
    [by apply almost_limbs; [|lia]|lia|].
  exists x, r, c. split_and!; [done..| |]; pose proof (in_range_val _ Hr) as H; cbn [length] in H;
    rewrite Hl in H; change (16 * Z.of_nat 16) with 256 in H; lia.
Qed.

(** and a third one none. *)
Lemma carry_in_range h : almost 1 h → in_range (fe_carry h) ∧ length (fe_carry h) = 16%nat.
Proof.
  intros Ha. pose proof (almost_val 1 h Ha) as Hval.
  destruct (fe_carry_spec (2 ^ 16 + 38 * 1) h) as (x & r & c & -> & Hl & Hr & Hv & _);
    [by apply almost_limbs|lia|].
  pose proof (in_range_val _ Hr) as H. cbn [length] in H. rewrite Hl in H.
  change (16 * Z.of_nat 16) with 256 in H. split; [|cbn; lia].
  apply Forall_cons in Hr as [Hx Hr]. pose proof (in_range_val _ Hr) as H'. rewrite Hl in H'.
  change (16 * Z.of_nat 15) with 240 in H'. cbn [fe_val] in *. constructor; [|done].
  assert (c = -1 ∨ c = 0 ∨ c = 1) as [->|[->| ->]] by lia; lia.
Qed.

(** ** Adding and multiplying *)

Lemma zip_limbs (f : Z → Z → Z) σ B C a b :
  (∀ x y, f x y = s64 (x + σ * y)) → σ = 1 ∨ σ = -1 →
  limbs 16 B a → limbs 16 C b → 0 <= B <= 2 ^ 60 → 0 <= C <= 2 ^ 60 →
  limbs 16 (B + C) (zip_with f a b) ∧ fe_val (zip_with f a b) = fe_val a + σ * fe_val b.
Proof.
  intros Hf Hσ [Ha Fa] [Hb Fb] HB HC. assert (Hl : length a = length b) by congruence.
  assert (H : Forall (λ x, - (B + C) <= x <= B + C) (zip_with f a b) ∧
    fe_val (zip_with f a b) = fe_val a + σ * fe_val b).
  { clear Ha Hb. revert b Fb Hl. induction Fa as [|x a Hx _ IH]; intros b Fb Hl; [destruct b; [by split; [|cbn; lia]|done]|].
    destruct b as [|y b]; [done|]. apply Forall_cons in Fb as [Hy Fb]. injection Hl as Hl.
    destruct (IH b Fb Hl) as [IH1 IH2]. cbn [zip_with fe_val]. rewrite Hf, s64_small by lia.
    split; [constructor; [lia|done]|lia]. }
  destruct H. split; [split; [by rewrite length_zip_with, Ha, Hb|done]|done].
Qed.

Lemma fe_add_spec B C a b :
  limbs 16 B a → limbs 16 C b → 0 <= B <= 2 ^ 60 → 0 <= C <= 2 ^ 60 →
  limbs 16 (B + C) (fe_add a b) ∧ el (fe_add a b) = Zmod.add (el a) (el b).
Proof.
  intros Ha Hb HB HC. destruct (zip_limbs (λ x y, s64 (x + y)) 1 B C a b) as [? Hv]; [intros; f_equal; lia|by left|done..|].
  split; [done|]. unfold el. rewrite <- Zmod.of_Z_add. f_equal. unfold fe_add. lia.
Qed.

Lemma fe_sub_spec B C a b :
  limbs 16 B a → limbs 16 C b → 0 <= B <= 2 ^ 60 → 0 <= C <= 2 ^ 60 →
  limbs 16 (B + C) (fe_sub a b) ∧ el (fe_sub a b) = Zmod.sub (el a) (el b).
Proof.
  intros Ha Hb HB HC. destruct (zip_limbs (λ x y, s64 (x - y)) (-1) B C a b) as [? Hv]; [intros; f_equal; lia|by right|done..|].
  split; [done|]. unfold el. rewrite <- Zmod.of_Z_sub. f_equal. unfold fe_sub. lia.
Qed.

Lemma mul_row_spec x b : ∀ t n M P,
  limbs n M t → (length b <= n)%nat → Forall (λ y, - P <= x * y <= P) b →
  0 <= M → 0 <= P → M + P <= 2 ^ 62 →
  limbs n (M + P) (mul_row x b t) ∧ fe_val (mul_row x b t) = fe_val t + x * fe_val b.
Proof.
  induction b as [|y b IH]; intros t n M P [Ht Ft] Hl Hb HM HP HMP.
  { replace (mul_row x [] t) with t by (by destruct t). split; [split; [done|]|cbn; lia].
    eapply Forall_impl; [exact Ft|]. cbv beta. intros z Hz. lia. }
  destruct t as [|z t]; cbn [length] in *; [lia|]. destruct n as [|n]; [lia|].
  apply Forall_cons in Ft as [Hz Ft]. apply Forall_cons in Hb as [Hy Hb].
  destruct (IH t n M P) as [[IH1 IH2] IH3]; [split; [lia|done]|lia|done..|].
  cbn [mul_row fe_val]. rewrite (s64_small (x * y)), s64_small by lia.
  split; [split; [cbn; lia|constructor; [lia|done]]|]. rewrite IH3. ring.
Qed.

Lemma mul_rows_spec a b : ∀ t n M P,
  limbs n M t → (length a + length b <= S n)%nat → (0 < length b)%nat →
  (∀ x y, x ∈ a → y ∈ b → - P <= x * y <= P) → 0 <= M → 0 <= P →
  M + Z.of_nat (length a) * P <= 2 ^ 62 →
  limbs n (M + Z.of_nat (length a) * P) (mul_rows a b t) ∧
  fe_val (mul_rows a b t) = fe_val t + fe_val a * fe_val b.
Proof.
  induction a as [|x a IH]; intros t n M P Ht Hl Hlb Hxy HM HP HMP; cbn [mul_rows].
  { cbn [length fe_val]. rewrite Z.mul_0_l, Z.add_0_r. split; [done|lia]. }
  cbn [length] in *. rewrite Nat2Z.inj_succ in HMP |- *.
  destruct (mul_row_spec x b t n M P Ht) as [[Hl1 F1] Hv]; [lia| |done|done|lia|].
  { apply Forall_forall. intros y Hy. apply Hxy; [by left|done]. }
  destruct (mul_row x b t) as [|z t']; [cbn in Hl1; lia|]. destruct n as [|n]; [lia|].
  apply Forall_cons in F1 as [Hz F1]. destruct (IH t' n (M + P) P) as [[Hl2 F2] Hv2];
    [split; [by injection Hl1|done]|lia|done|intros; apply Hxy; [by right|done]|lia..|].
  cbn [fe_val] in *. split; [split; [cbn; lia|constructor; [nia|]]|lia].
  eapply Forall_impl; [done|]. cbv beta. lia.
Qed.

Lemma fold_38_spec lo : ∀ hi B,
  Forall (λ x, - B <= x <= B) lo → Forall (λ x, - B <= x <= B) hi → (length hi <= length lo)%nat →
  0 <= B <= 2 ^ 55 →
  limbs (length lo) (39 * B) (fold_38 lo hi) ∧ fe_val (fold_38 lo hi) = fe_val lo + 38 * fe_val hi.
Proof.
  induction lo as [|x lo IH]; intros hi B Fl Fh Hl HB.
  { destruct hi; [by repeat split|cbn in Hl; lia]. }
  apply Forall_cons in Fl as [Hx Fl]. destruct hi as [|y hi]; cbn [fold_38 fe_val].
  - split; [split; [done|constructor; [lia|]]|lia]. eapply Forall_impl; [done|]. cbv beta. lia.
  - apply Forall_cons in Fh as [Hy Fh]. destruct (IH hi B) as [[Hl1 F1] Hv]; [done..|cbn in Hl; lia|done|].
    rewrite (s64_small (y * 38)), s64_small by lia. rewrite Hv.
    split; [split; [cbn; lia|constructor; [lia|done]]|lia].
Qed.

(** Limbs of at most 20 bits. *)
Abbreviation loose := (limbs 16 (2 ^ 20)).
(** What a multiplication returns. *)
Abbreviation tight := (limbs 16 (2 ^ 17)).

(** Multiplication is multiplication in the field, without overflow. *)
Lemma fe_mul_spec a b : loose a → loose b → almost 1 (fe_mul a b) ∧ el (fe_mul a b) = Zmod.mul (el a) (el b).
Proof.
  intros [Ha Fa] [Hb Fb]. unfold fe_mul. cbv zeta.
  destruct (mul_rows_spec a b (replicate 31 0) 31 0 (2 ^ 40)) as [[Hl F] Hv].
  { split; [done|]. apply Forall_replicate. lia. }
  { rewrite Ha, Hb. lia. }
  { rewrite Hb. lia. }
  { intros x y Hx Hy. rewrite Forall_forall in Fa, Fb. specialize (Fa x Hx). specialize (Fb y Hy). cbv beta in *. nia. }
  { lia. } { lia. } { rewrite Ha. lia. }
  set (t := mul_rows a b (replicate 31 0)) in *. rewrite Ha in F. change (0 + Z.of_nat 16 * 2 ^ 40) with (2 ^ 44) in F.
  assert (Hlo : length (take 16 t) = 16%nat) by (rewrite length_take; lia).
  destruct (fold_38_spec (take 16 t) (drop 16 t) (2 ^ 44)) as [Hf Hfv];
    [by apply Forall_take|by apply Forall_drop|rewrite Hlo, length_drop; lia|lia|].
  rewrite Hlo in Hf. pose proof (carry_almost _ _ Hf ltac:(lia)) as H1.
  split; [by eapply carry_almost_1; [done|lia]|].
  rewrite (carry_el (2 ^ 16 + 38 * (39 * 2 ^ 44))), (carry_el (39 * 2 ^ 44)); [|done|lia|by apply almost_limbs; [|lia]|lia].
  unfold el. rewrite Hfv, of_Z_256, <- Zmod.of_Z_mul. f_equal.
  pose proof (fe_val_app (take 16 t) (drop 16 t)) as E. rewrite take_drop, Hlo in E.
  change (16 * Z.of_nat 16) with 256 in E. rewrite <- E, Hv.
  change (fe_val (replicate 31 0)) with 0. lia.
Qed.

(** ** Bytes *)

(** The limbs of a number. *)
Fixpoint digits (n : nat) (v : Z) : fe :=
  match n with O => [] | S n => v mod 2 ^ 16 :: digits n (v / 2 ^ 16) end.

Lemma digits_range n v : in_range (digits n v).
Proof.
  revert v. induction n as [|n IH]; intros v; [constructor|]. cbn [digits].
  constructor; [apply Z.mod_pos_bound; lia|apply IH].
Qed.

Lemma length_digits n v : length (digits n v) = n.
Proof. revert v. induction n as [|n IH]; intros v; cbn; [done|by rewrite IH]. Qed.

Lemma digits_val n v : 0 <= v < 2 ^ (16 * Z.of_nat n) → fe_val (digits n v) = v.
Proof.
  revert v. induction n as [|n IH]; intros v Hv; [cbn in *; lia|]. cbn [digits fe_val].
  replace (16 * Z.of_nat (S n)) with (16 + 16 * Z.of_nat n) in Hv by lia. rewrite Z.pow_add_r in Hv by lia.
  rewrite IH; [pose proof (Z.div_mod v (2 ^ 16)); lia|]. split; [apply Z.div_pos; lia|].
  apply Z.div_lt_upper_bound; lia.
Qed.

Lemma digits_of h : in_range h → digits (length h) (fe_val h) = h.
Proof.
  intros Hr. apply in_range_inj; [apply digits_range|done|apply length_digits|].
  by apply digits_val, in_range_val.
Qed.

Lemma le_put_S n v : le_put (S n) v = u8 v :: le_put n (Z.shiftr v 8).
Proof.
  unfold le_put. cbn [seq map]. f_equal.
  rewrite <- seq_shift, map_map. apply map_ext. intros i. rewrite Z.shiftr_shiftr by lia. do 2 f_equal. lia.
Qed.

Lemma store_limbs_spec n : ∀ v, store_limbs (digits n v) = le_put (n + n) v.
Proof.
  induction n as [|n IH]; intros v; [done|]. unfold store_limbs. cbn [digits]. rewrite bind_cons.
  change (digits n (v / 2 ^ 16) ≫= _) with (store_limbs (digits n (v / 2 ^ 16))). rewrite IH.
  replace (S n + S n)%nat with (S (S (n + n))) by lia. rewrite !le_put_S, Z.shiftr_shiftr by lia.
  change (8 + 8) with 16. rewrite (Z.shiftr_div_pow2 v 16) by lia. cbn [app]. f_equal; [|f_equal].
  - unfold u8. apply Z.mod_mod_divide. by exists (2 ^ 8).
  - unfold u8. rewrite !Z.shiftr_div_pow2 by lia. change (2 ^ 16) with (2 ^ 8 * 2 ^ 8).
    rewrite Z.rem_mul_r by lia. rewrite (Z.mul_comm (2 ^ 8) ((v / 2 ^ 8) mod 2 ^ 8)), Z.div_add by lia.
    rewrite Z.div_small, Z.add_0_l by (apply Z.mod_pos_bound; lia). apply Z.mod_mod. lia.
Qed.

Lemma load_store h : in_range h → load_limbs (store_limbs h) = h.
Proof.
  induction 1 as [|x h Hx _ IH]; [done|]. unfold store_limbs. rewrite bind_cons. cbn [app load_limbs].
  change (h ≫= _) with (store_limbs h). rewrite IH. f_equal. unfold u8.
  rewrite Z.lor_comm, shiftl_lor_add by (first [lia|apply Z.mod_pos_bound; lia]).
  rewrite Z.shiftr_div_pow2 by lia. rewrite (Z.mod_small (x / 2 ^ 8)).
  - pose proof (Z.div_mod x (2 ^ 8)). lia.
  - split; [apply Z.div_pos; lia|]. apply Z.div_lt_upper_bound; lia.
Qed.

(** ** The conditional subtraction *)

Lemma land_mask n x : 0 <= n → Z.land x (2 ^ n - 1) = x mod 2 ^ n.
Proof. intros Hn. rewrite Z.sub_1_r, <- Z.ones_equiv. by apply Z.land_ones. Qed.

Lemma mask_loop_spec h : ∀ c, in_range h → h ≠ [] → 0 <= c <= 19 →
  ∃ t x, mask_loop c h = t ++ [x] ∧ in_range t ∧ 0 <= x <= 2 ^ 16 + 19 ∧ length h = S (length t) ∧
    fe_val (t ++ [x]) = fe_val h + c.
Proof.
  induction h as [|x h IH]; intros c Hr Hne Hc; [done|]. apply Forall_cons in Hr as [Hx Hr].
  destruct h as [|y h].
  { exists [], (x + c). cbn [mask_loop app fe_val length]. rewrite s64_small by lia. split_and!; [done|by apply Forall_nil|lia|lia|done|lia]. }
  change (mask_loop c (x :: y :: h)) with
    (Z.land (s64 (x + c)) (2 ^ 16 - 1) :: mask_loop (Z.shiftr (s64 (x + c)) 16) (y :: h)).
  rewrite s64_small, land_mask, Z.shiftr_div_pow2 by lia.
  pose proof (Z.div_mod (x + c) (2 ^ 16)). pose proof (Z.mod_pos_bound (x + c) (2 ^ 16)).
  destruct (IH ((x + c) / 2 ^ 16)) as (t & z & -> & Ht & Hz & Hl & Hv); [done|done|lia|].
  exists ((x + c) mod 2 ^ 16 :: t), z. split_and!; [done|constructor; [lia|done]|lia|lia|cbn [length] in *; lia|].
  rewrite <- app_comm_cons. cbn [fe_val] in *. rewrite Hv. lia.
Qed.

Lemma cond_select_spec (b : bool) h t :
  length h = length t → cond_select (if b then -1 else 0) h t = if b then t else h.
Proof.
  revert t. unfold cond_select. induction h as [|x h IH]; intros [|y t] Hl; [by destruct b|done..|].
  injection Hl as Hl. cbn [zip_with]. rewrite IH by done. destruct b; f_equal.
  - by rewrite Z.land_m1_l, <- Z.lxor_assoc, Z.lxor_nilpotent, Z.lxor_0_l.
  - by rewrite Z.land_0_l, Z.lxor_0_r.
Qed.

Lemma alter_snoc (f : Z → Z) t x : alter f (length t) (t ++ [x]) = t ++ [f x].
Proof. induction t as [|y t IH]; [done|]. cbn. f_equal. apply IH. Qed.

(** Below [2^256 - 19] a round subtracts p when the value is at least p. *)
Lemma sub_round_spec h :
  in_range h → length h = 16%nat → fe_val h < 2 ^ 256 - 19 →
  in_range (sub_round h) ∧ length (sub_round h) = 16%nat ∧
  fe_val (sub_round h) = if p25519 <=? fe_val h then fe_val h - p25519 else fe_val h.
Proof.
  intros Hr Hl Hv. unfold sub_round. cbv zeta. pose proof (in_range_val _ Hr) as H0.
  destruct (mask_loop_spec h 19) as (t & x & -> & Ht & Hx & Hlt & E); [done|by intros ->|lia|].
  rewrite Hl in Hlt. injection Hlt as Hlt. symmetry in Hlt. pose proof (in_range_val _ Ht) as Ht0.
  rewrite fe_val_app in E. rewrite Hlt in *. change (16 * Z.of_nat 15) with 240 in *.
  cbn [fe_val] in E. rewrite app_nth2, Hlt by lia. cbn [nth Nat.sub].
  replace (alter _ 15%nat (t ++ [x])) with (t ++ [x mod 2 ^ 15]).
  2: { rewrite <- Hlt, alter_snoc. do 2 f_equal. symmetry. by apply (land_mask 15). }
  rewrite Z.shiftr_div_pow2 by lia. pose proof (Z.div_mod x (2 ^ 15)). pose proof (Z.mod_pos_bound x (2 ^ 15)).
  replace (s64 (- (x / 2 ^ 15))) with (if p25519 <=? fe_val h then -1 else 0).
  - rewrite cond_select_spec by (rewrite length_app, Hlt, Hl; done). destruct (Z.leb_spec p25519 (fe_val h)); [|done].
    split_and!; [apply Forall_app; split; [done|constructor; [lia|constructor]]|by rewrite length_app, Hlt|].
    rewrite fe_val_app, Hlt. change (16 * Z.of_nat 15) with 240. cbn [fe_val]. unfold p25519 in *.
    assert (x / 2 ^ 15 = 1) by nia. lia.
  - unfold p25519. destruct (Z.leb_spec (2 ^ 255 - 19) (fe_val h)).
    + assert (x / 2 ^ 15 = 1) as -> by nia. done.
    + assert (x / 2 ^ 15 = 0) as -> by nia. done.
Qed.

(** ** Canonical encodings *)

(** The residue an element stands for. *)
Definition residue (h : fe) : Z := fe_val h mod p25519.

Lemma residue_el h : residue h = Zmod.to_Z (el h).
Proof. unfold residue, el. by rewrite Zmod.to_Z_of_Z. Qed.

Lemma residue_bound h : 0 <= residue h < p25519.
Proof. by apply Z.mod_pos_bound. Qed.

(** The bytes [fe_tobytes] gives when the carried limbs hold [2^256 - k]. *)
Definition window_bytes (k : Z) : bytes := store_limbs (sub_round (sub_round (digits 16 (2 ^ 256 - k)))).

(** After the three passes the value is below [2^256]; unless it is one of the last
    19, the bytes are those of the residue. *)
Lemma fe_tobytes_cases h : loose h →
  fe_tobytes h = le_put 32 (residue h) ∨
  (∃ k, 1 <= k <= 19 ∧ residue h = 38 - k ∧ fe_tobytes h = window_bytes k).
Proof.
  intros Hh. unfold fe_tobytes, window_bytes.
  pose proof (carry_almost _ _ Hh ltac:(lia)) as H1. pose proof (carry_almost_1 _ _ H1 ltac:(lia)) as H2.
  destruct (carry_in_range _ H2) as [Hr Hl].
  assert (He : el (fe_carry (fe_carry (fe_carry h))) = el h).
  { rewrite (carry_el (2 ^ 16 + 38 * 1)), (carry_el (2 ^ 16 + 38 * 2 ^ 20)), (carry_el (2 ^ 20));
      [done|done|lia|by apply almost_limbs; [|lia]|lia|by apply almost_limbs|lia]. }
  assert (Hres : residue h = residue (fe_carry (fe_carry (fe_carry h)))) by (by rewrite !residue_el, He).
  rewrite Hres. clear Hh H1 H2 He Hres. set (t := fe_carry (fe_carry (fe_carry h))) in *. clearbody t.
  pose proof (in_range_val _ Hr) as Hv. rewrite Hl in Hv. change (16 * Z.of_nat 16) with 256 in Hv. unfold residue.
  destruct (Z.lt_ge_cases (fe_val t) (2 ^ 256 - 19)) as [Hs|Hs].
  - left. destruct (sub_round_spec t) as (Hr1 & Hl1 & Hv1); [done..|].
    destruct (sub_round_spec (sub_round t)) as (Hr2 & Hl2 & Hv2); [done..| |].
    { rewrite Hv1. unfold p25519. destruct (Z.leb_spec (2 ^ 255 - 19) (fe_val t)); lia. }
    rewrite <- (digits_of (sub_round (sub_round t))), Hl2 by done. rewrite store_limbs_spec. f_equal.
    rewrite Hv2, Hv1. unfold p25519.
    repeat match goal with |- context [?a <=? ?b] => destruct (Z.leb_spec a b) end;
      first [apply (Z.mod_unique _ _ 0); lia|apply (Z.mod_unique _ _ 1); lia|apply (Z.mod_unique _ _ 2); lia|lia].
  - right. exists (2 ^ 256 - fe_val t). split_and!; [lia|lia| |].
    + symmetry. apply (Z.mod_unique _ _ 2); unfold p25519; lia.
    + replace (2 ^ 256 - (2 ^ 256 - fe_val t)) with (fe_val t) by lia. by rewrite <- Hl, digits_of.
Qed.

(** A fact about the bytes of every element: it holds for the residues and, by
    evaluation, for the 19 others. *)
Lemma fe_tobytes_decide (f g : bytes → Z → bool) h :
  loose h →
  (∀ v, 0 <= v < p25519 → f (le_put 32 v) v = g (le_put 32 v) v) →
  forallb (λ k, eqb (f (window_bytes k) (38 - k)) (g (window_bytes k) (38 - k))) (seqZ 1 19) = true →
  f (fe_tobytes h) (residue h) = g (fe_tobytes h) (residue h).
Proof.
  intros Hh Hv Hk. destruct (fe_tobytes_cases h Hh) as [->|(k & Hk' & -> & ->)].
  { apply Hv, residue_bound. }
  rewrite forallb_forall in Hk. apply eqb_prop, Hk, list_elem_of_In, elem_of_seqZ. lia.
Qed.

Lemma le_put_inj_range v w : 0 <= v < 2 ^ 256 → 0 <= w < 2 ^ 256 → le_put 32 v = le_put 32 w → v = w.
Proof. intros Hv Hw. apply le_put_inj; done. Qed.

Lemma forallb_zero l : forallb (Z.eqb 0) l = true → l = replicate (length l) 0.
Proof.
  induction l as [|x l IH]; [done|]. cbn [forallb length replicate]. intros [Hx Hl]%andb_true_iff. apply Z.eqb_eq in Hx as <-.
  f_equal. by apply IH.
Qed.

Lemma fe_iszero_spec h : loose h → fe_iszero h = (residue h =? 0).
Proof.
  intros Hh. apply (fe_tobytes_decide (λ s _, forallb (Z.eqb 0) s) (λ _ v, v =? 0) h Hh); [|by vm_compute].
  intros v Hv. unfold p25519 in Hv. destruct (Z.eqb_spec v 0) as [->|Hn]; [done|].
  apply not_true_is_false. intros Hz%forallb_zero. rewrite length_le_put in Hz.
  apply Hn, le_put_inj_range; [lia..|done].
Qed.

Lemma fold_lor_zero l : ∀ d, fold_left Z.lor l d = 0 ↔ d = 0 ∧ forallb (Z.eqb 0) l = true.
Proof.
  induction l as [|x l IH]; intros d; cbn [fold_left forallb]; [tauto|].
  rewrite IH, Z.lor_eq_0_iff, andb_true_iff, (Z.eqb_sym 0 x), Z.eqb_eq. tauto.
Qed.

Lemma fold_lor_byte l : ∀ d, 0 <= d < 256 → bytes_ok l → 0 <= fold_left Z.lor l d < 256.
Proof.
  induction l as [|x l IH]; intros d Hd Hl; [done|].
  apply Forall_cons in Hl as [Hx Hl]. cbn [fold_left]. apply IH; [|done].
  by apply (lor_range 8).
Qed.

(** The test on the collected byte: the element is one exactly when the first byte
    is one and the others are zero. *)
Lemma isone_bytes s0 s :
  0 <= s0 < 256 → bytes_ok s →
  negb (Z.land 1 (Z.shiftr (fold_left Z.lor s (Z.lxor s0 1) - 1) 8) =? 0) = (s0 =? 1) && forallb (Z.eqb 0) s.
Proof.
  intros H0 Hs. pose proof (fold_lor_zero s (Z.lxor s0 1)) as Hz.
  assert (0 <= fold_left Z.lor s (Z.lxor s0 1) < 256) as Hd.
  { apply fold_lor_byte; [|done]. by apply (lxor_range 8). }
  set (d := fold_left _ _ _) in *. clearbody d. rewrite Z.shiftr_div_pow2 by lia.
  destruct (decide (d = 0)) as [->|Hn].
  - destruct Hz as [[Hx ->] _]; [done|]. apply Z.lxor_eq in Hx as ->. done.
  - rewrite (Z.div_small (d - 1)) by lia. cbn. destruct (Z.eqb_spec s0 1) as [->|]; [|done].
    destruct (forallb _ s); [|done]. exfalso. by apply Hn, Hz.
Qed.

Lemma le_put_ok n v : bytes_ok (le_put n v).
Proof. rewrite le_put_rev. apply Forall_rev, be_put_ok. Qed.

Lemma fe_isone_spec h : loose h → fe_isone h = (residue h =? 1).
Proof.
  intros Hh. apply (fe_tobytes_decide
    (λ s _, match s with
            | [] => false
            | s0 :: s => negb (Z.land 1 (Z.shiftr (fold_left Z.lor s (Z.lxor s0 1) - 1) 8) =? 0)
            end) (λ _ v, v =? 1) h Hh); [|by vm_compute].
  intros v Hv. unfold p25519 in Hv. cbv beta. rewrite le_put_S, isone_bytes by (apply u8_range || apply le_put_ok).
  destruct (Z.eqb_spec v 1) as [->|Hn]; [done|]. apply not_true_is_false. intros [H1 Hz]%andb_true_iff.
  apply Hn, le_put_inj_range; [lia..|]. rewrite (le_put_S 31 v), (le_put_S 31 1). apply Z.eqb_eq in H1. rewrite H1. f_equal.
  apply forallb_zero in Hz. by rewrite Hz, length_le_put.
Qed.

(** Comparing from the most significant byte: the first difference decides. *)
Lemma gt_step_eq b : is_u8 b → gt_step (0, 0) (b, b) = (0, 0).
Proof. intros Hb. unfold gt_step. by rewrite Z.sub_diag. Qed.

Lemma u32_sub_high a b : is_u8 a → is_u8 b → Z.shiftr (u32 (a - b)) 8 = if a <? b then 2 ^ 24 - 1 else 0.
Proof.
  unfold is_u8, u32. intros Ha Hb. rewrite Z.shiftr_div_pow2 by lia. destruct (Z.ltb_spec a b).
  - rewrite <- (Z.mod_unique (a - b) (2 ^ 32) (-1) (2 ^ 32 + (a - b))) by lia.
    symmetry. apply (Z.div_unique _ _ _ (2 ^ 8 + (a - b))); lia.
  - rewrite Z.mod_small by lia. apply Z.div_small. lia.
Qed.

Lemma gt_step_ne a b : is_u8 a → is_u8 b → a ≠ b → gt_step (0, 0) (a, b) = if b <? a then (1, 0) else (0, 1).
Proof.
  intros Ha Hb Hn. unfold gt_step. rewrite !u32_sub_high by done.
  destruct (Z.ltb_spec b a), (Z.ltb_spec a b); try lia; done.
Qed.

Lemma gt_decided l st : st = (1, 0) ∨ st = (0, 1) → fold_left gt_step l st = st.
Proof.
  intros Hst. induction l as [|[a b] l IH]; [done|]. cbn [fold_left].
  replace (gt_step st (a, b)) with st; [done|].
  unfold gt_step. destruct Hst as [-> | ->]; cbn [Z.lor Pos.lor]; rewrite !Z.land_0_r; done.
Qed.

Lemma mod_split n v :
  v mod 2 ^ (8 * Z.of_nat (S n)) =
  u8 (Z.shiftr v (8 * Z.of_nat n)) * 2 ^ (8 * Z.of_nat n) + v mod 2 ^ (8 * Z.of_nat n).
Proof.
  replace (8 * Z.of_nat (S n)) with (8 * Z.of_nat n + 8) by lia. rewrite Z.pow_add_r by lia.
  rewrite Z.rem_mul_r by lia. unfold u8. rewrite Z.shiftr_div_pow2 by lia. change 256 with (2 ^ 8). lia.
Qed.

Lemma gt_bytes n v w :
  fold_left gt_step (zip (be_put n v) (be_put n w)) (0, 0) =
  match (v mod 2 ^ (8 * Z.of_nat n)) ?= (w mod 2 ^ (8 * Z.of_nat n)) with
  | Gt => (1, 0) | Lt => (0, 1) | Eq => (0, 0)
  end.
Proof.
  induction n as [|n IH]; [cbn; by rewrite !Z.mod_1_r|]. cbn [be_put zip zip_with fold_left]. rewrite !mod_split.
  pose proof (u8_range (Z.shiftr v (8 * Z.of_nat n))) as Ha. pose proof (u8_range (Z.shiftr w (8 * Z.of_nat n))) as Hb.
  set (a := u8 (Z.shiftr v (8 * Z.of_nat n))) in *. set (b := u8 (Z.shiftr w (8 * Z.of_nat n))) in *. clearbody a b.
  pose proof (Z.mod_pos_bound v (2 ^ (8 * Z.of_nat n)) ltac:(lia)) as Hv.
  pose proof (Z.mod_pos_bound w (2 ^ (8 * Z.of_nat n)) ltac:(lia)) as Hw.
  destruct (Z.eq_dec a b) as [<-|Hne].
  - rewrite gt_step_eq, IH by done. by rewrite Z.add_compare_mono_l.
  - rewrite gt_step_ne by done. destruct (Z.ltb_spec b a).
    + rewrite gt_decided by (by left). destruct (Z.compare_spec (a * 2 ^ (8 * Z.of_nat n) + v mod 2 ^ (8 * Z.of_nat n))
        (b * 2 ^ (8 * Z.of_nat n) + w mod 2 ^ (8 * Z.of_nat n))); [nia|nia|done].
    + rewrite gt_decided by (by right). destruct (Z.compare_spec (a * 2 ^ (8 * Z.of_nat n) + v mod 2 ^ (8 * Z.of_nat n))
        (b * 2 ^ (8 * Z.of_nat n) + w mod 2 ^ (8 * Z.of_nat n))); [nia|done|nia].
Qed.

Lemma reverse_zip_rev (a : list Z) : ∀ b : list Z, length a = length b → reverse (zip (rev a) (rev b)) = zip a b.
Proof.
  induction a as [|x a IH]; intros [|y b] Hl; [done..|]. injection Hl as Hl. cbn [rev zip zip_with].
  rewrite zip_with_app by (by rewrite !length_rev). cbn [zip_with]. rewrite reverse_snoc. f_equal. by apply IH.
Qed.

(** The comparison is with [(p - 1) / 2], also on the encodings that are not
    canonical. *)
Lemma fe_gt_half_spec h : loose h → fe_gt_half h = ((p25519 - 1) / 2 <? residue h).
Proof.
  intros Hh. apply (fe_tobytes_decide
    (λ s _, let '(gt, _) := fold_left gt_step (reverse (zip s half_bytes)) (0, 0) in negb (Z.land gt 1 =? 0))
    (λ _ v, (p25519 - 1) / 2 <? v) h Hh); [|by vm_compute].
  intros v Hv. unfold p25519 in Hv. cbv beta. change half_bytes with (le_put 32 ((p25519 - 1) / 2)).
  rewrite !le_put_rev, reverse_zip_rev by (by rewrite !length_be_put). rewrite gt_bytes.
  rewrite !Z.mod_small by (change (8 * Z.of_nat 32) with 256; unfold p25519 in *; zdiv_lia || lia).
  unfold Z.ltb. rewrite Z.compare_antisym. by destruct (Z.compare _ v).
Qed.
