(* ===== verification/FieldPow.v ===== *)
(** * FieldPow: powers, inverses and square roots in the field

    Proofs about the exponentiation chains of [src/src/elligator2.c] as modelled in
    Field: [fe_inv], [fe_pow_p38] and [fe_legendre] compute the powers their comments
    name, and [fe_sqrt_least] finds the least square root of every square. *)

From Stdlib Require Import Zdivisibility Zpow_facts Zmod.
From S2P Require Import Prelude NumTheory Field.

Local Open Scope Zmod_scope.
Add Ring Fp_ring : (Zmod.ring_theory p25519).

(** ** The field *)

#[export] Instance Fp_eq_dec : EqDecision Fp.
Proof.
  intros x y. destruct (decide (Zmod.to_Z x = Zmod.to_Z y)) as [E|E]; [left|right; congruence].
  by apply Zmod.to_Z_inj.
Defined.

Lemma Fp_integral (a b : Fp) : a * b = 0 → a = 0 ∨ b = 0.
Proof. apply (Zmod.mul_0_iff_prime prime_p25519). Qed.

Lemma Fp_cancel (a b c : Fp) : c ≠ 0 → c * a = c * b → a = b.
Proof.
  intros Hc H. assert (c * (a - b) = 0) as [?|H0]%Fp_integral; [|done|].
  { transitivity (c * a - c * b); [ring|]. rewrite H. ring. }
  transitivity (a - b + b); [ring|]. rewrite H0. ring.
Qed.

Lemma Fp_sq_cases (a b : Fp) : a * a = b * b → a = b ∨ a = - b.
Proof.
  intros H. assert ((a - b) * (a + b) = 0) as [H0|H0]%Fp_integral.
  { transitivity (a * a - b * b); [ring|]. rewrite H. ring. }
  - left. transitivity (a - b + b); [ring|]. rewrite H0. ring.
  - right. transitivity (a + b - b); [ring|]. rewrite H0. ring.
Qed.

(** Powers with exponents in [N]. *)
Definition npow (x : Fp) (e : N) : Fp := Zmod.pow x (Z.of_N e).

Lemma npow_1 x : npow x 1 = x.
Proof. unfold npow. apply Zmod.pow_1_r. Qed.
Lemma npow_add x e f : npow x (e + f) = npow x e * npow x f.
Proof. unfold npow. rewrite N2Z.inj_add. apply Zmod.pow_add_r_nonneg; apply N2Z.is_nonneg. Qed.
Lemma npow_mul_r x e f : npow x (e * f) = npow (npow x e) f.
Proof. unfold npow. rewrite N2Z.inj_mul. apply Zmod.pow_mul_r_nonneg; apply N2Z.is_nonneg. Qed.
Lemma npow_mul_l x y e : npow (x * y) e = npow x e * npow y e.
Proof. unfold npow. apply Zmod.pow_mul_l_nonneg, N2Z.is_nonneg. Qed.
Lemma npow_2 x : npow x 2 = x * x.
Proof. unfold npow. apply Zmod.pow_2_r. Qed.
Lemma npow_0_l e : e ≠ 0%N → npow 0 e = 0.
Proof. intros He. unfold npow. apply Zmod.pow_0_l. lia. Qed.
Lemma npow_fermat x : x ≠ 0 → npow x (2 ^ 255 - 20) = 1.
Proof. intros Hx. apply (Zmod.fermat_nz x Hx prime_p25519). Qed.

(** ** The chains *)

(** [h] holds the power [e] of [x], with limbs of at most 19 bits. *)
Definition pw (x : Fp) (e : N) (h : fe) : Prop := limbs 16 (2 ^ 19) h ∧ el h = npow x e.

Lemma limbs_mono n B C h : (B <= C)%Z → limbs n B h → limbs n C h.
Proof. intros HBC [Hl HF]. split; [done|]. eapply Forall_impl; [exact HF|]. cbv beta. lia. Qed.

Lemma almost_1_limbs B h : (2 ^ 16 + 38 <= B)%Z → almost 1 h → limbs 16 B h.
Proof. intros HB H. eapply limbs_mono; [exact HB|]. by apply (almost_limbs 1). Qed.

Lemma fe_mul_limbs a b : loose a → loose b → limbs 16 (2 ^ 17) (fe_mul a b).
Proof. intros Ha Hb. destruct (fe_mul_spec a b) as [H _]; [done..|]. by apply almost_1_limbs. Qed.

Lemma pw_mul x e f h k : pw x e h → pw x f k → pw x (e + f) (fe_mul h k).
Proof.
  intros [Hh Eh] [Hk Ek]. apply (limbs_mono _ _ (2 ^ 20)) in Hh, Hk; [|lia..].
  destruct (fe_mul_spec h k) as [H E]; [done..|]. split; [by apply almost_1_limbs|].
  by rewrite E, Eh, Ek, npow_add.
Qed.

Lemma pw_sq x e h : pw x e h → pw x (2 * e) (fe_sq h).
Proof. intros H. replace (2 * e)%N with (e + e)%N by lia. by apply pw_mul. Qed.

Lemma pw_sqn n x e h : pw x e h → pw x (2 ^ N.of_nat n * e) (fe_sqn n h).
Proof.
  intros H. induction n as [|n IH]; [by rewrite N.mul_1_l|].
  rewrite Nat2N.inj_succ, N.pow_succ_r', <- N.mul_assoc. by apply pw_sq.
Qed.

Lemma pw_eq x e f h : e = f → pw x e h → pw x f h.
Proof. by intros ->. Qed.

Create HintDb chain.
#[export] Hint Resolve pw_mul pw_sq pw_sqn : chain.

(** Goes through the assignments of a chain. *)
Ltac chain :=
  repeat match goal with
  | |- ?P (let t := ?v in @?b t) =>
      match goal with
      | _ : pw ?x 1 _ |- _ =>
          let H := fresh "H" in
          eassert (pw x _ v) as H by (eauto with chain nocore);
          change (P (b v)); revert H; generalize v; cbv beta; intros ? H
      end
  end.

Lemma fe_inv_pow x a : pw x 1 a → pw x (2 ^ 255 - 21) (fe_inv a).
Proof.
  intros Ha. cbv beta delta [fe_inv]. chain. eapply pw_eq; [|eauto with chain nocore]. by vm_compute.
Qed.

Lemma chain_250_pow x a : pw x 1 a → pw x 2 (chain_250 a).1 ∧ pw x (2 ^ 250 - 1) (chain_250 a).2.
Proof.
  intros Ha. set (P := λ r, pw x 2 r.1 ∧ pw x (2 ^ 250 - 1) r.2). change (P (chain_250 a)).
  cbv beta delta [chain_250]. chain. subst P. cbn [fst snd].
  split; (eapply pw_eq; [|eauto with chain nocore]; by vm_compute).
Qed.

Lemma fe_pow_p38_pow x a : pw x 1 a → pw x (2 ^ 252 - 2) (fe_pow_p38 a).
Proof.
  intros Ha. destruct (chain_250_pow x a Ha) as [H2 H250]. cbv beta delta [fe_pow_p38].
  destruct (chain_250 a) as [a2 t0]. chain. eapply pw_eq; [|eauto with chain nocore]. by vm_compute.
Qed.

Lemma fe_legendre_pow x a : pw x 1 a → pw x (2 ^ 254 - 10) (fe_legendre a).
Proof.
  intros Ha. destruct (chain_250_pow x a Ha) as [H2 H250]. cbv beta delta [fe_legendre].
  destruct (chain_250 a) as [a2 t0]. chain. eapply pw_eq; [|eauto with chain nocore]. by vm_compute.
Qed.

(** ** Elements and their limbs *)

(** [h] stands for [x], with limbs of at most [B]. *)
Definition holds (B : Z) (h : fe) (x : Fp) : Prop := limbs 16 B h ∧ el h = x.

Lemma holds_mono B C h x : (B <= C)%Z → holds B h x → holds C h x.
Proof. intros HBC [Hl He]. split; [by eapply limbs_mono|done]. Qed.

Lemma holds_pw h x : holds (2 ^ 19) h x ↔ pw x 1 h.
Proof. unfold holds, pw. by rewrite npow_1. Qed.

Lemma holds_mul B C a b x y :
  holds B a x → holds C b y → (B <= 2 ^ 20)%Z → (C <= 2 ^ 20)%Z → holds (2 ^ 17) (fe_mul a b) (x * y).
Proof.
  intros [Ha <-] [Hb <-] HB HC. apply (limbs_mono _ _ (2 ^ 20)) in Ha, Hb; [|done..].
  split; [by apply fe_mul_limbs|]. by apply fe_mul_spec.
Qed.

Lemma holds_sq B a x : holds B a x → (B <= 2 ^ 20)%Z → holds (2 ^ 17) (fe_sq a) (x * x).
Proof. intros Ha HB. by eapply holds_mul. Qed.

Lemma holds_add B C a b x y :
  holds B a x → holds C b y → (0 <= B <= 2 ^ 20)%Z → (0 <= C <= 2 ^ 20)%Z → holds (B + C) (fe_add a b) (x + y).
Proof. intros [Ha <-] [Hb <-] HB HC. split; by apply (fe_add_spec B C); [..|lia|lia]. Qed.

Lemma holds_sub B C a b x y :
  holds B a x → holds C b y → (0 <= B <= 2 ^ 20)%Z → (0 <= C <= 2 ^ 20)%Z → holds (B + C) (fe_sub a b) (x - y).
Proof. intros [Ha <-] [Hb <-] HB HC. split; by apply (fe_sub_spec B C); [..|lia|lia]. Qed.

Lemma holds_const h B : bool_decide (limbs 16 B h) = true → holds B h (Zmod.of_Z p25519 (fe_val h)).
Proof. intros H%bool_decide_eq_true. by split. Qed.

Lemma holds_neg B a x : holds B a x → (0 <= B <= 2 ^ 20)%Z → holds B (fe_neg a) (- x).
Proof.
  intros Ha HB. unfold fe_neg. replace (- x) with (0 - x) by ring. apply (holds_sub 0 B); [|done|done..].
  by apply (holds_const FE_ZERO 0).
Qed.

Lemma holds_cmov B a b x y (c : bool) : holds B a x → holds B b y → holds B (fe_cmov a b c) (if c then y else x).
Proof.
  intros Ha Hb. unfold fe_cmov. rewrite cond_select_spec by (by rewrite (proj1 (proj1 Ha)), (proj1 (proj1 Hb))).
  by destruct c.
Qed.

Lemma holds_residue B h x : holds B h x → residue h = Zmod.to_Z x.
Proof. intros [_ <-]. apply residue_el. Qed.

Lemma to_Z_eqb (x : Fp) v : (0 <= v < p25519)%Z → (Zmod.to_Z x =? v)%Z = Zmod.eqb x (Zmod.of_Z p25519 v).
Proof.
  intros Hv. unfold Zmod.eqb. f_equal. by rewrite Zmod.to_Z_of_Z, Z.mod_small.
Qed.

Lemma holds_iszero B h x : holds B h x → (B <= 2 ^ 20)%Z → fe_iszero h = Zmod.eqb x 0.
Proof.
  intros H HB. rewrite fe_iszero_spec by (by eapply limbs_mono, H). by rewrite (holds_residue _ _ _ H), to_Z_eqb.
Qed.

Lemma holds_isone B h x : holds B h x → (B <= 2 ^ 20)%Z → fe_isone h = Zmod.eqb x 1.
Proof.
  intros H HB. rewrite fe_isone_spec by (by eapply limbs_mono, H). by rewrite (holds_residue _ _ _ H), to_Z_eqb.
Qed.

(** ** Inverses and squares *)

Lemma npow_inv x : x ≠ 0 → x * npow x (2 ^ 255 - 21) = 1.
Proof.
  intros Hx. rewrite <- (npow_1 x) at 1. rewrite <- npow_add, <- (npow_fermat x Hx). by f_equal.
Qed.

Lemma holds_inv B a x : holds B a x → (B <= 2 ^ 19)%Z → holds (2 ^ 19) (fe_inv a) (npow x (2 ^ 255 - 21)).
Proof. intros Ha HB. apply fe_inv_pow, holds_pw. by eapply holds_mono. Qed.

(** [x^((p-1)/2)] *)
Definition legendre (x : Fp) : Fp := npow x (2 ^ 254 - 10).

Definition is_square (x : Fp) : Prop := ∃ y, x = y * y.

Definition squareb (x : Fp) : bool := Zmod.eqb (legendre x) 1 || Zmod.eqb x 0.

Lemma holds_legendre B a x : holds B a x → (B <= 2 ^ 19)%Z → holds (2 ^ 19) (fe_legendre a) (legendre x).
Proof. intros Ha HB. apply fe_legendre_pow, holds_pw. by eapply holds_mono. Qed.

Lemma eqb_eq (x y : Fp) : Zmod.eqb x y = true ↔ x = y.
Proof. destruct (Zmod.eqb_spec x y); naive_solver. Qed.

Lemma sqrtm1 : el FE_SQRTM1 * el FE_SQRTM1 = - (1).
Proof. by vm_compute. Qed.

(** The candidate root: [c = x^((p+3)/8)] has [c^4 = x^2 * legendre x]. *)
Definition root (x : Fp) : Fp := npow x (2 ^ 252 - 2).

Lemma root_4 x : (root x * root x) * (root x * root x) = (x * x) * legendre x.
Proof.
  unfold root, legendre. rewrite <- (npow_2 x), <- !npow_add. by f_equal.
Qed.

Lemma root_cases x : squareb x = true → root x * root x = x ∨ root x * root x = - x.
Proof.
  intros [Hl|H0]%orb_true_iff; apply Fp_sq_cases.
  - apply eqb_eq in Hl. rewrite root_4, Hl. ring.
  - apply eqb_eq in H0 as ->. unfold root. rewrite npow_0_l by done. ring.
Qed.

Lemma root_i x c : c * c = - x → (c * el FE_SQRTM1) * (c * el FE_SQRTM1) = x.
Proof.
  intros H. pose proof sqrtm1 as Hi. generalize dependent (el FE_SQRTM1). intros i Hi.
  transitivity ((c * c) * (i * i)); [ring|]. rewrite H, Hi. ring.
Qed.

(** Euler's criterion. *)
Lemma squareb_spec x : squareb x = true ↔ is_square x.
Proof.
  split.
  - intros [H|H]%root_cases; [by exists (root x)|]. exists (root x * el FE_SQRTM1). symmetry. by apply root_i.
  - intros [y ->]. unfold squareb, legendre. destruct (decide (y = 0)) as [->|Hy].
    { apply orb_true_iff. right. apply eqb_eq. ring. }
    rewrite <- npow_2, <- npow_mul_r. apply orb_true_iff. left. apply eqb_eq. rewrite <- (npow_fermat y Hy).
    by f_equal.
Qed.

Lemma sub_eq_0 (x y : Fp) : Zmod.eqb (x - y) 0 = Zmod.eqb x y.
Proof.
  apply eq_true_iff_eq. rewrite !eqb_eq. split; [|intros ->; ring].
  intros H. transitivity (x - y + y); [ring|]. rewrite H. ring.
Qed.

Lemma is_square_root x : Zmod.eqb (root x * root x) x || Zmod.eqb (root x * root x) (- x) = squareb x.
Proof.
  apply eq_true_iff_eq. rewrite orb_true_iff, !eqb_eq. split; [|apply root_cases].
  rewrite squareb_spec. intros [H|H]; [by exists (root x)|]. eexists. symmetry. by apply root_i.
Qed.

(** The lesser of [c] and [-c]. *)
Definition least (c : Fp) : Fp := if ((p25519 - 1) / 2 <? Zmod.to_Z c)%Z then - c else c.

Lemma least_sq c : least c * least c = c * c.
Proof. unfold least. destruct (_ <? _)%Z; ring. Qed.

Lemma least_le c : (0 <= Zmod.to_Z (least c) <= (p25519 - 1) / 2)%Z.
Proof.
  pose proof (Zmod.unsigned_pos_bound c ltac:(done)) as Hc. unfold least.
  destruct (Z.ltb_spec ((p25519 - 1) / 2) (Zmod.to_Z c)) as [Hg|Hg]; [|lia].
  assert (Hh : (2 * ((p25519 - 1) / 2) = p25519 - 1)%Z) by done. rewrite Zmod.unsigned_opp.
  rewrite <- (Z.mod_unique (- Zmod.to_Z c) p25519 (-1) (p25519 - Zmod.to_Z c)); lia.
Qed.

Lemma holds_gt_half B h x :
  holds B h x → (B <= 2 ^ 20)%Z → fe_gt_half h = ((p25519 - 1) / 2 <? Zmod.to_Z x)%Z.
Proof.
  intros H HB. rewrite fe_gt_half_spec by (by eapply limbs_mono, H). by rewrite (holds_residue _ _ _ H).
Qed.

(** The square root: the test says whether there is one, and if so the result is the
    lesser root. *)
Lemma fe_sqrt_least_spec B a x :
  holds B a x → (0 <= B <= 2 ^ 19)%Z →
  ∃ r, holds (2 ^ 19) (fe_sqrt_least a).1 (least r) ∧ (fe_sqrt_least a).2 = squareb x ∧
    (squareb x = true → r * r = x).
Proof.
  intros Ha HB. unfold fe_sqrt_least. cbv zeta. cbn [fst snd].
  assert (Hc : holds (2 ^ 19) (fe_pow_p38 a) (root x)).
  { apply fe_pow_p38_pow, holds_pw. eapply holds_mono; [|exact Ha]; lia. }
  assert (Hc2 := holds_sq _ _ _ Hc ltac:(lia)).
  rewrite (holds_iszero _ _ _ (holds_sub _ _ _ _ _ _ Hc2 Ha ltac:(lia) ltac:(lia))) by lia.
  rewrite (holds_iszero _ _ _ (holds_sub _ _ _ _ _ _ Hc2 (holds_neg _ _ _ Ha ltac:(lia)) ltac:(lia) ltac:(lia))) by lia.
  rewrite !sub_eq_0, is_square_root. set (e := Zmod.eqb (root x * root x) (- x)).
  assert (Hi : holds (2 ^ 19) (fe_mul (fe_pow_p38 a) FE_SQRTM1) (root x * el FE_SQRTM1)).
  { eapply holds_mono; [|eapply (holds_mul _ (2 ^ 16) _ FE_SQRTM1); [done| |lia|lia]]; [lia|].
    by apply (holds_const FE_SQRTM1). }
  pose proof (holds_cmov _ _ _ _ _ e Hc Hi) as Hm. set (r := if e then root x * el FE_SQRTM1 else root x) in *.
  rewrite (holds_gt_half _ _ _ Hm) by lia. exists r. split_and!; [|done|].
  - apply holds_cmov; [done|]. apply holds_neg; [done|lia].
  - intros Hs. subst r e. destruct (Zmod.eqb_spec (root x * root x) (- x)); [by apply root_i|].
    by destruct (root_cases x Hs).
Qed.

(** Multiplication of elements whose limbs have at most 20 bits never overflows a
    64-bit accumulator: the result is the product in the field, with limbs of at most
    17 bits, so that sums and differences of results can be multiplied again. *)
Theorem fe_mul_correct a b :
  limbs 16 (2 ^ 20) a → limbs 16 (2 ^ 20) b →
  limbs 16 (2 ^ 17) (fe_mul a b) ∧ residue (fe_mul a b) = ((residue a * residue b) mod p25519)%Z.
Proof.
  intros Ha Hb. split; [by apply fe_mul_limbs|]. destruct (fe_mul_spec a b) as [_ E]; [done..|].
  rewrite !residue_el, E. apply Zmod.to_Z_mul.
Qed.

Lemma fe_mul_correct_witness :
  limbs 16 (2 ^ 17) (fe_mul FE_SQRTM1 FE_SQRTM1) ∧
  residue (fe_mul FE_SQRTM1 FE_SQRTM1) = ((residue FE_SQRTM1 * residue FE_SQRTM1) mod p25519)%Z.
Proof. apply (fe_mul_correct FE_SQRTM1 FE_SQRTM1); by apply (bool_decide_unpack _). Defined.
