(* ===== verification/Elligator.v ===== *)
(** * Elligator: the maps between curve points and uniform strings

    Models the maps of [src/src/elligator2.c]: the direct map from 32-byte
    representatives to Curve25519 keys, the inverse map, the representability test
    and key generation by rejection. The keypairs and coins that libsodium draws are
    arguments of [keygen].

    The theorems show that the direct map computes the Elligator 2 map of the field
    ([ell2]), that the inverse map is its inverse on keys of the curve, for both
    values of [high_y], and that the test says exactly when the inverse map succeeds.
    Encodings within the window in which [fe_tobytes] is not canonical are excluded
    and shown to be wrong. *)

From Stdlib Require Import Zdivisibility Zpow_facts Zmod.
From S2P Require Import Prelude NumTheory Field FieldPow.

(** ** The code *)

Definition representative_to_key (representative : bytes) : bytes :=
  let repr_clean := alter (λ b, Z.land b 0x3f) 31%nat representative in
  let r := fe_frombytes repr_clean in
  let r2 := fe_sq r in
  let ur2 := fe_mul FE_TWO r2 in
  let denom := fe_add FE_ONE ur2 in
  let neg_A := fe_neg FE_A in
  let inv_d := fe_inv denom in
  let v := fe_mul neg_A inv_d in
  let v2 := fe_sq v in
  let v3 := fe_mul v2 v in
  let Av2 := fe_mul FE_A v2 in
  let rhs := fe_add v3 Av2 in
  let rhs := fe_add rhs v in
  let leg := fe_legendre rhs in
  let is_qr := fe_isone leg in
  let rhs_zero := fe_iszero rhs in
  let neg_v_minus_A := fe_neg v in
  let neg_v_minus_A := fe_sub neg_v_minus_A FE_A in
  let result := neg_v_minus_A in
  let result := fe_cmov result v (is_qr || rhs_zero) in
  fe_tobytes result.

Definition is_representable (pk : bytes) : bool :=
  let u := fe_frombytes pk in
  if fe_iszero u then false else
  let neg_A := fe_neg FE_A in
  let diff := fe_sub u neg_A in
  if fe_iszero diff then false else
  let u_plus_A := fe_add u FE_A in
  let neg_u := fe_neg u in
  let neg_uA := fe_neg u_plus_A in
  let two_uA := fe_mul FE_TWO u_plus_A in
  let inv0 := fe_inv two_uA in
  let w0 := fe_mul neg_u inv0 in
  let two_u := fe_mul FE_TWO u in
  let inv1 := fe_inv two_u in
  let w1 := fe_mul neg_uA inv1 in
  let leg0 := fe_legendre w0 in
  let leg1 := fe_legendre w1 in
  let qr0 := fe_isone leg0 || fe_iszero w0 in
  let qr1 := fe_isone leg1 || fe_iszero w1 in
  qr0 || qr1.

(** [None] is the return value -1. *)
Definition key_to_representative (pk : bytes) (high_y : bool) : option bytes :=
  let u := fe_frombytes pk in
  if fe_iszero u then None else
  let neg_A := fe_neg FE_A in
  let diff := fe_sub u neg_A in
  if fe_iszero diff then None else
  let u_plus_A := fe_add u FE_A in
  let '(num, den) :=
    if high_y then (fe_neg u_plus_A, fe_mul FE_TWO u) else (fe_neg u, fe_mul FE_TWO u_plus_A) in
  let inv_d := fe_inv den in
  let w := fe_mul num inv_d in
  let '(root, ok) := fe_sqrt_least w in
  if negb ok then None else Some (fe_tobytes root).

(** What an attempt draws: a keypair and a coin. *)
Record draw := Draw { draw_pk : bytes; draw_sk : bytes; draw_coin : Z }.

Definition try_key (d : draw) : option (bytes * bytes * bytes) :=
  let high_y := negb (Z.land (draw_coin d) 1 =? 0) in
  match key_to_representative (draw_pk d) high_y with
  | Some rep => Some (draw_pk d, draw_sk d, rep)
  | None =>
      match key_to_representative (draw_pk d) (negb high_y) with
      | Some rep => Some (draw_pk d, draw_sk d, rep)
      | None => None
      end
  end.

Definition ATTEMPTS : nat := 1000.

(** [attempts] counts down; [i] is the attempt. *)
Fixpoint keygen_loop (draws : nat → draw) (i attempts : nat) : option (bytes * bytes * bytes) :=
  match attempts with
  | O => None
  | S attempts =>
      match try_key (draws i) with
      | Some k => Some k
      | None => keygen_loop draws (S i) attempts
      end
  end.

(** [representative[31] |= (coin & 0xc0)] *)
Definition set_high_bits (coin : Z) (representative : bytes) : bytes :=
  alter (λ b, Z.lor b (Z.land coin 0xc0)) 31%nat representative.

(** The outputs [pk] and [sk], and [representative] when the result is 0. *)
Definition keygen (draws : nat → draw) (coin : Z) : bytes * bytes * option bytes :=
  match keygen_loop draws 0 ATTEMPTS with
  | None => (replicate 32 0, replicate 32 0, None)
  | Some (pk, sk, representative) =>
      (pk, sk, Some (set_high_bits coin representative))
  end.

(** ** The map of the field *)

Local Open Scope Zmod_scope.
Add Ring Fp_ring2 : (Zmod.ring_theory p25519).

(** An element by its least representative. *)
Abbreviation fp := (Zmod.of_Z p25519).

(** The coefficient of the curve [y^2 = u^3 + A u^2 + u]. *)
Definition A : Fp := fp 486662.
Definition curve_rhs (u : Fp) : Fp := u * u * u + A * (u * u) + u.

(** Elligator 2 with the non-square 2. *)
Definition ell2 (r : Fp) : Fp :=
  let v := - A * Zmod.inv (1 + fp 2 * (r * r)) in
  if squareb (curve_rhs v) then v else - v - A.

Lemma legendre_fp v : legendre (fp v) = fp (Zpow_mod v (2 ^ 254 - 10) p25519).
Proof.
  unfold legendre, npow. rewrite <- Zmod.of_Z_pow, Zpow_mod_correct by done. apply Zmod.of_Z_inj. symmetry. by apply Z.mod_mod.
Qed.

(** The discriminant of [u^2 + A u + 1]. *)
Lemma disc_not_square : squareb (A * A - fp 4) = false.
Proof.
  unfold squareb, A. rewrite <- Zmod.of_Z_mul, <- Zmod.of_Z_sub, legendre_fp. by vm_compute.
Qed.

Lemma fp_nz v : (v mod p25519 ≠ 0)%Z → fp v ≠ 0.
Proof. intros H E. apply H. change 0 with (fp 0) in E. by apply Zmod.of_Z_inj in E. Qed.

Lemma Fp_div (c x : Fp) : c ≠ 0 → ∃ z, c * z = x.
Proof.
  intros Hc. exists (npow c (2 ^ 255 - 21) * x). pose proof (npow_inv c Hc) as H.
  generalize dependent (npow c (2 ^ 255 - 21)). intros d H. transitivity (c * d * x); [ring|]. rewrite H. ring.
Qed.

(** 2 is not a square: a root would give an eighth root of unity, but 8 does not
    divide [p - 1]. *)
Lemma two_not_square y : y * y ≠ fp 2.
Proof.
  intros Hy. pose proof sqrtm1 as Hi. generalize dependent (el FE_SQRTM1). intros i Hi.
  assert (H2 : fp 2 ≠ 0) by (by apply fp_nz).
  assert (Hy0 : y ≠ 0) by (intros ->; apply H2; rewrite <- Hy; ring).
  destruct (Fp_div y (1 + i) Hy0) as [z Hz].
  assert (Hz2 : z * z = i).
  { apply (Fp_cancel _ _ (fp 2) H2). rewrite <- Hy. transitivity ((y * z) * (y * z)); [ring|].
    rewrite Hz. transitivity (1 + (i * i) + (1 + 1) * i); [ring|]. rewrite Hi. change (1 + 1) with (fp 2).
    rewrite <- Hy. ring. }
  assert (Hz0 : z ≠ 0).
  { intros ->. assert (i = 0) as -> by (rewrite <- Hz2; ring). apply (fp_nz (-1)); [done|].
    change (fp (-1)) with (- (1) : Fp). rewrite <- Hi. ring. }
  pose proof (npow_fermat z Hz0) as Hf.
  change (2 ^ 255 - 20)%N with (2 * (2 * (2 * (2 ^ 252 - 3) + 1)))%N in Hf.
  rewrite !npow_mul_r, !npow_2, Hz2, Hi, npow_add, npow_1, npow_mul_r, npow_2 in Hf.
  replace (- (1) * - (1)) with (1 : Fp) in Hf by ring. unfold npow in Hf. rewrite Zmod.pow_1_l in Hf.
  apply H2. change (fp 2) with (1 + 1 : Fp). transitivity (1 - 1 * - (1) : Fp); [ring|]. rewrite Hf. ring.
Qed.

Lemma denom_nz r : 1 + fp 2 * (r * r) ≠ 0.
Proof.
  intros H. pose proof sqrtm1 as Hi. generalize dependent (el FE_SQRTM1). intros i Hi.
  assert (Hr : r ≠ 0) by (intros ->; apply (fp_nz 1); [done|]; rewrite <- H; change (fp 1) with (1 : Fp); ring).
  destruct (Fp_div r i Hr) as [z Hz]. apply (two_not_square z). apply (Fp_cancel _ _ (r * r)).
  { intros [?|?]%Fp_integral; contradiction. }
  transitivity ((r * z) * (r * z)); [ring|]. rewrite Hz, Hi.
  transitivity (1 + fp 2 * (r * r) - 1 ); [rewrite H|]; ring.
Qed.

(** The only point of the curve with [y = 0] is the origin. *)
Lemma curve_rhs_nz u : u ≠ 0 → curve_rhs u ≠ 0.
Proof.
  intros Hu H. assert (u * (u * u + A * u + 1) = 0) as [?|H0]%Fp_integral; [|done|].
  { rewrite <- H. unfold curve_rhs. ring. }
  pose proof disc_not_square as Hd. apply not_true_iff_false in Hd. apply Hd, squareb_spec.
  exists (fp 2 * u + A). transitivity (fp 4 * (u * u + A * u + 1) + A * A - fp 4); [rewrite H0; ring|].
  change (fp 4) with (fp 2 * fp 2 : Fp). change (fp 2) with (1 + 1 : Fp). ring.
Qed.

(** ** Bytes and elements *)

Lemma digits_snoc n : ∀ V, digits (S n) V = digits n V ++ [(V / 2 ^ (16 * Z.of_nat n)) mod 2 ^ 16]%Z.
Proof.
  induction n as [|n IH]; intros V; [cbn [digits app]; by rewrite Z.div_1_r|].
  cbn [digits]. cbn [digits] in IH. rewrite IH. cbn [app]. do 4 f_equal.
  rewrite Zdiv_Zdiv by lia. f_equal. rewrite <- Z.pow_add_r by lia. f_equal. lia.
Qed.

Lemma digits_mod n : ∀ V, fe_val (digits n V) = (V mod 2 ^ (16 * Z.of_nat n))%Z.
Proof.
  induction n as [|n IH]; intros V; [cbn; by rewrite Z.mod_1_r|]. cbn [digits fe_val]. rewrite IH.
  replace (16 * Z.of_nat (S n))%Z with (16 + 16 * Z.of_nat n)%Z by lia. rewrite Z.pow_add_r, Z.rem_mul_r by lia. lia.
Qed.

Lemma in_range_limbs h : in_range h → length h = 16%nat → limbs 16 (2 ^ 16) h.
Proof. intros Hr Hl. split; [done|]. eapply Forall_impl; [exact Hr|]. cbv beta. lia. Qed.

Lemma fe_frombytes_holds V : holds (2 ^ 16) (fe_frombytes (le_put 32 V)) (fp (V mod 2 ^ 255)).
Proof.
  unfold fe_frombytes. change 32%nat with (16 + 16)%nat.
  rewrite <- store_limbs_spec, load_store, digits_snoc by apply digits_range.
  rewrite <- (length_digits 15 V) at 1. rewrite alter_snoc. change 0x7fff%Z with (2 ^ 15 - 1)%Z. rewrite land_mask by lia.
  rewrite Z.mod_mod_divide by (by exists 2%Z). split.
  - apply in_range_limbs; [|by rewrite length_app, length_digits]. apply Forall_app. split; [apply digits_range|].
    constructor; [|constructor]. pose proof (Z.mod_pos_bound (V / 2 ^ (16 * Z.of_nat 15)) (2 ^ 15)). lia.
  - unfold el. f_equal. rewrite fe_val_app, digits_mod, length_digits. cbn [fe_val].
    change (16 * Z.of_nat 15)%Z with 240%Z. change (2 ^ 255)%Z with (2 ^ 240 * 2 ^ 15)%Z. rewrite Z.rem_mul_r by lia. lia.
Qed.

Lemma le_put_snoc n V : le_put (S n) V = le_put n V ++ [u8 (Z.shiftr V (8 * Z.of_nat n))].
Proof. unfold le_put. by rewrite seq_S, map_app. Qed.

Lemma mod_shiftr V k m : (0 <= k <= m)%Z → Z.shiftr (V mod 2 ^ m) k = (Z.shiftr V k mod 2 ^ (m - k))%Z.
Proof.
  intros Hk. rewrite !Z.shiftr_div_pow2 by lia. replace m with (k + (m - k))%Z at 1 by lia.
  rewrite Z.pow_add_r, Z.rem_mul_r by lia. rewrite (Z.mul_comm (2 ^ k) ((V / 2 ^ k) mod _)), Z.div_add by lia.
  rewrite (Z.div_small (V mod 2 ^ k)) by (apply Z.mod_pos_bound; lia). lia.
Qed.

Lemma le_put_low n m V : (8 * Z.of_nat n <= m)%Z → le_put n (V mod 2 ^ m) = le_put n V.
Proof.
  intros Hm. unfold le_put. apply map_ext_in. intros i Hi%in_seq. rewrite mod_shiftr by lia. unfold u8.
  apply Z.mod_mod_divide. exists (2 ^ (m - 8 * Z.of_nat i - 8))%Z. change 256%Z with (2 ^ 8)%Z.
  rewrite <- Z.pow_add_r by lia. f_equal. lia.
Qed.

Lemma alter_le_put f V :
  alter f 31%nat (le_put 32 V) = le_put 31 V ++ [f (u8 (Z.shiftr V 248))].
Proof.
  rewrite (le_put_snoc 31). replace 31%nat with (length (le_put 31 V)) at 1 by apply length_le_put.
  by rewrite alter_snoc.
Qed.

(** The cleaning of the two high bits. *)
Lemma clean_bits V : alter (λ b, Z.land b 0x3f) 31%nat (le_put 32 V) = le_put 32 (V mod 2 ^ 254).
Proof.
  rewrite alter_le_put, (le_put_snoc 31 (V mod _)), le_put_low, mod_shiftr by lia. do 2 f_equal.
  change 0x3f%Z with (2 ^ 6 - 1)%Z. change (8 * Z.of_nat 31)%Z with 248%Z.
  change (2 ^ (254 - 248))%Z with (2 ^ 6)%Z. rewrite land_mask by lia. unfold u8.
  rewrite Z.mod_mod_divide by (by exists 4%Z). symmetry. apply Z.mod_small.
  pose proof (Z.mod_pos_bound (Z.shiftr V 248) (2 ^ 6)). lia.
Qed.

Lemma high_bits coin : is_u8 coin → ∃ c, (0 <= c < 4 ∧ Z.land coin 0xc0 = Z.shiftl c 6)%Z.
Proof.
  intros H. exists (Z.shiftr coin 6). rewrite Z.shiftr_div_pow2 by lia. split.
  { split; [apply Z.div_pos; unfold is_u8 in H; lia|]. apply Z.div_lt_upper_bound; unfold is_u8 in H; lia. }
  assert (Hall : forallb (λ b, Z.land b 0xc0 =? Z.shiftl (b / 2 ^ 6) 6)%Z (seqZ 0 256) = true) by (by vm_compute).
  rewrite forallb_forall in Hall. apply Z.eqb_eq, Hall, list_elem_of_In, elem_of_seqZ. unfold is_u8 in H. lia.
Qed.

(** The padding of the two high bits. *)
Lemma pad_bits r coin :
  (0 <= r < 2 ^ 254)%Z → is_u8 coin →
  ∃ V, set_high_bits coin (le_put 32 r) = le_put 32 V ∧ (V mod 2 ^ 254 = r)%Z.
Proof.
  intros Hr Hc. unfold set_high_bits. destruct (high_bits coin Hc) as (c & Hc4 & ->). exists (r + c * 2 ^ 254)%Z.
  split; [|rewrite Z.mod_add by lia; apply Z.mod_small; lia].
  rewrite alter_le_put, (le_put_snoc 31 (r + _)), <- (le_put_low 31 254 (r + _)) by lia.
  rewrite Z.mod_add, (Z.mod_small r) by lia. do 2 f_equal. change (8 * Z.of_nat 31)%Z with 248%Z.
  rewrite !Z.shiftr_div_pow2 by lia. change (2 ^ 254)%Z with (2 ^ 6 * 2 ^ 248)%Z. rewrite Z.mul_assoc, Z.div_add by lia.
  assert (0 <= r / 2 ^ 248 < 2 ^ 6)%Z as Hq.
  { split; [apply Z.div_pos; lia|]. apply Z.div_lt_upper_bound; lia. }
  rewrite u8_small by (unfold is_u8; lia). rewrite Z.lor_comm, shiftl_lor_add by lia.
  rewrite u8_small by (unfold is_u8; lia). lia.
Qed.

(** ** The direct map *)

Lemma holds_squareb B h x :
  holds B h x → (B <= 2 ^ 19)%Z → fe_isone (fe_legendre h) || fe_iszero h = squareb x.
Proof.
  intros H HB. unfold squareb.
  rewrite (holds_isone _ _ _ (holds_legendre _ _ _ H HB)), (holds_iszero _ _ _ H) by lia. reflexivity.
Qed.

Lemma one_holds : holds (2 ^ 16) FE_ONE 1.
Proof. by apply (holds_const FE_ONE). Qed.
Lemma two_holds : holds (2 ^ 16) FE_TWO (fp 2).
Proof. by apply (holds_const FE_TWO). Qed.
Lemma A_holds : holds (2 ^ 16) FE_A A.
Proof. by apply (holds_const FE_A). Qed.

(** The operations on elements of bounded limbs, with the bounds to be compared by
    [lia]. *)
Ltac field_step :=
  match goal with
  | |- holds ?B FE_ONE _ => apply one_holds
  | |- holds ?B FE_TWO _ => apply two_holds
  | |- holds ?B FE_A _ => apply A_holds
  | |- holds _ (fe_mul _ _) _ => eapply holds_mul
  | |- holds _ (fe_sq _) _ => eapply holds_sq
  | |- holds _ (fe_add _ _) _ => eapply holds_add
  | |- holds _ (fe_sub _ _) _ => eapply holds_sub
  | |- holds _ (fe_neg _) _ => eapply holds_neg
  | |- holds _ (fe_inv _) _ => eapply holds_inv
  | H : holds _ ?h _ |- holds _ ?h _ => exact H
  end.
Ltac field_steps := repeat field_step; lia.

Lemma Zinv_npow x : x ≠ 0 → npow x (2 ^ 255 - 21) = Zmod.inv x.
Proof. intros Hx. apply (Zmod.fermat_inv x Hx prime_p25519). Qed.

Lemma direct_holds V :
  ∃ h, representative_to_key (le_put 32 V) = fe_tobytes h ∧ holds (2 ^ 19) h (ell2 (fp (V mod 2 ^ 254))).
Proof.
  cbv beta delta [representative_to_key]. rewrite clean_bits. pose proof (fe_frombytes_holds (V mod 2 ^ 254)) as Hr.
  rewrite (Z.mod_small (V mod 2 ^ 254)) in Hr by (pose proof (Z.mod_pos_bound V (2 ^ 254)); lia).
  set (x := fp (V mod 2 ^ 254)) in *. clearbody x. cbv zeta. eexists. split; [reflexivity|].
  generalize dependent (fe_frombytes (le_put 32 (V mod 2 ^ 254))). intros r Hr.
  eassert (Hv : holds (2 ^ 17) (fe_mul (fe_neg FE_A) (fe_inv (fe_add FE_ONE (fe_mul FE_TWO (fe_sq r))))) _) by field_steps.
  rewrite Zinv_npow in Hv by apply denom_nz. set (v := fe_mul (fe_neg FE_A) _) in *. clearbody v. unfold ell2.
  set (y := - A * _) in *. clearbody y.
  eassert (Hrhs : holds _ (fe_add (fe_add (fe_mul (fe_sq v) v) (fe_mul FE_A (fe_sq v))) v) _) by field_steps.
  change (y * y * y + A * (y * y) + y) with (curve_rhs y) in Hrhs. rewrite (holds_squareb _ _ _ Hrhs) by lia.
  generalize (squareb (curve_rhs y)). intros b. apply holds_cmov; (eapply holds_mono; [|field_steps]); lia.
Qed.

Lemma tobytes_holds B h x :
  holds B h x → (B <= 2 ^ 20)%Z → ¬ (19 <= Zmod.to_Z x <= 37)%Z → fe_tobytes h = le_put 32 (Zmod.to_Z x).
Proof.
  intros H HB Hx. rewrite <- (holds_residue _ _ _ H) in *.
  destruct (fe_tobytes_cases h) as [|(k & Hk & E & _)]; [by eapply limbs_mono, H|done|lia].
Qed.

(** ** The inverse map *)

(** The square of the representative. *)
Definition rep_sq (high_y : bool) (u : Fp) : Fp :=
  if high_y then - (u + A) * Zmod.inv (fp 2 * u) else - u * Zmod.inv (fp 2 * (u + A)).

Lemma two_nz : fp 2 ≠ 0.
Proof. by apply fp_nz. Qed.

Lemma Fp_mul_nz (a b : Fp) : a ≠ 0 → b ≠ 0 → a * b ≠ 0.
Proof. intros Ha Hb [?|?]%Fp_integral; contradiction. Qed.

Lemma add_nz (a b : Fp) : a ≠ - b → a + b ≠ 0.
Proof. intros Hn H. apply Hn. transitivity (a + b - b); [ring|]. rewrite H. ring. Qed.

(** Neither of the two keys that have no representative. *)
Definition usable (u : Fp) : bool := negb (Zmod.eqb u 0) && negb (Zmod.eqb u (- A)).

Lemma usable_spec u : usable u = true ↔ u ≠ 0 ∧ u + A ≠ 0.
Proof.
  unfold usable. rewrite andb_true_iff, !negb_true_iff, <- !not_true_iff_false, !eqb_eq.
  split; intros [H0 H1]; (split; [done|]); [by apply add_nz|]. intros ->. apply H1. ring.
Qed.

Lemma usable_tests B h u :
  holds B h u → (0 <= B <= 2 ^ 19)%Z →
  usable u = negb (fe_iszero h) && negb (fe_iszero (fe_sub h (fe_neg FE_A))).
Proof.
  intros Hu HB. rewrite (holds_iszero _ _ _ Hu) by lia.
  eassert (Hd : holds _ (fe_sub h (fe_neg FE_A)) _) by field_steps.
  rewrite (holds_iszero _ _ _ Hd), sub_eq_0 by lia. reflexivity.
Qed.

Lemma key_to_representative_unusable V hy :
  usable (fp (V mod 2 ^ 255)) = false → key_to_representative (le_put 32 V) hy = None.
Proof.
  rewrite (usable_tests _ _ _ (fe_frombytes_holds V)) by lia. cbv beta delta [key_to_representative]. cbv zeta.
  destruct (fe_iszero _); [done|]. by destruct (fe_iszero _).
Qed.

Lemma key_to_representative_usable V hy :
  let u := fp (V mod 2 ^ 255) in
  usable u = true →
  ∃ h r, holds (2 ^ 19) h (least r) ∧ (squareb (rep_sq hy u) = true → r * r = rep_sq hy u) ∧
    key_to_representative (le_put 32 V) hy = if squareb (rep_sq hy u) then Some (fe_tobytes h) else None.
Proof.
  intros u HU. cbv beta delta [key_to_representative]. pose proof (fe_frombytes_holds V) as Hu. fold u in Hu.
  generalize dependent (fe_frombytes (le_put 32 V)). intros h Hu. clearbody u. cbv zeta.
  pose proof HU as HU'. rewrite (usable_tests _ _ _ Hu) in HU' by lia.
  apply andb_true_iff in HU' as [H0%negb_true_iff HA%negb_true_iff]. rewrite H0, HA. clear H0 HA.
  apply usable_spec in HU as [H0 HA].
  set (nd := if hy then (fe_neg (fe_add h FE_A), _) else _).
  assert (Hw : holds (2 ^ 17) (fe_mul nd.1 (fe_inv nd.2)) (rep_sq hy u)).
  { subst nd. unfold rep_sq. destruct hy; cbn [fst snd];
      (rewrite <- Zinv_npow by (apply Fp_mul_nz; [apply two_nz|done])); field_steps. }
  destruct nd as [num den]. cbn [fst snd] in Hw. destruct (fe_sqrt_least_spec _ _ _ Hw) as (r & Hr & Hok & Hsq); [lia|].
  destruct (fe_sqrt_least (fe_mul num (fe_inv den))) as [root ok]. cbn [fst snd] in *. subst ok.
  exists root, r. split_and!; [done|done|]. by destruct (squareb _).
Qed.

Lemma squareb_mul_sq a b s : s ≠ 0 → a = b * (s * s) → squareb a = squareb b.
Proof.
  intros Hs ->. apply eq_true_iff_eq. rewrite !squareb_spec. split.
  - intros [y Hy]. destruct (Fp_div s y Hs) as [z Hz]. exists z. apply (Fp_cancel _ _ (s * s)); [by apply Fp_mul_nz|].
    transitivity ((s * z) * (s * z)); [|ring]. rewrite Hz, <- Hy. ring.
  - intros [y ->]. exists (y * s). ring.
Qed.

Lemma inv_l (c : Fp) : c ≠ 0 → c * Zmod.inv c = 1.
Proof. intros Hc. rewrite <- Zinv_npow by done. by apply npow_inv. Qed.

(** The two values of [high_y] give squares for the same keys. *)
Lemma rep_sq_both u : usable u = true → squareb (rep_sq true u) = squareb (rep_sq false u).
Proof.
  intros [H0 HA]%usable_spec. destruct (Fp_div u (u + A) H0) as [s Hs]. apply (squareb_mul_sq _ _ s).
  { intros ->. apply HA. rewrite <- Hs. ring. }
  unfold rep_sq. pose proof (inv_l (fp 2 * u) (Fp_mul_nz _ _ two_nz H0)) as E1.
  pose proof (inv_l (fp 2 * (u + A)) (Fp_mul_nz _ _ two_nz HA)) as E2.
  generalize dependent (Zmod.inv (fp 2 * u)). intros i1 E1. generalize dependent (Zmod.inv (fp 2 * (u + A))). intros i2 E2.
  rewrite <- Hs in *. clear Hs. pose proof two_nz as H2. generalize dependent (fp 2). intros two E1 E2 H2.
  apply (Fp_cancel _ _ (two * u)); [by apply Fp_mul_nz|].
  transitivity (- (u * s) * (two * u * i1)); [ring|]. rewrite E1.
  transitivity (- (u * s) * (two * (u * s) * i2)); [rewrite E2|]; ring.
Qed.

(** ** The representability test *)

Lemma is_representable_spec V :
  let u := fp (V mod 2 ^ 255) in
  is_representable (le_put 32 V) = usable u && (squareb (rep_sq false u) || squareb (rep_sq true u)).
Proof.
  intros u. cbv beta delta [is_representable]. pose proof (fe_frombytes_holds V) as Hu. fold u in Hu.
  generalize dependent (fe_frombytes (le_put 32 V)). intros h Hu. clearbody u. cbv zeta.
  destruct (usable u) eqn:HU; rewrite (usable_tests _ _ _ Hu) in HU by lia.
  2: { by destruct (fe_iszero h), (fe_iszero (fe_sub h (fe_neg FE_A))). }
  pose proof HU as [H0%negb_true_iff HA%negb_true_iff]%andb_true_iff. rewrite H0, HA.
  rewrite <- (usable_tests _ _ _ Hu) in HU by lia. apply usable_spec in HU as [Hu0 HuA].
  eassert (Hw0 : holds (2 ^ 17) (fe_mul (fe_neg h) (fe_inv (fe_mul FE_TWO (fe_add h FE_A)))) _) by field_steps.
  eassert (Hw1 : holds (2 ^ 17) (fe_mul (fe_neg (fe_add h FE_A)) (fe_inv (fe_mul FE_TWO h))) _) by field_steps.
  rewrite Zinv_npow in Hw0, Hw1 by (apply Fp_mul_nz; [apply two_nz|done]).
  rewrite (holds_squareb _ _ _ Hw0), (holds_squareb _ _ _ Hw1) by lia. rewrite andb_true_l. unfold rep_sq. reflexivity.
Qed.

(** The number in little-endian bytes. *)
Definition le_val (s : bytes) : Z := be_get (rev s).

Lemma le_put_val s : bytes_ok s → le_put (length s) (le_val s) = s.
Proof.
  intros Hs. unfold le_val. rewrite le_put_rev, <- (length_rev s), be_put_get by (by apply Forall_rev).
  apply rev_involutive.
Qed.

(** The squared representatives are what the direct map inverts. *)
Lemma ell2_cases r :
  ∃ v, v * (1 + fp 2 * (r * r)) = - A ∧ ell2 r = if squareb (curve_rhs v) then v else - v - A.
Proof.
  eexists. split; [|reflexivity]. pose proof (inv_l _ (denom_nz r)) as H.
  generalize dependent (Zmod.inv (1 + fp 2 * (r * r))). intros i H.
  transitivity (- A * ((1 + fp 2 * (r * r)) * i)); [ring|]. rewrite H. ring.
Qed.

Lemma A_nz : A ≠ 0.
Proof. by apply fp_nz. Qed.

Lemma rep_sq_true u x : usable u = true → rep_sq true u = x ↔ u * (1 + fp 2 * x) = - A.
Proof.
  intros [H0 HA]%usable_spec. unfold rep_sq. pose proof (inv_l (fp 2 * u) (Fp_mul_nz _ _ two_nz H0)) as E.
  pose proof two_nz as H2. generalize dependent (Zmod.inv (fp 2 * u)). generalize dependent (fp 2). intros two H2 i E. split.
  - intros <-. transitivity (u - (u + A) * (two * u * i)); [ring|]. rewrite E. ring.
  - intros H. apply (Fp_cancel _ _ (two * u)); [by apply Fp_mul_nz|].
    transitivity (- (u + A) * (two * u * i)); [ring|]. rewrite E.
    transitivity (u * (1 + two * x) - u); [rewrite H|]; ring.
Qed.

Lemma rep_sq_false u x : usable u = true → rep_sq false u = x ↔ (u + A) * (1 + fp 2 * x) = A.
Proof.
  intros [H0 HA]%usable_spec. unfold rep_sq. pose proof (inv_l (fp 2 * (u + A)) (Fp_mul_nz _ _ two_nz HA)) as E.
  pose proof two_nz as H2. generalize dependent (Zmod.inv (fp 2 * (u + A))). generalize dependent (fp 2). intros two H2 i E. split.
  - intros <-. transitivity (u + A - u * (two * (u + A) * i)); [ring|]. rewrite E. ring.
  - intros H. apply (Fp_cancel _ _ (two * (u + A))); [by apply Fp_mul_nz|].
    transitivity (- u * (two * (u + A) * i)); [ring|]. rewrite E.
    transitivity ((u + A) * (1 + two * x) - (u + A)); [rewrite H|]; ring.
Qed.

Lemma ell2_rep_true u r :
  usable u = true → is_square (curve_rhs u) → r * r = rep_sq true u → ell2 r = u.
Proof.
  intros HU Hc Hr. symmetry in Hr. apply (proj1 (rep_sq_true u (r * r) HU)) in Hr. destruct (ell2_cases r) as (v & Hv & ->).
  assert (v = u) as ->.
  { apply (Fp_cancel _ _ _ (denom_nz r)). rewrite (Zmod.mul_comm _ v), (Zmod.mul_comm _ u), Hv. by symmetry. }
  apply squareb_spec in Hc. by rewrite Hc.
Qed.

(** On the other branch the point [-u - A] is not on the curve. *)
Lemma ell2_rep_false u r :
  usable u = true → is_square (curve_rhs u) → r * r = rep_sq false u → ell2 r = u.
Proof.
  intros HU [y Hy] Hr. symmetry in Hr. apply (proj1 (rep_sq_false u (r * r) HU)) in Hr. apply usable_spec in HU as [H0 HA].
  destruct (ell2_cases r) as (v & Hv & ->).
  assert (v = - (u + A)) as ->.
  { apply (Fp_cancel _ _ _ (denom_nz r)). rewrite (Zmod.mul_comm _ v), Hv, <- Hr at 1. ring. }
  destruct (squareb (curve_rhs (- (u + A)))) eqn:Hs; [|ring]. exfalso.
  apply squareb_spec in Hs as [z Hz].
  assert (H2 : fp 2 * ((r * z) * (r * z)) = y * y).
  { rewrite <- Hy. transitivity (fp 2 * (r * r) * (z * z)); [ring|]. rewrite <- Hz. unfold curve_rhs.
    transitivity (- (((u + A) * (1 + fp 2 * (r * r)) - (u + A)) * (u * u + A * u + 1))); [ring|]. rewrite Hr. ring. }
  assert (Hrz : r * z ≠ 0).
  { intros E. apply (curve_rhs_nz u H0). rewrite Hy, <- H2, E. ring. }
  destruct (Fp_div _ y Hrz) as [s Hs]. apply (two_not_square s). apply (Fp_cancel _ _ ((r * z) * (r * z))).
  { by apply Fp_mul_nz. }
  transitivity ((r * z * s) * (r * z * s)); [ring|]. rewrite Hs, <- H2. ring.
Qed.

Lemma ell2_image r :
  r ≠ 0 → usable (ell2 r) = true ∧ squareb (rep_sq true (ell2 r)) = true.
Proof.
  intros Hr. destruct (ell2_cases r) as (v & Hv & ->).
  assert (Hv0 : v ≠ 0) by (intros ->; apply A_nz; transitivity (- - A); [ring|]; rewrite <- Hv; ring).
  assert (HvA : v + A ≠ 0).
  { intros E. assert (Hx : fp 2 * ((r * r) * v) = 0).
    { transitivity (v * (1 + fp 2 * (r * r)) + A - (v + A)); [ring|]. rewrite Hv, E. ring. }
    revert Hx. apply Fp_mul_nz; [apply two_nz|]. apply Fp_mul_nz; [|done]. by apply Fp_mul_nz. }
  destruct (squareb (curve_rhs v)).
  - assert (HU : usable v = true) by (apply usable_spec; split; assumption). split; [done|]. apply squareb_spec. exists r.
    by apply (proj2 (rep_sq_true v (r * r) HU)).
  - assert (HU : usable (- v - A) = true).
    { apply usable_spec. split; intros E.
      - apply HvA. transitivity (- (- v - A)); [ring|]. rewrite E. ring.
      - apply Hv0. transitivity (- (- v - A + A)); [ring|]. rewrite E. ring. }
    split; [done|]. rewrite rep_sq_both by done. apply squareb_spec. exists r. apply (proj2 (rep_sq_false _ (r * r) HU)).
    transitivity (- (v * (1 + fp 2 * (r * r)))); [ring|]. rewrite Hv. ring.
Qed.

(** ** Theorems *)

(** The residues that [fe_tobytes] may encode wrongly. *)
Definition in_window (x : Z) : Prop := (19 <= x <= 37)%Z.

(** A key of the curve in its canonical encoding, away from the window, whose
    representatives are away from it too. *)
Record good_key (pk : bytes) (u : Z) : Prop := {
  gk_enc : pk = le_put 32 u;
  gk_range : (0 <= u < p25519)%Z;
  gk_curve : is_square (curve_rhs (fp u));
  gk_key : ¬ in_window u;
  gk_rep : ∀ k, in_window k → ell2 (fp k) ≠ fp u;
}.

Lemma to_Z_fp u : (0 <= u < p25519)%Z → Zmod.to_Z (fp u) = u.
Proof. intros Hu. rewrite Zmod.to_Z_of_Z. by apply Z.mod_small. Qed.

Lemma good_key_mod u : (0 <= u < p25519)%Z → (u mod 2 ^ 255 = u)%Z.
Proof. intros Hu. apply Z.mod_small. unfold p25519 in Hu. lia. Qed.

Lemma direct_at u V : (0 <= u < p25519)%Z → ¬ in_window u → ell2 (fp (V mod 2 ^ 254)) = fp u →
  representative_to_key (le_put 32 V) = le_put 32 u.
Proof.
  intros Hu Hw He. destruct (direct_holds V) as (h & -> & Hh). rewrite He in Hh.
  rewrite (tobytes_holds _ _ _ Hh); rewrite ?to_Z_fp by done; [done|lia|done].
Qed.

Lemma roundtrip_some pk u hy coin rep :
  good_key pk u → is_u8 coin → key_to_representative pk hy = Some rep →
  representative_to_key (set_high_bits coin rep) = pk.
Proof.
  intros [-> Hu Hc Hk Hr] Hcoin. destruct (usable (fp u)) eqn:HU.
  2: { rewrite key_to_representative_unusable; [done|]. by rewrite good_key_mod. }
  destruct (key_to_representative_usable u hy) as (h & r & Hh & Hsq & ->); rewrite ?good_key_mod in * by done; [done|].
  destruct (squareb (rep_sq hy (fp u))); [|done]. intros [= <-]. specialize (Hsq eq_refl).
  assert (Hell : ell2 (least r) = fp u).
  { rewrite <- least_sq in Hsq. destruct hy; [by apply ell2_rep_true|by apply ell2_rep_false]. }
  assert (Hb := least_le r). set (t := Zmod.to_Z (least r)) in *.
  assert (Et : fp t = least r) by apply Zmod.of_Z_to_Z.
  rewrite (tobytes_holds _ _ _ Hh); [|lia|]; fold t.
  2: { intros Hw. by apply (Hr t Hw); rewrite Et. }
  destruct (pad_bits t coin) as (V & -> & HV); [|done|].
  { assert (((p25519 - 1) / 2 < 2 ^ 254)%Z) by done. lia. }
  apply direct_at; [done..|]. by rewrite HV, Et.
Qed.

Lemma roundtrip_none pk u hy :
  good_key pk u → key_to_representative pk hy = None → ∀ r, r ≠ 0 → ell2 r ≠ fp u.
Proof.
  intros [-> Hu _ _ _] Hn r Hr He. destruct (ell2_image r Hr) as [HU Hs]. rewrite He in *.
  destruct (key_to_representative_usable u hy) as (h & x & _ & _ & E); rewrite ?good_key_mod in * by done; [done|].
  destruct hy; rewrite ?rep_sq_both in Hs by done; rewrite ?Hs, ?rep_sq_both, ?Hs in E by done; congruence.
Qed.

Lemma representable_some V hy :
  is_representable (le_put 32 V) = bool_decide (is_Some (key_to_representative (le_put 32 V) hy)).
Proof.
  rewrite is_representable_spec. destruct (usable (fp (V mod 2 ^ 255))) eqn:HU.
  - destruct (key_to_representative_usable V hy HU) as (h & r & _ & _ & ->). cbn [andb].
    rewrite rep_sq_both, orb_diag by done. destruct hy; rewrite ?rep_sq_both by done; by destruct (squareb _).
  - by rewrite key_to_representative_unusable.
Qed.

Lemma ell2_equation r u :
  ell2 r = u → u * (1 + fp 2 * (r * r)) = - A ∨ (u + A) * (1 + fp 2 * (r * r)) = A.
Proof.
  destruct (ell2_cases r) as (v & Hv & ->). destruct (squareb _); intros <-; [by left|right].
  transitivity (- (v * (1 + fp 2 * (r * r)))); [ring|]. rewrite Hv. ring.
Qed.

(** The base point of the curve is a good key. *)
Lemma base_point_good : good_key (le_put 32 9) 9.
Proof.
  split; [done|done| |unfold in_window; lia|].
  - exists (fp 14781619447589544791020593568409986887264606134616475288964881837755586237401). by vm_compute.
  - intros k Hk E%ell2_equation. unfold A in E.
    change (1 : Fp) with (fp 1) in E. rewrite <- !Zmod.of_Z_opp in E.
    repeat rewrite <- ?Zmod.of_Z_mul, <- ?Zmod.of_Z_add in E.
    rewrite !Zmod.of_Z_inj in E. unfold in_window, p25519 in *.
    assert (0 < 1 + 2 * (k * k) < 2 ^ 20)%Z by nia.
    change (- (486662) mod (2 ^ 255 - 19))%Z with (2 ^ 255 - 19 - 486662)%Z in E.
    change (486662 mod (2 ^ 255 - 19))%Z with 486662%Z in E.
    rewrite !Z.mod_small in E by lia. lia.
Qed.

Lemma ell2_zero : ¬ in_window (Zmod.to_Z (ell2 (fp ((3 * 2 ^ 254) mod 2 ^ 254)))).
Proof.
  change ((3 * 2 ^ 254) mod 2 ^ 254)%Z with 0%Z. pose proof (ell2_equation _ _ (eq_refl (ell2 (fp 0)))) as E.
  generalize dependent (ell2 (fp 0)). intros x E. change (fp 0) with (0 : Fp) in E. intros Hw.
  assert (x = - A ∨ x = 0) as [-> | ->].
  { destruct E as [<-|E]; [left; ring|right]. transitivity ((x + A) * (1 + fp 2 * (0 * 0)) - A); [ring|]. rewrite E. ring. }
  - change (Zmod.to_Z (- A)) with (2 ^ 255 - 19 - 486662)%Z in Hw. unfold in_window in Hw. lia.
  - change (Zmod.to_Z (0 : Fp)) with 0%Z in Hw. unfold in_window in Hw. lia.
Qed.

(** The direct map is Elligator 2: every 32-byte string decodes, after its two high
    bits are dropped, to the canonical encoding of [ell2], unless that value is one
    of the 19 the encoder may get wrong. *)
Theorem direct_map_correct V :
  ¬ in_window (Zmod.to_Z (ell2 (fp (V mod 2 ^ 254)))) →
  representative_to_key (le_put 32 V) = le_put 32 (Zmod.to_Z (ell2 (fp (V mod 2 ^ 254)))).
Proof.
  intros Hw. destruct (direct_holds V) as (h & -> & Hh). by rewrite (tobytes_holds _ _ _ Hh).
Qed.

Lemma direct_map_correct_witness :
  representative_to_key (le_put 32 (3 * 2 ^ 254)) = le_put 32 (Zmod.to_Z (ell2 (fp ((3 * 2 ^ 254) mod 2 ^ 254)))).
Proof.
  apply (direct_map_correct (3 * 2 ^ 254)). apply ell2_zero.
Defined.

(** C12. The inverse map is inverse to the direct one: for a good key and either
    [high_y], a representative returned, with any padding of its high bits, decodes to
    the key; and when none is returned no field element but 0 maps to the key. *)
Theorem inverse_map_correct pk u high_y coin :
  good_key pk u → is_u8 coin →
  match key_to_representative pk high_y with
  | Some rep => representative_to_key (set_high_bits coin rep) = pk
  | None => ∀ r, r ≠ 0 → ell2 r ≠ fp u
  end.
Proof.
  intros Hk Hc. destruct (key_to_representative pk high_y) eqn:E; [by eapply roundtrip_some|by eapply roundtrip_none].
Qed.

Lemma inverse_map_correct_witness :
  match key_to_representative (le_put 32 9) true with
  | Some rep => representative_to_key (set_high_bits 0xff rep) = le_put 32 9
  | None => ∀ r, r ≠ 0 → ell2 r ≠ fp 9
  end.
Proof. apply (inverse_map_correct (le_put 32 9) 9 true 0xff); [apply base_point_good|done]. Defined.

(** The test and the inverse map agree: a 32-byte string is reported representable
    exactly when the inverse map succeeds on it, for either value of [high_y]. *)
Theorem representable_equiv pk high_y :
  bytes_ok pk → length pk = 32%nat →
  is_representable pk = bool_decide (is_Some (key_to_representative pk high_y)).
Proof. intros Hb Hl. rewrite <- (le_put_val pk Hb), Hl. apply representable_some. Qed.

Lemma representable_equiv_witness :
  is_representable (le_put 32 9) = bool_decide (is_Some (key_to_representative (le_put 32 9) false)).
Proof. exact (representable_equiv (le_put 32 9) false (le_put_ok 32 9) (length_le_put 32 9)). Defined.

(** ** Key generation *)

Lemma try_key_spec d :
  bytes_ok (draw_pk d) → length (draw_pk d) = 32%nat →
  match try_key d with
  | Some (pk, sk, rep) =>
      pk = draw_pk d ∧ sk = draw_sk d ∧ is_representable pk = true ∧
      ∃ high_y, key_to_representative pk high_y = Some rep
  | None => is_representable (draw_pk d) = false
  end.
Proof.
  intros Hb Hl. unfold try_key. set (hy := negb _). clearbody hy. rewrite <- (le_put_val _ Hb), Hl.
  generalize (le_val (draw_pk d)). intros V. destruct (key_to_representative (le_put 32 V) hy) as [rep|] eqn:E.
  - split_and!; [done..| |by exists hy]. by rewrite (representable_some V hy), E.
  - rewrite (representable_some V hy), E.
    destruct (key_to_representative (le_put 32 V) (negb hy)) eqn:E'; [|done].
    pose proof (representable_some V hy) as E1. pose proof (representable_some V (negb hy)) as E2.
    rewrite E in E1. rewrite E', E1 in E2. done.
Qed.

Lemma keygen_loop_spec draws n : ∀ i,
  (∀ j, bytes_ok (draw_pk (draws j)) ∧ length (draw_pk (draws j)) = 32%nat) →
  match keygen_loop draws i n with
  | Some (pk, sk, rep) => ∃ j, (i <= j < i + n)%nat ∧ pk = draw_pk (draws j) ∧ sk = draw_sk (draws j) ∧
      is_representable pk = true ∧ (∃ high_y, key_to_representative pk high_y = Some rep) ∧
      ∀ k, (i <= k < j)%nat → is_representable (draw_pk (draws k)) = false
  | None => ∀ k, (i <= k < i + n)%nat → is_representable (draw_pk (draws k)) = false
  end.
Proof.
  induction n as [|n IH]; intros i Hd; cbn [keygen_loop]; [lia|].
  destruct (Hd i) as [Hb Hl]. pose proof (try_key_spec (draws i) Hb Hl) as Ht.
  destruct (try_key (draws i)) as [[[pk sk] rep]|].
  - destruct Ht as (-> & -> & Hr & Hx). exists i. split_and!; [lia|lia|done..|lia].
  - specialize (IH (S i) Hd). destruct (keygen_loop draws (S i) n) as [[[pk sk] rep]|].
    + destruct IH as (j & Hj & -> & -> & Hr & Hx & Hk). exists j. split_and!; [lia|lia|done..|].
      intros k Hki. destruct (decide (k = i)) as [->|]; [done|]. apply Hk. lia.
    + intros k Hki. destruct (decide (k = i)) as [->|]; [done|]. apply IH. lia.
Qed.

Lemma good_key_bytes pk u : good_key pk u → bytes_ok pk ∧ length pk = 32%nat.
Proof. intros [-> _ _ _ _]. split; [apply le_put_ok|apply length_le_put]. Qed.

(** C32. Key generation returns the first of the (at most 1000) drawn keypairs whose key
    is representable, with a padded representative that decodes to the key; it fails,
    with both keys cleared, only when none of the 1000 keys is representable. *)
Theorem keygen_correct draws coin :
  (∀ i, ∃ u, good_key (draw_pk (draws i)) u) → is_u8 coin →
  match keygen draws coin with
  | (pk, sk, Some rep) => ∃ i, (i < 1000)%nat ∧ pk = draw_pk (draws i) ∧ sk = draw_sk (draws i) ∧
      is_representable pk = true ∧ representative_to_key rep = pk ∧
      ∀ k, (k < i)%nat → is_representable (draw_pk (draws k)) = false
  | (pk, sk, None) => pk = replicate 32 0%Z ∧ sk = replicate 32 0%Z ∧
      ∀ k, (k < 1000)%nat → is_representable (draw_pk (draws k)) = false
  end.
Proof.
  intros Hd Hc. unfold keygen. pose proof (keygen_loop_spec draws ATTEMPTS 0) as Hl. unfold ATTEMPTS in *.
  specialize (Hl ltac:(intros j; destruct (Hd j) as [u Hu]; exact (good_key_bytes _ _ Hu))).
  destruct (keygen_loop draws 0 1000) as [[[pk sk] rep]|].
  - destruct Hl as (j & Hj & -> & -> & Hr & (hy & Hy) & Hk). exists j. split_and!; [lia|done..| |intros; apply Hk; lia].
    destruct (Hd j) as [u Hu]. by eapply roundtrip_some.
  - split_and!; [done..|]. intros k Hk. apply Hl. lia.
Qed.

Definition base_draws (i : nat) : draw := Draw (le_put 32 9) (replicate 32 1%Z) (Z.of_nat i mod 2).

Lemma keygen_correct_witness :
  match keygen base_draws 0x80 with
  | (pk, sk, Some rep) => ∃ i, (i < 1000)%nat ∧ pk = draw_pk (base_draws i) ∧ sk = draw_sk (base_draws i) ∧
      is_representable pk = true ∧ representative_to_key rep = pk ∧
      ∀ k, (k < i)%nat → is_representable (draw_pk (base_draws k)) = false
  | (pk, sk, None) => pk = replicate 32 0%Z ∧ sk = replicate 32 0%Z ∧
      ∀ k, (k < 1000)%nat → is_representable (draw_pk (base_draws k)) = false
  end.
Proof. apply (keygen_correct base_draws 0x80); [intros i; exists 9%Z; apply base_point_good|done]. Defined.

Lemma window_wrong :
  Forall (λ k, residue (digits 16 (2 ^ 256 - k)) = (38 - k)%Z ∧
               fe_tobytes (digits 16 (2 ^ 256 - k)) ≠ le_put 32 (38 - k))
    [1; 2; 3; 4; 5; 6; 7; 8; 9; 10; 11; 12; 13; 14; 15; 16; 17; 18; 19]%Z.
Proof.
  apply (bool_decide_unpack _). vm_compute. exact I.
Qed.

(** The encoder is wrong in a window: limbs that hold one of the last 19 values
    below 2^256 stand for a residue from 19 to 37, but their bytes are not those of
    that residue. *)
Theorem fe_tobytes_window k :
  (1 <= k <= 19)%Z →
  residue (digits 16 (2 ^ 256 - k)) = (38 - k)%Z ∧ fe_tobytes (digits 16 (2 ^ 256 - k)) ≠ le_put 32 (38 - k).
Proof.
  intros Hk. pose proof window_wrong as Hall. rewrite Forall_forall in Hall.
  apply (Hall k). change (k ∈ seqZ 1 19). apply elem_of_seqZ. lia.
Qed.

Lemma fe_tobytes_window_witness :
  residue (replicate 16 0xffff%Z) = 37%Z ∧ fe_tobytes (replicate 16 0xffff%Z) ≠ le_put 32 37.
Proof. exact (fe_tobytes_window 1 ltac:(done)). Defined.
