(* ===== verification/Wire.v ===== *)
(** * Wire: reading byte buffers field by field

    The parsers of the code keep an offset into a buffer and compare it with the
    buffer's length where they choose to. A reader is a function of the bytes that
    are left; [raw] reads without a test, [need] is a test that fails, [avail] a test
    that only selects a branch. Serializers write fields one after the other, so that
    their output is the concatenation of the fields. *)

From S2P Require Import Prelude.

Definition reader (A : Type) : Type := bytes → option (A * bytes).

#[export] Instance reader_ret : MRet reader := λ A x s, Some (x, s).
#[export] Instance reader_bind : MBind reader := λ A B k m s,
  match m s with Some (x, s) => k x s | None => None end.

(** [memcpy(dst, data + off, n); off += n] *)
Definition raw (n : nat) : reader bytes := λ s, Some (take n s, drop n s).

(** [off += n] *)
Definition skip (n : nat) : reader unit := λ s, Some (tt, drop n s).

(** A big-endian integer of [n] bytes. *)
Definition uint (n : nat) : reader Z := b ← raw n; mret (be_get b).

(** [if (off + n > data_len) return -1] *)
Definition need (n : nat) : reader unit :=
  λ s, if Z.of_nat (length s) <? Z.of_nat n then None else Some (tt, s).

(** [off + n <= data_len] *)
Definition avail (n : nat) : reader bool := λ s, Some (Z.of_nat n <=? Z.of_nat (length s), s).

(** A test on what was read. *)
Definition guard_ (b : bool) : reader unit := λ s, if b then Some (tt, s) else None.

(** The characters of a C string in an array: those before the first NUL. *)
Fixpoint cstr (l : bytes) : bytes :=
  match l with
  | [] => []
  | c :: l => if c =? 0 then [] else c :: cstr l
  end.

(** [a[n - 1] = '\0'] for an array of [n] bytes. *)
Definition set_nul (l : bytes) : bytes := <[(length l - 1)%nat := 0]> l.

(** ** What the readers do on what was written *)

Lemma reader_step {A B} (m : reader A) (k : A → reader B) s x t : m s = Some (x, t) → (m ≫= k) s = k x t.
Proof. intros H. unfold mbind, reader_bind. by rewrite H. Qed.

Lemma raw_app n x s : length x = n → raw n (x ++ s) = Some (x, s).
Proof. intros <-. unfold raw. by rewrite take_app_length, drop_app_length. Qed.

Lemma uint_app n v s : 0 <= v < 2 ^ (8 * Z.of_nat n) → uint n (be_put n v ++ s) = Some (v, s).
Proof.
  intros Hv. unfold uint. rewrite (reader_step _ _ _ _ _ (raw_app n _ s (length_be_put n v))).
  unfold mret, reader_ret. by rewrite be_get_put_small.
Qed.

Lemma need_app n x s : (n <= length x)%nat → need n (x ++ s) = Some (tt, x ++ s).
Proof. intros Hn. unfold need. rewrite length_app. destruct (Z.ltb_spec (Z.of_nat (length x + length s)) (Z.of_nat n)); [lia|done]. Qed.

Lemma avail_app n x s : (n <= length x)%nat → avail n (x ++ s) = Some (true, x ++ s).
Proof. intros Hn. unfold avail. rewrite length_app. destruct (Z.leb_spec (Z.of_nat n) (Z.of_nat (length x + length s))); [done|lia]. Qed.

Lemma cstr_snoc_nul l : cstr (l ++ [0]) = cstr l.
Proof. induction l as [|c l IH]; [done|]. cbn. destruct (c =? 0); [done|]. by rewrite IH. Qed.

(** Terminating an array that is terminated already changes nothing. *)
Lemma set_nul_id l : last l = Some 0 → set_nul l = l.
Proof.
  intros H. unfold set_nul. apply list_insert_id. rewrite last_lookup in H. by replace (length l - 1)%nat with (pred (length l)) by lia.
Qed.
