(* ===== verification/Descriptor.v ===== *)
(** * Descriptor: relay descriptors on the wire

    Models [src/src/node.c], from [moor_node_create_descriptor] to
    [moor_node_descriptor_deserialize]: the fields a relay signs, the wire format with
    its optional extensions, and signing and verification with Ed25519 and Falcon.
    The two signature schemes are parameters; that a signature verifies under the
    matching key is the hypothesis about them.

    The theorems show that a descriptor a relay signs, whatever a directory authority
    then writes into the fields that are its own, survives serialization and
    verifies on the other side, also when other data follow it in the buffer. *)

From S2P Require Import Prelude Wire.

(** ** Data *)

Definition MOOR_FALCON_PK_LEN : nat := 897.
Definition MOOR_FALCON_SIG_MAX_LEN : Z := 752.

Definition NODE_FEATURE_PQ : Z := 1.
Definition NODE_FEATURE_FAMILY : Z := 2.
Definition NODE_FEATURE_NICKNAME : Z := 4.
Definition NODE_FEATURE_CONTACT : Z := 8.
Definition NODE_FEATURE_CELL_KEM : Z := 16.
Definition NODE_FEATURE_BUILD_ID : Z := 32.
Definition NODE_FEATURE_FALCON : Z := 64.

Definition NODE_FLAG_GUARD : Z := 1.
Definition NODE_FLAG_EXIT : Z := 2.
Definition NODE_FLAG_STABLE : Z := 4.
Definition NODE_FLAG_FAST : Z := 8.
Definition NODE_FLAG_RUNNING : Z := 16.
Definition NODE_FLAG_VALID : Z := 32.
Definition NODE_FLAG_AUTHORITY : Z := 64.
Definition NODE_FLAG_BADEXIT : Z := 128.
Definition NODE_FLAG_MIDDLEONLY : Z := 256.

(** Fast, Stable, BadExit, Running, Guard and Authority. *)
Definition NODE_FLAGS_DA_ASSIGNED : Z :=
  Z.lor NODE_FLAG_FAST (Z.lor NODE_FLAG_STABLE (Z.lor NODE_FLAG_BADEXIT
    (Z.lor NODE_FLAG_RUNNING (Z.lor NODE_FLAG_GUARD NODE_FLAG_AUTHORITY)))).

(** The descriptor; arrays are lists of their length. *)
Record moor_node_descriptor_t := Desc {
  identity_pk : bytes;
  onion_pk : bytes;
  address : bytes;
  or_port : Z;
  dir_port : Z;
  flags : Z;
  bandwidth : Z;
  signature : bytes;
  published : Z;
  kem_pk : bytes;
  features : Z;
  verified_bandwidth : Z;
  country_code : Z;
  as_number : Z;
  family_members : list bytes;
  num_family_members : Z;
  family_id : bytes;
  nickname : bytes;
  address6 : bytes;
  prev_onion_pk : bytes;
  onion_key_version : Z;
  onion_key_published : Z;
  contact_info : bytes;
  protocol_version : Z;
  build_id : bytes;
  falcon_pk : bytes;
  falcon_signature : bytes;
  falcon_sig_len : Z;
  first_seen : Z;
  last_registered : Z;
  probe_failures : Z;
}.

(** [x & mask] as a condition. *)
Definition has (x mask : Z) : bool := negb (Z.land x mask =? 0).

(** [a[0] != '\0'] *)
Definition nonempty (l : bytes) : bool := match l with [] => false | c :: _ => negb (c =? 0) end.

Definition desc_has_falcon (d : moor_node_descriptor_t) : bool := existsb (λ b, negb (b =? 0)) (falcon_pk d).

(** ** What is signed *)

(** [if (b) f |= bit] *)
Definition set_if (b : bool) (bit f : Z) : Z := if b then Z.lor f bit else f.

Definition desc_wire_features (d : moor_node_descriptor_t) : Z :=
  let f := features d in
  let is_v3 := 0 <? num_family_members d in
  let has_v4 := nonempty (nickname d) || (0 <? onion_key_version d) in
  let has_v5 := nonempty (contact_info d) in
  let has_v7 := nonempty (build_id d) in
  let has_v8 := desc_has_falcon d in
  let has_v4 := has_v5 || has_v7 || has_v4 in
  let f := set_if (is_v3 || has_v4) NODE_FEATURE_FAMILY f in
  let f := set_if has_v4 NODE_FEATURE_NICKNAME f in
  let f := set_if has_v5 NODE_FEATURE_CONTACT f in
  let f := set_if has_v7 NODE_FEATURE_BUILD_ID f in
  set_if has_v8 NODE_FEATURE_FALCON f.

(** [nfm]: the number of members written. *)
Definition family_count (d : moor_node_descriptor_t) : Z := Z.min (num_family_members d) 8.

Definition family_wire (d : moor_node_descriptor_t) : bytes :=
  be_put 1 (family_count d) ++ concat (take (Z.to_nat (family_count d)) (family_members d)).

Definition v4_wire (d : moor_node_descriptor_t) : bytes :=
  nickname d ++ address6 d ++ prev_onion_pk d ++ be_put 4 (onion_key_version d) ++ be_put 8 (onion_key_published d).

(** Returned with its length, the bytes before [off]. *)
Definition desc_sign_serialize (d : moor_node_descriptor_t) : bytes :=
  let signed_flags := Z.land (flags d) (u32 (Z.lnot NODE_FLAGS_DA_ASSIGNED)) in
  identity_pk d ++ onion_pk d ++ address d ++ be_put 2 (or_port d) ++ be_put 2 (dir_port d) ++
  be_put 4 signed_flags ++ be_put 8 (bandwidth d) ++ be_put 8 (published d) ++ kem_pk d ++
  be_put 4 (features d) ++
  (if has (features d) (Z.lor NODE_FEATURE_FAMILY NODE_FEATURE_NICKNAME) then
     family_wire d ++
     (if has (features d) NODE_FEATURE_NICKNAME then
        v4_wire d ++ (if has (features d) NODE_FEATURE_CONTACT then contact_info d else [])
      else [])
   else []) ++
  (if has (features d) NODE_FEATURE_BUILD_ID then build_id d else []) ++
  (if desc_has_falcon d then falcon_pk d else []).

(** ** Signing *)

Definition set_features (f : Z) (d : moor_node_descriptor_t) : moor_node_descriptor_t := {| d with features := f |}.
Definition set_signature (sig : bytes) (d : moor_node_descriptor_t) : moor_node_descriptor_t :=
  {| d with signature := sig |}.
Definition set_falcon_signature (sig : bytes) (d : moor_node_descriptor_t) : moor_node_descriptor_t :=
  {| d with falcon_signature := blit 0 sig (falcon_signature d); falcon_sig_len := u16 (Z.of_nat (length sig)) |}.

Definition empty_desc : moor_node_descriptor_t :=
  Desc (zeros 32) (zeros 32) (zeros 64) 0 0 0 0 (zeros 64) 0 (zeros 1184) 0 0 0 0 (replicate 8 (zeros 32)) 0
    (zeros 32) (zeros 32) (zeros 64) (zeros 32) 0 0 (zeros 128) 0 (zeros 16) (zeros MOOR_FALCON_PK_LEN) (zeros 752) 0 0 0 0.

(** [strncpy(desc->address, address, 63)] into a cleared array. *)
Definition strncpy_field (n : nat) (s : bytes) : bytes :=
  let t := take (n - 1) (cstr s) in t ++ zeros (n - length t).

Section Signatures.
  Variable ed_sign : bytes → bytes → bytes.
  Variable ed_verify : bytes → bytes → bytes → bool.
  Variable falcon_sign : bytes → bytes → option bytes.
  Variable falcon_verify : bytes → bytes → bytes → bool.

(** The common end of [create] and [sign]: [use_falcon] is the condition under which
    a Falcon signature is added. [None] is the return value -1. *)
Definition sign_with (identity_sk : bytes) (falcon_sk : option bytes) (use_falcon : bool)
    (d : moor_node_descriptor_t) : option moor_node_descriptor_t :=
  let buf := desc_sign_serialize d in
  let d := set_signature (ed_sign identity_sk buf) d in
  match falcon_sk with
  | Some sk =>
      if use_falcon then
        match falcon_sign sk buf with
        | Some sig => Some (set_falcon_signature sig d)
        | None => None
        end
      else Some d
  | None => Some d
  end.

Definition moor_node_create_descriptor (now : Z) (id_pk id_sk o_pk addr : bytes) (oport dport fl bw : Z)
    (f_pk f_sk : option bytes) : option moor_node_descriptor_t :=
  let d := {| empty_desc with identity_pk := id_pk; onion_pk := o_pk; address := strncpy_field 64 addr;
              or_port := oport; dir_port := dport; flags := fl; bandwidth := bw; published := now |} in
  let d := match f_pk with
           | Some pk => {| d with falcon_pk := pk; features := Z.lor (features d) NODE_FEATURE_FALCON |}
           | None => d
           end in
  sign_with id_sk f_sk (match f_pk with Some _ => true | None => false end) d.

Definition moor_node_sign_descriptor (d : moor_node_descriptor_t) (id_sk : bytes) (f_sk : option bytes)
    : option moor_node_descriptor_t :=
  let d := set_features (desc_wire_features d) d in
  sign_with id_sk f_sk (has (features d) NODE_FEATURE_FALCON) d.

Definition moor_node_verify_descriptor (d : moor_node_descriptor_t) : bool :=
  let buf := desc_sign_serialize d in
  ed_verify (signature d) buf (identity_pk d) &&
  (if has (features d) NODE_FEATURE_FALCON then
     if (falcon_sig_len d =? 0) || (MOOR_FALCON_SIG_MAX_LEN <? falcon_sig_len d) then false
     else falcon_verify (take (Z.to_nat (falcon_sig_len d)) (falcon_signature d)) buf (falcon_pk d)
   else true).

End Signatures.

(** ** The wire format *)

Definition DESC_WIRE_SIZE : Z := 216.
Definition DESC_V2_WIRE_SIZE : Z := 1418.
Definition DESC_V4_EXTRA : nat := 140.
Definition DESC_V5_EXTRA : nat := 128.
Definition DESC_V7_EXTRA : Z := 16.

Definition v1_wire (d : moor_node_descriptor_t) : bytes :=
  identity_pk d ++ onion_pk d ++ address d ++ be_put 2 (or_port d) ++ be_put 2 (dir_port d) ++
  be_put 4 (flags d) ++ be_put 8 (bandwidth d) ++ be_put 8 (published d) ++ signature d.

Definition v2_wire (wire_features : Z) (d : moor_node_descriptor_t) : bytes :=
  be_put 4 wire_features ++ kem_pk d ++ be_put 8 (verified_bandwidth d) ++ be_put 2 (country_code d) ++
  be_put 4 (as_number d).

Definition v8_wire (d : moor_node_descriptor_t) : bytes :=
  falcon_pk d ++ be_put 2 (falcon_sig_len d) ++ take (Z.to_nat (falcon_sig_len d)) (falcon_signature d).

(** [None] is the return value -1. *)
Definition moor_node_descriptor_serialize (out_len : Z) (d : moor_node_descriptor_t) : option bytes :=
  let is_v3 := 0 <? num_family_members d in
  let is_v2 := negb (features d =? 0) || is_v3 in
  let has_v4 := nonempty (nickname d) || (0 <? onion_key_version d) in
  let has_v5 := nonempty (contact_info d) in
  let has_v7 := nonempty (build_id d) in
  let has_v8 := has (features d) NODE_FEATURE_FALCON && desc_has_falcon d in
  let needed := if is_v2 then DESC_V2_WIRE_SIZE else DESC_WIRE_SIZE in
  let needed := if is_v3 then needed + (1 + num_family_members d * 32 + 32) else needed in
  let any_v4 := has_v4 || has_v5 || has_v7 in
  let needed :=
    if any_v4 then
      let needed := if negb is_v2 then DESC_V2_WIRE_SIZE else needed in
      let needed := if negb is_v3 then needed + (1 + 32) else needed in
      needed + Z.of_nat DESC_V4_EXTRA
    else needed in
  let is_v2 := is_v2 || any_v4 in
  let has_v4 := any_v4 in
  let needed := if has_v5 then needed + Z.of_nat DESC_V5_EXTRA else needed in
  let needed := if is_v2 then needed + 2 else needed in
  let needed := if has_v7 then needed + DESC_V7_EXTRA else needed in
  let needed := if has_v8 then needed + Z.of_nat MOOR_FALCON_PK_LEN + 2 + falcon_sig_len d else needed in
  if out_len <? needed then None else
  let wire_features := features d in
  let wire_features := set_if (is_v3 || has_v4) NODE_FEATURE_FAMILY wire_features in
  let wire_features := set_if has_v4 NODE_FEATURE_NICKNAME wire_features in
  let wire_features := set_if has_v5 NODE_FEATURE_CONTACT wire_features in
  let wire_features := set_if has_v7 NODE_FEATURE_BUILD_ID wire_features in
  let wire_features := set_if has_v8 NODE_FEATURE_FALCON wire_features in
  Some (v1_wire d ++
        (if is_v2 then v2_wire wire_features d else []) ++
        (if is_v3 || has_v4 then family_wire d ++ family_id d else []) ++
        (if has_v4 then v4_wire d else []) ++
        (if has_v5 then contact_info d else []) ++
        (if is_v2 then be_put 2 (protocol_version d) else []) ++
        (if has_v7 then build_id d else []) ++
        (if has_v8 then v8_wire d else [])).

(** ** Parsing *)

(** [ch < 0x20 || ch == 0x7F] for a character of a string. *)
Definition is_control (ch : Z) : bool := (ch <? 0x20) || (ch =? 0x7f).
Definition is_control_or_space (ch : Z) : bool := (ch <? 0x20) || (ch =? 0x20) || (ch =? 0x7f).

(** Reads an array of [n] characters, terminates it and rejects it if one of its
    characters is bad. *)
Definition read_string (bad : Z → bool) (n : nat) : reader bytes :=
  b ← raw n;
  let b := set_nul b in
  guard_ (negb (existsb bad (cstr b)));; mret b.

Record v1_fields := V1 {
  w_identity_pk : bytes; w_onion_pk : bytes; w_address : bytes; w_or_port : Z; w_dir_port : Z;
  w_flags : Z; w_bandwidth : Z; w_published : Z; w_signature : bytes;
}.

Definition read_v1 : reader v1_fields :=
  id ← raw 32; on ← raw 32; ad ← read_string is_control_or_space 64;
  op ← uint 2; dp ← uint 2; fl ← uint 4; bw ← uint 8; pb ← uint 8; sg ← raw 64;
  mret (V1 id on ad op dp fl bw pb sg).

Record v2_fields := V2 {
  w_features : Z; w_kem_pk : bytes; w_verified_bandwidth : Z; w_country_code : Z; w_as_number : Z;
}.

Definition read_v2 : reader v2_fields :=
  ft ← uint 4; km ← raw 1184; vb ← uint 8; cc ← uint 2; an ← uint 4; mret (V2 ft km vb cc an).

Fixpoint read_members (n : nat) : reader (list bytes) :=
  match n with
  | O => mret []
  | S n => need 32;; m ← raw 32; l ← read_members n; mret (m :: l)
  end.

Fixpoint skip_members (n : nat) : reader unit :=
  match n with
  | O => mret tt
  | S n => need 32;; skip 32;; skip_members n
  end.

Record v3_fields := V3 { w_members : list bytes; w_num_members : Z; w_family_id : bytes }.

Definition read_v3 : reader v3_fields :=
  need 1;; wire_count ← uint 1;
  let actual := if 8 <? wire_count then 8 else wire_count in
  ms ← read_members (Z.to_nat actual);
  skip_members (Z.to_nat (wire_count - actual));;
  need 32;; fid ← raw 32;
  mret (V3 (ms ++ replicate (8 - length ms) (zeros 32)) actual fid).

Record v4_fields := V4 {
  w_nickname : bytes; w_address6 : bytes; w_prev_onion_pk : bytes; w_okv : Z; w_okp : Z; w_contact : bytes;
}.

Definition no_v4 : v4_fields := V4 (zeros 32) (zeros 64) (zeros 32) 0 0 (zeros 128).

(** The V4 block, and V5 after it. *)
Definition read_v4 (features : Z) : reader v4_fields :=
  nn ← read_string is_control 32; a6 ← read_string is_control 64; pk ← raw 32; kv ← uint 4; kp ← uint 8;
  ok5 ← avail DESC_V5_EXTRA;
  ct ← (if has features NODE_FEATURE_CONTACT && ok5 then read_string is_control 128 else mret (zeros 128));
  mret (V4 nn a6 pk kv kp ct).

(** Characters of the build id that are not printable become underscores. *)
Fixpoint sanitize (l : bytes) : bytes :=
  match l with
  | [] => []
  | c :: r => if c =? 0 then l else (if (c <? 0x20) || (0x7f <=? c) then 0x5f else c) :: sanitize r
  end.

Definition read_v7 : reader bytes := b ← raw 16; mret (sanitize b).

Record v8_fields := V8 { w_falcon_pk : bytes; w_falcon_sig : bytes; w_falcon_len : Z }.

Definition no_v8 : v8_fields := V8 (zeros MOOR_FALCON_PK_LEN) (zeros 752) 0.

Definition read_v8 : reader v8_fields :=
  pk ← raw MOOR_FALCON_PK_LEN; sig_len ← uint 2;
  guard_ (negb ((sig_len =? 0) || (MOOR_FALCON_SIG_MAX_LEN <? sig_len)));;
  need (Z.to_nat sig_len);; sig ← raw (Z.to_nat sig_len);
  mret (V8 pk (sig ++ zeros (752 - length sig)) sig_len).

(** The optional blocks, each behind its feature bit and the tests of the length. *)
Definition no_v3 : v3_fields := V3 (replicate 8 (zeros 32)) 0 (zeros 32).

Definition read_family (ft : Z) : reader v3_fields :=
  if has ft (Z.lor NODE_FEATURE_FAMILY NODE_FEATURE_NICKNAME) then read_v3 else mret no_v3.

Definition read_nickname (ft : Z) : reader v4_fields :=
  ok ← avail DESC_V4_EXTRA; if has ft NODE_FEATURE_NICKNAME && ok then read_v4 ft else mret no_v4.

Definition read_protocol : reader Z :=
  ok ← avail 2; if (ok : bool) then uint 2 else mret 0.

Definition read_build_id (ft : Z) : reader bytes :=
  ok ← avail 16; if has ft NODE_FEATURE_BUILD_ID && ok then read_v7 else mret (zeros 16).

Definition read_falcon (ft : Z) : reader v8_fields :=
  ok ← avail (MOOR_FALCON_PK_LEN + 2); if has ft NODE_FEATURE_FALCON && ok then read_v8 else mret no_v8.

(** Everything after V1, for a buffer long enough for V2. *)
Definition read_extensions : reader (v2_fields * v3_fields * v4_fields * Z * bytes * v8_fields) :=
  e2 ← read_v2;
  e3 ← read_family (w_features e2);
  e4 ← read_nickname (w_features e2);
  pv ← read_protocol;
  bi ← read_build_id (w_features e2);
  e8 ← read_falcon (w_features e2);
  mret (e2, e3, e4, pv, bi, e8).

Definition desc_of (e1 : v1_fields) (e2 : v2_fields) (e3 : v3_fields) (e4 : v4_fields) (pv : Z) (bi : bytes)
    (e8 : v8_fields) : moor_node_descriptor_t :=
  Desc (w_identity_pk e1) (w_onion_pk e1) (w_address e1) (w_or_port e1) (w_dir_port e1) (w_flags e1)
    (w_bandwidth e1) (w_signature e1) (w_published e1) (w_kem_pk e2) (w_features e2) (w_verified_bandwidth e2)
    (w_country_code e2) (w_as_number e2) (w_members e3) (w_num_members e3) (w_family_id e3)
    (w_nickname e4) (w_address6 e4) (w_prev_onion_pk e4) (w_okv e4) (w_okp e4) (w_contact e4)
    pv bi (w_falcon_pk e8) (w_falcon_sig e8) (w_falcon_len e8) 0 0 0.

(** The descriptor and the number of bytes read; [None] is the return value -1. *)
Definition moor_node_descriptor_deserialize (data : bytes) : option (moor_node_descriptor_t * Z) :=
  if Z.of_nat (length data) <? DESC_WIRE_SIZE then None else
  match read_v1 data with
  | None => None
  | Some (e1, rest) =>
      if DESC_V2_WIRE_SIZE <=? Z.of_nat (length data) then
        match read_extensions rest with
        | None => None
        | Some ((e2, e3, e4, pv, bi, e8), rest) =>
            Some (desc_of e1 e2 e3 e4 pv bi e8, Z.of_nat (length data - length rest))
        end
      else Some (desc_of e1 (V2 0 (zeros 1184) 0 0 0) no_v3 no_v4 0 (zeros 16) no_v8,
                 Z.of_nat (length data - length rest))
  end.

(** ** Well-formed descriptors *)

(** An array that holds a terminated string without bad characters. *)
Definition string_ok (bad : Z → bool) (n : nat) (l : bytes) : Prop :=
  length l = n ∧ last l = Some 0 ∧ existsb bad (cstr l) = false.

(** The fields have their sizes and ranges, and the strings are clean. *)
Record desc_ok (d : moor_node_descriptor_t) : Prop := {
  ok_identity : length (identity_pk d) = 32%nat;
  ok_onion : length (onion_pk d) = 32%nat;
  ok_address : string_ok is_control_or_space 64 (address d);
  ok_or_port : is_u16 (or_port d);
  ok_dir_port : is_u16 (dir_port d);
  ok_flags : is_u32 (flags d);
  ok_bandwidth : is_u64 (bandwidth d);
  ok_signature : length (signature d) = 64%nat;
  ok_published : is_u64 (published d);
  ok_kem : length (kem_pk d) = 1184%nat;
  ok_features : is_u32 (features d);
  ok_vbw : is_u64 (verified_bandwidth d);
  ok_country : is_u16 (country_code d);
  ok_as : is_u32 (as_number d);
  ok_members : length (family_members d) = 8%nat ∧ Forall (λ m, length m = 32%nat) (family_members d);
  ok_num : 0 <= num_family_members d <= 8;
  ok_family_id : length (family_id d) = 32%nat;
  ok_nickname : string_ok is_control 32 (nickname d);
  ok_address6 : string_ok is_control 64 (address6 d);
  ok_prev : length (prev_onion_pk d) = 32%nat;
  ok_okv : is_u32 (onion_key_version d);
  ok_okp : is_u64 (onion_key_published d);
  ok_contact : string_ok is_control 128 (contact_info d);
  ok_proto : is_u16 (protocol_version d);
  ok_build : length (build_id d) = 16%nat ∧ sanitize (build_id d) = build_id d;
  ok_falcon_pk : length (falcon_pk d) = MOOR_FALCON_PK_LEN;
  ok_sig_len : 0 <= falcon_sig_len d <= MOOR_FALCON_SIG_MAX_LEN;
  ok_sig : length (falcon_signature d) = 752%nat;
}.

(** The contents that the optional blocks are written for. *)
Definition wants_v4 (d : moor_node_descriptor_t) : bool :=
  nonempty (contact_info d) || nonempty (build_id d) || (nonempty (nickname d) || (0 <? onion_key_version d)).
Definition wants_v3 (d : moor_node_descriptor_t) : bool := (0 <? num_family_members d) || wants_v4 d.

(** No feature bit announces a block that is not there. *)
Definition no_stale_bits (d : moor_node_descriptor_t) : Prop :=
  (has (features d) NODE_FEATURE_FAMILY = true → wants_v3 d = true) ∧
  (has (features d) NODE_FEATURE_NICKNAME = true → wants_v4 d = true) ∧
  (has (features d) NODE_FEATURE_CONTACT = true → nonempty (contact_info d) = true) ∧
  (has (features d) NODE_FEATURE_BUILD_ID = true → nonempty (build_id d) = true) ∧
  (has (features d) NODE_FEATURE_FALCON = true → desc_has_falcon d = true).

(** The feature bits are those of the blocks. *)
Record features_match (d : moor_node_descriptor_t) : Prop := {
  fm_family : has (features d) NODE_FEATURE_FAMILY = wants_v3 d;
  fm_nickname : has (features d) NODE_FEATURE_NICKNAME = wants_v4 d;
  fm_contact : has (features d) NODE_FEATURE_CONTACT = nonempty (contact_info d);
  fm_build : has (features d) NODE_FEATURE_BUILD_ID = nonempty (build_id d);
  fm_falcon : has (features d) NODE_FEATURE_FALCON = desc_has_falcon d;
}.

(** ** Feature bits *)

Lemma has_lor f g m : has (Z.lor f g) m = has f m || has g m.
Proof.
  unfold has. rewrite Z.land_lor_distr_l. apply eq_true_iff_eq.
  rewrite orb_true_iff, !negb_true_iff, !Z.eqb_neq, Z.lor_eq_0_iff. lia.
Qed.

Lemma has_lor_r f a b : has f (Z.lor a b) = has f a || has f b.
Proof. unfold has. rewrite (Z.land_comm f), (Z.land_comm f a), (Z.land_comm f b). apply (has_lor a b f). Qed.

Lemma has_set_if b bit f m : has (set_if b bit f) m = has f m || (b && has bit m).
Proof. unfold set_if. destruct b; [apply has_lor|]. by rewrite orb_false_r. Qed.

Lemma has_bit f k : 0 <= k → has f (2 ^ k) = Z.testbit f k.
Proof.
  intros Hk. unfold has. destruct (Z.testbit f k) eqn:E.
  - apply negb_true_iff, Z.eqb_neq. intros H0. pose proof (Z.bits_0 k) as H. rewrite <- H0, Z.land_spec, E in H.
    rewrite Z.pow2_bits_true in H by lia. done.
  - apply negb_false_iff, Z.eqb_eq. apply Z.bits_inj'. intros n Hn. rewrite Z.land_spec, Z.bits_0.
    rewrite Z.pow2_bits_eqb by lia. destruct (Z.eqb_spec k n) as [<-|]; [by rewrite E|by rewrite andb_false_r].
Qed.

Lemma set_if_same b k f : 0 <= k → has f (2 ^ k) = b → set_if b (2 ^ k) f = f.
Proof.
  intros Hk <-. unfold set_if. rewrite has_bit by done. destruct (Z.testbit f k) eqn:E; [|done].
  apply Z.bits_inj'. intros n Hn. rewrite Z.lor_spec, Z.pow2_bits_eqb by lia.
  destruct (Z.eqb_spec k n) as [<-|]; [by rewrite E|by rewrite orb_false_r].
Qed.

(** Evaluates the tests of one feature bit against another. *)
Ltac has_consts :=
  repeat match goal with
  | |- context [has ?a ?b] =>
      let a' := eval cbv [NODE_FEATURE_PQ NODE_FEATURE_FAMILY NODE_FEATURE_NICKNAME NODE_FEATURE_CONTACT
        NODE_FEATURE_CELL_KEM NODE_FEATURE_BUILD_ID NODE_FEATURE_FALCON] in a in
      lazymatch a' with Zpos _ => idtac end;
      let v := eval vm_compute in (has a b) in change (has a b) with v
  end.

Lemma features_match_sign d : no_stale_bits d → features_match (set_features (desc_wire_features d) d).
Proof.
  intros (H1 & H2 & H3 & H5 & H6).
  split; cbn [features set_features]; unfold desc_wire_features; cbv zeta; rewrite !has_set_if; has_consts;
    fold (wants_v4 d); fold (wants_v3 d); change (wants_v3 (set_features _ d)) with (wants_v3 d);
    change (wants_v4 (set_features _ d)) with (wants_v4 d);
    change (desc_has_falcon (set_features _ d)) with (desc_has_falcon d); cbn [contact_info build_id set_features]; rewrite ?andb_false_r, ?andb_true_r, ?orb_false_r.
  - destruct (has (features d) NODE_FEATURE_FAMILY) eqn:E; [by rewrite H1|done].
  - destruct (has (features d) NODE_FEATURE_NICKNAME) eqn:E; [by rewrite H2|done].
  - destruct (has (features d) NODE_FEATURE_CONTACT) eqn:E; [by rewrite H3|done].
  - destruct (has (features d) NODE_FEATURE_BUILD_ID) eqn:E; [by rewrite H5|done].
  - destruct (has (features d) NODE_FEATURE_FALCON) eqn:E; [by rewrite H6|done].
Qed.

(** The wire format of a descriptor whose bits match: each block is there when its
    bit is. *)
Definition wire (d : moor_node_descriptor_t) : bytes :=
  v1_wire d ++ v2_wire (features d) d ++
  (if has (features d) (Z.lor NODE_FEATURE_FAMILY NODE_FEATURE_NICKNAME) then family_wire d ++ family_id d else []) ++
  (if has (features d) NODE_FEATURE_NICKNAME then v4_wire d else []) ++
  (if has (features d) NODE_FEATURE_CONTACT then contact_info d else []) ++
  be_put 2 (protocol_version d) ++
  (if has (features d) NODE_FEATURE_BUILD_ID then build_id d else []) ++
  (if has (features d) NODE_FEATURE_FALCON then v8_wire d else []).

Lemma wants_v3_v4 d : wants_v3 d || wants_v4 d = wants_v3 d.
Proof. unfold wants_v3. by destruct (wants_v4 d), (0 <? _). Qed.

Lemma serialize_wire d out_len :
  features_match d → features d ≠ 0 → 0 <= num_family_members d <= 8 →
  0 <= falcon_sig_len d <= MOOR_FALCON_SIG_MAX_LEN → 3644 <= out_len →
  moor_node_descriptor_serialize out_len d = Some (wire d).
Proof.
  intros [F1 F2 F3 F5 F6] Hf Hn Hs Ho. unfold moor_node_descriptor_serialize. cbv zeta.
  assert (Hv4 : nonempty (nickname d) || (0 <? onion_key_version d) || nonempty (contact_info d) || nonempty (build_id d)
    = wants_v4 d) by (unfold wants_v4; by destruct (nonempty (nickname d)), (0 <? onion_key_version d),
      (nonempty (contact_info d)), (nonempty (build_id d))).
  rewrite Hv4. fold (wants_v3 d). replace (negb (features d =? 0)) with true by lia. cbn [orb negb].
  rewrite F6, andb_diag. match goal with |- (if ?x <? ?y then _ else _) = _ => assert (Hlt : (x <? y) = false) end.
  { apply Z.ltb_ge. unfold MOOR_FALCON_SIG_MAX_LEN, DESC_V2_WIRE_SIZE, DESC_WIRE_SIZE, DESC_V7_EXTRA,
      DESC_V4_EXTRA, DESC_V5_EXTRA, MOOR_FALCON_PK_LEN in *.
    destruct (0 <? num_family_members d), (wants_v4 d), (nonempty (contact_info d)), (nonempty (build_id d)),
      (desc_has_falcon d); cbn [negb]; lia. }
  rewrite Hlt. unfold wire. rewrite has_lor_r, F1, F2, F3, F5, F6, wants_v3_v4.
  rewrite (set_if_same _ 1), (set_if_same _ 2), (set_if_same _ 3), (set_if_same _ 5), (set_if_same _ 6) by done.
  done.
Qed.

(** ** Reading back *)

Lemma read_string_app bad n x s : string_ok bad n x → read_string bad n (x ++ s) = Some (x, s).
Proof.
  intros (Hl & Hn & Hb). unfold read_string. rewrite (reader_step _ _ _ _ _ (raw_app n x s Hl)). cbv zeta.
  rewrite set_nul_id by done. unfold guard_, mbind, reader_bind. by rewrite Hb.
Qed.

(** One field of a block, then the next. *)
Ltac read1 :=
  first
    [ erewrite reader_step by (apply raw_app; eassumption)
    | erewrite reader_step by (apply read_string_app; eassumption)
    | erewrite reader_step by (apply uint_app; eassumption) ].

Lemma read_v1_app d s : desc_ok d →
  read_v1 (v1_wire d ++ s) =
  Some (V1 (identity_pk d) (onion_pk d) (address d) (or_port d) (dir_port d) (flags d) (bandwidth d)
    (published d) (signature d), s).
Proof.
  intros []. unfold read_v1, v1_wire. rewrite <- !app_assoc. do 9 read1. done.
Qed.

Lemma read_v2_app d f s : desc_ok d → is_u32 f →
  read_v2 (v2_wire f d ++ s) =
  Some (V2 f (kem_pk d) (verified_bandwidth d) (country_code d) (as_number d), s).
Proof.
  intros [] Hf. unfold read_v2, v2_wire. rewrite <- !app_assoc. do 5 read1. done.
Qed.

Lemma read_members_app ms s : Forall (λ m, length m = 32%nat) ms →
  read_members (length ms) (concat ms ++ s) = Some (ms, s).
Proof.
  induction 1 as [|m ms Hm _ IH]; [done|]. cbn [length read_members concat]. rewrite <- app_assoc.
  erewrite reader_step by (apply need_app; lia). erewrite reader_step by (by apply raw_app).
  by erewrite reader_step by exact IH.
Qed.

(** The declared members, in an array that is clear behind them. *)
Definition declared_members (d : moor_node_descriptor_t) : list bytes :=
  let ms := take (Z.to_nat (num_family_members d)) (family_members d) in ms ++ replicate (8 - length ms) (zeros 32).

Lemma read_v3_app d s : desc_ok d →
  read_v3 (family_wire d ++ family_id d ++ s) = Some (V3 (declared_members d) (num_family_members d) (family_id d), s).
Proof.
  intros []. unfold read_v3, family_wire, family_count, declared_members. rewrite Z.min_l by lia.
  destruct ok_members0 as [Hl HF]. set (ms := take (Z.to_nat (num_family_members d)) (family_members d)).
  assert (Hms : length ms = Z.to_nat (num_family_members d)) by (unfold ms; rewrite length_take; lia).
  rewrite <- !app_assoc. erewrite reader_step by (apply need_app; by rewrite length_be_put).
  erewrite reader_step by (apply uint_app; cbn; lia). cbv zeta.
  destruct (Z.ltb_spec 8 (num_family_members d)); [lia|]. rewrite Z.sub_diag. cbn [Z.to_nat skip_members].
  rewrite <- Hms. erewrite reader_step by (apply read_members_app; by apply Forall_take).
  erewrite reader_step by reflexivity. erewrite reader_step by (apply need_app; lia).
  by erewrite reader_step by (by apply raw_app).
Qed.

Lemma length_v1 d : desc_ok d → length (v1_wire d) = 216%nat.
Proof. intros []. unfold v1_wire. destruct ok_address0. rewrite !length_app, !length_be_put. lia. Qed.
Lemma length_v2 d f : desc_ok d → length (v2_wire f d) = 1202%nat.
Proof. intros []. unfold v2_wire. rewrite !length_app, !length_be_put. lia. Qed.
Lemma length_v4 d : desc_ok d → length (v4_wire d) = 140%nat.
Proof.
  intros []. unfold v4_wire. destruct ok_nickname0, ok_address7. rewrite !length_app, !length_be_put. lia.
Qed.

(** A length test before an optional block succeeds when the block is there. *)
Lemma avail_block {B} b n x s (k : bool → reader B) :
  (b = true → (n <= length x)%nat) →
  (ok ← avail n; k (b && ok)) ((if b then x else []) ++ s) = k b ((if b then x else []) ++ s).
Proof.
  intros Hn. destruct b.
  - by erewrite reader_step by (apply avail_app; auto).
  - by erewrite reader_step by reflexivity.
Qed.

Definition contact_read (d : moor_node_descriptor_t) : bytes :=
  if has (features d) NODE_FEATURE_CONTACT then contact_info d else zeros 128.

Lemma read_v4_app d s : desc_ok d →
  read_v4 (features d) (v4_wire d ++ (if has (features d) NODE_FEATURE_CONTACT then contact_info d else []) ++ s) =
  Some (V4 (nickname d) (address6 d) (prev_onion_pk d) (onion_key_version d) (onion_key_published d) (contact_read d), s).
Proof.
  intros []. unfold read_v4, v4_wire, contact_read. rewrite <- !app_assoc. do 5 read1.
  rewrite (avail_block _ _ _ _ (λ b, ct ← (if b then read_string is_control 128 else mret (zeros 128));
    mret (V4 (nickname d) (address6 d) (prev_onion_pk d) (onion_key_version d) (onion_key_published d) ct))).
  - destruct (has (features d) NODE_FEATURE_CONTACT); [by read1|done].
  - intros _. destruct ok_contact0 as [-> _]. done.
Qed.

Lemma read_v7_app d s : desc_ok d → read_v7 (build_id d ++ s) = Some (build_id d, s).
Proof.
  intros []. destruct ok_build0 as [Hl Hs]. unfold read_v7. read1. unfold mret, reader_ret. by rewrite Hs.
Qed.

(** The signature in an array that is clear behind it. *)
Definition falcon_sig_read (d : moor_node_descriptor_t) : bytes :=
  let sig := take (Z.to_nat (falcon_sig_len d)) (falcon_signature d) in sig ++ zeros (752 - length sig).

Lemma read_v8_app d s : desc_ok d → falcon_sig_len d ≠ 0 →
  read_v8 (v8_wire d ++ s) = Some (V8 (falcon_pk d) (falcon_sig_read d) (falcon_sig_len d), s).
Proof.
  intros [] Hz. unfold read_v8, v8_wire, falcon_sig_read, MOOR_FALCON_SIG_MAX_LEN in *. rewrite <- !app_assoc. read1.
  erewrite reader_step by (apply uint_app; cbn; lia).
  replace ((falcon_sig_len d =? 0) || (752 <? falcon_sig_len d)) with false by lia.
  erewrite reader_step by reflexivity. set (sig := take _ (falcon_signature d)).
  assert (Hl : length sig = Z.to_nat (falcon_sig_len d)) by (unfold sig; rewrite length_take; lia).
  erewrite reader_step by (apply need_app; lia). by read1.
Qed.

(** What a reader gets of a descriptor: blocks that are not sent and fields that are
    not on the wire are clear. *)
Definition received (d : moor_node_descriptor_t) : moor_node_descriptor_t :=
  let fam := has (features d) (Z.lor NODE_FEATURE_FAMILY NODE_FEATURE_NICKNAME) in
  let nick := has (features d) NODE_FEATURE_NICKNAME in
  let falcon := has (features d) NODE_FEATURE_FALCON in
  desc_of
    (V1 (identity_pk d) (onion_pk d) (address d) (or_port d) (dir_port d) (flags d) (bandwidth d) (published d) (signature d))
    (V2 (features d) (kem_pk d) (verified_bandwidth d) (country_code d) (as_number d))
    (if fam then V3 (declared_members d) (num_family_members d) (family_id d) else no_v3)
    (if nick then V4 (nickname d) (address6 d) (prev_onion_pk d) (onion_key_version d) (onion_key_published d) (contact_read d)
     else no_v4)
    (protocol_version d)
    (if has (features d) NODE_FEATURE_BUILD_ID then build_id d else zeros 16)
    (if falcon then V8 (falcon_pk d) (falcon_sig_read d) (falcon_sig_len d) else no_v8).

Lemma contact_nickname d :
  features_match d → has (features d) NODE_FEATURE_NICKNAME = false → has (features d) NODE_FEATURE_CONTACT = false.
Proof. intros [] H. rewrite fm_contact0. rewrite fm_nickname0 in H. unfold wants_v4 in H. by destruct (nonempty (contact_info d)). Qed.

Lemma read_family_app d s : desc_ok d →
  let fam := has (features d) (Z.lor NODE_FEATURE_FAMILY NODE_FEATURE_NICKNAME) in
  read_family (features d) ((if fam then family_wire d ++ family_id d else []) ++ s) =
  Some (if fam then V3 (declared_members d) (num_family_members d) (family_id d) else no_v3, s).
Proof.
  intros Hd fam. unfold read_family. fold fam. destruct fam; [|done]. rewrite <- app_assoc. by apply read_v3_app.
Qed.

Lemma read_nickname_app d s : desc_ok d → features_match d →
  let nick := has (features d) NODE_FEATURE_NICKNAME in
  read_nickname (features d) ((if nick then v4_wire d else []) ++
    (if has (features d) NODE_FEATURE_CONTACT then contact_info d else []) ++ s) =
  Some (if nick then V4 (nickname d) (address6 d) (prev_onion_pk d) (onion_key_version d) (onion_key_published d) (contact_read d)
        else no_v4, s).
Proof.
  intros Hd Hm nick. unfold read_nickname. fold nick.
  rewrite (avail_block _ _ _ _ (λ b, if b then read_v4 (features d) else mret no_v4)) by (by rewrite length_v4).
  destruct nick eqn:E; [by apply read_v4_app|]. rewrite contact_nickname by done. done.
Qed.

Lemma read_build_id_app d s : desc_ok d →
  let b := has (features d) NODE_FEATURE_BUILD_ID in
  read_build_id (features d) ((if b then build_id d else []) ++ s) = Some (if b then build_id d else zeros 16, s).
Proof.
  intros Hd b. unfold read_build_id. fold b. rewrite (avail_block _ _ _ _ (λ b, if b then read_v7 else mret (zeros 16))).
  - destruct b; [by apply read_v7_app|done].
  - intros _. destruct Hd as []. destruct ok_build0 as [-> _]. done.
Qed.

Lemma read_falcon_app d s : desc_ok d →
  let b := has (features d) NODE_FEATURE_FALCON in
  (b = true → falcon_sig_len d ≠ 0) →
  read_falcon (features d) ((if b then v8_wire d else []) ++ s) =
  Some (if b then V8 (falcon_pk d) (falcon_sig_read d) (falcon_sig_len d) else no_v8, s).
Proof.
  intros Hd b Hb. unfold read_falcon. fold b. rewrite (avail_block _ _ _ _ (λ b, if b then read_v8 else mret no_v8)).
  - destruct b; [by apply read_v8_app; [|apply Hb]|done].
  - intros _. unfold v8_wire. rewrite !length_app, length_be_put, (ok_falcon_pk d Hd). lia.
Qed.

Lemma read_extensions_app d s :
  desc_ok d → features_match d → (has (features d) NODE_FEATURE_FALCON = true → falcon_sig_len d ≠ 0) →
  ∃ e2 e3 e4 pv bi e8,
    read_extensions (drop 216 (wire d ++ s)) = Some ((e2, e3, e4, pv, bi, e8), s) ∧
    received d = desc_of (V1 (identity_pk d) (onion_pk d) (address d) (or_port d) (dir_port d) (flags d) (bandwidth d)
      (published d) (signature d)) e2 e3 e4 pv bi e8.
Proof.
  intros Hd Hm Hs. do 6 eexists. split; [|reflexivity]. unfold wire, read_extensions.
  rewrite <- app_assoc, drop_app_length' by (by rewrite length_v1). rewrite <- !app_assoc.
  erewrite reader_step by (apply read_v2_app; [done|apply Hd]). cbn [w_features].
  erewrite reader_step by (by apply read_family_app). erewrite reader_step by (by apply read_nickname_app).
  erewrite reader_step; cycle 1.
  { unfold read_protocol. erewrite reader_step by (apply avail_app; by rewrite length_be_put).
    apply uint_app. apply Hd. }
  erewrite reader_step by (by apply read_build_id_app). by erewrite reader_step by (by apply read_falcon_app).
Qed.

Lemma length_wire d : desc_ok d → (1418 <= length (wire d))%nat.
Proof. intros Hd. unfold wire. rewrite !length_app, length_v1, length_v2 by done. lia. Qed.

Lemma deserialize_wire d s :
  desc_ok d → features_match d → (has (features d) NODE_FEATURE_FALCON = true → falcon_sig_len d ≠ 0) →
  moor_node_descriptor_deserialize (wire d ++ s) = Some (received d, Z.of_nat (length (wire d))).
Proof.
  intros Hd Hm Hs. pose proof (length_wire d Hd) as Hl. unfold moor_node_descriptor_deserialize.
  rewrite length_app. unfold DESC_WIRE_SIZE, DESC_V2_WIRE_SIZE.
  destruct (Z.ltb_spec (Z.of_nat (length (wire d) + length s)) 216); [lia|].
  destruct (read_extensions_app d s Hd Hm Hs) as (e2 & e3 & e4 & pv & bi & e8 & E & ->).
  assert (Hr : read_v1 (wire d ++ s) = Some (V1 (identity_pk d) (onion_pk d) (address d) (or_port d) (dir_port d)
    (flags d) (bandwidth d) (published d) (signature d), drop 216 (wire d ++ s))).
  { unfold wire. rewrite <- app_assoc, drop_app_length' by (by rewrite length_v1). by apply read_v1_app. }
  rewrite Hr, E. destruct (Z.leb_spec 1418 (Z.of_nat (length (wire d) + length s))); [|lia]. do 2 f_equal. lia.
Qed.

(** ** Signatures *)

(** The count and the members are read back as they were declared. *)
Lemma family_wire_received d :
  desc_ok d → has (features d) (Z.lor NODE_FEATURE_FAMILY NODE_FEATURE_NICKNAME) = true →
  family_wire (received d) = family_wire d.
Proof.
  intros [] Hf. unfold family_wire, family_count, received, desc_of. rewrite Hf. cbn [num_family_members family_members w_members w_num_members].
  do 2 f_equal. unfold declared_members. rewrite Z.min_l by lia.
  rewrite take_app_le, take_idemp; [done|]. rewrite length_take. lia.
Qed.

Lemma falcon_received d : features_match d → desc_has_falcon (received d) = desc_has_falcon d.
Proof.
  intros []. unfold received, desc_of, desc_has_falcon. cbn [falcon_pk]. rewrite fm_falcon0.
  destruct (desc_has_falcon d) eqn:E; [done|]. cbn [w_falcon_pk no_v8]. by vm_compute.
Qed.

(** The signed bytes of what is received are those of what was sent. *)
Lemma sign_serialize_received d :
  desc_ok d → features_match d → desc_sign_serialize (received d) = desc_sign_serialize d.
Proof.
  intros Hd Hm. unfold desc_sign_serialize. rewrite falcon_received by done.
  change (features (received d)) with (features d). cbv zeta.
  assert (Hfam : (if has (features d) (Z.lor NODE_FEATURE_FAMILY NODE_FEATURE_NICKNAME) then
     family_wire (received d) ++ (if has (features d) NODE_FEATURE_NICKNAME then
        v4_wire (received d) ++ (if has (features d) NODE_FEATURE_CONTACT then contact_info (received d) else []) else []) else []) =
    (if has (features d) (Z.lor NODE_FEATURE_FAMILY NODE_FEATURE_NICKNAME) then
     family_wire d ++ (if has (features d) NODE_FEATURE_NICKNAME then
        v4_wire d ++ (if has (features d) NODE_FEATURE_CONTACT then contact_info d else []) else []) else [])).
  { destruct (has (features d) (Z.lor _ _)) eqn:Ef; [|done]. rewrite family_wire_received by done. f_equal.
    destruct (has (features d) NODE_FEATURE_NICKNAME) eqn:En; [|done].
    unfold v4_wire, received, desc_of. rewrite En. cbn. unfold contact_read.
    by destruct (has (features d) NODE_FEATURE_CONTACT). }
  rewrite Hfam. unfold received, desc_of. cbn.
  rewrite (fm_falcon d Hm). destruct (has (features d) NODE_FEATURE_BUILD_ID), (desc_has_falcon d); done.
Qed.

(** What a directory authority may write into a descriptor it holds: the flags it
    assigns, what it measured or looked up, and its own bookkeeping. *)
Record da_fields := DaFields {
  da_flags : Z; da_bandwidth : Z; da_country : Z; da_as : Z; da_family : bytes;
  da_first_seen : Z; da_last_registered : Z; da_probe_failures : Z;
}.

Definition da_update (u : da_fields) (d : moor_node_descriptor_t) : moor_node_descriptor_t :=
  {| d with flags := Z.lor (Z.land (flags d) (u32 (Z.lnot NODE_FLAGS_DA_ASSIGNED)))
                       (Z.land (da_flags u) NODE_FLAGS_DA_ASSIGNED);
            verified_bandwidth := da_bandwidth u; country_code := da_country u; as_number := da_as u;
            family_id := da_family u; first_seen := da_first_seen u;
            last_registered := da_last_registered u; probe_failures := da_probe_failures u |}.

Definition da_fields_ok (u : da_fields) : Prop :=
  is_u64 (da_bandwidth u) ∧ is_u16 (da_country u) ∧ is_u32 (da_as u) ∧ length (da_family u) = 32%nat.

Lemma land_flags f g :
  Z.land (Z.lor (Z.land f (u32 (Z.lnot NODE_FLAGS_DA_ASSIGNED))) (Z.land g NODE_FLAGS_DA_ASSIGNED))
    (u32 (Z.lnot NODE_FLAGS_DA_ASSIGNED)) = Z.land f (u32 (Z.lnot NODE_FLAGS_DA_ASSIGNED)).
Proof.
  rewrite Z.land_lor_distr_l, <- !Z.land_assoc, Z.land_diag.
  change (Z.land NODE_FLAGS_DA_ASSIGNED (u32 (Z.lnot NODE_FLAGS_DA_ASSIGNED))) with 0.
  by rewrite Z.land_0_r, Z.lor_0_r.
Qed.

Lemma land_u32 f m : is_u32 m → is_u32 (Z.land f m).
Proof.
  unfold is_u32. intros Hm. split; [apply Z.land_nonneg; lia|].
  rewrite <- (Z.mod_small m (2 ^ 32)), <- Z.land_ones, Z.land_assoc, Z.land_ones by lia. apply Z.mod_pos_bound. lia.
Qed.

Lemma desc_ok_update u d : desc_ok d → da_fields_ok u → desc_ok (da_update u d).
Proof.
  intros [] (H1 & H2 & H3 & H4). split; cbn; try done. apply (lor_range 32); [done|by apply land_u32..].
Qed.

Lemma sign_serialize_update u d : desc_sign_serialize (da_update u d) = desc_sign_serialize d.
Proof. unfold desc_sign_serialize. cbn. by rewrite land_flags. Qed.

(** What the code relies on of the two schemes: signatures have the sizes of the
    arrays that hold them and verify under the public key of the signing key. *)
Class SchemeLaws (ed_pk : bytes → bytes) (ed_sign : bytes → bytes → bytes) (ed_verify : bytes → bytes → bytes → bool)
    (falcon_pub : bytes → bytes) (falcon_sign : bytes → bytes → option bytes)
    (falcon_verify : bytes → bytes → bytes → bool) : Prop := {
  ed_size : ∀ sk m, length (ed_sign sk m) = 64%nat;
  ed_correct : ∀ sk m, ed_verify (ed_sign sk m) m (ed_pk sk) = true;
  falcon_size : ∀ sk m sig, falcon_sign sk m = Some sig → (0 < length sig <= 752)%nat;
  falcon_correct : ∀ sk m sig, falcon_sign sk m = Some sig → falcon_verify sig m (falcon_pub sk) = true;
}.

Lemma set_if_u32 b k f : 0 <= k < 32 → is_u32 f → is_u32 (set_if b (2 ^ k) f).
Proof.
  intros Hk Hf. unfold set_if. destruct b; [|done]. apply (lor_range 32); [done|done|].
  split; [lia|]. apply Z.pow_lt_mono_r; lia.
Qed.

Lemma desc_wire_features_u32 d : is_u32 (features d) → is_u32 (desc_wire_features d).
Proof.
  intros H. unfold desc_wire_features. cbv zeta.
  apply (set_if_u32 _ 6), (set_if_u32 _ 5), (set_if_u32 _ 3), (set_if_u32 _ 2), (set_if_u32 _ 1); done || lia.
Qed.

Lemma features_match_update u d : features_match d → features_match (da_update u d).
Proof. intros []. by split. Qed.

Section Signed.
  Context {ed_pk : bytes → bytes} {ed_sign : bytes → bytes → bytes} {ed_verify : bytes → bytes → bytes → bool}.
  Context {falcon_pub : bytes → bytes} {falcon_sign : bytes → bytes → option bytes}.
  Context {falcon_verify : bytes → bytes → bytes → bool}.
  Context {L : SchemeLaws ed_pk ed_sign ed_verify falcon_pub falcon_sign falcon_verify}.

(** The signing keys belong to the keys in the descriptor. *)
Definition keys_match (d : moor_node_descriptor_t) (id_sk : bytes) (f_sk : option bytes) : Prop :=
  identity_pk d = ed_pk id_sk ∧
  (desc_has_falcon d = true → ∃ sk, f_sk = Some sk ∧ falcon_pk d = falcon_pub sk).

Lemma sign_spec d id_sk f_sk d1 :
  desc_ok d → no_stale_bits d → keys_match d id_sk f_sk →
  moor_node_sign_descriptor ed_sign falcon_sign d id_sk f_sk = Some d1 →
  desc_ok d1 ∧ features_match d1 ∧ features d1 = desc_wire_features d ∧
  (has (features d1) NODE_FEATURE_FALCON = true → falcon_sig_len d1 ≠ 0) ∧
  moor_node_verify_descriptor ed_verify falcon_verify d1 = true.
Proof.
  intros Hd Hb [Hid Hfk] Hs. unfold moor_node_sign_descriptor, sign_with in Hs. cbv zeta in Hs.
  pose proof (features_match_sign d Hb) as Hm. set (d0 := set_features (desc_wire_features d) d) in *.
  assert (Hd0 : desc_ok d0) by (destruct Hd; split; try done; by apply desc_wire_features_u32).
  assert (Hfal : has (features d0) NODE_FEATURE_FALCON = desc_has_falcon d) by apply Hm.
  set (buf := desc_sign_serialize d0) in *. unfold moor_node_verify_descriptor. cbv zeta.
  assert (He : ed_verify (ed_sign id_sk buf) buf (identity_pk d0) = true) by (cbn; rewrite Hid; apply L).
  destruct (desc_has_falcon d) eqn:Ef.
  - destruct (Hfk eq_refl) as (sk & -> & Hpk). rewrite Hfal in Hs.
    destruct (falcon_sign sk buf) as [sig|] eqn:Es; [|done]. injection Hs as <-.
    pose proof (falcon_size _ _ _ Es) as Hsz. pose proof (falcon_correct _ _ _ Es) as Hv.
    set (d1 := set_falcon_signature sig (set_signature (ed_sign id_sk buf) d0)).
    assert (Hlen : falcon_sig_len d1 = Z.of_nat (length sig)) by (cbn; apply u16_small; unfold is_u16; lia).
    assert (Hsig : falcon_signature d1 = sig ++ drop (length sig) (falcon_signature d)) by done.
    assert (Hok : desc_ok d1).
    { destruct Hd0. split; try done; [apply L|rewrite Hlen; unfold MOOR_FALCON_SIG_MAX_LEN; lia|].
      rewrite Hsig, length_app, length_drop. cbn in ok_sig0. lia. }
    split_and!; [done|by destruct Hm|done|intros _; rewrite Hlen; lia|].
    change (desc_sign_serialize d1) with buf. change (signature d1) with (ed_sign id_sk buf).
    change (identity_pk d1) with (identity_pk d0). rewrite He. change (features d1) with (features d0). rewrite Hfal, Hlen.
    replace ((Z.of_nat (length sig) =? 0) || (MOOR_FALCON_SIG_MAX_LEN <? Z.of_nat (length sig))) with false
      by (unfold MOOR_FALCON_SIG_MAX_LEN; lia).
    rewrite Nat2Z.id, Hsig, take_app_length. change (falcon_pk d1) with (falcon_pk d). by rewrite Hpk.
  - assert (d1 = set_signature (ed_sign id_sk buf) d0) as ->.
    { destruct f_sk; [rewrite Hfal in Hs|]; by injection Hs. }
    split_and!; [destruct Hd0; split; try done; apply L|by destruct Hm|done|intros E; cbn in E, Hfal; congruence|].
    change (desc_sign_serialize (set_signature _ d0)) with buf. cbn [signature set_signature identity_pk features].
    change (identity_pk (set_signature _ d0)) with (identity_pk d0). cbn. cbn in He, Hfal. by rewrite He, Hfal.
Qed.

(** Verification of what is received. *)
Lemma verify_received d :
  desc_ok d → features_match d → (has (features d) NODE_FEATURE_FALCON = true → falcon_sig_len d ≠ 0) →
  moor_node_verify_descriptor ed_verify falcon_verify (received d) =
  moor_node_verify_descriptor ed_verify falcon_verify d.
Proof.
  intros Hd Hm Hs. unfold moor_node_verify_descriptor. rewrite sign_serialize_received by done. cbv zeta.
  change (signature (received d)) with (signature d). change (identity_pk (received d)) with (identity_pk d).
  change (features (received d)) with (features d). f_equal.
  destruct (has (features d) NODE_FEATURE_FALCON) eqn:E; [|done]. unfold received, desc_of. rewrite E. cbn.
  unfold falcon_sig_read. rewrite take_app_le, take_idemp; [done|]. rewrite length_take.
  destruct Hd. unfold MOOR_FALCON_SIG_MAX_LEN in *. lia.
Qed.

End Signed.

(** ** Theorems *)

(** C10. A signed descriptor survives the network: whatever a directory authority writes
    into the fields that are its own, the descriptor is serialized within 4096 bytes,
    is read back field by field from the front of any buffer that starts with it, and
    verifies there under both schemes. *)
Theorem descriptor_survives ed_pk ed_sign ed_verify falcon_pub falcon_sign falcon_verify d id_sk f_sk d1 u s :
  SchemeLaws ed_pk ed_sign ed_verify falcon_pub falcon_sign falcon_verify →
  desc_ok d → no_stale_bits d → desc_wire_features d ≠ 0 → keys_match (ed_pk:=ed_pk) (falcon_pub:=falcon_pub) d id_sk f_sk →
  moor_node_sign_descriptor ed_sign falcon_sign d id_sk f_sk = Some d1 → da_fields_ok u →
  ∃ w, moor_node_descriptor_serialize 4096 (da_update u d1) = Some w ∧
    moor_node_descriptor_deserialize (w ++ s) = Some (received (da_update u d1), Z.of_nat (length w)) ∧
    moor_node_verify_descriptor ed_verify falcon_verify (received (da_update u d1)) = true.
Proof.
  intros L Hd Hb Hf Hk Hs Hu. destruct (sign_spec d id_sk f_sk d1 Hd Hb Hk Hs) as (Hd1 & Hm1 & Ef & Hn1 & Hv).
  pose proof (desc_ok_update u d1 Hd1 Hu) as Hd2. pose proof (features_match_update u d1 Hm1) as Hm2.
  exists (wire (da_update u d1)). split_and!.
  - apply serialize_wire; [done|cbn; by rewrite Ef|apply Hd1|apply Hd1|lia].
  - by apply deserialize_wire.
  - rewrite verify_received by done. rewrite <- Hv. unfold moor_node_verify_descriptor. by rewrite sign_serialize_update.
Qed.

(** A toy pair of schemes that satisfies the laws. *)
Definition toy_sum (sk m : bytes) : Z := fold_left Z.add m 0 + fold_left Z.add sk 0.
Definition toy_sign (sk m : bytes) : bytes := be_put 64 (toy_sum sk m).
Definition toy_verify (sig m pk : bytes) : bool := bytes_eqb sig (toy_sign pk m).

Lemma toy_laws : SchemeLaws id toy_sign toy_verify id (λ sk m, Some (toy_sign sk m)) toy_verify.
Proof.
  split; intros; unfold toy_verify, bytes_eqb; simplify_eq; try by apply bool_decide_eq_true.
  - apply length_be_put.
  - unfold toy_sign. rewrite length_be_put. lia.
Qed.

(** A relay with a nickname, a build id, one family member and a Falcon key. *)
Definition example_desc : moor_node_descriptor_t :=
  {| empty_desc with identity_pk := replicate 32 7; onion_pk := replicate 32 9;
     address := strncpy_field 64 [49; 46; 50; 46; 51; 46; 52]; or_port := 9001; flags := NODE_FLAG_EXIT; bandwidth := 1000000;
     published := 1700000000; features := NODE_FEATURE_CELL_KEM;
     family_members := replicate 32 5 :: replicate 7 (zeros 32); num_family_members := 1;
     nickname := strncpy_field 32 [109; 111; 111; 114]; build_id := replicate 16 97; protocol_version := 4;
     falcon_pk := replicate MOOR_FALCON_PK_LEN 3 |}.

Lemma example_desc_ok : desc_ok example_desc ∧ no_stale_bits example_desc.
Proof.
  split.
  - split; unfold string_ok, is_u16, is_u32, is_u64; cbn [example_desc]; try (by vm_compute); repeat split; first [by vm_compute|by repeat constructor].
  - by vm_compute.
Qed.

Definition example_da : da_fields :=
  DaFields (Z.lor NODE_FLAG_RUNNING NODE_FLAG_GUARD) 500000 21843 64500 (replicate 32 1) 1700000001 1700000002 0.

Lemma descriptor_survives_witness :
  ∃ d1, moor_node_sign_descriptor toy_sign (λ sk m, Some (toy_sign sk m)) example_desc (replicate 32 7)
      (Some (replicate MOOR_FALCON_PK_LEN 3)) = Some d1 ∧
    ∃ w, moor_node_descriptor_serialize 4096 (da_update example_da d1) = Some w ∧
      moor_node_descriptor_deserialize (w ++ replicate 16 1) = Some (received (da_update example_da d1), Z.of_nat (length w)) ∧
      moor_node_verify_descriptor toy_verify toy_verify (received (da_update example_da d1)) = true.
Proof.
  destruct example_desc_ok as [Hd Hb]. eexists. split; [reflexivity|].
  eapply (descriptor_survives id toy_sign toy_verify id (λ sk m, Some (toy_sign sk m)) toy_verify example_desc
    (replicate 32 7) (Some (replicate MOOR_FALCON_PK_LEN 3))); [apply toy_laws|exact Hd|exact Hb|by vm_compute| |reflexivity|by vm_compute].
  split; [reflexivity|]. intros _. eexists. split; reflexivity.
Defined.
