(* ===== verification/Microdesc.v ===== *)
(** * Microdesc: the microdescriptor consensus on the wire

    Models the microdescriptor formats of [src/src/node.c]: a microdescriptor is 1410
    bytes, a microdescriptor consensus a header, the microdescriptors and the
    authorities' signatures, with post-quantum signatures announced by a magic number
    in place of the count. The relay array that the parser allocates is the list it
    returns.

    The theorem shows that parsing inverts serialization and reads exactly the bytes
    that were written, which are as many as the size computed beforehand. *)

From S2P Require Import Prelude Wire.

(** ** Microdescriptors *)

Record moor_microdesc_t := Microdesc {
  md_identity_pk : bytes;
  md_onion_pk : bytes;
  md_address : bytes;
  md_or_port : Z;
  md_dir_port : Z;
  md_flags : Z;
  md_bandwidth : Z;
  md_verified_bandwidth : Z;
  md_features : Z;
  md_family_id : bytes;
  md_country_code : Z;
  md_as_number : Z;
  md_nickname : bytes;
  md_kem_pk : bytes;
}.

Definition MICRODESC_WIRE_SIZE : Z := 1410.

Definition microdesc_wire (md : moor_microdesc_t) : bytes :=
  md_identity_pk md ++ md_onion_pk md ++ md_address md ++ be_put 2 (md_or_port md) ++ be_put 2 (md_dir_port md) ++
  be_put 4 (md_flags md) ++ be_put 8 (md_bandwidth md) ++ be_put 8 (md_verified_bandwidth md) ++
  be_put 4 (md_features md) ++ md_family_id md ++ be_put 2 (md_country_code md) ++ be_put 4 (md_as_number md) ++
  md_nickname md ++ md_kem_pk md.

Definition moor_microdesc_serialize (out_len : Z) (md : moor_microdesc_t) : option bytes :=
  if out_len <? MICRODESC_WIRE_SIZE then None else Some (microdesc_wire md).

(** An array of characters, terminated. *)
Definition read_chars (n : nat) : reader bytes := b ← raw n; mret (set_nul b).

Definition moor_microdesc_deserialize : reader moor_microdesc_t :=
  need (Z.to_nat MICRODESC_WIRE_SIZE);;
  id ← raw 32; on ← raw 32; ad ← read_chars 64; op ← uint 2; dp ← uint 2; fl ← uint 4; bw ← uint 8; vb ← uint 8;
  ft ← uint 4; fi ← raw 32; cc ← uint 2; an ← uint 4; nn ← read_chars 32; km ← raw 1184;
  mret (Microdesc id on ad op dp fl bw vb ft fi cc an nn km).

(** ** The consensus *)

Definition MOOR_MLDSA_SIG_LEN : nat := 3309.
Definition MOOR_MLDSA_PK_LEN : nat := 1952.
Definition MOOR_MAX_DA_AUTHORITIES : Z := 9.
Definition MOOR_MAX_RELAYS : Z := 8192.

Record da_sig := DaSig {
  sig_signature : bytes;
  sig_identity_pk : bytes;
  sig_pq_signature : bytes;
  sig_pq_pk : bytes;
  sig_has_pq : Z;
}.

(** [num_relays] and [num_da_sigs] are the lengths of the lists. *)
Record moor_microdesc_consensus_t := MicrodescConsensus {
  mc_valid_after : Z;
  mc_fresh_until : Z;
  mc_valid_until : Z;
  mc_relays : list moor_microdesc_t;
  mc_da_sigs : list da_sig;
}.

Definition num_relays (mc : moor_microdesc_consensus_t) : Z := Z.of_nat (length (mc_relays mc)).
Definition num_da_sigs (mc : moor_microdesc_consensus_t) : Z := Z.of_nat (length (mc_da_sigs mc)).

Definition pq_sig (sg : da_sig) : bool := negb (sig_has_pq sg =? 0).

(** The signatures the loops visit: [i < num_da_sigs && i < MOOR_MAX_DA_AUTHORITIES]. *)
Definition visited_sigs (mc : moor_microdesc_consensus_t) : list da_sig :=
  take (Z.to_nat MOOR_MAX_DA_AUTHORITIES) (mc_da_sigs mc).

Definition mc_any_pq (mc : moor_microdesc_consensus_t) : bool := existsb pq_sig (visited_sigs mc).

Definition sig_size (any_pq : bool) (sg : da_sig) : Z :=
  96 + (if any_pq then 1 + (if pq_sig sg then Z.of_nat MOOR_MLDSA_SIG_LEN + Z.of_nat MOOR_MLDSA_PK_LEN else 0) else 0).

Definition moor_microdesc_consensus_wire_size (mc : moor_microdesc_consensus_t) : Z :=
  fold_left (λ needed sg, needed + sig_size (mc_any_pq mc) sg) (visited_sigs mc)
    (28 + num_relays mc * MICRODESC_WIRE_SIZE + 4).

Definition sig_wire (any_pq : bool) (sg : da_sig) : bytes :=
  sig_signature sg ++ sig_identity_pk sg ++
  (if any_pq then be_put 1 (sig_has_pq sg) ++ (if pq_sig sg then sig_pq_signature sg ++ sig_pq_pk sg else []) else []).

(** Each microdescriptor is written with the room that is left. *)
Fixpoint serialize_relays (out_len : Z) (l : list moor_microdesc_t) : option bytes :=
  match l with
  | [] => Some []
  | md :: l =>
      match moor_microdesc_serialize out_len md with
      | None => None
      | Some b =>
          match serialize_relays (out_len - Z.of_nat (length b)) l with
          | None => None
          | Some r => Some (b ++ r)
          end
      end
  end.

Definition moor_microdesc_consensus_serialize (out_len : Z) (mc : moor_microdesc_consensus_t) : option bytes :=
  if out_len <? moor_microdesc_consensus_wire_size mc then None else
  let header := be_put 8 (mc_valid_after mc) ++ be_put 8 (mc_fresh_until mc) ++ be_put 8 (mc_valid_until mc) ++
                be_put 4 (num_relays mc) in
  match serialize_relays (out_len - Z.of_nat (length header)) (mc_relays mc) with
  | None => None
  | Some relays =>
      let count := if mc_any_pq mc then [0x50; 0x51; 0x00] ++ be_put 1 (num_da_sigs mc) else be_put 4 (num_da_sigs mc) in
      Some (header ++ relays ++ count ++ concat (map (sig_wire (mc_any_pq mc)) (visited_sigs mc)))
  end.

Fixpoint read_many {A} (n : nat) (m : reader A) : reader (list A) :=
  match n with
  | O => mret []
  | S n => x ← m; l ← read_many n m; mret (x :: l)
  end.

Definition read_pq : reader (Z * bytes * bytes) :=
  need 1;; h ← uint 1;
  if negb (h =? 0) then
    need (MOOR_MLDSA_SIG_LEN + MOOR_MLDSA_PK_LEN);; sg ← raw MOOR_MLDSA_SIG_LEN; pk ← raw MOOR_MLDSA_PK_LEN; mret (h, sg, pk)
  else mret (h, zeros MOOR_MLDSA_SIG_LEN, zeros MOOR_MLDSA_PK_LEN).

Definition read_sig (is_pq : bool) : reader da_sig :=
  need 96;; sg ← raw 64; pk ← raw 32;
  q ← (if is_pq then read_pq else mret (0, zeros MOOR_MLDSA_SIG_LEN, zeros MOOR_MLDSA_PK_LEN));
  mret (DaSig sg pk q.1.2 q.2 q.1.1).

(** The count, and whether the magic number is there. *)
Definition read_sig_count : reader (Z * bool) :=
  need 4;; b ← raw 4;
  let is_pq := bool_decide (take 3 b = [0x50; 0x51; 0x00]) in
  mret (if is_pq then be_get (drop 3 b) else be_get b, is_pq).

(** The consensus and the bytes left; [None] is the return value -1. *)
Definition moor_microdesc_consensus_deserialize : reader moor_microdesc_consensus_t :=
  need 28;;
  va ← uint 8; fu ← uint 8; vu ← uint 8; n ← uint 4;
  guard_ (n <=? MOOR_MAX_RELAYS);;
  relays ← read_many (Z.to_nat n) moor_microdesc_deserialize;
  c ← read_sig_count;
  guard_ (c.1 <=? MOOR_MAX_DA_AUTHORITIES);;
  sigs ← read_many (Z.to_nat c.1) (read_sig c.2);
  mret (MicrodescConsensus va fu vu relays sigs).

(** ** Well-formed consensuses *)

Definition chars_ok (n : nat) (l : bytes) : Prop := length l = n ∧ last l = Some 0.

Record md_ok (md : moor_microdesc_t) : Prop := {
  mdok_identity : length (md_identity_pk md) = 32%nat;
  mdok_onion : length (md_onion_pk md) = 32%nat;
  mdok_address : chars_ok 64 (md_address md);
  mdok_or_port : is_u16 (md_or_port md);
  mdok_dir_port : is_u16 (md_dir_port md);
  mdok_flags : is_u32 (md_flags md);
  mdok_bandwidth : is_u64 (md_bandwidth md);
  mdok_vbw : is_u64 (md_verified_bandwidth md);
  mdok_features : is_u32 (md_features md);
  mdok_family : length (md_family_id md) = 32%nat;
  mdok_country : is_u16 (md_country_code md);
  mdok_as : is_u32 (md_as_number md);
  mdok_nickname : chars_ok 32 (md_nickname md);
  mdok_kem : length (md_kem_pk md) = 1184%nat;
}.

(** A signature without a post-quantum part has clear post-quantum fields. *)
Record sig_ok (sg : da_sig) : Prop := {
  sok_signature : length (sig_signature sg) = 64%nat;
  sok_identity : length (sig_identity_pk sg) = 32%nat;
  sok_pq_signature : length (sig_pq_signature sg) = MOOR_MLDSA_SIG_LEN;
  sok_pq_pk : length (sig_pq_pk sg) = MOOR_MLDSA_PK_LEN;
  sok_has_pq : is_u8 (sig_has_pq sg);
  sok_clear : sig_has_pq sg = 0 →
    sig_pq_signature sg = zeros MOOR_MLDSA_SIG_LEN ∧ sig_pq_pk sg = zeros MOOR_MLDSA_PK_LEN;
}.

Record mc_ok (mc : moor_microdesc_consensus_t) : Prop := {
  mcok_valid_after : is_u64 (mc_valid_after mc);
  mcok_fresh_until : is_u64 (mc_fresh_until mc);
  mcok_valid_until : is_u64 (mc_valid_until mc);
  mcok_num_relays : num_relays mc <= MOOR_MAX_RELAYS;
  mcok_relays : Forall md_ok (mc_relays mc);
  mcok_num_sigs : num_da_sigs mc <= MOOR_MAX_DA_AUTHORITIES;
  mcok_sigs : Forall sig_ok (mc_da_sigs mc);
}.

(** ** Reading back *)

Lemma read_chars_app n x s : chars_ok n x → read_chars n (x ++ s) = Some (x, s).
Proof.
  intros [Hl Hn]. unfold read_chars. rewrite (reader_step _ _ _ _ _ (raw_app n x s Hl)).
  unfold mret, reader_ret. by rewrite set_nul_id.
Qed.

Ltac read_field :=
  first
    [ erewrite reader_step by (apply raw_app; eassumption)
    | erewrite reader_step by (apply read_chars_app; eassumption)
    | erewrite reader_step by (apply uint_app; eassumption) ].

Lemma length_microdesc_wire md : md_ok md → length (microdesc_wire md) = Z.to_nat MICRODESC_WIRE_SIZE.
Proof.
  intros []. unfold microdesc_wire. destruct mdok_address0, mdok_nickname0. rewrite !length_app, !length_be_put.
  unfold MICRODESC_WIRE_SIZE. lia.
Qed.

Lemma microdesc_app md s : md_ok md → moor_microdesc_deserialize (microdesc_wire md ++ s) = Some (md, s).
Proof.
  intros Hm. unfold moor_microdesc_deserialize.
  erewrite reader_step by (apply need_app; by rewrite length_microdesc_wire).
  destruct Hm. unfold microdesc_wire. rewrite <- !app_assoc. do 14 read_field. by destruct md.
Qed.

Lemma read_many_app {A} (m : reader A) (w : A → bytes) l s :
  (∀ x s, x ∈ l → m (w x ++ s) = Some (x, s)) → read_many (length l) m (concat (map w l) ++ s) = Some (l, s).
Proof.
  induction l as [|x l IH]; intros Hw; [done|]. cbn [length read_many map concat]. rewrite <- app_assoc.
  erewrite reader_step by (apply Hw; by left). erewrite reader_step; [done|]. apply IH. intros. apply Hw. by right.
Qed.

Lemma serialize_relays_app out_len l :
  Forall md_ok l → Z.of_nat (length l) * MICRODESC_WIRE_SIZE <= out_len →
  serialize_relays out_len l = Some (concat (map microdesc_wire l)).
Proof.
  intros Hl. revert out_len. induction Hl as [|md l Hm _ IH]; intros out_len Ho; [done|].
  cbn [serialize_relays length map concat] in *. unfold moor_microdesc_serialize, MICRODESC_WIRE_SIZE in *.
  destruct (Z.ltb_spec out_len 1410); [lia|]. rewrite length_microdesc_wire by done. unfold MICRODESC_WIRE_SIZE.
  rewrite IH; [done|lia].
Qed.

Lemma length_relays l : Forall md_ok l →
  Z.of_nat (length (concat (map microdesc_wire l))) = Z.of_nat (length l) * MICRODESC_WIRE_SIZE.
Proof.
  induction 1 as [|md l Hm _ IH]; [done|]. cbn [map concat length]. rewrite length_app, length_microdesc_wire by done.
  unfold MICRODESC_WIRE_SIZE in *. lia.
Qed.

Lemma read_sig_app any sg s : sig_ok sg → (pq_sig sg = true → any = true) →
  read_sig any (sig_wire any sg ++ s) = Some (sg, s).
Proof.
  intros [] Ha. unfold read_sig, sig_wire. rewrite <- !app_assoc.
  erewrite reader_step by (rewrite app_assoc; apply need_app; rewrite length_app; lia).
  rewrite <- app_assoc. do 2 read_field. destruct any.
  - unfold read_pq. rewrite <- app_assoc. erewrite reader_step; cycle 1.
    { erewrite reader_step by (apply need_app; by rewrite length_be_put). erewrite reader_step by (by apply uint_app).
      fold (pq_sig sg). destruct (pq_sig sg) eqn:E.
      - rewrite <- app_assoc. erewrite reader_step by (rewrite app_assoc; apply need_app; rewrite length_app; lia).
        rewrite <- app_assoc. do 2 read_field. reflexivity.
      - unfold pq_sig in E. apply negb_false_iff, Z.eqb_eq in E. destruct (sok_clear0 E) as [<- <-]. reflexivity. }
    cbn. by destruct sg.
  - destruct (pq_sig sg) eqn:E; [by discriminate Ha|]. unfold pq_sig in E. apply negb_false_iff, Z.eqb_eq in E.
    destruct (sok_clear0 E) as [<- <-]. erewrite reader_step by reflexivity. cbn. rewrite <- E. by destruct sg.
Qed.

Lemma visited_all mc : mc_ok mc → visited_sigs mc = mc_da_sigs mc.
Proof. intros []. unfold visited_sigs, num_da_sigs, MOOR_MAX_DA_AUTHORITIES in *. apply take_ge. lia. Qed.

Definition count_wire (mc : moor_microdesc_consensus_t) : bytes :=
  if mc_any_pq mc then [0x50; 0x51; 0x00] ++ be_put 1 (num_da_sigs mc) else be_put 4 (num_da_sigs mc).

Lemma read_sig_count_app mc s : mc_ok mc →
  read_sig_count (count_wire mc ++ s) = Some ((num_da_sigs mc, mc_any_pq mc), s).
Proof.
  intros []. assert (Hn : 0 <= num_da_sigs mc) by (unfold num_da_sigs; lia).
  unfold read_sig_count, count_wire, MOOR_MAX_DA_AUTHORITIES in *. destruct (mc_any_pq mc).
  - erewrite reader_step by (by apply need_app). erewrite reader_step by (by apply raw_app). cbv zeta.
    cbn [take drop app]. rewrite bool_decide_true by done. unfold mret, reader_ret.
    by rewrite drop_0, be_get_put_small by (cbn; lia).
  - erewrite reader_step by (apply need_app; by rewrite length_be_put).
    erewrite reader_step by (apply raw_app, length_be_put). cbv zeta.
    rewrite bool_decide_false; [unfold mret, reader_ret; by rewrite be_get_put_small by (cbn; lia)|].
    cbn [be_put take]. intros [= E _ _]. unfold u8 in E. rewrite Z.shiftr_div_pow2, Z.div_small in E by lia. done.
Qed.

Lemma length_sig_wire any sg : sig_ok sg → Z.of_nat (length (sig_wire any sg)) = sig_size any sg.
Proof.
  intros []. unfold sig_wire, sig_size. destruct any; [destruct (pq_sig sg)|]; rewrite !length_app; cbn [length be_put]; lia.
Qed.

Lemma size_sigs any l n : Forall sig_ok l →
  fold_left (λ needed sg, needed + sig_size any sg) l n = n + Z.of_nat (length (concat (map (sig_wire any) l))).
Proof.
  intros Hl. revert n. induction Hl as [|sg l Hs _ IH]; intros n; cbn [fold_left map concat]; [cbn; lia|].
  rewrite IH, length_app, Nat2Z.inj_add, length_sig_wire by done. lia.
Qed.

(** ** Theorem *)

(** C33. The microdescriptor consensus survives the wire: in a buffer of the size
    computed beforehand, or a larger one, it is serialized to exactly that many bytes,
    and parsing them from the front of any buffer gives the consensus back and leaves
    the rest. *)
Theorem microdesc_consensus_roundtrip mc out_len s :
  mc_ok mc → moor_microdesc_consensus_wire_size mc <= out_len →
  ∃ w, moor_microdesc_consensus_serialize out_len mc = Some w ∧
    Z.of_nat (length w) = moor_microdesc_consensus_wire_size mc ∧
    moor_microdesc_consensus_deserialize (w ++ s) = Some (mc, s).
Proof.
  intros Hm Ho. unfold moor_microdesc_consensus_serialize. destruct (Z.ltb_spec out_len (moor_microdesc_consensus_wire_size mc)); [lia|].
  cbv zeta. fold (count_wire mc). unfold moor_microdesc_consensus_wire_size in *. rewrite visited_all in * by done.
  rewrite size_sigs in * by apply Hm. rewrite serialize_relays_app.
  2: apply Hm. 2: { rewrite !length_app, !length_be_put. unfold num_relays in *. lia. }
  eexists. split; [reflexivity|]. split.
  { rewrite !length_app, !length_be_put, !Nat2Z.inj_add, length_relays by apply Hm.
    assert (length (count_wire mc) = 4%nat) as -> by (unfold count_wire; by destruct (mc_any_pq mc)).
    unfold num_relays. lia. }
  pose proof Hm as []. unfold moor_microdesc_consensus_deserialize. rewrite <- !app_assoc.
  erewrite reader_step by (rewrite !app_assoc; apply need_app; rewrite !length_app, !length_be_put; lia).
  rewrite <- !app_assoc. do 3 read_field.
  erewrite reader_step by (apply uint_app; unfold num_relays, MOOR_MAX_RELAYS in *; cbn; lia).
  erewrite reader_step by (unfold guard_; by rewrite (proj2 (Z.leb_le _ _) mcok_num_relays0)).
  unfold num_relays. rewrite Nat2Z.id. erewrite reader_step.
  2: { apply read_many_app. intros md t Hin. apply microdesc_app. rewrite Forall_forall in mcok_relays0. by apply mcok_relays0. }
  erewrite reader_step by (by apply read_sig_count_app). cbn [fst snd].
  erewrite reader_step by (unfold guard_; by rewrite (proj2 (Z.leb_le _ _) mcok_num_sigs0)).
  unfold num_da_sigs. rewrite Nat2Z.id. erewrite reader_step; [|apply read_many_app].
  - by destruct mc.
  - intros sg t Hin. apply read_sig_app; [rewrite Forall_forall in mcok_sigs0; by apply mcok_sigs0|].
    intros E. unfold mc_any_pq. apply existsb_exists. exists sg. rewrite visited_all by done. by rewrite <- list_elem_of_In.
Qed.

Definition example_md (k : Z) : moor_microdesc_t :=
  Microdesc (replicate 32 k) (replicate 32 2) (49 :: zeros 63) 9001 0 35 1000 900 21 (zeros 32) 21843 64500
    (109 :: zeros 31) (replicate 1184 7).

Definition example_mc : moor_microdesc_consensus_t :=
  MicrodescConsensus 1700000000 1700003600 1700010800 [example_md 1; example_md 2]
    [DaSig (replicate 64 3) (replicate 32 4) (replicate MOOR_MLDSA_SIG_LEN 5) (replicate MOOR_MLDSA_PK_LEN 6) 1;
     DaSig (replicate 64 8) (replicate 32 9) (zeros MOOR_MLDSA_SIG_LEN) (zeros MOOR_MLDSA_PK_LEN) 0].

Lemma example_mc_ok : mc_ok example_mc.
Proof.
  assert (∀ k, md_ok (example_md k)) as Hmd by (intros k; split; by vm_compute).
  split; cbn [example_mc]; [by vm_compute..| |by vm_compute|].
  - repeat constructor; apply Hmd.
  - repeat constructor; by vm_compute.
Qed.

Lemma microdesc_consensus_roundtrip_witness :
  ∃ w, moor_microdesc_consensus_serialize 9000 example_mc = Some w ∧
    Z.of_nat (length w) = moor_microdesc_consensus_wire_size example_mc ∧
    moor_microdesc_consensus_deserialize (w ++ [1; 2; 3]) = Some (example_mc, [1; 2; 3]).
Proof. apply (microdesc_consensus_roundtrip example_mc 9000 [1; 2; 3]); [apply example_mc_ok|by vm_compute]. Defined.
