(* ===== verification/Consensus.v ===== *)
(** * Consensus: what the authorities sign and what clients check

    Models the consensus document of [src/include/moor/node.h] and the functions of
    [src/src/directory.c] that sign and check it: the signed body, the verification of
    a majority of hybrid Ed25519 and ML-DSA signatures, freshness, the trusted keys,
    the signing certificate of an authority, and the tests a client applies to a
    document it fetched. The hash and the two signature schemes are parameters.

    The theorems show that verification accepts exactly when a majority of the trusted
    authorities signed the body, and that the body says so little about the relays
    that their keys, addresses and flags can be replaced. *)

From S2P Require Import Prelude Descriptor Microdesc.

(** [num_relays] and [num_da_sigs] are the lengths of the lists. *)
Record moor_consensus_t := Consensus {
  valid_after : Z;
  fresh_until : Z;
  valid_until : Z;
  relays : list moor_node_descriptor_t;
  da_sigs : list da_sig;
  srv_current : bytes;
  srv_previous : bytes;
  bw_weights : list Z;
}.

Record moor_trusted_da_key_t := TrustedKey { ed25519_pk : bytes; mldsa_pk : bytes; tk_has_pq : bool }.

(** An authority of the configuration. *)
Record moor_da_entry_t := DaEntry { de_identity_pk : bytes; de_pq_identity_pk : bytes; de_has_pq : bool }.

(** ** Lifecycle *)

Definition moor_consensus_init : moor_consensus_t := Consensus 0 0 0 [] [] (zeros 32) (zeros 32) (replicate 8 0).

(** The weights of the destination are kept: they are not among the copied fields. *)
Definition moor_consensus_copy (dst src : moor_consensus_t) : moor_consensus_t :=
  Consensus (valid_after src) (fresh_until src) (valid_until src) (relays src) (da_sigs src)
    (srv_current src) (srv_previous src) (bw_weights dst).

(** ** The signed body *)

Definition num_relays_of (cons : moor_consensus_t) : Z := Z.of_nat (length (relays cons)).

(** The loop over the relays, with the test of the room left in the buffer. *)
Fixpoint body_relays (off buf_sz : Z) (l : list moor_node_descriptor_t) : option bytes :=
  match l with
  | [] => Some []
  | d :: l =>
      if buf_sz <? off + 40 then None else
      match body_relays (off + 40) buf_sz l with
      | None => None
      | Some b => Some (identity_pk d ++ be_put 8 (bandwidth d) ++ b)
      end
  end.

Definition consensus_body_build (cons : moor_consensus_t) : option bytes :=
  let buf_sz := u32 (num_relays_of cons * 48 + 64) in
  let header := be_put 8 (valid_after cons) ++ be_put 8 (fresh_until cons) ++ be_put 8 (valid_until cons) ++
                be_put 4 (num_relays_of cons) in
  match body_relays 28 buf_sz (relays cons) with
  | None => None
  | Some b => Some (header ++ b)
  end.

(** ** Trusted keys *)

Definition moor_set_trusted_da_keys (da_list : list moor_da_entry_t) : list moor_trusted_da_key_t :=
  map (λ e, if de_has_pq e then TrustedKey (de_identity_pk e) (de_pq_identity_pk e) true
            else TrustedKey (de_identity_pk e) (zeros MOOR_MLDSA_PK_LEN) false)
    (List.filter (λ e, existsb (λ b, negb (b =? 0)) (de_identity_pk e)) (take 16 da_list)).

(** ** Freshness *)

Definition skewed (va : Z) : Z := if 5 <? va then va - 5 else 0.

Definition moor_consensus_is_fresh (now : Z) (cons : moor_consensus_t) : bool :=
  let upper := if 0 <? fresh_until cons then fresh_until cons else valid_until cons in
  (skewed (valid_after cons) <=? now) && (now <? upper).

Definition moor_consensus_is_valid (now : Z) (cons : moor_consensus_t) : bool :=
  (skewed (valid_after cons) <=? now) && (now <? valid_until cons).

(** ** Verification *)

(** The outcome of a verification; [OutOfBounds] is an access outside [counted]. *)
Inductive verdict := Accepted | Rejected | OutOfBounds.

#[export] Instance verdict_eq_dec : EqDecision verdict.
Proof. solve_decision. Defined.

Section Verify.
  Variable hash : bytes → bytes.
  Variable ed_verify : bytes → bytes → bytes → bool.
  Variable mldsa_verify : bytes → bytes → bytes → bool.

Definition consensus_body_hash (cons : moor_consensus_t) : option bytes := hash <$> consensus_body_build cons.

(** The tests of one signature against the trusted key with its identity. *)
Definition sig_accepted (body : bytes) (sg : da_sig) (k : moor_trusted_da_key_t) : bool :=
  ed_verify (sig_signature sg) (hash body) (sig_identity_pk sg) &&
  (if pq_sig sg && tk_has_pq k then
     bytes_eqb (sig_pq_pk sg) (mldsa_pk k) && mldsa_verify (sig_pq_signature sg) body (sig_pq_pk sg)
   else true) &&
  negb (tk_has_pq k && negb (pq_sig sg)).

(** The loop over the trusted keys for one signature: whether it counted, and
    [counted]. *)
Fixpoint credit (body : bytes) (sg : da_sig) (keys : list moor_trusted_da_key_t) (j : nat) (counted : list bool)
    : option (bool * list bool) :=
  match keys with
  | [] => Some (false, counted)
  | k :: keys =>
      match counted !! j with
      | None => None
      | Some true => credit body sg keys (S j) counted
      | Some false =>
          if bytes_eqb (sig_identity_pk sg) (ed25519_pk k) then
            if sig_accepted body sg k then Some (true, <[j := true]> counted) else Some (false, counted)
          else credit body sg keys (S j) counted
      end
  end.

Fixpoint verify_loop (body : bytes) (keys : list moor_trusted_da_key_t) (sigs : list da_sig) (verified : Z)
    (counted : list bool) : option Z :=
  match sigs with
  | [] => Some verified
  | sg :: sigs =>
      match credit body sg keys 0 counted with
      | None => None
      | Some (ok, counted) => verify_loop body keys sigs (if ok then verified + 1 else verified) counted
      end
  end.

Definition moor_consensus_verify_hybrid (cons : moor_consensus_t) (trusted_keys : list moor_trusted_da_key_t) : verdict :=
  let num_trusted := Z.of_nat (length trusted_keys) in
  if num_trusted <=? 0 then Rejected else
  match consensus_body_build cons with
  | None => Rejected
  | Some body =>
      let majority := num_trusted / 2 + 1 in
      match verify_loop body trusted_keys (da_sigs cons) 0 (replicate (Z.to_nat MOOR_MAX_DA_AUTHORITIES) false) with
      | None => OutOfBounds
      | Some verified => if majority <=? verified then Accepted else Rejected
      end
  end.

(** What a client does with a document it parsed. *)
Definition client_accepts (now : Z) (keys : list moor_trusted_da_key_t) (cons : moor_consensus_t) : bool :=
  if negb (moor_consensus_is_fresh now cons) then false
  else if Z.of_nat (length keys) =? 0 then false
  else if negb (bool_decide (moor_consensus_verify_hybrid cons keys = Accepted)) then false
  else negb (num_relays_of cons =? 0).

End Verify.

(** ** Counting authorities *)

Section Majority.
  Variable hash : bytes → bytes.
  Variable ed_verify : bytes → bytes → bytes → bool.
  Variable mldsa_verify : bytes → bytes → bytes → bool.
  Variable body : bytes.

Abbreviation accepted := (sig_accepted hash ed_verify mldsa_verify body).
Abbreviation credit' := (credit hash ed_verify mldsa_verify body).

(** A valid signature by the authority. *)
Definition hit (k : moor_trusted_da_key_t) (sg : da_sig) : bool :=
  bytes_eqb (sig_identity_pk sg) (ed25519_pk k) && accepted sg k.

(** One of the signatures is. *)
Definition signed (sigs : list da_sig) (k : moor_trusted_da_key_t) : bool := existsb (hit k) sigs.

Definition signers (sigs : list da_sig) (keys : list moor_trusted_da_key_t) : Z :=
  Z.of_nat (length (List.filter (signed sigs) keys)).

Lemma signed_snoc sigs sg k : signed (sigs ++ [sg]) k = signed sigs k || hit k sg.
Proof. unfold signed. rewrite existsb_app. cbn. by rewrite orb_false_r. Qed.

Lemma hit_other sg k : bytes_eqb (sig_identity_pk sg) (ed25519_pk k) = false → hit k sg = false.
Proof. intros H. unfold hit. by rewrite H. Qed.

(** No other key has the identity of the signature. *)
Lemma no_other_hit sg keys k :
  NoDup (map ed25519_pk (k :: keys)) → bytes_eqb (sig_identity_pk sg) (ed25519_pk k) = true →
  ∀ k', k' ∈ keys → hit k' sg = false.
Proof.
  intros [Hk _]%NoDup_cons E k' Hin. apply hit_other, bool_decide_eq_false. intros E'.
  apply bool_decide_eq_true in E. apply Hk. rewrite <- E, E'. apply list_elem_of_In, in_map. by apply list_elem_of_In.
Qed.

Lemma signed_unchanged sigs sg keys :
  (∀ k, k ∈ keys → hit k sg = false) →
  map (signed (sigs ++ [sg])) keys = map (signed sigs) keys ∧ signers (sigs ++ [sg]) keys = signers sigs keys.
Proof.
  intros H. assert (Hs : ∀ k, In k keys → signed (sigs ++ [sg]) k = signed sigs k).
  { intros k Hk. rewrite signed_snoc, H by (by apply list_elem_of_In). apply orb_false_r. }
  split; [by apply map_ext_in|]. unfold signers. by rewrite (filter_ext_in _ _ _ Hs).
Qed.

Lemma signers_cons sigs k keys : signers sigs (k :: keys) = (if signed sigs k then 1 else 0) + signers sigs keys.
Proof. unfold signers. cbn [List.filter]. destruct (signed sigs k); cbn [length]; lia. Qed.

Lemma credit_spec sigs sg keys : ∀ pre post,
  NoDup (map ed25519_pk keys) →
  ∃ ok, credit' sg keys (length pre) (pre ++ map (signed sigs) keys ++ post) =
      Some (ok, pre ++ map (signed (sigs ++ [sg])) keys ++ post) ∧
    signers (sigs ++ [sg]) keys = signers sigs keys + (if ok then 1 else 0).
Proof.
  induction keys as [|k keys IH]; intros pre post Hnd; [exists false; split; [done|unfold signers; cbn; lia]|].
  cbn [credit map]. rewrite <- app_comm_cons, list_lookup_middle by done.
  assert (Hnd' : NoDup (map ed25519_pk keys)) by (by apply NoDup_cons in Hnd as [_ ?]).
  assert (Hskip : signed (sigs ++ [sg]) k = signed sigs k →
    ∃ ok, credit' sg keys (S (length pre)) (pre ++ signed sigs k :: map (signed sigs) keys ++ post) =
      Some (ok, pre ++ signed (sigs ++ [sg]) k :: map (signed (sigs ++ [sg])) keys ++ post) ∧
    signers (sigs ++ [sg]) (k :: keys) = signers sigs (k :: keys) + (if ok then 1 else 0)).
  { intros Hk. destruct (IH (pre ++ [signed sigs k]) post Hnd') as (ok & E & Hn).
    rewrite length_app, Nat.add_1_r, <- !app_assoc in E. cbn [app] in E. exists ok. rewrite Hk, E. split; [done|].
    rewrite !signers_cons, Hk. lia. }
  destruct (signed sigs k) eqn:Ek; [apply Hskip; by rewrite signed_snoc, Ek|].
  destruct (bytes_eqb (sig_identity_pk sg) (ed25519_pk k)) eqn:Eid.
  - destruct (signed_unchanged sigs sg keys (no_other_hit sg keys k Hnd Eid)) as [Em Es].
    assert (Hk : signed (sigs ++ [sg]) k = accepted sg k) by (rewrite signed_snoc, Ek; unfold hit; by rewrite Eid).
    rewrite Hk, Em. destruct (accepted sg k) eqn:Ea.
    + exists true. rewrite insert_app_r_alt, Nat.sub_diag by lia. split; [done|]. rewrite !signers_cons, Es, Hk, Ek. lia.
    + exists false. split; [done|]. rewrite !signers_cons, Es, Hk, Ek. lia.
  - apply Hskip. rewrite signed_snoc, Ek. by apply hit_other.
Qed.

Lemma verify_loop_spec keys post sigs : ∀ seen,
  NoDup (map ed25519_pk keys) →
  verify_loop hash ed_verify mldsa_verify body keys sigs (signers seen keys) (map (signed seen) keys ++ post) =
  Some (signers (seen ++ sigs) keys).
Proof.
  induction sigs as [|sg sigs IH]; intros seen Hnd; cbn [verify_loop]; [by rewrite app_nil_r|].
  destruct (credit_spec seen sg keys [] post Hnd) as (ok & E & Hn). cbn [app length] in E. rewrite E.
  replace (if ok then signers seen keys + 1 else signers seen keys) with (signers (seen ++ [sg]) keys)
    by (rewrite Hn; destruct ok; lia).
  rewrite IH by done. by rewrite <- app_assoc.
Qed.

Lemma signed_nil keys : map (signed []) keys = replicate (length keys) false.
Proof. induction keys as [|k keys IH]; [done|]. cbn. by rewrite IH. Qed.

Lemma signers_nil keys : signers [] keys = 0.
Proof. unfold signers. induction keys as [|k keys IH]; [done|]. cbn. apply IH. Qed.

Lemma verify_count keys sigs :
  NoDup (map ed25519_pk keys) → (length keys <= 9)%nat →
  verify_loop hash ed_verify mldsa_verify body keys sigs 0 (replicate (Z.to_nat MOOR_MAX_DA_AUTHORITIES) false) =
  Some (signers sigs keys).
Proof.
  intros Hnd Hl. rewrite <- (signers_nil keys). change (Z.to_nat MOOR_MAX_DA_AUTHORITIES) with 9%nat.
  replace 9%nat with (length keys + (9 - length keys))%nat by lia.
  rewrite replicate_add, <- signed_nil. by rewrite verify_loop_spec.
Qed.

End Majority.

(** ** Theorems *)


(** The body of a consensus with other relays that have the same identities and
    bandwidths. *)
Lemma body_relays_map f l : ∀ off sz,
  (∀ d, identity_pk (f d) = identity_pk d ∧ bandwidth (f d) = bandwidth d) →
  body_relays off sz (map f l) = body_relays off sz l.
Proof.
  induction l as [|d l IH]; intros off sz Hf; [done|]. cbn [map body_relays]. rewrite IH by done.
  by destruct (Hf d) as [-> ->].
Qed.

(** A consensus with every relay replaced. *)
Definition map_relays (f : moor_node_descriptor_t → moor_node_descriptor_t) (cons : moor_consensus_t) : moor_consensus_t :=
  {| cons with relays := map f (relays cons) |}.

(** A relay whose circuit keys, address, ports, flags and family are those of an
    attacker. *)
Definition hijack (evil : moor_node_descriptor_t) (d : moor_node_descriptor_t) : moor_node_descriptor_t :=
  {| evil with identity_pk := identity_pk d; bandwidth := bandwidth d |}.

(** The signatures do not protect the relays: a client that accepts a consensus
    also accepts the one in which every relay has the onion key, the KEM key, the
    address, the ports, the flags and the family of anybody's choice, since the signed
    body has only the identity and the bandwidth of a relay. *)
Theorem consensus_hijack_accepted hash ed_verify mldsa_verify now keys cons evil :
  client_accepts hash ed_verify mldsa_verify now keys cons =
  client_accepts hash ed_verify mldsa_verify now keys (map_relays (hijack evil) cons).
Proof.
  unfold client_accepts, moor_consensus_verify_hybrid, consensus_body_build, num_relays_of. cbn [relays map_relays da_sigs].
  rewrite body_relays_map by done. by rewrite length_map.
Qed.

(** Three authorities, the first with a post-quantum key; the first two signed. *)
Definition toy_hash (m : bytes) : bytes := be_put 32 (fold_left Z.add m 0).

Definition example_keys : list moor_trusted_da_key_t :=
  [TrustedKey (replicate 32 1) (replicate MOOR_MLDSA_PK_LEN 4) true;
   TrustedKey (replicate 32 2) (zeros MOOR_MLDSA_PK_LEN) false;
   TrustedKey (replicate 32 3) (zeros MOOR_MLDSA_PK_LEN) false].

Definition example_body : bytes :=
  be_put 8 1700000000 ++ be_put 8 1700003600 ++ be_put 8 1700010800 ++ be_put 4 1 ++
  identity_pk example_desc ++ be_put 8 (bandwidth example_desc).

Definition example_consensus : moor_consensus_t :=
  Consensus 1700000000 1700003600 1700010800 [example_desc]
    [DaSig (toy_sign (replicate 32 1) (toy_hash example_body)) (replicate 32 1)
       (toy_sign (replicate MOOR_MLDSA_PK_LEN 4) example_body) (replicate MOOR_MLDSA_PK_LEN 4) 1;
     DaSig (toy_sign (replicate 32 2) (toy_hash example_body)) (replicate 32 2)
       (zeros MOOR_MLDSA_SIG_LEN) (zeros MOOR_MLDSA_PK_LEN) 0]
    (zeros 32) (zeros 32) (replicate 8 0).


(** The example is accepted, and so is its hijacked variant. *)
Lemma example_accepted :
  client_accepts toy_hash toy_verify toy_verify 1700000100 example_keys example_consensus = true ∧
  onion_pk <$> relays (map_relays (hijack empty_desc) example_consensus) ≠ onion_pk <$> relays example_consensus.
Proof. split; [by vm_compute|]. intros E. vm_compute in E. discriminate. Qed.
