(* ===== verification/Select.v ===== *)
(** * Select: bandwidth-weighted choice of relays

    Models relay selection of [src/src/node.c]: the filter on flags and exclusions, the
    weights of the consensus, the unbiased draw by rejection and the binary search,
    the selection of a relay that shares no family, country or network with those
    chosen before, the variant for post-quantum relays, and the look-up by nickname.
    Random 64-bit numbers are a list of draws that the functions consume.

    The theorem shows that a relay is chosen exactly for the residues of an interval as
    long as its weight. *)

From S2P Require Import Prelude Wire Descriptor Consensus.

Definition BW_WGG : nat := 0.
Definition BW_WGD : nat := 1.
Definition BW_WEE : nat := 2.
Definition BW_WED : nat := 3.
Definition BW_WMG : nat := 4.
Definition BW_WME : nat := 5.
Definition BW_WMM : nat := 6.
Definition BW_WMD : nat := 7.
Definition BW_WEIGHT_SCALE : Z := 10000.

(** The relay, or [NULL]; or the draws ran out before one was accepted. *)
Inductive selection := Selected (d : moor_node_descriptor_t) | NoRelay | OutOfDraws.

Definition excluded (exclude_ids : list bytes) (d : moor_node_descriptor_t) : bool :=
  existsb (bytes_eqb (identity_pk d)) exclude_ids.

Definition eligible (required_flags : Z) (exclude_ids : list bytes) (d : moor_node_descriptor_t) : bool :=
  (Z.land (flags d) required_flags =? required_flags) &&
  negb (has required_flags NODE_FLAG_EXIT && has (flags d) NODE_FLAG_BADEXIT) &&
  negb (has required_flags (Z.lor NODE_FLAG_GUARD NODE_FLAG_EXIT) && has (flags d) NODE_FLAG_MIDDLEONLY) &&
  negb (excluded exclude_ids d).

Definition clamp_bw (bw : Z) : Z :=
  let bw := if bw <? 1000 then 1000 else bw in if 1000000000 <? bw then 1000000000 else bw.

Definition position_weight (W : list Z) (required_flags : Z) (d : moor_node_descriptor_t) : Z :=
  let is_g := has (flags d) NODE_FLAG_GUARD in
  let is_e := has (flags d) NODE_FLAG_EXIT in
  let at_ i := nth i W 0 in
  let w :=
    if has required_flags NODE_FLAG_GUARD then if is_g && is_e then at_ BW_WGD else at_ BW_WGG
    else if has required_flags NODE_FLAG_EXIT then if is_g && is_e then at_ BW_WED else at_ BW_WEE
    else if is_g && is_e then at_ BW_WMD else if is_g then at_ BW_WMG else if is_e then at_ BW_WME else at_ BW_WMM in
  if w <? 0 then 0 else w.

Definition relay_weight (W : list Z) (required_flags : Z) (d : moor_node_descriptor_t) : Z :=
  let have_weights := existsb (λ w, negb (w =? 0)) W in
  let bw := clamp_bw (bandwidth d) in
  let bw := if have_weights then u64 (bw * position_weight W required_flags d) / BW_WEIGHT_SCALE else bw in
  if bw =? 0 then 1 else bw.

(** [cum_bw], with the running total. *)
Fixpoint cumulative (total : Z) (weights : list Z) : list Z :=
  match weights with
  | [] => []
  | w :: weights => let total := u64 (total + w) in total :: cumulative total weights
  end.

(** [do { random(&r) } while (r >= limit)] *)
Fixpoint draw_below (limit : Z) (draws : list Z) : option (Z * list Z) :=
  match draws with
  | [] => None
  | r :: draws => if limit <=? r then draw_below limit draws else Some (r, draws)
  end.

(** The binary search; [fuel] bounds the iterations. *)
Fixpoint bsearch (fuel : nat) (cum : list Z) (r lo hi : Z) : Z :=
  match fuel with
  | O => lo
  | S fuel =>
      if lo <? hi then
        let mid := (lo + hi) / 2 in
        if nth (Z.to_nat mid) cum 0 <=? r then bsearch fuel cum r (mid + 1) hi else bsearch fuel cum r lo mid
      else lo
  end.

(** The draw among weighted candidates. *)
Definition pick (candidates : list moor_node_descriptor_t) (weights draws : list Z) : selection * list Z :=
  let cum := cumulative 0 weights in
  let total_bw := nth (length candidates - 1) cum 0 in
  if total_bw =? 0 then (NoRelay, draws) else
  let limit := UINT64_MAX - UINT64_MAX mod total_bw in
  match draw_below limit draws with
  | None => (OutOfDraws, [])
  | Some (r, draws) =>
      let count := Z.of_nat (length candidates) in
      let lo := bsearch (length candidates) cum (r mod total_bw) 0 (count - 1) in
      (match candidates !! Z.to_nat lo with Some d => Selected d | None => NoRelay end, draws)
  end.

Definition moor_node_select_relay (cons : moor_consensus_t) (required_flags : Z) (exclude_ids : list bytes)
    (draws : list Z) : selection * list Z :=
  let candidates := List.filter (eligible required_flags exclude_ids) (relays cons) in
  if Z.of_nat (length candidates) =? 0 then (NoRelay, draws) else
  pick candidates (map (relay_weight (bw_weights cons) required_flags) candidates) draws.

Definition moor_node_same_family (a b : moor_node_descriptor_t) : bool :=
  if bytes_eqb (family_id a) (zeros 32) then false
  else if bytes_eqb (family_id b) (zeros 32) then false
  else bytes_eqb (family_id a) (family_id b).

Definition conflicts (candidate s : moor_node_descriptor_t) : bool :=
  moor_node_same_family candidate s ||
  (negb (country_code candidate =? 0) && (country_code candidate =? country_code s)) ||
  (negb (as_number candidate =? 0) && (as_number candidate =? as_number s)).

(** [attempts] counts down from 10; at 0 any relay is taken. *)
Fixpoint select_diverse (attempts : nat) (cons : moor_consensus_t) (required_flags : Z) (exclude_ids : list bytes)
    (selected : list moor_node_descriptor_t) (draws : list Z) : selection * list Z :=
  match attempts with
  | O => moor_node_select_relay cons required_flags exclude_ids draws
  | S attempts =>
      match moor_node_select_relay cons required_flags exclude_ids draws with
      | (Selected d, draws) =>
          if existsb (conflicts d) selected
          then select_diverse attempts cons required_flags exclude_ids selected draws
          else (Selected d, draws)
      | other => other
      end
  end.

Definition moor_node_select_relay_diverse := select_diverse 10.

Definition eligible_pq (required_flags : Z) (exclude_ids : list bytes) (d : moor_node_descriptor_t) : bool :=
  (Z.land (flags d) required_flags =? required_flags) && has (features d) NODE_FEATURE_PQ && negb (excluded exclude_ids d).

Definition moor_node_select_relay_pq (cons : moor_consensus_t) (required_flags : Z) (exclude_ids : list bytes)
    (draws : list Z) : selection * list Z :=
  let candidates := List.filter (eligible_pq required_flags exclude_ids) (relays cons) in
  if Z.of_nat (length candidates) =? 0 then (NoRelay, draws) else
  pick candidates (map (λ d, clamp_bw (bandwidth d)) candidates) draws.

(** [tolower] in the C locale. *)
Definition tolower (c : Z) : Z := if (65 <=? c) && (c <=? 90) then c + 32 else c.

Definition moor_node_find_by_nickname (cons : moor_consensus_t) (name : bytes) : option moor_node_descriptor_t :=
  let name := cstr name in
  if negb (nonempty name) then None else
  List.find (λ d, nonempty (nickname d) && bool_decide (map tolower name = map tolower (cstr (nickname d)))) (relays cons).

(** ** The search *)

Fixpoint sumZ (l : list Z) : Z := match l with [] => 0 | x :: l => x + sumZ l end.

Lemma sumZ_app a b : sumZ (a ++ b) = sumZ a + sumZ b.
Proof. induction a as [|x a IH]; cbn; lia. Qed.

Lemma sumZ_nonneg l : Forall (λ w, 0 <= w) l → 0 <= sumZ l.
Proof. induction 1 as [|x l Hx _ IH]; cbn; lia. Qed.

Lemma sumZ_pos l : Forall (λ w, 1 <= w) l → l ≠ [] → 0 < sumZ l.
Proof.
  intros HF Hne. destruct HF as [|x l Hx HF]; [done|]. cbn.
  pose proof (sumZ_nonneg l ltac:(eapply Forall_impl; [exact HF|]; cbv beta; lia)). lia.
Qed.

Lemma sumZ_bound B l : Forall (λ w, 0 <= w <= B) l → 0 <= sumZ l <= B * Z.of_nat (length l).
Proof. induction 1 as [|x l Hx _ IH]; cbn [sumZ length]; lia. Qed.

(** The weight before the [i]-th candidate. *)
Definition before (i : nat) (weights : list Z) : Z := sumZ (take i weights).

Lemma before_S i weights w : weights !! i = Some w → before (S i) weights = before i weights + w.
Proof. intros H. unfold before. rewrite (take_S_r _ _ _ H), sumZ_app. cbn. lia. Qed.

Lemma cumulative_nth weights : ∀ t i,
  Forall (λ w, 0 <= w) weights → 0 <= t → t + sumZ weights < 2 ^ 64 → (i < length weights)%nat →
  nth i (cumulative t weights) 0 = t + before (S i) weights.
Proof.
  induction weights as [|w weights IH]; intros t i HF Ht Hs Hi; cbn [length] in Hi; [lia|].
  apply Forall_cons in HF as [Hw HF].
  cbn [cumulative sumZ] in *. pose proof (sumZ_nonneg _ HF).
  unfold u64. rewrite Z.mod_small by lia. destruct i as [|i]; [unfold before; cbn; rewrite take_0; cbn; lia|]. cbn [nth].
  rewrite IH by (done || lia). unfold before. cbn. lia.
Qed.

Lemma before_mono weights i j :
  Forall (λ w, 0 <= w) weights → (i <= j)%nat → before i weights <= before j weights.
Proof.
  intros HF Hij. unfold before. replace j with (i + (j - i))%nat by lia. rewrite <- take_take_drop, sumZ_app.
  pose proof (sumZ_nonneg (take (j - i) (drop i weights)) ltac:(by apply Forall_take, Forall_drop)). lia.
Qed.

(** The search finds the first index whose running total exceeds [r]. *)
Lemma bsearch_spec cum r : ∀ fuel lo hi,
  0 <= lo <= hi → hi - lo < Z.of_nat fuel → r < nth (Z.to_nat hi) cum 0 →
  (lo = 0 ∨ nth (Z.to_nat (lo - 1)) cum 0 <= r) →
  ∃ i, bsearch fuel cum r lo hi = i ∧ lo <= i <= hi ∧ r < nth (Z.to_nat i) cum 0 ∧
    (i = 0 ∨ nth (Z.to_nat (i - 1)) cum 0 <= r).
Proof.
  induction fuel as [|fuel IH]; intros lo hi Hlo Hf Hhi Hl; [lia|]. cbn [bsearch].
  destruct (Z.ltb_spec lo hi).
  2: { assert (lo = hi) as -> by lia. exists hi. done. }
  cbv zeta. assert (Hm : lo <= (lo + hi) / 2 < hi) by zdiv_lia.
  destruct (Z.leb_spec (nth (Z.to_nat ((lo + hi) / 2)) cum 0) r).
  - destruct (IH ((lo + hi) / 2 + 1) hi) as (i & E & Hi & H1 & H2); [lia|lia|done| |by exists i; split_and!; [|lia|lia|..]].
    right. by replace ((lo + hi) / 2 + 1 - 1) with ((lo + hi) / 2) by lia.
  - destruct (IH lo ((lo + hi) / 2)) as (i & E & Hi & H1 & H2); [lia|lia|done|done|]. by exists i; split_and!; [|lia|lia|..].
Qed.

(** ** The draw *)

Lemma draw_below_spec limit rejected x rest :
  Forall (λ r, limit <= r) rejected → x < limit → draw_below limit (rejected ++ x :: rest) = Some (x, rest).
Proof.
  intros HF Hx. induction HF as [|r l Hr _ IH]; cbn [app draw_below].
  - by destruct (Z.leb_spec limit x); [lia|].
  - by destruct (Z.leb_spec limit r); [|lia].
Qed.

(** Draws below this are accepted; it is more than half of the range. *)
Definition draw_limit (total : Z) : Z := UINT64_MAX - UINT64_MAX mod total.

Lemma draw_limit_half total : 0 < total < 2 ^ 63 → 2 ^ 63 <= draw_limit total <= UINT64_MAX ∧ draw_limit total mod total = 0.
Proof.
  intros Ht. unfold draw_limit, UINT64_MAX. pose proof (Z.mod_pos_bound (2 ^ 64 - 1) total). split; [lia|].
  rewrite Zminus_mod_idemp_r. by rewrite Z.sub_diag.
Qed.

Lemma pick_spec candidates weights rejected x rest :
  length weights = length candidates → candidates ≠ [] →
  Forall (λ w, 1 <= w) weights → sumZ weights < 2 ^ 63 →
  Forall (λ r, draw_limit (sumZ weights) <= r) rejected → 0 <= x < draw_limit (sumZ weights) →
  ∃ i d, candidates !! i = Some d ∧ pick candidates weights (rejected ++ x :: rest) = (Selected d, rest) ∧
    before i weights <= x mod sumZ weights < before (S i) weights.
Proof.
  intros Hl Hne Hw Hs Hrej Hx. assert (Hw0 : Forall (λ w, 0 <= w) weights) by (eapply Forall_impl; [exact Hw|]; cbv beta; lia).
  set (n := length candidates) in *. assert (Hn : (0 < n)%nat) by (destruct candidates; [done|cbn; lia]).
  assert (Htot : nth (n - 1) (cumulative 0 weights) 0 = sumZ weights).
  { rewrite cumulative_nth by (done || lia). unfold before. rewrite take_ge by lia. lia. }
  assert (Hpos : 0 < sumZ weights).
  { apply sumZ_pos; [done|]. intros ->. cbn in Hl. lia. }
  unfold pick. cbv zeta. fold n. rewrite Htot. destruct (Z.eqb_spec (sumZ weights) 0); [lia|].
  fold (draw_limit (sumZ weights)). rewrite (draw_below_spec _ _ _ _ Hrej) by lia.
  pose proof (Z.mod_pos_bound x (sumZ weights) Hpos) as Hr. set (r := x mod sumZ weights) in *.
  assert (Hcum : ∀ i, 0 <= i < Z.of_nat n → nth (Z.to_nat i) (cumulative 0 weights) 0 = before (S (Z.to_nat i)) weights).
  { intros i Hi. rewrite cumulative_nth by (done || lia). lia. }
  destruct (bsearch_spec (cumulative 0 weights) r n 0 (Z.of_nat n - 1)) as (i & -> & Hi & Hlt & Hge); [lia|lia| |by left|].
  { replace (Z.to_nat (Z.of_nat n - 1)) with (n - 1)%nat by lia. lia. }
  destruct (candidates !! Z.to_nat i) as [d|] eqn:Ed.
  2: { apply lookup_ge_None in Ed. fold n in Ed. lia. }
  exists (Z.to_nat i), d. split_and!; [done|done| |by rewrite <- Hcum by lia].
  destruct Hge as [-> |Hge]; [unfold before; cbn; rewrite take_0; cbn; lia|].
  destruct (Z.eq_dec i 0) as [->|]; [unfold before; cbn; rewrite take_0; cbn; lia|].
  rewrite Hcum in Hge by lia. by replace (Z.to_nat i) with (S (Z.to_nat (i - 1))) by lia.
Qed.

(** ** Weights *)

Lemma clamp_bw_range bw : 1000 <= clamp_bw bw <= 1000000000.
Proof. unfold clamp_bw. zcases; lia. Qed.

Definition int32s (W : list Z) : Prop := Forall (λ w, - 2 ^ 31 <= w < 2 ^ 31) W.

Lemma position_weight_range W required d : int32s W → 0 <= position_weight W required d < 2 ^ 31.
Proof.
  intros HW. assert (Hn : ∀ i, nth i W 0 < 2 ^ 31).
  { intros i. destruct (nth_in_or_default i W 0) as [Hin| ->]; [|lia]. unfold int32s in HW. rewrite Forall_forall in HW.
    apply list_elem_of_In, HW in Hin. lia. }
  unfold position_weight. cbv zeta.
  match goal with |- context [if ?w <? 0 then _ else _] => assert (w < 2 ^ 31) by (repeat case_match; apply Hn) end.
  zcases; lia.
Qed.

Lemma relay_weight_range W required d : int32s W → 1 <= relay_weight W required d <= 2 ^ 48.
Proof.
  intros HW. unfold relay_weight. cbv zeta. pose proof (clamp_bw_range (bandwidth d)) as Hb.
  pose proof (position_weight_range W required d HW) as Hp.
  set (bw := if existsb _ W then _ else _). assert (0 <= bw <= 2 ^ 48).
  { subst bw. destruct (existsb _ W); [|lia]. unfold u64, BW_WEIGHT_SCALE. rewrite Z.mod_small by nia.
    split; [apply Z.div_pos; nia|]. apply Z.div_le_upper_bound; nia. }
  zcases; lia.
Qed.

(** ** Theorem *)

(** C24. Relay selection is weighted exactly: in a consensus of at most 8192 relays,
    draws are rejected above a multiple of the total weight that is more than half of
    the 64-bit range, and the first accepted draw selects the eligible relay whose
    interval of residues, as long as the relay's weight, contains it. *)
Theorem select_relay_weighted cons required exclude rejected x rest :
  let candidates := List.filter (eligible required exclude) (relays cons) in
  let weights := map (relay_weight (bw_weights cons) required) candidates in
  num_relays_of cons <= 8192 → int32s (bw_weights cons) → candidates ≠ [] →
  Forall (λ r, draw_limit (sumZ weights) <= r) rejected → 0 <= x < draw_limit (sumZ weights) →
  2 ^ 63 <= draw_limit (sumZ weights) ∧ draw_limit (sumZ weights) mod sumZ weights = 0 ∧
  ∃ i d, candidates !! i = Some d ∧
    moor_node_select_relay cons required exclude (rejected ++ x :: rest) = (Selected d, rest) ∧
    before i weights <= x mod sumZ weights < before (S i) weights.
Proof.
  intros candidates weights Hn HW Hne Hrej Hx.
  assert (Hlen : Z.of_nat (length candidates) <= 8192).
  { unfold candidates. pose proof (filter_length_le (eligible required exclude) (relays cons)). unfold num_relays_of in Hn. lia. }
  assert (Hw : Forall (λ w, 1 <= w <= 2 ^ 48) weights).
  { unfold weights. apply Forall_forall. intros w (d & -> & _)%list_elem_of_fmap. by apply relay_weight_range. }
  assert (Hlw : length weights = length candidates) by apply length_map.
  pose proof (sumZ_bound (2 ^ 48) weights ltac:(eapply Forall_impl; [exact Hw|]; cbv beta; lia)) as Hsum.
  assert (Hs : sumZ weights < 2 ^ 63) by lia.
  destruct (pick_spec candidates weights rejected x rest) as (i & d & Hi & Hp & Hr); [done|done| |done|done|done|].
  { eapply Forall_impl; [exact Hw|]. cbv beta. lia. }
  assert (Hpos : 0 < sumZ weights).
  { apply sumZ_pos; [eapply Forall_impl; [exact Hw|]; cbv beta; lia|]. intros E. rewrite E in Hlw. by destruct candidates. }
  destruct (draw_limit_half (sumZ weights)) as [[Hh _] Hm]; [lia|]. split_and!; [done|done|].
  exists i, d. split_and!; [done| |lia|lia]. unfold moor_node_select_relay. cbv zeta. fold candidates. fold weights.
  destruct (Z.eqb_spec (Z.of_nat (length candidates)) 0); [|done]. destruct candidates; [done|]. cbn in *. lia.
Qed.

Definition example_exit (k bw : Z) : moor_node_descriptor_t :=
  {| empty_desc with identity_pk := replicate 32 k; flags := Z.lor NODE_FLAG_EXIT NODE_FLAG_RUNNING; bandwidth := bw |}.

Definition example_net : moor_consensus_t :=
  Consensus 0 0 0 [example_exit 1 5000; example_exit 2 7000; example_exit 3 2000000000] [] (zeros 32) (zeros 32)
    [10000; 0; 6000; 10000; 0; 4000; 10000; 0].

Lemma select_relay_weighted_witness :
  let candidates := List.filter (eligible NODE_FLAG_EXIT [replicate 32 1]) (relays example_net) in
  let weights := map (relay_weight (bw_weights example_net) NODE_FLAG_EXIT) candidates in
  2 ^ 63 <= draw_limit (sumZ weights) ∧ draw_limit (sumZ weights) mod sumZ weights = 0 ∧
  ∃ i d, candidates !! i = Some d ∧
    moor_node_select_relay example_net NODE_FLAG_EXIT [replicate 32 1] ([UINT64_MAX] ++ 4200 :: []) = (Selected d, []) ∧
    before i weights <= 4200 mod sumZ weights < before (S i) weights.
Proof.
  apply (select_relay_weighted example_net NODE_FLAG_EXIT [replicate 32 1] [UINT64_MAX] 4200 []).
  - by vm_compute.
  - repeat constructor; by vm_compute.
  - by vm_compute.
  - repeat constructor. by vm_compute.
  - by vm_compute.
Defined.

(** ** Diversity *)

Lemma pick_candidate candidates weights draws d rest :
  pick candidates weights draws = (Selected d, rest) → d ∈ candidates.
Proof.
  unfold pick. cbv zeta. destruct (_ =? 0); [done|]. destruct (draw_below _ draws) as [[r l]|]; [|done].
  destruct (candidates !! _) as [c|] eqn:E; [|done]. intros [= <- _]. by eapply list_elem_of_lookup_2.
Qed.

(** What is selected is a relay of the consensus that passes the filter. *)
Lemma select_relay_eligible cons required exclude draws d rest :
  moor_node_select_relay cons required exclude draws = (Selected d, rest) →
  d ∈ relays cons ∧ eligible required exclude d = true.
Proof.
  unfold moor_node_select_relay. cbv zeta. destruct (_ =? 0); [done|]. intros H%pick_candidate.
  apply list_elem_of_In, filter_In in H as [Hin He]. by rewrite list_elem_of_In.
Qed.

(** So is what the diverse selection returns, which also conflicts with none of the
    relays before it unless all ten attempts did. *)
Lemma select_diverse_eligible n cons required exclude selected : ∀ draws d rest,
  select_diverse n cons required exclude selected draws = (Selected d, rest) →
  d ∈ relays cons ∧ eligible required exclude d = true.
Proof.
  induction n as [|n IH]; intros draws d rest; cbn [select_diverse]; [apply select_relay_eligible|].
  destruct (moor_node_select_relay cons required exclude draws) as [[c| |] l] eqn:E; [|done..].
  destruct (existsb (conflicts c) selected); [apply IH|]. intros [= <- <-]. by eapply select_relay_eligible.
Qed.
