(* ===== verification/DaRelays.v ===== *)
(** * DaRelays: the relay table of a directory authority

    Models how descriptors enter the table of an authority in [src/src/directory.c]:
    [da_add_relay_unlocked] with its tests and its three ways to store, the trusted
    import, the [SYNC_RELAYS] answer of an authority and the merge of such an answer by
    a peer. Signature verification, the parsing of IPv4 addresses, the GeoIP lookups
    and the lines of the ban file are parameters.

    The theorems show that no relay can give itself a flag that authorities assign when
    it is added, that a relay that moves to the address of another can end up twice in
    the table, and that the merge reads none of the descriptors that relays must have
    to be admitted at all. *)

From S2P Require Import Prelude Wire Descriptor Microdesc Consensus Select.

Definition NODE_FEATURES_REQUIRED : Z := Z.lor NODE_FEATURE_CELL_KEM (Z.lor NODE_FEATURE_BUILD_ID NODE_FEATURE_FALCON).
Definition MOOR_MIN_PROTOCOL_VERSION : Z := 4.

(** The private and reserved IPv4 networks, for an address in host order. *)
Definition private_ip (ip : Z) : bool :=
  (Z.shiftr ip 24 =? 127) || (Z.shiftr ip 24 =? 10) || (Z.shiftr ip 20 =? Z.lor (Z.shiftl 172 4) 1) ||
  (Z.shiftr ip 16 =? Z.lor (Z.shiftl 192 8) 168) || (Z.shiftr ip 16 =? Z.lor (Z.shiftl 169 8) 254) || (Z.shiftr ip 24 =? 0).

(** ** The ban file *)

Definition strcasecmp_eq (a b : bytes) : bool := bool_decide (map tolower (cstr a) = map tolower (cstr b)).

(** [strncmp(a, b, n) == 0] for a string [a] of [n] characters. *)
Definition prefix_of_cstr (a b : bytes) : bool := bool_decide (a = take (length a) (cstr b)).

Definition hex_digit (v : Z) : Z := if v <? 10 then 48 + v else 87 + v.
Definition id_hex (pk : bytes) : bytes := pk ≫= λ b, [hex_digit (b / 16); hex_digit (b mod 16)].

(** A line of the file, without its end of line. *)
Definition ban_line_matches (d : moor_node_descriptor_t) (line : bytes) : bool :=
  if (Z.of_nat (length line) =? 0) || (match line with c :: _ => c =? 35 | [] => false end) then false
  else if strcasecmp_eq line (nickname d) then true
  else if prefix_of_cstr line (address d) then true
  else (8 <=? Z.of_nat (length line)) &&
       bool_decide (map tolower line = take (length line) (map tolower (id_hex (identity_pk d)))).

(** ** Storing a descriptor *)

(** [strcmp(a->address, d->address) == 0 && a->or_port == d->or_port] *)
Definition same_endpoint (a d : moor_node_descriptor_t) : bool :=
  bool_decide (cstr (address a) = cstr (address d)) && (or_port a =? or_port d).

Definition set_flags (f : Z) (d : moor_node_descriptor_t) : moor_node_descriptor_t := {| d with flags := f |}.

(** [desc_local.flags &= ~DA_STRIP_MASK] *)
Definition strip_flags (d : moor_node_descriptor_t) : moor_node_descriptor_t :=
  set_flags (Z.land (flags d) (u32 (Z.lnot NODE_FLAGS_DA_ASSIGNED))) d.

(** What the GeoIP database says of a descriptor: a country and a network for its
    address, or only a country for its second address. *)
Inductive geo := GeoNone | GeoFull (cc asn : Z) | GeoCountry (cc : Z).

Definition apply_geo (g : geo) (d : moor_node_descriptor_t) : moor_node_descriptor_t :=
  match g with
  | GeoNone => d
  | GeoFull cc asn => {| d with country_code := cc; as_number := asn |}
  | GeoCountry cc => {| d with country_code := cc |}
  end.

(** The refresh of the entry [old] of the same relay. *)
Definition refresh_entry (now : Z) (g : geo) (old d : moor_node_descriptor_t) : moor_node_descriptor_t :=
  let keep := Z.land (flags old) (Z.lor NODE_FLAG_RUNNING (Z.lor NODE_FLAG_FAST (Z.lor NODE_FLAG_STABLE
                (Z.lor NODE_FLAG_BADEXIT (Z.lor NODE_FLAG_GUARD NODE_FLAG_AUTHORITY))))) in
  apply_geo g {| d with first_seen := first_seen old; probe_failures := probe_failures old;
                 verified_bandwidth := verified_bandwidth old; flags := Z.lor (flags d) keep; last_registered := now |}.

(** An entry for a relay that was not known. *)
Definition fresh_entry (now : Z) (d : moor_node_descriptor_t) : moor_node_descriptor_t :=
  {| d with first_seen := now; last_registered := now |}.

(** The scan of the table: the first entry with the identity is refreshed, unless an
    entry with the address and port comes before it, which is replaced. *)
Fixpoint store_scan (now : Z) (g : geo) (d : moor_node_descriptor_t) (l : list moor_node_descriptor_t)
    : option (list moor_node_descriptor_t) :=
  match l with
  | [] => None
  | r :: l =>
      if bytes_eqb (identity_pk r) (identity_pk d) then Some (refresh_entry now g r d :: l)
      else if same_endpoint r d then Some (fresh_entry now d :: l)
      else match store_scan now g d l with Some l => Some (r :: l) | None => None end
  end.

(** [None] is the return value -1. *)
Definition store_relay (now : Z) (g : geo) (d : moor_node_descriptor_t) (l : list moor_node_descriptor_t)
    : option (list moor_node_descriptor_t) :=
  match store_scan now g d l with
  | Some l => Some l
  | None =>
      if MOOR_MAX_RELAYS <=? Z.of_nat (length l) then None
      else Some (l ++ [apply_geo g (fresh_entry now d)])
  end.

(** What the environment of an authority provides. *)
Record da_env := DaEnv {
  env_verify : moor_node_descriptor_t → bool;
  env_inet_pton : bytes → option Z;
  env_geo : moor_node_descriptor_t → geo;
  env_banned : list bytes;
  env_build_id : bytes;
}.

Section Table.
  Variable env : da_env.

Definition da_is_private_address (addr : bytes) : bool :=
  match env_inet_pton env (cstr addr) with Some ip => private_ip ip | None => false end.

(** The tests of [da_add_relay_unlocked], in order. *)
Definition admissible (d : moor_node_descriptor_t) : bool :=
  env_verify env d &&
  (Z.land (features d) NODE_FEATURES_REQUIRED =? NODE_FEATURES_REQUIRED) &&
  negb (protocol_version d <? MOOR_MIN_PROTOCOL_VERSION) &&
  bytes_eqb (build_id d) (env_build_id env) &&
  negb (da_is_private_address (address d)) &&
  negb (existsb (ban_line_matches d) (env_banned env)).

Definition da_add_relay_unlocked (now : Z) (d : moor_node_descriptor_t) (l : list moor_node_descriptor_t)
    : option (list moor_node_descriptor_t) :=
  if admissible d then
    let desc_san := strip_flags d in store_relay now (env_geo env desc_san) desc_san l
  else None.

(** The scan of the trusted import: a newer descriptor replaces the entry. *)
Fixpoint trusted_scan (d : moor_node_descriptor_t) (l : list moor_node_descriptor_t) : option (list moor_node_descriptor_t) :=
  match l with
  | [] => None
  | r :: l =>
      if bytes_eqb (identity_pk r) (identity_pk d)
      then Some ((if published r <? published d then d else r) :: l)
      else match trusted_scan d l with Some l => Some (r :: l) | None => None end
  end.

(** The capacity of the array after the growth that [da_add_relay_unlocked] makes
    before it appends to a full array. *)
Definition grown_capacity (cap n : Z) : Z :=
  if n <? cap then cap else
  let new_cap := cap * 2 in
  let new_cap := if MOOR_MAX_RELAYS <? new_cap then MOOR_MAX_RELAYS else new_cap in
  if new_cap <? 256 then 256 else new_cap.

(** The import writes entry [num_relays] of an array of [cap] entries. *)
Inductive import := Imported (l : list moor_node_descriptor_t) | Refused | PastEnd.

Definition moor_da_add_relay_trusted (cap : Z) (d : moor_node_descriptor_t) (l : list moor_node_descriptor_t) : import :=
  if negb (Z.land (features d) NODE_FEATURES_REQUIRED =? NODE_FEATURES_REQUIRED) then Refused else
  match trusted_scan d l with
  | Some l => Imported l
  | None =>
      if Z.of_nat (length l) <? MOOR_MAX_RELAYS then
        if Z.of_nat (length l) <? cap then Imported (l ++ [d]) else PastEnd
      else Refused
  end.

(** The capacity of the table of [moor_da_init]. *)
Definition DA_CAPACITY : Z := 256.

(** The import of the relays of a peer's consensus, in [main.c]. *)
Fixpoint import_all (cap : Z) (ds l : list moor_node_descriptor_t) : import :=
  match ds with
  | [] => Imported l
  | d :: ds =>
      match moor_da_add_relay_trusted cap d l with
      | Imported l => import_all cap ds l
      | Refused => import_all cap ds l
      | PastEnd => PastEnd
      end
  end.

(** ** Synchronization *)

(** The answer to [SYNC_RELAYS]: a count, then length and bytes of each descriptor. *)
Fixpoint sync_entries (room : Z) (l : list moor_node_descriptor_t) : bytes :=
  match l with
  | [] => []
  | d :: l =>
      match moor_node_descriptor_serialize (room - 2) d with
      | None => sync_entries room l
      | Some w => be_put 2 (Z.of_nat (length w)) ++ w ++ sync_entries (room - 2 - Z.of_nat (length w)) l
      end
  end.

Definition sync_response (l : list moor_node_descriptor_t) : bytes :=
  let count := Z.of_nat (length l) in be_put 4 count ++ sync_entries (count * (2 + 4096)) l.

(** The entry of a relay that is known already. *)
Definition sync_update (r d : moor_node_descriptor_t) : moor_node_descriptor_t :=
  let our_vbw := verified_bandwidth r in
  let peer_vbw := verified_bandwidth d in
  let r := if published r <? published d then {| d with first_seen := first_seen r; probe_failures := probe_failures r |} else r in
  if (0 <? our_vbw) && (0 <? peer_vbw) then {| r with verified_bandwidth := if our_vbw <? peer_vbw then our_vbw else peer_vbw |}
  else if 0 <? our_vbw then {| r with verified_bandwidth := our_vbw |} else r.

Fixpoint sync_known (d : moor_node_descriptor_t) (l : list moor_node_descriptor_t) : option (list moor_node_descriptor_t) :=
  match l with
  | [] => None
  | r :: l =>
      if bytes_eqb (identity_pk r) (identity_pk d) then Some (sync_update r d :: l)
      else match sync_known d l with Some l => Some (r :: l) | None => None end
  end.

(** One descriptor of the answer: the table, and the number of new relays. *)
Definition sync_one (now : Z) (data : bytes) (l : list moor_node_descriptor_t) (new : Z) : list moor_node_descriptor_t * Z :=
  match moor_node_descriptor_deserialize data with
  | None => (l, new)
  | Some (d, _) =>
      if negb (env_verify env d) then (l, new)
      else if negb (bytes_eqb (build_id d) (env_build_id env)) then (l, new)
      else match sync_known d l with
           | Some l => (l, new)
           | None => match da_add_relay_unlocked now d l with Some l => (l, new + 1) | None => (l, new) end
           end
  end.

(** The loop over the answer; [n] descriptors are left. *)
Fixpoint sync_loop (now : Z) (n : nat) (data : bytes) (l : list moor_node_descriptor_t) (new : Z)
    : list moor_node_descriptor_t * Z :=
  match n with
  | O => (l, new)
  | S n =>
      if Z.of_nat (length data) <? 2 then (l, new) else
      let dlen := be_get (take 2 data) in
      let data := drop 2 data in
      if (2048 <? dlen) || (dlen <? 64) || (Z.of_nat (length data) <? dlen) then (l, new) else
      let '(l, new) := sync_one now (take (Z.to_nat dlen) data) l new in
      sync_loop now n (drop (Z.to_nat dlen) data) l new
  end.

(** The merge of the answer of one peer; a bad one is ignored. *)
Definition sync_merge (now : Z) (resp : bytes) (l : list moor_node_descriptor_t) : list moor_node_descriptor_t * Z :=
  if Z.of_nat (length resp) <? 4 then (l, 0) else
  let count := be_get (take 4 resp) in
  if MOOR_MAX_RELAYS <? count then (l, 0) else sync_loop now (Z.to_nat count) (drop 4 resp) l 0.

End Table.

(** ** Flags *)

(** The flags that authorities assign. *)
Definition da_bits (f : Z) : Z := Z.land f NODE_FLAGS_DA_ASSIGNED.

Lemma da_bits_strip f : da_bits (Z.land f (u32 (Z.lnot NODE_FLAGS_DA_ASSIGNED))) = 0.
Proof. unfold da_bits. rewrite <- Z.land_assoc. change (Z.land (u32 _) _) with 0. apply Z.land_0_r. Qed.

Lemma flags_geo g d : flags (apply_geo g d) = flags d.
Proof. by destruct g. Qed.
Lemma identity_geo g d : identity_pk (apply_geo g d) = identity_pk d.
Proof. by destruct g. Qed.

Lemma da_bits_refresh now g old d :
  da_bits (flags d) = 0 → da_bits (flags (refresh_entry now g old d)) = da_bits (flags old).
Proof.
  intros H. unfold refresh_entry. cbv zeta. rewrite flags_geo. cbn [flags]. unfold da_bits in *.
  rewrite Z.land_lor_distr_l, H, Z.lor_0_l, <- Z.land_assoc. f_equal.
Qed.

(** Where an entry of the new table comes from. *)
Lemma store_scan_origin now g d l l' :
  da_bits (flags d) = 0 → store_scan now g d l = Some l' → ∀ r', r' ∈ l' →
  r' ∈ l ∨ (identity_pk r' = identity_pk d ∧ (da_bits (flags r') = 0 ∨
    ∃ r, r ∈ l ∧ identity_pk r = identity_pk d ∧ da_bits (flags r') = da_bits (flags r))).
Proof.
  intros Hd. revert l'. induction l as [|r l IH]; intros l' H r' Hr'; [done|]. cbn [store_scan] in H.
  destruct (bytes_eqb (identity_pk r) (identity_pk d)) eqn:Ei.
  - apply bool_decide_eq_true in Ei. injection H as <-. apply elem_of_cons in Hr' as [->|Hr']; [|left; by right]. right. split.
    { unfold refresh_entry. cbv zeta. by rewrite identity_geo. }
    right. exists r. split_and!; [by left|done|by apply da_bits_refresh].
  - destruct (same_endpoint r d).
    + injection H as <-. apply elem_of_cons in Hr' as [->|Hr']; [|left; by right]. right. split; [done|by left].
    + destruct (store_scan now g d l) as [l2|]; [|done]. injection H as <-.
      apply elem_of_cons in Hr' as [->|Hr']; [left; by left|].
      destruct (IH l2 eq_refl r' Hr') as [Hl|(Hid & [H0|(q & Hq & Hqi & Hqf)])]; [left; by right|right; auto|].
      right. split; [done|]. right. exists q. split_and!; [by right|done..].
Qed.

(** An authority that verifies the toy schemes, with a ban file of one line. *)
Definition example_env : da_env :=
  DaEnv (moor_node_verify_descriptor toy_verify toy_verify) (λ _, Some 16909060) (λ _, GeoFull 21843 64500)
    [[98; 97; 100]] (replicate 16 97).

(** The example relay, signed with the identity key [7, 7, ...]; it claims to be a guard. *)
Definition example_signed (key : Z) (port : Z) : moor_node_descriptor_t :=
  let d := {| example_desc with identity_pk := replicate 32 key; or_port := port; flags := NODE_FLAG_GUARD;
              features := NODE_FEATURES_REQUIRED |} in
  default d (moor_node_sign_descriptor toy_sign (λ sk m, Some (toy_sign sk m)) d (replicate 32 key)
               (Some (replicate MOOR_FALCON_PK_LEN 3))).

(** C34. A relay cannot give itself a flag that authorities assign: after a descriptor
    is added, every entry of the table was there before, or is the relay's own entry
    with none of these flags or with those its earlier entry had. *)
Theorem no_self_assigned_flags env now d l l' :
  da_add_relay_unlocked env now d l = Some l' → ∀ r', r' ∈ l' →
  r' ∈ l ∨ (identity_pk r' = identity_pk d ∧ (da_bits (flags r') = 0 ∨
    ∃ r, r ∈ l ∧ identity_pk r = identity_pk d ∧ da_bits (flags r') = da_bits (flags r))).
Proof.
  unfold da_add_relay_unlocked. destruct (admissible env d); [|done]. cbv zeta. set (d' := strip_flags d).
  assert (Hd' : da_bits (flags d') = 0) by apply da_bits_strip. unfold store_relay.
  destruct (store_scan now (env_geo env d') d' l) as [l2|] eqn:E; [intros [= <-]; by eapply (store_scan_origin _ _ d')|].
  destruct (_ <=? _); [done|]. intros [= <-] r' [Hl|Hs]%elem_of_app; [by left|].
  apply list_elem_of_singleton in Hs as ->. right. rewrite identity_geo, flags_geo. split; [done|by left].
Qed.

Lemma no_self_assigned_flags_witness :
  ∃ l', da_add_relay_unlocked example_env 10 (example_signed 7 9001) [] = Some l' ∧
    ∀ r', r' ∈ l' → da_bits (flags r') = 0.
Proof.
  eexists. split; [vm_compute; reflexivity|]. intros r' Hr'.
  destruct (no_self_assigned_flags example_env 10 (example_signed 7 9001) [] _ ltac:(vm_compute; reflexivity) r' Hr')
    as [H|[_ [H|(r & H & _)]]]; [by apply elem_of_nil in H|exact H|by apply elem_of_nil in H].
Defined.

(** ** Duplicates *)

Definition entries_of (pk : bytes) (l : list moor_node_descriptor_t) : nat :=
  length (List.filter (λ r, bytes_eqb (identity_pk r) pk) l).

Lemma entries_of_elem pk l r : r ∈ l → identity_pk r = pk → (1 <= entries_of pk l)%nat.
Proof.
  intros Hin Hpk. unfold entries_of. assert (In r (List.filter (λ r, bytes_eqb (identity_pk r) pk) l)) as H.
  { apply filter_In. split; [by apply list_elem_of_In|]. by apply bool_decide_eq_true. }
  destruct (List.filter _ l); [done|cbn; lia].
Qed.

(** A relay can be in the table twice: when it is admitted at the address and port
    of another relay that comes before its own entry, the other relay's entry becomes
    a second entry of it. *)
Theorem add_relay_duplicates env now d x l k :
  admissible env d = true → identity_pk x ≠ identity_pk d → same_endpoint x d = true →
  k ∈ l → identity_pk k = identity_pk d →
  ∃ l', da_add_relay_unlocked env now d (x :: l) = Some l' ∧ (2 <= entries_of (identity_pk d) l')%nat.
Proof.
  intros Ha Hx He Hk Hi. unfold da_add_relay_unlocked, store_relay. rewrite Ha. cbv zeta. cbn [store_scan].
  change (same_endpoint x (strip_flags d)) with (same_endpoint x d). change (identity_pk (strip_flags d)) with (identity_pk d).
  rewrite He. unfold bytes_eqb at 1. rewrite bool_decide_false by done. eexists. split; [reflexivity|].
  pose proof (entries_of_elem (identity_pk d) l k Hk Hi) as Hn. unfold entries_of in *. cbn [List.filter].
  change (identity_pk (fresh_entry now (strip_flags d))) with (identity_pk d). unfold bytes_eqb at 1.
  rewrite bool_decide_true by done. cbn [length]. lia.
Qed.

Lemma add_relay_duplicates_witness :
  ∃ l', da_add_relay_unlocked example_env 10 (example_signed 7 9001) [example_signed 8 9001; example_signed 7 9002] = Some l' ∧
    (2 <= entries_of (replicate 32 7%Z) l')%nat.
Proof.
  apply (add_relay_duplicates example_env 10 (example_signed 7 9001) (example_signed 8 9001) [example_signed 7 9002]
    (example_signed 7 9002)); [by vm_compute|by vm_compute|by vm_compute|by left|by vm_compute].
Defined.

(** ** The import of a consensus *)

Definition importable (d : moor_node_descriptor_t) : Prop :=
  Z.land (features d) NODE_FEATURES_REQUIRED = NODE_FEATURES_REQUIRED.

Lemma trusted_scan_new d l : identity_pk d ∉ identity_pk <$> l → trusted_scan d l = None.
Proof.
  induction l as [|r l IH]; [done|]. rewrite fmap_cons, not_elem_of_cons. intros [Hr Hl]. cbn [trusted_scan].
  unfold bytes_eqb. rewrite bool_decide_false by done. by rewrite IH.
Qed.

Lemma trusted_new cap d l :
  importable d → identity_pk d ∉ identity_pk <$> l → Z.of_nat (length l) < MOOR_MAX_RELAYS →
  moor_da_add_relay_trusted cap d l = if Z.of_nat (length l) <? cap then Imported (l ++ [d]) else PastEnd.
Proof.
  intros Hd Hn Hl. unfold moor_da_add_relay_trusted. rewrite Hd, Z.eqb_refl, trusted_scan_new by done. cbn [negb].
  by replace (Z.of_nat (length l) <? MOOR_MAX_RELAYS) with true by lia.
Qed.

Lemma grown_capacity_room cap n : 0 <= n < MOOR_MAX_RELAYS → n <= cap → n < grown_capacity cap n.
Proof. unfold grown_capacity, MOOR_MAX_RELAYS. intros. repeat case_match; lia. Qed.

(** The import of new relays until the array is full, and what happens then. *)
Lemma import_all_fresh cap ds l :
  Forall importable ds → NoDup (identity_pk <$> l ++ ds) → Z.of_nat (length (l ++ ds)) <= MOOR_MAX_RELAYS →
  Z.of_nat (length l) <= cap →
  import_all cap ds l = if Z.of_nat (length (l ++ ds)) <=? cap then Imported (l ++ ds) else PastEnd.
Proof.
  revert l. induction ds as [|d ds IH]; intros l HF Hnd Hmax Hcap.
  - rewrite app_nil_r. by replace (Z.of_nat (length l) <=? cap) with true by lia.
  - apply Forall_cons in HF as [Hd HF]. cbn [import_all].
    assert (Hnew : identity_pk d ∉ identity_pk <$> l).
    { rewrite fmap_app, fmap_cons in Hnd. apply NoDup_app in Hnd as (_ & Hdis & _). intros Hin. by apply (Hdis _ Hin); left. }
    rewrite length_app in *. cbn [length] in *. rewrite trusted_new by (done || lia).
    destruct (Z.of_nat (length l) <? cap) eqn:E.
    + rewrite IH; rewrite <- ?app_assoc; cbn [app]; rewrite ?length_app; cbn [length]; first [done|lia].
    + apply Z.ltb_ge in E. rewrite (proj2 (Z.leb_gt _ _)); [done|lia].
Qed.

(** An authority that starts from a peer's consensus of more relays than the 256 of
    its table, all carrying what it requires, writes past the end of the table: the
    import, unlike the registration of a relay, never grows the array. *)
Theorem bootstrap_overflow ds :
  Forall importable ds → NoDup (identity_pk <$> ds) → DA_CAPACITY < Z.of_nat (length ds) <= MOOR_MAX_RELAYS →
  import_all DA_CAPACITY ds [] = PastEnd ∧
  ∀ n, 0 <= n < MOOR_MAX_RELAYS → n <= DA_CAPACITY → n < grown_capacity DA_CAPACITY n.
Proof.
  intros HF Hnd Hl. split.
  - rewrite import_all_fresh by (done || (cbn [app length]; unfold DA_CAPACITY in *; lia)). cbn [app].
    by replace (_ <=? DA_CAPACITY) with false by lia.
  - intros n ? ?. by apply grown_capacity_room.
Qed.

(** 257 relays. *)
Definition example_relays : list moor_node_descriptor_t :=
  (λ k : nat, {| example_desc with identity_pk := be_put 32 (Z.of_nat k); features := NODE_FEATURES_REQUIRED |}) <$> seq 0 257.

Lemma bootstrap_overflow_witness : import_all DA_CAPACITY example_relays [] = PastEnd.
Proof.
  apply (bootstrap_overflow example_relays).
  - apply Forall_fmap, Forall_true. by intros k.
  - apply (bool_decide_unpack _). vm_compute. exact I.
  - by vm_compute.
Defined.

(** ** What is read of an answer *)

(** A descriptor that an authority would admit, as far as its form goes. *)
Record admitted_form (d : moor_node_descriptor_t) : Prop := {
  af_ok : desc_ok d;
  af_match : features_match d;
  af_required : Z.land (features d) NODE_FEATURES_REQUIRED = NODE_FEATURES_REQUIRED;
}.

Lemma has_required f bit :
  Z.land f NODE_FEATURES_REQUIRED = NODE_FEATURES_REQUIRED → has NODE_FEATURES_REQUIRED bit = true →
  Z.land NODE_FEATURES_REQUIRED bit = bit → has f bit = true.
Proof.
  intros Hf Hb Hi. unfold has in *. rewrite <- Hi, Z.land_assoc, Hf. exact Hb.
Qed.

Lemma length_concat_members d : desc_ok d →
  (length (concat (take (Z.to_nat (family_count d)) (family_members d))) <= 256)%nat.
Proof.
  intros Hd. destruct (ok_members d Hd) as [Hl HF]. pose proof (Forall_take _ (Z.to_nat (family_count d)) _ HF) as H.
  assert (Hn : (length (take (Z.to_nat (family_count d)) (family_members d)) <= 8)%nat) by (rewrite length_take; lia).
  assert (∀ ms : list bytes, Forall (λ m, length m = 32%nat) ms → length (concat ms) = (32 * length ms)%nat) as Hc.
  { induction 1 as [|m ms Hm _ IH]; [done|]. cbn [concat length]. rewrite length_app. lia. }
  rewrite Hc by done. lia.
Qed.

Lemma length_admitted d : admitted_form d → (2048 < length (wire d) <= 3644)%nat.
Proof.
  intros [Hd Hm Hr].
  assert (Hb : has (features d) NODE_FEATURE_BUILD_ID = true) by (by apply has_required).
  assert (Hf : has (features d) NODE_FEATURE_FALCON = true) by (by apply has_required).
  assert (Hn : has (features d) NODE_FEATURE_NICKNAME = true).
  { rewrite (fm_nickname d Hm). unfold wants_v4. rewrite <- (fm_build d Hm), Hb. by rewrite orb_true_r. }
  unfold wire. rewrite has_lor_r, Hb, Hf, Hn, orb_true_r, !length_app, length_v1, length_v2, length_v4, length_be_put by done.
  unfold v8_wire, family_wire. rewrite !length_app, !length_be_put, length_take.
  pose proof (length_concat_members d Hd). destruct (ok_contact d Hd) as [Hc _], (ok_build d Hd) as [Hbl _].
  pose proof (ok_falcon_pk d Hd). pose proof (ok_sig_len d Hd). pose proof (ok_sig d Hd). pose proof (ok_family_id d Hd).
  unfold MOOR_FALCON_PK_LEN, MOOR_FALCON_SIG_MAX_LEN in *.
  destruct (has (features d) NODE_FEATURE_CONTACT); cbn [length]; lia.
Qed.

Lemma sync_entries_cons room d l :
  admitted_form d → 3646 <= room →
  sync_entries room (d :: l) =
    be_put 2 (Z.of_nat (length (wire d))) ++ wire d ++ sync_entries (room - 2 - Z.of_nat (length (wire d))) l.
Proof.
  intros [Hd Hm Hr] Hroom. cbn [sync_entries]. rewrite serialize_wire; [done|done| |apply Hd|apply Hd|lia].
  intros H0. by rewrite H0 in Hr.
Qed.

(** Authorities learn no relay from each other: an authority whose table holds
    only relays that carry what it requires of a relay answers [SYNC_RELAYS] with
    descriptors that are all longer than the limit the peer reads with, and the peer
    leaves its table as it was. *)
Theorem sync_reads_nothing env now relays l :
  Forall admitted_form relays → Z.of_nat (length relays) <= MOOR_MAX_RELAYS →
  sync_merge env now (sync_response relays) l = (l, 0).
Proof.
  intros HF Hn. unfold MOOR_MAX_RELAYS in Hn. unfold sync_merge, sync_response. cbv zeta. destruct (_ <? 4); [done|].
  destruct (_ <? _); [done|].
  rewrite (take_app_length' (be_put 4 _)), (drop_app_length' (be_put 4 _)) by (by rewrite length_be_put).
  rewrite be_get_put_small by (cbn; lia). rewrite Nat2Z.id.
  destruct relays as [|d relays]; [done|]. apply Forall_cons in HF as [Hd HF]. cbn [length sync_loop].
  rewrite sync_entries_cons by (done || lia). destruct (_ <? 2); [done|]. pose proof (length_admitted d Hd).
  rewrite (take_app_length' (be_put 2 _)) by (by rewrite length_be_put). rewrite be_get_put_small by (cbn; lia).
  by replace (2048 <? Z.of_nat (length (wire d))) with true by lia.
Qed.

Lemma example_signed_form : admitted_form (example_signed 7 9001).
Proof.
  split; [|split; by vm_compute|by vm_compute].
  split; unfold string_ok, is_u16, is_u32, is_u64; try (by vm_compute); repeat split;
    first [by vm_compute|apply (bool_decide_unpack _); vm_compute; exact I].
Qed.

Lemma sync_reads_nothing_witness :
  admissible example_env (example_signed 7 9001) = true ∧
  sync_merge example_env 10 (sync_response [example_signed 7 9001]) [] = ([], 0).
Proof.
  split; [by vm_compute|]. apply (sync_reads_nothing example_env 10 [example_signed 7 9001] []).
  - constructor; [exact example_signed_form|constructor].
  - vm_compute. discriminate.
Defined.
