(* ===== verification/Text.v ===== *)
(** * Text: what the code uses of C's text functions

    Decimal printing as in [snprintf], scanning as in [sscanf], [strtoull] and
    [strstr], the civil calendar of [gmtime_r] and [timegm], and the time format of
    [fmt_time] and [parse_time] in [src/src/node.c]. A C string is its list of
    characters without the NUL; conversions of [sscanf] are readers. Integers that do
    not fit are saturated to 64 bits and cut to the type read, as glibc does.

    The lemmas show that what was printed is scanned back, and that [parse_time]
    inverts [fmt_time] on every time up to the end of the year 9999. *)

From Stdlib Require Import String Ascii.
From S2P Require Import Prelude Wire.
From stdpp Require Import list.

Local Open Scope Z_scope.

(** The characters of a string literal. *)
Definition str (s : string) : bytes := map (λ c, Z.of_N (N_of_ascii c)) (list_ascii_of_string s).
Arguments str _%_string_scope.

Definition isspace (c : Z) : bool := (c =? 32) || ((9 <=? c) && (c <=? 13)).
Definition isdigit (c : Z) : bool := (48 <=? c) && (c <=? 57).

(** ** Printing *)

Fixpoint dec_digits (fuel : nat) (n : Z) : bytes :=
  match fuel with
  | O => []
  | S fuel => (if n <? 10 then [] else dec_digits fuel (n / 10)) ++ [48 + n mod 10]
  end.

(** [%u] and [%llu]; 20 digits are enough for 64 bits. *)
Definition print_u (n : Z) : bytes := dec_digits 20 n.

(** [%0wd] *)
Definition pad_zeros (w : nat) (s : bytes) : bytes := replicate (w - length s) 48 ++ s.
Definition print_0d (w : nat) (n : Z) : bytes :=
  if n <? 0 then 45 :: pad_zeros (w - 1) (print_u (- n)) else pad_zeros w (print_u n).

(** [%d] *)
Definition print_d (n : Z) : bytes := print_0d 0 n.

(** [snprintf] into an array of [n] characters. *)
Definition snprintf (n : Z) (s : bytes) : bytes := take (Z.to_nat (n - 1)) s.

(** ** Scanning *)

Fixpoint skip_ws (s : bytes) : bytes :=
  match s with
  | [] => []
  | c :: r => if isspace c then skip_ws r else s
  end.

(** The longest prefix of at most [n] characters that satisfy [p], and the rest. *)
Fixpoint span_max (p : Z → bool) (n : nat) (s : bytes) : bytes * bytes :=
  match n, s with
  | S n, c :: r => if p c then let '(a, b) := span_max p n r in (c :: a, b) else ([], s)
  | _, _ => ([], s)
  end.

(** A space in the format. *)
Definition ws : reader unit := λ s, Some (tt, skip_ws s).

(** A character of the format. *)
Definition lit (c : Z) : reader unit :=
  λ s, match s with x :: r => if x =? c then Some (tt, r) else None | [] => None end.

(** Several characters of the format. *)
Fixpoint lits (cs : bytes) : reader unit :=
  match cs with [] => mret tt | c :: cs => lit c;; lits cs end.

(** [%ns] *)
Definition token (n : nat) : reader bytes :=
  λ s, match span_max (λ c, negb (isspace c)) n s with
       | ([], _) => None
       | (a, r) => Some (a, r)
       end.
Definition scan_s (n : nat) : reader bytes := ws;; token n.

Definition digits_value (l : bytes) : Z := fold_left (λ v c, 10 * v + (c - 48)) l 0.

(** An optional sign and a non-empty sequence of digits; [true] is a minus. *)
Definition scan_sign : reader bool :=
  λ s, match s with
       | c :: r => if c =? 45 then Some (true, r) else if c =? 43 then Some (false, r) else Some (false, s)
       | [] => Some (false, [])
       end.

Definition scan_digits : reader Z :=
  λ s, match span_max isdigit (length s) s with
       | ([], _) => None
       | (a, r) => Some (digits_value a, r)
       end.

Definition scan_number : reader (bool * Z) := ws;; neg ← scan_sign; v ← scan_digits; mret (neg, v).

(** [strtoul] and [strtoull] on the number that was read. *)
Definition to_ulong (neg : bool) (v : Z) : Z :=
  if UINT64_MAX <? v then UINT64_MAX else if neg then u64 (- v) else v.

(** [strtol] *)
Definition to_long (neg : bool) (v : Z) : Z :=
  if neg then (if 2 ^ 63 <? v then - 2 ^ 63 else - v) else (if 2 ^ 63 - 1 <? v then 2 ^ 63 - 1 else v).

(** [%u] and [%d] *)
Definition scan_u : reader Z := nv ← scan_number; mret (u32 (to_ulong (fst nv) (snd nv))).
Definition scan_d : reader Z := nv ← scan_number; mret (s32 (to_long (fst nv) (snd nv))).

Definition strtoull (s : bytes) : Z :=
  match scan_number s with Some ((neg, v), _) => to_ulong neg v | None => 0 end.

(** [strncmp(s, p, strlen(p)) == 0] *)
Fixpoint prefix (p s : bytes) : bool :=
  match p, s with
  | [], _ => true
  | c :: p, x :: s => (c =? x) && prefix p s
  | _ :: _, [] => false
  end.

(** [strstr]: the string from the first occurrence on. *)
Fixpoint strstr (s p : bytes) : option bytes :=
  if prefix p s then Some s else match s with [] => None | _ :: r => strstr r p end.

(** ** The calendar *)

Record tm := Tm { tm_sec : Z; tm_min : Z; tm_hour : Z; tm_mday : Z; tm_mon : Z; tm_year : Z }.

(** The year, month (from 0) and day of a day since 1970-01-01; years begin in March
    inside, so that the leap day is the last of its year. *)
Definition civil_from_days (days : Z) : Z * Z * Z :=
  let z := days + 719468 in
  let era := z / 146097 in
  let doe := z mod 146097 in
  let c := Z.min (doe / 36524) 3 in
  let r := doe - 36524 * c in
  let q := r / 1461 in
  let r := r - 1461 * q in
  let y := Z.min (r / 365) 3 in
  let doy := r - 365 * y in
  let mp := (5 * doy + 2) / 153 in
  let year := era * 400 + 100 * c + 4 * q + y in
  let mday := doy - (153 * mp + 2) / 5 + 1 in
  if mp <? 10 then (year, mp + 2, mday) else (year + 1, mp - 10, mday).

Definition days_from_civil (year mon mday : Z) : Z :=
  let y := if mon <? 2 then year - 1 else year in
  let mp := if mon <? 2 then mon + 10 else mon - 2 in
  let era := y / 400 in
  let yoe := y mod 400 in
  let doy := (153 * mp + 2) / 5 + mday - 1 in
  era * 146097 + yoe * 365 + yoe / 4 - yoe / 100 + doy - 719468.

(** [None] when the year does not fit its field. *)
Definition gmtime_r (t : Z) : option tm :=
  let '(year, mon, mday) := civil_from_days (t / 86400) in
  let s := t mod 86400 in
  if (- 2 ^ 31 <=? year - 1900) && (year - 1900 <? 2 ^ 31) then
    Some (Tm (s mod 60) (s / 60 mod 60) (s / 3600) mday mon (year - 1900))
  else None.

(** Fields out of their ranges are carried. *)
Definition timegm (t : tm) : Z :=
  let year := tm_year t + 1900 + tm_mon t / 12 in
  days_from_civil year (tm_mon t mod 12) 1 * 86400 + (tm_mday t - 1) * 86400 + tm_hour t * 3600 + tm_min t * 60 + tm_sec t.

(** ** Times in text *)

Definition fmt_time (ts : Z) : bytes :=
  let t := default (Tm 0 0 0 0 0 0) (gmtime_r (s64 ts)) in
  snprintf 20 (print_0d 4 (tm_year t + 1900) ++ [45] ++ print_0d 2 (tm_mon t + 1) ++ [45] ++ print_0d 2 (tm_mday t) ++ [32] ++
               print_0d 2 (tm_hour t) ++ [58] ++ print_0d 2 (tm_min t) ++ [58] ++ print_0d 2 (tm_sec t)).

Definition scan_time : reader tm :=
  yr ← scan_d; lit 45;; mo ← scan_d; lit 45;; dy ← scan_d; ws;;
  hr ← scan_d; lit 58;; mn ← scan_d; lit 58;; sc ← scan_d;
  mret (Tm sc mn hr dy (mo - 1) (yr - 1900)).

Definition parse_time (s : bytes) : Z :=
  match scan_time s with
  | Some (t, _) => u64 (timegm t)
  | None => 0
  end.

(** ** Printing and scanning *)

Definition no_digit (s : bytes) : Prop := match s with [] => True | c :: _ => isdigit c = false end.

Lemma span_max_app p n a s :
  Forall (λ c, p c = true) a → (length a <= n)%nat → (length a = n ∨ match s with [] => True | c :: _ => p c = false end) →
  span_max p n (a ++ s) = (a, s).
Proof.
  revert n. induction a as [|c a IH]; intros n HF Hn Hs; cbn [app length] in *.
  - destruct n, s as [|x s]; cbn; try done. destruct Hs as [Hs|Hs]; [done|]. by rewrite Hs.
  - apply Forall_cons in HF as [Hc HF]. destruct n as [|n]; [lia|]. cbn. rewrite Hc, IH; [done|done|lia|].
    destruct Hs; [left; lia|by right].
Qed.

Lemma dec_digits_spec fuel n :
  0 <= n < 10 ^ Z.of_nat fuel →
  Forall (λ c, isdigit c = true) (dec_digits fuel n) ∧ digits_value (dec_digits fuel n) = n ∧
  (length (dec_digits fuel n) <= fuel)%nat ∧ ((0 < fuel)%nat → dec_digits fuel n ≠ []).
Proof.
  revert n. induction fuel as [|fuel IH]; intros n Hn; [cbn in *; split_and!; [done|lia|done|lia]|].
  rewrite Nat2Z.inj_succ, Z.pow_succ_r in Hn by lia. cbn [dec_digits].
  assert (Hd : isdigit (48 + n mod 10) = true) by (unfold isdigit; pose proof (Z.mod_pos_bound n 10); lia).
  destruct (Z.ltb_spec n 10) as [Hlt|Hge].
  - cbn [app length]. split_and!; [by constructor|unfold digits_value; cbn; zdiv_lia|lia|done].
  - destruct (IH (n / 10)) as (H1 & H2 & H3 & _); [zdiv_lia|].
    split_and!.
    + apply Forall_app. split; [done|by constructor].
    + unfold digits_value in *. rewrite fold_left_app. cbn [fold_left]. rewrite H2. zdiv_lia.
    + rewrite length_app. cbn. lia.
    + by destruct (dec_digits fuel (n / 10)).
Qed.

Lemma print_u_spec n : is_u64 n →
  Forall (λ c, isdigit c = true) (print_u n) ∧ digits_value (print_u n) = n ∧ (length (print_u n) <= 20)%nat ∧ print_u n ≠ [].
Proof. intros Hn. destruct (dec_digits_spec 20 n) as (H1 & H2 & H3 & H4); [unfold is_u64 in Hn; lia|]. split_and!; auto. apply H4; lia. Qed.

Lemma digits_value_zeros k l : digits_value (replicate k 48 ++ l) = digits_value l.
Proof. unfold digits_value. rewrite fold_left_app. f_equal. by induction k. Qed.

Lemma scan_digits_app a s : Forall (λ c, isdigit c = true) a → a ≠ [] → no_digit s → scan_digits (a ++ s) = Some (digits_value a, s).
Proof.
  intros HF Ha Hs. unfold scan_digits. rewrite span_max_app; [by destruct a|done|rewrite length_app; lia|by right].
Qed.

Lemma isdigit_first c : isdigit c = true → isspace c = false ∧ (c =? 45) = false ∧ (c =? 43) = false.
Proof. unfold isdigit, isspace. lia. Qed.

(** A number of digits is scanned as a whole. *)
Lemma scan_number_app a s : Forall (λ c, isdigit c = true) a → a ≠ [] → no_digit s →
  scan_number (a ++ s) = Some ((false, digits_value a), s).
Proof.
  intros HF Ha Hs. unfold scan_number. destruct a as [|c a]; [done|].
  pose proof HF as HF'. apply Forall_cons in HF' as [Hc _]. destruct (isdigit_first c Hc) as (H1 & H2 & H3).
  rewrite (reader_step ws _ _ tt (c :: a ++ s)) by (unfold ws; cbn; by rewrite H1).
  rewrite (reader_step scan_sign _ _ false ((c :: a) ++ s)) by (unfold scan_sign; by rewrite H2, H3).
  by rewrite (reader_step _ _ _ _ _ (scan_digits_app (c :: a) s HF Ha Hs)).
Qed.

Lemma scan_number_ws s : scan_number (32 :: s) = scan_number s.
Proof. done. Qed.

Lemma scan_u_print n s : is_u32 n → no_digit s → scan_u (print_u n ++ s) = Some (n, s).
Proof.
  intros Hn Hs. destruct (print_u_spec n) as (H1 & H2 & _ & H3); [unfold is_u32, is_u64 in *; lia|].
  unfold scan_u. rewrite (reader_step _ _ _ _ _ (scan_number_app _ s H1 H3 Hs)), H2. cbn [fst snd to_ulong].
  unfold to_ulong, UINT64_MAX. destruct (Z.ltb_spec (2 ^ 64 - 1) n); [unfold is_u32 in *; lia|]. by rewrite u32_small.
Qed.

Lemma strtoull_print n s : is_u64 n → no_digit s → strtoull (print_u n ++ s) = n.
Proof.
  intros Hn Hs. destruct (print_u_spec n Hn) as (H1 & H2 & _ & H3). unfold strtoull.
  rewrite (scan_number_app _ s H1 H3 Hs), H2. unfold to_ulong, UINT64_MAX.
  destruct (Z.ltb_spec (2 ^ 64 - 1) n); [unfold is_u64 in *; lia|done].
Qed.

Lemma pad_zeros_digits w a :
  Forall (λ c, isdigit c = true) a → a ≠ [] →
  Forall (λ c, isdigit c = true) (pad_zeros w a) ∧ digits_value (pad_zeros w a) = digits_value a ∧ pad_zeros w a ≠ [].
Proof.
  intros HF Ha. unfold pad_zeros. split_and!; [|apply digits_value_zeros|by destruct (replicate _ _), a].
  apply Forall_app. split; [by apply Forall_replicate|done].
Qed.

Lemma scan_d_print w n s : - 2 ^ 31 <= n < 2 ^ 31 → no_digit s → scan_d (print_0d w n ++ s) = Some (n, s).
Proof.
  intros Hn Hs. unfold scan_d, print_0d. destruct (Z.ltb_spec n 0) as [Hneg|Hpos].
  - destruct (print_u_spec (- n)) as (H1 & H2 & _ & H3); [unfold is_u64; lia|].
    destruct (pad_zeros_digits (w - 1) _ H1 H3) as (H4 & H5 & H6).
    assert (Hsc : scan_number ((45 :: pad_zeros (w - 1) (print_u (- n))) ++ s) = Some ((true, - n), s)).
    { unfold scan_number. rewrite (reader_step ws _ _ tt ((45 :: pad_zeros (w - 1) (print_u (- n))) ++ s)) by done.
      rewrite (reader_step scan_sign _ _ true (pad_zeros (w - 1) (print_u (- n)) ++ s)) by done.
      rewrite (reader_step _ _ _ _ _ (scan_digits_app _ s H4 H6 Hs)). by rewrite H5, H2. }
    rewrite (reader_step _ _ _ _ _ Hsc). cbn [fst snd to_long]. destruct (Z.ltb_spec (2 ^ 63) (- n)); [lia|].
    rewrite s32_small by lia. by rewrite Z.opp_involutive.
  - destruct (print_u_spec n) as (H1 & H2 & _ & H3); [unfold is_u64; lia|].
    destruct (pad_zeros_digits w _ H1 H3) as (H4 & H5 & H6).
    rewrite (reader_step _ _ _ _ _ (scan_number_app _ s H4 H6 Hs)), H5, H2. cbn [fst snd to_long].
    destruct (Z.ltb_spec (2 ^ 63 - 1) n); [lia|]. by rewrite s32_small by lia.
Qed.

Lemma length_dec_digits fuel k n : (0 < k)%nat → 0 <= n < 10 ^ Z.of_nat k → (length (dec_digits fuel n) <= k)%nat.
Proof.
  revert k n. induction fuel as [|fuel IH]; intros k n Hk Hn; [cbn; lia|]. cbn [dec_digits]. rewrite length_app. cbn [length].
  destruct (Z.ltb_spec n 10) as [Hlt|Hge]; [cbn; lia|]. destruct k as [|[|k]]; [lia|cbn in Hn; lia|].
  specialize (IH (S k) (n / 10)). rewrite (Nat2Z.inj_succ (S k)), Z.pow_succ_r in Hn by lia.
  enough (length (dec_digits fuel (n / 10)) <= S k)%nat by lia. apply IH; [lia|zdiv_lia].
Qed.

Lemma length_print_0d w n : (0 < w)%nat → 0 <= n < 10 ^ Z.of_nat w → length (print_0d w n) = w.
Proof.
  intros Hw Hn. unfold print_0d, pad_zeros. destruct (Z.ltb_spec n 0); [lia|].
  rewrite length_app, length_replicate. pose proof (length_dec_digits 20 w n Hw Hn). unfold print_u. lia.
Qed.

(** ** The calendar *)

Lemma civil_ranges days year mon mday :
  civil_from_days days = (year, mon, mday) → 0 <= mon < 12 ∧ 1 <= mday <= 31.
Proof. unfold civil_from_days. cbv zeta. destruct (_ <? 10) eqn:E; intros [= <- <- <-]; zdiv_lia. Qed.

(** The years of an era, counted in centuries and leap cycles. *)
Lemma year_of_era era c q y :
  0 <= c <= 3 → 0 <= q <= 24 → 0 <= y <= 3 →
  let Y := era * 400 + 100 * c + 4 * q + y in
  Y / 400 = era ∧ Y mod 400 = 100 * c + 4 * q + y ∧ (Y mod 400) / 4 = 25 * c + q ∧ (Y mod 400) / 100 = c.
Proof.
  intros Hc Hq Hy Y. assert (H1 : Y / 400 = era) by (subst Y; zdiv_lia).
  assert (H2 : Y mod 400 = 100 * c + 4 * q + y) by (rewrite Z.mod_eq by lia; subst Y; lia).
  rewrite H2. split_and!; [done|done|zdiv_lia|zdiv_lia].
Qed.

(** The day number is recovered from year, month and day. *)
Lemma days_from_civil_from_days days year mon mday :
  civil_from_days days = (year, mon, mday) → days_from_civil year mon mday = days.
Proof.
  unfold civil_from_days. cbv zeta. remember (days + 719468) as z eqn:Ez.
  set (era := z / 146097). set (doe := z mod 146097).
  set (c := Z.min (doe / 36524) 3). set (q := (doe - 36524 * c) / 1461).
  set (r := doe - 36524 * c - 1461 * q). set (y := Z.min (r / 365) 3). set (doy := r - 365 * y). set (mp := (5 * doy + 2) / 153).
  assert (Hz : z = 146097 * era + doe ∧ 0 <= doe < 146097) by (unfold era, doe; zdiv_lia).
  assert (Hc : 0 <= c <= 3 ∧ 0 <= doe - 36524 * c <= 36524 ∧ (doe - 36524 * c = 36524 → c = 3)) by (unfold c; zdiv_lia).
  assert (Hq : 0 <= q <= 24 ∧ 0 <= r < 1461) by (unfold r, q; zdiv_lia).
  assert (Hy : 0 <= y <= 3 ∧ 0 <= doy <= 365) by (unfold doy, y; zdiv_lia).
  assert (Hmp : 0 <= mp <= 11) by (unfold mp; zdiv_lia).
  assert (Hdoe : doe = 36524 * c + 1461 * q + 365 * y + doy) by (unfold doy, r; lia).
  destruct (year_of_era era c q y) as (E1 & E2 & E3 & E4); [lia..|].
  clearbody mp doy y q c doe era. unfold days_from_civil. cbv zeta.
  destruct (Z.ltb_spec mp 10); intros [= <- <- <-].
  - destruct (Z.ltb_spec (mp + 2) 2); [lia|]. replace (mp + 2 - 2) with mp by lia. rewrite E1, E3, E4, E2. lia.
  - destruct (Z.ltb_spec (mp - 10) 2); [|lia]. replace (mp - 10 + 10) with mp by lia.
    replace (era * 400 + 100 * c + 4 * q + y + 1 - 1) with (era * 400 + 100 * c + 4 * q + y) by lia. rewrite E1, E3, E4, E2. lia.
Qed.

Lemma timegm_gmtime t r : gmtime_r t = Some r → timegm r = t.
Proof.
  unfold gmtime_r. destruct (civil_from_days (t / 86400)) as [[year mon] mday] eqn:E.
  destruct (civil_ranges _ _ _ _ E) as [Hm Hd]. pose proof (days_from_civil_from_days _ _ _ _ E) as H.
  destruct (_ && _); intros [= <-]. unfold timegm. cbn [tm_sec tm_min tm_hour tm_mday tm_mon tm_year].
  rewrite (Z.div_small mon 12), (Z.mod_small mon 12) by lia. replace (year - 1900 + 1900 + 0) with year by lia.
  assert (Hl : days_from_civil year mon 1 + (mday - 1) = days_from_civil year mon mday) by (unfold days_from_civil; cbv zeta; lia).
  clear E. zdiv_lia.
Qed.

(** The end of the year 9999. *)
Definition TIME_MAX : Z := 253402300800.

Lemma year_bounds days year mon mday :
  civil_from_days days = (year, mon, mday) → 0 <= days < TIME_MAX / 86400 → 1970 <= year <= 9999.
Proof.
  intros E Hd. change (TIME_MAX / 86400) with 2932897 in Hd. destruct (civil_ranges _ _ _ _ E) as [Hm Hdy].
  pose proof (days_from_civil_from_days _ _ _ _ E) as H. unfold days_from_civil in H. cbv zeta in H.
  destruct (Z.ltb_spec mon 2); zdiv_lia.
Qed.

Lemma gmtime_r_fields t : 0 <= t < TIME_MAX →
  ∃ r, gmtime_r t = Some r ∧ 1970 <= tm_year r + 1900 <= 9999 ∧ 0 <= tm_mon r < 12 ∧ 1 <= tm_mday r <= 31 ∧
    0 <= tm_hour r < 24 ∧ 0 <= tm_min r < 60 ∧ 0 <= tm_sec r < 60.
Proof.
  intros Ht. unfold gmtime_r. destruct (civil_from_days (t / 86400)) as [[year mon] mday] eqn:E.
  destruct (civil_ranges _ _ _ _ E) as [Hm Hd]. pose proof (year_bounds _ _ _ _ E) as Hy.
  destruct Hy; [unfold TIME_MAX in *; change (253402300800 / 86400) with 2932897; zdiv_lia|].
  destruct (_ && _) eqn:Eb; [|lia]. eexists. split; [done|]. cbn [tm_sec tm_min tm_hour tm_mday tm_mon tm_year].
  clear E. split_and!; zdiv_lia.
Qed.

(** Steps of a scan. *)
Lemma step_d {B} (k : Z → reader B) w n s :
  - 2 ^ 31 <= n < 2 ^ 31 → no_digit s → (scan_d ≫= k) (print_0d w n ++ s) = k n s.
Proof. intros Hn Hs. by rewrite (reader_step _ _ _ _ _ (scan_d_print w n s Hn Hs)). Qed.

Lemma step_lit {B} (k : unit → reader B) c s : (lit c ≫= k) (c :: s) = k tt s.
Proof. apply reader_step. cbn. by rewrite Z.eqb_refl. Qed.

Lemma skip_ws_nonspace s : match s with [] => True | c :: _ => isspace c = false end → skip_ws s = s.
Proof. destruct s as [|c s]; [done|]. cbn. by intros ->. Qed.

Lemma skip_ws_idemp s : skip_ws (skip_ws s) = skip_ws s.
Proof. induction s as [|c s IH]; [done|]. cbn. destruct (isspace c) eqn:E; [done|]. cbn. by rewrite E. Qed.

Lemma ws_scan_d {B} (k : Z → reader B) s : (ws ≫= λ _, scan_d ≫= k) (32 :: s) = (scan_d ≫= k) s.
Proof.
  unfold scan_d, scan_number, mbind, reader_bind, ws. change (skip_ws (32 :: s)) with (skip_ws s). cbv beta iota. by rewrite skip_ws_idemp.
Qed.

(** The text of a time up to the year 9999, and that it has 19 characters. *)
Definition tm_text (r : tm) : bytes :=
  print_0d 4 (tm_year r + 1900) ++ [45] ++ print_0d 2 (tm_mon r + 1) ++ [45] ++ print_0d 2 (tm_mday r) ++ [32] ++
  print_0d 2 (tm_hour r) ++ [58] ++ print_0d 2 (tm_min r) ++ [58] ++ print_0d 2 (tm_sec r).

Lemma fmt_time_text t : 0 <= t < TIME_MAX →
  ∃ r, gmtime_r t = Some r ∧ fmt_time t = tm_text r ∧ length (tm_text r) = 19%nat ∧
    scan_time (tm_text r) = Some (r, []).
Proof.
  intros Ht. destruct (gmtime_r_fields t Ht) as (r & Hr & Hy & Hmo & Hd & Hh & Hm & Hs). exists r.
  assert (Hl : length (tm_text r) = 19%nat).
  { unfold tm_text. rewrite !length_app. cbn [length]. rewrite !length_print_0d by (cbn; lia). done. }
  split_and!; [done| |done|].
  - unfold fmt_time. rewrite s64_small by (unfold TIME_MAX in *; lia). rewrite Hr. cbn [default]. unfold snprintf. cbv zeta.
    change (take 19 (tm_text r) = tm_text r). by rewrite take_ge by lia.
  - unfold tm_text, scan_time. replace (print_0d 2 (tm_sec r)) with (print_0d 2 (tm_sec r) ++ []) by apply app_nil_r.
    cbn [app]. do 2 (rewrite step_d by (done || lia); rewrite step_lit). rewrite step_d by (done || lia). rewrite ws_scan_d.
    do 2 (rewrite step_d by (done || lia); rewrite step_lit). rewrite step_d by (done || lia).
    unfold mret, reader_ret. destruct r. cbn [tm_sec tm_min tm_hour tm_mday tm_mon tm_year]. repeat f_equal; lia.
Qed.

Lemma parse_fmt_time t : 0 <= t < TIME_MAX → parse_time (fmt_time t) = t.
Proof.
  intros Ht. destruct (fmt_time_text t Ht) as (r & Hr & -> & _ & Hs). unfold parse_time. rewrite Hs, (timegm_gmtime t r Hr).
  apply u64_small. unfold TIME_MAX, is_u64 in *. lia.
Qed.

(** ** Words and searches *)

Lemma scan_s_app n a s :
  a ≠ [] → Forall (λ c, isspace c = false) a → (length a <= n)%nat →
  match s with [] => True | c :: _ => isspace c = true end → scan_s n (a ++ s) = Some (a, s).
Proof.
  intros Ha HF Hn Hs. unfold scan_s.
  rewrite (reader_step ws _ _ tt (a ++ s)).
  2: { unfold ws. rewrite skip_ws_nonspace; [done|]. destruct a as [|c a]; [done|]. by apply Forall_cons in HF as [? _]. }
  unfold token. rewrite span_max_app; [by destruct a| |done|].
  - eapply Forall_impl; [exact HF|]. intros c Hc. cbn. by rewrite Hc.
  - right. destruct s as [|c s]; [done|]. cbn in *. by rewrite Hs.
Qed.

Lemma step_s {B} (k : bytes → reader B) n a s :
  a ≠ [] → Forall (λ c, isspace c = false) a → (length a <= n)%nat →
  match s with [] => True | c :: _ => isspace c = true end → (scan_s n ≫= k) (a ++ s) = k a s.
Proof. intros. by rewrite (reader_step _ _ _ _ _ (scan_s_app n a s ltac:(done) ltac:(done) ltac:(done) ltac:(done))). Qed.

Lemma ws_scan_s {B} (k : bytes → reader B) n s : (ws ≫= λ _, scan_s n ≫= k) (32 :: s) = (scan_s n ≫= k) s.
Proof. unfold scan_s, mbind, reader_bind, ws. change (skip_ws (32 :: s)) with (skip_ws s). cbv beta iota. by rewrite skip_ws_idemp. Qed.

Lemma step_u {B} (k : Z → reader B) n s : is_u32 n → no_digit s → (scan_u ≫= k) (print_u n ++ s) = k n s.
Proof. intros Hn Hs. by rewrite (reader_step _ _ _ _ _ (scan_u_print n s Hn Hs)). Qed.

Lemma ws_scan_u {B} (k : Z → reader B) s : (ws ≫= λ _, scan_u ≫= k) (32 :: s) = (scan_u ≫= k) s.
Proof. unfold scan_u, scan_number, mbind, reader_bind, ws. change (skip_ws (32 :: s)) with (skip_ws s). cbv beta iota. by rewrite skip_ws_idemp. Qed.

Lemma step_lits {B} (k : unit → reader B) cs s : (lits cs ≫= k) (cs ++ s) = k tt s.
Proof.
  revert k. induction cs as [|c cs IH]; intros k; [done|]. cbn [lits app].
  specialize (IH k). unfold mbind, reader_bind, lit in *. cbn. rewrite Z.eqb_refl. exact IH.
Qed.

Lemma ws_lits {B} (k : unit → reader B) c cs s :
  isspace c = false → (ws ≫= λ _, lits (c :: cs) ≫= k) (32 :: c :: cs ++ s) = k tt s.
Proof.
  intros Hc. rewrite (reader_step ws _ _ tt ((c :: cs) ++ s)); [apply step_lits|].
  unfold ws. cbn. by rewrite Hc.
Qed.

(** A search skips what does not contain the first character. *)
Lemma strstr_skip x s c p : Forall (λ d, d ≠ c) x → strstr (x ++ s) (c :: p) = strstr s (c :: p).
Proof.
  induction 1 as [|d x Hd _ IH]; [done|]. cbn [app strstr prefix]. rewrite IH.
  by replace (c =? d) with false by lia.
Qed.

Lemma prefix_app p s : prefix p (p ++ s) = true.
Proof. induction p as [|c p IH]; [done|]. cbn. by rewrite Z.eqb_refl. Qed.

Lemma strstr_here p s : strstr (p ++ s) p = Some (p ++ s).
Proof. destruct (p ++ s) eqn:E; cbn [strstr]; by rewrite <- E, prefix_app. Qed.

Lemma strstr_none s c p : Forall (λ d, d ≠ c) s → strstr s (c :: p) = None.
Proof. intros H. rewrite <- (app_nil_r s). by rewrite strstr_skip. Qed.

(** ** The words of a time *)

Definition date_text (r : tm) : bytes :=
  print_0d 4 (tm_year r + 1900) ++ [45] ++ print_0d 2 (tm_mon r + 1) ++ [45] ++ print_0d 2 (tm_mday r).
Definition clock_text (r : tm) : bytes :=
  print_0d 2 (tm_hour r) ++ [58] ++ print_0d 2 (tm_min r) ++ [58] ++ print_0d 2 (tm_sec r).

Lemma tm_text_words r : tm_text r = date_text r ++ [32] ++ clock_text r.
Proof. unfold tm_text, date_text, clock_text. by rewrite <- !app_assoc. Qed.

(** A character that is neither a space nor a control character. *)
Definition graphic (c : Z) : Prop := 33 <= c <= 126.

Lemma graphic_nonspace l : Forall graphic l → Forall (λ c, isspace c = false) l.
Proof. intros H. eapply Forall_impl; [exact H|]. unfold graphic, isspace. intros c. lia. Qed.

Lemma print_u_graphic n : is_u64 n → Forall graphic (print_u n).
Proof.
  intros Hn. destruct (print_u_spec n Hn) as [H _]. eapply Forall_impl; [exact H|].
  intros c. cbn. unfold isdigit, graphic. lia.
Qed.

Lemma print_0d_graphic w n : is_u64 n → Forall graphic (print_0d w n).
Proof.
  intros Hn. unfold print_0d, pad_zeros, is_u64 in *. destruct (Z.ltb_spec n 0); [lia|].
  apply Forall_app. split; [by apply Forall_replicate|by apply print_u_graphic].
Qed.

Lemma fmt_time_words t : 0 <= t < TIME_MAX →
  ∃ date clock, fmt_time t = date ++ [32] ++ clock ∧ length date = 10%nat ∧ length clock = 8%nat ∧
    Forall graphic date ∧ Forall graphic clock.
Proof.
  intros Ht. destruct (gmtime_r_fields t Ht) as (r & Hr & Hy & Hmo & Hd & Hh & Hm & Hs).
  destruct (fmt_time_text t Ht) as (r' & Hr' & Ht' & _). rewrite Hr in Hr'. injection Hr' as <-.
  exists (date_text r), (clock_text r). rewrite Ht', tm_text_words. unfold date_text, clock_text.
  split_and!; [done| | | |]; rewrite ?length_app, ?length_print_0d by (cbn; lia); try done;
    repeat (apply Forall_app; split); try (apply print_0d_graphic; unfold is_u64; lia); by constructor.
Qed.
