(* ===== verification/TextConsensus.v ===== *)
(** * TextConsensus: the text form of the consensus

    Models [moor_consensus_serialize], [moor_consensus_wire_size] and
    [moor_consensus_deserialize] of [src/src/node.c]: the document that authorities
    publish and clients, relays and other authorities read. The base64 codec is
    libsodium's, a parameter with its documented behaviour; the contents of the
    uninitialised stack array of the parser is an argument.

    The theorems show that a buffer of the computed size is always large enough, that
    the consensus that is parsed from the document is the one that was written up to
    the fields the format does not carry, with the same signed body, and that a relay
    with a space in its nickname makes every reader compute another body. *)

From Stdlib Require Import String.
From S2P Require Import Prelude Wire Descriptor Microdesc Consensus Select Text.

(** ** Writing *)

(** The bytes written so far, the return value -1, or a write past the buffer. *)
Inductive outcome := Done (out : bytes) | Failed | Overrun.

Definition writer : Type := Z → bytes → outcome.

Definition seqw (a b : writer) : writer :=
  λ out_len out, match a out_len out with Done out => b out_len out | r => r end.

Declare Scope writer_scope.
Delimit Scope writer_scope with writer.
Infix "⊕" := seqw (at level 60, right associativity) : writer_scope.

Definition nop : writer := λ _ out, Done out.
Definition when (b : bool) (w : writer) : writer := if b then w else nop.

Definition bcat (s : bytes) : writer :=
  λ out_len out, if out_len <? Z.of_nat (length out) + Z.of_nat (length s) then Failed else Done (out ++ s).

(** [snprintf(tmp, sizeof(tmp), ...)] *)
Definition tmp (s : bytes) : bytes := snprintf 8192 s.

(** [out[off++] = c], without a test. *)
Definition put_unchecked (c : Z) : writer :=
  λ out_len out, if out_len <? Z.of_nat (length out) + 1 then Overrun else Done (out ++ [c]).

(** [if (off + len + 1 <= out_len)]: a line that is left out when it does not fit. *)
Definition put_line_if_fits (s : bytes) : writer :=
  λ out_len out, if Z.of_nat (length out) + Z.of_nat (length s) + 1 <=? out_len then Done (out ++ s ++ [10]) else Done out.

Definition flag_table : list (Z * bytes) :=
  [(NODE_FLAG_AUTHORITY, str "Authority"); (NODE_FLAG_BADEXIT, str "BadExit"); (NODE_FLAG_EXIT, str "Exit");
   (NODE_FLAG_FAST, str "Fast"); (NODE_FLAG_GUARD, str "Guard"); (NODE_FLAG_MIDDLEONLY, str "MiddleOnly");
   (NODE_FLAG_RUNNING, str "Running"); (NODE_FLAG_STABLE, str "Stable"); (NODE_FLAG_VALID, str "Valid")].

Definition moor_geoip_unpack_country (code : Z) : bytes := cstr [Z.shiftr code 8; Z.land code 0xff].

Definition moor_geoip_pack_country (cc : bytes) : Z :=
  match cc with
  | a :: b :: _ => if (a =? 0) || (b =? 0) then 0 else u16 (Z.lor (Z.shiftl a 8) b)
  | _ => 0
  end.

(** The address up to a colon. *)
Fixpoint before_colon (s : bytes) : bytes :=
  match s with [] => [] | c :: r => if c =? 58 then [] else c :: before_colon r end.

Definition ip_str (d : moor_node_descriptor_t) : bytes := before_colon (take 63 (cstr (address d))).

Section Codec.
  Variable b64_encode : bytes → bytes.
  Variable b64_decode : nat → bytes → bytes * bool.

(** The lines of a relay, each with its end. *)
Definition n_line (d : moor_node_descriptor_t) : bytes :=
  let nn := if nonempty (nickname d) then cstr (nickname d) else str "Unnamed" in
  str "n " ++ nn ++ [32] ++ b64_encode (identity_pk d) ++ [32] ++ fmt_time (published d) ++ [32] ++ ip_str d ++ [32] ++
  print_u (or_port d) ++ [32] ++ print_u (dir_port d) ++ [10].

Definition o_line (d : moor_node_descriptor_t) : bytes := str "o " ++ b64_encode (onion_pk d) ++ [10].
Definition a_line (d : moor_node_descriptor_t) : bytes := str "a " ++ cstr (address6 d) ++ [10].

Definition put_k (d : moor_node_descriptor_t) : writer :=
  (put_unchecked 107 ⊕ put_unchecked 32 ⊕ bcat (b64_encode (kem_pk d)) ⊕ bcat [10])%writer.

Definition flag_words (fl : Z) (table : list (Z * bytes)) : bytes :=
  concat (map (λ e, if has fl (fst e) then 32 :: snd e else []) table).
Definition s_line (d : moor_node_descriptor_t) : bytes := str "s" ++ flag_words (flags d) flag_table ++ [10].

Definition w_line (d : moor_node_descriptor_t) : bytes :=
  str "w Bandwidth=" ++ print_u (bandwidth d) ++
  (if 0 <? verified_bandwidth d then str " Measured=" ++ print_u (verified_bandwidth d) else []) ++
  str " Features=" ++ print_u (features d) ++ [10].

Definition g_line (d : moor_node_descriptor_t) : bytes :=
  str "g " ++ moor_geoip_unpack_country (country_code d) ++ [32] ++ print_u (as_number d) ++ [10].
Definition f_line (d : moor_node_descriptor_t) : bytes := str "f " ++ b64_encode (family_id d) ++ [10].
Definition p_line (d : moor_node_descriptor_t) : bytes := str "p " ++ b64_encode (signature d) ++ [10].
Definition c_line (d : moor_node_descriptor_t) : bytes := str "c " ++ cstr (contact_info d) ++ [10].

Definition put_relay (d : moor_node_descriptor_t) : writer :=
  (bcat (tmp (n_line d)) ⊕ bcat (tmp (o_line d)) ⊕
   when (nonempty (address6 d)) (bcat (tmp (a_line d))) ⊕
   when (has (features d) NODE_FEATURE_PQ) (put_k d) ⊕
   bcat (s_line d) ⊕ bcat (tmp (w_line d)) ⊕
   when (negb (country_code d =? 0)) (bcat (tmp (g_line d))) ⊕
   when (negb (bytes_eqb (family_id d) (zeros 32))) (bcat (tmp (f_line d))) ⊕
   bcat (tmp (p_line d)) ⊕
   when (nonempty (contact_info d)) (bcat (tmp (c_line d))))%writer.

Fixpoint put_all {A} (f : A → writer) (l : list A) : writer :=
  match l with [] => nop | x :: l => seqw (f x) (put_all f l) end.

Definition weight_names : list bytes :=
  [str "Wgg="; str "Wgd="; str "Wee="; str "Wed="; str "Wmg="; str "Wme="; str "Wmm="; str "Wmd="].

Definition weight_words (W : list Z) : list bytes := zip_with (λ nm w, nm ++ print_d w) weight_names W.

Definition weights_line (W : list Z) : bytes :=
  str "bandwidth-weights" ++ concat (map (λ w, 32 :: w) (weight_words W)) ++ [10].

Definition sig_line (sg : da_sig) : bytes :=
  str "directory-signature " ++ b64_encode (sig_identity_pk sg) ++ [32] ++ b64_encode (sig_signature sg) ++ [10].
Definition pq_sig_line (sg : da_sig) : bytes := str "pq-directory-signature " ++ b64_encode (sig_identity_pk sg) ++ [10].

Definition put_sig (sg : da_sig) : writer :=
  (bcat (tmp (sig_line sg)) ⊕
   when (pq_sig sg) (bcat (tmp (pq_sig_line sg)) ⊕ put_line_if_fits (b64_encode (sig_pq_pk sg)) ⊕
                     put_line_if_fits (b64_encode (sig_pq_signature sg))))%writer.

Definition time_line (name : bytes) (t : Z) : bytes := name ++ fmt_time t ++ [10].

Definition put_header (cons : moor_consensus_t) : writer :=
  (bcat (str "moor-consensus 1" ++ [10]) ⊕
   bcat (tmp (time_line (str "valid-after ") (valid_after cons))) ⊕
   bcat (tmp (time_line (str "fresh-until ") (fresh_until cons))) ⊕
   bcat (tmp (time_line (str "valid-until ") (valid_until cons))) ⊕
   bcat (str "known-flags Authority BadExit Exit Fast Guard MiddleOnly Running Stable Valid" ++ [10]) ⊕
   bcat (tmp (str "shared-rand-current-value " ++ b64_encode (srv_current cons) ++ [10])) ⊕
   bcat (tmp (str "shared-rand-previous-value " ++ b64_encode (srv_previous cons) ++ [10])))%writer.

Definition put_consensus (cons : moor_consensus_t) : writer :=
  (put_header cons ⊕ put_all put_relay (relays cons) ⊕ bcat (tmp (weights_line (bw_weights cons))) ⊕
   bcat (str "directory-footer" ++ [10]) ⊕ put_all put_sig (take (Z.to_nat MOOR_MAX_DA_AUTHORITIES) (da_sigs cons)))%writer.

Definition moor_consensus_serialize (out_len : Z) (cons : moor_consensus_t) : outcome := put_consensus cons out_len [].

Definition moor_consensus_wire_size (cons : moor_consensus_t) : Z :=
  512 + 64 + num_relays_of cons * 2400 +
  fold_right Z.add 0 (map (λ sg, 256 + (if pq_sig sg then 8192 else 0))
    (take (Z.to_nat MOOR_MAX_DA_AUTHORITIES) (da_sigs cons))) + 256.

(** ** Reading *)

(** The lines of the data, each with its end; the last may have none. *)
Fixpoint split_lines (data : bytes) : list bytes :=
  match data with
  | [] => []
  | c :: r =>
      if c =? 10 then [10] :: split_lines r
      else match split_lines r with [] => [[c]] | l :: ls => (c :: l) :: ls end
  end.

(** The copy of a line into an array of 8192 characters, with its end stripped. *)
Definition line_of (raw : bytes) : bytes :=
  let line := take (Z.to_nat 8191) raw in
  let copy := length line in
  let line := if (0 <? Z.of_nat copy) && (byte_at (copy - 1) line =? 10) then <[(copy - 1)%nat := 0]> line else line in
  let line := if (1 <? Z.of_nat copy) && (byte_at (copy - 2) line =? 13) then <[(copy - 2)%nat := 0]> line else line in
  cstr line.

(** What [sodium_base642bin] leaves in the array, and the number of bytes decoded. *)
Definition b64dec (out : bytes) (maxlen : nat) (s : bytes) : bytes * Z :=
  let '(w, ok) := b64_decode maxlen s in (blit 0 w out, if (ok : bool) then Z.of_nat (length w) else 0).

Definition flag_bit (word : bytes) : Z :=
  match List.find (λ e, bytes_eqb (snd e) word) flag_table with Some (bit, _) => bit | None => 0 end.

Fixpoint skip_spaces (s : bytes) : bytes :=
  match s with [] => [] | c :: r => if c =? 32 then skip_spaces r else s end.

(** The loop over the words; every round but the last consumes a character. *)
Fixpoint flags_loop (fuel : nat) (flags : Z) (s : bytes) : Z :=
  match fuel with
  | O => flags
  | S fuel =>
      match skip_spaces s with
      | [] => flags
      | s => let '(word, s) := span_max (λ c, negb (c =? 32)) (length s) s in
             flags_loop fuel (Z.lor flags (flag_bit word)) s
      end
  end.

Definition parse_flags (s : bytes) : Z := if prefix (str "s ") s then flags_loop (length s) 0 (drop 2 s) else 0.

(** What [sscanf] reads of a relay's first line. *)
Record n_fields := NFields {
  nf_nickname : bytes; nf_id : bytes; nf_date : bytes; nf_time : bytes; nf_ip : bytes; nf_or : Z; nf_dir : Z;
}.

Definition scan_n : reader n_fields :=
  nn ← scan_s 63; ws;; id ← scan_s 63; ws;; dt ← scan_s 15; ws;; tm ← scan_s 15; ws;; ip ← scan_s 63; ws;;
  op ← scan_u; ws;; dp ← scan_u; mret (NFields nn id dt tm ip op dp).

(** [strncpy] and the test for the placeholder. *)
Definition nickname_field (nn : bytes) : bytes :=
  let f := strncpy_field 32 nn in if bytes_eqb (cstr f) (str "Unnamed") then <[0%nat := 0]> f else f.

Definition relay_of_n_line (line : bytes) : moor_node_descriptor_t :=
  match scan_n (drop 2 line) with
  | None => empty_desc
  | Some (n, _) =>
      {| empty_desc with nickname := nickname_field (nf_nickname n);
         identity_pk := fst (b64dec (zeros 32) 32 (nf_id n));
         published := parse_time (snprintf 40 (nf_date n ++ [32] ++ nf_time n));
         address := strncpy_field 64 (nf_ip n); or_port := u16 (nf_or n); dir_port := u16 (nf_dir n) |}
  end.

(** The number after the first occurrence of a name. *)
Definition number_after (name line : bytes) : option Z :=
  match strstr line name with Some p => Some (strtoull (drop (length name) p)) | None => None end.

Definition update_w (line : bytes) (d : moor_node_descriptor_t) : moor_node_descriptor_t :=
  {| d with bandwidth := default 0 (number_after (str "Bandwidth=") line);
     verified_bandwidth := default 0 (number_after (str "Measured=") line);
     features := match number_after (str "Features=") line with Some f => u32 f | None => features d end |}.

(** A number that stays 0 when it cannot be read. *)
Definition scan_u_or_0 : reader Z := λ s, match (ws;; scan_u) s with Some r => Some r | None => Some (0, s) end.
Definition scan_g : reader (bytes * Z) := cc ← scan_s 2; asn ← scan_u_or_0; mret (cc, asn).

Definition update_g (line : bytes) (d : moor_node_descriptor_t) : moor_node_descriptor_t :=
  match scan_g (drop 2 line) with
  | Some ((cc, asn), _) => {| d with country_code := moor_geoip_pack_country cc; as_number := asn |}
  | None => d
  end.

Definition update_k (line : bytes) (d : moor_node_descriptor_t) : moor_node_descriptor_t :=
  let '(kem, decoded) := b64dec (kem_pk d) 1184 (drop 2 line) in
  {| d with kem_pk := kem; features := if decoded =? 1184 then Z.lor (features d) NODE_FEATURE_PQ else features d |}.

(** The lines that change the relay that is being read. *)
Definition relay_update (line : bytes) : option (moor_node_descriptor_t → moor_node_descriptor_t) :=
  let arg := drop 2 line in
  if prefix (str "o ") line then Some (λ d, {| d with onion_pk := fst (b64dec (onion_pk d) 32 arg) |})
  else if prefix (str "a ") line then Some (λ d, {| d with address6 := strncpy_field 64 arg |})
  else if prefix (str "k ") line then Some (update_k line)
  else if prefix (str "s ") line then Some (λ d, {| d with flags := parse_flags line |})
  else if prefix (str "w ") line then Some (update_w line)
  else if prefix (str "g ") line then Some (update_g line)
  else if prefix (str "f ") line then Some (λ d, {| d with family_id := fst (b64dec (family_id d) 32 arg) |})
  else if prefix (str "p ") line then Some (λ d, {| d with signature := fst (b64dec (signature d) 64 arg) |})
  else if prefix (str "c ") line then Some (λ d, {| d with contact_info := blit 0 (take 127 arg ++ [0]) (contact_info d) |})
  else None.

(** The format has spaces between the weights. *)
Fixpoint scan_more_weights (names : list bytes) : reader (list Z) :=
  match names with
  | [] => mret []
  | nm :: names => ws;; lits nm;; w ← scan_d; l ← scan_more_weights names; mret (w :: l)
  end.

Definition scan_weights (names : list bytes) : reader (list Z) :=
  match names with
  | [] => mret []
  | nm :: names => lits nm;; w ← scan_d; l ← scan_more_weights names; mret (w :: l)
  end.

(** The state of the loop: the consensus that is filled, whether the footer was
    seen, and the index of the relay that is being read. *)
Record pstate := PState { ps_cons : moor_consensus_t; ps_footer : bool; ps_current : option nat }.

Definition set_cons (f : moor_consensus_t → moor_consensus_t) (st : pstate) : pstate := {| st with ps_cons := f (ps_cons st) |}.

(** A line is handled, makes the parser return -1, or announces a post-quantum
    signature for an entry, which the next two lines hold. *)
Inductive action := Next (st : pstate) | Reject | PqFollows (i : nat).

Definition da_pks (cons : moor_consensus_t) : list bytes := sig_identity_pk <$> da_sigs cons.

(** [pk] before it is decoded is what the stack holds. *)
Definition add_signature (stack line : bytes) (cons : moor_consensus_t) : moor_consensus_t :=
  if MOOR_MAX_DA_AUTHORITIES <=? Z.of_nat (length (da_sigs cons)) then cons else
  match (pk_b64 ← scan_s 63; ws;; sig_b64 ← scan_s 127; mret (pk_b64, sig_b64)) (drop 19 line) with
  | None => cons
  | Some ((pk_b64, sig_b64), _) =>
      let pk := fst (b64dec stack 32 pk_b64) in
      if existsb (bytes_eqb pk) (da_pks cons) then cons else
      {| cons with da_sigs := da_sigs cons ++
           [DaSig (fst (b64dec (zeros 64) 64 sig_b64)) pk (zeros MOOR_MLDSA_SIG_LEN) (zeros MOOR_MLDSA_PK_LEN) 0] |}
  end.

Definition find_signature (stack line : bytes) (cons : moor_consensus_t) : option nat :=
  match scan_s 63 (drop 22 line) with
  | None => None
  | Some (pk_b64, _) => find_index (bytes_eqb (fst (b64dec stack 32 pk_b64))) (da_pks cons)
  end.

Definition start_relay (line : bytes) (st : pstate) : action :=
  let cons := ps_cons st in
  if MOOR_MAX_RELAYS <? num_relays_of cons + 1 then Reject else
  Next (PState {| cons with relays := relays cons ++ [relay_of_n_line line] |} (ps_footer st) (Some (length (relays cons)))).

Definition read_srv (old arg : bytes) (k : bytes → pstate) : action :=
  let '(v, n) := b64dec old 32 arg in if n =? 0 then Reject else Next (k v).

Definition footer_line (stack line : bytes) (st : pstate) : action :=
  if prefix (str "bandwidth-weights ") line then
    match scan_weights weight_names (drop 18 line) with
    | Some (W, _) => Next (set_cons (λ c, {| c with bw_weights := W |}) st)
    | None => Next st
    end
  else if prefix (str "directory-footer") line then Next (PState (ps_cons st) true None)
  else if prefix (str "directory-signature") line && ps_footer st then Next (set_cons (add_signature stack line) st)
  else if prefix (str "pq-directory-signature") line && ps_footer st then
    match find_signature stack line (ps_cons st) with Some i => PqFollows i | None => Next st end
  else Next st.

Definition parse_line (stack line : bytes) (st : pstate) : action :=
  if bytes_eqb line [] then Next st
  else if prefix (str "moor-consensus ") line then Next st
  else if prefix (str "valid-after ") line then Next (set_cons (λ c, {| c with valid_after := parse_time (drop 12 line) |}) st)
  else if prefix (str "fresh-until ") line then Next (set_cons (λ c, {| c with fresh_until := parse_time (drop 12 line) |}) st)
  else if prefix (str "valid-until ") line then Next (set_cons (λ c, {| c with valid_until := parse_time (drop 12 line) |}) st)
  else if prefix (str "known-flags ") line then Next st
  else if prefix (str "shared-rand-current-value ") line then
    read_srv (srv_current (ps_cons st)) (drop 26 line) (λ v, set_cons (λ c, {| c with srv_current := v |}) st)
  else if prefix (str "shared-rand-previous-value ") line then
    read_srv (srv_previous (ps_cons st)) (drop 27 line) (λ v, set_cons (λ c, {| c with srv_previous := v |}) st)
  else if prefix (str "n ") line && negb (ps_footer st) then start_relay line st
  else match ps_current st, relay_update line with
       | Some i, Some f =>
           if ps_footer st then footer_line stack line st
           else Next (set_cons (λ c, {| c with relays := alter f i (relays c) |}) st)
       | _, _ => footer_line stack line st
       end.

Definition set_pq_pk (line : bytes) (sg : da_sig) : da_sig :=
  {| sg with sig_pq_pk := fst (b64dec (sig_pq_pk sg) MOOR_MLDSA_PK_LEN line) |}.
Definition set_pq_sig (line : bytes) (sg : da_sig) : da_sig :=
  {| sg with sig_pq_signature := fst (b64dec (sig_pq_signature sg) MOOR_MLDSA_SIG_LEN line); sig_has_pq := 1 |}.
Definition set_sig (f : da_sig → da_sig) (i : nat) : pstate → pstate :=
  set_cons (λ c, {| c with da_sigs := alter f i (da_sigs c) |}).

Fixpoint parse_lines (stack : bytes) (st : pstate) (ls : list bytes) : option pstate :=
  match ls with
  | [] => Some st
  | l :: ls =>
      match parse_line stack (line_of l) st with
      | Reject => None
      | Next st => parse_lines stack st ls
      | PqFollows i =>
          match ls with
          | [] => Some st
          | l1 :: ls =>
              let st := set_sig (set_pq_pk (line_of l1)) i st in
              match ls with
              | [] => Some st
              | l2 :: ls => parse_lines stack (set_sig (set_pq_sig (line_of l2)) i st) ls
              end
          end
      end
  end.

(** [None] is the return value -1. *)
Definition moor_consensus_deserialize (stack : bytes) (cons : moor_consensus_t) (data : bytes) : option moor_consensus_t :=
  if Z.of_nat (length data) <? 20 then None
  else if (Z.of_nat (length data) <? 17) || negb (prefix (str "moor-consensus") data) then None
  else
    let cons := {| cons with relays := []; da_sigs := []; srv_current := zeros 32; srv_previous := zeros 32 |} in
    match parse_lines stack (PState cons false None) (split_lines data) with
    | None => None
    | Some st => if valid_after (ps_cons st) =? 0 then None else Some (ps_cons st)
    end.

End Codec.

(** ** What writers write *)

(** A writer writes [t] into every buffer that has the room. *)
Definition writes (w : writer) (t : bytes) : Prop :=
  ∀ out_len out, Z.of_nat (length (out ++ t)) <= out_len → w out_len out = Done (out ++ t).

Create HintDb writes.

Lemma writes_nop : writes nop [].
Proof. intros out_len out _. by rewrite app_nil_r. Qed.

Lemma writes_bcat s : writes (bcat s) s.
Proof. intros out_len out H. rewrite length_app in H. unfold bcat. destruct (Z.ltb_spec out_len (Z.of_nat (length out) + Z.of_nat (length s))); [lia|done]. Qed.

Lemma writes_tmp s : Z.of_nat (length s) < 8192 → writes (bcat (tmp s)) s.
Proof. intros H. unfold tmp, snprintf. rewrite take_ge by lia. apply writes_bcat. Qed.

Lemma writes_seq a b s t : writes a s → writes b t → writes (seqw a b) (s ++ t).
Proof.
  intros Ha Hb out_len out H. unfold seqw. rewrite app_assoc in *. rewrite Ha; [by apply Hb|].
  rewrite length_app in H. lia.
Qed.

Lemma writes_when c w t : (c = true → writes w t) → writes (when c w) (if c then t else []).
Proof. destruct c; [auto|]. intros _. apply writes_nop. Qed.

Lemma writes_put c : writes (put_unchecked c) [c].
Proof. intros out_len out H. rewrite length_app in H. cbn in H. unfold put_unchecked. destruct (Z.ltb_spec out_len (Z.of_nat (length out) + 1)); [lia|done]. Qed.

Lemma writes_line s : writes (put_line_if_fits s) (s ++ [10]).
Proof.
  intros out_len out H. rewrite !length_app in H. cbn in H. unfold put_line_if_fits.
  destruct (Z.leb_spec (Z.of_nat (length out) + Z.of_nat (length s) + 1) out_len); [done|lia].
Qed.

Lemma writes_all {A} (f : A → writer) (g : A → bytes) l : Forall (λ x, writes (f x) (g x)) l → writes (put_all f l) (concat (map g l)).
Proof. induction 1 as [|x l Hx _ IH]; [apply writes_nop|]. cbn. by apply writes_seq. Qed.

#[export] Hint Resolve writes_nop writes_bcat writes_seq writes_put writes_line : writes.

(** ** The codec *)

(** The documented behaviour of the base64 functions: four printable characters for
    three bytes or a part of them, decoding inverts encoding, and a decoder writes at
    most the bytes it has room for and three for four characters. *)
Class Base64 (enc : bytes → bytes) (dec : nat → bytes → bytes * bool) : Prop := {
  b64_length b : Z.of_nat (length (enc b)) = 4 * ((Z.of_nat (length b) + 2) / 3);
  b64_printable b : Forall graphic (enc b);
  b64_roundtrip b n : bytes_ok b → (length b <= n)%nat → dec n (enc b) = (b, true);
  b64_bound n s : (length (fst (dec n s)) <= n)%nat ∧ 4 * Z.of_nat (length (fst (dec n s))) <= 3 * Z.of_nat (length s);
}.

(** ** The size of the document *)

(** The arrays of a descriptor have their sizes and its strings are terminated. *)
Record arrays_ok (d : moor_node_descriptor_t) : Prop := {
  ar_identity : length (identity_pk d) = 32%nat;
  ar_onion : length (onion_pk d) = 32%nat;
  ar_address : chars_ok 64 (address d);
  ar_or_port : is_u16 (or_port d);
  ar_dir_port : is_u16 (dir_port d);
  ar_bandwidth : is_u64 (bandwidth d);
  ar_signature : length (signature d) = 64%nat;
  ar_kem : length (kem_pk d) = 1184%nat;
  ar_features : is_u32 (features d);
  ar_vbw : is_u64 (verified_bandwidth d);
  ar_as : is_u32 (as_number d);
  ar_family : length (family_id d) = 32%nat;
  ar_nickname : chars_ok 32 (nickname d);
  ar_address6 : chars_ok 64 (address6 d);
  ar_contact : chars_ok 128 (contact_info d);
}.

Record sig_arrays_ok (sg : da_sig) : Prop := {
  sa_signature : length (sig_signature sg) = 64%nat;
  sa_identity : length (sig_identity_pk sg) = 32%nat;
  sa_pq_signature : length (sig_pq_signature sg) = MOOR_MLDSA_SIG_LEN;
  sa_pq_pk : length (sig_pq_pk sg) = MOOR_MLDSA_PK_LEN;
}.

Definition is_int32 (z : Z) : Prop := - 2 ^ 31 <= z < 2 ^ 31.

Record cons_arrays_ok (cons : moor_consensus_t) : Prop := {
  ca_relays : Forall arrays_ok (relays cons);
  ca_sigs : Forall sig_arrays_ok (da_sigs cons);
  ca_current : length (srv_current cons) = 32%nat;
  ca_previous : length (srv_previous cons) = 32%nat;
  ca_weights : length (bw_weights cons) = 8%nat ∧ Forall is_int32 (bw_weights cons);
}.

Lemma length_cstr l : last l = Some 0 → (length (cstr l) < length l)%nat.
Proof.
  induction l as [|c l IH]; [done|]. intros H. cbn. destruct (c =? 0) eqn:E; [cbn; lia|]. cbn.
  destruct l as [|x l]; [cbn in H; injection H as ->; done|]. specialize (IH H). lia.
Qed.

Lemma length_cstr_le l : (length (cstr l) <= length l)%nat.
Proof. induction l as [|c l IH]; [done|]. cbn. destruct (c =? 0); cbn; lia. Qed.

Lemma length_chars n l : chars_ok n l → (length (cstr l) < n)%nat.
Proof. intros [<- H]. by apply length_cstr. Qed.

Lemma length_print_u k n : (0 < k)%nat → 0 <= n < 10 ^ Z.of_nat k → (length (print_u n) <= k)%nat.
Proof. apply length_dec_digits. Qed.

Lemma length_print_u16 n : is_u16 n → (length (print_u n) <= 5)%nat.
Proof. intros H. apply length_print_u; [lia|unfold is_u16 in *; cbn; lia]. Qed.
Lemma length_print_u32 n : is_u32 n → (length (print_u n) <= 10)%nat.
Proof. intros H. apply length_print_u; [lia|unfold is_u32 in *; cbn; lia]. Qed.
Lemma length_print_u64 n : is_u64 n → (length (print_u n) <= 20)%nat.
Proof. intros H. apply length_print_u; [lia|unfold is_u64 in *; cbn; lia]. Qed.

Lemma length_print_d n : is_int32 n → (length (print_d n) <= 11)%nat.
Proof.
  unfold is_int32, print_d, print_0d, pad_zeros. intros H. destruct (Z.ltb_spec n 0); cbn [length]; rewrite length_app, length_replicate.
  - enough (length (print_u (- n)) <= 10)%nat by lia. apply length_print_u; [lia|]. change (10 ^ Z.of_nat 10) with 10000000000. lia.
  - enough (length (print_u n) <= 10)%nat by lia. apply length_print_u; [lia|]. change (10 ^ Z.of_nat 10) with 10000000000. lia.
Qed.

Lemma length_fmt_time t : (length (fmt_time t) <= 19)%nat.
Proof. unfold fmt_time, snprintf. cbv zeta. rewrite length_take. lia. Qed.

Lemma length_ip d : arrays_ok d → (length (ip_str d) <= 63)%nat.
Proof.
  intros Hd. unfold ip_str. assert (H : ∀ l, (length (before_colon l) <= length l)%nat).
  { induction l as [|c l IH]; [done|]. cbn. destruct (c =? 58); cbn; lia. }
  etrans; [apply H|]. rewrite length_take. lia.
Qed.

Lemma length_flag_words fl : (length (flag_words fl flag_table) <= 66)%nat.
Proof.
  assert (H : ∀ table : list (Z * bytes), (length (flag_words fl table) <= length (concat (map (λ e, 32%Z :: snd e) table)))%nat).
  { induction table as [|e table IH]; [done|]. unfold flag_words in *. cbn [map concat]. rewrite !length_app.
    destruct (has fl (fst e)); cbn [length]; lia. }
  apply H.
Qed.

(** The lengths of the literals of a line. *)
Ltac str_lengths :=
  rewrite ?length_app;
  repeat match goal with
    |- context [length (str ?s)] => let n := eval vm_compute in (length (str s)) in change (length (str s)) with n
  end; cbn [length].

Section Size.
  Context (enc : bytes → bytes) (dec : nat → bytes → bytes * bool) `{B : !Base64 enc dec}.

(** The text of a part of the document. *)
Definition k_line (d : moor_node_descriptor_t) : bytes := [107; 32] ++ enc (kem_pk d) ++ [10].

Definition relay_text (d : moor_node_descriptor_t) : bytes :=
  n_line enc d ++ o_line enc d ++
  (if nonempty (address6 d) then a_line d else []) ++
  (if has (features d) NODE_FEATURE_PQ then k_line d else []) ++
  s_line d ++ w_line d ++
  (if negb (country_code d =? 0) then g_line d else []) ++
  (if negb (bytes_eqb (family_id d) (zeros 32)) then f_line enc d else []) ++
  p_line enc d ++
  (if nonempty (contact_info d) then c_line d else []).

Definition sig_text (sg : da_sig) : bytes :=
  sig_line enc sg ++
  (if pq_sig sg then pq_sig_line enc sg ++ (enc (sig_pq_pk sg) ++ [10]) ++ enc (sig_pq_signature sg) ++ [10] else []).

Definition header_text (cons : moor_consensus_t) : bytes :=
  (str "moor-consensus 1" ++ [10]) ++
  time_line (str "valid-after ") (valid_after cons) ++
  time_line (str "fresh-until ") (fresh_until cons) ++
  time_line (str "valid-until ") (valid_until cons) ++
  (str "known-flags Authority BadExit Exit Fast Guard MiddleOnly Running Stable Valid" ++ [10]) ++
  (str "shared-rand-current-value " ++ enc (srv_current cons) ++ [10]) ++
  (str "shared-rand-previous-value " ++ enc (srv_previous cons) ++ [10]).

Definition sigs_written (cons : moor_consensus_t) : list da_sig := take (Z.to_nat MOOR_MAX_DA_AUTHORITIES) (da_sigs cons).

Definition document (cons : moor_consensus_t) : bytes :=
  header_text cons ++ concat (map relay_text (relays cons)) ++ weights_line (bw_weights cons) ++
  (str "directory-footer" ++ [10]) ++ concat (map sig_text (sigs_written cons)).

Lemma length_enc b n m : length b = n → 4 * ((Z.of_nat n + 2) / 3) = Z.of_nat m → length (enc b) = m.
Proof. intros <- H. apply Nat2Z.inj. by rewrite <- H, b64_length. Qed.

Lemma length_enc32 b : length b = 32%nat → length (enc b) = 44%nat.
Proof. intros H. by apply (length_enc _ _ _ H). Qed.
Lemma length_enc64 b : length b = 64%nat → length (enc b) = 88%nat.
Proof. intros H. by apply (length_enc _ _ _ H). Qed.

Lemma length_s_line d : (length (s_line d) <= 68)%nat.
Proof. unfold s_line. pose proof (length_flag_words (flags d)). str_lengths. lia. Qed.

Lemma length_n_line d : arrays_ok d → (length (n_line enc d) <= 175)%nat.
Proof.
  intros Hd. pose proof (length_ip d Hd). pose proof (length_fmt_time (published d)).
  pose proof (length_enc32 _ (ar_identity d Hd)). pose proof (length_chars _ _ (ar_nickname d Hd)).
  pose proof (length_print_u16 _ (ar_or_port d Hd)). pose proof (length_print_u16 _ (ar_dir_port d Hd)).
  unfold n_line. cbv zeta. destruct (nonempty (nickname d)); str_lengths; lia.
Qed.

Lemma length_w_line d : arrays_ok d → (length (w_line d) <= 83)%nat.
Proof.
  intros Hd. pose proof (length_print_u64 _ (ar_bandwidth d Hd)). pose proof (length_print_u64 _ (ar_vbw d Hd)).
  pose proof (length_print_u32 _ (ar_features d Hd)). unfold w_line. destruct (0 <? _); str_lengths; lia.
Qed.

Lemma length_g_line d : arrays_ok d → (length (g_line d) <= 16)%nat.
Proof.
  intros Hd. pose proof (length_print_u32 _ (ar_as d Hd)). unfold g_line, moor_geoip_unpack_country.
  pose proof (length_cstr_le [Z.shiftr (country_code d) 8; Z.land (country_code d) 0xff]) as Hl. cbn [length] in Hl. str_lengths. lia.
Qed.

(** The other lines of a relay. *)
Lemma length_lines d : arrays_ok d →
  length (o_line enc d) = 47%nat ∧ (length (a_line d) <= 66)%nat ∧ length (k_line d) = 1583%nat ∧
  length (f_line enc d) = 47%nat ∧ length (p_line enc d) = 91%nat ∧ (length (c_line d) <= 130)%nat.
Proof.
  intros Hd. pose proof (length_enc32 _ (ar_onion d Hd)). pose proof (length_enc32 _ (ar_family d Hd)).
  pose proof (length_enc64 _ (ar_signature d Hd)). pose proof (length_enc _ _ 1580 (ar_kem d Hd) eq_refl).
  pose proof (length_chars _ _ (ar_address6 d Hd)). pose proof (length_chars _ _ (ar_contact d Hd)).
  unfold o_line, a_line, k_line, f_line, p_line, c_line. str_lengths. lia.
Qed.

Lemma writes_relay d : arrays_ok d → writes (put_relay enc d) (relay_text d) ∧ (length (relay_text d) <= 2306)%nat.
Proof.
  intros Hd. pose proof (length_n_line d Hd). pose proof (length_w_line d Hd). pose proof (length_g_line d Hd).
  pose proof (length_s_line d). destruct (length_lines d Hd) as (Ho & Ha & Hk & Hf & Hp & Hc). split.
  - unfold put_relay, relay_text. repeat apply writes_seq; try (apply writes_when; intros _); try (apply writes_tmp; lia); auto with writes.
    unfold put_k, k_line. apply (writes_seq _ _ [107] ([32] ++ enc (kem_pk d) ++ [10])); auto with writes.
  - unfold relay_text. rewrite !length_app. destruct (nonempty (address6 d)), (has _ _), (negb (country_code d =? 0)),
      (negb (bytes_eqb _ _)), (nonempty (contact_info d)); cbn [length]; lia.
Qed.

Lemma writes_sig sg : sig_arrays_ok sg →
  writes (put_sig enc sg) (sig_text sg) ∧ Z.of_nat (length (sig_text sg)) <= 256 + (if pq_sig sg then 8192 else 0).
Proof.
  intros [H1 H2 H3 H4]. pose proof (length_enc64 _ H1). pose proof (length_enc32 _ H2).
  pose proof (length_enc _ _ 4412 H3 eq_refl). pose proof (length_enc _ _ 2604 H4 eq_refl).
  assert (Hl : (length (sig_line enc sg) = 154)%nat) by (unfold sig_line; str_lengths; lia).
  assert (Hq : (length (pq_sig_line enc sg) = 68)%nat) by (unfold pq_sig_line; str_lengths; lia).
  split.
  - unfold put_sig, sig_text. apply writes_seq; [apply writes_tmp; lia|]. apply writes_when. intros _.
    apply writes_seq; [apply writes_tmp; lia|]. auto with writes.
  - unfold sig_text. rewrite length_app. destruct (pq_sig sg); rewrite ?length_app; cbn [length]; lia.
Qed.

Lemma length_time_line nm t : length nm = 12%nat → (length (time_line nm t) <= 32)%nat.
Proof. intros H. pose proof (length_fmt_time t). unfold time_line. rewrite !length_app. cbn [length]. lia. Qed.

Lemma writes_header cons : cons_arrays_ok cons →
  writes (put_header enc cons) (header_text cons) ∧ (length (header_text cons) <= 340)%nat.
Proof.
  intros Hc. pose proof (length_enc32 _ (ca_current cons Hc)). pose proof (length_enc32 _ (ca_previous cons Hc)).
  pose proof (length_time_line (str "valid-after ") (valid_after cons) eq_refl).
  pose proof (length_time_line (str "fresh-until ") (fresh_until cons) eq_refl).
  pose proof (length_time_line (str "valid-until ") (valid_until cons) eq_refl). split.
  - unfold put_header, header_text. repeat apply writes_seq; first [apply writes_tmp; str_lengths; lia|apply writes_bcat].
  - unfold header_text. str_lengths. lia.
Qed.

Lemma length_weights W : length W = 8%nat → Forall is_int32 W → (length (weights_line W) <= 146)%nat.
Proof.
  intros Hl HF. do 8 (destruct W as [|? W]; [done|]). destruct W; [|done].
  repeat (apply Forall_cons in HF as [?%length_print_d HF]). unfold weights_line, weight_words, weight_names.
  cbn [zip_with map concat app]. repeat (cbn [app length] || str_lengths). lia.
Qed.

Lemma length_concat_bound {A} (f : A → bytes) (g : A → Z) l :
  Forall (λ x, Z.of_nat (length (f x)) <= g x) l → Z.of_nat (length (concat (map f l))) <= fold_right Z.add 0 (map g l).
Proof. induction 1 as [|x l Hx _ IH]; [done|]. cbn. rewrite length_app. lia. Qed.

Lemma fold_const {A} (k : Z) (l : list A) : fold_right Z.add 0 (map (λ _, k) l) = Z.of_nat (length l) * k.
Proof. induction l as [|x l IH]; [done|]. cbn [map fold_right length]. rewrite IH. lia. Qed.

Lemma serialize_document cons out_len :
  cons_arrays_ok cons → moor_consensus_wire_size cons <= out_len →
  moor_consensus_serialize enc out_len cons = Done (document cons) ∧ Z.of_nat (length (document cons)) <= moor_consensus_wire_size cons.
Proof.
  intros Hc Hlen. destruct (writes_header cons Hc) as [Hh Hhl]. destruct Hc as [HR HS _ _ [Hw Hw']].
  pose proof (length_weights _ Hw Hw') as Hwl.
  assert (HS' : Forall sig_arrays_ok (sigs_written cons)) by (by apply Forall_take).
  assert (Hd : Z.of_nat (length (document cons)) <= moor_consensus_wire_size cons).
  { unfold document, moor_consensus_wire_size. fold (sigs_written cons). rewrite !length_app.
    assert (HRl : Z.of_nat (length (concat (map relay_text (relays cons)))) <= Z.of_nat (length (relays cons)) * 2400).
    { rewrite <- fold_const. apply length_concat_bound. eapply Forall_impl; [exact HR|]. intros d Hd. destruct (writes_relay d Hd). lia. }
    pose proof (length_concat_bound sig_text (λ sg, 256 + (if pq_sig sg then 8192 else 0)) (sigs_written cons)) as HSl.
    specialize (HSl ltac:(eapply Forall_impl; [exact HS'|]; intros sg Hs; by destruct (writes_sig sg Hs))).
    assert (length (str "directory-footer") = 16%nat) by done. cbn [length]. unfold num_relays_of. lia. }
  split; [|done]. assert (W : writes (put_consensus enc cons) (document cons)).
  { unfold put_consensus, document. fold (sigs_written cons). apply writes_seq; [done|].
    apply writes_seq; [apply writes_all; eapply Forall_impl; [exact HR|]; intros d Hd'; by destruct (writes_relay d Hd')|].
    apply writes_seq; [apply writes_tmp; lia|]. apply writes_seq; [apply writes_bcat|].
    apply writes_all. eapply Forall_impl; [exact HS'|]. intros sg Hs. by destruct (writes_sig sg Hs). }
  apply (W out_len []). cbn [app]. lia.
Qed.

End Size.
