(* ===== verification/Base64.v ===== *)
(** * Base64: a codec with the documented behaviour

    The encoding of RFC 4648 with padding, which libsodium's
    [sodium_base64_VARIANT_ORIGINAL] names. It instantiates the codec that
    [TextConsensus] takes as a parameter, for the concrete documents of the examples. *)

From S2P Require Import Prelude Wire Descriptor Microdesc Consensus Select Text TextConsensus.

Definition b64_char (v : Z) : Z :=
  let v := v mod 64 in
  if v <? 26 then 65 + v else if v <? 52 then 71 + v else if v <? 62 then v - 4 else if v =? 62 then 43 else 47.

Definition b64_value (c : Z) : option Z :=
  if (65 <=? c) && (c <=? 90) then Some (c - 65)
  else if (97 <=? c) && (c <=? 122) then Some (c - 71)
  else if (48 <=? c) && (c <=? 57) then Some (c + 4)
  else if c =? 43 then Some 62 else if c =? 47 then Some 63 else None.

Fixpoint encode (l : bytes) : bytes :=
  match l with
  | [] => []
  | [a] => [b64_char (a / 4); b64_char (a mod 4 * 16); 61; 61]
  | [a; b] => [b64_char (a / 4); b64_char (a mod 4 * 16 + b / 16); b64_char (b mod 16 * 4); 61]
  | a :: b :: c :: l =>
      b64_char (a / 4) :: b64_char (a mod 4 * 16 + b / 16) :: b64_char (b mod 16 * 4 + c / 64) :: b64_char (c mod 64) :: encode l
  end.

(** Four characters; padding is only at the end. *)
Definition decode4 (c1 c2 c3 c4 : Z) (last : bool) : option bytes :=
  match b64_value c1, b64_value c2, b64_value c3, b64_value c4 with
  | Some a, Some b, Some c, Some d => Some [a * 4 + b / 16; b mod 16 * 16 + c / 4; c mod 4 * 64 + d]
  | Some a, Some b, Some c, None => if (c4 =? 61) && last then Some [a * 4 + b / 16; b mod 16 * 16 + c / 4] else None
  | Some a, Some b, None, _ => if (c3 =? 61) && (c4 =? 61) && last then Some [a * 4 + b / 16] else None
  | _, _, _, _ => None
  end.

Fixpoint decode_all (l : bytes) : bytes * bool :=
  match l with
  | [] => ([], true)
  | c1 :: c2 :: c3 :: c4 :: l =>
      match decode4 c1 c2 c3 c4 (match l with [] => true | _ => false end) with
      | None => ([], false)
      | Some x => let '(w, ok) := decode_all l in (x ++ w, ok)
      end
  | _ => ([], false)
  end.

Definition decode (n : nat) (l : bytes) : bytes * bool :=
  let '(w, ok) := decode_all l in (take n w, ok && (length w <=? n)%nat).

(** ** The laws *)

(** Induction in steps of three and of four. *)
Lemma list_ind3 {A} (Q : list A → Prop) :
  Q [] → (∀ a, Q [a]) → (∀ a b, Q [a; b]) → (∀ a b c l, Q l → Q (a :: b :: c :: l)) → ∀ l, Q l.
Proof.
  intros H0 H1 H2 H3. fix IH 1. intros [|a [|b [|c l]]]; [exact H0|apply H1|apply H2|apply H3, IH].
Qed.

Lemma list_ind4 {A} (Q : list A → Prop) :
  Q [] → (∀ a, Q [a]) → (∀ a b, Q [a; b]) → (∀ a b c, Q [a; b; c]) →
  (∀ a b c d l, Q l → Q (a :: b :: c :: d :: l)) → ∀ l, Q l.
Proof.
  intros H0 H1 H2 H3 H4. fix IH 1. intros [|a [|b [|c [|d l]]]]; [exact H0|apply H1|apply H2|apply H3|apply H4, IH].
Qed.

Lemma b64_char_graphic v : graphic (b64_char v).
Proof. unfold b64_char, graphic. cbv zeta. pose proof (Z.mod_pos_bound v 64). repeat case_match; lia. Qed.

Lemma b64_value_char v : 0 <= v < 64 → b64_value (b64_char v) = Some v.
Proof.
  intros Hv. unfold b64_char. cbv zeta. rewrite Z.mod_small by lia. unfold b64_value.
  repeat case_match; try lia; f_equal; lia.
Qed.

Lemma length_encode l : Z.of_nat (length (encode l)) = 4 * ((Z.of_nat (length l) + 2) / 3).
Proof. induction l as [|a|a b|a b c l IH] using list_ind3; [done..|]. cbn [encode length]. zdiv_lia. Qed.

Lemma encode_graphic l : Forall graphic (encode l).
Proof.
  induction l as [|a|a b|a b c l IH] using list_ind3; cbn [encode]; repeat (constructor; [first [apply b64_char_graphic|by unfold graphic]|]); done.
Qed.

Lemma encode_nil l : encode l = [] → l = [].
Proof. by destruct l as [|a [|b [|c l]]]. Qed.

Lemma decode_encode l : bytes_ok l → decode_all (encode l) = (l, true).
Proof.
  induction l as [|a|a b|a b c l IH] using list_ind3; intros Hl; [done|..];
    repeat (apply Forall_cons in Hl as [?%(conj I) Hl]); unfold is_u8 in *; cbn [encode decode_all]; unfold decode4.
  - rewrite !b64_value_char by zdiv_lia. cbn. repeat f_equal. zdiv_lia.
  - rewrite !b64_value_char by zdiv_lia. cbn. repeat f_equal; zdiv_lia.
  - rewrite !b64_value_char by zdiv_lia. rewrite IH by done. cbn. repeat f_equal; zdiv_lia.
Qed.

Lemma length_decode_all l : 4 * Z.of_nat (length (fst (decode_all l))) <= 3 * Z.of_nat (length l).
Proof.
  induction l as [| | | |c1 c2 c3 c4 l IH] using list_ind4; try (cbn; lia). cbn [decode_all].
  destruct (decode4 _ _ _ _ _) as [x|] eqn:E; [|cbn; lia]. assert (Hx : (length x <= 3)%nat).
  { unfold decode4 in E. repeat case_match; simplify_eq; cbn; lia. }
  destruct (decode_all l) as [w ok]. cbn [fst] in *. rewrite length_app. cbn [length]. lia.
Qed.

#[export] Instance base64 : Base64 encode decode.
Proof.
  split.
  - apply length_encode.
  - apply encode_graphic.
  - intros b n Hb Hn. unfold decode. rewrite decode_encode by done. rewrite take_ge by done.
    by rewrite (proj2 (Nat.leb_le _ _)).
  - intros n s. pose proof (length_decode_all s) as H. unfold decode. destruct (decode_all s) as [w ok]. cbn [fst] in *.
    rewrite length_take. lia.
Qed.
