(* ===== verification/TextRoundtrip.v ===== *)
(** * TextRoundtrip: the parser on what was written

    The document of [TextConsensus] read back line by line. A line is a sequence of
    characters without an end of line; [clean] lines are copied whole by [read_line].
    Each lemma [parse_*] says what one line of the document does to the state of the
    parser, and the claims compose them. *)

From Stdlib Require Import String.
From S2P Require Import Prelude Wire Descriptor Microdesc Consensus Select Text TextConsensus Base64.

(** ** Lines *)

Definition plain (c : Z) : Prop := c ≠ 0 ∧ c ≠ 10 ∧ c ≠ 13.
Definition clean (l : bytes) : Prop := Forall plain l ∧ Z.of_nat (length l) <= 8190.

Lemma split_lines_app l rest : Forall plain l → split_lines (l ++ [10] ++ rest) = (l ++ [10]) :: split_lines rest.
Proof.
  induction 1 as [|c l (_ & Hc & _) _ IH]; [done|]. cbn [app split_lines]. cbn [app] in IH.
  replace (c =? 10) with false by lia. by rewrite IH.
Qed.

Lemma cstr_plain l : Forall plain l → cstr (l ++ [0]) = l.
Proof. induction 1 as [|c l (Hc & _) _ IH]; [done|]. cbn [app cstr]. replace (c =? 0) with false by lia. by rewrite IH. Qed.

Lemma line_of_app l : clean l → line_of (l ++ [10]) = l.
Proof.
  intros [HF Hl]. unfold line_of. cbv zeta. rewrite take_ge by (rewrite length_app; cbn; lia). rewrite !length_app. cbn [length].
  rewrite (proj2 (Z.ltb_lt 0 (Z.of_nat (length l + 1)))) by lia. replace (length l + 1 - 1)%nat with (length l) by lia.
  assert (Hlast : byte_at (length l) (l ++ [10]) = 10) by (unfold byte_at; by rewrite app_nth2, Nat.sub_diag by lia).
  rewrite Hlast. cbn [andb Z.eqb Pos.eqb]. replace (<[length l:=0]> (l ++ [10])) with (l ++ [0]).
  2: { rewrite <- (Nat.add_0_r (length l)), insert_app_r. done. }
  match goal with |- cstr (if ?b then _ else _) = _ => assert (Hb : b = false) end.
  { destruct l as [|c l _] using rev_ind; [done|]. rewrite length_app. cbn [length]. apply andb_false_iff. right.
    replace (length l + 1 + 1 - 2)%nat with (length l) by lia. unfold byte_at. rewrite app_nth1, app_nth2, Nat.sub_diag by (rewrite ?length_app; cbn; lia).
    apply Forall_app in HF as [_ HF]. apply Forall_cons in HF as [(_ & _ & Hc) _]. cbn. lia. }
  rewrite Hb. by apply cstr_plain.
Qed.

Lemma graphic_plain l : Forall graphic l → Forall plain l.
Proof. intros H. eapply Forall_impl; [exact H|]. unfold graphic, plain. intros c. lia. Qed.

Lemma nonspace_plain c : isspace c = false → c ≠ 0 → plain c.
Proof. unfold isspace, plain. lia. Qed.

(** ** Flags *)

(** The flags of the table among those that are set. *)
Definition known_flags (fl : Z) : Z := fold_left (λ a e, if has fl (fst e) then Z.lor a (fst e) else a) flag_table 0.

Definition word_ok (e : Z * bytes) : Prop := snd e ≠ [] ∧ Forall (λ c, c ≠ 32) (snd e) ∧ flag_bit (snd e) = fst e.

Lemma flag_words_head fl table : match flag_words fl table with [] => True | c :: _ => negb (c =? 32) = false end.
Proof. induction table as [|e table IH]; [done|]. unfold flag_words in *. cbn. by destruct (has fl (fst e)). Qed.

Lemma flags_loop_words fl table acc fuel :
  Forall word_ok table → (length (flag_words fl table) <= fuel)%nat →
  flags_loop fuel acc (flag_words fl table) = fold_left (λ a e, if has fl (fst e) then Z.lor a (fst e) else a) table acc.
Proof.
  intros HF. revert acc fuel. induction HF as [|e table (He & Hs & Hb) _ IH]; intros acc fuel Hl; [by destruct fuel|].
  pose proof (flag_words_head fl table) as Hh. unfold flag_words in *. cbn [map concat fold_left] in *. destruct (has fl (fst e)) eqn:Ef.
  - cbn [app length] in Hl. destruct fuel as [|fuel]; [lia|]. cbn [app flags_loop skip_spaces Z.eqb Pos.eqb].
    destruct (snd e) as [|c w] eqn:Ew; [done|]. pose proof Hs as [Hc _]%Forall_cons. cbn [app skip_spaces].
    replace (c =? 32) with false by lia. change (c :: w ++ ?t) with ((c :: w) ++ t).
    rewrite span_max_app.
    + rewrite Hb. apply IH. rewrite length_app in Hl. cbn [length] in Hl. lia.
    + eapply Forall_impl; [exact Hs|]. intros x Hx. cbn in *. lia.
    + rewrite length_app. lia.
    + by right.
  - by apply IH.
Qed.

Lemma parse_flags_words fl : flag_words fl flag_table ≠ [] → parse_flags (str "s" ++ flag_words fl flag_table) = known_flags fl.
Proof.
  intros Hne. pose proof (flag_words_head fl flag_table) as Hh.
  assert (HF : Forall word_ok flag_table) by (repeat constructor; done).
  pose proof (λ n, flags_loop_words fl flag_table 0 n HF) as H.
  destruct (flag_words fl flag_table) as [|c w]; [done|]. apply negb_false_iff, Z.eqb_eq in Hh as ->.
  specialize (H (length (str "s" ++ 32 :: w))). unfold known_flags. rewrite <- H by (rewrite length_app; cbn; lia). done.
Qed.

Lemma known_flags_none fl : flag_words fl flag_table = [] → known_flags fl = 0.
Proof.
  unfold flag_words, known_flags. generalize flag_table. induction l as [|e l IH]; [done|]. cbn.
  by destruct (has fl (fst e)).
Qed.

(** ** Countries *)

(** A country of two printable characters, or none. *)
Definition country_ok (cc : Z) : Prop := cc = 0 ∨ (33 <= Z.shiftr cc 8 <= 126 ∧ 33 <= Z.land cc 0xff <= 126).

Lemma unpack_country cc :
  33 <= Z.shiftr cc 8 <= 126 ∧ 33 <= Z.land cc 0xff <= 126 →
  ∃ hi lo, moor_geoip_unpack_country cc = [hi; lo] ∧ 33 <= hi <= 126 ∧ 33 <= lo <= 126 ∧ moor_geoip_pack_country [hi; lo] = cc.
Proof.
  intros [Hh Hl]. exists (Z.shiftr cc 8), (Z.land cc 0xff). unfold moor_geoip_unpack_country, moor_geoip_pack_country. cbn [cstr].
  replace (Z.shiftr cc 8 =? 0) with false by lia. replace (Z.land cc 255 =? 0) with false by lia. cbn [orb].
  split_and!; [done|lia..|]. rewrite shiftl_lor_add by lia. change 255 with (Z.ones 8) in *. rewrite Z.land_ones, Z.shiftr_div_pow2 in * by lia.
  rewrite u16_small; [zdiv_lia|]. unfold is_u16. zdiv_lia.
Qed.

Lemma ws_scan_u' s : (ws;; scan_u) (32 :: s) = scan_u s.
Proof. unfold scan_u, scan_number, mbind, reader_bind, ws. change (skip_ws (32 :: s)) with (skip_ws s). cbv beta iota. by rewrite skip_ws_idemp. Qed.

(** ** Strings in arrays *)

Lemma cstr_id s : Forall plain s → cstr s = s.
Proof. induction 1 as [|c s (Hc & _) _ IH]; [done|]. cbn. replace (c =? 0) with false by lia. by rewrite IH. Qed.

Lemma contact_field s : Forall plain s → (length s <= 127)%nat → blit 0 (take 127 s ++ [0]) (zeros 128) = strncpy_field 128 s.
Proof.
  intros Hs Hl. unfold strncpy_field, blit. cbv zeta. rewrite (cstr_id s Hs), take_0, !take_ge by lia. cbn [app].
  rewrite length_app. cbn [length]. unfold zeros. rewrite drop_replicate, <- app_assoc. f_equal.
  replace (128 - length s)%nat with (S (128 - (0 + (length s + 1)))) by lia. done.
Qed.

Lemma flag_words_plain fl : Forall plain (flag_words fl flag_table).
Proof.
  assert (HF : Forall (λ e : Z * bytes, Forall plain (snd e)) flag_table) by (repeat constructor; done).
  unfold flag_words. induction HF as [|e l He _ IH]; [done|]. cbn. apply Forall_app. split; [|done].
  destruct (has fl (fst e)); [|done]. by constructor.
Qed.

(** What each line does to the relay that is read. *)
Definition with_onion (r d : moor_node_descriptor_t) : moor_node_descriptor_t := {| d with onion_pk := onion_pk r |}.
Definition with_signature (r d : moor_node_descriptor_t) : moor_node_descriptor_t := {| d with signature := signature r |}.
Definition with_address6 (r d : moor_node_descriptor_t) : moor_node_descriptor_t :=
  {| d with address6 := strncpy_field 64 (cstr (address6 r)) |}.
Definition with_kem (r : moor_node_descriptor_t) (ft : Z) (d : moor_node_descriptor_t) : moor_node_descriptor_t :=
  {| d with kem_pk := if has (features r) NODE_FEATURE_PQ then kem_pk r else zeros 1184; features := ft |}.
Definition with_family (r d : moor_node_descriptor_t) : moor_node_descriptor_t := {| d with family_id := family_id r |}.
Definition with_contact (r d : moor_node_descriptor_t) : moor_node_descriptor_t :=
  {| d with contact_info := strncpy_field 128 (cstr (contact_info r)) |}.
Definition with_flags (r d : moor_node_descriptor_t) : moor_node_descriptor_t := {| d with flags := known_flags (flags r) |}.
Definition with_bandwidth (r d : moor_node_descriptor_t) : moor_node_descriptor_t :=
  {| d with bandwidth := bandwidth r; verified_bandwidth := verified_bandwidth r; features := features r |}.
Definition with_country (r d : moor_node_descriptor_t) : moor_node_descriptor_t :=
  {| d with country_code := country_code r; as_number := if country_code r =? 0 then 0 else as_number r |}.

Section Read.
  Context (enc : bytes → bytes) (dec : nat → bytes → bytes * bool) `{B : !Base64 enc dec}.
  Variable stack : bytes.

Abbreviation P st data := (parse_lines dec stack st (split_lines data)).

(** One line of the document. *)
Lemma parse_one st l rest st' : clean l → parse_line dec stack l st = Next st' → P st (l ++ [10] ++ rest) = P st' rest.
Proof. intros Hl H. rewrite split_lines_app by apply Hl. cbn [parse_lines]. by rewrite line_of_app, H. Qed.

(** ** Decoding *)

Lemma blit_full w old : length w = length old → blit 0 w old = w.
Proof. intros H. unfold blit. rewrite take_0, drop_ge by lia. by rewrite app_nil_r. Qed.

Lemma b64dec_enc old b n : bytes_ok b → length b = n → length old = n → b64dec dec old n (enc b) = (b, Z.of_nat n).
Proof. intros Hb Hn Ho. unfold b64dec. rewrite b64_roundtrip by (done || lia). by rewrite blit_full, Hn by lia. Qed.

Lemma enc_nonspace b : Forall (λ c, isspace c = false) (enc b).
Proof. apply graphic_nonspace, b64_printable. Qed.

Lemma enc_plain b : Forall plain (enc b).
Proof. apply graphic_plain, b64_printable. Qed.

Lemma enc_nonempty b : b ≠ [] → enc b ≠ [].
Proof.
  intros Hb He. pose proof (b64_length (dec := dec) b) as H. rewrite He in H. destruct b as [|x b]; [done|]. cbn [length] in H. zdiv_lia.
Qed.

(** ** The lines of a relay *)

(** The state in which the last relay is being read. *)
Definition reading (c : moor_consensus_t) (d : moor_node_descriptor_t) : pstate :=
  PState {| c with relays := relays c ++ [d] |} false (Some (length (relays c))).

Lemma alter_last {A} (f : A → A) l x : alter f (length l) (l ++ [x]) = l ++ [f x].
Proof. induction l as [|y l IH]; [done|]. cbn. by rewrite IH. Qed.

Lemma reading_alter f c d :
  set_cons (λ c', {| c' with relays := alter f (length (relays c)) (relays c') |}) (reading c d) = reading c (f d).
Proof. unfold reading, set_cons. cbn [ps_cons ps_footer ps_current relays]. by rewrite alter_last. Qed.

(** Lines that change the relay: the tests on a line are decided by its first two
    characters. *)
Lemma parse_update c d x arg f :
  parse_line dec stack (x :: 32 :: arg) (reading c d) =
    Next (set_cons (λ c', {| c' with relays := alter f (length (relays c)) (relays c') |}) (reading c d)) →
  parse_line dec stack (x :: 32 :: arg) (reading c d) = Next (reading c (f d)).
Proof. intros ->. by rewrite reading_alter. Qed.

Lemma parse_o c d arg :
  parse_line dec stack (str "o " ++ arg) (reading c d) = Next (reading c {| d with onion_pk := fst (b64dec dec (onion_pk d) 32 arg) |}).
Proof. apply (parse_update c d 111 arg (λ d, {| d with onion_pk := fst (b64dec dec (onion_pk d) 32 arg) |})). reflexivity. Qed.

Lemma parse_a c d arg :
  parse_line dec stack (str "a " ++ arg) (reading c d) = Next (reading c {| d with address6 := strncpy_field 64 arg |}).
Proof. apply (parse_update c d 97 arg (λ d, {| d with address6 := strncpy_field 64 arg |})). reflexivity. Qed.

Lemma parse_k c d arg :
  parse_line dec stack (str "k " ++ arg) (reading c d) = Next (reading c (update_k dec (str "k " ++ arg) d)).
Proof. apply (parse_update c d 107 arg (update_k dec (str "k " ++ arg))). reflexivity. Qed.

Lemma parse_s c d arg :
  parse_line dec stack (str "s " ++ arg) (reading c d) = Next (reading c {| d with flags := parse_flags (str "s " ++ arg) |}).
Proof. apply (parse_update c d 115 arg (λ d, {| d with flags := parse_flags (str "s " ++ arg) |})). reflexivity. Qed.

Lemma parse_w c d arg :
  parse_line dec stack (str "w " ++ arg) (reading c d) = Next (reading c (update_w (str "w " ++ arg) d)).
Proof. apply (parse_update c d 119 arg (update_w (str "w " ++ arg))). reflexivity. Qed.

Lemma parse_g c d arg :
  parse_line dec stack (str "g " ++ arg) (reading c d) = Next (reading c (update_g (str "g " ++ arg) d)).
Proof. apply (parse_update c d 103 arg (update_g (str "g " ++ arg))). reflexivity. Qed.

Lemma parse_f c d arg :
  parse_line dec stack (str "f " ++ arg) (reading c d) = Next (reading c {| d with family_id := fst (b64dec dec (family_id d) 32 arg) |}).
Proof. apply (parse_update c d 102 arg (λ d, {| d with family_id := fst (b64dec dec (family_id d) 32 arg) |})). reflexivity. Qed.

Lemma parse_p c d arg :
  parse_line dec stack (str "p " ++ arg) (reading c d) = Next (reading c {| d with signature := fst (b64dec dec (signature d) 64 arg) |}).
Proof. apply (parse_update c d 112 arg (λ d, {| d with signature := fst (b64dec dec (signature d) 64 arg) |})). reflexivity. Qed.

Lemma parse_c c d arg :
  parse_line dec stack (str "c " ++ arg) (reading c d) =
    Next (reading c {| d with contact_info := blit 0 (take 127 arg ++ [0]) (contact_info d) |}).
Proof. apply (parse_update c d 99 arg (λ d, {| d with contact_info := blit 0 (take 127 arg ++ [0]) (contact_info d) |})). reflexivity. Qed.

(** A line of the document: a name, what follows it and the end. *)
Lemma parse_text st a b rest st' :
  Forall plain a → Forall plain b → Z.of_nat (length a + length b) <= 8190 →
  parse_line dec stack (a ++ b) st = Next st' → P st ((a ++ b ++ [10]) ++ rest) = P st' rest.
Proof.
  intros Ha Hb Hl H. replace ((a ++ b ++ [10]) ++ rest) with ((a ++ b) ++ [10] ++ rest) by (by rewrite <- !app_assoc).
  apply parse_one; [|done]. split; [by apply Forall_app|rewrite length_app; lia].
Qed.

Lemma read_o c d r rest : arrays_ok r → bytes_ok (onion_pk r) → length (onion_pk d) = 32%nat →
  P (reading c d) (o_line enc r ++ rest) = P (reading c (with_onion r d)) rest.
Proof.
  intros Hr Hb Hd. pose proof (length_enc32 enc dec _ (ar_onion r Hr)) as Hl. apply parse_text.
  - repeat constructor; done.
  - apply enc_plain.
  - rewrite Hl. cbn. lia.
  - rewrite parse_o, b64dec_enc; [done|done|apply Hr|done].
Qed.

Lemma read_p c d r rest : arrays_ok r → bytes_ok (signature r) → length (signature d) = 64%nat →
  P (reading c d) (p_line enc r ++ rest) = P (reading c (with_signature r d)) rest.
Proof.
  intros Hr Hb Hd. pose proof (length_enc64 enc dec _ (ar_signature r Hr)) as Hl. apply parse_text.
  - repeat constructor; done.
  - apply enc_plain.
  - rewrite Hl. cbn. lia.
  - rewrite parse_p, b64dec_enc; [done|done|apply Hr|done].
Qed.

(** Parts that are written only when they are there. *)
Lemma read_a c d r rest : arrays_ok r → Forall plain (cstr (address6 r)) → address6 d = zeros 64 →
  P (reading c d) ((if nonempty (address6 r) then a_line r else []) ++ rest) =
  P (reading c (with_address6 r d)) rest.
Proof.
  unfold with_address6. intros Hr Hp Hd. destruct (nonempty (address6 r)) eqn:E.
  - pose proof (length_chars _ _ (ar_address6 r Hr)). apply parse_text; [repeat constructor; done|done|cbn; lia|]. by rewrite parse_a.
  - assert (Hc : cstr (address6 r) = []) by (by destruct (address6 r) as [|x l]; [|cbn in *; destruct (x =? 0)]).
    rewrite Hc. cbn [app]. change (strncpy_field 64 []) with (zeros 64). rewrite <- Hd. by destruct d.
Qed.

Lemma read_k c d r rest : arrays_ok r → bytes_ok (kem_pk r) → kem_pk d = zeros 1184 →
  ∃ ft, P (reading c d) ((if has (features r) NODE_FEATURE_PQ then k_line enc r else []) ++ rest) =
  P (reading c (with_kem r ft d)) rest.
Proof.
  unfold with_kem. intros Hr Hb Hd. destruct (has (features r) NODE_FEATURE_PQ) eqn:E.
  - pose proof (length_enc enc dec _ _ 1580 (ar_kem r Hr) eq_refl) as Hl. eexists. apply (parse_text _ (str "k ")).
    + repeat constructor; done.
    + apply enc_plain.
    + rewrite Hl. cbn. lia.
    + rewrite parse_k. unfold update_k. change (drop 2 (str "k " ++ ?x)) with x.
      rewrite b64dec_enc; [done|done|apply Hr|rewrite Hd; apply length_zeros].
  - exists (features d). cbn [app]. rewrite <- Hd. by destruct d.
Qed.

Lemma read_f c d r rest : arrays_ok r → bytes_ok (family_id r) → family_id d = zeros 32 →
  P (reading c d) ((if negb (bytes_eqb (family_id r) (zeros 32)) then f_line enc r else []) ++ rest) =
  P (reading c (with_family r d)) rest.
Proof.
  unfold with_family. intros Hr Hb Hd. destruct (bytes_eqb (family_id r) (zeros 32)) eqn:E.
  - apply bytes_eqb_eq in E. cbn [negb app]. rewrite E, <- Hd. by destruct d.
  - pose proof (length_enc32 enc dec _ (ar_family r Hr)) as Hl. cbn [negb]. apply parse_text.
    + repeat constructor; done.
    + apply enc_plain.
    + rewrite Hl. cbn. lia.
    + rewrite parse_f, b64dec_enc; [done|done|apply Hr|rewrite Hd; apply length_zeros].
Qed.

Lemma read_c c d r rest : arrays_ok r → Forall plain (cstr (contact_info r)) → contact_info d = zeros 128 →
  P (reading c d) ((if nonempty (contact_info r) then c_line r else []) ++ rest) =
  P (reading c (with_contact r d)) rest.
Proof.
  unfold with_contact. intros Hr Hp Hd. destruct (nonempty (contact_info r)) eqn:E.
  - pose proof (length_chars _ _ (ar_contact r Hr)). apply parse_text; [repeat constructor; done|done|cbn; lia|].
    rewrite parse_c, Hd, contact_field; [done|done|lia].
  - assert (Hc : cstr (contact_info r) = []) by (by destruct (contact_info r) as [|x l]; [|cbn in *; destruct (x =? 0)]).
    rewrite Hc. cbn [app]. change (strncpy_field 128 []) with (zeros 128). rewrite <- Hd. by destruct d.
Qed.

Lemma read_s c d r rest : arrays_ok r → flags d = 0 →
  P (reading c d) (s_line r ++ rest) = P (reading c (with_flags r d)) rest.
Proof.
  unfold with_flags. intros Hr Hd. pose proof (length_flag_words (flags r)) as Hl. apply parse_text.
  - repeat constructor; done.
  - apply flag_words_plain.
  - str_lengths. lia.
  - destruct (decide (flag_words (flags r) flag_table = [])) as [E|E].
    + rewrite E, known_flags_none, <- Hd by done. by destruct d.
    + rewrite <- parse_flags_words by done. pose proof (flag_words_head (flags r) flag_table) as Hh.
      destruct (flag_words (flags r) flag_table) as [|x w]; [done|]. apply negb_false_iff, Z.eqb_eq in Hh as ->.
      apply (parse_s c d w).
Qed.

Lemma number_after_w nm n s x : Forall (λ c, c ≠ hd 0 nm) x → nm ≠ [] → is_u64 n → no_digit s →
  number_after nm (x ++ nm ++ print_u n ++ s) = Some n.
Proof.
  intros Hx Hnm Hn Hs. unfold number_after. destruct nm as [|c nm]; [done|]. cbn [hd] in Hx.
  rewrite (strstr_skip x _ c nm Hx), (strstr_here (c :: nm)), drop_app_length. by rewrite strtoull_print.
Qed.

Lemma digits_not n c : is_u64 n → isdigit c = false → Forall (λ x, x ≠ c) (print_u n).
Proof. intros Hn Hc. destruct (print_u_spec n Hn) as [H _]. eapply Forall_impl; [exact H|]. intros x Hx ->. cbn in Hx. congruence. Qed.

Lemma digits_plain n : is_u64 n → Forall plain (print_u n).
Proof. intros Hn. by apply graphic_plain, print_u_graphic. Qed.

(** What the bandwidth line says. *)
Definition w_measured (r : moor_node_descriptor_t) : bytes :=
  if 0 <? verified_bandwidth r then str " Measured=" ++ print_u (verified_bandwidth r) else [].
Definition w_body (r : moor_node_descriptor_t) : bytes :=
  str "Bandwidth=" ++ print_u (bandwidth r) ++ w_measured r ++ str " Features=" ++ print_u (features r).

Lemma features_u64 r : arrays_ok r → is_u64 (features r).
Proof. intros Hr. pose proof (ar_features r Hr). unfold is_u32, is_u64 in *. lia. Qed.

(** No other name begins in the parts of the line before a name. *)
Lemma w_part_not r c : arrays_ok r → isdigit c = false → Forall (λ x, x ≠ c) (str "w Bandwidth=") →
  Forall (λ x, x ≠ c) (str "w Bandwidth=" ++ print_u (bandwidth r)).
Proof. intros Hr Hc H. apply Forall_app. split; [done|]. by apply digits_not; [apply Hr|]. Qed.

Lemma w_measured_after r : arrays_ok r →
  default 0 (number_after (str "Measured=") (str "w " ++ w_body r)) = verified_bandwidth r.
Proof.
  intros Hr. unfold w_body, w_measured. destruct (Z.ltb_spec 0 (verified_bandwidth r)) as [Hv|Hv].
  - replace (str "w " ++ _) with ((str "w Bandwidth=" ++ print_u (bandwidth r) ++ [32]) ++ str "Measured=" ++
      print_u (verified_bandwidth r) ++ str " Features=" ++ print_u (features r)) by (by rewrite <- !app_assoc).
    rewrite number_after_w; [done| |done|apply Hr|done].
    rewrite app_assoc. apply Forall_app. split; [|by repeat constructor].
    apply w_part_not; [done|done|]. repeat constructor; done.
  - cbn [app]. unfold number_after. change (str "Measured=") with (77 :: str "easured="). rewrite strstr_none.
    + pose proof (ar_vbw r Hr) as H. unfold is_u64 in H. cbn. lia.
    + replace (str "w " ++ _) with ((str "w Bandwidth=" ++ print_u (bandwidth r)) ++ str " Features=" ++ print_u (features r)) by (by rewrite <- !app_assoc).
      apply Forall_app. split; [apply w_part_not; [done|done|]; repeat constructor; done|].
      apply Forall_app. split; [repeat constructor; done|]. apply digits_not; [by apply features_u64|done].
Qed.

Lemma w_features_after r : arrays_ok r → number_after (str "Features=") (str "w " ++ w_body r) = Some (features r).
Proof.
  intros Hr. replace (str "w " ++ w_body r) with
    (((str "w Bandwidth=" ++ print_u (bandwidth r)) ++ w_measured r ++ [32]) ++ str "Features=" ++ print_u (features r) ++ []).
  2: { unfold w_body. rewrite app_nil_r, <- !app_assoc. done. }
  rewrite number_after_w; [done| |done|by apply features_u64|done].
  apply Forall_app. split; [apply w_part_not; [done|done|]; repeat constructor; done|].
  apply Forall_app. split; [|by repeat constructor]. unfold w_measured. destruct (0 <? _); [|done].
  apply Forall_app. split; [repeat constructor; done|]. by apply digits_not; [apply Hr|].
Qed.

Lemma w_body_plain r : arrays_ok r → Forall plain (w_body r) ∧ (length (w_body r) <= 80)%nat.
Proof.
  intros Hr. pose proof (length_w_line r Hr) as Hl. split.
  - assert (Hm : Forall plain (w_measured r)).
    { unfold w_measured. destruct (0 <? verified_bandwidth r); [|done].
      apply Forall_app. split; [by repeat constructor|apply digits_plain, Hr]. }
    unfold w_body. apply Forall_app. split; [by repeat constructor|]. apply Forall_app. split; [apply digits_plain, Hr|].
    apply Forall_app. split; [done|]. apply Forall_app. split; [by repeat constructor|]. by apply digits_plain, features_u64.
  - replace (w_line r) with (str "w " ++ w_body r ++ [10]) in Hl by (unfold w_line, w_body; rewrite <- !app_assoc; done).
    revert Hl. str_lengths. lia.
Qed.

Lemma read_w c d r rest : arrays_ok r →
  P (reading c d) (w_line r ++ rest) =
  P (reading c (with_bandwidth r d)) rest.
Proof.
  unfold with_bandwidth. intros Hr. destruct (w_body_plain r Hr) as [Hp Hl].
  replace (w_line r) with (str "w " ++ w_body r ++ [10]) by (unfold w_line, w_body; rewrite <- !app_assoc; done).
  apply parse_text; [by repeat constructor|done|str_lengths; lia|]. rewrite parse_w. unfold update_w.
  rewrite (w_measured_after r Hr), (w_features_after r Hr), u32_small by apply Hr. repeat f_equal.
  unfold w_body. rewrite number_after_w; [done|by repeat constructor|done|apply Hr|]. unfold w_measured. by destruct (0 <? _).
Qed.

Lemma read_g c d r rest : arrays_ok r → country_ok (country_code r) → country_code d = 0 → as_number d = 0 →
  P (reading c d) ((if negb (country_code r =? 0) then g_line r else []) ++ rest) =
  P (reading c (with_country r d)) rest.
Proof.
  unfold with_country. intros Hr Hc Hd1 Hd2. destruct (Z.eqb_spec (country_code r) 0) as [E|E]; cbn [negb].
  - rewrite E. cbn [app]. by replace {| d with country_code := 0; as_number := 0 |} with d by (destruct d; cbn in *; by subst).
  - destruct Hc as [?|Hc]; [done|]. destruct (unpack_country _ Hc) as (hi & lo & Eu & Hhi & Hlo & Ep).
    pose proof (length_print_u32 _ (ar_as r Hr)) as Hl. pose proof (ar_as r Hr) as Ha.
    replace (g_line r) with (str "g " ++ ([hi; lo] ++ 32 :: print_u (as_number r)) ++ [10]).
    2: { unfold g_line. rewrite Eu. by rewrite <- !app_assoc. }
    apply parse_text; [by repeat constructor| |str_lengths; lia|].
    + apply Forall_app. split; [repeat constructor; unfold plain; lia|]. constructor; [done|]. apply digits_plain. unfold is_u32, is_u64 in *. lia.
    + rewrite parse_g. unfold update_g. change (drop 2 (str "g " ++ ?x)) with x. unfold scan_g.
      rewrite step_s; [|done|repeat constructor; unfold isspace; lia|cbn; lia|done].
      rewrite (reader_step scan_u_or_0 _ _ (as_number r) []).
      2: { unfold scan_u_or_0. rewrite ws_scan_u', <- (app_nil_r (print_u _)). by rewrite scan_u_print. }
      unfold mret, reader_ret. by rewrite Ep.
Qed.

(** ** The first line of a relay *)

Definition shown_name (r : moor_node_descriptor_t) : bytes := if nonempty (nickname r) then cstr (nickname r) else str "Unnamed".

Definition n_rest (r : moor_node_descriptor_t) : bytes :=
  32 :: enc (identity_pk r) ++ 32 :: fmt_time (published r) ++ 32 :: ip_str r ++ 32 :: print_u (or_port r) ++ 32 :: print_u (dir_port r).

Lemma n_line_eq r : n_line enc r = str "n " ++ (shown_name r ++ n_rest r) ++ [10].
Proof. unfold n_line, n_rest, shown_name. cbv zeta. repeat (rewrite <- !app_assoc; cbn [app]). done. Qed.

Lemma parse_n c cur arg : num_relays_of c < MOOR_MAX_RELAYS →
  parse_line dec stack (str "n " ++ arg) (PState c false cur) = Next (reading c (relay_of_n_line dec (str "n " ++ arg))).
Proof.
  intros Hn. transitivity (start_relay dec (str "n " ++ arg) (PState c false cur)); [reflexivity|].
  unfold start_relay. cbn [ps_cons ps_footer]. by replace (MOOR_MAX_RELAYS <? num_relays_of c + 1) with false by lia.
Qed.

(** What the line carries of a relay. *)
Record n_ok (r : moor_node_descriptor_t) : Prop := {
  n_identity : bytes_ok (identity_pk r);
  n_published : 0 <= published r < TIME_MAX;
  n_ip : ip_str r ≠ [] ∧ Forall (λ c, isspace c = false) (ip_str r);
}.

Definition n_relay (name : bytes) (r : moor_node_descriptor_t) : moor_node_descriptor_t :=
  {| empty_desc with nickname := nickname_field name; identity_pk := identity_pk r; published := published r;
     address := strncpy_field 64 (ip_str r); or_port := or_port r; dir_port := dir_port r |}.

Lemma cstr_nonspace_plain l : Forall (λ c, isspace c = false) (cstr l) → Forall plain (cstr l).
Proof.
  induction l as [|c l IH]; [done|]. cbn. destruct (Z.eqb_spec c 0); [done|].
  intros H. apply Forall_cons in H as [Hs H]. constructor; [by apply nonspace_plain|by apply IH].
Qed.

Lemma u16_u64 n : is_u16 n → is_u64 n.
Proof. unfold is_u16, is_u64. lia. Qed.
Lemma u16_u32 n : is_u16 n → is_u32 n.
Proof. unfold is_u16, is_u32. lia. Qed.

Lemma ip_plain r : Forall (λ c, isspace c = false) (ip_str r) → Forall plain (ip_str r).
Proof.
  assert (H0 : ∀ l, Forall (λ c, c ≠ 0) (before_colon (take 63 (cstr l)))).
  { intros l. generalize 63%nat. induction l as [|c l IH]; intros n; [by destruct n|]. cbn [cstr].
    destruct (Z.eqb_spec c 0); [by destruct n|]. destruct n; [done|]. cbn. destruct (c =? 58); [done|]. constructor; [done|apply IH]. }
  intros H. specialize (H0 (address r)). fold (ip_str r) in H0. induction H0 as [|c l Hc _ IH]; [done|].
  apply Forall_cons in H as [Hs H]. constructor; [by apply nonspace_plain|by apply IH].
Qed.

Lemma n_rest_plain r : arrays_ok r → n_ok r → Forall plain (n_rest r).
Proof.
  intros Hr [_ Ht [_ Hi]]. destruct (fmt_time_words _ Ht) as (date & clock & E & _ & _ & Hd%graphic_plain & Hc%graphic_plain).
  pose proof (u16_u64 _ (ar_or_port r Hr)) as Ho%digits_plain. pose proof (u16_u64 _ (ar_dir_port r Hr)) as Hdp%digits_plain.
  apply ip_plain in Hi. unfold n_rest. rewrite E. assert (Hs : plain 32) by done.
  constructor; [done|]. apply Forall_app. split; [apply enc_plain|]. constructor; [done|].
  apply Forall_app. split; [apply Forall_app; split; [done|by constructor]|]. constructor; [done|].
  apply Forall_app. split; [done|]. constructor; [done|]. apply Forall_app. split; [done|by constructor].
Qed.

Lemma scan_n_line name r :
  arrays_ok r → n_ok r → name ≠ [] → Forall (λ c, isspace c = false) name → (length name <= 63)%nat →
  relay_of_n_line dec (str "n " ++ name ++ n_rest r) = n_relay name r.
Proof.
  intros Hr [Hid Ht [Hi Hi']] Hne Hns Hl. destruct (fmt_time_words _ Ht) as (date & clock & E & Hdl & Hcl & Hd%graphic_nonspace & Hc%graphic_nonspace).
  unfold relay_of_n_line. change (drop 2 (str "n " ++ ?x)) with x.
  assert (Hscan : scan_n (name ++ n_rest r) = Some (NFields name (enc (identity_pk r)) date clock (ip_str r) (or_port r) (dir_port r), [])).
  { unfold scan_n, n_rest. pose proof (length_enc32 enc dec _ (ar_identity r Hr)). pose proof (length_ip r Hr).
    pose proof (u16_u32 _ (ar_or_port r Hr)). pose proof (u16_u32 _ (ar_dir_port r Hr)).
    assert (identity_pk r ≠ []) by (intros Hx; pose proof (ar_identity r Hr) as H32; by rewrite Hx in H32).
    rewrite step_s, ws_scan_s by done.
    rewrite step_s, ws_scan_s; [|by apply enc_nonempty|apply enc_nonspace|lia|done].
    rewrite E, <- !app_assoc. cbn [app].
    rewrite step_s, ws_scan_s; [|by destruct date|done|lia|done].
    rewrite step_s, ws_scan_s; [|by destruct clock|done|lia|done].
    rewrite step_s, ws_scan_u; [|done|done|lia|done].
    rewrite step_u, ws_scan_u by done. rewrite <- (app_nil_r (print_u (dir_port r))). by rewrite step_u. }
  rewrite Hscan. cbn [nf_nickname nf_id nf_date nf_time nf_ip nf_or nf_dir].
  rewrite b64dec_enc by (done || apply Hr). replace (snprintf 40 (date ++ [32] ++ clock)) with (fmt_time (published r)).
  2: { rewrite E. unfold snprintf. rewrite take_ge; [done|]. rewrite !length_app. cbn. lia. }
  by rewrite parse_fmt_time, !u16_small by (done || apply Hr).
Qed.

Lemma read_n c cur name r rest :
  num_relays_of c < MOOR_MAX_RELAYS → arrays_ok r → n_ok r → shown_name r = name →
  Forall (λ c, isspace c = false) (cstr (nickname r)) →
  P (PState c false cur) (n_line enc r ++ rest) = P (reading c (n_relay name r)) rest.
Proof.
  intros Hn Hr Hok Hname Hns. pose proof (length_chars _ _ (ar_nickname r Hr)) as Hl. pose proof (length_n_line enc dec r Hr) as Hnl.
  rewrite n_line_eq in *. rewrite Hname in *.
  assert (Hnm : name ≠ [] ∧ Forall (λ c, isspace c = false) name ∧ (length name <= 63)%nat ∧ Forall plain name).
  { subst name. unfold shown_name. destruct (nonempty (nickname r)) eqn:En; [|split_and!; [done|by repeat constructor|cbn; lia|by repeat constructor]].
    split_and!; [|done|lia|].
    - destruct (nickname r) as [|x l]; [done|]. cbn in *. by destruct (x =? 0).
    - by apply cstr_nonspace_plain. }
  destruct Hnm as (Hne & Hns' & Hl' & Hp). apply parse_text.
  - by repeat constructor.
  - apply Forall_app. split; [done|by apply n_rest_plain].
  - revert Hnl. str_lengths. lia.
  - by rewrite parse_n, scan_n_line.
Qed.

(** ** A whole relay *)

(** What the other lines carry. *)
Record rest_ok (r : moor_node_descriptor_t) : Prop := {
  r_onion : bytes_ok (onion_pk r);
  r_kem : bytes_ok (kem_pk r);
  r_signature : bytes_ok (signature r);
  r_family : bytes_ok (family_id r);
  r_address6 : Forall plain (cstr (address6 r));
  r_contact : Forall plain (cstr (contact_info r));
  r_country : country_ok (country_code r);
}.

(** The fields of a relay that only its first line has set. *)
Record blank (d : moor_node_descriptor_t) : Prop := {
  bl_onion : length (onion_pk d) = 32%nat;
  bl_signature : length (signature d) = 64%nat;
  bl_address6 : address6 d = zeros 64;
  bl_kem : kem_pk d = zeros 1184;
  bl_family : family_id d = zeros 32;
  bl_contact : contact_info d = zeros 128;
  bl_country : country_code d = 0 ∧ as_number d = 0;
  bl_flags : flags d = 0;
}.

Definition fill (d r : moor_node_descriptor_t) : moor_node_descriptor_t :=
  {| d with onion_pk := onion_pk r; address6 := strncpy_field 64 (cstr (address6 r));
     kem_pk := if has (features r) NODE_FEATURE_PQ then kem_pk r else zeros 1184; flags := known_flags (flags r);
     bandwidth := bandwidth r; verified_bandwidth := verified_bandwidth r; features := features r;
     country_code := country_code r; as_number := if country_code r =? 0 then 0 else as_number r;
     family_id := family_id r; signature := signature r; contact_info := strncpy_field 128 (cstr (contact_info r)) |}.

Definition rest_text (r : moor_node_descriptor_t) : bytes :=
  o_line enc r ++ (if nonempty (address6 r) then a_line r else []) ++
  (if has (features r) NODE_FEATURE_PQ then k_line enc r else []) ++ s_line r ++ w_line r ++
  (if negb (country_code r =? 0) then g_line r else []) ++
  (if negb (bytes_eqb (family_id r) (zeros 32)) then f_line enc r else []) ++ p_line enc r ++
  (if nonempty (contact_info r) then c_line r else []).

Lemma read_rest c d r rest : arrays_ok r → rest_ok r → blank d →
  P (reading c d) (rest_text r ++ rest) = P (reading c (fill d r)) rest.
Proof.
  intros Hr [Ho Hk Hs Hf Ha Hc Hcc] [B1 B2 B3 B4 B5 B6 [B7 B8] B9]. unfold rest_text. rewrite <- !app_assoc.
  rewrite read_o, read_a by done. edestruct (read_k c) as [ft ->]; [exact Hr|exact Hk|exact B4|].
  rewrite read_s, read_w, read_g, read_f, read_p, read_c by done. by destruct d.
Qed.

Record text_ok (r : moor_node_descriptor_t) : Prop := {
  t_arrays : arrays_ok r;
  t_n : n_ok r;
  t_nickname : Forall (λ c, isspace c = false) (cstr (nickname r));
  t_rest : rest_ok r;
}.

(** The relay that is read back. *)
Definition textual (r : moor_node_descriptor_t) : moor_node_descriptor_t := fill (n_relay (shown_name r) r) r.

Lemma read_relay c cur r rest : num_relays_of c < MOOR_MAX_RELAYS → text_ok r →
  P (PState c false cur) (relay_text enc r ++ rest) = P (reading c (textual r)) rest.
Proof.
  intros Hn [Hr Hok Hns Hrest]. unfold relay_text. fold (rest_text r). rewrite <- app_assoc.
  rewrite (read_n c cur (shown_name r)) by done. by apply read_rest.
Qed.

Lemma read_relays c cur l rest : num_relays_of c + Z.of_nat (length l) <= MOOR_MAX_RELAYS → Forall text_ok l →
  ∃ cur', P (PState c false cur) (concat (map (relay_text enc) l) ++ rest) =
    P (PState {| c with relays := relays c ++ (textual <$> l) |} false cur') rest.
Proof.
  intros Hn HF. revert c cur Hn. induction HF as [|r l Hr _ IH]; intros c cur Hn.
  - exists cur. cbn [map concat app fmap list_fmap]. rewrite app_nil_r. by destruct c.
  - cbn [map concat length] in *. rewrite <- app_assoc, read_relay by (done || lia). unfold reading.
    edestruct IH as [cur' ->]; [unfold num_relays_of in *; cbn [relays]; rewrite length_app; cbn [length]; lia|].
    exists cur'. cbn [relays]. rewrite <- app_assoc. by destruct c.
Qed.

(** ** The header *)

Section Header.
  Variables (va fu vu : Z) (rl : list moor_node_descriptor_t) (sg : list da_sig) (sc sp : bytes) (W : list Z).
  Variable cur : option nat.

Lemma fmt_time_plain t : 0 <= t < TIME_MAX → Forall plain (fmt_time t) ∧ (length (fmt_time t) <= 19)%nat.
Proof.
  intros Ht. split; [|apply length_fmt_time]. destruct (fmt_time_words t Ht) as (date & clock & -> & _ & _ & Hd & Hc).
  apply Forall_app. split; [by apply graphic_plain|]. constructor; [done|by apply graphic_plain].
Qed.

Lemma read_valid_after t rest : 0 <= t < TIME_MAX →
  P (PState (Consensus va fu vu rl sg sc sp W) false cur) (time_line (str "valid-after ") t ++ rest) =
  P (PState (Consensus t fu vu rl sg sc sp W) false cur) rest.
Proof.
  intros Ht. destruct (fmt_time_plain t Ht). apply parse_text; [by repeat constructor|done|str_lengths; lia|].
  rewrite <- (parse_fmt_time t Ht) at 2. reflexivity.
Qed.

Lemma read_fresh_until t rest : 0 <= t < TIME_MAX →
  P (PState (Consensus va fu vu rl sg sc sp W) false cur) (time_line (str "fresh-until ") t ++ rest) =
  P (PState (Consensus va t vu rl sg sc sp W) false cur) rest.
Proof.
  intros Ht. destruct (fmt_time_plain t Ht). apply parse_text; [by repeat constructor|done|str_lengths; lia|].
  rewrite <- (parse_fmt_time t Ht) at 2. reflexivity.
Qed.

Lemma read_valid_until t rest : 0 <= t < TIME_MAX →
  P (PState (Consensus va fu vu rl sg sc sp W) false cur) (time_line (str "valid-until ") t ++ rest) =
  P (PState (Consensus va fu t rl sg sc sp W) false cur) rest.
Proof.
  intros Ht. destruct (fmt_time_plain t Ht). apply parse_text; [by repeat constructor|done|str_lengths; lia|].
  rewrite <- (parse_fmt_time t Ht) at 2. reflexivity.
Qed.

Lemma read_current v rest : bytes_ok v → length v = 32%nat → length sc = 32%nat →
  P (PState (Consensus va fu vu rl sg sc sp W) false cur) ((str "shared-rand-current-value " ++ enc v ++ [10]) ++ rest) =
  P (PState (Consensus va fu vu rl sg v sp W) false cur) rest.
Proof.
  intros Hv Hl Hs. pose proof (length_enc32 enc dec _ Hl) as He. apply parse_text; [by repeat constructor|apply enc_plain|str_lengths; lia|].
  transitivity (read_srv dec sc (enc v) (λ v, PState (Consensus va fu vu rl sg v sp W) false cur)); [reflexivity|].
  unfold read_srv. by rewrite b64dec_enc.
Qed.

Lemma read_previous v rest : bytes_ok v → length v = 32%nat → length sp = 32%nat →
  P (PState (Consensus va fu vu rl sg sc sp W) false cur) ((str "shared-rand-previous-value " ++ enc v ++ [10]) ++ rest) =
  P (PState (Consensus va fu vu rl sg sc v W) false cur) rest.
Proof.
  intros Hv Hl Hs. pose proof (length_enc32 enc dec _ Hl) as He. apply parse_text; [by repeat constructor|apply enc_plain|str_lengths; lia|].
  transitivity (read_srv dec sp (enc v) (λ v, PState (Consensus va fu vu rl sg sc v W) false cur)); [reflexivity|].
  unfold read_srv. by rewrite b64dec_enc.
Qed.

End Header.

(** Lines that change nothing. *)
Lemma read_ignored st l rest : Forall plain l → Z.of_nat (length l) <= 8190 → parse_line dec stack l st = Next st →
  P st ((l ++ [10]) ++ rest) = P st rest.
Proof. intros Hp Hl H. rewrite <- app_assoc. by apply parse_one. Qed.

(** What the header carries of a consensus. *)
Record header_ok (cons : moor_consensus_t) : Prop := {
  h_times : 0 <= valid_after cons < TIME_MAX ∧ 0 <= fresh_until cons < TIME_MAX ∧ 0 <= valid_until cons < TIME_MAX;
  h_current : bytes_ok (srv_current cons) ∧ length (srv_current cons) = 32%nat;
  h_previous : bytes_ok (srv_previous cons) ∧ length (srv_previous cons) = 32%nat;
}.

Lemma read_header cons va fu vu rl sg W rest : header_ok cons →
  P (PState (Consensus va fu vu rl sg (zeros 32) (zeros 32) W) false None) (header_text enc cons ++ rest) =
  P (PState (Consensus (valid_after cons) (fresh_until cons) (valid_until cons) rl sg (srv_current cons) (srv_previous cons) W) false None) rest.
Proof.
  intros [(H1 & H2 & H3) [H4 H5] [H6 H7]]. unfold header_text. do 6 rewrite <- (app_assoc _ _ rest).
  rewrite read_ignored by (by repeat constructor).
  rewrite read_valid_after, read_fresh_until, read_valid_until by done.
  rewrite read_ignored by (by repeat constructor). by rewrite read_current, read_previous by done.
Qed.

(** ** The weights *)

Lemma scan_more_weights_words names W s :
  Forall (λ nm, match nm with [] => False | c :: _ => isspace c = false end) names → length W = length names →
  Forall is_int32 W → no_digit s →
  scan_more_weights names (concat (map (λ w, 32 :: w) (zip_with (λ nm w, nm ++ print_d w) names W)) ++ s) = Some (W, s).
Proof.
  intros HN. revert W. induction HN as [|nm names Hnm HN IH]; intros [|w W] Hl HW Hs; try done.
  apply Forall_cons in HW as [Hw HW]. destruct nm as [|x nm]; [done|]. injection Hl as Hl.
  cbn [zip_with map concat scan_more_weights app]. rewrite <- !app_assoc. rewrite (ws_lits _ x nm) by done.
  change (print_d w) with (print_0d 0 w). rewrite step_d; [|done|by destruct names, W].
  by rewrite (reader_step _ _ _ _ _ (IH W Hl HW Hs)).
Qed.

Lemma scan_weights_words nm names w W :
  Forall (λ nm, match nm with [] => False | c :: _ => isspace c = false end) names → length W = length names →
  is_int32 w → Forall is_int32 W →
  scan_weights (nm :: names) (drop 1 (concat (map (λ w, 32 :: w) (zip_with (λ nm w, nm ++ print_d w) (nm :: names) (w :: W))))) = Some (w :: W, []).
Proof.
  intros HN Hl Hw HW. cbn [zip_with map concat drop app]. unfold scan_weights. rewrite drop_0, <- app_assoc, step_lits.
  change (print_d w) with (print_0d 0 w). rewrite step_d; [|done|by destruct names, W].
  rewrite <- (app_nil_r (concat _)).
  by rewrite (reader_step _ _ _ _ _ (scan_more_weights_words names W [] HN Hl HW I)).
Qed.

Lemma weights_plain W : length W = 8%nat → Forall is_int32 W →
  Forall plain (concat (map (λ w, 32 :: w) (weight_words W))).
Proof.
  intros Hl HW. assert (HP : ∀ w, is_int32 w → Forall plain (print_d w)).
  { intros w Hw. unfold print_d, print_0d, pad_zeros, is_int32 in *. cbn [Nat.sub replicate app].
    destruct (Z.ltb_spec w 0); [constructor; [done|]|]; apply digits_plain; unfold is_u64; lia. }
  assert (HN : Forall (Forall plain) weight_names) by (repeat constructor; done).
  unfold weight_words. revert W Hl HW. assert (Hgen : ∀ W, Forall is_int32 W →
    Forall plain (concat (map (λ w, 32 :: w) (zip_with (λ nm w, nm ++ print_d w) weight_names W)))).
  { induction HN as [|nm names Hnm _ IH]; intros [|w W] HW; try done. apply Forall_cons in HW as [Hw HW]. cbn.
    constructor; [done|]. apply Forall_app. split; [apply Forall_app; auto|by apply IH]. }
  auto.
Qed.

Lemma read_weights va fu vu rl sg sc sp W0 cur W rest : length W = 8%nat → Forall is_int32 W →
  P (PState (Consensus va fu vu rl sg sc sp W0) false cur) (weights_line W ++ rest) =
  P (PState (Consensus va fu vu rl sg sc sp W) false cur) rest.
Proof.
  intros Hl HW. pose proof (length_weights W Hl HW) as Hwl.
  apply parse_text; [by repeat constructor|by apply weights_plain|revert Hwl; unfold weights_line; str_lengths; lia|].
  assert (Hs : scan_weights weight_names (drop 1 (concat (map (λ w, 32 :: w) (weight_words W)))) = Some (W, [])).
  { destruct W as [|w W]; [done|]. apply Forall_cons in HW as [Hw HW]. injection Hl as Hl.
    apply (scan_weights_words (str "Wgg=")); [by repeat constructor|done..]. }
  destruct W as [|w W]; [done|].
  transitivity (match scan_weights weight_names (drop 1 (concat (map (λ w, 32 :: w) (weight_words (w :: W))))) with
    | Some (W, _) => Next (PState (Consensus va fu vu rl sg sc sp W) false cur)
    | None => Next (PState (Consensus va fu vu rl sg sc sp W0) false cur) end); [by destruct cur|by rewrite Hs].
Qed.

Lemma read_footer c cur rest :
  P (PState c false cur) ((str "directory-footer" ++ [10]) ++ rest) = P (PState c true None) rest.
Proof.
  rewrite <- app_assoc. apply parse_one; [split; [by repeat constructor|done]|]. by destruct cur.
Qed.

(** ** Signatures *)

Record sig_text_ok (sg : da_sig) : Prop := {
  st_arrays : sig_arrays_ok sg;
  st_signature : bytes_ok (sig_signature sg);
  st_identity : bytes_ok (sig_identity_pk sg);
  st_pq_signature : bytes_ok (sig_pq_signature sg);
  st_pq_pk : bytes_ok (sig_pq_pk sg);
}.

(** The signature that is read back. *)
Definition plain_sig (sg : da_sig) : da_sig :=
  DaSig (sig_signature sg) (sig_identity_pk sg) (zeros MOOR_MLDSA_SIG_LEN) (zeros MOOR_MLDSA_PK_LEN) 0.
Definition textual_sig (sg : da_sig) : da_sig :=
  if pq_sig sg then DaSig (sig_signature sg) (sig_identity_pk sg) (sig_pq_signature sg) (sig_pq_pk sg) 1 else plain_sig sg.

Definition add_sig (sg : da_sig) (c : moor_consensus_t) : moor_consensus_t := {| c with da_sigs := da_sigs c ++ [sg] |}.

Lemma scan_s_ws {A} (k : bytes → reader A) n s : (scan_s n ≫= k) (32 :: s) = (scan_s n ≫= k) s.
Proof. reflexivity. Qed.

Lemma nonempty_length {A} (l : list A) n : length l = S n → l ≠ [].
Proof. by destruct l. Qed.

Lemma parse_sig_line c sg :
  length stack = 32%nat → sig_text_ok sg → Z.of_nat (length (da_sigs c)) < MOOR_MAX_DA_AUTHORITIES →
  sig_identity_pk sg ∉ da_pks c →
  parse_line dec stack (str "directory-signature " ++ enc (sig_identity_pk sg) ++ [32] ++ enc (sig_signature sg)) (PState c true None) =
  Next (PState (add_sig (plain_sig sg) c) true None).
Proof.
  intros Hst [[H1 H2 _ _] Hb1 Hb2 _ _] Hn Hnew.
  transitivity (Next (PState (add_signature dec stack (str "directory-signature " ++ enc (sig_identity_pk sg) ++ [32] ++ enc (sig_signature sg)) c) true None)); [reflexivity|].
  unfold add_signature. replace (MOOR_MAX_DA_AUTHORITIES <=? Z.of_nat (length (da_sigs c))) with false by lia.
  change (drop 19 (str "directory-signature " ++ ?x)) with (32 :: x).
  rewrite scan_s_ws. pose proof (length_enc32 enc dec _ H2). pose proof (length_enc64 enc dec _ H1).
  rewrite step_s; [|by eapply nonempty_length|apply enc_nonspace|lia|done]. cbn [app]. rewrite ws_scan_s.
  rewrite <- (app_nil_r (enc (sig_signature sg))). rewrite step_s; [|by eapply nonempty_length|apply enc_nonspace|lia|done].
  unfold mret, reader_ret. rewrite !b64dec_enc by (done || by rewrite length_zeros). cbn [fst].
  replace (existsb (bytes_eqb (sig_identity_pk sg)) (da_pks c)) with false; [done|].
  symmetry. apply not_true_iff_false. rewrite existsb_exists. intros (x & Hx & Heq%bytes_eqb_eq). subst x.
  by apply Hnew, list_elem_of_In.
Qed.

(** The three lines of a post-quantum signature, for the entry that was just added. *)
Lemma find_index_last l x : x ∉ l → find_index (bytes_eqb x) (l ++ [x]) = Some (length l).
Proof.
  intros Hx. apply (find_index_intro _ _ _ x); [by rewrite list_lookup_middle|apply bytes_eqb_refl|].
  intros j y Hj Hy. apply bytes_eqb_neq. intros ->. apply Hx. rewrite lookup_app_l in Hy by done. by eapply list_elem_of_lookup_2.
Qed.

Lemma parse_pq_line c sg l :
  length stack = 32%nat → sig_text_ok sg → sig_identity_pk sg ∉ da_pks c → sig_identity_pk l = sig_identity_pk sg →
  parse_line dec stack (str "pq-directory-signature " ++ enc (sig_identity_pk sg)) (PState (add_sig l c) true None) =
  PqFollows (length (da_sigs c)).
Proof.
  intros Hst [[H1 H2 _ _] _ Hb2 _ _] Hnew Hid.
  transitivity (match find_signature dec stack (str "pq-directory-signature " ++ enc (sig_identity_pk sg)) (add_sig l c) with
    | Some i => PqFollows i | None => Next (PState (add_sig l c) true None) end); [reflexivity|].
  unfold find_signature. change (drop 22 (str "pq-directory-signature " ++ ?x)) with (32 :: x).
  pose proof (length_enc32 enc dec _ H2) as He.
  assert (Hs : scan_s 63 (32 :: enc (sig_identity_pk sg)) = Some (enc (sig_identity_pk sg), [])).
  { change (scan_s 63 (32 :: enc (sig_identity_pk sg))) with (scan_s 63 (enc (sig_identity_pk sg))).
    rewrite <- (app_nil_r (enc _)) at 1. apply scan_s_app; [by eapply nonempty_length|apply enc_nonspace|lia|done]. }
  rewrite Hs, b64dec_enc by done. unfold add_sig, da_pks. cbn [fst da_sigs]. rewrite fmap_app. cbn [fmap list_fmap]. rewrite Hid.
  by rewrite find_index_last, length_fmap.
Qed.

Lemma read_sig c sg rest :
  length stack = 32%nat → sig_text_ok sg → Z.of_nat (length (da_sigs c)) < MOOR_MAX_DA_AUTHORITIES → sig_identity_pk sg ∉ da_pks c →
  P (PState c true None) (sig_text enc sg ++ rest) = P (PState (add_sig (textual_sig sg) c) true None) rest.
Proof.
  intros Hst Hok Hn Hnew. pose proof (st_arrays sg Hok) as [H1 H2 H3 H4]. pose proof Hok as [_ Hb1 Hb2 Hb3 Hb4].
  pose proof (length_enc32 enc dec _ H2). pose proof (length_enc64 enc dec _ H1).
  pose proof (length_enc enc dec _ _ 4412 H3 eq_refl). pose proof (length_enc enc dec _ _ 2604 H4 eq_refl).
  unfold sig_text. rewrite <- app_assoc. unfold sig_line.
  replace (enc (sig_identity_pk sg) ++ [32] ++ enc (sig_signature sg) ++ [10]) with ((enc (sig_identity_pk sg) ++ [32] ++ enc (sig_signature sg)) ++ [10])
    by (by rewrite <- !app_assoc).
  rewrite (parse_text _ _ _ _ (PState (add_sig (plain_sig sg) c) true None));
    [|by repeat constructor|apply Forall_app; split; [apply enc_plain|constructor; [done|apply enc_plain]]|str_lengths; lia|by apply parse_sig_line].
  unfold textual_sig. destruct (pq_sig sg); [|done]. unfold pq_sig_line. rewrite <- !app_assoc. rewrite (app_assoc (str _)).
  rewrite split_lines_app by (apply Forall_app; split; [by repeat constructor|apply enc_plain]).
  cbn [parse_lines]. rewrite line_of_app; [|split; [apply Forall_app; split; [by repeat constructor|apply enc_plain]|str_lengths; lia]].
  rewrite parse_pq_line by done. rewrite !split_lines_app by apply enc_plain.
  rewrite !line_of_app by (split; [apply enc_plain|lia]).
  unfold set_sig, set_cons, add_sig. cbn [ps_cons ps_footer ps_current da_sigs]. rewrite !alter_last.
  unfold set_pq_pk, set_pq_sig, plain_sig. cbn [sig_pq_pk sig_pq_signature sig_signature sig_identity_pk].
  rewrite !b64dec_enc by (done || apply length_zeros). done.
Qed.

Lemma read_sigs c l :
  length stack = 32%nat → Forall sig_text_ok l → Z.of_nat (length (da_sigs c) + length l) <= MOOR_MAX_DA_AUTHORITIES →
  NoDup (da_pks c ++ (sig_identity_pk <$> l)) →
  P (PState c true None) (concat (map (sig_text enc) l)) =
  Some (PState {| c with da_sigs := da_sigs c ++ (textual_sig <$> l) |} true None).
Proof.
  intros Hst HF. revert c. induction HF as [|sg l Hsg _ IH]; intros c Hn Hnd.
  - cbn. rewrite app_nil_r. by destruct c.
  - cbn [map concat length fmap list_fmap] in *. rewrite read_sig; [|done|done|lia|].
    2: { intros Hin. apply NoDup_app in Hnd as (_ & Hd & _). by apply (Hd _ Hin); left. }
    rewrite IH; unfold add_sig, da_pks in *; cbn [da_sigs].
    + rewrite <- app_assoc. by destruct c.
    + rewrite length_app. cbn [length]. lia.
    + rewrite fmap_app, <- app_assoc. cbn. replace (sig_identity_pk (textual_sig sg)) with (sig_identity_pk sg); [done|].
      unfold textual_sig. by destruct (pq_sig sg).
Qed.

(** ** The document *)

(** What the document carries of a consensus, apart from its relays. *)
Record doc_ok (cons : moor_consensus_t) : Prop := {
  k_arrays : cons_arrays_ok cons;
  k_header : header_ok cons;
  k_after : valid_after cons ≠ 0;
  k_relays : num_relays_of cons <= MOOR_MAX_RELAYS;
  k_sigs : Forall sig_text_ok (da_sigs cons);
  k_num_sigs : Z.of_nat (length (da_sigs cons)) <= MOOR_MAX_DA_AUTHORITIES;
  k_distinct : NoDup (da_pks cons);
}.

(** The consensus that is read back, with its relays. *)
Definition textual_with (rl : list moor_node_descriptor_t) (cons : moor_consensus_t) : moor_consensus_t :=
  Consensus (valid_after cons) (fresh_until cons) (valid_until cons) rl (textual_sig <$> da_sigs cons)
    (srv_current cons) (srv_previous cons) (bw_weights cons).

Lemma read_document c0 cons rl :
  length stack = 32%nat → doc_ok cons →
  (∀ c rest, relays c = [] → ∃ cur', P (PState c false None) (concat (map (relay_text enc) (relays cons)) ++ rest) =
    P (PState {| c with relays := rl |} false cur') rest) →
  moor_consensus_deserialize dec stack c0 (document enc cons) = Some (textual_with rl cons).
Proof.
  intros Hst [Ha Hh Hva _ Hs Hn Hd] HR. destruct Ha as [_ _ _ _ [Hw Hw']].
  unfold moor_consensus_deserialize.
  assert (Hlen : (20 <= length (document enc cons))%nat).
  { unfold document, header_text. rewrite !length_app. change (length (str "moor-consensus 1")) with 16%nat.
    change (length (str "directory-footer")) with 16%nat. lia. }
  replace (Z.of_nat (length (document enc cons)) <? 20) with false by (symmetry; apply Z.ltb_ge; lia).
  replace (Z.of_nat (length (document enc cons)) <? 17) with false by (symmetry; apply Z.ltb_ge; lia).
  change (prefix (str "moor-consensus") (document enc cons)) with true. cbn [orb negb].
  unfold document. rewrite read_header by done.
  edestruct HR as [cur' ->]; [done|]. rewrite read_weights by done. rewrite read_footer.
  replace (sigs_written cons) with (da_sigs cons) by (unfold sigs_written; rewrite take_ge; [done|unfold MOOR_MAX_DA_AUTHORITIES in *; lia]).
  rewrite read_sigs; [|done|done|cbn [da_sigs length]; lia|done]. cbn [ps_cons valid_after].
  by replace (valid_after cons =? 0) with false by lia.
Qed.

End Read.

(** ** Readers accept what authorities sign *)

Definition textual_cons (cons : moor_consensus_t) : moor_consensus_t := textual_with (textual <$> relays cons) cons.

Lemma body_relays_ext l l' : ∀ off sz,
  identity_pk <$> l = identity_pk <$> l' → bandwidth <$> l = bandwidth <$> l' → body_relays off sz l = body_relays off sz l'.
Proof.
  revert l'. induction l as [|d l IH]; intros [|d' l'] off sz Hi Hb; try done. cbn [fmap list_fmap] in *.
  injection Hi as Hi1 Hi2. injection Hb as Hb1 Hb2. cbn. by rewrite Hi1, Hb1, (IH l') by done.
Qed.

Lemma textual_sig_accepted hash edv mlv body sg k : sig_accepted hash edv mlv body (textual_sig sg) k = sig_accepted hash edv mlv body sg k.
Proof.
  unfold sig_accepted, textual_sig. destruct (pq_sig sg) eqn:E.
  - by unfold pq_sig at 1 2; cbn [sig_has_pq sig_signature sig_identity_pk sig_pq_pk sig_pq_signature Z.eqb negb].
  - by unfold pq_sig at 1 2; cbn [plain_sig sig_has_pq sig_signature sig_identity_pk Z.eqb negb].
Qed.

Lemma verify_loop_textual hash edv mlv body keys sigs : ∀ v counted,
  verify_loop hash edv mlv body keys (textual_sig <$> sigs) v counted = verify_loop hash edv mlv body keys sigs v counted.
Proof.
  assert (Hc : ∀ sg ks j cnt, credit hash edv mlv body (textual_sig sg) ks j cnt = credit hash edv mlv body sg ks j cnt).
  { intros sg ks. induction ks as [|k ks IH]; intros j cnt; [done|]. cbn. rewrite textual_sig_accepted, !IH.
    replace (sig_identity_pk (textual_sig sg)) with (sig_identity_pk sg) by (unfold textual_sig; by destruct (pq_sig sg)). done. }
  induction sigs as [|sg sigs IH]; intros v cnt; [done|]. cbn. rewrite Hc. destruct (credit _ _ _ _ _ _ _ _) as [[ok cnt']|]; [apply IH|done].
Qed.

Lemma textual_accepted hash edv mlv now keys cons :
  client_accepts hash edv mlv now keys (textual_cons cons) = client_accepts hash edv mlv now keys cons.
Proof.
  unfold client_accepts, moor_consensus_verify_hybrid, consensus_body_build, num_relays_of.
  cbn [textual_cons textual_with valid_after fresh_until valid_until relays da_sigs]. rewrite length_fmap.
  rewrite (body_relays_ext (textual <$> relays cons) (relays cons)) by (by rewrite <- list_fmap_compose).
  destruct (body_relays _ _ _) as [b|]; [|done]. by rewrite verify_loop_textual.
Qed.


(** ** A space in a nickname *)

(** The nickname has a second word. *)
Definition spaced (r : moor_node_descriptor_t) : Prop :=
  ∃ x y, cstr (nickname r) = x ++ 32 :: y ∧ x ≠ [] ∧ Forall (λ c, isspace c = false) x ∧
    match y with [] => False | c :: _ => isspace c = false end.

Lemma length_span_max p n y c s : p c = false → (length (fst (span_max p n (y ++ c :: s))) <= length y)%nat.
Proof.
  intros Hc. revert n. induction y as [|a y IH]; intros [|n]; cbn; try lia.
  - by rewrite Hc.
  - destruct (p a); [|cbn; lia]. specialize (IH n). destruct (span_max p n (y ++ c :: s)). cbn in *. lia.
Qed.

Lemma length_second_word n y s t r :
  match y with [] => False | c :: _ => isspace c = false end →
  scan_s n (y ++ 32 :: s) = Some (t, r) → (length t <= length y)%nat.
Proof.
  intros Hy. unfold scan_s. destruct y as [|c y]; [done|]. rewrite (reader_step ws _ _ tt ((c :: y) ++ 32 :: s)).
  2: { unfold ws. cbn. by rewrite Hy. }
  unfold token. pose proof (length_span_max (λ c, negb (isspace c)) n (c :: y) 32 s eq_refl) as Hl.
  destruct (span_max _ n _) as [[|a w] z]; [done|]. intros [= <- <-]. exact Hl.
Qed.

(** The identity of a relay that is read with the second word as its key. *)
Lemma spaced_scan r enc x y n s :
  match y with [] => False | c :: _ => isspace c = false end → x ≠ [] → Forall (λ c, isspace c = false) x → (length x <= 63)%nat →
  scan_n ((x ++ 32 :: y) ++ n_rest enc r) = Some (n, s) → (length (nf_id n) <= length y)%nat.
Proof.
  intros Hy Hx Hns Hl. unfold scan_n. rewrite <- app_assoc. cbn [app]. rewrite step_s, ws_scan_s by done.
  unfold n_rest. unfold mbind at 1, reader_bind at 1. destruct (scan_s 63 _) as [[t z]|] eqn:E; [|done].
  apply length_second_word in E; [|done]. unfold mbind, reader_bind, mret, reader_ret. intros H.
  repeat case_match; simplify_eq. exact E.
Qed.

Lemma spaced_identity enc dec r :
  Base64 enc dec → arrays_ok r → spaced r →
  let d := relay_of_n_line dec (str "n " ++ shown_name r ++ n_rest enc r) in blank d ∧ drop 22 (identity_pk d) = zeros 10.
Proof.
  intros HB Hr (x & y & E & Hx & Hns & Hy) d. pose proof (length_chars _ _ (ar_nickname r Hr)) as Hl.
  rewrite E, length_app in Hl. cbn [length] in Hl.
  assert (Hs : shown_name r = x ++ 32 :: y).
  { unfold shown_name. rewrite <- E. destruct (nickname r) as [|c l]; [by destruct x|]. cbn in *. by destruct (c =? 0); [destruct x|]. }
  unfold d, relay_of_n_line. change (drop 2 (str "n " ++ ?z)) with z. rewrite Hs.
  destruct (scan_n _) as [[n s]|] eqn:En; [|by split]. split; [done|]. cbn [identity_pk].
  apply spaced_scan in En; [|done|done|done|lia]. unfold b64dec. destruct (b64_bound (Base64 := HB) 32 (nf_id n)) as [_ Hb].
  destruct (dec 32%nat (nf_id n)) as [w ok]. cbn [fst] in *. unfold blit. rewrite take_0. cbn [app].
  destruct x as [|? x]; [done|]. cbn [length] in Hl. assert (length w <= 22)%nat by lia. rewrite drop_app_ge by lia.
  unfold zeros. rewrite !drop_replicate. f_equal. lia.
Qed.

(** The relay that readers get. *)
Definition misread (enc : bytes → bytes) (dec : nat → bytes → bytes * bool) (r : moor_node_descriptor_t) : moor_node_descriptor_t :=
  fill (relay_of_n_line dec (str "n " ++ shown_name r ++ n_rest enc r)) r.

Lemma read_spaced enc dec stack c cur r rest :
  Base64 enc dec → num_relays_of c < MOOR_MAX_RELAYS → arrays_ok r → n_ok r → rest_ok r → spaced r → Forall plain (cstr (nickname r)) →
  parse_lines dec stack (PState c false cur) (split_lines (relay_text enc r ++ rest)) =
  parse_lines dec stack (reading c (misread enc dec r)) (split_lines rest).
Proof.
  intros HB Hn Hr Hok Hrest Hsp Hp. destruct (spaced_identity enc dec r HB Hr Hsp) as [Hbl _].
  unfold relay_text. fold (rest_text enc r). rewrite <- app_assoc. unfold misread. rewrite <- (read_rest enc dec stack c _ r rest) by done.
  pose proof (length_n_line enc dec r Hr) as Hnl. rewrite n_line_eq in *. apply parse_text.
  - by repeat constructor.
  - apply Forall_app. split; [|by apply (n_rest_plain enc dec)]. unfold shown_name. destruct (nonempty _); [done|by repeat constructor].
  - revert Hnl. str_lengths. lia.
  - by rewrite parse_n.
Qed.

Lemma misread_identity enc dec r : Base64 enc dec → arrays_ok r → spaced r →
  drop 22 (identity_pk (misread enc dec r)) = zeros 10 ∧ length (identity_pk (misread enc dec r)) = 32%nat.
Proof.
  intros HB Hr Hsp. destruct (spaced_identity enc dec r HB Hr Hsp) as [_ Hid]. split; [exact Hid|].
  pose proof (f_equal length Hid) as Hl. rewrite length_drop in Hl. cbn in Hl. cbn. lia.
Qed.

Lemma read_relays_spaced enc dec stack c l1 r l2 rest :
  Base64 enc dec → relays c = [] → Z.of_nat (length l1 + S (length l2)) <= MOOR_MAX_RELAYS → Forall text_ok l1 → Forall text_ok l2 →
  arrays_ok r → n_ok r → rest_ok r → spaced r → Forall plain (cstr (nickname r)) →
  ∃ cur', parse_lines dec stack (PState c false None) (split_lines (concat (map (relay_text enc) (l1 ++ r :: l2)) ++ rest)) =
    parse_lines dec stack (PState {| c with relays := (textual <$> l1) ++ misread enc dec r :: (textual <$> l2) |} false cur') (split_lines rest).
Proof.
  intros HB Hc Hmax HF1 HF2 Hr Hn Hrest Hsp Hp. rewrite map_app, concat_app, <- app_assoc. cbn [map concat].
  edestruct (read_relays enc dec stack c None l1) as [cur1 ->]; [unfold num_relays_of; rewrite Hc; cbn [length]; lia|done|].
  rewrite Hc. cbn [app]. rewrite <- app_assoc, read_spaced; [|done| |done..].
  2: { unfold num_relays_of. cbn [relays]. rewrite length_fmap. lia. }
  unfold reading. cbn [relays].
  edestruct (read_relays enc dec stack) as [cur2 ->]; [|exact HF2|].
  { unfold num_relays_of. cbn [relays]. rewrite length_app, length_fmap. cbn [length]. lia. }
  exists cur2. cbn [relays]. rewrite <- app_assoc. by destruct c.
Qed.

(** The body determines the identities. *)
Lemma body_relays_some l : ∀ off sz, off + 40 * Z.of_nat (length l) <= sz → is_Some (body_relays off sz l).
Proof.
  induction l as [|d l IH]; intros off sz H; [by eexists|]. cbn [length] in H. cbn.
  replace (sz <? off + 40) with false by (symmetry; apply Z.ltb_ge; lia).
  destruct (IH (off + 40) sz) as [b ->]; [lia|]. by eexists.
Qed.

Lemma body_relays_inj l l' : ∀ off sz b, length l = length l' →
  Forall (λ d, length (identity_pk d) = 32%nat) l → Forall (λ d, length (identity_pk d) = 32%nat) l' →
  body_relays off sz l = Some b → body_relays off sz l' = Some b → identity_pk <$> l = identity_pk <$> l'.
Proof.
  revert l'. induction l as [|d l IH]; intros [|d' l'] off sz b Hl HF HF' H H'; try done.
  apply Forall_cons in HF as [Hd HF]. apply Forall_cons in HF' as [Hd' HF']. cbn [body_relays length fmap list_fmap] in *.
  destruct (sz <? off + 40); [done|]. destruct (body_relays (off + 40) sz l) as [b1|] eqn:E1; [|done].
  destruct (body_relays (off + 40) sz l') as [b2|] eqn:E2; [|done]. apply (inj Some) in H, H'. subst b.
  apply app_inj_1 in H' as [Hi Hrest]; [|lia]. apply app_inj_1 in Hrest as [_ <-]; [|by rewrite !length_be_put].
  rewrite Hi. f_equal. eapply IH; eauto.
Qed.

Lemma body_identities cons cons' :
  length (relays cons) = length (relays cons') → num_relays_of cons <= MOOR_MAX_RELAYS →
  Forall (λ d, length (identity_pk d) = 32%nat) (relays cons) → Forall (λ d, length (identity_pk d) = 32%nat) (relays cons') →
  consensus_body_build cons = consensus_body_build cons' → identity_pk <$> relays cons = identity_pk <$> relays cons'.
Proof.
  unfold consensus_body_build, num_relays_of, MOOR_MAX_RELAYS. intros Hl Hn HF HF'. rewrite <- Hl.
  rewrite u32_small by (unfold is_u32; lia). set (sz := Z.of_nat (length (relays cons)) * 48 + 64).
  destruct (body_relays_some (relays cons) 28 sz) as [b Hb]; [lia|].
  destruct (body_relays_some (relays cons') 28 sz) as [b' Hb']; [rewrite <- Hl; lia|].
  rewrite Hb, Hb'. intros H%(inj Some). apply app_inj_1 in H as [_ ->]; [|by rewrite !length_app, !length_be_put].
  eapply body_relays_inj; eauto.
Qed.

(** One relay with a space in its nickname makes the whole network reject the
    consensus: the document has a line in which the second word of the nickname stands
    where readers look for the relay's key, so that every reader computes a body other
    than the one the authorities signed. *)
Theorem nickname_space_changes_body enc dec stack c0 cons l1 r l2 :
  Base64 enc dec → length stack = 32%nat → doc_ok cons → relays cons = l1 ++ r :: l2 → Forall text_ok (l1 ++ l2) →
  arrays_ok r → n_ok r → rest_ok r → spaced r → Forall plain (cstr (nickname r)) → drop 22 (identity_pk r) ≠ zeros 10 →
  ∃ doc cons', moor_consensus_serialize enc (moor_consensus_wire_size cons) cons = Done doc ∧
    moor_consensus_deserialize dec stack c0 doc = Some cons' ∧ consensus_body_build cons' ≠ consensus_body_build cons.
Proof.
  intros HB Hst Hok Erl [HF1 HF2]%Forall_app Hr Hn Hrest Hsp Hp Hid.
  pose proof (k_relays cons Hok) as Hmax. pose proof (ca_relays cons (k_arrays cons Hok)) as HA.
  destruct (misread_identity enc dec r HB Hr Hsp) as [Hm Hm'].
  set (rl := (textual <$> l1) ++ misread enc dec r :: (textual <$> l2)).
  exists (document enc cons), (textual_with rl cons). split_and!.
  - by apply (serialize_document enc dec); [apply Hok|].
  - apply read_document; [done..|]. intros c rest Hc. rewrite Erl. apply read_relays_spaced; try done.
    unfold num_relays_of in Hmax. rewrite Erl, length_app in Hmax. exact Hmax.
  - intros E. apply body_identities in E; cbn [textual_with relays].
    + cbn [textual_with relays] in E. rewrite Erl in E. unfold rl in E. rewrite !fmap_app, !fmap_cons in E.
      apply app_inj_1 in E as [_ E]; [|by rewrite !length_fmap]. apply (f_equal (hd [])) in E. cbn [hd] in E. congruence.
    + unfold rl. rewrite Erl, !length_app. cbn [length]. by rewrite !length_fmap.
    + unfold num_relays_of, rl in *. cbn [relays textual_with]. rewrite Erl in Hmax. rewrite length_app in *. cbn [length] in *.
      rewrite !length_fmap. exact Hmax.
    + unfold rl. apply Forall_app. split; [|constructor; [done|]]; apply Forall_fmap; (eapply Forall_impl; [eassumption|]); intros d Hd; apply Hd.
    + eapply Forall_impl; [exact HA|]. intros d Hd. apply Hd.
Qed.

(** ** Examples *)

(** A relay with a country and a contact, and the consensus of the examples with it. *)
Definition example_relay (name : bytes) : moor_node_descriptor_t :=
  {| example_desc with nickname := strncpy_field 32 name; country_code := 21843; as_number := 64500;
     contact_info := strncpy_field 128 (str "ops at example") |}.
Definition example_sigs : list da_sig :=
  [DaSig (be_put 64 11) (replicate 32 1) (replicate MOOR_MLDSA_SIG_LEN 12) (replicate MOOR_MLDSA_PK_LEN 4) 1;
   DaSig (be_put 64 13) (replicate 32 2) (zeros MOOR_MLDSA_SIG_LEN) (zeros MOOR_MLDSA_PK_LEN) 0].
Definition example_doc (name : bytes) : moor_consensus_t :=
  {| example_consensus with relays := [example_relay name]; da_sigs := example_sigs |}.

Lemma bytes_ok_replicate n c : is_u8 c → bytes_ok (replicate n c).
Proof. intros H. by apply Forall_replicate. Qed.

Lemma example_arrays name : chars_ok 32 (strncpy_field 32 name) → arrays_ok (example_relay name).
Proof. intros Hn. split; try exact Hn; unfold chars_ok, is_u16, is_u32, is_u64; try done; split; done. Qed.

Lemma example_n_ok name : n_ok (example_relay name).
Proof. split; [by apply bytes_ok_replicate|done|]. split; [done|]. by repeat constructor. Qed.

Lemma example_rest_ok name : rest_ok (example_relay name).
Proof.
  split; try (by apply bytes_ok_replicate); try apply bytes_ok_zeros; try (by repeat constructor).
Qed.

Lemma example_doc_ok name : chars_ok 32 (strncpy_field 32 name) → doc_ok (example_doc name).
Proof.
  intros Hn. assert (HS : Forall sig_text_ok (da_sigs (example_doc name))).
  { cbn [example_doc example_consensus da_sigs]. unfold example_sigs.
    apply List.Forall_cons; [|apply List.Forall_cons; [|apply List.Forall_nil]]; (split; [split; by vm_compute|..]);
      first [apply be_put_ok|apply bytes_ok_zeros|by apply bytes_ok_replicate]. }
  split; try done.
  - split; [|eapply Forall_impl; [exact HS|]; intros sg Hs; apply Hs|done|done|].
    + constructor; [by apply example_arrays|constructor].
    + split; [done|]. apply Forall_replicate. done.
  - split; [done| |]; (split; [apply bytes_ok_zeros|done]).
  - apply (bool_decide_unpack _). vm_compute. exact I.
Qed.


Lemma nickname_space_changes_body_witness :
  ∃ doc cons', moor_consensus_serialize encode (moor_consensus_wire_size (example_doc (str "my relay"))) (example_doc (str "my relay")) = Done doc ∧
    moor_consensus_deserialize decode (zeros 32) moor_consensus_init doc = Some cons' ∧
    consensus_body_build cons' ≠ consensus_body_build (example_doc (str "my relay")).
Proof.
  assert (Hn : chars_ok 32 (strncpy_field 32 (str "my relay"))) by done.
  apply (nickname_space_changes_body encode decode (zeros 32) moor_consensus_init (example_doc (str "my relay")) [] (example_relay (str "my relay")) []).
  - exact base64.
  - reflexivity.
  - by apply example_doc_ok.
  - reflexivity.
  - constructor.
  - by apply example_arrays.
  - apply example_n_ok.
  - apply example_rest_ok.
  - exists (str "my"), (str "relay"). split_and!; [done|done|by repeat constructor|done].
  - by repeat constructor.
  - done.
Defined.
