(* ===== verification/Crypto.v ===== *)
(** * Crypto: key derivation, sealed messages, blinded keys, base32 and key files

    Models [src/src/crypto.c] and the wrapper [src/src/kem.c]. The primitives of
    libsodium (BLAKE2b, SHA-512, the key derivation function, ChaCha20-Poly1305, the
    scalar and point operations of Ed25519) and ML-KEM are parameters; what the
    theorems use of them is their documentation. Intermediate secrets are wiped by the
    code when they are no longer used, which no result depends on.

    The theorems show that base32 decodes what it encodes, that sealed messages open,
    that the blinded public key a client derives is the one the service can sign for,
    that keys survive being saved and loaded, and that a key file of an older format is
    accepted once and refused at the next start. *)

From Stdlib Require Import String.
From S2P Require Import Prelude Wire Text Onion.

Local Open Scope Z_scope.

Definition MOOR_KEM_CT_LEN : nat := 1088.
Definition MOOR_PQ_SEAL_AEAD_TAG : nat := 16.

(** ** Key derivation *)

Section Kdf.
  Context (hash : bytes → bytes).
  Context (kdf : bytes → Z → bytes → bytes).

(** A pad of 128 equal bytes into which the key is XORed at the front. *)
Definition hmac_pad (b : Z) (key : bytes) : bytes :=
  xor_bytes (replicate 32 b) key ++ replicate 96 b.

Definition hmac_blake2b (key data : bytes) : bytes :=
  hash (hmac_pad 92 key ++ hash (hmac_pad 54 key ++ data)).

Definition moor_crypto_hkdf (chaining_key ikm : bytes) : bytes * bytes :=
  let temp_key := hmac_blake2b chaining_key ikm in
  let out1 := hmac_blake2b temp_key [1] in
  (out1, hmac_blake2b temp_key (out1 ++ [2])).

Definition moor_crypto_link_rekey (chaining_key : bytes) (epoch : Z) : bytes :=
  hmac_blake2b chaining_key (str "moor link rekey" ++ be_put 8 epoch ++ [1]).

(** The keys of a link, sending and receiving. *)
Definition moor_crypto_kx_pq (kem_shared : bytes) (is_client : bool) : bytes * bytes :=
  let hybrid := hash kem_shared in
  (kdf hybrid (if is_client then 0 else 1) (str "moorlink"),
   kdf hybrid (if is_client then 1 else 0) (str "moorlink")).

(** The keys and digests of a hop: forward and backward key, forward and backward
    digest. *)
Definition moor_crypto_circuit_kx_pq (kem_shared : bytes) : bytes * bytes * bytes * bytes :=
  let hybrid := hash kem_shared in
  (kdf hybrid 1 (str "moorFWD!"), kdf hybrid 2 (str "moorBWD!"),
   kdf hybrid 3 (str "moorFDG!"), kdf hybrid 4 (str "moorBDG!")).
End Kdf.

(** ** Sealed messages *)

Section Seal.
  Context (kdf : bytes → Z → bytes → bytes).
  Context (aead_encrypt : bytes → bytes → bytes → bytes → option bytes).
  Context (aead_decrypt : bytes → bytes → bytes → bytes → option bytes).
  Context (kem_encapsulate : bytes → bytes → option (bytes * bytes)).
  Context (kem_decapsulate : bytes → bytes → option bytes).

Definition moor_crypto_aead_encrypt (pt ad key : bytes) (nonce : Z) : option bytes :=
  aead_encrypt pt ad (nonce_buf nonce) key.

Definition moor_crypto_aead_decrypt (ct ad key : bytes) (nonce : Z) : option bytes :=
  aead_decrypt ct ad (nonce_buf nonce) key.

(** [coins] is the randomness of the encapsulation. *)
Definition moor_crypto_pq_seal (coins pt recipient_kem_pk : bytes) : option bytes :=
  match kem_encapsulate coins recipient_kem_pk with
  | None => None
  | Some (kem_ct, kem_ss) =>
      let aead_key := kdf kem_ss 0 (str "moorSEAL") in
      match moor_crypto_aead_encrypt pt [] aead_key 0 with
      | None => None
      | Some aead_ct =>
          if negb (Z.of_nat (length aead_ct) =? Z.of_nat (length pt) + Z.of_nat MOOR_PQ_SEAL_AEAD_TAG) then None
          else Some (kem_ct ++ aead_ct)
      end
  end.

Definition moor_crypto_pq_seal_open (ct recipient_kem_sk : bytes) : option bytes :=
  if Z.of_nat (length ct) <? Z.of_nat MOOR_KEM_CT_LEN + Z.of_nat MOOR_PQ_SEAL_AEAD_TAG then None else
  match kem_decapsulate (take MOOR_KEM_CT_LEN ct) recipient_kem_sk with
  | None => None
  | Some kem_ss =>
      let aead_key := kdf kem_ss 0 (str "moorSEAL") in
      moor_crypto_aead_decrypt (drop MOOR_KEM_CT_LEN ct) [] aead_key 0
  end.
End Seal.

(** ** Blinded keys of hidden services *)

Section Blind.
  Context (blake2b_512 sha512 : bytes → bytes) (hash : bytes → bytes).
  Context (scalar_reduce : bytes → bytes) (scalar_mul scalar_add : bytes → bytes → bytes).
  Context (scalarmult_base_noclamp : bytes → option bytes).
  Context (scalarmult_noclamp : bytes → bytes → option bytes).

Definition derive_blind_factor (identity_pk : bytes) (time_period : Z) : bytes :=
  scalar_reduce (blake2b_512 (str "moor-bpub" ++ identity_pk ++ le_put 8 time_period)).

Definition moor_crypto_blind_pk (identity_pk : bytes) (time_period : Z) : option bytes :=
  scalarmult_noclamp (derive_blind_factor identity_pk time_period) identity_pk.

(** [s[0] &= 248; s[31] &= 127; s[31] |= 64] *)
Definition clamp (s : bytes) : bytes :=
  <[31%nat := Z.lor (Z.land (byte_at 31 s) 127) 64]> (<[0%nat := Z.land (byte_at 0 s) 248]> s).

(** The blinded public key, and the secret key as a scalar and a nonce key. *)
Definition moor_crypto_blind_keypair (identity_pk identity_sk : bytes) (time_period : Z)
    : option (bytes * bytes) :=
  let factor := derive_blind_factor identity_pk time_period in
  match scalarmult_noclamp factor identity_pk with
  | None => None
  | Some blinded_pk =>
      let seed_hash := sha512 (take 32 identity_sk) in
      let identity_scalar := clamp (take 32 seed_hash) in
      let blinded_scalar := scalar_mul identity_scalar factor in
      let nonce_key := hash (slice 32 32 seed_hash ++ factor) in
      match scalarmult_base_noclamp blinded_scalar with
      | None => None
      | Some check_pk =>
          if bytes_eqb check_pk blinded_pk then Some (blinded_pk, blinded_scalar ++ nonce_key) else None
      end
  end.

Definition moor_crypto_sign_blinded (msg blinded_sk blinded_pk : bytes) : option bytes :=
  let scalar := take 32 blinded_sk in
  let nonce_key := drop 32 blinded_sk in
  let r := scalar_reduce (sha512 (nonce_key ++ msg)) in
  match scalarmult_base_noclamp r with
  | None => None
  | Some R =>
      let k := scalar_reduce (sha512 (R ++ blinded_pk ++ msg)) in
      let S := scalar_add r (scalar_mul k scalar) in
      Some (R ++ S)
  end.
End Blind.

(** ** Base32 *)

Definition b32_alphabet : bytes := str "abcdefghijklmnopqrstuvwxyz234567".
Definition b32_char (v : Z) : Z := byte_at (Z.to_nat v) b32_alphabet.

(** [while (bits >= 5)]: at most 12 bits are pending, so that three rounds are enough. *)
Fixpoint b32_emit (fuel : nat) (buffer bits : Z) : bytes * Z :=
  match fuel with
  | O => ([], bits)
  | S fuel =>
      if 5 <=? bits then
        let bits := bits - 5 in
        let c := b32_char (Z.land (Z.shiftr buffer bits) 31) in
        let '(out, bits) := b32_emit fuel buffer bits in (c :: out, bits)
      else ([], bits)
  end.

Fixpoint b32_encode_loop (data : bytes) (buffer bits : Z) : bytes :=
  match data with
  | [] => if 0 <? bits then [b32_char (Z.land (u32 (Z.shiftl buffer (5 - bits))) 31)] else []
  | b :: data =>
      let buffer := Z.lor (u32 (Z.shiftl buffer 8)) b in
      let '(out, bits) := b32_emit 3 buffer (bits + 8) in
      out ++ b32_encode_loop data buffer bits
  end.

(** The characters without the NUL; [size_t] has 64 bits. *)
Definition moor_base32_encode (out_len : Z) (data : bytes) : option bytes :=
  let data_len := Z.of_nat (length data) in
  if (UINT64_MAX - 4) / 8 <? data_len then None else
  let needed := (data_len * 8 + 4) / 5 in
  if out_len <? needed + 1 then None else Some (b32_encode_loop data 0 0).

(** The value of a character, [Some None] for padding. *)
Definition b32_value (c : Z) : option (option Z) :=
  if (97 <=? c) && (c <=? 122) then Some (Some (c - 97))
  else if (65 <=? c) && (c <=? 90) then Some (Some (c - 65))
  else if (50 <=? c) && (c <=? 55) then Some (Some (c - 50 + 26))
  else if c =? 61 then Some None
  else None.

Fixpoint b32_decode_loop (str : bytes) (buffer bits : Z) (room : Z) : option bytes :=
  match str with
  | [] => Some []
  | c :: str =>
      match b32_value c with
      | None => None
      | Some None => b32_decode_loop str buffer bits room
      | Some (Some val) =>
          let buffer := Z.lor (u32 (Z.shiftl buffer 5)) val in
          let bits := bits + 5 in
          if 8 <=? bits then
            let bits := bits - 8 in
            if room <=? 0 then None else
            out ← b32_decode_loop str buffer bits (room - 1);
            Some (u8 (Z.shiftr buffer bits) :: out)
          else b32_decode_loop str buffer bits room
      end
  end.

(** [str_len * 5] is computed in 64 bits. *)
Definition moor_base32_decode (out_len : Z) (s : bytes) : option bytes :=
  let needed := u64 (Z.of_nat (length s) * 5) / 8 in
  if out_len <? needed then None else b32_decode_loop s 0 0 out_len.

(** ** Key files *)

(** The files: path to contents. Opening, writing and renaming succeed. *)
Abbreviation files := (gmap (list Z) bytes).

Section KeyFiles.
  Context (blake2b_keyed : bytes → bytes → bytes).

Definition key_file_mac_base : bytes := str "moor-key-integrity----------" ++ zeros 4.

Definition derive_file_mac_key (path : bytes) : bytes := blake2b_keyed key_file_mac_base path.

Definition write_key_file (path data : bytes) (fs : files) : files :=
  <[path := data ++ blake2b_keyed (derive_file_mac_key path) data]> fs.

Definition rename (old new : bytes) (fs : files) : files :=
  match fs !! old with Some c => <[new := c]> (delete old fs) | None => fs end.

(** Writing a file again with a MAC, by way of a temporary file. *)
Definition resave_key_file (path data : bytes) (fs : files) : files :=
  let tmp_path := snprintf 4096 (path ++ str ".tmp") in
  rename tmp_path path (write_key_file tmp_path data fs).

(** The key read, if it is accepted, and the files afterwards. *)
Definition read_key_file (path : bytes) (len : nat) (fs : files) : option bytes * files :=
  match fs !! path with
  | None => (None, fs)
  | Some contents =>
      if 4096 + 32 <? Z.of_nat len + 32 then (None, fs) else
      let buf := take (len + 32) contents in
      let rd := length buf in
      let data := take len buf in
      if (rd =? len + 32)%nat then
        let mac := drop len buf in
        if bytes_eqb (blake2b_keyed (derive_file_mac_key path) data) mac then (Some data, fs)
        else if bytes_eqb (blake2b_keyed key_file_mac_base data) mac
        then (Some data, resave_key_file path data fs)
        else (None, fs)
      else if (rd =? len)%nat then (Some data, resave_key_file path data fs)
      else (None, fs)
  end.

(** [snprintf] into an array of [size] characters that must not truncate. *)
Definition fitting_path (size : Z) (path : bytes) : option bytes :=
  if size <=? Z.of_nat (length path) then None else Some path.

(** One key after the other; the first failure ends it. *)
Fixpoint save_keys (keys_dir : bytes) (keys : list (bytes * bytes)) (fs : files) : Z * files :=
  match keys with
  | [] => (0, fs)
  | (name, key) :: keys =>
      match fitting_path 576 (keys_dir ++ str "/" ++ name) with
      | None => (-1, fs)
      | Some path => save_keys keys_dir keys (write_key_file path key fs)
      end
  end.

Definition save_key_set (data_dir : bytes) (keys : list (bytes * bytes)) (fs : files) : Z * files :=
  match fitting_path 512 (data_dir ++ str "/keys") with
  | None => (-1, fs)
  | Some keys_dir => save_keys keys_dir keys fs
  end.

Fixpoint load_keys (data_dir : bytes) (keys : list (bytes * nat)) (fs : files) : option (list bytes) * files :=
  match keys with
  | [] => (Some [], fs)
  | (name, len) :: keys =>
      match fitting_path 576 (data_dir ++ str "/keys/" ++ name) with
      | None => (None, fs)
      | Some path =>
          match read_key_file path len fs with
          | (None, fs) => (None, fs)
          | (Some key, fs) => let '(rest, fs) := load_keys data_dir keys fs in (cons key <$> rest, fs)
          end
      end
  end.

Definition moor_keys_save (data_dir id_pk id_sk onion_pk onion_sk : bytes) (fs : files) : Z * files :=
  save_key_set data_dir
    [(str "identity_pk", id_pk); (str "identity_sk", id_sk); (str "onion_pk", onion_pk); (str "onion_sk", onion_sk)] fs.

Definition moor_keys_load (data_dir : bytes) (fs : files) : option (list bytes) * files :=
  load_keys data_dir
    [(str "identity_pk", 32%nat); (str "identity_sk", 64%nat); (str "onion_pk", 32%nat); (str "onion_sk", 32%nat)] fs.

Definition moor_pq_keys_save (data_dir pq_pk pq_sk : bytes) (fs : files) : Z * files :=
  save_key_set data_dir [(str "pq_identity_pk", pq_pk); (str "pq_identity_sk", pq_sk)] fs.

Definition moor_pq_keys_load (data_dir : bytes) (fs : files) : option (list bytes) * files :=
  load_keys data_dir [(str "pq_identity_pk", 1952%nat); (str "pq_identity_sk", 4032%nat)] fs.

Definition moor_falcon_keys_save (data_dir falcon_pk falcon_sk : bytes) (fs : files) : Z * files :=
  save_key_set data_dir [(str "falcon_identity_pk", falcon_pk); (str "falcon_identity_sk", falcon_sk)] fs.

Definition moor_falcon_keys_load (data_dir : bytes) (fs : files) : option (list bytes) * files :=
  load_keys data_dir [(str "falcon_identity_pk", 897%nat); (str "falcon_identity_sk", 1281%nat)] fs.
End KeyFiles.

(** ** Base32: what was encoded is decoded *)

(** The number that a sequence of digits of 5 bits stands for. *)
Definition b32_number (vs : list Z) : Z := fold_left (λ a v, a * 32 + v) vs 0.

Lemma b32_number_app vs ws : b32_number (vs ++ ws) = b32_number vs * 32 ^ Z.of_nat (length ws) + b32_number ws.
Proof.
  unfold b32_number. rewrite fold_left_app. generalize (fold_left (λ a v, a * 32 + v) vs 0). induction ws as [|w ws IH] using rev_ind.
  { intros a. cbn. lia. }
  intros a. rewrite !fold_left_app. cbn. rewrite IH, length_app. cbn. rewrite Nat2Z.inj_add, Z.pow_add_r by lia. lia.
Qed.

Lemma b32_value_char v : 0 <= v < 32 → b32_value (b32_char v) = Some (Some v).
Proof.
  intros Hv. assert (H : Forall (λ v, b32_value (b32_char v) = Some (Some v)) (map Z.of_nat (seq 0 32)))
    by (apply (bool_decide_unpack _); by vm_compute).
  rewrite Forall_forall in H. apply H. apply list_elem_of_In, in_map_iff. exists (Z.to_nat v). rewrite in_seq. lia.
Qed.

(** Pushing [w] new low bits into the 32-bit buffer keeps the [k] pending bits, for [k + w <= 32]. *)
Lemma buffer_push buffer w v k : 0 <= w → 0 <= k → k + w <= 32 → 0 <= v < 2 ^ w →
  Z.lor (u32 (Z.shiftl buffer w)) v mod 2 ^ (k + w) = (buffer mod 2 ^ k) * 2 ^ w + v.
Proof.
  intros Hw Hk Hkw Hv. unfold u32.
  assert (E : Z.shiftl buffer w mod 2 ^ 32 = Z.shiftl (buffer mod 2 ^ (32 - w)) w).
  { rewrite !Z.shiftl_mul_pow2 by lia. replace (2 ^ 32) with (2 ^ (32 - w) * 2 ^ w) by (rewrite <- Z.pow_add_r by lia; f_equal; lia).
    rewrite Z.mul_mod_distr_r; lia. }
  rewrite E, shiftl_lor_add by lia. rewrite Z.pow_add_r by lia.
  assert (0 < 2 ^ k ∧ 0 < 2 ^ w) as [? ?] by lia.
  rewrite (Z.mul_comm (2 ^ k)), Z.rem_mul_r by lia.
  rewrite (Z.add_comm (_ * 2 ^ w)), Z.mod_add, Z.div_add, (Z.div_small v), Z.mod_small by lia. rewrite Z.add_0_l.
  replace (2 ^ (32 - w)) with (2 ^ k * 2 ^ (32 - w - k)) by (rewrite <- Z.pow_add_r by lia; f_equal; lia).
  rewrite (Z.rem_mul_r buffer) by lia. rewrite (Z.mul_comm (2 ^ k)), Z.mod_add, Z.mod_mod by lia. lia.
Qed.

(** Taking the [w] highest of [bits + w] pending bits. *)
Lemma buffer_pop buffer w bits : 0 <= w → 0 <= bits →
  buffer mod 2 ^ (bits + w) = (Z.shiftr buffer bits mod 2 ^ w) * 2 ^ bits + buffer mod 2 ^ bits.
Proof.
  intros Hw Hb. rewrite Z.shiftr_div_pow2, Z.pow_add_r, Z.rem_mul_r by lia. lia.
Qed.

Definition b32_digits (vs : list Z) : Prop := Forall (λ v, 0 <= v < 32) vs.

Lemma b32_emit_spec fuel : ∀ buffer bits, 0 <= bits < 5 * Z.of_nat fuel + 5 →
  ∃ vs rest, b32_emit fuel buffer bits = (map b32_char vs, rest) ∧ b32_digits vs ∧ 0 <= rest < 5 ∧
    bits = 5 * Z.of_nat (length vs) + rest ∧
    buffer mod 2 ^ bits = b32_number vs * 2 ^ rest + buffer mod 2 ^ rest.
Proof.
  induction fuel as [|fuel IH]; intros buffer bits Hb; cbn [b32_emit].
  { exists [], bits. cbn. repeat split; try lia. constructor. }
  destruct (Z.leb_spec 5 bits).
  2:{ exists [], bits. cbn. repeat split; try lia. constructor. }
  destruct (IH buffer (bits - 5) ltac:(lia)) as (vs & rest & E & Hd & Hr & Hl & Hm). rewrite E.
  exists (Z.land (Z.shiftr buffer (bits - 5)) 31 :: vs), rest.
  change 31 with (Z.ones 5). rewrite Z.land_ones by lia. split; [done|].
  split; [constructor; [change 32 with (2 ^ 5); apply Z.mod_pos_bound; lia|done]|].
  split; [done|]. cbn [length]. split; [lia|].
  replace bits with ((bits - 5) + 5) at 1 by lia. rewrite buffer_pop by lia. rewrite Hm.
  rewrite (b32_number_app [_] vs : b32_number (_ :: vs) = _). change (b32_number [?x]) with (0 * 32 + x).
  replace (2 ^ (bits - 5)) with (32 ^ Z.of_nat (length vs) * 2 ^ rest)
    by (change 32 with (2 ^ 5); rewrite <- Z.pow_mul_r, <- Z.pow_add_r by lia; f_equal; lia).
  cbn [b32_number fold_left]. lia.
Qed.

Lemma b32_encode_loop_spec data : ∀ buffer bits, 0 <= bits < 5 → bytes_ok data →
  ∃ vs pad, b32_encode_loop data buffer bits = map b32_char vs ∧ b32_digits vs ∧ 0 <= pad < 5 ∧
    5 * Z.of_nat (length vs) = bits + 8 * Z.of_nat (length data) + pad ∧
    b32_number vs = ((buffer mod 2 ^ bits) * 2 ^ (8 * Z.of_nat (length data)) + be_get data) * 2 ^ pad.
Proof.
  induction data as [|b data IH]; intros buffer bits Hb Hok; cbn [b32_encode_loop].
  { destruct (Z.ltb_spec 0 bits).
    - exists [Z.land (u32 (Z.shiftl buffer (5 - bits))) 31], (5 - bits). split; [done|].
      change 31 with (Z.ones 5). rewrite Z.land_ones by lia.
      split; [constructor; [change 32 with (2 ^ 5); apply Z.mod_pos_bound; lia|constructor]|].
      split; [lia|]. split; [cbn [length]; lia|].
      pose proof (buffer_push buffer (5 - bits) 0 bits ltac:(lia) ltac:(lia) ltac:(lia) ltac:(lia)) as E.
      rewrite Z.lor_0_r in E. replace (bits + (5 - bits)) with 5 in E by lia. cbn -[Z.pow u32]. rewrite E. cbn -[Z.pow]. lia.
    - exists [], 0. cbn -[Z.pow]. replace bits with 0 by lia. rewrite Z.mod_1_r. repeat split; try lia. constructor. }
  apply Forall_cons_1 in Hok as [Hb8 Hok].
  set (buf := Z.lor (u32 (Z.shiftl buffer 8)) b).
  destruct (b32_emit_spec 3 buf (bits + 8) ltac:(lia)) as (vs & rest & E & Hd & Hr & Hl & Hm). rewrite E.
  destruct (IH buf rest Hr Hok) as (ws & pad & E' & Hd' & Hp & Hl' & Hm'). rewrite E'.
  exists (vs ++ ws), pad. rewrite map_app. split; [done|]. split; [by apply Forall_app|]. split; [done|].
  rewrite length_app. cbn [length]. split; [lia|].
  rewrite b32_number_app, Hm'. subst buf. rewrite buffer_push in Hm by (unfold is_u8 in Hb8; lia).
  rewrite be_get_cons by done.
  replace (32 ^ Z.of_nat (length ws)) with (2 ^ rest * 2 ^ (8 * Z.of_nat (length data)) * 2 ^ pad)
    by (change 32 with (2 ^ 5); rewrite <- Z.pow_mul_r, <- !Z.pow_add_r by lia; f_equal; lia).
  replace (2 ^ (8 * Z.of_nat (S (length data)))) with (2 ^ 8 * 2 ^ (8 * Z.of_nat (length data)))
    by (rewrite <- Z.pow_add_r by lia; f_equal; lia).
  nia.
Qed.

Lemma b32_decode_loop_spec vs : ∀ buffer bits room, 0 <= bits < 8 → b32_digits vs →
  bits + 5 * Z.of_nat (length vs) < 8 * room + 8 →
  ∃ out rest r, b32_decode_loop (map b32_char vs) buffer bits room = Some out ∧ bytes_ok out ∧
    0 <= rest < 8 ∧ 0 <= r < 2 ^ rest ∧
    8 * Z.of_nat (length out) + rest = bits + 5 * Z.of_nat (length vs) ∧
    be_get out * 2 ^ rest + r = (buffer mod 2 ^ bits) * 32 ^ Z.of_nat (length vs) + b32_number vs.
Proof.
  induction vs as [|v vs IH]; intros buffer bits room Hb Hd Hroom; cbn [map b32_decode_loop].
  { exists [], bits, (buffer mod 2 ^ bits). pose proof (Z.mod_pos_bound buffer (2 ^ bits) ltac:(lia)).
    cbn -[Z.pow]. split; [done|]. split; [constructor|]. lia. }
  apply Forall_cons_1 in Hd as [Hv Hd]. rewrite b32_value_char by done. cbn [length] in *.
  set (buf := Z.lor (u32 (Z.shiftl buffer 5)) v).
  pose proof (buffer_push buffer 5 v bits ltac:(lia) ltac:(lia) ltac:(lia) ltac:(lia)) as Hpush. fold buf in Hpush.
  rewrite (b32_number_app [v] vs : b32_number (v :: vs) = _). change (b32_number [v]) with v.
  replace (32 ^ Z.of_nat (S (length vs))) with (2 ^ 5 * 32 ^ Z.of_nat (length vs))
    by (rewrite Nat2Z.inj_succ, Z.pow_succ_r by lia; lia).
  destruct (Z.leb_spec 8 (bits + 5)) as [H8|H8].
  - rewrite (proj2 (Z.leb_gt _ _)) by lia.
    destruct (IH buf (bits + 5 - 8) (room - 1) ltac:(lia) Hd ltac:(lia)) as (out & rest & r & E & Hok & Hr & Hrr & Hl & Hm).
    rewrite E. eexists (_ :: out), rest, r. split; [done|]. split; [constructor; [apply u8_range|done]|].
    split; [done|]. split; [done|]. cbn [length]. split; [lia|].
    rewrite be_get_cons by (done || apply u8_range).
    replace (bits + 5) with ((bits + 5 - 8) + 8) in Hpush at 1 by lia. rewrite buffer_pop in Hpush by lia. fold (u8 (Z.shiftr buf (bits + 5 - 8))) in Hpush.
    assert (E2 : 2 ^ (8 * Z.of_nat (length out)) * 2 ^ rest = 2 ^ (bits + 5 - 8) * 32 ^ Z.of_nat (length vs))
      by (change 32 with (2 ^ 5); rewrite <- Z.pow_mul_r, <- !Z.pow_add_r by lia; f_equal; lia).
    set (x := u8 _) in *. set (A := 2 ^ (8 * _)) in *. set (C := 32 ^ _) in *. set (P := 2 ^ (bits + 5 - 8)) in *.
    replace ((x * A + be_get out) * 2 ^ rest + r) with (x * (A * 2 ^ rest) + (be_get out * 2 ^ rest + r)) by ring.
    rewrite E2, Hm. replace (x * (P * C) + (buf mod P * C + b32_number vs)) with ((x * P + buf mod P) * C + b32_number vs) by ring.
    rewrite Hpush. ring.
  - destruct (IH buf (bits + 5) room ltac:(lia) Hd ltac:(lia)) as (out & rest & r & E & Hok & Hr & Hrr & Hl & Hm).
    exists out, rest, r. repeat split; try done; try lia.
Qed.

(** Base32 decodes what it encodes: any sequence of bytes, encoded into a buffer that
    is large enough, is decoded to itself in a buffer of its size. *)
Theorem base32_roundtrip data n : bytes_ok data →
  (Z.of_nat (length data) * 8 + 4) / 5 < n → Z.of_nat (length data) <= 2 ^ 60 →
  ∃ s, moor_base32_encode n data = Some s ∧ moor_base32_decode (Z.of_nat (length data)) s = Some data.
Proof.
  intros Hok Hn Hlen. unfold moor_base32_encode, UINT64_MAX.
  rewrite (proj2 (Z.ltb_ge _ (Z.of_nat (length data)))) by (zdiv_lia). rewrite (proj2 (Z.ltb_ge n _)) by lia.
  destruct (b32_encode_loop_spec data 0 0 ltac:(lia) Hok) as (vs & pad & E & Hd & Hp & Hl & Hm).
  eexists. split; [done|]. rewrite E. unfold moor_base32_decode. rewrite length_map, u64_small by (unfold is_u64; lia).
  rewrite (proj2 (Z.ltb_ge _ _)) by zdiv_lia.
  destruct (b32_decode_loop_spec vs 0 0 (Z.of_nat (length data)) ltac:(lia) Hd ltac:(lia)) as (out & rest & r & E' & Hok' & Hr & Hrr & Hl' & Hm').
  rewrite E'. f_equal. rewrite Hm in Hm'. rewrite !Z.mod_0_l, !Z.mul_0_l, !Z.add_0_l in Hm' by lia.
  assert (length out = length data) as El by lia. assert (rest = pad) as -> by lia.
  rewrite <- (be_put_get out Hok'), <- (be_put_get data Hok), El. f_equal.
  assert (0 < 2 ^ pad) by lia. nia.
Qed.

Lemma base32_roundtrip_witness :
  ∃ s, moor_base32_encode 100 [7; 255; 0; 33] = Some s ∧ moor_base32_decode 4 s = Some [7; 255; 0; 33].
Proof.
  apply (base32_roundtrip [7; 255; 0; 33] 100); [|vm_compute; reflexivity|vm_compute; discriminate].
  repeat constructor; unfold is_u8; lia.
Defined.

(** ** Sealed messages are opened *)

Section SealFacts.
  Context (kdf : bytes → Z → bytes → bytes).
  Context (aead_encrypt aead_decrypt : bytes → bytes → bytes → bytes → option bytes).
  Context (kem_encapsulate : bytes → bytes → option (bytes * bytes)).
  Context (kem_decapsulate : bytes → bytes → option bytes).
  Hypothesis aead_correct : ∀ pt ad nonce key ct, aead_encrypt pt ad nonce key = Some ct →
    length ct = (length pt + MOOR_PQ_SEAL_AEAD_TAG)%nat ∧ aead_decrypt ct ad nonce key = Some pt.

(** What is sealed for a key pair of the KEM is opened with its secret key. *)
Lemma pq_seal_opens coins pt pk sk ct :
  (∀ coins ct ss, kem_encapsulate coins pk = Some (ct, ss) →
     length ct = MOOR_KEM_CT_LEN ∧ kem_decapsulate ct sk = Some ss) →
  moor_crypto_pq_seal kdf aead_encrypt kem_encapsulate coins pt pk = Some ct →
  moor_crypto_pq_seal_open kdf aead_decrypt kem_decapsulate ct sk = Some pt.
Proof.
  intros Hkem. unfold moor_crypto_pq_seal, moor_crypto_pq_seal_open, moor_crypto_aead_encrypt, moor_crypto_aead_decrypt.
  destruct (kem_encapsulate coins pk) as [[kct ss]|] eqn:E; [|done]. apply Hkem in E as [Hl Hdec].
  destruct (aead_encrypt _ _ _ _) as [act|] eqn:Ea; [|done]. apply aead_correct in Ea as [Hal Ha].
  destruct (negb _); [done|]. intros ?; simplify_eq.
  rewrite (proj2 (Z.ltb_ge _ _)) by (rewrite length_app; lia).
  rewrite take_app_length', drop_app_length' by done. by rewrite Hdec.
Qed.
End SealFacts.

(** ** Blinded keys *)

Definition ED25519_L : Z := 2 ^ 252 + 27742317777372353535851937790883648493.
Definition le_get (b : bytes) : Z := be_get (rev b).

Section BlindFacts.
  Context (blake2b_512 sha512 hash : bytes → bytes).
  Context (scalar_reduce : bytes → bytes) (scalar_mul scalar_add : bytes → bytes → bytes).
  Context (scalarmult_base_noclamp : bytes → option bytes) (scalarmult_noclamp : bytes → bytes → option bytes).
  Context (ed25519_verify : bytes → bytes → bytes → bool).
  (** [point n] is the encoding of the multiple [n] of the base point, a point of the
      subgroup of order [ED25519_L]. *)
  Context (point : Z → bytes).
  Hypothesis point_length : ∀ n, length (point n) = 32%nat.
  Hypothesis point_mod : ∀ a b, a mod ED25519_L = b mod ED25519_L → point a = point b.
  Hypothesis reduce_spec : ∀ x, scalar_reduce x = le_put 32 (le_get x mod ED25519_L).
  Hypothesis mul_spec : ∀ x y, scalar_mul x y = le_put 32 ((le_get x * le_get y) mod ED25519_L).
  Hypothesis add_spec : ∀ x y, scalar_add x y = le_put 32 ((le_get x + le_get y) mod ED25519_L).
  (** Multiplication fails when the result is the neutral element. *)
  Hypothesis base_spec : ∀ s, le_get s < ED25519_L → scalarmult_base_noclamp s =
    if le_get s mod ED25519_L =? 0 then None else Some (point (le_get s)).
  Hypothesis mult_spec : ∀ s a, le_get s < ED25519_L → scalarmult_noclamp s (point a) =
    if (le_get s * a) mod ED25519_L =? 0 then None else Some (point (le_get s * a)).
  (** RFC 8032: a signature [R ++ S] is valid when [S B = R + k A]. *)
  Hypothesis verify_spec : ∀ r a S msg,
    length S = 32%nat → 0 <= le_get S < ED25519_L → r mod ED25519_L ≠ 0 → a mod ED25519_L ≠ 0 →
    le_get S mod ED25519_L =
      (r + le_get (scalar_reduce (sha512 (point r ++ point a ++ msg))) * a) mod ED25519_L →
    ed25519_verify (point r ++ S) msg (point a) = true.

Lemma le_get_le_put v : 0 <= v < 2 ^ 256 → le_get (le_put 32 v) = v.
Proof.
  intros Hv. unfold le_get. rewrite le_put_rev, rev_involutive. apply (be_get_put_small 32). cbn. lia.
Qed.

Lemma le_get_reduced v : le_get (le_put 32 (v mod ED25519_L)) = v mod ED25519_L.
Proof.
  apply le_get_le_put. pose proof (Z.mod_pos_bound v ED25519_L ltac:(unfold ED25519_L; lia)). unfold ED25519_L in *. lia.
Qed.

Lemma reduce_range x : 0 <= le_get (scalar_reduce x) < ED25519_L.
Proof. rewrite reduce_spec, le_get_reduced. apply Z.mod_pos_bound. unfold ED25519_L. lia. Qed.

(** C35. Key blinding: when a client can derive the blinded key of a service for a period,
    the service derives the same public key, and every signature it makes with its
    blinded secret key is a valid Ed25519 signature under that key. *)
Theorem blinded_keys_sign identity_sk period bpk :
  let scalar := le_get (clamp (take 32 (sha512 (take 32 identity_sk)))) in
  let identity_pk := point scalar in
  moor_crypto_blind_pk blake2b_512 scalar_reduce scalarmult_noclamp identity_pk period = Some bpk →
  ∃ bsk, moor_crypto_blind_keypair blake2b_512 sha512 hash scalar_reduce scalar_mul
           scalarmult_base_noclamp scalarmult_noclamp identity_pk identity_sk period = Some (bpk, bsk) ∧
    ∀ msg sig,
      moor_crypto_sign_blinded sha512 scalar_reduce scalar_mul scalar_add scalarmult_base_noclamp msg bsk bpk = Some sig →
      length sig = 64%nat ∧ ed25519_verify sig msg bpk = true.
Proof.
  intros a pk. unfold moor_crypto_blind_pk, moor_crypto_blind_keypair. set (f := derive_blind_factor _ _ _ _).
  assert (Hf : 0 <= le_get f < ED25519_L) by apply reduce_range.
  intros Hpk. rewrite Hpk. unfold pk in Hpk. rewrite mult_spec in Hpk by lia.
  destruct (Z.eqb_spec ((le_get f * a) mod ED25519_L) 0) as [|Hnz]; [done|]. apply (inj Some) in Hpk.
  set (bs := scalar_mul _ f).
  assert (Hbs : le_get bs = (le_get f * a) mod ED25519_L)
    by (unfold bs; rewrite mul_spec, le_get_reduced; fold a; f_equal; lia).
  pose proof (Z.mod_pos_bound (le_get f * a) ED25519_L ltac:(unfold ED25519_L; lia)) as Hmod.
  rewrite base_spec, Hbs, Z.mod_mod by (unfold ED25519_L in *; lia). rewrite (proj2 (Z.eqb_neq _ _) Hnz).
  rewrite (point_mod ((le_get f * a) mod ED25519_L) (le_get f * a)) by (apply Z.mod_mod; unfold ED25519_L; lia).
  rewrite <- Hpk, bytes_eqb_refl. eexists. split; [done|].
  assert (Hlbs : length bs = 32%nat) by (unfold bs; rewrite mul_spec; apply length_le_put).
  intros msg sig. unfold moor_crypto_sign_blinded. rewrite take_app_length', drop_app_length' by done.
  set (r := scalar_reduce (sha512 (_ ++ msg))). pose proof (reduce_range (sha512 (hash (slice 32 32 (sha512 (take 32 identity_sk)) ++ f) ++ msg))) as Hr. fold r in Hr.
  rewrite base_spec by lia. destruct (Z.eqb_spec (le_get r mod ED25519_L) 0) as [|Hrz]; [done|].
  intros Hsig. apply (inj Some) in Hsig as <-. rewrite add_spec, mul_spec, length_app, length_le_put, point_length. split; [done|].
  apply verify_spec; rewrite ?length_le_put, ?le_get_reduced; try done.
  - apply Z.mod_pos_bound. unfold ED25519_L. lia.
  - rewrite Z.mod_mod by (unfold ED25519_L; lia). rewrite Hbs.
    rewrite <- (Zplus_mod_idemp_r (_ mod ED25519_L)), Z.mod_mod, Zplus_mod_idemp_r by (unfold ED25519_L; lia).
    rewrite <- Zplus_mod_idemp_r, Zmult_mod_idemp_r, Zplus_mod_idemp_r. done.
Qed.
End BlindFacts.

(** A group in which a point is the encoding of its discrete logarithm. *)
Module ToyCurve.
Definition sha512 (m : bytes) : bytes := Cell.toy_hash m ++ Cell.toy_hash (1 :: m).
Definition point (n : Z) : bytes := le_put 32 (n mod ED25519_L).
Definition reduce (x : bytes) : bytes := le_put 32 (le_get x mod ED25519_L).
Definition smul (x y : bytes) : bytes := le_put 32 ((le_get x * le_get y) mod ED25519_L).
Definition sadd (x y : bytes) : bytes := le_put 32 ((le_get x + le_get y) mod ED25519_L).
Definition base (s : bytes) : option bytes :=
  if le_get s mod ED25519_L =? 0 then None else Some (point (le_get s)).
Definition mult (s p : bytes) : option bytes :=
  if (le_get s * le_get p) mod ED25519_L =? 0 then None else Some (point (le_get s * le_get p)).
Definition verify (sig msg pk : bytes) : bool :=
  let R := take 32 sig in
  let S := drop 32 sig in
  (le_get S mod ED25519_L =? (le_get R + le_get (reduce (sha512 (R ++ pk ++ msg))) * le_get pk) mod ED25519_L).

Lemma point_mod a b : a mod ED25519_L = b mod ED25519_L → point a = point b.
Proof. unfold point. by intros ->. Qed.

Lemma mult_spec s a : mult s (point a) =
  if (le_get s * a) mod ED25519_L =? 0 then None else Some (point (le_get s * a)).
Proof.
  unfold mult. assert (E : le_get (point a) = a mod ED25519_L) by apply le_get_reduced. rewrite E, Zmult_mod_idemp_r.
  destruct (_ =? 0); [done|]. f_equal. apply point_mod, Zmult_mod_idemp_r.
Qed.

Lemma verify_spec r a S msg :
  le_get S mod ED25519_L = (r + le_get (reduce (sha512 (point r ++ point a ++ msg))) * a) mod ED25519_L →
  verify (point r ++ S) msg (point a) = true.
Proof.
  intros H. unfold verify. rewrite take_app_length', drop_app_length' by (symmetry; apply length_le_put). apply Z.eqb_eq. rewrite H.
  assert (E : ∀ n, le_get (point n) = n mod ED25519_L) by (intros; apply le_get_reduced). rewrite !E.
  rewrite Zplus_mod_idemp_l. rewrite <- (Zplus_mod_idemp_r (_ * (a mod _))), Zmult_mod_idemp_r, Zplus_mod_idemp_r. done.
Qed.
End ToyCurve.

Lemma blinded_keys_sign_witness :
  let sk := replicate 64 9 in
  let pk := ToyCurve.point (le_get (clamp (take 32 (ToyCurve.sha512 (take 32 sk))))) in
  match moor_crypto_blind_pk ToyCurve.sha512 ToyCurve.reduce ToyCurve.mult pk 20000 with
  | Some bpk =>
      ∃ bsk, moor_crypto_blind_keypair ToyCurve.sha512 ToyCurve.sha512 Cell.toy_hash ToyCurve.reduce ToyCurve.smul
               ToyCurve.base ToyCurve.mult pk sk 20000 = Some (bpk, bsk) ∧
        ∀ msg sig, moor_crypto_sign_blinded ToyCurve.sha512 ToyCurve.reduce ToyCurve.smul ToyCurve.sadd ToyCurve.base msg bsk bpk
            = Some sig → length sig = 64%nat ∧ ToyCurve.verify sig msg bpk = true
  | None => False
  end.
Proof.
  cbv zeta. destruct (moor_crypto_blind_pk _ _ _ _ _) as [bpk|] eqn:E; [|vm_compute in E; discriminate].
  refine (blinded_keys_sign ToyCurve.sha512 ToyCurve.sha512 Cell.toy_hash ToyCurve.reduce ToyCurve.smul ToyCurve.sadd
    ToyCurve.base ToyCurve.mult ToyCurve.verify ToyCurve.point _ ToyCurve.point_mod _ _ _ _ _ _ (replicate 64 9) 20000 bpk E).
  - intros n. apply length_le_put.
  - reflexivity.
  - reflexivity.
  - reflexivity.
  - reflexivity.
  - intros s a _. apply ToyCurve.mult_spec.
  - intros r a S msg _ _ _ _. apply ToyCurve.verify_spec.
Defined.

(** ** Key files *)

Section KeyFileFacts.
  Context (blake2b_keyed : bytes → bytes → bytes).
  Hypothesis mac_length : ∀ key m, length (blake2b_keyed key m) = 32%nat.

Definition key_path (data_dir name : bytes) : bytes := data_dir ++ str "/keys/" ++ name.

(** The file that [write_key_file] leaves for a key. *)
Definition stored (data_dir : bytes) (fs : files) (k : bytes * bytes) : Prop :=
  let path := key_path data_dir (fst k) in
  fs !! path = Some (snd k ++ blake2b_keyed (derive_file_mac_key blake2b_keyed path) (snd k)).

Lemma read_stored data_dir fs k : stored data_dir fs k → Z.of_nat (length (snd k)) <= 4096 →
  read_key_file blake2b_keyed (key_path data_dir (fst k)) (length (snd k)) fs = (Some (snd k), fs).
Proof.
  intros Hs Hl. unfold read_key_file. rewrite Hs. rewrite (proj2 (Z.ltb_ge _ _)) by lia.
  rewrite take_ge, length_app, mac_length, Nat.eqb_refl by (rewrite length_app, mac_length; lia).
  by rewrite take_app_length, drop_app_length, bytes_eqb_refl.
Qed.

Lemma fits size path : Z.of_nat (length path) < size → fitting_path size path = Some path.
Proof. intros H. unfold fitting_path. by rewrite (proj2 (Z.leb_gt _ _)). Qed.

Lemma load_stored data_dir fs ks : Z.of_nat (length data_dir) <= 500 →
  Forall (λ k, stored data_dir fs k ∧ Z.of_nat (length (fst k)) <= 60 ∧ Z.of_nat (length (snd k)) <= 4096) ks →
  load_keys blake2b_keyed data_dir (map (λ k, (fst k, length (snd k))) ks) fs = (Some (map snd ks), fs).
Proof.
  intros Hd. induction 1 as [|[name key] ks (Hs & Hn & Hl) _ IH]; [done|]. cbn [map load_keys fst snd] in *.
  rewrite fits by (rewrite !length_app; cbn [length] in *; change (length (str "/keys/")) with 6%nat; lia).
  pose proof (read_stored data_dir fs (name, key) Hs Hl) as E. unfold key_path in E. cbn [fst snd] in E. by rewrite E, IH.
Qed.

Lemma save_keys_spec data_dir ks : ∀ fs, Z.of_nat (length data_dir) <= 500 →
  NoDup (map fst ks) → Forall (λ k, Z.of_nat (length (fst k)) <= 60) ks →
  ∃ fs', save_keys blake2b_keyed (data_dir ++ str "/keys") ks fs = (0, fs') ∧ Forall (stored data_dir fs') ks ∧
    ∀ name, name ∉ map fst ks → fs' !! key_path data_dir name = fs !! key_path data_dir name.
Proof.
  induction ks as [|[name key] ks IH]; intros fs Hd Hnd Hall; cbn [save_keys map fst] in *; [by exists fs|].
  apply NoDup_cons in Hnd as [Hni Hnd]. apply Forall_cons_1 in Hall as [Hn Hall].
  assert (Ep : (data_dir ++ str "/keys") ++ str "/" ++ name = key_path data_dir name) by (unfold key_path; by rewrite <- app_assoc).
  rewrite Ep, fits by (unfold key_path; rewrite !length_app; change (length (str "/keys/")) with 6%nat; cbn [fst] in Hn; lia).
  destruct (IH (write_key_file blake2b_keyed (key_path data_dir name) key fs) Hd Hnd Hall) as (fs' & E & Hst & Hother).
  assert (Hkey : fs' !! key_path data_dir name = write_key_file blake2b_keyed (key_path data_dir name) key fs !! key_path data_dir name) by (by apply Hother).
  unfold write_key_file in Hkey at 1. rewrite lookup_insert_eq in Hkey.
  exists fs'. split; [done|]. split; [by constructor|]. intros nm Hnm. apply not_elem_of_cons in Hnm as [Hne Hnm].
  rewrite Hother by done. unfold write_key_file. apply lookup_insert_ne. unfold key_path.
  intros Heq. apply app_inv_head, app_inv_head in Heq. by subst.
Qed.

Lemma save_key_set_spec data_dir ks fs : Z.of_nat (length data_dir) <= 500 →
  NoDup (map fst ks) → Forall (λ k, Z.of_nat (length (fst k)) <= 60) ks →
  ∃ fs', save_key_set blake2b_keyed data_dir ks fs = (0, fs') ∧ Forall (stored data_dir fs') ks ∧
    ∀ name, name ∉ map fst ks → fs' !! key_path data_dir name = fs !! key_path data_dir name.
Proof.
  intros Hd Hnd Hall. unfold save_key_set.
  rewrite fits by (rewrite length_app; change (length (str "/keys")) with 5%nat; lia). by apply save_keys_spec.
Qed.

(** The keys of a node under their file names. *)
Definition id_keys (id_pk id_sk onion_pk onion_sk : bytes) : list (bytes * bytes) :=
  [(str "identity_pk", id_pk); (str "identity_sk", id_sk); (str "onion_pk", onion_pk); (str "onion_sk", onion_sk)].
Definition pq_keys (pq_pk pq_sk : bytes) : list (bytes * bytes) :=
  [(str "pq_identity_pk", pq_pk); (str "pq_identity_sk", pq_sk)].
Definition falcon_keys (falcon_pk falcon_sk : bytes) : list (bytes * bytes) :=
  [(str "falcon_identity_pk", falcon_pk); (str "falcon_identity_sk", falcon_sk)].

(** Keys of a set whose names are not in another set stay stored when that is saved. *)
Lemma stored_frame data_dir fs fs' ks (names : list bytes) :
  (∀ name, name ∉ names → fs' !! key_path data_dir name = fs !! key_path data_dir name) →
  Forall (λ k, fst k ∉ names) ks → Forall (stored data_dir fs) ks → Forall (stored data_dir fs') ks.
Proof.
  intros H Hn. induction Hn as [|k ks Hk _ IH]; [done|]. intros [Hs Hall]%Forall_cons_1. constructor; [|by apply IH].
  unfold stored in *. by rewrite H.
Qed.

(** C36. Keys survive a restart: the identity, onion, ML-DSA and Falcon keys that a node
    saves, in a data directory whose name fits the path buffers, are loaded unchanged,
    and loading changes no file. *)
Theorem keys_survive_restart data_dir id_pk id_sk onion_pk onion_sk pq_pk pq_sk f_pk f_sk fs :
  Z.of_nat (length data_dir) <= 500 →
  length id_pk = 32%nat → length id_sk = 64%nat → length onion_pk = 32%nat → length onion_sk = 32%nat →
  length pq_pk = 1952%nat → length pq_sk = 4032%nat → length f_pk = 897%nat → length f_sk = 1281%nat →
  ∃ fs1 fs2 fs3,
    moor_keys_save blake2b_keyed data_dir id_pk id_sk onion_pk onion_sk fs = (0, fs1) ∧
    moor_pq_keys_save blake2b_keyed data_dir pq_pk pq_sk fs1 = (0, fs2) ∧
    moor_falcon_keys_save blake2b_keyed data_dir f_pk f_sk fs2 = (0, fs3) ∧
    moor_keys_load blake2b_keyed data_dir fs3 = (Some [id_pk; id_sk; onion_pk; onion_sk], fs3) ∧
    moor_pq_keys_load blake2b_keyed data_dir fs3 = (Some [pq_pk; pq_sk], fs3) ∧
    moor_falcon_keys_load blake2b_keyed data_dir fs3 = (Some [f_pk; f_sk], fs3).
Proof.
  intros Hd L1 L2 L3 L4 L5 L6 L7 L8.
  destruct (save_key_set_spec data_dir (id_keys id_pk id_sk onion_pk onion_sk) fs Hd) as (fs1 & E1 & S1 & O1);
    [apply (bool_decide_unpack _); by vm_compute|repeat constructor; vm_compute; discriminate|].
  destruct (save_key_set_spec data_dir (pq_keys pq_pk pq_sk) fs1 Hd) as (fs2 & E2 & S2 & O2);
    [apply (bool_decide_unpack _); by vm_compute|repeat constructor; vm_compute; discriminate|].
  destruct (save_key_set_spec data_dir (falcon_keys f_pk f_sk) fs2 Hd) as (fs3 & E3 & S3 & O3);
    [apply (bool_decide_unpack _); by vm_compute|repeat constructor; vm_compute; discriminate|].
  apply (stored_frame _ _ _ _ _ O2) in S1; [|repeat constructor; apply (bool_decide_unpack _); by vm_compute].
  apply (stored_frame _ _ _ _ _ O3) in S1; [|repeat constructor; apply (bool_decide_unpack _); by vm_compute].
  apply (stored_frame _ _ _ _ _ O3) in S2; [|repeat constructor; apply (bool_decide_unpack _); by vm_compute].
  exists fs1, fs2, fs3. do 3 (split; [done|]).
  assert (Hload : ∀ ks, Forall (stored data_dir fs3) ks → Forall (λ k, Z.of_nat (length (fst k)) <= 60 ∧ Z.of_nat (length (snd k)) <= 4096) ks →
    load_keys blake2b_keyed data_dir (map (λ k, (fst k, length (snd k))) ks) fs3 = (Some (map snd ks), fs3)).
  { intros ks Hs Hl. apply load_stored; [done|]. rewrite Forall_forall in *. intros k Hk. split; [by apply Hs|by apply Hl]. }
  split; [|split].
  - pose proof (Hload _ S1) as H. cbn [map id_keys fst snd] in H. rewrite L1, L2, L3, L4 in H. apply H.
    repeat constructor; cbn [fst snd]; rewrite ?L1, ?L2, ?L3, ?L4; try (vm_compute; discriminate); lia.
  - pose proof (Hload _ S2) as H. cbn [map pq_keys fst snd] in H. rewrite L5, L6 in H. apply H.
    repeat constructor; cbn [fst snd]; rewrite ?L5, ?L6; try (vm_compute; discriminate); lia.
  - pose proof (Hload _ S3) as H. cbn [map falcon_keys fst snd] in H. rewrite L7, L8 in H. apply H.
    repeat constructor; cbn [fst snd]; rewrite ?L7, ?L8; try (vm_compute; discriminate); lia.
Qed.

Lemma tmp_path_fits path : Z.of_nat (length path) <= 4090 → snprintf 4096 (path ++ str ".tmp") = path ++ str ".tmp".
Proof.
  intros H. unfold snprintf. apply take_ge. rewrite length_app. change (length (str ".tmp")) with 4%nat. lia.
Qed.

(** The MAC of a file that was saved again is that of the temporary path. *)
Lemma resave_lookup path data fs : Z.of_nat (length path) <= 4090 →
  resave_key_file blake2b_keyed path data fs !! path =
    Some (data ++ blake2b_keyed (derive_file_mac_key blake2b_keyed (path ++ str ".tmp")) data).
Proof.
  intros H. unfold resave_key_file, rename, write_key_file. rewrite tmp_path_fits by done.
  by rewrite lookup_insert_eq, lookup_insert_eq.
Qed.

Lemma read_other path len fs p : p ≠ path → p ≠ snprintf 4096 (path ++ str ".tmp") →
  snd (read_key_file blake2b_keyed path len fs) !! p = fs !! p.
Proof.
  intros Hp Ht. assert (Hr : ∀ data, resave_key_file blake2b_keyed path data fs !! p = fs !! p).
  { intros data. unfold resave_key_file, rename, write_key_file. rewrite lookup_insert_eq.
    by rewrite lookup_insert_ne, lookup_delete_ne, lookup_insert_ne. }
  unfold read_key_file. destruct (fs !! path); [|done]. repeat case_match; simpl; auto.
Qed.

(** What a later start does with a file that was saved again. *)
Lemma read_resaved path data fs : Z.of_nat (length path) <= 4090 → Z.of_nat (length data) <= 4096 →
  fs !! path = Some (data ++ blake2b_keyed (derive_file_mac_key blake2b_keyed (path ++ str ".tmp")) data) →
  blake2b_keyed (derive_file_mac_key blake2b_keyed (path ++ str ".tmp")) data ≠
    blake2b_keyed (derive_file_mac_key blake2b_keyed path) data →
  blake2b_keyed (derive_file_mac_key blake2b_keyed (path ++ str ".tmp")) data ≠ blake2b_keyed key_file_mac_base data →
  read_key_file blake2b_keyed path (length data) fs = (None, fs).
Proof.
  intros Hp Hd Hfs H1 H2. unfold read_key_file. rewrite Hfs, (proj2 (Z.ltb_ge _ _)) by lia.
  rewrite take_ge, length_app, mac_length, Nat.eqb_refl by (rewrite length_app, mac_length; lia).
  rewrite take_app_length, drop_app_length. rewrite !(proj2 (bytes_eqb_neq _ _)) by congruence. done.
Qed.

(** The other key files and their temporary files are not the identity key's. *)
Lemma other_names data_dir name : Z.of_nat (length data_dir) <= 500 →
  name ∈ [str "identity_sk"; str "onion_pk"; str "onion_sk"] →
  key_path data_dir (str "identity_pk") ≠ key_path data_dir name ∧
  key_path data_dir (str "identity_pk") ≠ snprintf 4096 (key_path data_dir name ++ str ".tmp").
Proof.
  intros Hd Hn. unfold key_path.
  apply elem_of_cons in Hn as [->|[->|[->|[]%elem_of_nil]%elem_of_cons]%elem_of_cons];
    (rewrite tmp_path_fits by (rewrite !length_app; vm_compute (length (str _)); lia));
    rewrite <- !app_assoc; split; intros E; do 2 apply app_inv_head in E; vm_compute in E; discriminate.
Qed.

(** Loading the other keys leaves the file of the identity key. *)
Lemma load_other data_dir ks : ∀ fs, Z.of_nat (length data_dir) <= 500 →
  Forall (λ k, fst k ∈ [str "identity_sk"; str "onion_pk"; str "onion_sk"]) ks →
  snd (load_keys blake2b_keyed data_dir ks fs) !! key_path data_dir (str "identity_pk") =
    fs !! key_path data_dir (str "identity_pk").
Proof.
  induction ks as [|[nm l] ks IH]; intros g Hd Hks; [done|]. apply Forall_cons_1 in Hks as [Hnm Hks].
  cbn [load_keys]. destruct (fitting_path _ _) as [q|] eqn:Eq; [|done].
  unfold fitting_path in Eq. case_match; [done|]. apply (inj Some) in Eq. subst q.
  destruct (other_names data_dir nm Hd Hnm) as [N1 N2].
  pose proof (read_other (key_path data_dir nm) l g _ N1 N2) as Hr.
  change (data_dir ++ str "/keys/" ++ nm) with (key_path data_dir nm).
  destruct (read_key_file _ _ _ g) as [[k|] g']; cbn [snd] in Hr; [|done].
  specialize (IH g' Hd Hks). destruct (load_keys _ _ ks g') as [r g'']. cbn [snd] in *. congruence.
Qed.

(** A key file of the format without a MAC is accepted at one start and refused at
    the next: it is saved again under the MAC of the temporary path before it is
    renamed. If the identity key of a node is such a file, the start after the one that
    migrated it finds no keys. *)
Theorem legacy_keys_refused data_dir id_pk keys fs fs' :
  Z.of_nat (length data_dir) <= 500 → length id_pk = 32%nat →
  let path := key_path data_dir (str "identity_pk") in
  fs !! path = Some id_pk →
  blake2b_keyed (derive_file_mac_key blake2b_keyed (path ++ str ".tmp")) id_pk ≠
    blake2b_keyed (derive_file_mac_key blake2b_keyed path) id_pk →
  blake2b_keyed (derive_file_mac_key blake2b_keyed (path ++ str ".tmp")) id_pk ≠ blake2b_keyed key_file_mac_base id_pk →
  moor_keys_load blake2b_keyed data_dir fs = (Some keys, fs') →
  head keys = Some id_pk ∧ moor_keys_load blake2b_keyed data_dir fs' = (None, fs').
Proof.
  intros Hd Hlen path Hfs H1 H2. assert (Hp : Z.of_nat (length path) <= 520)
    by (unfold path, key_path; rewrite !length_app; vm_compute (length (str _)); lia).
  unfold moor_keys_load. set (others := [(str "identity_sk", 64%nat); (str "onion_pk", 32%nat); (str "onion_sk", 32%nat)]).
  assert (Hothers : Forall (λ k, fst k ∈ [str "identity_sk"; str "onion_pk"; str "onion_sk"]) others)
    by (repeat constructor; apply (bool_decide_unpack _); by vm_compute).
  clearbody others. cbn [load_keys]. fold (key_path data_dir (str "identity_pk")). fold path.
  rewrite fits by lia.
  assert (E : read_key_file blake2b_keyed path 32 fs = (Some id_pk, resave_key_file blake2b_keyed path id_pk fs)).
  { unfold read_key_file. rewrite Hfs. cbn [Z.ltb Z.compare Z.add]. rewrite take_ge, Hlen by lia. cbn [Nat.eqb Nat.add].
    by rewrite take_ge by lia. }
  rewrite E. pose proof (resave_lookup path id_pk fs ltac:(lia)) as Hres.
  revert Hres. generalize (resave_key_file blake2b_keyed path id_pk fs). intros fs1 Hres.
  destruct (load_keys _ _ _ fs1) as [rest fs2] eqn:Eload.
  assert (Hfs2 : fs2 !! path = fs1 !! path).
  { pose proof (load_other data_dir others fs1 Hd Hothers) as Hk. by rewrite Eload in Hk. }
  intros Hok. destruct rest as [rest|]; [|done]. apply (inj2 pair) in Hok as [Hk ->]. apply (inj Some) in Hk as <-.
  split; [done|]. rewrite <- Hlen at 1. rewrite read_resaved; [done|lia|lia| |done|done]. congruence.
Qed.
End KeyFileFacts.

Definition toy_mac (key m : bytes) : bytes := be_put 32 (fold_left (λ a b, (a * 257 + b + 1) mod 1000003) (key ++ m) 7).

Lemma keys_survive_restart_witness :
  let dir := str "/var/lib/moor" in
  ∃ fs1 fs2 fs3,
    moor_keys_save toy_mac dir (replicate 32 1) (replicate 64 2) (replicate 32 3) (replicate 32 4) ∅ = (0, fs1) ∧
    moor_pq_keys_save toy_mac dir (replicate 1952 5) (replicate 4032 6) fs1 = (0, fs2) ∧
    moor_falcon_keys_save toy_mac dir (replicate 897 7) (replicate 1281 8) fs2 = (0, fs3) ∧
    moor_keys_load toy_mac dir fs3 = (Some [replicate 32 1; replicate 64 2; replicate 32 3; replicate 32 4], fs3) ∧
    moor_pq_keys_load toy_mac dir fs3 = (Some [replicate 1952 5; replicate 4032 6], fs3) ∧
    moor_falcon_keys_load toy_mac dir fs3 = (Some [replicate 897 7; replicate 1281 8], fs3).
Proof.
  cbv zeta. apply keys_survive_restart.
  - intros key m. apply length_be_put.
  - vm_compute. discriminate.
  - apply length_replicate.
  - apply length_replicate.
  - apply length_replicate.
  - apply length_replicate.
  - apply length_replicate.
  - apply length_replicate.
  - apply length_replicate.
  - apply length_replicate.
Defined.

(** A node with the key files of an older version. *)
Definition legacy_files : files :=
  list_to_map [(key_path (str "/m") (str "identity_pk"), replicate 32 1); (key_path (str "/m") (str "identity_sk"), replicate 64 2);
               (key_path (str "/m") (str "onion_pk"), replicate 32 3); (key_path (str "/m") (str "onion_sk"), replicate 32 4)].

Lemma legacy_keys_refused_witness :
  let r := moor_keys_load toy_mac (str "/m") legacy_files in
  let keys := [replicate 32 1; replicate 64 2; replicate 32 3; replicate 32 4] in
  fst r = Some keys ∧ head keys = Some (replicate 32 1) ∧ moor_keys_load toy_mac (str "/m") (snd r) = (None, snd r).
Proof.
  intros r keys. assert (E : fst r = Some keys) by (vm_compute; reflexivity). split; [exact E|].
  apply (legacy_keys_refused toy_mac (λ _ _, length_be_put 32 _) (str "/m") (replicate 32 1) keys legacy_files (snd r)).
  - vm_compute. discriminate.
  - reflexivity.
  - vm_compute. reflexivity.
  - vm_compute. discriminate.
  - vm_compute. discriminate.
  - rewrite <- E. apply surjective_pairing.
Defined.
