(* ===== verification/Handshake.v ===== *)
(** * Handshake: the circuit key exchange and the building of circuits

    Models the circuit handshake on both sides. The client side is in [src/src/circuit.c]:
    [cke_derive], the blocking [moor_circuit_create], [moor_circuit_create_pq],
    [moor_circuit_extend] and [moor_circuit_extend_pq], and the state machine of the
    non-blocking build ([cbuild_send_create], [moor_circuit_build_handle_created],
    [cbuild_send_extend], [moor_circuit_build_handle_extended]). The relay side is in
    [src/src/relay.c]: [relay_cke_derive], the handlers of [CREATE], [CREATE_PQ],
    [CELL_KEM_CT], [CREATED], [RELAY_EXTEND2], [RELAY_EXTEND_PQ] and [RELAY_KEM_OFFER],
    and the test for private addresses.

    X25519, the hash functions, the KEM, [inet_pton] and [inet_ntop] are parameters, and
    so is the randomness that a call draws. Cells are returned to the caller; whether
    sending one succeeds is the parameter [send_cell]. What the handlers do to the memory
    of the circuit pool is in [Lifecycle]. *)

From Stdlib Require Import String.
From S2P Require Import Prelude Wire Text Cell Onion Descriptor Crypto.

Local Open Scope Z_scope.

Definition MOOR_CIRCUIT_HOPS : nat := 3.
Definition MOOR_LS_IPV4 : Z := 0.
Definition MOOR_LS_IPV6 : Z := 1.
Definition MOOR_LS_IDENTITY : Z := 2.
Definition CREATE_RATE_LIMIT : Z := 10.
Definition CREATE_RATE_WINDOW : Z := 5.

Definition is_zero (b : bytes) : bool := forallb (λ x, x =? 0) b.

(** ** Private addresses *)

(** The ranges of IPv4, on the address in host order. *)
Definition private_ipv4 (ip : Z) : bool :=
  (Z.shiftr ip 24 =? 127) || (Z.shiftr ip 24 =? 10) || (Z.shiftr ip 20 =? Z.lor (Z.shiftl 172 4) 1) ||
  (Z.shiftr ip 16 =? Z.lor (Z.shiftl 192 8) 168) || (Z.shiftr ip 16 =? Z.lor (Z.shiftl 169 8) 254) ||
  (Z.shiftr ip 24 =? 0) || (Z.shiftr ip 22 =? Z.lor (Z.shiftl 100 2) 1) || (Z.shiftr ip 28 =? 14) ||
  (Z.shiftr ip 28 =? 15).

(** On the 16 bytes of an IPv6 address; the last disjuncts are [IN6_IS_ADDR_V4COMPAT],
    6to4, Teredo and NAT64. *)
Definition private_ipv6 (a : bytes) : bool :=
  bytes_eqb a (zeros 15 ++ [1]) ||
  ((byte_at 0 a =? 254) && (Z.land (byte_at 1 a) 192 =? 128)) ||
  (Z.land (byte_at 0 a) 254 =? 252) ||
  (bytes_eqb (take 12 a) (zeros 10 ++ [255; 255]) && private_ipv4 (be_get (drop 12 a))) ||
  (bytes_eqb (take 12 a) (zeros 12) && (1 <? be_get (drop 12 a))) ||
  ((byte_at 0 a =? 32) && (byte_at 1 a =? 2)) ||
  ((byte_at 0 a =? 32) && (byte_at 1 a =? 1) && (byte_at 2 a =? 0) && (byte_at 3 a =? 0)) ||
  ((byte_at 0 a =? 0) && (byte_at 1 a =? 100) && (byte_at 2 a =? 255) && (byte_at 3 a =? 155)).

(** ** Data *)

(** The keys of [moor_relay_config_t]. *)
Record relay_config := mk_config {
  cfg_identity_pk : bytes;
  cfg_onion_sk : bytes;
  cfg_kem_sk : bytes;
}.

(** The [CREATE] counter of a connection. *)
Record create_window := mk_window {
  create_window_start : Z;   (* uint64_t *)
  create_window_count : Z;   (* uint32_t *)
}.

(** A circuit at a relay with the state of pending handshakes; [pq_kem_ct] holds the
    [pq_kem_ct_len] bytes received so far. *)
Record or_circ := mk_or {
  or_relay : relay_circ;
  pq_capable : bool;
  pq_key_seed : bytes;
  pq_kem_ct : bytes;
  pq_kem_pending : bool;
  extend_pending : bool;
}.

(** What a client draws for one hop: a key pair and the coins of the KEM. *)
Record hop_coins := mk_coins {
  coin_eph_pk : bytes;
  coin_eph_sk : bytes;
  coin_kem : bytes;
}.

Inductive moor_cbuild_state_t :=
  | CBUILD_IDLE | CBUILD_CONNECTING | CBUILD_WAIT_CREATED | CBUILD_WAIT_CREATED_PQ
  | CBUILD_WAIT_EXTENDED_MID | CBUILD_WAIT_EXTENDED_EXIT | CBUILD_READY | CBUILD_FAILED.

Record moor_cbuild_ctx_t := mk_ctx {
  ctx_state : moor_cbuild_state_t;
  ctx_path : list moor_node_descriptor_t;
  ctx_eph_pk : bytes;
  ctx_eph_sk : bytes;
  ctx_relay_curve_pk : bytes;
  ctx_pq_hop : bool;
  ctx_kem_ct : bytes;
  ctx_kem_ss : bytes;
}.

(** A circuit of a client; [cc_status] is what [cbuild_finish] reported. *)
Record client_circ := mk_client {
  cc_id : Z;
  cc_hops : list hop_t;
  cc_guard_id : bytes;
  cc_build : option moor_cbuild_ctx_t;
  cc_status : option Z;
}.

(** A read on the connection while a blocking call waits. *)
Inductive recv_event :=
  | RecvCell (c : moor_cell_t)
  | RecvError.

Section Handshake.
  Context (hash : bytes → bytes) (hash_keyed : bytes → bytes → bytes).
  Context (kdf : bytes → Z → bytes → bytes).
  Context (crypto_scalarmult : bytes → bytes → option bytes).
  Context (kem_encapsulate : bytes → bytes → option (bytes * bytes)).
  Context (kem_decapsulate : bytes → bytes → option bytes).
  Context (chacha : bytes → bytes → bytes → Z * bytes).
  Context (inet_pton4 inet_pton6 : bytes → option bytes).
  Context (inet_ntop4 inet_ntop6 : bytes → bytes).
  Context (send_cell : moor_cell_t → bool).

Definition moor_crypto_dh (our_sk their_pk : bytes) : option bytes :=
  match crypto_scalarmult our_sk their_pk with
  | Some shared => if is_zero shared then None else Some shared
  | None => None
  end.

(** The seed of the keys and the authentication tag. *)
Definition cke_derive (dh1 dh2 relay_id_pk client_eph_pk relay_eph_pk : bytes) : bytes * bytes :=
  let salt := hash (str "moor-cke-v1" ++ relay_id_pk) in
  let '(ck, key_seed) := moor_crypto_hkdf hash salt (dh1 ++ dh2) in
  (key_seed, hash_keyed ck (str "moor-cke-verify" ++ relay_id_pk ++ client_eph_pk ++ relay_eph_pk)).

(** The same on the relay. *)
Definition relay_cke_derive (dh1 dh2 relay_id_pk client_eph_pk relay_eph_pk : bytes) : bytes * bytes :=
  let salt := hash (str "moor-cke-v1" ++ relay_id_pk) in
  let '(ck, key_seed) := moor_crypto_hkdf hash salt (dh1 ++ dh2) in
  (key_seed, hash_keyed ck (str "moor-cke-verify" ++ relay_id_pk ++ client_eph_pk ++ relay_eph_pk)).

(** The keys and digests that the classical handshake derives from its seed. *)
Definition classical_keys (key_seed : bytes) : bytes * bytes * bytes * bytes :=
  let backward_key := kdf key_seed 2 (str "moorBWD!") in
  (kdf key_seed 1 (str "moorFWD!"), backward_key, hash key_seed, hash_keyed backward_key key_seed).

Definition hop_with (keys : bytes * bytes * bytes * bytes) (node_id : bytes) : hop_t :=
  let '(fk, bk, fd, bd) := keys in mk_hop fk bk 0 0 fd bd node_id.

(** ** The relay *)

(** [++conn->create_window_count > CREATE_RATE_LIMIT], with the window restarted first. *)
Definition count_create (now : Z) (w : create_window) : bool * create_window :=
  let w := if CREATE_RATE_WINDOW <=? u64 (now - create_window_start w) then mk_window now 0 else w in
  let w := mk_window (create_window_start w) (u32 (create_window_count w + 1)) in
  (create_window_count w <=? CREATE_RATE_LIMIT, w).

(** [moor_circuit_alloc] and the fields set before the keys are known. *)
Definition fresh_circ (cid now : Z) : relay_circ :=
  mk_relay_circ (zeros 32) (zeros 32) 0 0 (zeros 32) (zeros 32) cid 0 true false 0 0 now None.

Definition set_keys (keys : bytes * bytes * bytes * bytes) (c : relay_circ) : relay_circ :=
  let '(fk, bk, fd, bd) := keys in
  {| c with relay_forward_key := fk; relay_backward_key := bk; relay_forward_nonce := 0;
            relay_backward_nonce := 0; relay_forward_digest := fd; relay_backward_digest := bd |}.

(** The two Diffie-Hellman values of the relay, and what is derived from them. *)
Definition relay_cke (cfg : relay_config) (client_eph_pk eph_pk eph_sk : bytes) : option (bytes * bytes) :=
  match moor_crypto_dh eph_sk client_eph_pk, moor_crypto_dh (cfg_onion_sk cfg) client_eph_pk with
  | Some dh1, Some dh2 => Some (relay_cke_derive dh1 dh2 (cfg_identity_pk cfg) client_eph_pk eph_pk)
  | _, _ => None
  end.

(** [known] tells whether the connection has a circuit of that id. The circuit and the
    answer sent, if the request is accepted. *)
Definition moor_relay_handle_create (cfg : relay_config) (now : Z) (w : create_window) (known alloc : bool)
    (eph_pk eph_sk : bytes) (cell : moor_cell_t) : create_window * option (or_circ * moor_cell_t) :=
  let '(allowed, w) := count_create now w in
  if negb allowed then (w, None) else
  let expected_id := slice 0 32 (payload cell) in
  let client_eph_pk := slice 32 32 (payload cell) in
  if negb (bytes_eqb expected_id (cfg_identity_pk cfg)) then (w, None) else
  if known then (w, None) else
  match relay_cke cfg client_eph_pk eph_pk eph_sk with
  | None => (w, None)
  | Some (key_seed, auth_tag) =>
      if negb alloc then (w, None) else
      let circ := set_keys (classical_keys key_seed) (fresh_circ (circuit_id cell) now) in
      let resp := moor_cell_created (circuit_id cell) eph_pk auth_tag in
      if send_cell resp then (w, Some (mk_or circ false (zeros 32) [] false false, resp)) else (w, None)
  end.

Definition moor_relay_handle_create_pq (cfg : relay_config) (now : Z) (w : create_window) (known alloc : bool)
    (eph_pk eph_sk : bytes) (cell : moor_cell_t) : create_window * option (or_circ * moor_cell_t) :=
  let '(allowed, w) := count_create now w in
  if negb allowed then (w, None) else
  let expected_id := slice 0 32 (payload cell) in
  let client_eph_pk := slice 32 32 (payload cell) in
  if negb (bytes_eqb expected_id (cfg_identity_pk cfg)) then (w, None) else
  if known then (w, None) else
  match relay_cke cfg client_eph_pk eph_pk eph_sk with
  | None => (w, None)
  | Some (key_seed, auth_tag) =>
      if negb alloc then (w, None) else
      let resp := {| (moor_cell_created (circuit_id cell) eph_pk auth_tag) with command := cell_code CELL_CREATED_PQ |} in
      if send_cell resp
      then (w, Some (mk_or (fresh_circ (circuit_id cell) now) true key_seed [] true false, resp))
      else (w, None)
  end.

(** [CELL_KEM_CT] from the connection of the circuit; [None] when the circuit is
    destroyed. *)
Definition relay_kem_ct (cfg : relay_config) (c : or_circ) (cell : moor_cell_t) : option or_circ :=
  if negb (pq_kem_pending c) then Some c else
  let space := (MOOR_KEM_CT_LEN - length (pq_kem_ct c))%nat in
  let chunk := if (MOOR_CELL_PAYLOAD <? space)%nat then MOOR_CELL_PAYLOAD else space in
  let ct := pq_kem_ct c ++ take chunk (payload cell) in
  if (MOOR_KEM_CT_LEN <=? length ct)%nat then
    match kem_decapsulate ct (cfg_kem_sk cfg) with
    | None => None
    | Some kem_ss =>
        Some (mk_or (set_keys (moor_crypto_circuit_kx_pq hash kdf kem_ss) (or_relay c)) (pq_capable c) (zeros 32) []
                false (extend_pending c))
    end
  else Some {| c with pq_kem_ct := ct |}.

(** [RELAY_KEM_OFFER] *)
Definition relay_kem_offer (c : or_circ) (relay : moor_relay_payload_t) : or_circ :=
  let space := (MOOR_KEM_CT_LEN - length (pq_kem_ct c))%nat in
  let chunk := Nat.min (Z.to_nat (data_length relay)) space in
  {| c with pq_kem_ct := pq_kem_ct c ++ take chunk (data relay) |}.

(** A KEM ciphertext in cells of 509 bytes; a round takes at least a byte. *)
Fixpoint kem_ct_cells (fuel : nat) (cid : Z) (ct : bytes) : list moor_cell_t :=
  match fuel, ct with
  | S fuel, _ :: _ =>
      mk_cell cid (cell_code CELL_KEM_CT) (blit 0 (take MOOR_CELL_PAYLOAD ct) (zeros MOOR_CELL_PAYLOAD))
        :: kem_ct_cells fuel cid (drop MOOR_CELL_PAYLOAD ct)
  | _, _ => []
  end.

(** [CREATED] and [CREATED_PQ] from the next hop: the cell sent back, and the buffered
    KEM ciphertext sent on. *)
Definition relay_handle_created (c : or_circ) (cell : moor_cell_t) : or_circ * list moor_cell_t * list moor_cell_t :=
  if negb (extend_pending c) then (c, [], []) else
  let c := {| c with extend_pending := false |} in
  if negb (prev_open (or_relay c)) then (c, [], []) else
  let pq := command cell =? cell_code CELL_CREATED_PQ in
  let ext_cmd := if pq then RELAY_EXTENDED_PQ else RELAY_EXTENDED in
  let '(r, ext_resp) := relay_originate chacha hash (or_relay c)
       (moor_cell_relay (prev_circuit_id (or_relay c)) (relay_code ext_cmd) 0 (Some (payload cell)) 64) in
  let c := {| c with or_relay := r |} in
  if pq && (0 <? Z.of_nat (length (pq_kem_ct c))) && next_open r then
    ({| c with pq_kem_ct := [] |}, [ext_resp],
     kem_ct_cells (length (pq_kem_ct c)) (next_circuit_id r) (pq_kem_ct c))
  else (c, [ext_resp], []).

Definition is_private_address (addr : bytes) : bool :=
  match inet_pton4 addr with Some ip => private_ipv4 (be_get ip) | None => false end ||
  match inet_pton6 addr with Some a => private_ipv6 a | None => false end ||
  bytes_eqb addr (str "localhost").

(** What the link specifiers of [RELAY_EXTEND2] say. *)
Record link_specs := mk_specs {
  ls_addr : bytes;
  ls_port : Z;
  ls_id : bytes;
  ls_have_addr : bool;
  ls_have_id : bool;
}.

(** One specifier with its data at [pos]. *)
Definition read_link_spec (ls_type : Z) (ls_len pos : nat) (data : bytes) (s : link_specs) : link_specs :=
  if (ls_type =? MOOR_LS_IPV4) && (ls_len =? 6)%nat then
    mk_specs (inet_ntop4 (slice pos 4 data)) (be_get (slice (pos + 4) 2 data)) (ls_id s) true (ls_have_id s)
  else if (ls_type =? MOOR_LS_IPV6) && (ls_len =? 18)%nat then
    mk_specs (inet_ntop6 (slice pos 16 data)) (be_get (slice (pos + 16) 2 data)) (ls_id s) true (ls_have_id s)
  else if (ls_type =? MOOR_LS_IDENTITY) && (ls_len =? 32)%nat then
    mk_specs (ls_addr s) (ls_port s) (slice pos 32 data) (ls_have_addr s) true
  else s.

(** [for (s = 0; s < n_spec && pos + 2 <= data_length; s++)]; the position after it is
    where the client's key starts. *)
Fixpoint parse_link_specs (n_spec pos : nat) (data : bytes) (data_length : nat) (s : link_specs) : link_specs * nat :=
  match n_spec with
  | O => (s, pos)
  | S n_spec =>
      if (pos + 2 <=? data_length)%nat then
        let ls_type := byte_at pos data in
        let ls_len := Z.to_nat (byte_at (pos + 1) data) in
        let pos := (pos + 2)%nat in
        if (data_length <? pos + ls_len)%nat then (s, pos)
        else parse_link_specs n_spec (pos + ls_len) data data_length (read_link_spec ls_type ls_len pos data s)
      else (s, pos)
  end.

(** The address of a relay whose address was left out, from the relay's own consensus. *)
Definition resolve_next (consensus : option (list moor_node_descriptor_t)) (s : link_specs) : link_specs :=
  if negb (ls_have_addr s) || bytes_eqb (take 4 (ls_addr s)) (str "0.0.") then
    match consensus with
    | Some rs =>
        match find_index (λ d, bytes_eqb (identity_pk d) (ls_id s)) rs with
        | Some i =>
            match rs !! i with
            | Some d => mk_specs (snprintf 64 (cstr (address d))) (or_port d) (ls_id s) true (ls_have_id s)
            | None => s
            end
        | None => s
        end
    | None => s
    end
  else s.

(** What an extend request leads to. *)
Inductive extend_action :=
  | ExtendRefused                                    (* return -1 *)
  | ExtendSend (create : moor_cell_t)                (* over an open channel *)
  | ExtendWorker (addr : bytes) (port : Z) (next_id client_eph_pk : bytes) (next_cid : Z) (pq : bool).

Definition create_for (pq : bool) (next_cid : Z) (next_id client_eph_pk : bytes) : moor_cell_t :=
  let cell := moor_cell_create next_cid next_id client_eph_pk in
  if pq then {| cell with command := cell_code CELL_CREATE_PQ |} else cell.

Definition link_next (next_cid : Z) (c : relay_circ) : relay_circ :=
  {| c with next_circuit_id := next_cid; next_open := true |}.

(** The fast path over a channel that is open, or a worker; [threads] tells whether a
    worker can be started. *)
Definition extend_dispatch (pq chan_open threads : bool) (next_cid : Z) (addr : bytes) (port : Z)
    (next_id client_eph_pk : bytes) (c : or_circ) : or_circ * extend_action :=
  if chan_open then
    let create_cell := create_for pq next_cid next_id client_eph_pk in
    if send_cell create_cell then
      ({| c with or_relay := link_next next_cid (or_relay c); extend_pending := true |}, ExtendSend create_cell)
    else (c, ExtendRefused)
  else if threads then
    ({| c with extend_pending := true |}, ExtendWorker addr port next_id client_eph_pk next_cid pq)
  else ({| c with extend_pending := false |}, ExtendRefused).

Definition count_early (c : or_circ) : or_circ :=
  {| c with or_relay := {| (or_relay c) with relay_early_count := u8 (relay_early_count (or_relay c) + 1) |} |}.

(** [RELAY_EXTEND2]; [cmd] is the command of the cell that carried it. *)
Definition relay_extend2 (cfg : relay_config) (consensus : option (list moor_node_descriptor_t))
    (chan_open threads : bool) (next_cid cmd : Z) (relay : moor_relay_payload_t) (c : or_circ) : or_circ * extend_action :=
  if negb (cmd =? cell_code CELL_RELAY_EARLY) then (c, ExtendRefused) else
  if MOOR_MAX_RELAY_EARLY <=? relay_early_count (or_relay c) then (c, ExtendRefused) else
  let c := count_early c in
  if extend_pending c then (c, ExtendRefused) else
  if data_length relay <? 3 then (c, ExtendRefused) else
  let data := data relay in
  let len := Z.to_nat (data_length relay) in
  let '(s, pos) := parse_link_specs (Z.to_nat (byte_at 0 data)) 1 data len (mk_specs [] 0 (zeros 32) false false) in
  if negb (ls_have_id s) then (c, ExtendRefused) else
  if (len <? pos + 32)%nat then (c, ExtendRefused) else
  let client_eph_pk := slice pos 32 data in
  let s := resolve_next consensus s in
  if negb (ls_have_addr s) || (ls_port s =? 0) then (c, ExtendRefused) else
  if bytes_eqb (ls_id s) (cfg_identity_pk cfg) then (c, ExtendRefused) else
  if is_private_address (ls_addr s) then (c, ExtendRefused) else
  extend_dispatch false chan_open threads next_cid (ls_addr s) (ls_port s) (ls_id s) client_eph_pk c.

(** [RELAY_EXTEND_PQ]; [inflight] tells whether the cap on such requests is reached. *)
Definition relay_extend_pq (cfg : relay_config) (inflight chan_open threads : bool) (next_cid cmd : Z)
    (relay : moor_relay_payload_t) (c : or_circ) : or_circ * extend_action :=
  if negb (cmd =? cell_code CELL_RELAY_EARLY) then (c, ExtendRefused) else
  if MOOR_MAX_RELAY_EARLY <=? relay_early_count (or_relay c) then (c, ExtendRefused) else
  let c := count_early c in
  if inflight then (c, ExtendRefused) else
  if data_length relay <? 130 then (c, ExtendRefused) else
  let data := data relay in
  let next_addr := cstr (take 63 data) in
  let next_port := be_get (slice 64 2 data) in
  let next_id := slice 66 32 data in
  let client_eph_pk := slice 98 32 data in
  if bytes_eqb next_id (cfg_identity_pk cfg) then (c, ExtendRefused) else
  if is_private_address next_addr then (c, ExtendRefused) else
  extend_dispatch true chan_open threads next_cid next_addr next_port next_id client_eph_pk c.

(** ** The client *)

(** The two Diffie-Hellman values of the client and the check of the tag: the seed. *)
Definition client_cke (eph_pk eph_sk relay_curve_pk relay_id_pk reply : bytes) : option bytes :=
  let relay_eph_pk := slice 0 32 reply in
  let recv_auth_tag := slice 32 32 reply in
  match moor_crypto_dh eph_sk relay_eph_pk, moor_crypto_dh eph_sk relay_curve_pk with
  | Some dh1, Some dh2 =>
      let '(key_seed, expected_auth) := cke_derive dh1 dh2 relay_id_pk eph_pk relay_eph_pk in
      if bytes_eqb recv_auth_tag expected_auth then Some key_seed else None
  | _, _ => None
  end.

(** The loop that waits for an answer: padding is skipped, cells of other circuits are
    dispatched ([on_other_cell]) and returned here; the end of the list is the deadline. *)
Fixpoint wait_reply (cid : Z) (evs : list recv_event) : list moor_cell_t * option moor_cell_t :=
  match evs with
  | RecvCell c :: evs =>
      if command c =? cell_code CELL_PADDING then wait_reply cid evs
      else if negb (circuit_id c =? cid) then
        let '(others, r) := wait_reply cid evs in (c :: others, r)
      else ([], Some c)
  | _ => ([], None)
  end.

(** The onion key of the consensus, tried when the given one does not verify: the first
    relay of that identity with another onion key that is not zero. *)
Fixpoint consensus_onion_pk (relay_id_pk tried : bytes) (rs : list moor_node_descriptor_t) : option bytes :=
  match rs with
  | [] => None
  | d :: rs =>
      if bytes_eqb (identity_pk d) relay_id_pk && negb (is_zero (onion_pk d)) && negb (bytes_eqb (onion_pk d) tried)
      then Some (onion_pk d) else consensus_onion_pk relay_id_pk tried rs
  end.

(** The hops after the call, or [None] for -1, and the cell sent. *)
Definition moor_circuit_create (cid : Z) (hops : list hop_t) (relay_id_pk relay_onion_pk : bytes) (coins : hop_coins)
    (consensus : list moor_node_descriptor_t) (evs : list recv_event) : option (list hop_t) :=
  let eph_pk := coin_eph_pk coins in
  let eph_sk := coin_eph_sk coins in
  if negb (send_cell (moor_cell_create cid relay_id_pk eph_pk)) then None else
  match (wait_reply cid evs).2 with
  | None => None
  | Some resp =>
      if negb (command resp =? cell_code CELL_CREATED) then None else
      match moor_crypto_dh eph_sk (slice 0 32 (payload resp)), moor_crypto_dh eph_sk relay_onion_pk with
      | Some _, Some _ =>
          let seed :=
            match client_cke eph_pk eph_sk relay_onion_pk relay_id_pk (payload resp) with
            | Some key_seed => Some key_seed
            | None =>
                match consensus_onion_pk relay_id_pk relay_onion_pk consensus with
                | Some alt => client_cke eph_pk eph_sk alt relay_id_pk (payload resp)
                | None => None
                end
            end in
          match seed with
          | None => None
          | Some key_seed =>
              if (MOOR_CIRCUIT_HOPS <=? length hops)%nat then None
              else Some (hops ++ [hop_with (classical_keys key_seed) (zeros 32)])
          end
      | _, _ => None
      end
  end.

Definition moor_circuit_create_pq (cid : Z) (hops : list hop_t) (relay_id_pk relay_onion_pk relay_kem_pk : bytes)
    (coins : hop_coins) (evs : list recv_event) : option (list hop_t * list moor_cell_t) :=
  let eph_pk := coin_eph_pk coins in
  let eph_sk := coin_eph_sk coins in
  if negb (send_cell (create_for true cid relay_id_pk eph_pk)) then None else
  match (wait_reply cid evs).2 with
  | None => None
  | Some resp =>
      if negb (command resp =? cell_code CELL_CREATED_PQ) then None else
      match client_cke eph_pk eph_sk relay_onion_pk relay_id_pk (payload resp) with
      | None => None
      | Some _ =>
          match kem_encapsulate (coin_kem coins) relay_kem_pk with
          | None => None
          | Some (kem_ct, kem_ss) =>
              let cells := kem_ct_cells (length kem_ct) cid kem_ct in
              if negb (forallb send_cell cells) then None else
              if (MOOR_CIRCUIT_HOPS <=? length hops)%nat then None
              else Some (hops ++ [hop_with (moor_crypto_circuit_kx_pq hash kdf kem_ss) (zeros 32)], cells)
          end
      end
  end.

(** Encrypt a relay cell for the last hop and send it: the cell as sent, or [None]. *)
Definition send_onion (cmd cid relay_cmd : Z) (data : bytes) (hops : list hop_t) : option moor_cell_t * list hop_t :=
  let cell := moor_cell_relay cid relay_cmd 0 (Some data) (u16 (Z.of_nat (length data))) in
  let '(rc, hops, p) := moor_circuit_encrypt_forward chacha hash hops (payload cell) in
  let cell := mk_cell cid cmd p in
  if negb (rc =? 0) then (None, hops) else if send_cell cell then (Some cell, hops) else (None, hops).

(** A KEM ciphertext in relay cells of 498 bytes. *)
Fixpoint offer_kem (fuel : nat) (cid : Z) (ct : bytes) (hops : list hop_t) : bool * list hop_t * list moor_cell_t :=
  match fuel, ct with
  | S fuel, _ :: _ =>
      match send_onion (cell_code CELL_RELAY) cid (relay_code RELAY_KEM_OFFER) (take MOOR_RELAY_DATA ct) hops with
      | (None, hops) => (false, hops, [])
      | (Some cell, hops) =>
          let '(ok, hops, cells) := offer_kem fuel cid (drop MOOR_RELAY_DATA ct) hops in (ok, hops, cell :: cells)
      end
  | _, _ => (true, hops, [])
  end.

(** The link specifiers of the next relay and the client's key. An address that is not
    numeric is sent as zeros. *)
Definition extend2_data (next : moor_node_descriptor_t) (eph_pk : bytes) : bytes :=
  let port := be_put 2 (or_port next) in
  let addr := cstr (address next) in
  let spec :=
    match inet_pton4 addr with
    | Some ia4 => MOOR_LS_IPV4 :: 6 :: ia4 ++ port
    | None =>
        match inet_pton6 addr with
        | Some ia6 => MOOR_LS_IPV6 :: 18 :: ia6 ++ port
        | None => MOOR_LS_IPV4 :: 6 :: zeros 4 ++ port
        end
    end in
  2 :: spec ++ MOOR_LS_IDENTITY :: 32 :: identity_pk next ++ eph_pk.

(** Address, port, identity and client key in 130 bytes. [addr] is what is copied into
    the first 64. *)
Definition extend_pq_data (addr : bytes) (next : moor_node_descriptor_t) (eph_pk : bytes) : bytes :=
  blit 0 addr (zeros 64) ++ be_put 2 (or_port next) ++ identity_pk next ++ eph_pk.

(** The answer to an extend request as the blocking calls read it: its relay command and
    data. *)
Definition read_extended (cid : Z) (hops : list hop_t) (old : moor_relay_payload_t) (evs : list recv_event)
    : option moor_relay_payload_t * list hop_t :=
  match (wait_reply cid evs).2 with
  | None => (None, hops)
  | Some resp =>
      if negb (command resp =? cell_code CELL_RELAY) then (None, hops) else
      let '(rc, hops, p) := moor_circuit_decrypt_backward chacha hash hops (payload resp) in
      if negb (rc =? 0) then (None, hops) else (Some (moor_relay_unpack old p), hops)
  end.

Definition moor_circuit_extend (cid : Z) (hops : list hop_t) (next : moor_node_descriptor_t) (coins : hop_coins)
    (old : moor_relay_payload_t) (evs : list recv_event) : Z * list hop_t :=
  if (MOOR_CIRCUIT_HOPS <=? length hops)%nat then (-1, hops) else
  let eph_pk := coin_eph_pk coins in
  match send_onion (cell_code CELL_RELAY_EARLY) cid (relay_code RELAY_EXTEND2) (extend2_data next eph_pk) hops with
  | (None, hops) => (-1, hops)
  | (Some _, hops) =>
      match read_extended cid hops old evs with
      | (None, hops) => (-1, hops)
      | (Some relay, hops) =>
          if negb (relay_command relay =? relay_code RELAY_EXTENDED) && negb (relay_command relay =? relay_code RELAY_EXTENDED2)
          then (-1, hops) else
          if data_length relay <? 64 then (-1, hops) else
          match client_cke eph_pk (coin_eph_sk coins) (onion_pk next) (identity_pk next) (data relay) with
          | None => (-1, hops)
          | Some key_seed => (0, hops ++ [hop_with (classical_keys key_seed) (identity_pk next)])
          end
      end
  end.

Definition moor_circuit_extend_pq (cid : Z) (hops : list hop_t) (next : moor_node_descriptor_t) (coins : hop_coins)
    (old : moor_relay_payload_t) (evs : list recv_event) : Z * list hop_t :=
  let eph_pk := coin_eph_pk coins in
  match kem_encapsulate (coin_kem coins) (kem_pk next) with
  | None => (-1, hops)
  | Some (kem_ct, kem_ss) =>
      match offer_kem (length kem_ct) cid kem_ct hops with
      | (false, hops, _) => (-1, hops)
      | (true, hops, _) =>
          match send_onion (cell_code CELL_RELAY_EARLY) cid (relay_code RELAY_EXTEND_PQ)
                  (extend_pq_data (address next) next eph_pk) hops with
          | (None, hops) => (-1, hops)
          | (Some _, hops) =>
              match read_extended cid hops old evs with
              | (None, hops) => (-1, hops)
              | (Some relay, hops) =>
                  if negb (relay_command relay =? relay_code RELAY_EXTENDED_PQ) || (data_length relay <? 64) then (-1, hops) else
                  match client_cke eph_pk (coin_eph_sk coins) (onion_pk next) (identity_pk next) (data relay) with
                  | None => (-1, hops)
                  | Some _ =>
                      if (MOOR_CIRCUIT_HOPS <=? length hops)%nat then (-1, hops)
                      else (0, hops ++ [hop_with (moor_crypto_circuit_kx_pq hash kdf kem_ss) (identity_pk next)])
                  end
              end
          end
      end
  end.

(** ** The non-blocking build *)

(** The status is reported and the build context is freed. *)
Definition cbuild_finish (status : Z) (c : client_circ) : client_circ :=
  match cc_build c with
  | None => c
  | Some _ => mk_client (cc_id c) (cc_hops c) (cc_guard_id c) None (Some status)
  end.

Definition wants_pq (d : moor_node_descriptor_t) : bool := has (features d) NODE_FEATURE_PQ && negb (is_zero (kem_pk d)).

(** The context of a client that starts with a hop: its keys, and whether it is a
    post-quantum hop. *)
Definition start_hop (d : moor_node_descriptor_t) (coins : hop_coins) (ctx : moor_cbuild_ctx_t) : moor_cbuild_ctx_t :=
  mk_ctx (ctx_state ctx) (ctx_path ctx) (coin_eph_pk coins) (coin_eph_sk coins) (onion_pk d) (wants_pq d)
    (ctx_kem_ct ctx) (ctx_kem_ss ctx).

Definition set_build (ctx : moor_cbuild_ctx_t) (c : client_circ) : client_circ :=
  mk_client (cc_id c) (cc_hops c) (cc_guard_id c) (Some ctx) (cc_status c).
Definition set_hops (hops : list hop_t) (c : client_circ) : client_circ :=
  mk_client (cc_id c) hops (cc_guard_id c) (cc_build c) (cc_status c).
Definition set_state (st : moor_cbuild_state_t) (ctx : moor_cbuild_ctx_t) : moor_cbuild_ctx_t :=
  mk_ctx st (ctx_path ctx) (ctx_eph_pk ctx) (ctx_eph_sk ctx) (ctx_relay_curve_pk ctx) (ctx_pq_hop ctx)
    (ctx_kem_ct ctx) (ctx_kem_ss ctx).
Definition set_kem (ct ss : bytes) (ctx : moor_cbuild_ctx_t) : moor_cbuild_ctx_t :=
  mk_ctx (ctx_state ctx) (ctx_path ctx) (ctx_eph_pk ctx) (ctx_eph_sk ctx) (ctx_relay_curve_pk ctx) (ctx_pq_hop ctx) ct ss.

Definition cbuild_send_create (coins : hop_coins) (c : client_circ) : client_circ * list moor_cell_t :=
  match cc_build c with
  | None => (c, [])
  | Some ctx =>
      match ctx_path ctx !! 0%nat with
      | None => (c, [])
      | Some guard =>
          let ctx := start_hop guard coins ctx in
          let c := mk_client (cc_id c) (cc_hops c) (identity_pk guard) (Some ctx) (cc_status c) in
          let cell := create_for (ctx_pq_hop ctx) (cc_id c) (identity_pk guard) (ctx_eph_pk ctx) in
          if send_cell cell then
            (set_build (set_state (if ctx_pq_hop ctx then CBUILD_WAIT_CREATED_PQ else CBUILD_WAIT_CREATED) ctx) c, [cell])
          else (cbuild_finish (-1) c, [])
      end
  end.

Definition cbuild_send_extend (hop_idx : nat) (coins : hop_coins) (c : client_circ) : client_circ * list moor_cell_t :=
  match cc_build c with
  | None => (c, [])
  | Some ctx =>
      match ctx_path ctx !! hop_idx with
      | None => (c, [])
      | Some next =>
          let ctx := start_hop next coins ctx in
          let offer :=
            if ctx_pq_hop ctx then
              match kem_encapsulate (coin_kem coins) (kem_pk next) with
              | None => None
              | Some (ct, ss) =>
                  match offer_kem (length ct) (cc_id c) ct (cc_hops c) with
                  | (false, _, _) => None
                  | (true, hops, cells) => Some (set_kem ct ss ctx, hops, cells)
                  end
              end
            else Some (ctx, cc_hops c, []) in
          match offer with
          | None => (cbuild_finish (-1) c, [])
          | Some (ctx, hops, cells) =>
              let '(relay_cmd, data) :=
                if ctx_pq_hop ctx
                then (relay_code RELAY_EXTEND_PQ, extend_pq_data (cstr (address next)) next (ctx_eph_pk ctx))
                else (relay_code RELAY_EXTEND2, extend2_data next (ctx_eph_pk ctx)) in
              match send_onion (cell_code CELL_RELAY_EARLY) (cc_id c) relay_cmd data hops with
              | (None, hops) => (cbuild_finish (-1) (set_hops hops c), cells)
              | (Some cell, hops) =>
                  (set_build (set_state (if (hop_idx =? 1)%nat then CBUILD_WAIT_EXTENDED_MID else CBUILD_WAIT_EXTENDED_EXIT) ctx)
                     (set_hops hops c), cells ++ [cell])
              end
          end
      end
  end.

(** The driver: the circuit is complete, or the next hop is asked for. *)
Definition cbuild_send_next_onion_skin (coins : hop_coins) (c : client_circ) : client_circ * list moor_cell_t :=
  if (MOOR_CIRCUIT_HOPS <=? length (cc_hops c))%nat then (cbuild_finish 0 c, [])
  else cbuild_send_extend (length (cc_hops c)) coins c.

(** The return value, the circuit and the cells sent; [coins] are those of the next hop,
    [kem_coins] those of the KEM of this one. *)
Definition moor_circuit_build_handle_created (coins : hop_coins) (kem_coins : bytes) (cell : moor_cell_t) (c : client_circ)
    : Z * client_circ * list moor_cell_t :=
  match cc_build c with
  | None => (-1, c, [])
  | Some ctx =>
      match ctx_state ctx, ctx_path ctx !! 0%nat with
      | (CBUILD_WAIT_CREATED | CBUILD_WAIT_CREATED_PQ), Some guard =>
          let expected := if ctx_pq_hop ctx then CELL_CREATED_PQ else CELL_CREATED in
          if negb (command cell =? cell_code expected) then (0, cbuild_finish (-1) c, []) else
          match client_cke (ctx_eph_pk ctx) (ctx_eph_sk ctx) (ctx_relay_curve_pk ctx) (identity_pk guard) (payload cell) with
          | None => (0, cbuild_finish (-1) c, [])
          | Some key_seed =>
              let hop :=
                if ctx_pq_hop ctx then
                  match kem_encapsulate kem_coins (kem_pk guard) with
                  | None => None
                  | Some (ct, ss) =>
                      let cells := kem_ct_cells (length ct) (cc_id c) ct in
                      if forallb send_cell cells
                      then Some (hop_with (moor_crypto_circuit_kx_pq hash kdf ss) (cc_guard_id c), cells) else None
                  end
                else Some (hop_with (classical_keys key_seed) (cc_guard_id c), []) in
              match hop with
              | None => (0, cbuild_finish (-1) c, [])
              | Some (h, cells) =>
                  let '(c, more) := cbuild_send_next_onion_skin coins (set_hops [h] c) in (0, c, cells ++ more)
              end
          end
      | _, _ => (-1, c, [])
      end
  end.

Definition moor_circuit_build_handle_extended (coins : hop_coins) (relay_cmd : Z) (data : bytes) (len : Z) (c : client_circ)
    : Z * client_circ * list moor_cell_t :=
  match cc_build c with
  | None => (-1, c, [])
  | Some ctx =>
      match ctx_state ctx, ctx_path ctx !! length (cc_hops c) with
      | (CBUILD_WAIT_EXTENDED_MID | CBUILD_WAIT_EXTENDED_EXIT), Some next =>
          if negb (relay_cmd =? relay_code RELAY_EXTENDED) && negb (relay_cmd =? relay_code RELAY_EXTENDED2) &&
             negb (relay_cmd =? relay_code RELAY_EXTENDED_PQ)
          then (0, cbuild_finish (-1) c, []) else
          if len <? 64 then (0, cbuild_finish (-1) c, []) else
          match client_cke (ctx_eph_pk ctx) (ctx_eph_sk ctx) (ctx_relay_curve_pk ctx) (identity_pk next) data with
          | None => (0, cbuild_finish (-1) c, [])
          | Some key_seed =>
              let keys :=
                if ctx_pq_hop ctx && (relay_cmd =? relay_code RELAY_EXTENDED_PQ)
                then moor_crypto_circuit_kx_pq hash kdf (ctx_kem_ss ctx) else classical_keys key_seed in
              let '(c, more) := cbuild_send_next_onion_skin coins (set_hops (cc_hops c ++ [hop_with keys (identity_pk next)]) c) in
              (0, c, more)
          end
      | _, _ => (-1, c, [])
      end
  end.
End Handshake.

(** ** Both ends derive the same keys *)

(** A descriptor that describes the relay: its identity, its onion key and its KEM key,
    with which the encapsulation that draws [coins] can be undone. *)
Definition describes (pub : bytes → bytes) (kem_encapsulate : bytes → bytes → option (bytes * bytes))
    (kem_decapsulate : bytes → bytes → option bytes) (coins : bytes) (d : moor_node_descriptor_t) (cfg : relay_config) : Prop :=
  identity_pk d = cfg_identity_pk cfg ∧ onion_pk d = pub (cfg_onion_sk cfg) ∧
  (wants_pq d = true → ∃ ct ss,
     kem_encapsulate coins (kem_pk d) = Some (ct, ss) ∧ length ct = MOOR_KEM_CT_LEN ∧ bytes_ok ct ∧
     kem_decapsulate ct (cfg_kem_sk cfg) = Some ss).

Lemma slice_app_first (a b : bytes) n : length a = n → slice 0 n (a ++ b) = a.
Proof. intros <-. unfold slice. rewrite drop_0. apply take_app_length. Qed.

Lemma slice_app_second (a b c : bytes) n k : length a = n → length b = k → slice n k (a ++ b ++ c) = b.
Proof. intros <- <-. unfold slice. by rewrite drop_app_length, take_app_length. Qed.

(** The payloads of [CREATE] and [CREATED]: two fields of 32 bytes. *)
Lemma two_fields a b : length a = 32%nat → length b = 32%nat →
  blit 32 b (blit 0 a (zeros MOOR_CELL_PAYLOAD)) = a ++ b ++ zeros 445.
Proof.
  intros Ha Hb. unfold blit. cbn [Nat.add]. rewrite Ha, Hb, take_0. cbn [app Nat.add].
  rewrite take_app_length' by done. f_equal. f_equal. rewrite drop_app_ge, Ha by lia. unfold zeros. rewrite !drop_replicate. done.
Qed.

Section Agreement.
  Context (hash : bytes → bytes) (hash_keyed : bytes → bytes → bytes) (kdf : bytes → Z → bytes → bytes).
  Context (crypto_scalarmult : bytes → bytes → option bytes).
  Context (kem_encapsulate : bytes → bytes → option (bytes * bytes)).
  Context (kem_decapsulate : bytes → bytes → option bytes).
  (** The public key of a secret key of X25519. *)
  Context (pub : bytes → bytes).
  Hypothesis pub_length : ∀ sk, length (pub sk) = 32%nat.
  Hypothesis hash_length : ∀ m, length (hash m) = 32%nat.
  Hypothesis hash_keyed_length : ∀ k m, length (hash_keyed k m) = 32%nat.
  (** Two honestly made key pairs give a common secret, which is not zero. *)
  Hypothesis dh_agrees : ∀ a b, ∃ s,
    crypto_scalarmult a (pub b) = Some s ∧ crypto_scalarmult b (pub a) = Some s ∧ is_zero s = false.

Lemma relay_cke_honest cfg x y : ∃ seed tag,
  relay_cke hash hash_keyed crypto_scalarmult cfg (pub x) (pub y) y = Some (seed, tag) ∧ length tag = 32%nat ∧
  (∃ k m, tag = hash_keyed k m) ∧
  ∀ rest, client_cke hash hash_keyed crypto_scalarmult (pub x) x (pub (cfg_onion_sk cfg)) (cfg_identity_pk cfg)
    (pub y ++ tag ++ rest) = Some seed.
Proof.
  unfold relay_cke, client_cke, moor_crypto_dh, cke_derive, relay_cke_derive.
  destruct (dh_agrees y x) as (s1 & E1 & E1' & Z1). destruct (dh_agrees (cfg_onion_sk cfg) x) as (s2 & E2 & E2' & Z2).
  rewrite E1, E2, Z1, Z2. cbn [moor_crypto_hkdf]. eexists _, _. split; [done|]. split; [apply hash_keyed_length|]. split; [eauto|].
  intros rest. rewrite slice_app_first by apply pub_length. rewrite slice_app_second by (apply pub_length || apply hash_keyed_length).
  by rewrite E1', E2', Z1, Z2, bytes_eqb_refl.
Qed.

Lemma hop_sync_keys keys id c : hop_sync (hop_with keys id) (set_keys keys c).
Proof. destruct keys as [[[fk bk] fd] bd]. by repeat split. Qed.

(** ** KEM ciphertexts in cells *)

Lemma kem_chunk_cell (ct : bytes) : (length ct <= MOOR_CELL_PAYLOAD)%nat →
  blit 0 ct (zeros MOOR_CELL_PAYLOAD) = ct ++ zeros (MOOR_CELL_PAYLOAD - length ct).
Proof. intros H. unfold blit. cbn [Nat.add]. unfold zeros. rewrite drop_replicate, take_0. done. Qed.

Lemma kem_ct_cells_length cid ct : length ct = MOOR_KEM_CT_LEN →
  kem_ct_cells (length ct) cid ct =
    [mk_cell cid (cell_code CELL_KEM_CT) (take 509 ct); mk_cell cid (cell_code CELL_KEM_CT) (take 509 (drop 509 ct));
     mk_cell cid (cell_code CELL_KEM_CT) (drop 1018 ct ++ zeros 439)].
Proof.
  unfold MOOR_KEM_CT_LEN. intros Hl. rewrite Hl.
  assert (Hcons : ∀ l : bytes, (0 < length l)%nat → ∃ x t, l = x :: t) by (intros [|x t] H; cbn in H; [lia|eauto]).
  assert (Hstep : ∀ fuel l, (0 < length l)%nat → kem_ct_cells (S fuel) cid l =
    mk_cell cid (cell_code CELL_KEM_CT) (take 509 l ++ zeros (509 - length (take 509 l))) :: kem_ct_cells fuel cid (drop 509 l)).
  { intros fuel l Hp. destruct (Hcons l Hp) as (x & t & ->). cbn [kem_ct_cells]. unfold MOOR_CELL_PAYLOAD.
    rewrite <- kem_chunk_cell; [done|]. rewrite length_take. unfold MOOR_CELL_PAYLOAD. lia. }
  change 1088%nat with (S (S (S 1085))). rewrite !Hstep by (rewrite ?length_drop, ?Hl; lia).
  rewrite !drop_drop. change (509 + 509)%nat with 1018%nat. change (509 + 1018)%nat with 1527%nat. change (1018 + 509)%nat with 1527%nat.
  rewrite (drop_ge ct 1527) by lia. cbn [kem_ct_cells].
  rewrite (take_ge (drop 1018 ct)) by (rewrite length_drop; lia).
  rewrite !length_take, !length_drop, Hl. cbn [Nat.min Nat.sub zeros replicate]. by rewrite !app_nil_r.
Qed.

(** The relay has the ciphertext and the keys after the last of its cells. *)
Lemma kem_ct_received cfg c cid ct ss : length ct = MOOR_KEM_CT_LEN → kem_decapsulate ct (cfg_kem_sk cfg) = Some ss →
  pq_kem_pending c = true → pq_kem_ct c = [] →
  foldl (λ oc cell, oc ≫= λ c, relay_kem_ct hash kdf kem_decapsulate cfg c cell) (Some c) (kem_ct_cells (length ct) cid ct) =
    Some (mk_or (set_keys (moor_crypto_circuit_kx_pq hash kdf ss) (or_relay c)) (pq_capable c) (zeros 32) [] false (extend_pending c)).
Proof.
  intros Hl Hd Hp H0. rewrite kem_ct_cells_length by done. unfold MOOR_KEM_CT_LEN in Hl. cbn [foldl mbind option_bind].
  destruct c as [r cap seed ct0 pend ext]. cbn [pq_kem_pending pq_kem_ct] in *. subst.
  assert (L1 : length (take 509 ct) = 509%nat) by (rewrite length_take; lia).
  assert (L2 : length (take 509 (drop 509 ct)) = 509%nat) by (rewrite length_take, length_drop; lia).
  assert (L3 : length (drop 1018 ct) = 70%nat) by (rewrite length_drop; lia).
  assert (E : ∀ have pl n, length have = n → (n + 509 < 1088)%nat → length pl = 509%nat →
    relay_kem_ct hash kdf kem_decapsulate cfg (mk_or r cap seed have true ext) (mk_cell cid (cell_code CELL_KEM_CT) pl) =
      Some (mk_or r cap seed (have ++ pl) true ext)).
  { intros have pl n Hn Hlt Hpl. unfold relay_kem_ct. cbn [pq_kem_pending pq_kem_ct payload negb].
    rewrite Hn. unfold MOOR_CELL_PAYLOAD, MOOR_KEM_CT_LEN.
    rewrite (proj2 (Nat.ltb_lt 509 (1088 - n))) by lia. rewrite (take_ge pl) by lia.
    rewrite (proj2 (Nat.leb_gt _ _)) by (rewrite length_app; lia). done. }
  rewrite (E [] (take 509 ct) 0%nat) by (done || lia). cbn [mbind option_bind app].
  rewrite (E (take 509 ct) (take 509 (drop 509 ct)) 509%nat) by (done || lia). cbn [mbind option_bind].
  unfold relay_kem_ct. cbn [pq_kem_pending pq_kem_ct payload negb].
  assert (L12 : length (take 509 ct ++ take 509 (drop 509 ct)) = 1018%nat) by (rewrite length_app, L1, L2; done). rewrite L12.
  unfold MOOR_CELL_PAYLOAD, MOOR_KEM_CT_LEN. cbn [Nat.add Nat.sub Nat.ltb Nat.leb].
  rewrite take_app_length' by done.
  assert (Ect : (take 509 ct ++ take 509 (drop 509 ct)) ++ drop 1018 ct = ct).
  { rewrite <- app_assoc. rewrite <- (take_drop 509 ct) at 4. f_equal. rewrite <- (take_drop 509 (drop 509 ct)) at 2. by rewrite drop_drop. }
  rewrite Ect, Hl, Hd. done.
Qed.
End Agreement.

(** ** Where a relay may be sent *)

(** The networks of the comments, as base address and prefix length. *)
Definition forbidden_ipv4 : list (Z * Z) :=
  [(127 * 2 ^ 24, 8); (10 * 2 ^ 24, 8); (172 * 2 ^ 24 + 16 * 2 ^ 16, 12); (192 * 2 ^ 24 + 168 * 2 ^ 16, 16);
   (169 * 2 ^ 24 + 254 * 2 ^ 16, 16); (0, 8); (100 * 2 ^ 24 + 64 * 2 ^ 16, 10); (224 * 2 ^ 24, 4); (240 * 2 ^ 24, 4)].

Definition in_network (ip : Z) (net : Z * Z) : Prop := net.1 <= ip < net.1 + 2 ^ (32 - net.2).

Lemma shiftr_range ip k v : 0 <= k → (Z.shiftr ip k =? v) = true ↔ v * 2 ^ k <= ip < v * 2 ^ k + 2 ^ k.
Proof.
  intros Hk. rewrite Z.eqb_eq, Z.shiftr_div_pow2 by done. assert (0 < 2 ^ k) by lia. split.
  - intros <-. pose proof (Z.div_mod ip (2 ^ k) ltac:(lia)). pose proof (Z.mod_pos_bound ip (2 ^ k) ltac:(lia)). nia.
  - intros H1. symmetry. apply (Z.div_unique _ _ _ (ip - v * 2 ^ k)); lia.
Qed.

(** The shifts of the code and the networks of its comments agree. *)
Lemma private_ipv4_networks ip : private_ipv4 ip = true ↔ Exists (in_network ip) forbidden_ipv4.
Proof.
  unfold private_ipv4. rewrite !orb_true_iff, !shiftr_range by lia. unfold forbidden_ipv4.
  rewrite !Exists_cons, Exists_nil. unfold in_network. cbn [fst snd].
  change (Z.lor (Z.shiftl 172 4) 1) with 2753. change (Z.lor (Z.shiftl 192 8) 168) with 49320.
  change (Z.lor (Z.shiftl 169 8) 254) with 43518. change (Z.lor (Z.shiftl 100 2) 1) with 401. lia.
Qed.

Lemma cstr_app_nul s r : Forall (λ b, b ≠ 0) s → cstr (s ++ 0 :: r) = s.
Proof.
  induction 1 as [|b s Hb _ IH]; [done|]. cbn [app cstr]. rewrite (proj2 (Z.eqb_neq _ _)) by done. by rewrite IH.
Qed.

Section Forbidden.
  Context (inet_pton4 inet_pton6 : bytes → option bytes) (inet_ntop4 inet_ntop6 : bytes → bytes).
  Context (send_cell : moor_cell_t → bool).

(** The address that a request makes the relay connect to. *)
Definition dialled (r : or_circ * extend_action) (addr : bytes) : Prop :=
  ∃ port id pk cid pq, r.2 = ExtendWorker addr port id pk cid pq.

Lemma dialled_dispatch pq chan_open threads next_cid a port id pk c addr :
  dialled (extend_dispatch send_cell pq chan_open threads next_cid a port id pk c) addr → addr = a.
Proof.
  unfold dialled, extend_dispatch. intros (p & i & k & n & q & E). repeat case_match; cbn in E; simplify_eq; done.
Qed.

Lemma extend2_dialled cfg consensus chan_open threads next_cid cmd relay c addr :
  dialled (relay_extend2 inet_pton4 inet_pton6 inet_ntop4 inet_ntop6 send_cell cfg consensus chan_open threads next_cid cmd relay c) addr →
  is_private_address inet_pton4 inet_pton6 addr = false.
Proof.
  unfold relay_extend2. intros H.
  repeat (case_match; [by destruct H as (? & ? & ? & ? & ? & ?)|]). destruct (parse_link_specs _ _ _ _ _ _ _) as [s pos].
  repeat (case_match; [by destruct H as (? & ? & ? & ? & ? & ?)|]). by apply dialled_dispatch in H as ->.
Qed.

Lemma extend_pq_dialled cfg inflight chan_open threads next_cid cmd relay c addr :
  dialled (relay_extend_pq inet_pton4 inet_pton6 send_cell cfg inflight chan_open threads next_cid cmd relay c) addr →
  is_private_address inet_pton4 inet_pton6 addr = false.
Proof.
  unfold relay_extend_pq. intros H.
  repeat (case_match; [by destruct H as (? & ? & ? & ? & ? & ?)|]). by apply dialled_dispatch in H as ->.
Qed.


(** An address that [inet_pton] reads as neither IPv4 nor IPv6 passes the filter
    whatever it names: a relay with a free worker hands the text of [RELAY_EXTEND_PQ] on
    to be resolved, so that "127.1" or a host name of the internal network is dialled. *)
Theorem extend_pq_dials_names cfg next_cid relay c addr :
  130 <= data_length relay → take 63 (data relay) = addr ++ zeros (63 - length addr) →
  (0 < length addr <= 62)%nat → Forall (λ b, b ≠ 0) addr →
  inet_pton4 addr = None → inet_pton6 addr = None → addr ≠ str "localhost" →
  slice 66 32 (data relay) ≠ cfg_identity_pk cfg → relay_early_count (or_relay c) < MOOR_MAX_RELAY_EARLY →
  dialled (relay_extend_pq inet_pton4 inet_pton6 send_cell cfg false false true next_cid (cell_code CELL_RELAY_EARLY) relay c) addr.
Proof.
  intros Hlen Haddr Hl Hnz H4 H6 Hlocal Hid He.
  assert (Hc : cstr (take 63 (data relay)) = addr).
  { rewrite Haddr. replace (63 - length addr)%nat with (S (62 - length addr)) by lia. change (zeros (S ?n)) with (0 :: zeros n).
    by apply cstr_app_nul. }
  unfold relay_extend_pq. rewrite Z.eqb_refl, Hc. cbn [negb]. rewrite (proj2 (Z.leb_gt _ _)) by done.
  rewrite (proj2 (Z.ltb_ge _ _)) by lia. unfold bytes_eqb, is_private_address.
  rewrite bool_decide_eq_false_2 by done. rewrite H4, H6. cbn [orb]. unfold bytes_eqb. rewrite bool_decide_eq_false_2 by done.
  unfold dialled. cbn. eauto 10.
Qed.
End Forbidden.

(** An address function that knows one address, and a request for [addr]. *)
Definition one_pton (a : bytes) : option bytes := if bytes_eqb a (str "9.1.1.1") then Some [9; 1; 1; 1] else None.
Definition request_for (addr : bytes) : moor_relay_payload_t :=
  mk_relay (relay_code RELAY_EXTEND_PQ) 0 0 (zeros 4) 130 (blit 0 addr (zeros MOOR_RELAY_DATA)).
Definition idle_circ : or_circ := mk_or (fresh_circ 7 0) false (zeros 32) [] false false.
Definition lone_config : relay_config := mk_config (replicate 32 1) (replicate 32 2) (replicate 32 3).


Lemma extend_pq_dials_names_witness :
  dialled (relay_extend_pq one_pton (λ _, None) (λ _, true) lone_config false false true 9 (cell_code CELL_RELAY_EARLY)
    (request_for (str "127.1")) idle_circ) (str "127.1").
Proof.
  apply (extend_pq_dials_names one_pton (λ _, None) (λ _, true) lone_config 9 (request_for (str "127.1")) idle_circ (str "127.1"));
    first [by vm_compute|cbn; lia|repeat constructor; discriminate|discriminate].
Defined.
