(* ===== verification/Build.v ===== *)
(** * Build: a circuit is built through honest relays

    Composes the client of [Handshake] with its relays and the onion encryption of
    [Onion]: [extend_round] carries the cells that the client sent along the relays it
    has, to the next relay and back, and [build_run] builds a circuit of three hops that
    way. The theorem shows that the build ends, and that keys, nonces and digests of all
    hops agree, which is what the theorems of [Onion] start from. *)

From Stdlib Require Import String.
From S2P Require Import Prelude Wire Text Cell Onion Descriptor Crypto Handshake.

Local Open Scope Z_scope.

(** How a run over the network ends: a relay on the way may take a cell for its own,
    since the digest has 32 bits. *)
Inductive run (A : Type) : Type :=
  | Early
  | Failed
  | Ran (a : A).
Arguments Early {A}.
Arguments Failed {A}.
Arguments Ran {A} a.

(** A relay that is asked to join a circuit: its keys, the secret key it draws, the
    counter of its connection, the time and the circuit id on the link to it. *)
Record relay_env := mk_env {
  env_cfg : relay_config;
  env_eph_sk : bytes;
  env_window : create_window;
  env_cid : Z;
}.

Section Network.
  Context (hash : bytes → bytes) (hash_keyed : bytes → bytes → bytes) (kdf : bytes → Z → bytes → bytes).
  Context (crypto_scalarmult : bytes → bytes → option bytes).
  Context (kem_encapsulate : bytes → bytes → option (bytes * bytes)).
  Context (kem_decapsulate : bytes → bytes → option bytes).
  Context (chacha : bytes → bytes → bytes → Z * bytes).
  Context (inet_pton4 inet_pton6 : bytes → option bytes) (inet_ntop4 inet_ntop6 : bytes → bytes).
  Context (pub : bytes → bytes).
  (** The contents of the uninitialised local variables, and the time. *)
  Context (old : moor_relay_payload_t) (now : Z).

Definition sends : moor_cell_t → bool := λ _, true.

(** The last relay of the path and a cell that is its own, over open channels. *)
Definition last_handle (cfg : relay_config) (next_cid cmd : Z) (x : moor_relay_payload_t) (c : or_circ)
    : or_circ * option moor_cell_t :=
  let request := λ r : or_circ * extend_action,
    match r with (c, ExtendSend cell) => (c, Some cell) | (c, _) => (c, None) end in
  if relay_command x =? relay_code RELAY_KEM_OFFER then (relay_kem_offer c x, None)
  else if relay_command x =? relay_code RELAY_EXTEND2 then
    request (relay_extend2 inet_pton4 inet_pton6 inet_ntop4 inet_ntop6 sends cfg None true true next_cid cmd x c)
  else if relay_command x =? relay_code RELAY_EXTEND_PQ then
    request (relay_extend_pq inet_pton4 inet_pton6 sends cfg false true true next_cid cmd x c)
  else (c, None).

(** The cells of the client along the path, until one asks for another relay. *)
Fixpoint deliver (cfg : relay_config) (next_cid : Z) (cells : list moor_cell_t) (rs : list relay_circ) (c : or_circ)
    : run (list relay_circ * or_circ * option moor_cell_t) :=
  match cells with
  | [] => Ran (rs, c, None)
  | cell :: cells =>
      match path_forward chacha hash (rs ++ [or_relay c]) cell old now with
      | (rs', Some (k, x)) =>
          if (k =? length rs)%nat then
            match rs' !! k with
            | Some r =>
                match last_handle cfg next_cid (command cell) x {| c with or_relay := r |} with
                | (c, Some create) => Ran (take k rs', c, Some create)
                | (c, None) => deliver cfg next_cid cells (take k rs') c
                end
            | None => Failed
            end
          else Early
      | (_, None) => Failed
      end
  end.

(** The next relay and the request of the last one. *)
Definition join (env : relay_env) (create : moor_cell_t) : option (or_circ * moor_cell_t) :=
  let eph_sk := env_eph_sk env in
  snd (if command create =? cell_code CELL_CREATE_PQ
       then moor_relay_handle_create_pq hash hash_keyed crypto_scalarmult sends (env_cfg env) now (env_window env)
              false true (pub eph_sk) eph_sk create
       else moor_relay_handle_create hash hash_keyed kdf crypto_scalarmult sends (env_cfg env) now (env_window env)
              false true (pub eph_sk) eph_sk create).

Definition receive_kem (cfg : relay_config) (c : or_circ) (cells : list moor_cell_t) : option or_circ :=
  foldl (λ oc cell, oc ≫= λ c, relay_kem_ct hash kdf kem_decapsulate cfg c cell) (Some c) cells.

(** One extension: the client's cells to the last relay, its request to the next, the
    answer back to the client. The client with the cells it sends then, the relays of
    the path and the new one. *)
Definition extend_round (coins : hop_coins) (cfg : relay_config) (env : relay_env) (cells : list moor_cell_t)
    (c : client_circ) (rs : list relay_circ) (last : or_circ)
    : run (client_circ * list moor_cell_t * list relay_circ * or_circ) :=
  match deliver cfg (env_cid env) cells rs last with
  | Early => Early
  | Ran (rs, last, Some create) =>
      match join env create with
      | None => Failed
      | Some (next, created) =>
          let '(last, back, kem) := relay_handle_created hash chacha last created in
          match receive_kem (env_cfg env) next kem, back with
          | Some next, [ext] =>
              match path_backward chacha rs ext with
              | (rs, Some cell) =>
                  let '(rc, hops, p) := moor_circuit_decrypt_backward chacha hash (cc_hops c) (payload cell) in
                  if negb (rc =? 0) then Failed else
                  let relay := moor_relay_unpack old p in
                  let '(rc, c, more) :=
                    moor_circuit_build_handle_extended hash hash_keyed kdf crypto_scalarmult kem_encapsulate chacha
                      inet_pton4 inet_pton6 sends coins (relay_command relay) (data relay) (data_length relay)
                      (set_hops hops c) in
                  if negb (rc =? 0) then Failed else Ran (c, more, rs ++ [or_relay last], next)
              | (_, None) => Failed
              end
          | _, _ => Failed
          end
      end
  | _ => Failed
  end.

(** A whole build: the coins of the three hops and of the first KEM. *)
Definition build_run (coins0 coins1 coins2 : hop_coins) (kem_coins : bytes) (env0 env1 env2 : relay_env) (c : client_circ)
    : run (client_circ * list relay_circ) :=
  match cbuild_send_create sends coins0 c with
  | (c, [create]) =>
      match join env0 create with
      | None => Failed
      | Some (guard, created) =>
          let '(_, c, cells) :=
            moor_circuit_build_handle_created hash hash_keyed kdf crypto_scalarmult kem_encapsulate chacha
              inet_pton4 inet_pton6 sends coins1 kem_coins created c in
          match receive_kem (env_cfg env0) guard (List.filter (λ x, command x =? cell_code CELL_KEM_CT) cells) with
          | None => Failed
          | Some guard =>
              match extend_round coins2 (env_cfg env0) env1
                      (List.filter (λ x, negb (command x =? cell_code CELL_KEM_CT)) cells) c [] guard with
              | Ran (c, cells, rs, middle) =>
                  match extend_round coins2 (env_cfg env1) env2 cells c rs middle with
                  | Ran (c, _, rs, exit) => Ran (c, rs ++ [or_relay exit])
                  | Early => Early
                  | Failed => Failed
                  end
              | Early => Early
              | Failed => Failed
              end
          end
      end
  | _ => Failed
  end.
End Network.

(** ** Client and relays in step *)

Definition hop_bound (K : Z) (h : hop_t) : Prop := 0 <= forward_nonce h <= K ∧ 0 <= backward_nonce h <= K.

Definition link_ready (E : Z) (r : relay_circ) : Prop :=
  can_forward r ∧ prev_open r = true ∧ 0 <= relay_early_count r <= E.

(** The client and the relays of its circuit agree on every hop, with at most [K] cells
    sent in a direction and [E] of them [RELAY_EARLY], and the relays pass cells on. *)
Record in_step (K E : Z) (hops : list hop_t) (rs : list relay_circ) (last : or_circ) : Prop := mk_in_step {
  step_sync : Forall2 hop_sync hops (rs ++ [or_relay last]);
  step_bound : Forall (hop_bound K) hops;
  step_ready : Forall (link_ready E) rs;
  step_prev : prev_open (or_relay last) = true;
  step_queue : queue_depth (or_relay last) <= MOOR_CIRC_CELL_QUEUE_MAX;
  step_early : 0 <= relay_early_count (or_relay last) <= E;
}.

Lemma in_step_hops K E hops rs last : in_step K E hops rs last →
  ∃ hi h, hops = hi ++ [h] ∧ Forall2 hop_sync hi rs ∧ hop_sync h (or_relay last).
Proof.
  intros [Hs _ _ _ _ _]. apply Forall2_app_inv_r in Hs as (hi & l & H1 & H2 & ->).
  inversion H2 as [|h r l' rs' Hh Hl]; subst. inversion Hl; subst. eauto.
Qed.

(** Changing the handshake state of the last relay changes nothing. *)
Lemma in_step_last K E hops rs last last' : or_relay last' = or_relay last →
  in_step K E hops rs last → in_step K E hops rs last'.
Proof. intros E' [H1 H2 H3 H4 H5 H6]. constructor; rewrite ?E'; done. Qed.

Lemma in_step_weaken K K' E E' hops rs last : K <= K' → E <= E' → in_step K E hops rs last → in_step K' E' hops rs last.
Proof.
  intros HK HE [H1 H2 H3 H4 H5 H6]. constructor; [done| | |done|done|lia].
  - eapply Forall_impl; [exact H2|]. unfold hop_bound. lia.
  - eapply Forall_impl; [exact H3|]. unfold link_ready. intros r (? & ? & ?). split_and!; [done|done|lia|lia].
Qed.

Lemma hop_bound_live K hops : K < UINT64_MAX → Forall (hop_bound K) hops → Forall forward_live hops ∧ Forall backward_live hops.
Proof.
  intros HK H. split; (eapply Forall_impl; [exact H|]); unfold hop_bound, forward_live, backward_live; lia.
Qed.

(** The payload of a relay cell with data [d]. *)
Definition relay_msg (rcmd : Z) (d : bytes) : moor_relay_payload_t :=
  mk_relay rcmd 0 0 (zeros 4) (Z.of_nat (length d)) (blit 0 d (zeros MOOR_RELAY_DATA)).

Lemma relay_msg_ok rcmd d : is_u8 rcmd → bytes_ok d → (length d <= MOOR_RELAY_DATA)%nat → relay_ok (relay_msg rcmd d).
Proof.
  intros Hr Hd Hl. unfold relay_ok, relay_msg, MOOR_RELAY_DATA in *. cbn [relay_command recognized stream_id digest data_length data].
  split_and!; [done|done|done|done|by apply bytes_ok_zeros|unfold is_u16; lia| |].
  - rewrite length_blit; rewrite length_zeros; lia.
  - apply bytes_ok_blit; [done|by apply bytes_ok_zeros].
Qed.

Lemma relay_msg_cell cid rcmd d : (0 < length d <= MOOR_RELAY_DATA)%nat →
  payload (moor_cell_relay cid rcmd 0 (Some d) (u16 (Z.of_nat (length d)))) = moor_relay_pack (relay_msg rcmd d).
Proof.
  intros Hl. unfold MOOR_RELAY_DATA in Hl. rewrite u16_small by (unfold is_u16; lia). unfold moor_cell_relay.
  rewrite (proj2 (Z.ltb_lt _ _)), (proj2 (Z.leb_le _ _)) by (unfold MOOR_RELAY_DATA; lia). cbn [andb payload].
  rewrite Nat2Z.id, take_ge by lia. done.
Qed.

(** What the far end reads of the data. *)
Lemma relay_msg_data old rcmd d x : (length d <= MOOR_RELAY_DATA)%nat →
  data x = blit 0 (take (Z.to_nat (data_length (relay_msg rcmd d))) (data (relay_msg rcmd d))) (data old) →
  ∃ rest, data x = d ++ rest.
Proof.
  intros Hl ->. cbn [relay_msg data_length data]. rewrite Nat2Z.id. unfold blit. rewrite !take_0. cbn [app].
  rewrite take_app_length. eexists. reflexivity.
Qed.

Section Steps.
  Context (chacha : bytes → bytes → bytes → Z * bytes) (ks : bytes → bytes → nat → bytes) (hash : bytes → bytes).
  Hypothesis chacha_xors : ∀ m n k, chacha m n k = (0, xor_bytes (ks n k (length m)) m).
  Hypothesis ks_length : ∀ n k l, length (ks n k l) = l.
  Hypothesis hash_length : ∀ m, length (hash m) = 32%nat.
  Context (old : moor_relay_payload_t) (now : Z).
  Hypothesis old_length : length (data old) = MOOR_RELAY_DATA.

Lemma may_pass_ready cmd E rs : (cmd = cell_code CELL_RELAY_EARLY → E < MOOR_MAX_RELAY_EARLY) →
  Forall (link_ready E) rs → Forall (may_pass cmd) rs.
Proof.
  intros HE H. eapply Forall_impl; [exact H|]. intros r (Hf & _ & He). split; [done|]. intros Hc. specialize (HE Hc). lia.
Qed.

(** The bound on [RELAY_EARLY] cells after one more cell. *)
Definition early_after (cmd E : Z) : Z := if cmd =? cell_code CELL_RELAY_EARLY then E + 1 else E.

Lemma link_ready_passed cmd E r : link_ready E r → E < MOOR_MAX_RELAY_EARLY → link_ready (early_after cmd E) (passed cmd now r).
Proof.
  intros (Hf & Hp & He) HE. unfold passed, early_after, MOOR_MAX_RELAY_EARLY in *. case_match; unfold link_ready, can_forward in *; cbn in *; split_and!; try tauto; try lia.
  all: rewrite u8_small by (unfold is_u8; lia); lia.
Qed.

(** A cell of the client reaches the last relay, with everything in step, or is taken by
    a relay on the way. *)
Lemma send_step cmd cid rcmd d hops rs last K E :
  in_step K E hops rs last → K < 2 ^ 32 → E < MOOR_MAX_RELAY_EARLY →
  is_u8 rcmd → bytes_ok d → (0 < length d <= MOOR_RELAY_DATA)%nat →
  ∃ cell hops' rs' r, send_onion hash chacha sends cmd cid rcmd d hops = (Some cell, hops') ∧ command cell = cmd ∧
    length hops' = length hops ∧ length rs' = length rs ∧
    relay_early_count r = relay_early_count (or_relay last) ∧
    in_step (K + 1) (early_after cmd E) hops' rs' {| last with or_relay := r |} ∧
    ((∃ rs' k x, path_forward chacha hash (rs ++ [or_relay last]) cell old now = (rs', Some (k, x)) ∧ (k < length rs)%nat) ∨
     ∃ x rest, path_forward chacha hash (rs ++ [or_relay last]) cell old now = (rs' ++ [r], Some (length rs, x)) ∧
       relay_command x = rcmd ∧ data_length x = Z.of_nat (length d) ∧ data x = d ++ rest).
Proof.
  intros Hin HK HE Hr Hd Hl. pose proof (in_step_hops _ _ _ _ _ Hin) as (hi & h & -> & Hsync & Hs).
  destruct Hin as [_ Hb Hready Hprev Hqueue Hearly].
  destruct (hop_bound_live K _ ltac:(unfold UINT64_MAX; lia) Hb) as [Hlive _].
  unfold send_onion. rewrite relay_msg_cell by done. rewrite (encrypt_forward_eq chacha ks) by done.
  pose proof (path_forward_passes chacha ks hash chacha_xors ks_length hash_length hi h rs (or_relay last) (relay_msg rcmd d) old now
    (mk_cell cid cmd (wrap ks (hi ++ [h]) (moor_relay_set_digest hash (moor_relay_pack (relay_msg rcmd d)) (forward_digest h)).1))
    Hsync Hs Hlive (may_pass_ready cmd E rs ltac:(done) Hready) (relay_msg_ok rcmd d Hr Hd ltac:(lia))
    ltac:(cbn; unfold MOOR_RELAY_DATA in *; lia) eq_refl) as Hpath.
  destruct (moor_relay_set_digest hash _ _) as [q dg]. cbn [fst] in Hpath. cbn [negb Z.eqb sends].
  eexists _, _, (map (passed cmd now) rs), {| (peeled (or_relay last) now) with relay_forward_digest := dg |}.
  split; [done|]. split; [done|]. split; [by rewrite length_map, !length_app|]. split; [by rewrite length_map|]. split; [done|].
  split.
  2:{ destruct (Hpath eq_refl) as [(rs' & k & x & E1 & Hk)|E1]; [left; eauto|right].
    destruct (relay_msg_data old rcmd d (mk_relay 0 0 0 [] 0 (blit 0 (take (Z.to_nat (data_length (relay_msg rcmd d))) (data (relay_msg rcmd d))) (data old))) ltac:(lia) eq_refl) as [rest Hrest].
    eexists _, rest. split; [exact E1|]. done. }
  apply Forall_app in Hb as [Hb1 Hb2]. apply Forall_cons_1 in Hb2 as [Hb2 _]. constructor; cbn [or_relay].
  - rewrite map_app. apply Forall2_app.
    + apply Forall2_fmap_2. eapply Forall2_impl; [exact Hsync|]. intros a b Hab.
      apply (hop_sync_peeled _ _ now) in Hab. unfold passed. case_match; [|done]. by destruct Hab as (? & ? & ? & ? & ? & ?).
    + constructor; [|constructor]. destruct Hs as (? & ? & ? & ? & ? & ?). unfold hop_sync. cbn. repeat split; congruence.
  - rewrite map_app. apply Forall_app. split; [|constructor; [|constructor]].
    + apply Forall_fmap. eapply Forall_impl; [exact Hb1|]. unfold hop_bound. cbn. lia.
    + unfold hop_bound in *. cbn. lia.
  - apply Forall_fmap. eapply Forall_impl; [exact Hready|]. intros a Ha. by apply link_ready_passed.
  - done.
  - done.
  - cbn. unfold early_after. case_match; lia.
Qed.
End Steps.

(** ** Extend requests *)

Section Requests.
  Context (inet_pton4 inet_pton6 : bytes → option bytes) (inet_ntop4 inet_ntop6 : bytes → bytes).

(** A relay with a numeric public address that the address functions print back. *)
Definition reachable (d : moor_node_descriptor_t) : Prop :=
  let addr := cstr (address d) in
  (length (identity_pk d) = 32%nat ∧ bytes_ok (identity_pk d) ∧ 0 < or_port d < 2 ^ 16) ∧
  ((length addr <= 63)%nat ∧ bytes_ok addr ∧ is_private_address inet_pton4 inet_pton6 addr = false ∧ take 4 addr ≠ str "0.0.") ∧
  ∃ ia, bytes_ok ia ∧
    ((inet_pton4 addr = Some ia ∧ length ia = 4%nat ∧ inet_ntop4 ia = addr) ∨
     (inet_pton4 addr = None ∧ inet_pton6 addr = Some ia ∧ length ia = 16%nat ∧ inet_ntop6 ia = addr)).

Lemma parse_spec n pos data len s t l : byte_at pos data = t → byte_at (pos + 1) data = Z.of_nat l → (pos + 2 + l <= len)%nat →
  parse_link_specs inet_ntop4 inet_ntop6 (S n) pos data len s =
    parse_link_specs inet_ntop4 inet_ntop6 n (pos + 2 + l) data len (read_link_spec inet_ntop4 inet_ntop6 t l (pos + 2) data s).
Proof.
  intros Ht Hl Hle. cbn [parse_link_specs]. rewrite (proj2 (Nat.leb_le _ _)) by lia. rewrite Ht, Hl, Nat2Z.id.
  by rewrite (proj2 (Nat.ltb_ge _ _)) by lia.
Qed.

(** The link specifiers of a request are read back, with the client's key behind them. *)
Lemma parse_extend2 d X rest : reachable d → length X = 32%nat →
  let D := extend2_data inet_pton4 inet_pton6 d X in
  let pos := (length D - 32)%nat in
  (74 <= length D <= 87)%nat ∧ byte_at 0 (D ++ rest) = 2 ∧
  parse_link_specs inet_ntop4 inet_ntop6 2 1 (D ++ rest) (length D) (mk_specs [] 0 (zeros 32) false false) =
    (mk_specs (cstr (address d)) (or_port d) (identity_pk d) true true, pos) ∧
  slice pos 32 (D ++ rest) = X.
Proof.
  intros ((Hid & _ & Hport) & _ & ia & _ & Hia) HX D pos.
  assert (Hp : length (be_put 2 (or_port d)) = 2%nat) by apply length_be_put.
  assert (Eport : be_get (be_put 2 (or_port d)) = or_port d) by (apply (be_get_put_small 2); cbn; lia).
  assert (Etail : take 32 (identity_pk d ++ X ++ rest) = identity_pk d ∧ take 32 (drop 32 (identity_pk d ++ X ++ rest)) = X)
    by (rewrite drop_app_length' by done; rewrite !take_app_length' by done; done). destruct Etail as [Eid EX].
  subst pos D. unfold extend2_data. destruct Hia as [(E4 & Hl & Hn)|(E4 & E6 & Hl & Hn)]; rewrite E4, ?E6.
  - destruct (be_put 2 (or_port d)) as [|p0 [|p1 [|]]]; try discriminate.
    destruct ia as [|a0 [|a1 [|a2 [|a3 [|]]]]]; try discriminate. cbn [app length].
    rewrite length_app, Hid, HX. cbn [Nat.add Nat.sub]. split; [lia|]. split; [done|]. rewrite <- app_assoc. split; [|exact EX].
    rewrite (parse_spec _ _ _ _ _ MOOR_LS_IPV4 6) by (done || lia). cbn [Nat.add].
    rewrite (parse_spec _ _ _ _ _ MOOR_LS_IDENTITY 32) by (done || lia). cbn [Nat.add parse_link_specs].
    f_equal. rewrite <- Hn, <- Eport. etrans; [|rewrite <- Eid; reflexivity]. reflexivity.
  - destruct (be_put 2 (or_port d)) as [|p0 [|p1 [|]]]; try discriminate.
    do 16 (destruct ia as [|? ia]; [discriminate|]). destruct ia; [|discriminate]. cbn [app length].
    rewrite length_app, Hid, HX. cbn [Nat.add Nat.sub]. split; [lia|]. split; [done|]. rewrite <- app_assoc. split; [|exact EX].
    rewrite (parse_spec _ _ _ _ _ MOOR_LS_IPV6 18) by (done || lia). cbn [Nat.add].
    rewrite (parse_spec _ _ _ _ _ MOOR_LS_IDENTITY 32) by (done || lia). cbn [Nat.add parse_link_specs].
    f_equal. rewrite <- Hn, <- Eport. etrans; [|rewrite <- Eid; reflexivity]. reflexivity.
Qed.

Lemma extend2_data_ok d X : reachable d → bytes_ok X → bytes_ok (extend2_data inet_pton4 inet_pton6 d X).
Proof.
  intros ((_ & Hid & _) & _ & ia & Hia & Hcase) HX. unfold extend2_data.
  assert (Hu : ∀ x : Z, x = 0 ∨ x = 1 ∨ x = 2 ∨ x = 6 ∨ x = 18 ∨ x = 32 → is_u8 x) by (unfold is_u8; lia).
  destruct Hcase as [(E4 & _)|(E4 & E6 & _)]; rewrite E4, ?E6;
    (apply List.Forall_cons; [apply Hu; lia|]); unfold MOOR_LS_IPV4, MOOR_LS_IPV6, MOOR_LS_IDENTITY; cbn [app];
    do 2 (apply List.Forall_cons; [apply Hu; lia|]); rewrite <- app_assoc; apply Forall_app; (split; [done|]);
    apply Forall_app; (split; [apply be_put_ok|]); do 2 (apply List.Forall_cons; [apply Hu; lia|]); by apply Forall_app.
Qed.

(** The relay that gets such a request asks the next relay. *)
Lemma relay_extend2_ok cfg d X rest next_cid x last : reachable d → length X = 32%nat →
  identity_pk d ≠ cfg_identity_pk cfg → extend_pending last = false →
  0 <= relay_early_count (or_relay last) < MOOR_MAX_RELAY_EARLY →
  let D := extend2_data inet_pton4 inet_pton6 d X in
  data_length x = Z.of_nat (length D) → data x = D ++ rest →
  relay_extend2 inet_pton4 inet_pton6 inet_ntop4 inet_ntop6 sends cfg None true true next_cid (cell_code CELL_RELAY_EARLY) x last =
    ({| (count_early last) with or_relay := link_next next_cid (or_relay (count_early last)); extend_pending := true |},
     ExtendSend (create_for false next_cid (identity_pk d) X)).
Proof.
  intros Hr HX Hne Hpend He D Hlen Hdata. unfold relay_extend2. rewrite Z.eqb_refl. cbn [negb].
  rewrite (proj2 (Z.leb_gt _ _)) by lia. change (extend_pending (count_early last)) with (extend_pending last). rewrite Hpend.
  destruct (parse_extend2 d X rest Hr HX) as (HlD & Hn & Hparse & Hkey). fold D in HlD, Hn, Hparse, Hkey.
  rewrite Hlen, Hdata, Nat2Z.id. rewrite (proj2 (Z.ltb_ge _ _)) by lia. rewrite Hn. change (Z.to_nat 2) with 2%nat. rewrite Hparse.
  cbn [ls_have_id negb]. rewrite (proj2 (Nat.ltb_ge _ _)) by lia. rewrite Hkey.
  destruct Hr as ((_ & _ & Hport) & (_ & _ & Hpriv & H00) & _).
  unfold resolve_next. cbn [ls_have_addr negb orb ls_addr]. rewrite (proj2 (bytes_eqb_neq _ _)) by done.
  cbn [ls_have_addr negb orb ls_addr ls_port ls_id]. rewrite (proj2 (Z.eqb_neq _ _)) by lia.
  rewrite (proj2 (bytes_eqb_neq _ _)) by done. by rewrite Hpriv.
Qed.

(** The flat request for a post-quantum hop. *)
Lemma relay_extend_pq_ok cfg d X rest next_cid x last : reachable d → length X = 32%nat →
  identity_pk d ≠ cfg_identity_pk cfg → 0 <= relay_early_count (or_relay last) < MOOR_MAX_RELAY_EARLY →
  let D := extend_pq_data (cstr (address d)) d X in
  data_length x = Z.of_nat (length D) → data x = D ++ rest →
  length D = 130%nat ∧
  relay_extend_pq inet_pton4 inet_pton6 sends cfg false true true next_cid (cell_code CELL_RELAY_EARLY) x last =
    ({| (count_early last) with or_relay := link_next next_cid (or_relay (count_early last)); extend_pending := true |},
     ExtendSend (create_for true next_cid (identity_pk d) X)).
Proof.
  intros Hr HX Hne He D Hlen Hdata. destruct Hr as ((Hid & _ & Hport) & (Hal & _ & Hpriv & _) & _).
  set (addr := cstr (address d)) in *.
  assert (Ha : blit 0 addr (zeros 64) = addr ++ zeros (64 - length addr))
    by (unfold blit, zeros; rewrite take_0, drop_replicate; done).
  assert (Hl64 : length (blit 0 addr (zeros 64)) = 64%nat) by (rewrite Ha, length_app, length_zeros; lia).
  assert (HD : length D = 130%nat) by (unfold D, extend_pq_data; rewrite !length_app, Hl64, length_be_put, Hid, HX; done).
  split; [done|]. unfold relay_extend_pq. rewrite Z.eqb_refl. cbn [negb]. rewrite (proj2 (Z.leb_gt _ _)) by lia.
  rewrite Hlen, HD. cbn [Z.ltb Z.compare]. change (Z.of_nat 130 <? 130) with false. cbn iota. rewrite Hdata.
  assert (Eaddr : cstr (take 63 (D ++ rest)) = addr).
  { unfold D, extend_pq_data. rewrite <- !app_assoc, take_app_le by lia. rewrite Ha, take_app, (take_ge addr) by lia.
    unfold zeros. rewrite take_replicate. generalize (min (63 - length addr) (64 - length addr)). intros n. unfold addr.
    clear. induction (address d) as [|c l IH]; cbn [cstr app]; [by destruct n|]. destruct (c =? 0) eqn:E; [by destruct n|].
    cbn [app cstr]. by rewrite E, IH. }
  assert (Eid : slice 66 32 (D ++ rest) = identity_pk d).
  { unfold D, extend_pq_data. rewrite <- !app_assoc, (app_assoc (blit _ _ _)). apply slice_app_second; [|done].
    by rewrite length_app, Hl64, length_be_put. }
  assert (EX : slice 98 32 (D ++ rest) = X).
  { unfold D, extend_pq_data. rewrite <- !app_assoc, (app_assoc (blit _ _ _)), (app_assoc (_ ++ _)). apply slice_app_second; [|done].
    by rewrite !length_app, Hl64, length_be_put, Hid. }
  rewrite Eaddr, Eid, EX. rewrite (proj2 (bytes_eqb_neq _ _)) by done. by rewrite Hpriv.
Qed.
End Requests.

(** ** Rounds *)

Section Rounds.
  Context (hash : bytes → bytes) (hash_keyed : bytes → bytes → bytes) (kdf : bytes → Z → bytes → bytes).
  Context (crypto_scalarmult : bytes → bytes → option bytes).
  Context (kem_encapsulate : bytes → bytes → option (bytes * bytes)).
  Context (kem_decapsulate : bytes → bytes → option bytes).
  Context (chacha : bytes → bytes → bytes → Z * bytes) (ks : bytes → bytes → nat → bytes).
  Context (inet_pton4 inet_pton6 : bytes → option bytes) (inet_ntop4 inet_ntop6 : bytes → bytes).
  Context (pub : bytes → bytes) (old : moor_relay_payload_t) (now : Z).
  Hypothesis chacha_xors : ∀ m n k, chacha m n k = (0, xor_bytes (ks n k (length m)) m).
  Hypothesis ks_length : ∀ n k l, length (ks n k l) = l.
  Hypothesis hash_length : ∀ m, length (hash m) = 32%nat.
  Hypothesis hash_keyed_length : ∀ k m, length (hash_keyed k m) = 32%nat.
  Hypothesis hash_keyed_ok : ∀ k m, bytes_ok (hash_keyed k m).
  Hypothesis pub_length : ∀ sk, length (pub sk) = 32%nat.
  Hypothesis pub_ok : ∀ sk, bytes_ok (pub sk).
  Hypothesis dh_agrees : ∀ a b, ∃ s,
    crypto_scalarmult a (pub b) = Some s ∧ crypto_scalarmult b (pub a) = Some s ∧ is_zero s = false.
  Hypothesis old_length : length (data old) = MOOR_RELAY_DATA.

Abbreviation deliver' := (deliver hash chacha inet_pton4 inet_pton6 inet_ntop4 inet_ntop6 old now).
Abbreviation last_handle' := (last_handle inet_pton4 inet_pton6 inet_ntop4 inet_ntop6).

(** The first cell of a delivery, when it reaches the last relay. *)
Lemma deliver_cons cfg next_cid cell cells rs last rs' r x :
  path_forward chacha hash (rs ++ [or_relay last]) cell old now = (rs' ++ [r], Some (length rs, x)) →
  length rs' = length rs →
  deliver' cfg next_cid (cell :: cells) rs last =
    match last_handle' cfg next_cid (command cell) x {| last with or_relay := r |} with
    | (c, Some create) => Ran (rs', c, Some create)
    | (c, None) => deliver' cfg next_cid cells rs' c
    end.
Proof.
  intros E Hl. cbn [deliver]. rewrite E, Nat.eqb_refl, <- Hl, list_lookup_middle by done. by rewrite take_app_length.
Qed.

(** The KEM ciphertext is collected by the last relay. *)
Lemma offer_step cfg next_cid cid fuel : ∀ ct hops rs last K E,
  in_step K E hops rs last → K + Z.of_nat fuel < 2 ^ 32 → E < MOOR_MAX_RELAY_EARLY → bytes_ok ct → (length ct <= fuel)%nat →
  (length (pq_kem_ct last) + length ct <= MOOR_KEM_CT_LEN)%nat →
  ∃ hops' cells rs' last', offer_kem hash chacha sends fuel cid ct hops = (true, hops', cells) ∧ length hops' = length hops ∧
    Forall (λ x, command x = cell_code CELL_RELAY) cells ∧
    in_step (K + Z.of_nat fuel) E hops' rs' last' ∧ pq_kem_ct last' = pq_kem_ct last ++ ct ∧
    extend_pending last' = extend_pending last ∧ length rs' = length rs ∧
    ∀ more, deliver' cfg next_cid (cells ++ more) rs last = Early ∨
      deliver' cfg next_cid (cells ++ more) rs last = deliver' cfg next_cid more rs' last'.
Proof.
  induction fuel as [|fuel IH]; intros ct hops rs last K E Hin HK HE Hok Hf Hroom.
  { destruct ct; cbn in Hf; [|lia]. exists hops, [], rs, last. rewrite app_nil_r, Z.add_0_r. cbn [offer_kem app]. split_and!; auto. }
  destruct ct as [|b ct].
  { exists hops, [], rs, last. rewrite app_nil_r. cbn [offer_kem app]. split_and!; auto. eapply in_step_weaken; [| |exact Hin]; lia. }
  assert (Hl : (0 < length (b :: ct))%nat) by (cbn; lia). set (l := b :: ct) in *.
  change (offer_kem hash chacha sends (S fuel) cid l hops) with
    (match send_onion hash chacha sends (cell_code CELL_RELAY) cid (relay_code RELAY_KEM_OFFER) (take MOOR_RELAY_DATA l) hops with
     | (None, hops) => (false, hops, [])
     | (Some cell, hops) =>
         let '(ok, hops, cells) := offer_kem hash chacha sends fuel cid (drop MOOR_RELAY_DATA l) hops in (ok, hops, cell :: cells)
     end).
  assert (Hlt : (0 < length (take MOOR_RELAY_DATA l) <= MOOR_RELAY_DATA)%nat) by (rewrite length_take; unfold MOOR_RELAY_DATA; lia).
  assert (Hld : (length (drop MOOR_RELAY_DATA l) <= fuel)%nat) by (rewrite length_drop; unfold MOOR_RELAY_DATA; lia).
  assert (Hrcmd : is_u8 (relay_code RELAY_KEM_OFFER)) by (vm_compute; split; [discriminate|reflexivity]).
  destruct (send_step chacha ks hash chacha_xors ks_length hash_length old now old_length (cell_code CELL_RELAY) cid
    (relay_code RELAY_KEM_OFFER) (take MOOR_RELAY_DATA l) hops rs last K E Hin ltac:(lia) HE Hrcmd
    ltac:(by apply bytes_ok_take) Hlt) as (cell & hops1 & rs1 & r & E1 & Hc & Hl1 & Hlr & _ & Hin1 & Hpath).
  rewrite E1. change (early_after (cell_code CELL_RELAY) E) with E in Hin1.
  set (last1 := mk_or r (pq_capable last) (pq_key_seed last) (pq_kem_ct last ++ take MOOR_RELAY_DATA l) (pq_kem_pending last) (extend_pending last)).
  destruct (IH (drop MOOR_RELAY_DATA l) hops1 rs1 last1 (K + 1) E) as (hops' & cells & rs' & last' & E2 & Hl2 & Hcmds & Hin2 & Hct & Hext & Hlr2 & Hdel);
    [by apply (in_step_last _ _ _ _ {| last with or_relay := r |})|lia|done|by apply bytes_ok_drop|done| |].
  { cbn [last1 pq_kem_ct]. rewrite length_app, <- Nat.add_assoc, <- length_app, take_drop. done. }
  exists hops', (cell :: cells), rs', last'. rewrite E2. cbn [last1 pq_kem_ct extend_pending] in Hct, Hext.
  rewrite <- app_assoc, take_drop in Hct. split_and!; try done; try lia; [by constructor|eapply in_step_weaken; [| |exact Hin2]; lia|].
  intros more. cbn [app]. destruct Hpath as [(rs2 & k & x & Ep & Hk)|(x & rest & Ep & Hcmd & Hlen & Hdata)].
  - left. cbn [deliver]. rewrite Ep. by rewrite (proj2 (Nat.eqb_neq _ _)) by lia.
  - rewrite (deliver_cons _ _ _ _ _ _ _ _ _ Ep Hlr), Hc. unfold last_handle. rewrite Hcmd. rewrite Z.eqb_refl.
    assert (Eoff : relay_kem_offer {| last with or_relay := r |} x = last1).
    { unfold relay_kem_offer, last1. cbn [pq_kem_ct]. rewrite Hdata, Hlen, Nat2Z.id.
      rewrite Nat.min_l, take_app_length by (rewrite length_take; unfold MOOR_RELAY_DATA in *; lia). done. }
    rewrite Eoff. apply Hdel.
Qed.

(** A client that waits for the answer of relay [d] to its key [pub x]. *)
Definition awaits (path : list moor_node_descriptor_t) (d : moor_node_descriptor_t) (x ss : bytes) (ctx : moor_cbuild_ctx_t) : Prop :=
  ctx_path ctx = path ∧ ctx_eph_pk ctx = pub x ∧ ctx_eph_sk ctx = x ∧ ctx_relay_curve_pk ctx = onion_pk d ∧
  ctx_pq_hop ctx = wants_pq d ∧ ctx_kem_ss ctx = ss ∧
  (ctx_state ctx = CBUILD_WAIT_EXTENDED_MID ∨ ctx_state ctx = CBUILD_WAIT_EXTENDED_EXIT).

(** The last relay after it asked the next one. *)
Definition asked (next_cid : Z) (ct : bytes) (last : or_circ) : Prop :=
  extend_pending last = true ∧ next_open (or_relay last) = true ∧ next_circuit_id (or_relay last) = next_cid ∧ pq_kem_ct last = ct.

Definition ask (next_cid : Z) (last : or_circ) : or_circ :=
  {| (count_early last) with or_relay := link_next next_cid (or_relay (count_early last)); extend_pending := true |}.

Lemma in_step_ask K E hops rs last next_cid : in_step K E hops rs last → E < MOOR_MAX_RELAY_EARLY →
  in_step K (E + 1) hops rs (ask next_cid last) ∧ asked next_cid (pq_kem_ct last) (ask next_cid last).
Proof.
  intros [H1 H2 H3 H4 H5 H6] HE. split; [|done]. constructor; [|done| |done|done|].
  - apply Forall2_app_inv_r in H1 as (a & b & Ha & Hb & ->). apply Forall2_app; [done|].
    inversion Hb as [|h r l l' Hh Hl]; subst. inversion Hl; subst. by constructor.
  - eapply Forall_impl; [exact H3|]. unfold link_ready. intros r (? & ? & ?). split_and!; [done|done|lia|lia].
  - cbn. unfold MOOR_MAX_RELAY_EARLY in HE. rewrite u8_small by (unfold is_u8; lia). lia.
Qed.

(** A request that the last relay answers by asking the next one. *)
Lemma ask_step cfg next_cid rcmd D cid create hops rs last K E :
  in_step K E hops rs last → K < 2 ^ 32 → E < 4 → is_u8 rcmd → bytes_ok D → (0 < length D <= MOOR_RELAY_DATA)%nat →
  (∀ r y rest, relay_early_count r = relay_early_count (or_relay last) → relay_command y = rcmd →
     data_length y = Z.of_nat (length D) → data y = D ++ rest →
     last_handle' cfg next_cid (cell_code CELL_RELAY_EARLY) y {| last with or_relay := r |} =
       (ask next_cid {| last with or_relay := r |}, Some create)) →
  ∃ cell hops' rs' last', send_onion hash chacha sends (cell_code CELL_RELAY_EARLY) cid rcmd D hops = (Some cell, hops') ∧
    command cell = cell_code CELL_RELAY_EARLY ∧ length hops' = length hops ∧
    in_step (K + 1) (E + 2) hops' rs' last' ∧ asked next_cid (pq_kem_ct last) last' ∧
    (deliver' cfg next_cid [cell] rs last = Early ∨ deliver' cfg next_cid [cell] rs last = Ran (rs', last', Some create)).
Proof.
  intros Hin HK HE Hr HD Hl Hhandle.
  destruct (send_step chacha ks hash chacha_xors ks_length hash_length old now old_length (cell_code CELL_RELAY_EARLY) cid
    rcmd D hops rs last K E Hin) as (cell & hops' & rs' & r & E2 & Hc & Hl2 & Hlr & He & Hin2 & Hpath);
    [lia|unfold MOOR_MAX_RELAY_EARLY; lia|done|done|done|].
  change (early_after (cell_code CELL_RELAY_EARLY) E) with (E + 1) in Hin2.
  destruct (in_step_ask _ _ _ _ _ next_cid Hin2) as [Hin3 Hasked]; [unfold MOOR_MAX_RELAY_EARLY; lia|].
  exists cell, hops', rs', (ask next_cid {| last with or_relay := r |}). split_and!; try done.
  { eapply in_step_weaken; [| |exact Hin3]; lia. }
  destruct Hpath as [(rs3 & k & y & Ep & Hk)|(y & rest & Ep & Hcmd & Hlen & Hdata)].
  - left. cbn [deliver]. rewrite Ep. by rewrite (proj2 (Nat.eqb_neq _ _)) by lia.
  - right. rewrite (deliver_cons _ _ _ _ _ _ _ _ _ Ep Hlr), Hc. by rewrite (Hhandle r y rest).
Qed.

Lemma extend_pq_data_ok d X : reachable inet_pton4 inet_pton6 inet_ntop4 inet_ntop6 d → length X = 32%nat → bytes_ok X →
  length (extend_pq_data (cstr (address d)) d X) = 130%nat ∧ bytes_ok (extend_pq_data (cstr (address d)) d X).
Proof.
  intros ((Hl & Hid & _) & (Hal & Haok & _) & _) HlX HX. unfold extend_pq_data. split.
  - rewrite !length_app, length_blit, length_zeros, length_be_put, Hl, HlX; rewrite ?length_zeros; lia.
  - apply Forall_app. split; [apply bytes_ok_blit; [done|by apply bytes_ok_zeros]|].
    apply Forall_app. split; [apply be_put_ok|]. by apply Forall_app.
Qed.

(** What a client that has sent a request and its last relay look like. *)
Definition request_sent (cfg : relay_config) (next_cid : Z) (n : nat) (coins : hop_coins) (c : client_circ)
    (path : list moor_node_descriptor_t) (d : moor_node_descriptor_t) (rs : list relay_circ) (last : or_circ) (K E : Z) : Prop :=
  ∃ ctx hops cells rs' last' ct ss,
    cbuild_send_extend hash kem_encapsulate chacha inet_pton4 inet_pton6 sends n coins c = (set_build ctx (set_hops hops c), cells) ∧
    awaits path d (coin_eph_sk coins) ss ctx ∧ asked next_cid ct last' ∧
    (wants_pq d = true → kem_encapsulate (coin_kem coins) (kem_pk d) = Some (ct, ss)) ∧ (wants_pq d = false → ct = []) ∧
    in_step K E hops rs' last' ∧ length hops = length (cc_hops c) ∧
    Forall (λ x, command x ≠ cell_code CELL_KEM_CT) cells ∧
    (deliver' cfg next_cid cells rs last = Early ∨
     deliver' cfg next_cid cells rs last =
       Ran (rs', last', Some (create_for (wants_pq d) next_cid (identity_pk d) (pub (coin_eph_sk coins))))).

Section Request.
  Context (cfg : relay_config) (next_cid : Z) (n : nat) (coins : hop_coins) (c : client_circ) (ctx : moor_cbuild_ctx_t).
  Context (d : moor_node_descriptor_t) (rs : list relay_circ) (last : or_circ) (K E : Z).
  Hypothesis Hin : in_step K E (cc_hops c) rs last.
  Hypothesis HK : K + 2000 < 2 ^ 32.
  Hypothesis HE : E < 4.
  Hypothesis Hbuild : cc_build c = Some ctx.
  Hypothesis Hpath : ctx_path ctx !! n = Some d.
  Hypothesis Hcoins : coin_eph_pk coins = pub (coin_eph_sk coins).
  Hypothesis Hreach : reachable inet_pton4 inet_pton6 inet_ntop4 inet_ntop6 d.
  Hypothesis Hother : identity_pk d ≠ cfg_identity_pk cfg.
  Hypothesis Hpending : extend_pending last = false.
  Hypothesis Hempty : pq_kem_ct last = [].

Lemma early_room l : relay_early_count (or_relay l) = relay_early_count (or_relay last) →
  0 <= relay_early_count (or_relay l) < MOOR_MAX_RELAY_EARLY.
Proof. intros ->. destruct Hin. unfold MOOR_MAX_RELAY_EARLY. lia. Qed.

Lemma classical_request : wants_pq d = false → request_sent cfg next_cid n coins c (ctx_path ctx) d rs last (K + 1100) (E + 2).
Proof.
  intros Hpq. unfold request_sent, cbuild_send_extend. rewrite Hbuild, Hpath.
  cbn [ctx_pq_hop start_hop]. rewrite Hpq. cbn [ctx_pq_hop ctx_eph_pk start_hop]. rewrite ?Hpq, Hcoins.
  set (x := coin_eph_sk coins). destruct (parse_extend2 inet_pton4 inet_pton6 inet_ntop4 inet_ntop6 d (pub x) [] Hreach (pub_length x)) as (HlD & _).
  destruct (ask_step cfg next_cid (relay_code RELAY_EXTEND2) (extend2_data inet_pton4 inet_pton6 d (pub x)) (cc_id c)
    (create_for false next_cid (identity_pk d) (pub x)) (cc_hops c) rs last K E) as (cell & hops' & rs' & last' & E1 & Hc & Hl & Hin' & Hask & Hdel);
    [done|lia|done|vm_compute; split; [discriminate|reflexivity]|eapply extend2_data_ok; [exact Hreach|apply pub_ok]|unfold MOOR_RELAY_DATA; lia| |].
  { intros r y rest He Hcmd Hlen Hdata. unfold last_handle. rewrite Hcmd.
    rewrite (proj2 (Z.eqb_neq (relay_code RELAY_EXTEND2) _)) by done. rewrite Z.eqb_refl.
    erewrite relay_extend2_ok; [done|exact Hreach|apply pub_length|done|done|by apply early_room|done|exact Hdata]. }
  rewrite E1. rewrite Hempty in Hask. eexists _, hops', [cell], rs', last', [], (ctx_kem_ss ctx). split; [done|].
  split; [unfold awaits; cbn; rewrite Hpq; split_and!; try done; destruct (n =? 1)%nat; auto|].
  split_and!; try done; [eapply in_step_weaken; [| |exact Hin']; lia|constructor; [rewrite Hc; discriminate|constructor]].
Qed.

Lemma pq_request ct ss : wants_pq d = true → kem_encapsulate (coin_kem coins) (kem_pk d) = Some (ct, ss) →
  length ct = MOOR_KEM_CT_LEN → bytes_ok ct → request_sent cfg next_cid n coins c (ctx_path ctx) d rs last (K + 1100) (E + 2).
Proof.
  intros Hpq Ek Hlct Hokct. unfold request_sent, cbuild_send_extend. rewrite Hbuild, Hpath.
  change (ctx_pq_hop (start_hop d coins ctx)) with (wants_pq d). rewrite Hpq, Ek.
  destruct (offer_step cfg next_cid (cc_id c) (length ct) ct (cc_hops c) rs last K E) as
    (hops1 & cells & rs1 & last1 & E1 & Hl1 & Hcmds & Hin1 & Hct1 & Hext1 & Hlr1 & Hdel1);
    [done|rewrite Hlct; unfold MOOR_KEM_CT_LEN; lia|unfold MOOR_MAX_RELAY_EARLY; lia|done|lia|rewrite Hempty; cbn; lia|].
  rewrite E1. cbn [ctx_pq_hop ctx_eph_pk set_kem start_hop]. rewrite Hpq, Hcoins. set (x := coin_eph_sk coins).
  destruct (extend_pq_data_ok d (pub x) Hreach (pub_length x) (pub_ok x)) as [HD HDok].
  destruct (ask_step cfg next_cid (relay_code RELAY_EXTEND_PQ) (extend_pq_data (cstr (address d)) d (pub x)) (cc_id c)
    (create_for true next_cid (identity_pk d) (pub x)) hops1 rs1 last1 (K + Z.of_nat (length ct)) E) as
    (cell & hops' & rs' & last' & E2 & Hc & Hl & Hin' & Hask & Hdel);
    [done|rewrite Hlct; unfold MOOR_KEM_CT_LEN; lia|done|vm_compute; split; [discriminate|reflexivity]|done|rewrite HD; unfold MOOR_RELAY_DATA; lia| |].
  { intros r y rest He Hcmd Hlen Hdata. unfold last_handle. rewrite Hcmd.
    rewrite (proj2 (Z.eqb_neq (relay_code RELAY_EXTEND_PQ) _)) by done.
    rewrite (proj2 (Z.eqb_neq (relay_code RELAY_EXTEND_PQ) (relay_code RELAY_EXTEND2))) by done. rewrite Z.eqb_refl.
    destruct (relay_extend_pq_ok inet_pton4 inet_pton6 inet_ntop4 inet_ntop6 cfg d (pub x) rest next_cid y {| last1 with or_relay := r |}
      Hreach (pub_length x) Hother) as [_ ->]; [|done|done|done].
    cbn [or_relay]. rewrite He. destruct Hin1. unfold MOOR_MAX_RELAY_EARLY. lia. }
  rewrite E2. rewrite Hct1, Hempty in Hask. eexists _, hops', (cells ++ [cell]), rs', last', ct, ss. split; [done|].
  split; [unfold awaits; cbn; rewrite Hpq; split_and!; try done; destruct (n =? 1)%nat; auto|].
  split_and!; try done; [eapply in_step_weaken; [| |exact Hin']; rewrite ?Hlct; unfold MOOR_KEM_CT_LEN; lia|lia| |].
  - apply Forall_app. split; [eapply Forall_impl; [exact Hcmds|]; intros y ->; discriminate|constructor; [rewrite Hc; discriminate|constructor]].
  - destruct (Hdel1 [cell]) as [->| ->]; [by left|done].
Qed.
End Request.

(** The next relay accepts the request; the client will accept its answer. *)
Lemma join_step env x pq : fst (count_create now (env_window env)) = true → length (cfg_identity_pk (env_cfg env)) = 32%nat →
  ∃ next created tag seed,
    join hash hash_keyed kdf crypto_scalarmult pub now env (create_for pq (env_cid env) (cfg_identity_pk (env_cfg env)) (pub x)) =
      Some (next, created) ∧
    command created = cell_code (if pq then CELL_CREATED_PQ else CELL_CREATED) ∧
    payload created = pub (env_eph_sk env) ++ tag ++ zeros 445 ∧ length tag = 32%nat ∧ bytes_ok tag ∧
    (∀ rest, client_cke hash hash_keyed crypto_scalarmult (pub x) x (pub (cfg_onion_sk (env_cfg env)))
       (cfg_identity_pk (env_cfg env)) (pub (env_eph_sk env) ++ tag ++ rest) = Some seed) ∧
    extend_pending next = false ∧ pq_kem_ct next = [] ∧ pq_kem_pending next = pq ∧
    or_relay next = if pq then fresh_circ (env_cid env) now
                    else set_keys (classical_keys hash hash_keyed kdf seed) (fresh_circ (env_cid env) now).
Proof.
  intros Hw Hid. destruct (relay_cke_honest hash hash_keyed crypto_scalarmult pub pub_length hash_keyed_length dh_agrees
    (env_cfg env) x (env_eph_sk env)) as (seed & tag & Ecke & Hlt & (k & m & ->) & Hclient).
  assert (Hfields : ∀ cmd : Z, payload {| (moor_cell_create (env_cid env) (cfg_identity_pk (env_cfg env)) (pub x)) with command := cmd |} =
    cfg_identity_pk (env_cfg env) ++ pub x ++ zeros 445) by (intros; cbn [payload moor_cell_create]; by apply two_fields).
  unfold join, create_for. destruct (count_create now (env_window env)) as [ok w] eqn:Ew. cbn [fst] in Hw. subst ok. destruct pq.
  - cbn [command]. rewrite Z.eqb_refl. unfold moor_relay_handle_create_pq. rewrite Ew, Hfields. cbn [negb].
    rewrite slice_app_first, slice_app_second, bytes_eqb_refl by (done || apply pub_length). cbn [negb]. rewrite Ecke. cbn [negb snd sends circuit_id moor_cell_create].
    eexists _, _, _, seed. split; [done|]. split_and!; try done; try apply hash_keyed_ok. cbn [payload moor_cell_created]. by apply two_fields.
  - cbn [command moor_cell_create]. rewrite (proj2 (Z.eqb_neq (cell_code CELL_CREATE) _)) by done.
    unfold moor_relay_handle_create. rewrite Ew. cbn [payload moor_cell_create]. rewrite two_fields by done. cbn [negb].
    rewrite slice_app_first, slice_app_second, bytes_eqb_refl by (done || apply pub_length). cbn [negb]. rewrite Ecke. cbn [negb snd sends circuit_id moor_cell_create].
    eexists _, _, _, seed. split; [done|]. split_and!; try done; try apply hash_keyed_ok. cbn [payload moor_cell_created]. by apply two_fields.
Qed.

(** The answer of the next relay travels back to the client. *)
Lemma answer_step hops rs last next_cid ct created pq y tag K E :
  in_step K E hops rs last → K < 2 ^ 32 → asked next_cid ct last →
  command created = cell_code (if pq : bool then CELL_CREATED_PQ else CELL_CREATED) → payload created = y ++ tag ++ zeros 445 →
  length y = 32%nat → length tag = 32%nat → bytes_ok y → bytes_ok tag →
  ∃ last' ext rs' cell hops' p x rest,
    relay_handle_created hash chacha last created =
      (last', [ext], if pq && (0 <? Z.of_nat (length ct)) then kem_ct_cells (length ct) next_cid ct else []) ∧
    path_backward chacha rs ext = (rs', Some cell) ∧
    moor_circuit_decrypt_backward chacha hash hops (payload cell) = (0, hops', p) ∧ length hops' = length hops ∧
    moor_relay_unpack old p = x ∧ relay_command x = relay_code (if pq then RELAY_EXTENDED_PQ else RELAY_EXTENDED) ∧
    data_length x = 64 ∧ data x = y ++ tag ++ rest ∧
    Forall2 hop_sync hops' (rs' ++ [or_relay last']) ∧ Forall (hop_bound (K + 1)) hops' ∧
    Forall (link_ready E) (rs' ++ [or_relay last']).
Proof.
  intros Hin HK (Hpend & Hopen & Hcid & Hct) Hcmd Hpay Hly Hlt Hyok Htok.
  pose proof (in_step_hops _ _ _ _ _ Hin) as (hi & h & -> & Hsync & Hs). destruct Hin as [_ Hb Hready Hprev Hqueue Hearly].
  destruct (hop_bound_live K _ ltac:(unfold UINT64_MAX; lia) Hb) as [_ Hlive].
  set (rcmd := relay_code (if pq then RELAY_EXTENDED_PQ else RELAY_EXTENDED)).
  assert (Hu : is_u8 rcmd) by (unfold rcmd; destruct pq; vm_compute; split; discriminate || reflexivity).
  assert (Hmok : relay_ok (relay_msg rcmd (y ++ tag))).
  { apply relay_msg_ok; [done|by apply Forall_app|rewrite length_app, Hly, Hlt; unfold MOOR_RELAY_DATA; lia]. }
  destruct (answer_one chacha ks hash chacha_xors ks_length hash_length hi h rs (or_relay last) (relay_msg rcmd (y ++ tag)) old Hsync Hs Hlive)
    as (dg & cid & q & E1 & cb & E2 & p & E3 & E4); [|done|cbn; rewrite length_app, Hly, Hlt; lia|].
  { eapply Forall_impl; [exact Hready|]. by intros r (_ & ? & _). }
  assert (Ecell : moor_cell_relay (prev_circuit_id (or_relay last)) rcmd 0 (Some (payload created)) 64 =
    mk_cell (prev_circuit_id (or_relay last)) (cell_code CELL_RELAY) (moor_relay_pack (relay_msg rcmd (y ++ tag)))).
  { unfold moor_cell_relay, relay_msg. change ((0 <? 64) && (64 <=? Z.of_nat MOOR_RELAY_DATA)) with true. cbv iota. change (Z.to_nat 64) with 64%nat.
    rewrite Hpay, (app_assoc y), take_app_length' by (rewrite length_app; lia). by rewrite length_app, Hly, Hlt. }
  unfold relay_handle_created. rewrite Hpend. cbn [negb or_relay]. rewrite Hprev. cbn [negb]. rewrite Hcmd.
  assert (Epq : (cell_code (if pq then CELL_CREATED_PQ else CELL_CREATED) =? cell_code CELL_CREATED_PQ) = pq) by (by destruct pq).
  rewrite Epq. change (relay_code (if pq then RELAY_EXTENDED_PQ else RELAY_EXTENDED)) with rcmd. rewrite Ecell, E1. cbn [pq_kem_ct].
  set (last1 := {| (sealed (or_relay last)) with relay_backward_digest := dg |}) in *.
  rewrite Hct, (Hopen : next_open last1 = true), (Hcid : next_circuit_id last1 = next_cid), andb_true_r.
  destruct (relay_msg_data old rcmd (y ++ tag) (moor_relay_unpack old p)) as [rest Hrest];
    [rewrite length_app, Hly, Hlt; unfold MOOR_RELAY_DATA; lia|by rewrite E4|].
  eexists (mk_or last1 (pq_capable last) (pq_key_seed last) (if pq && (0 <? Z.of_nat (length ct)) then [] else ct) (pq_kem_pending last) false),
    (mk_cell (prev_circuit_id (or_relay last)) (cell_code CELL_RELAY) q), (map sealed rs), _, _, p, (moor_relay_unpack old p), rest.
  split; [destruct (pq && _); [done|by rewrite <- Hct]|]. split; [exact E2|]. split; [exact E3|].
  split; [by rewrite length_map, !length_app|]. split; [done|]. rewrite app_assoc.
  split; [by rewrite E4|]. split; [rewrite E4; cbn; rewrite length_app, Hly, Hlt; done|]. split; [exact Hrest|].
  apply Forall_app in Hb as [Hb1 Hb2]. apply Forall_cons_1 in Hb2 as [Hb2 _]. cbn [or_relay]. split_and!.
  - rewrite map_app. apply Forall2_app.
    + apply Forall2_fmap_2. eapply Forall2_impl; [exact Hsync|]. intros. by apply hop_sync_sealed.
    + constructor; [|constructor]. destruct Hs as (? & ? & ? & ? & ? & ?). unfold hop_sync, last1. cbn. repeat split; congruence.
  - rewrite map_app. apply Forall_app. split; [|constructor; [|constructor]].
    + apply Forall_fmap. eapply Forall_impl; [exact Hb1|]. unfold hop_bound. cbn. lia.
    + unfold hop_bound in *. cbn. lia.
  - apply Forall_app. split; [by apply Forall_fmap|]. constructor; [|constructor]. unfold link_ready, can_forward. cbn. done.
Qed.

(** The new relay as the last one of the path. *)
Lemma in_step_next K E hops rs h next : Forall2 hop_sync hops rs → Forall (hop_bound K) hops → Forall (link_ready E) rs →
  hop_sync h (or_relay next) → hop_bound K h → prev_open (or_relay next) = true →
  queue_depth (or_relay next) = 0 → relay_early_count (or_relay next) = 0 → 0 <= E →
  in_step K E (hops ++ [h]) rs next.
Proof.
  intros H1 H2 H3 H4 H5 H6 H7 H8 H9. constructor; try done.
  - apply Forall2_app; [done|]. by constructor.
  - apply Forall_app. split; [done|]. by constructor.
  - rewrite H7. unfold MOOR_CIRC_CELL_QUEUE_MAX. lia.
  - rewrite H8. lia.
Qed.

Abbreviation send_next := (cbuild_send_next_onion_skin hash kem_encapsulate chacha inet_pton4 inet_pton6 sends).
Abbreviation round := (extend_round hash hash_keyed kdf crypto_scalarmult kem_encapsulate kem_decapsulate chacha
                         inet_pton4 inet_pton6 inet_ntop4 inet_ntop6 pub old now).

(** The client accepts the answer of a relay of its path. *)
Lemma client_takes_answer coins' c ctx d x ss seed relay_cmd dat len :
  cc_build c = Some ctx → ctx_path ctx !! length (cc_hops c) = Some d → awaits (ctx_path ctx) d x ss ctx →
  (relay_cmd = relay_code RELAY_EXTENDED ∨ relay_cmd = relay_code RELAY_EXTENDED_PQ) → 64 <= len →
  client_cke hash hash_keyed crypto_scalarmult (pub x) x (onion_pk d) (identity_pk d) dat = Some seed →
  moor_circuit_build_handle_extended hash hash_keyed kdf crypto_scalarmult kem_encapsulate chacha inet_pton4 inet_pton6 sends
    coins' relay_cmd dat len c =
    let keys := if wants_pq d && (relay_cmd =? relay_code RELAY_EXTENDED_PQ)
                then moor_crypto_circuit_kx_pq hash kdf ss else classical_keys hash hash_keyed kdf seed in
    let '(c, more) := send_next coins' (set_hops (cc_hops c ++ [hop_with keys (identity_pk d)]) c) in (0, c, more).
Proof.
  clear dependent old. intros Hb Hp (_ & Hpk & Hsk & Hcurve & Hpq & Hss & Hst) Hcmd Hlen Hcke. unfold moor_circuit_build_handle_extended.
  rewrite Hb, Hp, Hpk, Hsk, Hcurve, Hcke, Hpq, Hss. rewrite (proj2 (Z.ltb_ge _ _)) by lia.
  assert (Hc : negb (relay_cmd =? relay_code RELAY_EXTENDED) && negb (relay_cmd =? relay_code RELAY_EXTENDED2) &&
    negb (relay_cmd =? relay_code RELAY_EXTENDED_PQ) = false) by (destruct Hcmd as [-> | ->]; vm_compute; reflexivity).
  rewrite Hc. by destruct Hst as [-> | ->].
Qed.

(** One more hop: the round ends with the client and all its relays in step, unless a
    relay on the way took a cell for its own. *)
Lemma round_step cfg env coins coins' c ctx d rs last K E :
  in_step K E (cc_hops c) rs last → 0 <= K ∧ K + 3000 < 2 ^ 32 → 0 <= E < 4 →
  cc_build c = Some ctx → ctx_path ctx !! length (cc_hops c) = Some d → coin_eph_pk coins = pub (coin_eph_sk coins) →
  reachable inet_pton4 inet_pton6 inet_ntop4 inet_ntop6 d → identity_pk d ≠ cfg_identity_pk cfg →
  extend_pending last = false → pq_kem_ct last = [] →
  describes pub kem_encapsulate kem_decapsulate (coin_kem coins) d (env_cfg env) → fst (count_create now (env_window env)) = true →
  ∃ c1 cells, cbuild_send_extend hash kem_encapsulate chacha inet_pton4 inet_pton6 sends (length (cc_hops c)) coins c = (c1, cells) ∧
    Forall (λ x, command x ≠ cell_code CELL_KEM_CT) cells ∧
    (round coins' cfg env cells c1 rs last = Early ∨
     ∃ ctx' hops h rs' next,
       let c2 := set_hops (hops ++ [h]) (set_build ctx' c) in
       round coins' cfg env cells c1 rs last = Ran ((send_next coins' c2).1, (send_next coins' c2).2, rs', next) ∧
       in_step (K + 1101) (E + 2) (hops ++ [h]) rs' next ∧ length hops = length (cc_hops c) ∧ ctx_path ctx' = ctx_path ctx ∧
       extend_pending next = false ∧ pq_kem_ct next = []).
Proof.
  intros Hin HK HE Hb Hp Hcoins Hreach Hne Hpend Hempty (Hid & Honion & Hkem) Hw.
  assert (Hreq : request_sent cfg (env_cid env) (length (cc_hops c)) coins c (ctx_path ctx) d rs last (K + 1100) (E + 2)).
  { destruct (wants_pq d) eqn:Hpq.
    - destruct (Hkem eq_refl) as (ct & ss & Ek & Hl & Hok & _). eapply pq_request; try done; lia.
    - eapply classical_request; try done; lia. }
  destruct Hreq as (ctx1 & hops1 & cells & rs1 & last1 & ct & ss & Esend & Haw & Hask & Hpqt & Hpqf & Hin1 & Hl1 & Hcells & Hdel).
  set (x := coin_eph_sk coins) in *. eexists _, cells. split; [exact Esend|]. split; [done|].
  unfold round, extend_round. destruct Hdel as [->| ->]; [by left|right].
  assert (Hlid : length (cfg_identity_pk (env_cfg env)) = 32%nat) by (rewrite <- Hid; apply Hreach).
  destruct (join_step env x (wants_pq d) Hw Hlid) as (next & created & tag & seed & Ejoin & Hcmd & Hpay & Hlt & Htok & Hcke & Hnp & Hnct & Hpk & Hnext).
  rewrite Hid, Ejoin.
  destruct (answer_step hops1 rs1 last1 (env_cid env) ct created (wants_pq d) (pub (env_eph_sk env)) tag (K + 1100) (E + 2) Hin1)
    as (last2 & ext & rs2 & cell & hops2 & p & y & rest & Ecr & Eback & Edec & Hl2 & Eun & Hycmd & Hylen & Hydata & Hsync & Hbound & Hready);
    [lia|done|done|done|apply pub_length|done|apply pub_ok|done|].
  rewrite Ecr.
  set (keys := if wants_pq d then moor_crypto_circuit_kx_pq hash kdf ss else classical_keys hash hash_keyed kdf seed).
  assert (Hrecv : ∃ next', receive_kem hash kdf kem_decapsulate (env_cfg env) next
      (if wants_pq d && (0 <? Z.of_nat (length ct)) then kem_ct_cells (length ct) (env_cid env) ct else []) = Some next' ∧
    or_relay next' = set_keys keys (fresh_circ (env_cid env) now) ∧ extend_pending next' = false ∧ pq_kem_ct next' = []).
  { unfold keys. destruct (wants_pq d) eqn:Hpq.
    - specialize (Hpqt eq_refl). destruct (Hkem eq_refl) as (ct' & ss' & Ek & Hlct & _ & Hdec).
      rewrite Ek in Hpqt. simplify_eq. rewrite Hlct. change (0 <? Z.of_nat MOOR_KEM_CT_LEN) with true. cbn [andb]. rewrite <- Hlct.
      unfold receive_kem. erewrite kem_ct_received by done. eexists. split; [done|]. cbn. rewrite Hnext. done.
    - exists next. by rewrite Hnext. }
  destruct Hrecv as (next' & Erecv & Hkeys & Hnp' & Hnct'). rewrite Erecv, Eback. cbn [set_build set_hops cc_hops]. rewrite Edec. cbn [negb Z.eqb]. rewrite Eun.
  erewrite client_takes_answer; [|done|cbn [cc_hops set_hops]; rewrite Hl2, Hl1; destruct Haw as (-> & _); exact Hp|
    destruct Haw as (E1 & Haw); rewrite E1; exact (conj E1 Haw)|rewrite Hycmd; destruct (wants_pq d); auto|lia|rewrite Hydata, Honion, Hid; apply Hcke].
  cbv zeta.
  assert (Ekeys : (if wants_pq d && (relay_command y =? relay_code RELAY_EXTENDED_PQ) then moor_crypto_circuit_kx_pq hash kdf ss
     else classical_keys hash hash_keyed kdf seed) = keys) by (rewrite Hycmd; unfold keys; by destruct (wants_pq d)).
  rewrite Ekeys. exists ctx1, hops2, (hop_with keys (identity_pk d)), (rs2 ++ [or_relay last2]), next'.
  cbn [cc_hops set_hops set_build cc_id cc_guard_id cc_build cc_status].
  destruct (send_next coins' _) as [c3 more]. cbn [negb Z.eqb fst snd]. split; [done|]. split; [|split_and!; try done; [lia|by destruct Haw]].
  apply in_step_next; rewrite ?Hkeys; try done; [eapply Forall_impl; [exact Hbound|]; unfold hop_bound; lia|apply hop_sync_keys| | | | |lia].
  all: destruct keys as [[[? ?] ?] ?]; try done. unfold hop_bound. cbn. lia.
Qed.

Lemma kem_cells_commands fuel : ∀ cid ct, Forall (λ x, command x = cell_code CELL_KEM_CT) (kem_ct_cells fuel cid ct).
Proof. induction fuel as [|fuel IH]; intros cid [|b ct]; cbn [kem_ct_cells]; constructor; auto. Qed.

Lemma filter_split (kem more : list moor_cell_t) :
  Forall (λ x, command x = cell_code CELL_KEM_CT) kem → Forall (λ x, command x ≠ cell_code CELL_KEM_CT) more →
  List.filter (λ x, command x =? cell_code CELL_KEM_CT) (kem ++ more) = kem ∧
  List.filter (λ x, negb (command x =? cell_code CELL_KEM_CT)) (kem ++ more) = more.
Proof.
  intros Hk Hm. induction Hk as [|x kem Hx _ [IH1 IH2]]; cbn [app List.filter].
  - induction Hm as [|x more Hx _ [IH1 IH2]]; [done|]. cbn [List.filter]. rewrite (proj2 (Z.eqb_neq _ _) Hx). cbn [negb]. by rewrite IH1, IH2.
  - rewrite Hx, Z.eqb_refl. cbn [negb]. by rewrite IH1, IH2.
Qed.

(** The first hop: the guard and the client are in step when the guard has the cells that
    the client sent before its first request. *)
Lemma create_step c ctx d coins0 coins1 kem_coins env :
  cc_build c = Some ctx → ctx_path ctx !! 0%nat = Some d → cc_hops c = [] → env_cid env = cc_id c →
  coin_eph_pk coins0 = pub (coin_eph_sk coins0) → length (identity_pk d) = 32%nat →
  describes pub kem_encapsulate kem_decapsulate kem_coins d (env_cfg env) → fst (count_create now (env_window env)) = true →
  ∃ c1 create guard created ctx' h kem guard',
    cbuild_send_create sends coins0 c = (c1, [create]) ∧
    join hash hash_keyed kdf crypto_scalarmult pub now env create = Some (guard, created) ∧
    moor_circuit_build_handle_created hash hash_keyed kdf crypto_scalarmult kem_encapsulate chacha inet_pton4 inet_pton6 sends
      coins1 kem_coins created c1 =
      (let c2 := mk_client (cc_id c) [h] (identity_pk d) (Some ctx') (cc_status c) in
       (0, (send_next coins1 c2).1, kem ++ (send_next coins1 c2).2)) ∧
    Forall (λ x, command x = cell_code CELL_KEM_CT) kem ∧
    receive_kem hash kdf kem_decapsulate (env_cfg env) guard kem = Some guard' ∧
    in_step 0 0 [h] [] guard' ∧ ctx_path ctx' = ctx_path ctx ∧ extend_pending guard' = false ∧ pq_kem_ct guard' = [].
Proof.
  intros Hb Hp Hhops Hcid Hcoins Hlid (Hid & Honion & Hkem) Hw. set (x := coin_eph_sk coins0) in *.
  destruct (join_step env x (wants_pq d) Hw ltac:(by rewrite <- Hid)) as
    (guard & created & tag & seed & Ejoin & Hcmd & Hpay & Hlt & Htok & Hcke & Hnp & Hnct & Hpk & Hrel).
  rewrite Hcid, <- Hid in Ejoin.
  set (keys := λ ss, if wants_pq d then moor_crypto_circuit_kx_pq hash kdf ss else classical_keys hash hash_keyed kdf seed).
  assert (Hstep : ∀ ss next, or_relay next = set_keys (keys ss) (fresh_circ (env_cid env) now) →
    in_step 0 0 [hop_with (keys ss) (identity_pk d)] [] next).
  { intros ss next Hn. apply (in_step_next 0 0 [] []); rewrite ?Hn; try done; [apply hop_sync_keys|..];
      destruct (keys ss) as [[[? ?] ?] ?]; done. }
  set (st := if wants_pq d then CBUILD_WAIT_CREATED_PQ else CBUILD_WAIT_CREATED).
  set (ctx1 := set_state st (start_hop d coins0 ctx)).
  set (c1 := mk_client (cc_id c) (cc_hops c) (identity_pk d) (Some ctx1) (cc_status c)).
  assert (E1 : cbuild_send_create sends coins0 c = (c1, [create_for (wants_pq d) (cc_id c) (identity_pk d) (pub x)])).
  { unfold cbuild_send_create. rewrite Hb, Hp. cbn [start_hop ctx_eph_pk]. by rewrite Hcoins. }
  assert (Hcke' : client_cke hash hash_keyed crypto_scalarmult (ctx_eph_pk ctx1) (ctx_eph_sk ctx1) (ctx_relay_curve_pk ctx1)
    (identity_pk d) (payload created) = Some seed) by (cbn; rewrite Hcoins, Hpay, Honion, Hid; apply Hcke).
  assert (E3 : ∃ kem ss, moor_circuit_build_handle_created hash hash_keyed kdf crypto_scalarmult kem_encapsulate chacha
      inet_pton4 inet_pton6 sends coins1 kem_coins created c1 =
      (let c2 := mk_client (cc_id c) [hop_with (keys ss) (identity_pk d)] (identity_pk d) (Some ctx1) (cc_status c) in
       (0, (send_next coins1 c2).1, kem ++ (send_next coins1 c2).2)) ∧
    Forall (λ x, command x = cell_code CELL_KEM_CT) kem ∧
    ∃ guard', receive_kem hash kdf kem_decapsulate (env_cfg env) guard kem = Some guard' ∧
      or_relay guard' = set_keys (keys ss) (fresh_circ (env_cid env) now) ∧ extend_pending guard' = false ∧ pq_kem_ct guard' = []).
  { unfold moor_circuit_build_handle_created. cbn [cc_build c1]. rewrite (Hp : ctx_path ctx1 !! 0%nat = Some d), Hcke', Hcmd.
    change (ctx_pq_hop ctx1) with (wants_pq d). change (ctx_state ctx1) with st. unfold keys, st. clear Hstep. destruct (wants_pq d) eqn:Hpq.
    - destruct (Hkem eq_refl) as (ct & ss & Ek & Hlct & Hokct & Hdec). rewrite Ek, Z.eqb_refl. cbn [negb].
      rewrite (proj2 (forallb_forall sends _)) by done. exists (kem_ct_cells (length ct) (cc_id c) ct), ss. split; [|split; [apply kem_cells_commands|]].
      { cbn [set_hops cc_id cc_guard_id cc_build cc_status c1]. by destruct (send_next coins1 _). }
      eexists. split; [apply kem_ct_received; done|]. cbn [or_relay]. by rewrite Hrel.
    - rewrite Z.eqb_refl. cbn [negb]. exists [], []. split; [|split; [constructor|]].
      { cbn [set_hops cc_id cc_guard_id cc_build cc_status c1]. by destruct (send_next coins1 _). }
      exists guard. by rewrite Hrel. }
  destruct E3 as (kem & ss & E3 & Hk & guard' & E4 & Hr & He & Hct).
  exists c1, (create_for (wants_pq d) (cc_id c) (identity_pk d) (pub x)), guard, created, ctx1, (hop_with (keys ss) (identity_pk d)), kem, guard'.
  split_and!; try done. by apply Hstep.
Qed.

(** The build ends and the hops agree. *)
Lemma build_runs c ctx d0 d1 d2 coins0 coins1 coins2 kem_coins env0 env1 env2 :
  cc_build c = Some ctx → ctx_path ctx = [d0; d1; d2] → cc_hops c = [] → env_cid env0 = cc_id c →
  Forall (λ co, coin_eph_pk co = pub (coin_eph_sk co)) [coins0; coins1; coins2] →
  describes pub kem_encapsulate kem_decapsulate kem_coins d0 (env_cfg env0) →
  describes pub kem_encapsulate kem_decapsulate (coin_kem coins1) d1 (env_cfg env1) →
  describes pub kem_encapsulate kem_decapsulate (coin_kem coins2) d2 (env_cfg env2) →
  Forall (reachable inet_pton4 inet_pton6 inet_ntop4 inet_ntop6) [d0; d1; d2] →
  Forall (λ e, fst (count_create now (env_window e)) = true) [env0; env1; env2] →
  identity_pk d1 ≠ cfg_identity_pk (env_cfg env0) → identity_pk d2 ≠ cfg_identity_pk (env_cfg env1) →
  let run := build_run hash hash_keyed kdf crypto_scalarmult kem_encapsulate kem_decapsulate chacha
    inet_pton4 inet_pton6 inet_ntop4 inet_ntop6 pub old now coins0 coins1 coins2 kem_coins env0 env1 env2 c in
  run = Early ∨
  ∃ c' ri r, run = Ran (c', ri ++ [r]) ∧ cc_status c' = Some 0 ∧ cc_build c' = None ∧ length (cc_hops c') = MOOR_CIRCUIT_HOPS ∧
    Forall2 hop_sync (cc_hops c') (ri ++ [r]) ∧ Forall (hop_bound 3000) (cc_hops c') ∧
    Forall (λ r, can_forward r ∧ prev_open r = true) ri.
Proof.
  intros Hb Hpath Hhops Hcid Hcoins Hd0 Hd1 Hd2 Hreach Hwin Hne1 Hne2.
  apply Forall_cons_1 in Hcoins as [Hc0 Hcoins]. apply Forall_cons_1 in Hcoins as [Hc1 Hcoins]. apply Forall_cons_1 in Hcoins as [Hc2 _].
  apply Forall_cons_1 in Hreach as [Hr0 Hreach]. apply Forall_cons_1 in Hreach as [Hr1 Hreach]. apply Forall_cons_1 in Hreach as [Hr2 _].
  apply Forall_cons_1 in Hwin as [Hw0 Hwin]. apply Forall_cons_1 in Hwin as [Hw1 Hwin]. apply Forall_cons_1 in Hwin as [Hw2 _].
  destruct (create_step c ctx d0 coins0 coins1 kem_coins env0 Hb ltac:(by rewrite Hpath) Hhops Hcid Hc0 ltac:(apply Hr0) Hd0 Hw0)
    as (c1 & create & guard & created & ctx1 & h0 & kem & guard' & E1 & E2 & E3 & Hkem & E4 & Hin1 & Hp1 & Hpend1 & Hct1).
  unfold build_run. rewrite E1, E2, E3. cbv zeta.
  set (c2 := mk_client (cc_id c) [h0] (identity_pk d0) (Some ctx1) (cc_status c)).
  destruct (round_step (env_cfg env0) env1 coins1 coins2 c2 ctx1 d1 [] guard' 0 0) as (c3 & cells & E5 & Hcells & Hround);
    try done; [by rewrite Hp1, Hpath|].
  change (send_next coins1 c2) with (cbuild_send_extend hash kem_encapsulate chacha inet_pton4 inet_pton6 sends (length (cc_hops c2)) coins1 c2).
  rewrite E5. cbn [fst snd]. destruct (filter_split kem cells Hkem Hcells) as [-> ->]. rewrite E4.
  destruct Hround as [->|(ctx3 & hops & h1 & rs & mid & E6 & Hin2 & Hl & Hp3 & Hpend2 & Hct2)]; [by left|]. rewrite E6.
  destruct hops as [|h0' [|]]; try discriminate. cbn [app] in *.
  set (c4 := set_hops [h0'; h1] (set_build ctx3 c2)) in *.
  destruct (round_step (env_cfg env1) env2 coins2 coins2 c4 ctx3 d2 rs mid 1101 2) as (c5 & cells2 & E7 & Hcells2 & Hround2);
    try done; [by rewrite Hp3, Hp1, Hpath|].
  change (send_next coins2 c4) with (cbuild_send_extend hash kem_encapsulate chacha inet_pton4 inet_pton6 sends (length (cc_hops c4)) coins2 c4).
  rewrite E7. cbn [fst snd].
  destruct Hround2 as [->|(ctx5 & hops & h2 & rs2 & exit & E8 & Hin3 & Hl3 & Hp5 & _)]; [by left|]. rewrite E8. right.
  destruct hops as [|h0'' [|h1' [|]]]; try discriminate. cbn [app] in *.
  change (send_next coins2 _) with (cbuild_finish 0 (set_hops [h0''; h1'; h2] (set_build ctx5 c4)), @nil moor_cell_t).
  eexists _, rs2, (or_relay exit). split; [done|]. destruct Hin3 as [Hs Hbd Hrd _ _ _]. split_and!; try done.
  - eapply Forall_impl; [exact Hbd|]. unfold hop_bound. lia.
  - eapply Forall_impl; [exact Hrd|]. by intros q (? & ? & _).
Qed.

(** C37. A post-quantum hop can be downgraded: a client that waits for a post-quantum hop
    accepts a plain [RELAY_EXTENDED], so a relay that turns the request into a classical
    [CREATE] gets a hop that works, whose keys come from X25519 alone, although client
    and next relay are both post-quantum and the client goes on as if nothing happened. *)
Theorem pq_downgrade_accepted coins' kem_coins c ctx d x ss env :
  cc_build c = Some ctx → ctx_path ctx !! length (cc_hops c) = Some d → awaits (ctx_path ctx) d x ss ctx →
  wants_pq d = true → length (identity_pk d) = 32%nat → describes pub kem_encapsulate kem_decapsulate kem_coins d (env_cfg env) →
  fst (count_create now (env_window env)) = true →
  ∃ next created seed,
    let h := hop_with (classical_keys hash hash_keyed kdf seed) (identity_pk d) in
    join hash hash_keyed kdf crypto_scalarmult pub now env (create_for false (env_cid env) (identity_pk d) (pub x)) =
      Some (next, created) ∧
    moor_circuit_build_handle_extended hash hash_keyed kdf crypto_scalarmult kem_encapsulate chacha inet_pton4 inet_pton6 sends
      coins' (relay_code RELAY_EXTENDED) (take MOOR_RELAY_DATA (payload created)) 64 c =
      (let c' := set_hops (cc_hops c ++ [h]) c in (0, (send_next coins' c').1, (send_next coins' c').2)) ∧
    hop_sync h (or_relay next).
Proof.
  clear dependent old. intros Hb Hp Haw Hpq Hlid (Hid & Honion & _) Hw.
  destruct (join_step env x false Hw ltac:(by rewrite <- Hid)) as
    (next & created & tag & seed & Ejoin & Hcmd & Hpay & Hlt & Htok & Hcke & Hnp & Hnct & Hpk & Hrel).
  exists next, created, seed. split; [by rewrite Hid|]. split.
  - rewrite (client_takes_answer coins' c ctx d x ss seed); try done; [|by left|].
    + rewrite (proj2 (Z.eqb_neq (relay_code RELAY_EXTENDED) _)) by done. rewrite andb_false_r. cbv zeta. by destruct (send_next _ _).
    + rewrite Hpay, Honion, Hid, app_assoc, take_app_ge, <- app_assoc by (rewrite length_app, pub_length, Hlt; unfold MOOR_RELAY_DATA; lia).
      apply Hcke.
  - rewrite Hrel. apply hop_sync_keys.
Qed.
End Rounds.

(** ** A network of three relays *)

Module ToyNet.
Definition hash (m : bytes) : bytes := toy_mac [] m.
Definition kdf (key : bytes) (id : Z) (ctx : bytes) : bytes := toy_mac key (id :: ctx).
Definition pub (sk : bytes) : bytes := (byte_at 0 sk mod 256) :: zeros 31.
Definition crypto_scalarmult (sk pk : bytes) : option bytes := Some (1 + (byte_at 0 sk mod 256) * byte_at 0 pk :: zeros 31).
Definition kem_encapsulate (coins pk : bytes) : option (bytes * bytes) :=
  Some (replicate MOOR_KEM_CT_LEN (byte_at 0 coins mod 256), pk).
Definition kem_decapsulate (ct sk : bytes) : option bytes := Some sk.
Definition inet_pton4 (a : bytes) : option bytes :=
  if bytes_eqb a (str "9.1.1.1") then Some [9; 1; 1; 1]
  else if bytes_eqb a (str "9.1.1.2") then Some [9; 1; 1; 2]
  else if bytes_eqb a (str "9.1.1.3") then Some [9; 1; 1; 3] else None.
Definition inet_ntop4 (a : bytes) : bytes := str "9.1.1." ++ [48 + byte_at 3 a].
Definition inet_pton6 (a : bytes) : option bytes := None.
Definition inet_ntop6 (a : bytes) : bytes := [].

Lemma dh_agrees a b : ∃ s, crypto_scalarmult a (pub b) = Some s ∧ crypto_scalarmult b (pub a) = Some s ∧ is_zero s = false.
Proof.
  unfold crypto_scalarmult. cbn [byte_at pub nth]. eexists. split; [reflexivity|]. split; [by rewrite Z.mul_comm|].
  cbn [is_zero forallb zeros]. pose proof (Z.mod_pos_bound (byte_at 0 a) 256 ltac:(lia)). pose proof (Z.mod_pos_bound (byte_at 0 b) 256 ltac:(lia)).
  by rewrite (proj2 (Z.eqb_neq _ _)) by (unfold byte_at in *; nia).
Qed.

Lemma pub_ok sk : bytes_ok (pub sk).
Proof. constructor; [apply Z.mod_pos_bound; lia|by apply bytes_ok_zeros]. Qed.

(** Relay [k]; the second one is not post-quantum. *)
Definition config (k : Z) : relay_config := mk_config (replicate 32 k) (replicate 32 (k + 10)) (replicate 32 (k + 20)).
Definition desc (k : Z) : moor_node_descriptor_t :=
  {| example_desc with identity_pk := replicate 32 k; onion_pk := pub (replicate 32 (k + 10));
     address := str "9.1.1." ++ [48 + k; 0]; or_port := 9001; kem_pk := replicate 32 (k + 20);
     features := if k =? 2 then 0 else NODE_FEATURE_PQ |}.
Definition coins (k : Z) : hop_coins := mk_coins (pub (replicate 32 (k + 30))) (replicate 32 (k + 30)) (replicate 32 k).
Definition env (k : Z) : relay_env := mk_env (config k) (replicate 32 (k + 40)) (mk_window 0 0) (100 + k).
Definition client : client_circ :=
  mk_client 101 [] [] (Some (mk_ctx CBUILD_IDLE [desc 1; desc 2; desc 3] [] [] [] false [] [])) None.

Lemma desc_describes k co : describes pub kem_encapsulate kem_decapsulate co (desc k) (config k).
Proof.
  split; [done|]. split; [done|]. intros _. eexists _, _. split; [reflexivity|]. split; [apply length_replicate|].
  split; [apply Forall_replicate, Z.mod_pos_bound; lia|done].
Qed.

Lemma desc_reachable : Forall (reachable inet_pton4 inet_pton6 inet_ntop4 inet_ntop6) [desc 1; desc 2; desc 3].
Proof.
  assert (H : ∀ k ia, k ∈ [1; 2; 3] → ia = [9; 1; 1; k] → inet_pton4 (cstr (address (desc k))) = Some ia →
    inet_ntop4 ia = cstr (address (desc k)) → is_private_address inet_pton4 inet_pton6 (cstr (address (desc k))) = false →
    reachable inet_pton4 inet_pton6 inet_ntop4 inet_ntop6 (desc k)).
  { intros k ia Hk -> H1 H2 H3. assert (Hr : 1 <= k <= 3) by (rewrite !elem_of_cons, elem_of_nil in Hk; lia).
    assert (Ha : cstr (address (desc k)) = str "9.1.1." ++ [48 + k]) by (by rewrite <- H2).
    split; [split; [done|split; [apply Forall_replicate; unfold is_u8; lia|by vm_compute]]|].
    split; [rewrite Ha; split; [rewrite length_app; cbn; lia|]|exists [9; 1; 1; k]; split; [repeat constructor; unfold is_u8; lia|left; done]].
    split; [repeat constructor; unfold is_u8; lia|]. split; [by rewrite <- Ha|by vm_compute]. }
  apply Forall_forall. intros d Hd. rewrite !elem_of_cons, elem_of_nil in Hd.
  destruct Hd as [-> |[-> |[-> |[]]]]; (eapply H; [set_solver|reflexivity|by vm_compute..]).
Qed.

Definition toy_run : run (client_circ * list relay_circ) :=
  build_run hash toy_mac kdf crypto_scalarmult kem_encapsulate kem_decapsulate toy_chacha
    inet_pton4 inet_pton6 inet_ntop4 inet_ntop6 pub zero_relay 1000
    (coins 1) (coins 2) (coins 3) (zeros 32) (env 1) (env 2) (env 3) client.

Definition is_early {A} (r : run A) : bool := match r with Early => true | _ => false end.

(** No relay takes a cell for its own. *)
Lemma toy_run_not_early : toy_run ≠ Early.
Proof.
  assert (H : is_early toy_run = false) by (by vm_compute). generalize dependent toy_run. intros r H ->. discriminate.
Qed.
End ToyNet.

(** The toy network builds its circuit. *)
Lemma toy_run_builds :
  ∃ c' ri r, ToyNet.toy_run = Ran (c', ri ++ [r]) ∧ cc_status c' = Some 0 ∧ length (cc_hops c') = MOOR_CIRCUIT_HOPS ∧
    Forall2 hop_sync (cc_hops c') (ri ++ [r]).
Proof.
  pose proof (build_runs ToyNet.hash toy_mac ToyNet.kdf ToyNet.crypto_scalarmult ToyNet.kem_encapsulate ToyNet.kem_decapsulate
    toy_chacha toy_ks ToyNet.inet_pton4 ToyNet.inet_pton6 ToyNet.inet_ntop4 ToyNet.inet_ntop6 ToyNet.pub zero_relay 1000
    (λ m n k, eq_refl) toy_ks_length (λ _, length_be_put 32 _) (λ _ _, length_be_put 32 _) (λ _ _, be_put_ok 32 _)
    (λ _, eq_refl) ToyNet.pub_ok ToyNet.dh_agrees eq_refl ToyNet.client
    (mk_ctx CBUILD_IDLE [ToyNet.desc 1; ToyNet.desc 2; ToyNet.desc 3] [] [] [] false [] [])
    (ToyNet.desc 1) (ToyNet.desc 2) (ToyNet.desc 3) (ToyNet.coins 1) (ToyNet.coins 2) (ToyNet.coins 3) (zeros 32)
    (ToyNet.env 1) (ToyNet.env 2) (ToyNet.env 3) eq_refl eq_refl eq_refl eq_refl ltac:(repeat constructor)
    (ToyNet.desc_describes 1 _) (ToyNet.desc_describes 2 _) (ToyNet.desc_describes 3 _) ToyNet.desc_reachable ltac:(repeat constructor)
    ltac:(discriminate) ltac:(discriminate)) as H.
  cbv zeta in H. pose proof ToyNet.toy_run_not_early as Hne. unfold ToyNet.toy_run in Hne |- *.
  destruct H as [H|(c' & ri & r & E & H1 & _ & H2 & H3 & _)].
  - destruct (Hne H).
  - exists c', ri, r. auto.
Qed.

(** The client of [ToyNet] that asked relay 3 for a post-quantum hop. *)
Lemma pq_downgrade_accepted_witness :
  let ctx := mk_ctx CBUILD_WAIT_EXTENDED_MID [ToyNet.desc 1; ToyNet.desc 3; ToyNet.desc 2] (ToyNet.pub [33]) [33]
    (ToyNet.pub (replicate 32 13)) true [] (replicate 32 5) in
  let c := mk_client 101 [hop_of 1] [] (Some ctx) None in
  wants_pq (ToyNet.desc 3) = true ∧
  ∃ next created seed,
    let h := hop_with (classical_keys ToyNet.hash toy_mac ToyNet.kdf seed) (replicate 32 3) in
    join ToyNet.hash toy_mac ToyNet.kdf ToyNet.crypto_scalarmult ToyNet.pub 1000 (ToyNet.env 3)
      (create_for false 103 (replicate 32 3) (ToyNet.pub [33])) = Some (next, created) ∧
    hop_sync h (or_relay next).
Proof.
  intros ctx c. split; [by vm_compute|].
  destruct (pq_downgrade_accepted ToyNet.hash toy_mac ToyNet.kdf ToyNet.crypto_scalarmult ToyNet.kem_encapsulate ToyNet.kem_decapsulate
    toy_chacha ToyNet.inet_pton4 ToyNet.inet_pton6 ToyNet.pub 1000
    (λ _ _, length_be_put 32 _) (λ _ _, be_put_ok 32 _)
    (λ _, eq_refl) ToyNet.dh_agrees (ToyNet.coins 3) (zeros 32) c ctx (ToyNet.desc 3) [33] (replicate 32 5)
    (ToyNet.env 3) eq_refl eq_refl ltac:(unfold awaits; cbn; split_and!; auto) ltac:(by vm_compute) eq_refl
    (ToyNet.desc_describes 3 (zeros 32)) eq_refl) as (next & created & seed & E & _ & H).
  exists next, created, seed. split; [exact E|exact H].
Defined.
