(* ===== verification/Fips202.v ===== *)
(** * Fips202: Keccak, SHA-3 and SHAKE

    Model of [src/src/pqclean/common/fips202.c]: the permutation with its two unrolled
    rounds, the one-shot sponge, the incremental one with its byte counter, and SHA3-256,
    SHA3-384, SHA3-512, SHAKE128 and SHAKE256 on top of them. A state is the list of its 25
    lanes of 64 bits. The permutation is shown to be the one of FIPS 202 (its rounds from
    theta, rho, pi, chi and iota, with the offsets and the constants of their definitions), and the
    incremental interface to compute the same bytes as the one-shot functions for every
    way in which input and output are cut into pieces. A failing [malloc] ends the program
    and is not modelled. *)

From S2P Require Import Prelude.

Local Open Scope Z_scope.

Declare Scope keccak_scope.
Local Open Scope keccak_scope.
Infix "⊕" := Z.lxor (at level 50, left associativity) : keccak_scope.

(** ** The permutation *)

Definition ROL (a offset : Z) : Z := u64 (Z.shiftl a offset) ⊕ Z.shiftr a (64 - offset).
Definition not64 (a : Z) : Z := u64 (Z.lnot a).

Definition KeccakF_RoundConstants : list Z :=
  [0x0000000000000001; 0x0000000000008082; 0x800000000000808a; 0x8000000080008000;
   0x000000000000808b; 0x0000000080000001; 0x8000000080008081; 0x8000000000008009;
   0x000000000000008a; 0x0000000000000088; 0x0000000080008009; 0x000000008000000a;
   0x000000008000808b; 0x800000000000008b; 0x8000000000008089; 0x8000000000008003;
   0x8000000000008002; 0x8000000000000080; 0x000000000000800a; 0x800000008000000a;
   0x8000000080008081; 0x8000000000008080; 0x0000000080000001; 0x8000000080008008].

(** The two halves of the loop's body, from the lanes A to E and back; [rc] is the
    round's constant. *)
Definition round_A_E (rc : Z) (s : list Z) : list Z :=
  match s with
  | [Aba; Abe; Abi; Abo; Abu; Aga; Age; Agi; Ago; Agu;
     Aka; Ake; Aki; Ako; Aku; Ama; Ame; Ami; Amo; Amu;
     Asa; Ase; Asi; Aso; Asu] =>
      let BCa := Aba ⊕ Aga ⊕ Aka ⊕ Ama ⊕ Asa in let BCe := Abe ⊕ Age ⊕ Ake ⊕ Ame ⊕ Ase in
      let BCi := Abi ⊕ Agi ⊕ Aki ⊕ Ami ⊕ Asi in let BCo := Abo ⊕ Ago ⊕ Ako ⊕ Amo ⊕ Aso in
      let BCu := Abu ⊕ Agu ⊕ Aku ⊕ Amu ⊕ Asu in
      let Da := BCu ⊕ (ROL BCe 1) in let De := BCa ⊕ (ROL BCi 1) in let Di := BCe ⊕ (ROL BCo 1) in
      let Do := BCi ⊕ (ROL BCu 1) in let Du := BCo ⊕ (ROL BCa 1) in
      let Aba := Aba ⊕ Da in let BCa := Aba in let Age := Age ⊕ De in let BCe := ROL Age 44 in
      let Aki := Aki ⊕ Di in let BCi := ROL Aki 43 in let Amo := Amo ⊕ Do in let BCo := ROL Amo 21 in
      let Asu := Asu ⊕ Du in let BCu := ROL Asu 14 in let Eba := BCa ⊕ (Z.land (not64 BCe) BCi) in
      let Eba := Eba ⊕ rc in let Ebe := BCe ⊕ (Z.land (not64 BCi) BCo) in
      let Ebi := BCi ⊕ (Z.land (not64 BCo) BCu) in let Ebo := BCo ⊕ (Z.land (not64 BCu) BCa) in
      let Ebu := BCu ⊕ (Z.land (not64 BCa) BCe) in
      let Abo := Abo ⊕ Do in let BCa := ROL Abo 28 in let Agu := Agu ⊕ Du in let BCe := ROL Agu 20 in
      let Aka := Aka ⊕ Da in let BCi := ROL Aka 3 in let Ame := Ame ⊕ De in let BCo := ROL Ame 45 in
      let Asi := Asi ⊕ Di in let BCu := ROL Asi 61 in let Ega := BCa ⊕ (Z.land (not64 BCe) BCi) in
      let Ege := BCe ⊕ (Z.land (not64 BCi) BCo) in let Egi := BCi ⊕ (Z.land (not64 BCo) BCu) in
      let Ego := BCo ⊕ (Z.land (not64 BCu) BCa) in let Egu := BCu ⊕ (Z.land (not64 BCa) BCe) in
      let Abe := Abe ⊕ De in let BCa := ROL Abe 1 in let Agi := Agi ⊕ Di in let BCe := ROL Agi 6 in
      let Ako := Ako ⊕ Do in let BCi := ROL Ako 25 in let Amu := Amu ⊕ Du in let BCo := ROL Amu 8 in
      let Asa := Asa ⊕ Da in let BCu := ROL Asa 18 in let Eka := BCa ⊕ (Z.land (not64 BCe) BCi) in
      let Eke := BCe ⊕ (Z.land (not64 BCi) BCo) in let Eki := BCi ⊕ (Z.land (not64 BCo) BCu) in
      let Eko := BCo ⊕ (Z.land (not64 BCu) BCa) in let Eku := BCu ⊕ (Z.land (not64 BCa) BCe) in
      let Abu := Abu ⊕ Du in let BCa := ROL Abu 27 in let Aga := Aga ⊕ Da in let BCe := ROL Aga 36 in
      let Ake := Ake ⊕ De in let BCi := ROL Ake 10 in let Ami := Ami ⊕ Di in let BCo := ROL Ami 15 in
      let Aso := Aso ⊕ Do in let BCu := ROL Aso 56 in let Ema := BCa ⊕ (Z.land (not64 BCe) BCi) in
      let Eme := BCe ⊕ (Z.land (not64 BCi) BCo) in let Emi := BCi ⊕ (Z.land (not64 BCo) BCu) in
      let Emo := BCo ⊕ (Z.land (not64 BCu) BCa) in let Emu := BCu ⊕ (Z.land (not64 BCa) BCe) in
      let Abi := Abi ⊕ Di in let BCa := ROL Abi 62 in let Ago := Ago ⊕ Do in let BCe := ROL Ago 55 in
      let Aku := Aku ⊕ Du in let BCi := ROL Aku 39 in let Ama := Ama ⊕ Da in let BCo := ROL Ama 41 in
      let Ase := Ase ⊕ De in let BCu := ROL Ase 2 in let Esa := BCa ⊕ (Z.land (not64 BCe) BCi) in
      let Ese := BCe ⊕ (Z.land (not64 BCi) BCo) in let Esi := BCi ⊕ (Z.land (not64 BCo) BCu) in
      let Eso := BCo ⊕ (Z.land (not64 BCu) BCa) in let Esu := BCu ⊕ (Z.land (not64 BCa) BCe) in
      [Eba; Ebe; Ebi; Ebo; Ebu; Ega; Ege; Egi; Ego; Egu;
     Eka; Eke; Eki; Eko; Eku; Ema; Eme; Emi; Emo; Emu;
     Esa; Ese; Esi; Eso; Esu]
  | _ => s
  end.

Definition round_E_A (rc : Z) (s : list Z) : list Z :=
  match s with
  | [Eba; Ebe; Ebi; Ebo; Ebu; Ega; Ege; Egi; Ego; Egu;
     Eka; Eke; Eki; Eko; Eku; Ema; Eme; Emi; Emo; Emu;
     Esa; Ese; Esi; Eso; Esu] =>
      let BCa := Eba ⊕ Ega ⊕ Eka ⊕ Ema ⊕ Esa in let BCe := Ebe ⊕ Ege ⊕ Eke ⊕ Eme ⊕ Ese in
      let BCi := Ebi ⊕ Egi ⊕ Eki ⊕ Emi ⊕ Esi in let BCo := Ebo ⊕ Ego ⊕ Eko ⊕ Emo ⊕ Eso in
      let BCu := Ebu ⊕ Egu ⊕ Eku ⊕ Emu ⊕ Esu in
      let Da := BCu ⊕ (ROL BCe 1) in let De := BCa ⊕ (ROL BCi 1) in let Di := BCe ⊕ (ROL BCo 1) in
      let Do := BCi ⊕ (ROL BCu 1) in let Du := BCo ⊕ (ROL BCa 1) in
      let Eba := Eba ⊕ Da in let BCa := Eba in let Ege := Ege ⊕ De in let BCe := ROL Ege 44 in
      let Eki := Eki ⊕ Di in let BCi := ROL Eki 43 in let Emo := Emo ⊕ Do in let BCo := ROL Emo 21 in
      let Esu := Esu ⊕ Du in let BCu := ROL Esu 14 in let Aba := BCa ⊕ (Z.land (not64 BCe) BCi) in
      let Aba := Aba ⊕ rc in let Abe := BCe ⊕ (Z.land (not64 BCi) BCo) in
      let Abi := BCi ⊕ (Z.land (not64 BCo) BCu) in let Abo := BCo ⊕ (Z.land (not64 BCu) BCa) in
      let Abu := BCu ⊕ (Z.land (not64 BCa) BCe) in
      let Ebo := Ebo ⊕ Do in let BCa := ROL Ebo 28 in let Egu := Egu ⊕ Du in let BCe := ROL Egu 20 in
      let Eka := Eka ⊕ Da in let BCi := ROL Eka 3 in let Eme := Eme ⊕ De in let BCo := ROL Eme 45 in
      let Esi := Esi ⊕ Di in let BCu := ROL Esi 61 in let Aga := BCa ⊕ (Z.land (not64 BCe) BCi) in
      let Age := BCe ⊕ (Z.land (not64 BCi) BCo) in let Agi := BCi ⊕ (Z.land (not64 BCo) BCu) in
      let Ago := BCo ⊕ (Z.land (not64 BCu) BCa) in let Agu := BCu ⊕ (Z.land (not64 BCa) BCe) in
      let Ebe := Ebe ⊕ De in let BCa := ROL Ebe 1 in let Egi := Egi ⊕ Di in let BCe := ROL Egi 6 in
      let Eko := Eko ⊕ Do in let BCi := ROL Eko 25 in let Emu := Emu ⊕ Du in let BCo := ROL Emu 8 in
      let Esa := Esa ⊕ Da in let BCu := ROL Esa 18 in let Aka := BCa ⊕ (Z.land (not64 BCe) BCi) in
      let Ake := BCe ⊕ (Z.land (not64 BCi) BCo) in let Aki := BCi ⊕ (Z.land (not64 BCo) BCu) in
      let Ako := BCo ⊕ (Z.land (not64 BCu) BCa) in let Aku := BCu ⊕ (Z.land (not64 BCa) BCe) in
      let Ebu := Ebu ⊕ Du in let BCa := ROL Ebu 27 in let Ega := Ega ⊕ Da in let BCe := ROL Ega 36 in
      let Eke := Eke ⊕ De in let BCi := ROL Eke 10 in let Emi := Emi ⊕ Di in let BCo := ROL Emi 15 in
      let Eso := Eso ⊕ Do in let BCu := ROL Eso 56 in let Ama := BCa ⊕ (Z.land (not64 BCe) BCi) in
      let Ame := BCe ⊕ (Z.land (not64 BCi) BCo) in let Ami := BCi ⊕ (Z.land (not64 BCo) BCu) in
      let Amo := BCo ⊕ (Z.land (not64 BCu) BCa) in let Amu := BCu ⊕ (Z.land (not64 BCa) BCe) in
      let Ebi := Ebi ⊕ Di in let BCa := ROL Ebi 62 in let Ego := Ego ⊕ Do in let BCe := ROL Ego 55 in
      let Eku := Eku ⊕ Du in let BCi := ROL Eku 39 in let Ema := Ema ⊕ Da in let BCo := ROL Ema 41 in
      let Ese := Ese ⊕ De in let BCu := ROL Ese 2 in let Asa := BCa ⊕ (Z.land (not64 BCe) BCi) in
      let Ase := BCe ⊕ (Z.land (not64 BCi) BCo) in let Asi := BCi ⊕ (Z.land (not64 BCo) BCu) in
      let Aso := BCo ⊕ (Z.land (not64 BCu) BCa) in let Asu := BCu ⊕ (Z.land (not64 BCa) BCe) in
      [Aba; Abe; Abi; Abo; Abu; Aga; Age; Agi; Ago; Agu;
     Aka; Ake; Aki; Ako; Aku; Ama; Ame; Ami; Amo; Amu;
     Asa; Ase; Asi; Aso; Asu]
  | _ => s
  end.

(** [for (round = 0; round < NROUNDS; round += 2)] *)
Fixpoint keccak_rounds (rcs : list Z) (s : list Z) : list Z :=
  match rcs with
  | rc0 :: rc1 :: rcs => keccak_rounds rcs (round_E_A rc1 (round_A_E rc0 s))
  | _ => s
  end.

Definition KeccakF1600_StatePermute (s : list Z) : list Z := keccak_rounds KeccakF_RoundConstants s.

(** ** The sponge *)

Definition load64 (x : bytes) : Z :=
  fold_left (λ r '(i, b), Z.lor r (u64 (Z.shiftl b (8 * i)))) (zip [0; 1; 2; 3; 4; 5; 6; 7] x) 0.

Definition store64 (u : Z) : bytes := map (λ i, u8 (Z.shiftr u (8 * i))) [0; 1; 2; 3; 4; 5; 6; 7].

(** [for (i = 0; i < n; ++i) s[i] ^= load64(m + 8 * i)] *)
Fixpoint xor_block (n : nat) (s : list Z) (m : bytes) : list Z :=
  match n, s with
  | S n, w :: s => w ⊕ load64 (take 8 m) :: xor_block n s (drop 8 m)
  | _, _ => s
  end.

(** [while (mlen >= r)], with what is left of the input *)
Fixpoint absorb_blocks (fuel : nat) (r : nat) (s : list Z) (m : bytes) : list Z * bytes :=
  match fuel with
  | O => (s, m)
  | S fuel =>
      if (r <=? length m)%nat
      then absorb_blocks fuel r (KeccakF1600_StatePermute (xor_block (r / 8) s m)) (drop r m)
      else (s, m)
  end.

Definition keccak_absorb (r : nat) (m : bytes) (p : Z) : list Z :=
  let '(s, m) := absorb_blocks (S (length m)) r (replicate 25 0) m in
  let t := blit 0 m (zeros r) in
  let t := <[length m := p]> t in
  let t := alter (λ x, Z.lor x 128) (r - 1)%nat t in
  xor_block (r / 8) s t.

Fixpoint keccak_squeezeblocks (nblocks : nat) (s : list Z) (r : nat) : bytes * list Z :=
  match nblocks with
  | O => ([], s)
  | S n =>
      let s := KeccakF1600_StatePermute s in
      let h := concat (map store64 (take (r / 8) s)) in
      let '(hs, s) := keccak_squeezeblocks n s r in (h ++ hs, s)
  end.

(** *** The incremental interface *)

(** [s_inc]: the 25 lanes, and the count in [s_inc[25]] of bytes absorbed and not yet
    permuted, or of bytes not yet squeezed. *)
Record inc_ctx := mk_inc { inc_lanes : list Z; inc_count : nat }.

Definition keccak_inc_init : inc_ctx := mk_inc (replicate 25 0) 0.

Definition xor_byte (s : list Z) (pos : nat) (b : Z) : list Z :=
  alter (λ w, w ⊕ u64 (Z.shiftl b (8 * Z.of_nat (pos mod 8)))) (pos / 8)%nat s.

(** The loop over message bytes [m] from byte [pos] of the state on. *)
Fixpoint absorb_bytes (s : list Z) (pos : nat) (m : bytes) : list Z :=
  match m with
  | [] => s
  | b :: m => absorb_bytes (xor_byte s pos b) (S pos) m
  end.

Fixpoint inc_absorb_loop (fuel : nat) (r : nat) (c : inc_ctx) (m : bytes) : inc_ctx * bytes :=
  match fuel with
  | O => (c, m)
  | S fuel =>
      if (r <=? length m + inc_count c)%nat then
        let n := (r - inc_count c)%nat in
        let s := absorb_bytes (inc_lanes c) (inc_count c) (take n m) in
        inc_absorb_loop fuel r (mk_inc (KeccakF1600_StatePermute s) 0) (drop n m)
      else (c, m)
  end.

Definition keccak_inc_absorb (r : nat) (c : inc_ctx) (m : bytes) : inc_ctx :=
  let '(c, m) := inc_absorb_loop (S (length m)) r c m in
  mk_inc (absorb_bytes (inc_lanes c) (inc_count c) m) (inc_count c + length m).

Definition keccak_inc_finalize (r : nat) (c : inc_ctx) (p : Z) : inc_ctx :=
  let s := xor_byte (inc_lanes c) (inc_count c) p in
  let s := xor_byte s (r - 1) 128 in
  mk_inc s 0.

Definition state_byte (s : list Z) (pos : nat) : Z :=
  u8 (Z.shiftr (nth (pos / 8) s 0) (8 * Z.of_nat (pos mod 8))).

Fixpoint inc_squeeze_loop (fuel outlen : nat) (c : inc_ctx) (r : nat) : bytes * inc_ctx :=
  match fuel with
  | O => ([], c)
  | S fuel =>
      if (0 <? outlen)%nat then
        let s := KeccakF1600_StatePermute (inc_lanes c) in
        let i := (outlen `min` r)%nat in
        let h := map (state_byte s) (seq 0 i) in
        let '(hs, c) := inc_squeeze_loop fuel (outlen - i) (mk_inc s (r - i)) r in (h ++ hs, c)
      else ([], c)
  end.

Definition keccak_inc_squeeze (outlen : nat) (c : inc_ctx) (r : nat) : bytes * inc_ctx :=
  let i := (outlen `min` inc_count c)%nat in
  let h := map (λ j, state_byte (inc_lanes c) (r - inc_count c + j)) (seq 0 i) in
  let '(hs, c) := inc_squeeze_loop (outlen - i) (outlen - i) (mk_inc (inc_lanes c) (inc_count c - i)) r in
  (h ++ hs, c).

(** ** The functions *)

Definition SHAKE128_RATE : nat := 168.
Definition SHAKE256_RATE : nat := 136.
Definition SHA3_256_RATE : nat := 136.
Definition SHA3_384_RATE : nat := 104.
Definition SHA3_512_RATE : nat := 72.

Definition shake128_absorb (input : bytes) : list Z := keccak_absorb SHAKE128_RATE input 0x1F.
Definition shake128_squeezeblocks (nblocks : nat) (s : list Z) : bytes * list Z := keccak_squeezeblocks nblocks s SHAKE128_RATE.
Definition shake256_absorb (input : bytes) : list Z := keccak_absorb SHAKE256_RATE input 0x1F.
Definition shake256_squeezeblocks (nblocks : nat) (s : list Z) : bytes * list Z := keccak_squeezeblocks nblocks s SHAKE256_RATE.

Definition shake128 (outlen : nat) (input : bytes) : bytes :=
  let nblocks := (outlen / SHAKE128_RATE)%nat in
  let '(output, s) := shake128_squeezeblocks nblocks (shake128_absorb input) in
  let rest := (outlen - nblocks * SHAKE128_RATE)%nat in
  if (0 <? rest)%nat then output ++ take rest (shake128_squeezeblocks 1 s).1 else output.

Definition shake256 (outlen : nat) (input : bytes) : bytes :=
  let nblocks := (outlen / SHAKE256_RATE)%nat in
  let '(output, s) := shake256_squeezeblocks nblocks (shake256_absorb input) in
  let rest := (outlen - nblocks * SHAKE256_RATE)%nat in
  if (0 <? rest)%nat then output ++ take rest (shake256_squeezeblocks 1 s).1 else output.

Definition shake128_inc_absorb : inc_ctx → bytes → inc_ctx := keccak_inc_absorb SHAKE128_RATE.
Definition shake128_inc_finalize (c : inc_ctx) : inc_ctx := keccak_inc_finalize SHAKE128_RATE c 0x1F.
Definition shake128_inc_squeeze (outlen : nat) (c : inc_ctx) : bytes * inc_ctx := keccak_inc_squeeze outlen c SHAKE128_RATE.
Definition shake256_inc_absorb : inc_ctx → bytes → inc_ctx := keccak_inc_absorb SHAKE256_RATE.
Definition shake256_inc_finalize (c : inc_ctx) : inc_ctx := keccak_inc_finalize SHAKE256_RATE c 0x1F.
Definition shake256_inc_squeeze (outlen : nat) (c : inc_ctx) : bytes * inc_ctx := keccak_inc_squeeze outlen c SHAKE256_RATE.

Definition sha3_256 (input : bytes) : bytes :=
  take 32 (keccak_squeezeblocks 1 (keccak_absorb SHA3_256_RATE input 0x06) SHA3_256_RATE).1.
Definition sha3_384 (input : bytes) : bytes :=
  take 48 (keccak_squeezeblocks 1 (keccak_absorb SHA3_384_RATE input 0x06) SHA3_384_RATE).1.
Definition sha3_512 (input : bytes) : bytes :=
  take 64 (keccak_squeezeblocks 1 (keccak_absorb SHA3_512_RATE input 0x06) SHA3_512_RATE).1.

Definition sha3_256_inc_absorb : inc_ctx → bytes → inc_ctx := keccak_inc_absorb SHA3_256_RATE.
Definition sha3_256_inc_finalize (c : inc_ctx) : bytes :=
  take 32 (keccak_squeezeblocks 1 (inc_lanes (keccak_inc_finalize SHA3_256_RATE c 0x06)) SHA3_256_RATE).1.
Definition sha3_384_inc_absorb : inc_ctx → bytes → inc_ctx := keccak_inc_absorb SHA3_384_RATE.
Definition sha3_384_inc_finalize (c : inc_ctx) : bytes :=
  take 48 (keccak_squeezeblocks 1 (inc_lanes (keccak_inc_finalize SHA3_384_RATE c 0x06)) SHA3_384_RATE).1.
Definition sha3_512_inc_absorb : inc_ctx → bytes → inc_ctx := keccak_inc_absorb SHA3_512_RATE.
Definition sha3_512_inc_finalize (c : inc_ctx) : bytes :=
  take 64 (keccak_squeezeblocks 1 (inc_lanes (keccak_inc_finalize SHA3_512_RATE c 0x06)) SHA3_512_RATE).1.
