(* ===== verification/Sponge.v ===== *)
(** * Sponge: SHA-3 as FIPS 202 defines it, and in pieces

    The permutation of [Fips202] is 24 rounds of theta, rho, pi, chi and iota on the array
    of lanes, with rotation offsets and constants computed as the standard defines them; and
    the incremental interface, for every division of input and output into pieces, gives
    the bytes of the one-shot functions. *)

From S2P Require Import Prelude Fips202.

Local Open Scope Z_scope.
Local Open Scope keccak_scope.

(** ** The permutation of the standard *)

(** The lane at column [x] and row [y], and an array given by its lanes. *)
Definition lane (s : list Z) (x y : nat) : Z := nth (x mod 5 + 5 * (y mod 5)) s 0.
Definition array (f : nat → nat → Z) : list Z := map (λ k, f (k mod 5)%nat (k / 5)%nat) (seq 0 25).

Definition theta (s : list Z) : list Z :=
  let C x := lane s x 0 ⊕ lane s x 1 ⊕ lane s x 2 ⊕ lane s x 3 ⊕ lane s x 4 in
  array (λ x y, lane s x y ⊕ (C (x + 4)%nat ⊕ ROL (C (x + 1)%nat) 1)).

(** The offsets of rho: from column 1 of row 0, 24 steps of the map (x, y) to
    (y, 2x + 3y), the t-th with offset (t + 1)(t + 2) / 2. *)
Fixpoint rho_walk (n t x y : nat) : list (nat * nat * nat) :=
  match n with
  | O => []
  | S n => (x, y, (t + 1) * (t + 2) / 2 mod 64)%nat :: rho_walk n (S t) y ((2 * x + 3 * y) mod 5)
  end.
Definition rho_offset (x y : nat) : nat :=
  match find (λ '(x', y', _), (x =? x') && (y =? y'))%nat (rho_walk 24 0 1 0) with Some (_, _, o) => o | None => 0%nat end.
Definition rho (s : list Z) : list Z :=
  array (λ x y, match rho_offset x y with O => lane s x y | o => ROL (lane s x y) (Z.of_nat o) end).

Definition pi (s : list Z) : list Z := array (λ x y, lane s (x + 3 * y) x).
Definition chi (s : list Z) : list Z := array (λ x y, lane s x y ⊕ Z.land (not64 (lane s (x + 1) y)) (lane s (x + 2) y)).
Definition iota (rc : Z) (s : list Z) : list Z := match s with [] => [] | w :: s => w ⊕ rc :: s end.

(** The bits of the constants come from a shift register with the polynomial
    x^8 + x^6 + x^5 + x^4 + 1. *)
Fixpoint lfsr (t : nat) : Z :=
  match t with
  | O => 1
  | S t => let r := 2 * lfsr t in if Z.testbit r 8 then r ⊕ 0x171 else r
  end.
Definition round_constant (ir : nat) : Z :=
  fold_right Z.lor 0 (map (λ j, Z.shiftl (lfsr (j + 7 * ir) mod 2) (2 ^ Z.of_nat j - 1)) (seq 0 7)).

Definition fips_round (ir : nat) (s : list Z) : list Z := iota (round_constant ir) (chi (pi (rho (theta s)))).
Definition keccak_f (s : list Z) : list Z := fold_left (λ s ir, fips_round ir s) (seq 0 24) s.

(** A rotation moves the bits of a lane. *)
Lemma ROL_testbit a n i : is_u64 a → 0 < n < 64 → 0 <= i < 64 → Z.testbit (ROL a n) i = Z.testbit a ((i - n) mod 64).
Proof.
  intros Ha Hn Hi. unfold ROL, u64. rewrite Z.lxor_spec, Z.mod_pow2_bits_low, Z.shiftl_spec, Z.shiftr_spec by lia.
  unfold is_u64 in Ha. destruct (Z.lt_ge_cases i n).
  - rewrite Z.testbit_neg_r by lia. rewrite xorb_false_l. f_equal. replace ((i - n) mod 64) with (i - n + 64); [lia|]. apply (Z.mod_unique_pos _ _ (-1)); lia.
  - rewrite (Z.mod_small (i - n) 64) by lia. rewrite (Z.bits_above_log2 a (i + (64 - n))); [by rewrite xorb_false_r|lia|].
    destruct (decide (a = 0)) as [->|]; [cbn; lia|]. apply Z.log2_lt_pow2; [lia|]. apply Z.lt_le_trans with (2 ^ 64); [lia|]. apply Z.pow_le_mono_r; lia.
Qed.

Lemma length_25 (s : list Z) : length s = 25%nat → ∃ Aba Abe Abi Abo Abu Aga Age Agi Ago Agu Aka Ake Aki Ako Aku Ama Ame Ami Amo Amu Asa Ase Asi Aso Asu,
  s = [Aba; Abe; Abi; Abo; Abu; Aga; Age; Agi; Ago; Agu; Aka; Ake; Aki; Ako; Aku; Ama; Ame; Ami; Amo; Amu; Asa; Ase; Asi; Aso; Asu].
Proof. intros Hs. do 25 (destruct s as [|? s]; [discriminate Hs|]). destruct s; [|discriminate Hs]. by repeat eexists. Qed.

Lemma round_A_E_spec s rc : length s = 25%nat → round_A_E rc s = iota rc (chi (pi (rho (theta s)))).
Proof.
  intros Hs. apply length_25 in Hs. destruct Hs as (Aba & Abe & Abi & Abo & Abu & Aga & Age & Agi & Ago & Agu & Aka & Ake & Aki & Ako & Aku & Ama & Ame & Ami & Amo & Amu & Asa & Ase & Asi & Aso & Asu & ->).
  cbv -[Z.lxor Z.land ROL not64]. reflexivity.
Qed.

Lemma round_E_A_eq rc s : round_E_A rc s = round_A_E rc s.
Proof. reflexivity. Qed.

Lemma length_round rc s : length (iota rc (chi (pi (rho (theta s))))) = 25%nat.
Proof. done. Qed.

Lemma constants_ok : KeccakF_RoundConstants = map round_constant (seq 0 24).
Proof. by vm_compute. Qed.

Lemma rounds_fold n : ∀ i s, length s = 25%nat →
  keccak_rounds (map round_constant (seq i (2 * n))) s = fold_left (λ s ir, fips_round ir s) (seq i (2 * n)) s.
Proof.
  induction n as [|n IH]; intros i s Hs; [done|]. replace (2 * S n)%nat with (S (S (2 * n))) by lia. cbn [seq map keccak_rounds fold_left].
  rewrite round_E_A_eq, !round_A_E_spec by (rewrite ?round_A_E_spec by done; done). by apply IH.
Qed.

Lemma permute_rounds s : length s = 25%nat → KeccakF1600_StatePermute s = keccak_f s.
Proof. intros Hs. unfold KeccakF1600_StatePermute, keccak_f. rewrite constants_ok. exact (rounds_fold 12 0 s Hs). Qed.

(** C18. The permutation of the code, with its unrolled rounds and its table of constants, is
    Keccak-f[1600] of FIPS 202: 24 rounds of theta, rho, pi, chi and iota. *)
Theorem keccak_permutation s : length s = 25%nat → KeccakF1600_StatePermute s = keccak_f s.
Proof. apply permute_rounds. Qed.

Lemma keccak_permutation_witness : KeccakF1600_StatePermute (replicate 25 0) = keccak_f (replicate 25 0).
Proof. apply keccak_permutation. reflexivity. Defined.

(** ** The sponge over bytes *)

#[local] Opaque KeccakF1600_StatePermute.

(** Disjoint bits. *)
Lemma lor_lxor_shiftl a b n : 0 <= n → 0 <= a < 2 ^ n → Z.lor a (Z.shiftl b n) = a ⊕ Z.shiftl b n.
Proof.
  intros Hn Ha. symmetry. apply Z.lxor_lor. apply Z.bits_inj'. intros i Hi. rewrite Z.land_spec, Z.bits_0.
  destruct (Z.lt_ge_cases i n); [rewrite (Z.shiftl_spec_low _ n i) by lia; by rewrite andb_false_r|].
  destruct (decide (a = 0)) as [->|]; [by rewrite Z.bits_0|]. rewrite Z.bits_above_log2; [done|lia|].
  apply Z.lt_le_trans with n; [apply Z.log2_lt_pow2; lia|lia].
Qed.

Lemma shifted_byte b k : is_u8 b → 0 <= k → k < 8 → u64 (Z.shiftl b (8 * k)) = Z.shiftl b (8 * k) ∧ 0 <= Z.shiftl b (8 * k) < 2 ^ (8 * (k + 1)).
Proof.
  unfold is_u8. intros Hb H0 H8. rewrite Z.shiftl_mul_pow2 by lia. rewrite Z.mul_add_distr_l, Z.pow_add_r by lia.
  pose proof (Z.pow_pos_nonneg 2 (8 * k) ltac:(lia) ltac:(lia)). assert (2 ^ (8 * k) <= 2 ^ 56) by (apply Z.pow_le_mono_r; lia).
  split; [apply u64_small; unfold is_u64; nia|nia].
Qed.

(** Loading a lane and adding it is adding its bytes one by one. *)
Definition xor_at (w : Z) (ib : Z * Z) : Z := w ⊕ u64 (Z.shiftl ib.2 (8 * ib.1)).

Lemma load_fold x : ∀ k r w, bytes_ok x → 0 <= k → k + Z.of_nat (length x) <= 8 → 0 <= r < 2 ^ (8 * k) →
  w ⊕ fold_left (λ r '(i, b), Z.lor r (u64 (Z.shiftl b (8 * i)))) (zip (seqZ k (Z.of_nat (length x))) x) r =
  fold_left xor_at (zip (seqZ k (Z.of_nat (length x))) x) (w ⊕ r).
Proof.
  induction x as [|b x IH]; intros k r w Hx Hk Hl Hr; [done|]. apply Forall_cons in Hx as [Hb Hx]. cbn [length] in *.
  rewrite seqZ_cons by lia. cbn [zip zip_with fold_left]. replace (Z.pred (Z.of_nat (S (length x)))) with (Z.of_nat (length x)) by lia.
  replace (Z.succ k) with (k + 1) by lia. destruct (shifted_byte b k Hb Hk ltac:(lia)) as [E Hs]. rewrite E, lor_lxor_shiftl by lia. rewrite IH.
  - f_equal. unfold xor_at. cbn [fst snd]. by rewrite E, Z.lxor_assoc.
  - done.
  - lia.
  - lia.
  - rewrite <- lor_lxor_shiftl by lia. apply lor_range; [lia| |lia]. split; [lia|]. apply Z.lt_le_trans with (2 ^ (8 * k)); [lia|apply Z.pow_le_mono_r; lia].
Qed.

Lemma xor_byte_cons w s pos b : (8 <= pos)%nat → xor_byte (w :: s) pos b = w :: xor_byte s (pos - 8) b.
Proof.
  intros Hp. destruct (Nat.le_exists_sub 8 pos Hp) as (q & -> & _). rewrite Nat.add_sub. unfold xor_byte.
  replace (q + 8)%nat with (q + 1 * 8)%nat by lia. rewrite Nat.Div0.mod_add, Nat.div_add by lia. by rewrite Nat.add_1_r.
Qed.

Lemma absorb_bytes_cons w s m : ∀ pos, (8 <= pos)%nat → absorb_bytes (w :: s) pos m = w :: absorb_bytes s (pos - 8) m.
Proof.
  revert s. induction m as [|b m IH]; intros s pos Hp; [done|]. cbn [absorb_bytes]. rewrite xor_byte_cons, IH by lia. f_equal. f_equal. lia.
Qed.

Lemma absorb_bytes_app m1 : ∀ s pos m2, absorb_bytes s pos (m1 ++ m2) = absorb_bytes (absorb_bytes s pos m1) (pos + length m1) m2.
Proof.
  induction m1 as [|b m1 IH]; intros s pos m2; cbn [absorb_bytes app length]; [by rewrite Nat.add_0_r|]. rewrite IH. f_equal. lia.
Qed.

Lemma xor_block_bytes n : ∀ s m, (n <= length s)%nat → length m = (8 * n)%nat → bytes_ok m → xor_block n s m = absorb_bytes s 0 m.
Proof.
  induction n as [|n IH]; intros s m Hn Hm Hb; [by destruct m|]. destruct s as [|w s]; [cbn in Hn; lia|]. cbn [xor_block].
  rewrite IH by (cbn [length] in Hn; rewrite ?length_drop; try lia; by apply Forall_drop).
  rewrite <- (take_drop 8 m) at 3. rewrite absorb_bytes_app, length_take. replace (0 + 8 `min` length m)%nat with 8%nat by lia.
  assert (Hx : absorb_bytes (w :: s) 0 (take 8 m) = w ⊕ load64 (take 8 m) :: s).
  { assert (H8 : length (take 8 m) = 8%nat) by (rewrite length_take; lia). pose proof (Forall_take _ 8 _ Hb : bytes_ok (take 8 m)) as Hb8.
    pose proof (load_fold (take 8 m) 0 0 w Hb8 ltac:(lia) ltac:(lia) ltac:(lia)) as E. rewrite H8 in E. change (seqZ 0 (Z.of_nat 8)) with [0; 1; 2; 3; 4; 5; 6; 7] in E.
    unfold load64. rewrite E. destruct (take 8 m) as [|b0 [|b1 [|b2 [|b3 [|b4 [|b5 [|b6 [|b7 [|]]]]]]]]]; try discriminate H8.
    by rewrite Z.lxor_0_r. }
  rewrite Hx, absorb_bytes_cons by lia. done.
Qed.

Lemma length_xor_byte s pos b : length (xor_byte s pos b) = length s.
Proof. apply length_alter. Qed.

Lemma length_absorb_bytes m : ∀ s pos, length (absorb_bytes s pos m) = length s.
Proof. induction m as [|b m IH]; intros s pos; [done|]. cbn [absorb_bytes]. by rewrite IH, length_xor_byte. Qed.

Lemma xor_byte_0 s pos : xor_byte s pos 0 = s.
Proof. unfold xor_byte. apply list_alter_id. intros w. by rewrite Z.shiftl_0_l, Z.lxor_0_r. Qed.

Lemma absorb_bytes_zeros n : ∀ s pos, absorb_bytes s pos (zeros n) = s.
Proof. induction n as [|n IH]; intros s pos; [done|]. cbn [zeros replicate absorb_bytes]. rewrite xor_byte_0. apply IH. Qed.

(** *** Absorbing *)

Section Absorb.
  Context (r : nat).
  Hypothesis Hr : (0 < r)%nat.

Lemma inc_loop_fuel f1 : ∀ f2 c m, (length m < f1)%nat → (length m < f2)%nat → (inc_count c < r)%nat →
  inc_absorb_loop f1 r c m = inc_absorb_loop f2 r c m.
Proof.
  induction f1 as [|f1 IH]; intros [|f2] c m H1 H2 Hc; try lia. cbn [inc_absorb_loop]. destruct (Nat.leb_spec r (length m + inc_count c)); [|done].
  apply IH; cbn [inc_count]; rewrite ?length_drop; lia.
Qed.

(** One block, or the rest. *)
Lemma inc_absorb_eq c m : (inc_count c < r)%nat → keccak_inc_absorb r c m =
  if (r <=? length m + inc_count c)%nat then
    let n := (r - inc_count c)%nat in
    keccak_inc_absorb r (mk_inc (KeccakF1600_StatePermute (absorb_bytes (inc_lanes c) (inc_count c) (take n m))) 0) (drop n m)
  else mk_inc (absorb_bytes (inc_lanes c) (inc_count c) m) (inc_count c + length m).
Proof.
  intros Hc. unfold keccak_inc_absorb. cbn [inc_absorb_loop]. destruct (Nat.leb_spec r (length m + inc_count c)); [|done]. cbv zeta.
  rewrite (inc_loop_fuel (length m) (S (length (drop (r - inc_count c) m)))); [done|rewrite length_drop; lia|lia|done].
Qed.

Lemma inc_absorb_app n : ∀ m1 c m2, (length m1 < n)%nat → (inc_count c < r)%nat →
  (inc_count (keccak_inc_absorb r c m1) < r)%nat ∧
  keccak_inc_absorb r (keccak_inc_absorb r c m1) m2 = keccak_inc_absorb r c (m1 ++ m2).
Proof.
  induction n as [|n IH]; intros m1 c m2 Hn Hc; [lia|]. rewrite (inc_absorb_eq c m1 Hc), (inc_absorb_eq c (m1 ++ m2) Hc), length_app.
  destruct (Nat.leb_spec r (length m1 + inc_count c)) as [H1|H1].
  - destruct (Nat.leb_spec r (length m1 + length m2 + inc_count c)); [|lia]. cbv zeta. rewrite take_app_le, drop_app_le by lia.
    apply IH; cbn [inc_count]; rewrite ?length_drop; lia.
  - cbn [inc_count]. split; [lia|]. rewrite inc_absorb_eq by (cbn [inc_count]; lia). cbn [inc_count inc_lanes].
    replace (length m2 + (inc_count c + length m1))%nat with (length m1 + length m2 + inc_count c)%nat by lia.
    destruct (Nat.leb_spec r (length m1 + length m2 + inc_count c)).
    + cbv zeta. rewrite take_app_ge, drop_app_ge, absorb_bytes_app by lia. by replace (r - (inc_count c + length m1))%nat with (r - inc_count c - length m1)%nat by lia.
    + rewrite absorb_bytes_app. f_equal; lia.
Qed.

(** Pieces of input are absorbed as their concatenation. *)
Lemma inc_absorb_chunks chunks : ∀ c, (inc_count c < r)%nat →
  fold_left (keccak_inc_absorb r) chunks c = keccak_inc_absorb r c (concat chunks).
Proof.
  induction chunks as [|m chunks IH]; intros c Hc; cbn [fold_left concat].
  - rewrite inc_absorb_eq by done. cbn [length]. destruct (Nat.leb_spec r (0 + inc_count c)); [lia|]. destruct c as [s k]. cbn. by rewrite Nat.add_0_r.
  - destruct (inc_absorb_app (S (length m)) m c (concat chunks) ltac:(lia) Hc) as [Hc' E]. by rewrite IH, E.
Qed.

(** ** One-shot absorption *)
  Hypothesis Hr8 : (r mod 8 = 0)%nat.
  Hypothesis Hr200 : (r <= 200)%nat.

Lemma xor_block_take n : ∀ s m k, (8 * n <= k)%nat → xor_block n s m = xor_block n s (take k m).
Proof.
  induction n as [|n IH]; intros s m k Hk; [done|]. destruct s as [|w s]; [done|]. cbn [xor_block].
  rewrite take_take, Nat.min_l by lia. f_equal. rewrite skipn_firstn_comm. apply IH. lia.
Qed.

Lemma xor_full s m : length s = 25%nat → length m = r → bytes_ok m → xor_block (r / 8) s m = absorb_bytes s 0 m.
Proof.
  intros Hs Hm Hb. pose proof (Nat.div_mod_eq r 8). pose proof (Nat.Div0.div_le_mono r 200 8 Hr200). change (200 / 8)%nat with 25%nat in *.
  apply xor_block_bytes; [lia|lia|done].
Qed.

Lemma length_permute s : length s = 25%nat → length (KeccakF1600_StatePermute s) = 25%nat.
Proof.
  intros Hs. rewrite permute_rounds by done. unfold keccak_f. cbn [seq fold_left]. apply length_round.
Qed.

(** The blocks of the one-shot loop are those of the incremental one. *)
Lemma absorb_blocks_inc fuel : ∀ s m, (length m < fuel)%nat → length s = 25%nat → bytes_ok m →
  let '(s', m') := absorb_blocks fuel r s m in
  length s' = 25%nat ∧ (length m' < r)%nat ∧ bytes_ok m' ∧ keccak_inc_absorb r (mk_inc s 0) m = mk_inc (absorb_bytes s' 0 m') (length m').
Proof.
  induction fuel as [|fuel IH]; intros s m Hf Hs Hb; [lia|]. cbn [absorb_blocks]. rewrite (inc_absorb_eq (mk_inc s 0) m) by done.
  cbn [inc_count inc_lanes]. rewrite Nat.add_0_r. destruct (Nat.leb_spec r (length m)) as [H1|H1]; [|done]. cbv zeta. rewrite Nat.sub_0_r.
  assert (Ex : xor_block (r / 8) s m = absorb_bytes s 0 (take r m)).
  { rewrite <- xor_full; [|done|rewrite length_take; lia|by apply Forall_take]. apply xor_block_take. pose proof (Nat.div_mod_eq r 8). lia. }
  rewrite Ex. apply IH; [rewrite length_drop; lia|apply length_permute; by rewrite length_absorb_bytes|by apply Forall_drop].
Qed.
End Absorb.

(** The padded last block. *)
Lemma padded_block r m p : (length m < r)%nat →
  alter (λ x, Z.lor x 128) (r - 1)%nat (<[length m := p]> (blit 0 m (zeros r))) =
    m ++ if (S (length m) =? r)%nat then [Z.lor p 128] else p :: zeros (r - length m - 2) ++ [128].
Proof.
  intros Hm. assert (Eb : blit 0 m (zeros r) = m ++ zeros (r - length m)) by (unfold blit; rewrite take_0; cbn [app Nat.add]; f_equal; apply drop_replicate).
  rewrite Eb. rewrite (insert_app_r_alt m _ (length m)), Nat.sub_diag by lia. rewrite alter_app_r_alt by lia. f_equal.
  destruct (Nat.eqb_spec (S (length m)) r) as [E|E].
  - replace (r - length m)%nat with 1%nat by lia. replace (r - 1 - length m)%nat with 0%nat by lia. done.
  - replace (r - length m)%nat with (S (S (r - length m - 2))) by lia. replace (r - 1 - length m)%nat with (S (r - length m - 2)) by lia.
    cbn [zeros replicate]. generalize (r - length m - 2)%nat. intros k.
    change (<[0%nat:=p]> (0 :: 0 :: replicate k 0)) with (p :: 0 :: replicate k 0). 
    assert (Ez : 0 :: replicate k 0 = zeros k ++ [0]) by apply replicate_cons_app.
    rewrite Ez. change (alter (λ x, Z.lor x 128) (S k) (p :: zeros k ++ [0])) with (p :: alter (λ x, Z.lor x 128) k (zeros k ++ [0])).
    rewrite alter_app_r_alt by (rewrite length_zeros; lia). rewrite length_zeros, Nat.sub_diag. by replace (S (S k) - 2)%nat with k by lia.
Qed.

Lemma lor_128 p : 0 <= p < 128 → Z.lor p 128 = p ⊕ 128.
Proof. intros Hp. apply (lor_lxor_shiftl p 1 7); lia. Qed.

Lemma alter_twice (f g h : Z → Z) (l : list Z) : ∀ i : nat, (∀ w, g (f w) = h w) → alter g i (alter f i l) = alter h i l.
Proof. induction l as [|w l IH]; intros [|i] H; try done; cbn; [by rewrite H|f_equal; by apply IH]. Qed.

Lemma xor_byte_twice s pos a b : is_u8 a → is_u8 b → xor_byte (xor_byte s pos a) pos b = xor_byte s pos (a ⊕ b).
Proof.
  intros Ha Hb. unfold xor_byte. apply alter_twice. intros w.
  pose proof (Nat.mod_upper_bound pos 8 ltac:(lia)).
  destruct (shifted_byte a (Z.of_nat (pos mod 8)) Ha ltac:(lia) ltac:(lia)) as [-> _]. destruct (shifted_byte b (Z.of_nat (pos mod 8)) Hb ltac:(lia) ltac:(lia)) as [-> _].
  destruct (shifted_byte (a ⊕ b) (Z.of_nat (pos mod 8)) (is_u8_lxor a b Ha Hb) ltac:(lia) ltac:(lia)) as [-> _]. by rewrite Z.lxor_assoc, Z.shiftl_lxor.
Qed.

Lemma padded_ok r m p : (length m < r)%nat → 0 <= p < 128 → bytes_ok m →
  let t := m ++ if (S (length m) =? r)%nat then [Z.lor p 128] else p :: zeros (r - length m - 2) ++ [128] in
  length t = r ∧ bytes_ok t.
Proof.
  intros Hm Hp Hb. assert (Hp8 : is_u8 p) by (unfold is_u8; lia). assert (H128 : is_u8 128) by done.
  assert (is_u8 (Z.lor p 128)) by (rewrite lor_128 by lia; by apply is_u8_lxor).
  cbv zeta. rewrite length_app. destruct (Nat.eqb_spec (S (length m)) r); cbn [length]; rewrite ?length_app, ?length_zeros; cbn [length].
  - split; [lia|]. apply Forall_app. split; [done|]. by apply List.Forall_cons.
  - split; [lia|]. apply Forall_app. split; [done|]. apply List.Forall_cons; [done|]. apply Forall_app.
    split; [by apply Forall_replicate|by apply List.Forall_cons].
Qed.

(** One-shot absorption is incremental absorption of the whole input. *)
Lemma keccak_absorb_inc r m p : (0 < r)%nat → (r mod 8 = 0)%nat → (r <= 200)%nat → 0 <= p < 128 → bytes_ok m →
  keccak_absorb r m p = inc_lanes (keccak_inc_finalize r (keccak_inc_absorb r keccak_inc_init m) p) ∧ length (keccak_absorb r m p) = 25%nat.
Proof.
  intros Hr Hr8 Hr200 Hp Hb. unfold keccak_absorb.
  pose proof (absorb_blocks_inc r Hr Hr8 Hr200 (S (length m)) (replicate 25 0) m ltac:(lia) eq_refl Hb) as Ha.
  destruct (absorb_blocks _ _ _ _) as [s m']. destruct Ha as (Hs & Hm & Hb' & E). unfold keccak_inc_init. rewrite E, padded_block by done.
  cbn [keccak_inc_finalize inc_lanes inc_count]. 
  assert (Hp8 : is_u8 p) by (unfold is_u8; lia). assert (H128 : is_u8 128) by done.
  destruct (padded_ok r m' p Hm Hp Hb') as [Ht Htb]. set (t := m' ++ _) in *.
  rewrite xor_full by done. rewrite length_absorb_bytes. split; [|done]. unfold t. rewrite absorb_bytes_app. cbn [Nat.add].
  destruct (Nat.eqb_spec (S (length m')) r) as [<-|Hne]; cbn [absorb_bytes].
  - rewrite lor_128, Nat.sub_1_r by lia. cbn [Nat.pred]. by rewrite xor_byte_twice.
  - rewrite absorb_bytes_app, absorb_bytes_zeros, length_zeros. cbn [absorb_bytes]. f_equal. lia.
Qed.

(** *** Squeezing *)

Lemma state_byte_cons w s pos : state_byte (w :: s) (8 + pos) = state_byte s pos.
Proof.
  unfold state_byte. replace (8 + pos)%nat with (pos + 1 * 8)%nat by lia. rewrite Nat.Div0.mod_add, Nat.div_add by lia. by rewrite Nat.add_1_r.
Qed.

Lemma store_block n : ∀ s, (n <= length s)%nat → concat (map store64 (take n s)) = map (state_byte s) (seq 0 (8 * n)).
Proof.
  induction n as [|n IH]; intros s Hn; [by destruct s|]. destruct s as [|w s]; [cbn in Hn; lia|]. cbn [take map concat].
  rewrite IH by (cbn in Hn; lia). replace (8 * S n)%nat with (8 + 8 * n)%nat by lia. rewrite seq_app, map_app. f_equal.
  change (0 + 8)%nat with (8 + 0)%nat. rewrite <- (fmap_add_seq 8 0 (8 * n)). rewrite map_map. apply map_ext. intros pos. by rewrite state_byte_cons.
Qed.

Section Squeeze.
  Context (r : nat).
  Hypothesis Hr : (0 < r)%nat.

Lemma squeeze_loop_fuel f1 : ∀ f2 n c, (n <= f1)%nat → (n <= f2)%nat → inc_squeeze_loop f1 n c r = inc_squeeze_loop f2 n c r.
Proof.
  induction f1 as [|f1 IH]; intros f2 n c H1 H2; destruct f2 as [|f2]; cbn [inc_squeeze_loop]; destruct (Nat.ltb_spec 0 n); try done; try lia.
  by rewrite (IH f2) by lia.
Qed.

(** The bytes [k], ..., [k + n - 1] of those left in the state. *)
Definition left_bytes (c : inc_ctx) (k n : nat) : bytes := map (λ j, state_byte (inc_lanes c) (r - inc_count c + j)) (seq k n).

Lemma squeeze_eq n c : keccak_inc_squeeze n c r =
  if (n <=? inc_count c)%nat then (left_bytes c 0 n, mk_inc (inc_lanes c) (inc_count c - n)) else
  let '(o, c') := keccak_inc_squeeze (n - inc_count c) (mk_inc (KeccakF1600_StatePermute (inc_lanes c)) r) r in
  (left_bytes c 0 (inc_count c) ++ o, c').
Proof.
  unfold keccak_inc_squeeze. fold (left_bytes c 0 (n `min` inc_count c)). destruct (Nat.leb_spec n (inc_count c)) as [Hn|Hn].
  - rewrite Nat.min_l, Nat.sub_diag by lia. cbn [inc_squeeze_loop]. by rewrite app_nil_r.
  - rewrite Nat.min_r, Nat.sub_diag by lia. cbn [inc_lanes inc_count]. destruct (n - inc_count c)%nat as [|k] eqn:Ek; [lia|].
    rewrite <- Ek. rewrite Ek at 1. cbn [inc_squeeze_loop]. destruct (Nat.ltb_spec 0 (n - inc_count c)); [|lia]. cbv zeta.
    rewrite Nat.sub_diag. cbn [Nat.add inc_lanes inc_count]. set (i := ((n - inc_count c) `min` r)%nat).
    rewrite (squeeze_loop_fuel k (n - inc_count c - i)) by lia. by destruct (inc_squeeze_loop _ _ _ _).
Qed.

Lemma left_bytes_app c k n1 n2 : left_bytes c k (n1 + n2) = left_bytes c k n1 ++ left_bytes c (k + n1) n2.
Proof. unfold left_bytes. by rewrite seq_app, map_app. Qed.

Lemma left_bytes_shift c k n : (k <= inc_count c <= r)%nat → left_bytes (mk_inc (inc_lanes c) (inc_count c - k)) 0 n = left_bytes c k n.
Proof.
  intros Hk. unfold left_bytes. cbn [inc_lanes inc_count]. pose proof (fmap_add_seq k 0 n) as E.
  rewrite Nat.add_0_r in E. rewrite <- E, map_map. apply map_ext. intros j. f_equal. lia.
Qed.

(** Two requests give what one for all of their bytes gives. *)
Lemma squeeze_app N : ∀ n1 n2 c, (2 * n1 + (if inc_count c =? 0 then 1 else 0) < N)%nat → (inc_count c <= r)%nat →
  let '(o1, c1) := keccak_inc_squeeze n1 c r in
  (inc_count c1 <= r)%nat ∧ keccak_inc_squeeze (n1 + n2) c r = let '(o2, c2) := keccak_inc_squeeze n2 c1 r in (o1 ++ o2, c2).
Proof.
  induction N as [|N IH]; intros n1 n2 c HN Hc; [lia|]. rewrite (squeeze_eq n1 c). destruct (Nat.leb_spec n1 (inc_count c)) as [H1|H1].
  - cbn [inc_count]. split; [lia|]. rewrite (squeeze_eq (n1 + n2) c), (squeeze_eq n2). cbn [inc_count inc_lanes].
    destruct (Nat.leb_spec n2 (inc_count c - n1)), (Nat.leb_spec (n1 + n2) (inc_count c)); try lia.
    + rewrite left_bytes_app, left_bytes_shift, Nat.sub_add_distr by lia. done.
    + replace (n2 - (inc_count c - n1))%nat with (n1 + n2 - inc_count c)%nat by lia. destruct (keccak_inc_squeeze _ _ _) as [o c'].
      pose proof (left_bytes_app c 0 n1 (inc_count c - n1)) as E. replace (n1 + (inc_count c - n1))%nat with (inc_count c) in E by lia.
      rewrite E, left_bytes_shift, app_assoc by lia. done.
  - rewrite (squeeze_eq (n1 + n2) c). destruct (Nat.leb_spec (n1 + n2) (inc_count c)); [lia|].
    replace (n1 + n2 - inc_count c)%nat with ((n1 - inc_count c) + n2)%nat by lia.
    specialize (IH (n1 - inc_count c)%nat n2 (mk_inc (KeccakF1600_StatePermute (inc_lanes c)) r)).
    destruct (keccak_inc_squeeze (n1 - inc_count c) _ r) as [o1 c1]. destruct IH as [I1 I2].
    { cbn [inc_count]. destruct (Nat.eqb_spec r 0), (Nat.eqb_spec (inc_count c) 0); lia. }
    { done. }
    split; [done|]. rewrite I2. destruct (keccak_inc_squeeze n2 c1 r) as [o2 c2]. by rewrite app_assoc.
Qed.
End Squeeze.

(** Requests one after the other. *)
Fixpoint squeeze_all (squeeze : nat → inc_ctx → bytes * inc_ctx) (outs : list nat) (c : inc_ctx) : list bytes :=
  match outs with
  | [] => []
  | n :: outs => let '(o, c) := squeeze n c in o :: squeeze_all squeeze outs c
  end.

Lemma squeeze_all_concat r outs : (0 < r)%nat → ∀ c, (inc_count c <= r)%nat →
  concat (squeeze_all (λ n c, keccak_inc_squeeze n c r) outs c) = (keccak_inc_squeeze (sum_list outs) c r).1.
Proof.
  intros Hr. induction outs as [|n outs IH]; intros c Hc; cbn [squeeze_all sum_list sum_list_with]; [done|].
  pose proof (squeeze_app r Hr _ n (sum_list outs) c (Nat.lt_succ_diag_r _) Hc) as H. destruct (keccak_inc_squeeze n c r) as [o1 c1].
  destruct H as [H1 H2]. change (sum_list_with id outs) with (sum_list outs). cbn [concat id]. rewrite IH, H2 by done. by destruct (keccak_inc_squeeze _ c1 r).
Qed.

(** [outlen] bytes of the one-shot functions. *)
Definition squeeze_bytes (r outlen : nat) (s : list Z) : bytes :=
  let nblocks := (outlen / r)%nat in
  let '(output, s) := keccak_squeezeblocks nblocks s r in
  let rest := (outlen - nblocks * r)%nat in
  if (0 <? rest)%nat then output ++ take rest (keccak_squeezeblocks 1 s r).1 else output.

Section OneShot.
  Context (r : nat).
  Hypothesis Hr : (0 < r)%nat.
  Hypothesis Hr8 : (r mod 8 = 0)%nat.
  Hypothesis Hr200 : (r <= 200)%nat.

Lemma block_bytes s : length s = 25%nat → concat (map store64 (take (r / 8) s)) = map (state_byte s) (seq 0 r).
Proof.
  intros Hs. pose proof (Nat.div_mod_eq r 8) as E. pose proof (Nat.Div0.div_le_mono r 200 8 Hr200). change (200 / 8)%nat with 25%nat in *.
  rewrite store_block by lia. repeat f_equal. lia.
Qed.

Lemma squeeze_block s k : length s = 25%nat →
  (keccak_inc_squeeze (r + k) (mk_inc s 0) r).1 = map (state_byte (KeccakF1600_StatePermute s)) (seq 0 r) ++ (keccak_inc_squeeze k (mk_inc (KeccakF1600_StatePermute s) 0) r).1.
Proof.
  intros Hs. pose proof (squeeze_app r Hr _ r k (mk_inc s 0) (Nat.lt_succ_diag_r _) ltac:(cbn; lia)) as H.
  rewrite (squeeze_eq r Hr r) in H. cbn [inc_count] in H. destruct (Nat.leb_spec r 0); [lia|]. rewrite Nat.sub_0_r, (squeeze_eq r Hr r) in H. cbn [inc_count inc_lanes] in H.
  rewrite Nat.leb_refl, Nat.sub_diag in H. destruct H as [_ ->]. destruct (keccak_inc_squeeze k _ r) as [o c]. cbn [fst]. f_equal.
  unfold left_bytes. cbn [seq map app inc_lanes inc_count]. by rewrite Nat.sub_diag.
Qed.

Lemma squeezeblocks_inc q : ∀ s k, length s = 25%nat → let '(o, s') := keccak_squeezeblocks q s r in
  length s' = 25%nat ∧ (keccak_inc_squeeze (q * r + k) (mk_inc s 0) r).1 = o ++ (keccak_inc_squeeze k (mk_inc s' 0) r).1.
Proof.
  induction q as [|q IH]; intros s k Hs; cbn [keccak_squeezeblocks]; [done|]. pose proof (length_permute s Hs) as Hp.
  rewrite block_bytes by done. specialize (IH (KeccakF1600_StatePermute s) k Hp). destruct (keccak_squeezeblocks q _ r) as [o s'].
  destruct IH as [I1 I2]. split; [done|]. replace (S q * r + k)%nat with (r + (q * r + k))%nat by lia. rewrite squeeze_block, I2 by done. by rewrite app_assoc.
Qed.

(** One-shot output is incremental output. *)
Lemma squeeze_bytes_inc n s : length s = 25%nat → squeeze_bytes r n s = (keccak_inc_squeeze n (mk_inc s 0) r).1.
Proof.
  intros Hs. unfold squeeze_bytes. cbv zeta. pose proof (squeezeblocks_inc (n / r) s (n - n / r * r) Hs) as H. destruct (keccak_squeezeblocks _ s r) as [o s'].
  destruct H as [Hs' H]. pose proof (Nat.Div0.mul_div_le n r). pose proof (Nat.mul_succ_div_gt n r ltac:(lia)).
  replace (n / r * r + (n - n / r * r))%nat with n in H by lia. rewrite H. set (k := (n - n / r * r)%nat). assert (Hk : (k < r)%nat) by lia.
  destruct (Nat.ltb_spec 0 k); [|replace k with 0%nat by lia; cbn; by rewrite app_nil_r]. f_equal.
  rewrite (squeeze_eq r Hr). cbn [inc_count]. destruct (Nat.leb_spec k 0); [lia|]. rewrite Nat.sub_0_r, (squeeze_eq r Hr k). cbn [inc_count inc_lanes].
  destruct (Nat.leb_spec k r); [|lia]. cbn [keccak_squeezeblocks fst]. rewrite app_nil_r, block_bytes by (by apply length_permute).
  unfold left_bytes. cbn [seq map app inc_lanes inc_count]. rewrite Nat.sub_diag. rewrite <- fmap_take, take_seq. by rewrite Nat.min_l by lia.
Qed.

(** In pieces, for any rate and suffix. *)
Lemma pieces_oneshot p chunks outs : 0 <= p < 128 → Forall bytes_ok chunks →
  concat (squeeze_all (λ n c, keccak_inc_squeeze n c r) outs (keccak_inc_finalize r (fold_left (keccak_inc_absorb r) chunks keccak_inc_init) p)) =
  squeeze_bytes r (sum_list outs) (keccak_absorb r (concat chunks) p).
Proof.
  intros Hp Hb. assert (Hc : bytes_ok (concat chunks)) by (by apply Forall_concat). rewrite inc_absorb_chunks by done.
  destruct (keccak_absorb_inc r (concat chunks) p Hr Hr8 Hr200 Hp Hc) as [E Hl]. rewrite squeeze_all_concat, squeeze_bytes_inc by (done || cbn; lia).
  by rewrite E.
Qed.
End OneShot.

(** C14. Hashing in pieces. For every division of the input into pieces for the incremental
    functions and, for SHAKE, of the output into requests, the bytes obtained are those of the one-shot function
    on the whole input. *)
Theorem incremental_oneshot chunks outs : Forall bytes_ok chunks →
  concat (squeeze_all shake128_inc_squeeze outs (shake128_inc_finalize (fold_left shake128_inc_absorb chunks keccak_inc_init))) =
    shake128 (sum_list outs) (concat chunks) ∧
  concat (squeeze_all shake256_inc_squeeze outs (shake256_inc_finalize (fold_left shake256_inc_absorb chunks keccak_inc_init))) =
    shake256 (sum_list outs) (concat chunks) ∧
  sha3_256_inc_finalize (fold_left sha3_256_inc_absorb chunks keccak_inc_init) = sha3_256 (concat chunks) ∧
  sha3_384_inc_finalize (fold_left sha3_384_inc_absorb chunks keccak_inc_init) = sha3_384 (concat chunks) ∧
  sha3_512_inc_finalize (fold_left sha3_512_inc_absorb chunks keccak_inc_init) = sha3_512 (concat chunks).
Proof.
  intros Hb. assert (Hc : bytes_ok (concat chunks)) by (by apply Forall_concat).
  assert (H3 : ∀ r, (0 < r)%nat → (r mod 8 = 0)%nat → (r <= 200)%nat →
    inc_lanes (keccak_inc_finalize r (fold_left (keccak_inc_absorb r) chunks keccak_inc_init) 6) = keccak_absorb r (concat chunks) 6).
  { intros r H1 H2 H3. rewrite inc_absorb_chunks by done. symmetry. apply keccak_absorb_inc; done || lia. }
  split; [apply (pieces_oneshot 168); done || (cbv; lia)|]. split; [apply (pieces_oneshot 136); done || (cbv; lia)|].
  unfold sha3_256_inc_finalize, sha3_384_inc_finalize, sha3_512_inc_finalize, sha3_256, sha3_384, sha3_512.
  split; [|split]; (rewrite <- H3; [done|cbv; lia|done|cbv; lia]).
Qed.

Lemma incremental_oneshot_witness :
  concat (squeeze_all shake256_inc_squeeze [5; 200]%nat
    (shake256_inc_finalize (fold_left shake256_inc_absorb [[1; 2]; zeros 150; [255]] keccak_inc_init))) =
  shake256 205 ([1; 2] ++ zeros 150 ++ [255]).
Proof.
  assert (Hb : Forall bytes_ok [[1; 2]; zeros 150; [255]]).
  { repeat (apply List.Forall_cons; [repeat (apply List.Forall_cons; [done|]); try (by apply Forall_replicate); constructor|]). constructor. }
  destruct (incremental_oneshot _ [5; 200]%nat Hb) as (_ & E & _). exact E.
Defined.

(** ** Sizes *)

Lemma state_bytes_ok s l : bytes_ok (map (state_byte s) l).
Proof. apply Forall_map, Forall_forall. intros pos _. apply u8_range. Qed.

Lemma squeezeblocks_ok r n : (0 < r)%nat → (r mod 8 = 0)%nat → (r <= 200)%nat → ∀ s, length s = 25%nat →
  length (keccak_squeezeblocks n s r).1 = (n * r)%nat ∧ bytes_ok (keccak_squeezeblocks n s r).1 ∧ length (keccak_squeezeblocks n s r).2 = 25%nat.
Proof.
  intros H1 H2 H3. induction n as [|n IH]; intros s Hs; cbn [keccak_squeezeblocks]; [split; [done|split; [constructor|done]]|].
  pose proof (length_permute s Hs) as Hp. destruct (IH _ Hp) as (I1 & I2 & I3). destruct (keccak_squeezeblocks n _ r) as [o s']. cbn [fst snd] in *.
  rewrite (block_bytes r) by done. rewrite length_app, length_map, length_seq, I1. split; [lia|]. split; [|done].
  apply Forall_app. split; [apply state_bytes_ok|done].
Qed.

Lemma squeeze_bytes_ok r n s : (0 < r)%nat → (r mod 8 = 0)%nat → (r <= 200)%nat → length s = 25%nat →
  length (squeeze_bytes r n s) = n ∧ bytes_ok (squeeze_bytes r n s).
Proof.
  intros H1 H2 H3 Hs. unfold squeeze_bytes. cbv zeta. destruct (squeezeblocks_ok r (n / r) H1 H2 H3 s Hs) as (I1 & I2 & I3).
  destruct (keccak_squeezeblocks (n / r) s r) as [o s']. cbn [fst snd] in *. destruct (squeezeblocks_ok r 1 H1 H2 H3 s' I3) as (J1 & J2 & _).
  pose proof (Nat.Div0.mul_div_le n r). pose proof (Nat.mul_succ_div_gt n r ltac:(lia)). destruct (Nat.ltb_spec 0 (n - n / r * r)); [|split; [lia|done]].
  rewrite length_app, length_take, I1, J1. split; [lia|]. apply Forall_app. split; [done|by apply Forall_take].
Qed.

Lemma length_xor_block n : ∀ s m, length (xor_block n s m) = length s.
Proof. induction n as [|n IH]; intros [|w s] m; cbn [xor_block length]; [done..|]. by rewrite IH. Qed.

Lemma length_absorb r m p : length (keccak_absorb r m p) = 25%nat.
Proof.
  unfold keccak_absorb. assert (H : ∀ fuel s m, length s = 25%nat → length (absorb_blocks fuel r s m).1 = 25%nat).
  { induction fuel as [|fuel IH]; intros s m' Hs; [done|]. cbn [absorb_blocks]. destruct (_ <=? _)%nat; [|done]. apply IH, length_permute.
    by rewrite length_xor_block. }
  specialize (H (S (length m)) (replicate 25 0) m eq_refl). destruct (absorb_blocks _ _ _ _) as [s m']. by rewrite length_xor_block.
Qed.

(** Up to a block from a finalized context. *)
Lemma inc_squeeze_ok r n c : (0 < r)%nat → (n <= r)%nat → inc_count c = 0%nat →
  length (keccak_inc_squeeze n c r).1 = n ∧ bytes_ok (keccak_inc_squeeze n c r).1.
Proof.
  intros Hr Hn Hc. assert (Hlb : ∀ c k, length (left_bytes r c 0 k) = k ∧ bytes_ok (left_bytes r c 0 k)).
  { intros c' k. unfold left_bytes. rewrite length_map, length_seq. split; [done|]. apply Forall_map, Forall_forall. intros j _. apply u8_range. }
  rewrite (squeeze_eq r Hr), Hc. destruct (Nat.leb_spec n 0); [apply Hlb|]. rewrite (squeeze_eq r Hr). cbn [inc_count]. rewrite Nat.sub_0_r.
  destruct (Nat.leb_spec n r); [|lia]. apply (Hlb _ n).
Qed.
