(* ===== verification/Mlkem.v ===== *)
(** * Mlkem: the ML-KEM-768 key encapsulation

    The code of [src/src/pqclean/ml_kem_768]: [reduce.c], [ntt.c], [cbd.c], [poly.c],
    [polyvec.c], [indcpa.c], [verify.c], [kem.c], and the wrapper [src/src/kem.c].
    Functions keep their names without the prefix [PQCLEAN_MLKEM768_CLEAN_].

    A polynomial is the list of its 256 coefficients, each an [int16_t]; a vector is a
    list of three polynomials. Loops over an array are functions on the list that take
    the elements group by group, in the order of the loop. The hash functions of
    [symmetric.h] are the operations of a class, since nothing here depends on what they
    compute; [MlkemSym] gives the instance of the code. *)

From S2P Require Import Prelude.

Local Open Scope Z_scope.

Definition KYBER_Q : Z := 3329.
Definition KYBER_N : nat := 256.
Definition KYBER_K : nat := 3.
Definition QINV : Z := -3327.

(** A C [int16_t]. *)
Definition i16 (z : Z) : Z := (z + 2 ^ 15) mod 2 ^ 16 - 2 ^ 15.

Abbreviation poly := (list Z).
Abbreviation polyvec := (list (list Z)).

(** ** reduce.c *)

Definition montgomery_reduce (a : Z) : Z :=
  let t := i16 (i16 a * QINV) in
  i16 (Z.shiftr (s32 (a - t * KYBER_Q)) 16).

Definition barrett_reduce (a : Z) : Z :=
  let v := (Z.shiftl 1 26 + KYBER_Q / 2) / KYBER_Q in
  let t := i16 (Z.shiftr (v * a + Z.shiftl 1 25) 26) in
  let t := i16 (t * KYBER_Q) in
  i16 (a - t).

(** ** ntt.c *)

Definition zetas : list Z :=
  [-1044; -758; -359; -1517; 1493; 1422; 287; 202;
   -171; 622; 1577; 182; 962; -1202; -1474; 1468;
   573; -1325; 264; 383; -829; 1458; -1602; -130;
   -681; 1017; 732; 608; -1542; 411; -205; -1571;
   1223; 652; -552; 1015; -1293; 1491; -282; -1544;
   516; -8; -320; -666; -1618; -1162; 126; 1469;
   -853; -90; -271; 830; 107; -1421; -247; -951;
   -398; 961; -1508; -725; 448; -1065; 677; -1275;
   -1103; 430; 555; 843; -1251; 871; 1550; 105;
   422; 587; 177; -235; -291; -460; 1574; 1653;
   -246; 778; 1159; -147; -777; 1483; -602; 1119;
   -1590; 644; -872; 349; 418; 329; -156; -75;
   817; 1097; 603; 610; 1322; -1285; -1465; 384;
   -1215; -136; 1218; -1335; -874; 220; -1187; -1659;
   -1185; -1530; -1278; 794; -1510; -854; -870; 478;
   -108; -308; 996; 991; 958; -1460; 1522; 1628].

Definition zeta_at (k : nat) : Z := nth k zetas 0.

Definition fqmul (a b : Z) : Z := montgomery_reduce (a * b).

(** [for (start = 0; start < 256; start = j + len)] with [n] blocks of [2 * len]
    coefficients left, the first of which uses [zetas[k]]. *)
Fixpoint ntt_blocks (n len k : nat) (r : poly) : poly :=
  match n with
  | O => r
  | S n =>
      let zeta := zeta_at k in
      let lo := take len r in
      let hi := take len (drop len r) in
      let t := map (fqmul zeta) hi in
      zip_with (λ x t, i16 (x + t)) lo t ++ zip_with (λ x t, i16 (x - t)) lo t ++
      ntt_blocks n len (S k) (drop (2 * len) r)
  end.

(** The layers, each with the number of its blocks, which is also where its [k] starts. *)
Definition ntt_layers : list (nat * nat) := [(1, 128); (2, 64); (4, 32); (8, 16); (16, 8); (32, 4); (64, 2)]%nat.

Definition ntt (r : poly) : poly := fold_left (λ r '(n, len), ntt_blocks n len n r) ntt_layers r.

(** The inverse: [zetas[k--]] *)
Fixpoint invntt_blocks (n len k : nat) (r : poly) : poly :=
  match n with
  | O => r
  | S n =>
      let zeta := zeta_at k in
      let lo := take len r in
      let hi := take len (drop len r) in
      zip_with (λ t y, barrett_reduce (i16 (t + y))) lo hi ++ zip_with (λ t y, fqmul zeta (i16 (y - t))) lo hi ++
      invntt_blocks n len (k - 1) (drop (2 * len) r)
  end.

Definition invntt (r : poly) : poly :=
  map (λ x, fqmul x 1441) (fold_left (λ r '(n, len), invntt_blocks n len (2 * n - 1) r) (rev ntt_layers) r).

Definition basemul (a0 a1 b0 b1 zeta : Z) : list Z :=
  let r0 := fqmul a1 b1 in
  let r0 := fqmul r0 zeta in
  let r0 := i16 (r0 + fqmul a0 b0) in
  let r1 := fqmul a0 b1 in
  let r1 := i16 (r1 + fqmul a1 b0) in
  [r0; r1].

(** ** cbd.c *)

Definition load32_littleendian (x0 x1 x2 x3 : Z) : Z :=
  Z.lor (Z.lor (Z.lor x0 (u32 (Z.shiftl x1 8))) (u32 (Z.shiftl x2 16))) (u32 (Z.shiftl x3 24)).

Definition cbd2_word (t : Z) : list Z :=
  let d := Z.land t 0x55555555 in
  let d := u32 (d + Z.land (Z.shiftr t 1) 0x55555555) in
  map (λ j, let a := Z.land (Z.shiftr d (4 * j)) 3 in
            let b := Z.land (Z.shiftr d (4 * j + 2)) 3 in a - b) [0; 1; 2; 3; 4; 5; 6; 7].

Fixpoint cbd2 (buf : bytes) : poly :=
  match buf with
  | x0 :: x1 :: x2 :: x3 :: buf => cbd2_word (load32_littleendian x0 x1 x2 x3) ++ cbd2 buf
  | _ => []
  end.

(** ** poly.c *)

(** [u += (u >> 15) & KYBER_Q] *)
Definition to_positive (u : Z) : Z := i16 (u + Z.land (Z.shiftr u 15) KYBER_Q).

Definition compress4 (x : Z) : Z :=
  let u := to_positive x in
  let d0 := u32 (Z.shiftl u 4) in
  let d0 := u32 (d0 + 1665) in
  let d0 := u32 (d0 * 80635) in
  let d0 := Z.shiftr d0 28 in
  Z.land d0 0xf.

Fixpoint poly_compress (a : poly) : bytes :=
  match a with
  | x :: y :: a => Z.lor (compress4 x) (Z.shiftl (compress4 y) 4) :: poly_compress a
  | _ => []
  end.

Definition decompress4 (v : Z) : Z := i16 (Z.shiftr (v * KYBER_Q + 8) 4).

Fixpoint poly_decompress (a : bytes) : poly :=
  match a with
  | [] => []
  | x :: a => decompress4 (Z.land x 15) :: decompress4 (Z.shiftr x 4) :: poly_decompress a
  end.

(** [t0 += ((int16_t)t0 >> 15) & KYBER_Q] on a [uint16_t] *)
Definition to_positive_u16 (x : Z) : Z :=
  let t := u16 x in u16 (t + Z.land (Z.shiftr (i16 t) 15) KYBER_Q).

Fixpoint poly_tobytes (a : poly) : bytes :=
  match a with
  | x :: y :: a =>
      let t0 := to_positive_u16 x in
      let t1 := to_positive_u16 y in
      u8 t0 :: u8 (Z.lor (Z.shiftr t0 8) (Z.shiftl t1 4)) :: u8 (Z.shiftr t1 4) :: poly_tobytes a
  | _ => []
  end.

Fixpoint poly_frombytes (a : bytes) : poly :=
  match a with
  | x :: y :: z :: a =>
      Z.land (Z.lor x (Z.shiftl y 8)) 0xFFF :: Z.land (Z.lor (Z.shiftr y 4) (Z.shiftl z 4)) 0xFFF :: poly_frombytes a
  | _ => []
  end.

Definition cmov_int16 (r v b : Z) : Z :=
  let b := u16 (- b) in i16 (Z.lxor r (Z.land b (Z.lxor r v))).

Definition bit_positions : list Z := [0; 1; 2; 3; 4; 5; 6; 7].

Definition poly_frommsg (msg : bytes) : poly :=
  concat (map (λ m, map (λ j, cmov_int16 0 ((KYBER_Q + 1) / 2) (Z.land (Z.shiftr m j) 1)) bit_positions) msg).

Definition tomsg_bit (x : Z) : Z :=
  let t := u32 x in
  let t := u32 (Z.shiftl t 1) in
  let t := u32 (t + 1665) in
  let t := u32 (t * 80635) in
  let t := Z.shiftr t 28 in
  Z.land t 1.

(** [msg[i] |= t << j] for the eight coefficients of a byte *)
Definition tomsg_byte (xs : list Z) : Z :=
  fold_left (λ m '(j, x), u8 (Z.lor m (Z.shiftl (tomsg_bit x) j))) (zip bit_positions xs) 0.

Fixpoint tomsg_loop (n : nat) (a : poly) : bytes :=
  match n with
  | O => []
  | S n => tomsg_byte (take 8 a) :: tomsg_loop n (drop 8 a)
  end.

Definition poly_tomsg (a : poly) : bytes := tomsg_loop (KYBER_N / 8) a.

Definition poly_reduce (r : poly) : poly := map barrett_reduce r.
Definition poly_add (a b : poly) : poly := zip_with (λ x y, i16 (x + y)) a b.
Definition poly_sub (a b : poly) : poly := zip_with (λ x y, i16 (x - y)) a b.
Definition poly_ntt (r : poly) : poly := poly_reduce (ntt r).
Definition poly_invntt_tomont (r : poly) : poly := invntt r.
Definition poly_tomont (r : poly) : poly := map (λ x, montgomery_reduce (x * (2 ^ 32 mod KYBER_Q))) r.

(** [for (i = 0; i < KYBER_N / 4; i++)] from [zetas[k]] on *)
Fixpoint basemul_loop (n k : nat) (a b : poly) : poly :=
  match n, a, b with
  | S n, a0 :: a1 :: a2 :: a3 :: a, b0 :: b1 :: b2 :: b3 :: b =>
      basemul a0 a1 b0 b1 (zeta_at k) ++ basemul a2 a3 b2 b3 (- zeta_at k) ++ basemul_loop n (S k) a b
  | _, _, _ => []
  end.

Definition poly_basemul_montgomery (a b : poly) : poly := basemul_loop (KYBER_N / 4) 64 a b.

(** ** polyvec.c *)

Definition compress10 (x : Z) : Z :=
  let t := to_positive_u16 x in
  let d0 := u64 (Z.shiftl t 10) in
  let d0 := u64 (d0 + 1665) in
  let d0 := u64 (d0 * 1290167) in
  let d0 := Z.shiftr d0 32 in
  Z.land d0 0x3ff.

Fixpoint compress10_loop (a : poly) : bytes :=
  match a with
  | x0 :: x1 :: x2 :: x3 :: a =>
      let t0 := compress10 x0 in let t1 := compress10 x1 in
      let t2 := compress10 x2 in let t3 := compress10 x3 in
      u8 t0 :: u8 (Z.lor (Z.shiftr t0 8) (Z.shiftl t1 2)) :: u8 (Z.lor (Z.shiftr t1 6) (Z.shiftl t2 4)) ::
      u8 (Z.lor (Z.shiftr t2 4) (Z.shiftl t3 6)) :: u8 (Z.shiftr t3 2) :: compress10_loop a
  | _ => []
  end.

Definition polyvec_compress (a : polyvec) : bytes := concat (map compress10_loop a).

Definition decompress10 (t : Z) : Z := i16 (Z.shiftr (u32 (Z.land t 0x3FF * KYBER_Q + 512)) 10).

Fixpoint decompress10_loop (a : bytes) : poly :=
  match a with
  | a0 :: a1 :: a2 :: a3 :: a4 :: a =>
      decompress10 (u16 (Z.lor a0 (Z.shiftl a1 8))) :: decompress10 (u16 (Z.lor (Z.shiftr a1 2) (Z.shiftl a2 6))) ::
      decompress10 (u16 (Z.lor (Z.shiftr a2 4) (Z.shiftl a3 4))) ::
      decompress10 (u16 (Z.lor (Z.shiftr a3 6) (Z.shiftl a4 2))) :: decompress10_loop a
  | _ => []
  end.

(** The [n] polynomials of [size] bytes each from a buffer. *)
Fixpoint polys (f : bytes → poly) (size n : nat) (a : bytes) : polyvec :=
  match n with
  | O => []
  | S n => f (take size a) :: polys f size n (drop size a)
  end.

Definition polyvec_decompress (a : bytes) : polyvec := polys decompress10_loop 320 KYBER_K a.
Definition polyvec_tobytes (a : polyvec) : bytes := concat (map poly_tobytes a).
Definition polyvec_frombytes (a : bytes) : polyvec := polys poly_frombytes 384 KYBER_K a.
Definition polyvec_ntt (r : polyvec) : polyvec := map poly_ntt r.
Definition polyvec_invntt_tomont (r : polyvec) : polyvec := map poly_invntt_tomont r.
Definition polyvec_reduce (r : polyvec) : polyvec := map poly_reduce r.
Definition polyvec_add (a b : polyvec) : polyvec := zip_with poly_add a b.

Definition polyvec_basemul_acc_montgomery (a b : polyvec) : poly :=
  match zip_with poly_basemul_montgomery a b with
  | [] => []
  | r :: ts => poly_reduce (fold_left poly_add ts r)
  end.

(** ** symmetric.h

    [xof_absorb] is [kyber_shake128_absorb], [xof_squeezeblock] one block of
    [shake128_squeezeblocks]. *)
Class Symmetric := {
  xof_state : Type;
  xof_absorb : bytes → Z → Z → xof_state;
  xof_squeezeblock : xof_state → bytes * xof_state;
  hash_h : bytes → bytes;
  hash_g : bytes → bytes;
  prf : nat → bytes → Z → bytes;
  rkprf : bytes → bytes → bytes;
}.

Section Scheme.
  Context `{Symmetric}.

(** ** indcpa.c *)

(** The integers sampled, at most [len]; [ctr] is how many they are. *)
Fixpoint rej_uniform (len : nat) (buf : bytes) : list Z :=
  match buf with
  | x :: y :: z :: buf =>
      match len with
      | O => []
      | S len1 =>
          let val0 := Z.land (Z.lor x (Z.shiftl y 8)) 0xFFF in
          let val1 := Z.land (Z.lor (Z.shiftr y 4) (Z.shiftl z 4)) 0xFFF in
          if val0 <? KYBER_Q then
            match len1 with
            | O => [val0]
            | S len2 => if val1 <? KYBER_Q then val0 :: val1 :: rej_uniform len2 buf else val0 :: rej_uniform len1 buf
            end
          else if val1 <? KYBER_Q then val1 :: rej_uniform len1 buf else rej_uniform len buf
      end
  | _ => []
  end.

Fixpoint squeezeblocks (n : nat) (st : xof_state) : bytes * xof_state :=
  match n with
  | O => ([], st)
  | S n => let '(b, st) := xof_squeezeblock st in let '(bs, st) := squeezeblocks n st in (b ++ bs, st)
  end.

(** [while (ctr < KYBER_N)], with [fuel] more blocks *)
Fixpoint sample_more (fuel : nat) (got : list Z) (st : xof_state) : option poly :=
  if (KYBER_N <=? length got)%nat then Some got else
  match fuel with
  | O => None
  | S fuel =>
      let '(buf, st) := xof_squeezeblock st in
      sample_more fuel (got ++ rej_uniform (KYBER_N - length got) buf) st
  end.

Definition XOF_BLOCKBYTES : Z := 168.
Definition GEN_MATRIX_NBLOCKS : nat :=
  Z.to_nat ((12 * 256 / 8 * Z.shiftl 1 12 / KYBER_Q + XOF_BLOCKBYTES) / XOF_BLOCKBYTES).

Definition sample_entry (fuel : nat) (seed : bytes) (x y : Z) : option poly :=
  let '(buf, st) := squeezeblocks GEN_MATRIX_NBLOCKS (xof_absorb seed x y) in
  sample_more fuel (rej_uniform KYBER_N buf) st.

Definition gen_matrix (fuel : nat) (seed : bytes) (transposed : bool) : option (list polyvec) :=
  mapM (λ i, mapM (λ j, if transposed then sample_entry fuel seed i j else sample_entry fuel seed j i) [0; 1; 2]) [0; 1; 2].

Definition poly_getnoise_eta1 (seed : bytes) (nonce : Z) : poly := cbd2 (prf 128 seed nonce).
Definition poly_getnoise_eta2 (seed : bytes) (nonce : Z) : poly := cbd2 (prf 128 seed nonce).

Definition pack_pk (pk : polyvec) (seed : bytes) : bytes := polyvec_tobytes pk ++ seed.
Definition unpack_pk (packedpk : bytes) : polyvec * bytes := (polyvec_frombytes packedpk, slice 1152 32 packedpk).
Definition pack_sk (sk : polyvec) : bytes := polyvec_tobytes sk.
Definition unpack_sk (packedsk : bytes) : polyvec := polyvec_frombytes packedsk.
Definition pack_ciphertext (b : polyvec) (v : poly) : bytes := polyvec_compress b ++ poly_compress v.
Definition unpack_ciphertext (c : bytes) : polyvec * poly := (polyvec_decompress c, poly_decompress (slice 960 128 c)).

Definition indcpa_keypair_derand (fuel : nat) (coins : bytes) : option (bytes * bytes) :=
  let buf := hash_g (take 32 coins ++ [Z.of_nat KYBER_K]) in
  let publicseed := take 32 buf in
  let noiseseed := drop 32 buf in
  a ← gen_matrix fuel publicseed false;
  let skpv := map (poly_getnoise_eta1 noiseseed) [0; 1; 2] in
  let e := map (poly_getnoise_eta1 noiseseed) [3; 4; 5] in
  let skpv := polyvec_ntt skpv in
  let e := polyvec_ntt e in
  let pkpv := map (λ ai, poly_tomont (polyvec_basemul_acc_montgomery ai skpv)) a in
  let pkpv := polyvec_add pkpv e in
  let pkpv := polyvec_reduce pkpv in
  Some (pack_pk pkpv publicseed, pack_sk skpv).

(** [indcpa_enc] up to the ciphertext's polynomials, and packed. *)
Definition enc_polys (fuel : nat) (m pk coins : bytes) : option (polyvec * poly) :=
  let '(pkpv, seed) := unpack_pk pk in
  let k := poly_frommsg m in
  at_ ← gen_matrix fuel seed true;
  let sp := map (poly_getnoise_eta1 coins) [0; 1; 2] in
  let ep := map (poly_getnoise_eta2 coins) [3; 4; 5] in
  let epp := poly_getnoise_eta2 coins 6 in
  let sp := polyvec_ntt sp in
  let b := map (λ ai, polyvec_basemul_acc_montgomery ai sp) at_ in
  let v := polyvec_basemul_acc_montgomery pkpv sp in
  let b := polyvec_invntt_tomont b in
  let v := poly_invntt_tomont v in
  let b := polyvec_add b ep in
  let v := poly_add v epp in
  let v := poly_add v k in
  let b := polyvec_reduce b in
  let v := poly_reduce v in
  Some (b, v).

Definition indcpa_enc (fuel : nat) (m pk coins : bytes) : option bytes :=
  '(b, v) ← enc_polys fuel m pk coins; Some (pack_ciphertext b v).

Definition indcpa_dec (c sk : bytes) : bytes :=
  let '(b, v) := unpack_ciphertext c in
  let skpv := unpack_sk sk in
  let b := polyvec_ntt b in
  let mp := polyvec_basemul_acc_montgomery skpv b in
  let mp := poly_invntt_tomont mp in
  let mp := poly_sub v mp in
  let mp := poly_reduce mp in
  poly_tomsg mp.

(** ** verify.c and kem.c *)

Definition verify (a b : bytes) : Z :=
  let r := fold_left (λ r '(x, y), u8 (Z.lor r (Z.lxor x y))) (zip a b) 0 in
  Z.shiftr (u64 (- r)) 63.

Definition cmov (r x : bytes) (b : Z) : bytes :=
  let b := u8 (- b) in zip_with (λ r x, Z.lxor r (Z.land b (Z.lxor r x))) r x.

Definition crypto_kem_keypair_derand (fuel : nat) (coins : bytes) : option (bytes * bytes) :=
  '(pk, sk) ← indcpa_keypair_derand fuel coins;
  Some (pk, sk ++ pk ++ hash_h pk ++ slice 32 32 coins).

Definition crypto_kem_enc_derand (fuel : nat) (pk coins : bytes) : option (bytes * bytes) :=
  let buf := take 32 coins ++ hash_h (take 1184 pk) in
  let kr := hash_g buf in
  ct ← indcpa_enc fuel (take 32 buf) pk (drop 32 kr);
  Some (ct, take 32 kr).

Definition crypto_kem_dec (fuel : nat) (ct sk : bytes) : option bytes :=
  let pk := drop 1152 sk in
  let buf := indcpa_dec ct sk in
  let buf := buf ++ slice (2400 - 64) 32 sk in
  let kr := hash_g buf in
  cmp ← indcpa_enc fuel (take 32 buf) pk (drop 32 kr);
  let fail := verify (take 1088 ct) cmp in
  let ss := rkprf (slice (2400 - 32) 32 sk) (take 1088 ct) in
  Some (cmov ss (take 32 kr) (u8 (1 - fail))).

(** The wrapper [kem.c]; the coins are what [randombytes] gives. The functions it calls
    return 0, so that its error branches are not taken. *)
Definition moor_kem_keygen (fuel : nat) (coins : bytes) : option (bytes * bytes) := crypto_kem_keypair_derand fuel coins.
Definition moor_kem_encapsulate (fuel : nat) (coins pk : bytes) : option (bytes * bytes) := crypto_kem_enc_derand fuel pk coins.
Definition moor_kem_decapsulate (fuel : nat) (ct sk : bytes) : option bytes := crypto_kem_dec fuel ct sk.
End Scheme.
