(* ===== verification/NttRing.v ===== *)
(** * NttRing: polynomials modulo X^256 + 1 and their residues

    The algebra behind the number-theoretic transform of [Mlkem]. Coefficients are
    integers up to congruence modulo q. [negmul] is the product modulo X^256 + 1; [ev]
    is the residue modulo X^2 - gamma, a pair. A layer of the transform splits residues
    modulo X^(4h) - z^2 into those modulo X^(2h) - z and X^(2h) + z ([evs_fwd]), and the
    layers of the inverse undo it ([inv_fwd], [evs_inv]). No code is modelled here. *)

From Stdlib Require Import Zpow_facts.
From S2P Require Import Prelude Mlkem.

Local Open Scope Z_scope.

Declare Scope mlkem_scope.
Open Scope mlkem_scope.

(** ** Congruence modulo q *)

Definition cong (a b : Z) : Prop := a mod KYBER_Q = b mod KYBER_Q.
Infix "=q" := cong (at level 70) : mlkem_scope.

#[export] Instance cong_equivalence : Equivalence cong.
Proof. split; [by intros ?|by intros ? ? ?|]. intros x y z Hxy Hyz. unfold cong in *. congruence. Qed.
#[export] Instance cong_add : Proper (cong ==> cong ==> cong) Z.add.
Proof. intros a a' Ha b b' Hb. unfold cong in *. by rewrite (Zplus_mod a), (Zplus_mod a'), Ha, Hb. Qed.
#[export] Instance cong_mul : Proper (cong ==> cong ==> cong) Z.mul.
Proof. intros a a' Ha b b' Hb. unfold cong in *. by rewrite (Zmult_mod a), (Zmult_mod a'), Ha, Hb. Qed.
#[export] Instance cong_opp : Proper (cong ==> cong) Z.opp.
Proof. intros a a' Ha. replace (- a) with (-1 * a) by lia. replace (- a') with (-1 * a') by lia. by rewrite Ha. Qed.
#[export] Instance cong_sub : Proper (cong ==> cong ==> cong) Z.sub.
Proof. intros a a' Ha b b' Hb. unfold Z.sub. by rewrite Ha, Hb. Qed.

Lemma cong_divide a b : a =q b ↔ (KYBER_Q | a - b).
Proof.
  unfold cong. rewrite <- Z.mod_divide by done. split; intros E.
  - by rewrite Zminus_mod, E, Z.sub_diag.
  - replace a with (b + (a - b)) by lia. rewrite Zplus_mod, E, Z.add_0_r. apply Z.mod_mod. done.
Qed.

Lemma cong_of_eq a b : a = b → a =q b.
Proof. by intros ->. Qed.

(** Congruence by an equation in the integers. *)
Ltac qring := apply cong_of_eq; ring.

(** ** Residues modulo X^2 - gamma *)

Abbreviation residue := (Z * Z)%type.

Definition padd (x y : residue) : residue := (x.1 + y.1, x.2 + y.2).
Definition psub (x y : residue) : residue := (x.1 - y.1, x.2 - y.2).
Definition pscale (c : Z) (x : residue) : residue := (c * x.1, c * x.2).
(** Multiplication by X and by another residue. *)
Definition pX (g : Z) (x : residue) : residue := (g * x.2, x.1).
Fixpoint pXn (n : nat) (g : Z) (x : residue) : residue :=
  match n with O => x | S n => pX g (pXn n g x) end.
Definition pmul (g : Z) (x y : residue) : residue := (x.1 * y.1 + g * (x.2 * y.2), x.1 * y.2 + x.2 * y.1).

Definition pcong (x y : residue) : Prop := x.1 =q y.1 ∧ x.2 =q y.2.
Infix "=p" := pcong (at level 70) : mlkem_scope.

#[export] Instance pcong_equivalence : Equivalence pcong.
Proof.
  split; [by intros [? ?]|by intros [? ?] [? ?] [? ?]|]. intros [? ?] [? ?] [? ?] [H1 H2] [H3 H4].
  split; etrans; eassumption.
Qed.
#[export] Instance pcong_padd : Proper (pcong ==> pcong ==> pcong) padd.
Proof. intros x x' [H1 H2] y y' [H3 H4]. split; cbn; by rewrite ?H1, ?H2, ?H3, ?H4. Qed.
#[export] Instance pcong_psub : Proper (pcong ==> pcong ==> pcong) psub.
Proof. intros x x' [H1 H2] y y' [H3 H4]. split; cbn; by rewrite ?H1, ?H2, ?H3, ?H4. Qed.
#[export] Instance pcong_pscale : Proper (cong ==> pcong ==> pcong) pscale.
Proof. intros c c' H y y' [H3 H4]. split; cbn; by rewrite ?H, ?H3, ?H4. Qed.
#[export] Instance pcong_pX : Proper (cong ==> pcong ==> pcong) pX.
Proof. intros c c' H y y' [H3 H4]. split; cbn; by rewrite ?H, ?H3, ?H4. Qed.
#[export] Instance pcong_pmul : Proper (cong ==> pcong ==> pcong ==> pcong) pmul.
Proof. intros g g' H x x' [H1 H2] y y' [H3 H4]. split; cbn; by rewrite ?H, ?H1, ?H2, ?H3, ?H4. Qed.

Lemma pair_eq (x y : residue) : x.1 = y.1 → x.2 = y.2 → x = y.
Proof. destruct x, y. cbn. by intros -> ->. Qed.

Lemma pcong_of_eq (x y : residue) : x = y → x =p y.
Proof. by intros ->. Qed.

Ltac pring := apply pair_eq; unfold padd, psub, pscale, pX, pmul; cbn [fst snd]; ring.

(** The residue of a polynomial. *)
Fixpoint ev (g : Z) (l : list Z) : residue :=
  match l with
  | [] => (0, 0)
  | x :: l => padd (x, 0) (pX g (ev g l))
  end.

(** Congruence of polynomials. *)
Abbreviation lcong := (Forall2 cong).
Infix "=l" := (Forall2 cong) (at level 70) : mlkem_scope.

Definition lscale (c : Z) (l : list Z) : list Z := map (Z.mul c) l.
Definition ladd : list Z → list Z → list Z := zip_with Z.add.
Definition lsub : list Z → list Z → list Z := zip_with Z.sub.

Lemma ev_cong g g' a b : g =q g' → a =l b → ev g a =p ev g' b.
Proof. intros Hg. induction 1 as [|x y a b Hx _ IH]; [done|]. cbn [ev]. rewrite IH, Hg. split; cbn; by rewrite ?Hx. Qed.

Lemma ev_lscale g c l : ev g (lscale c l) = pscale c (ev g l).
Proof. induction l as [|x l IH]; cbn [lscale map ev]; [pring|]. fold (lscale c l). rewrite IH. pring. Qed.

Lemma ev_ladd g a : ∀ b, length a = length b → ev g (ladd a b) = padd (ev g a) (ev g b).
Proof.
  induction a as [|x a IH]; intros [|y b] Hl; try discriminate; cbn [ladd zip_with ev]; [pring|].
  fold (ladd a b). rewrite IH by (cbn in Hl; lia). pring.
Qed.

Lemma ev_lsub g a : ∀ b, length a = length b → ev g (lsub a b) = psub (ev g a) (ev g b).
Proof.
  induction a as [|x a IH]; intros [|y b] Hl; try discriminate; cbn [lsub zip_with ev]; [pring|].
  fold (lsub a b). rewrite IH by (cbn in Hl; lia). pring.
Qed.

Lemma pX_padd g x y : pX g (padd x y) = padd (pX g x) (pX g y).
Proof. pring. Qed.

Lemma ev_app g a b : ev g (a ++ b) = padd (ev g a) (pXn (length a) g (ev g b)).
Proof.
  induction a as [|x a IH]; cbn [app ev length pXn]; [pring|]. rewrite IH, pX_padd. pring.
Qed.

Lemma pX_even g h x : pXn (2 * h) g x = pscale (g ^ Z.of_nat h) x.
Proof.
  induction h as [|h IH]; [cbn [Nat.mul Nat.add pXn Z.of_nat]; rewrite Z.pow_0_r; pring|]. replace (2 * S h)%nat with (S (S (2 * h))) by lia. cbn [pXn]. rewrite IH.
  rewrite Nat2Z.inj_succ, Z.pow_succ_r by lia. pring.
Qed.

Lemma ev_halves g h a b : length a = (2 * h)%nat → ev g (a ++ b) = padd (ev g a) (pscale (g ^ Z.of_nat h) (ev g b)).
Proof. intros Hl. by rewrite ev_app, Hl, pX_even. Qed.

(** ** The product modulo X^256 + 1 *)

Definition shift1 (b : list Z) : list Z := - List.last b 0 :: removelast b.

Fixpoint negmul (a b : list Z) : list Z :=
  match a with
  | [] => map (λ _, 0) b
  | x :: a => ladd (lscale x b) (shift1 (negmul a b))
  end.

Lemma length_lscale c l : length (lscale c l) = length l.
Proof. apply length_map. Qed.

Lemma lscale_app c a b : lscale c (a ++ b) = lscale c a ++ lscale c b.
Proof. apply map_app. Qed.

Lemma length_ladd a b : length a = length b → length (ladd a b) = length b.
Proof. intros Hl. unfold ladd. rewrite length_zip_with. lia. Qed.

Lemma length_lsub a b : length a = length b → length (lsub a b) = length b.
Proof. intros Hl. unfold lsub. rewrite length_zip_with. lia. Qed.

Lemma length_shift1 b : b ≠ [] → length (shift1 b) = length b.
Proof.
  intros Hb. pose proof (f_equal length (app_removelast_last 0 Hb)) as E. rewrite length_app in E. cbn in *. lia.
Qed.

Lemma length_negmul a b : b ≠ [] → length (negmul a b) = length b.
Proof.
  intros Hb. induction a as [|x a IH]; cbn [negmul]; [apply length_map|].
  assert (Hn : negmul a b ≠ []) by (intros E; rewrite E in IH; by destruct b).
  rewrite length_ladd; rewrite ?length_shift1, ?length_lscale; auto.
Qed.

(** Multiplication by X. *)
Lemma ev_shift1 g b : length b = 256%nat → g ^ 128 =q -1 → ev g (shift1 b) =p pX g (ev g b).
Proof.
  intros Hl Hg. assert (Hb : b ≠ []) by (by destruct b). unfold shift1.
  set (x := List.last b 0). assert (E : b = removelast b ++ [x]) by (apply app_removelast_last; done).
  set (i := removelast b) in *. assert (Hi : length i = 255%nat) by (rewrite E, length_app in Hl; cbn in Hl; lia).
  rewrite E. cbn [ev]. rewrite ev_app, Hi, pX_padd.
  assert (Ex : pX g (pXn 255 g (ev g [x])) = pscale (g ^ 128) (x, 0)).
  { change (pX g (pXn 255 g (ev g [x]))) with (pXn (2 * 128) g (ev g [x])). rewrite pX_even. change (Z.of_nat 128) with 128.
    cbn [ev]. generalize (g ^ 128). intros w. pring. }
  rewrite Ex, Hg. apply pcong_of_eq. pring.
Qed.

Lemma ev_zero g (b : list Z) : ev g (map (λ _, 0) b) = (0, 0).
Proof. induction b as [|x b IH]; [done|]. cbn [map ev]. rewrite IH. pring. Qed.

(** The residue of a product is the product of the residues. *)
Lemma ev_negmul g a b : length b = 256%nat → g ^ 128 =q -1 → ev g (negmul a b) =p pmul g (ev g a) (ev g b).
Proof.
  intros Hl Hg. assert (Hb : b ≠ []) by (by destruct b). induction a as [|x a IH]; cbn [negmul].
  - rewrite ev_zero. apply pcong_of_eq. cbn [ev]. pring.
  - rewrite ev_ladd by (rewrite length_lscale, length_shift1, length_negmul by (done || (intros E; apply (f_equal length) in E; rewrite length_negmul in E by done; by destruct b)); done).
    rewrite ev_shift1, IH, ev_lscale by (rewrite ?length_negmul; done). apply pcong_of_eq. cbn [ev]. pring.
Qed.

(** ** Layers *)

(** The inverse of R = 2^16, and the roots without the factor R that the table has. *)
Definition RINV : Z := 169.
Definition root (k : nat) : Z := zeta_at k * RINV.

Fixpoint fwd (n len k : nat) (l : list Z) : list Z :=
  match n with
  | O => l
  | S n =>
      let lo := take len l in
      let hi := lscale (root k) (take len (drop len l)) in
      ladd lo hi ++ lsub lo hi ++ fwd n len (S k) (drop (2 * len) l)
  end.

Fixpoint inv (n len k : nat) (l : list Z) : list Z :=
  match n with
  | O => l
  | S n =>
      let lo := take len l in
      let hi := take len (drop len l) in
      ladd lo hi ++ lscale (root k) (lsub hi lo) ++ inv n len (k - 1) (drop (2 * len) l)
  end.

(** A block and what follows. *)
Lemma block_split n len (l : list Z) : length l = (S n * (2 * len))%nat →
  ∃ lo hi rest, l = lo ++ hi ++ rest ∧ length lo = len ∧ length hi = len ∧ length rest = (n * (2 * len))%nat.
Proof.
  intros Hl. exists (take len l), (take len (drop len l)), (drop len (drop len l)). rewrite !take_drop.
  split; [done|]. rewrite !length_take, !length_drop. lia.
Qed.

Lemma block_parts len (lo hi rest : list Z) : length lo = len → length hi = len →
  take len (lo ++ hi ++ rest) = lo ∧ take len (drop len (lo ++ hi ++ rest)) = hi ∧ drop (2 * len) (lo ++ hi ++ rest) = rest.
Proof.
  intros H1 H2. rewrite take_app_length' by done. rewrite drop_app_length' by done. rewrite take_app_length' by done.
  split; [done|]. split; [done|]. rewrite app_assoc. apply drop_app_length'. rewrite length_app. lia.
Qed.

Ltac split_block n len l :=
  let lo := fresh "lo" in let hi := fresh "hi" in let rest := fresh "rest" in
  let H1 := fresh "Hlo" in let H2 := fresh "Hhi" in let H3 := fresh "Hrest" in
  let E1 := fresh "E" in let E2 := fresh "E" in let E3 := fresh "E" in
  destruct (block_split n len l) as (lo & hi & rest & -> & H1 & H2 & H3); [assumption|];
  destruct (block_parts len lo hi rest H1 H2) as (E1 & E2 & E3).

Lemma length_fwd n len : ∀ k l, length l = (n * (2 * len))%nat → length (fwd n len k l) = (n * (2 * len))%nat.
Proof.
  induction n as [|n IH]; intros k l Hl; [done|]. split_block n len l. cbn [fwd]. rewrite E, E0, E1.
  rewrite !length_app, length_ladd, length_lsub, length_lscale, IH by (rewrite ?length_lscale; lia). lia.
Qed.

Lemma length_inv n len : ∀ k l, length l = (n * (2 * len))%nat → length (inv n len k l) = (n * (2 * len))%nat.
Proof.
  induction n as [|n IH]; intros k l Hl; [done|]. split_block n len l. cbn [inv]. rewrite E, E0, E1.
  rewrite !length_app, length_ladd, length_lscale, length_lsub, IH by lia. lia.
Qed.

(** Pointwise facts on lists. *)
Lemma lcong_ladd a a' b b' : a =l a' → b =l b' → ladd a b =l ladd a' b'.
Proof. intros H. revert b b'. induction H as [|x x' a a' Hx _ IH]; intros b b' [|y y' c c' Hy Hc]; cbn; constructor; [by rewrite Hx, Hy|by apply IH]. Qed.
Lemma lcong_lsub a a' b b' : a =l a' → b =l b' → lsub a b =l lsub a' b'.
Proof. intros H. revert b b'. induction H as [|x x' a a' Hx _ IH]; intros b b' [|y y' c c' Hy Hc]; cbn; constructor; [by rewrite Hx, Hy|by apply IH]. Qed.
Lemma lcong_lscale c c' a a' : c =q c' → a =l a' → lscale c a =l lscale c' a'.
Proof. intros Hc. induction 1 as [|x x' a a' Hx _ IH]; cbn; constructor; [by rewrite Hx, Hc|done]. Qed.
Lemma lcong_refl a : a =l a.
Proof. induction a; by constructor. Qed.
Lemma lcong_trans a b c : a =l b → b =l c → a =l c.
Proof. intros H. revert c. induction H as [|x y a b Hx _ IH]; intros c Hc; inversion Hc; subst; constructor; [by etrans|auto]. Qed.
Lemma lcong_sym a b : a =l b → b =l a.
Proof. induction 1; by constructor. Qed.
#[export] Instance lcong_equivalence : Equivalence lcong.
Proof. split; [intros ?; apply lcong_refl|intros ? ?; apply lcong_sym|intros ? ? ?; apply lcong_trans]. Qed.
Lemma lcong_length a b : a =l b → length a = length b.
Proof. apply Forall2_length. Qed.

Lemma inv_fwd_block z z' lo : ∀ hi, z * z' =q -1 → length lo = length hi →
  ladd (ladd lo (lscale z hi)) (lsub lo (lscale z hi)) =l lscale 2 lo ∧
  lscale z' (lsub (lsub lo (lscale z hi)) (ladd lo (lscale z hi))) =l lscale 2 hi.
Proof.
  induction lo as [|x lo IH]; intros [|y hi] Hz Hl; try discriminate; [by split; constructor|].
  destruct (IH hi Hz ltac:(cbn in Hl; lia)) as [H1 H2]. split; cbn; constructor; try done; [qring|].
  transitivity (-2 * (z * z') * y); [qring|]. rewrite Hz. qring.
Qed.

Fixpoint inv_ok (n k k' : nat) : bool :=
  match n with
  | O => true
  | S n => ((root k * root k') mod KYBER_Q =? (-1) mod KYBER_Q) && inv_ok n (S k) (k' - 1)
  end.

Lemma inv_fwd n len : ∀ k k' l, inv_ok n k k' = true → length l = (n * (2 * len))%nat →
  inv n len k' (fwd n len k l) =l lscale 2 l.
Proof.
  induction n as [|n IH]; intros k k' l Hok Hl; [by destruct l; [constructor|]|]. split_block n len l.
  cbn [inv_ok] in Hok. apply andb_true_iff in Hok as [Hz%Z.eqb_eq Hok]. cbn [fwd]. rewrite E, E0, E1. cbn [inv].
  set (A := ladd lo (lscale (root k) hi)). set (B := lsub lo (lscale (root k) hi)).
  assert (HA : length A = len) by (unfold A; rewrite length_ladd; rewrite ?length_lscale; lia).
  assert (HB : length B = len) by (unfold B; rewrite length_lsub; rewrite ?length_lscale; lia).
  destruct (block_parts len A B (fwd n len (S k) rest) HA HB) as (-> & -> & ->).
  destruct (inv_fwd_block (root k) (root k') lo hi Hz ltac:(lia)) as [H1 H2].
  rewrite !lscale_app. apply Forall2_app; [exact H1|]. apply Forall2_app; [exact H2|]. by apply IH.
Qed.

Lemma take_lscale n c l : take n (lscale c l) = lscale c (take n l).
Proof. apply firstn_map. Qed.
Lemma drop_lscale n c l : drop n (lscale c l) = lscale c (drop n l).
Proof. apply skipn_map. Qed.

Lemma inv_lscale n len c : ∀ k l, inv n len k (lscale c l) =l lscale c (inv n len k l).
Proof.
  induction n as [|n IH]; intros k l; [apply lcong_refl|]. cbn [inv]. rewrite !drop_lscale, !take_lscale.
  rewrite !lscale_app. generalize (take len l), (take len (drop len l)). intros lo hi.
  assert (H : ladd (lscale c lo) (lscale c hi) =l lscale c (ladd lo hi) ∧
    lscale (root k) (lsub (lscale c hi) (lscale c lo)) =l lscale c (lscale (root k) (lsub hi lo))).
  { revert hi. induction lo as [|x lo IHl]; intros [|y hi]; cbn; [split; constructor..|].
    destruct (IHl hi) as [H1 H2]. split; constructor; try done; qring. }
  destruct H. apply Forall2_app; [done|]. apply Forall2_app; [done|]. apply IH.
Qed.

Lemma lcong_take n a b : a =l b → take n a =l take n b.
Proof. apply Forall2_take. Qed.
Lemma lcong_drop n a b : a =l b → drop n a =l drop n b.
Proof. apply Forall2_drop. Qed.

Lemma fwd_cong n len : ∀ k a b, a =l b → fwd n len k a =l fwd n len k b.
Proof.
  induction n as [|n IH]; intros k a b H; [done|]. cbn [fwd].
  repeat apply Forall2_app; [apply lcong_ladd|apply lcong_lsub|apply IH]; auto using lcong_take, lcong_drop;
    apply lcong_lscale; auto using lcong_take, lcong_drop; done.
Qed.

Lemma inv_cong n len : ∀ k a b, a =l b → inv n len k a =l inv n len k b.
Proof.
  induction n as [|n IH]; intros k a b H; [done|]. cbn [inv].
  repeat apply Forall2_app; [apply lcong_ladd|apply lcong_lscale; [done|apply lcong_lsub]|apply IH]; auto using lcong_take, lcong_drop.
Qed.

(** ** Residues of blocks *)

(** The residues of [n] blocks of [2h] coefficients, each modulo [h] of the polynomials
    X^2 - g for [g] from [gs]. *)
Fixpoint evs (n h : nat) (gs l : list Z) : list residue :=
  match n with
  | O => []
  | S n => map (λ g, ev g (take (2 * h) l)) (take h gs) ++ evs n h (drop h gs) (drop (2 * h) l)
  end.

(** The residues that belong to the two halves of a block. *)
Fixpoint roots_ok (n h k : nat) (gs : list Z) : bool :=
  match n with
  | O => true
  | S n =>
      forallb (λ g, (Zpow_mod g (Z.of_nat h) KYBER_Q =? root k mod KYBER_Q)) (take h gs) &&
      forallb (λ g, (Zpow_mod g (Z.of_nat h) KYBER_Q =? (- root k) mod KYBER_Q)) (take h (drop h gs)) &&
      roots_ok n h (S k) (drop (2 * h) gs)
  end.

Infix "=ps" := (Forall2 pcong) (at level 70) : mlkem_scope.

Lemma Zpow_cong g h z : (Zpow_mod g (Z.of_nat h) KYBER_Q =? z mod KYBER_Q) = true → g ^ Z.of_nat h =q z.
Proof. intros H%Z.eqb_eq. rewrite Zpow_mod_correct in H by done. exact H. Qed.

Lemma map_residues (gs : list Z) (f f' : Z → residue) : (∀ g, g ∈ gs → f g =p f' g) → map f gs =ps map f' gs.
Proof.
  induction gs as [|g gs IH]; intros H; constructor; [apply H; set_solver|apply IH]. intros x Hx. apply H. set_solver.
Qed.

Lemma evs_fwd n h : ∀ k gs l, roots_ok n h k gs = true → length l = (n * (2 * (2 * h)))%nat → length gs = (n * (2 * h))%nat →
  evs (2 * n) h gs (fwd n (2 * h) k l) =ps evs n (2 * h) gs l.
Proof.
  induction n as [|n IH]; intros k gs l Hok Hl Hg; [constructor|]. split_block n (2 * h)%nat l.
  cbn [roots_ok] in Hok. apply andb_true_iff in Hok as [Hok Hok3]. apply andb_true_iff in Hok as [Hok1 Hok2].
  rewrite forallb_forall in Hok1, Hok2. cbn [fwd]. rewrite E, E0, E1.
  set (A := ladd lo (lscale (root k) hi)). set (B := lsub lo (lscale (root k) hi)).
  assert (HA : length A = (2 * h)%nat) by (unfold A; rewrite length_ladd; rewrite ?length_lscale; lia).
  assert (HB : length B = (2 * h)%nat) by (unfold B; rewrite length_lsub; rewrite ?length_lscale; lia).
  destruct (block_parts (2 * h) A B (fwd n (2 * h) (S k) rest) HA HB) as (EA & EB & EC).
  replace (2 * S n)%nat with (S (S (2 * n))) by lia. cbn [evs]. rewrite EA, EB, !drop_drop.
  replace (2 * h + 2 * h)%nat with (2 * (2 * h))%nat by lia. rewrite EC, E1.
  replace (h + h)%nat with (2 * h)%nat by lia.
  assert (Et : take (2 * (2 * h)) (lo ++ hi ++ rest) = lo ++ hi) by (rewrite app_assoc; apply take_app_length'; rewrite length_app; lia).
  rewrite Et. assert (Eg : take (2 * h) gs = take h gs ++ take h (drop h gs)) by (rewrite take_take_drop; f_equal; lia).
  rewrite Eg, map_app, <- app_assoc. apply Forall2_app; [|apply Forall2_app].
  - apply map_residues. intros g Hin. rewrite (ev_halves g h) by done. unfold A. rewrite ev_ladd, ev_lscale by (rewrite length_lscale; lia).
    rewrite (Zpow_cong g h (root k)); [done|]. apply Hok1. by apply list_elem_of_In.
  - apply map_residues. intros g Hin. rewrite (ev_halves g h) by done. unfold B. rewrite ev_lsub, ev_lscale by (rewrite length_lscale; lia).
    rewrite (Zpow_cong g h (- root k)); [apply pcong_of_eq; pring|]. apply Hok2. by apply list_elem_of_In.
  - apply IH; [done|lia|rewrite length_drop; lia].
Qed.

Lemma evs_inv n h : ∀ k k' gs l, roots_ok n h k gs = true → inv_ok n k k' = true →
  length l = (n * (2 * (2 * h)))%nat → length gs = (n * (2 * h))%nat →
  evs n (2 * h) gs (inv n (2 * h) k' l) =ps map (pscale 2) (evs (2 * n) h gs l).
Proof.
  induction n as [|n IH]; intros k k' gs l Hok Hi Hl Hg; [constructor|]. split_block n (2 * h)%nat l.
  cbn [roots_ok] in Hok. apply andb_true_iff in Hok as [Hok Hok3]. apply andb_true_iff in Hok as [Hok1 Hok2].
  cbn [inv_ok] in Hi. apply andb_true_iff in Hi as [Hz%Z.eqb_eq Hi]. change (root k * root k' =q -1) in Hz.
  rewrite forallb_forall in Hok1, Hok2. cbn [inv]. rewrite E, E0, E1.
  set (A := ladd lo hi). set (B := lscale (root k') (lsub hi lo)).
  assert (HA : length A = (2 * h)%nat) by (unfold A; rewrite length_ladd; lia).
  assert (HB : length B = (2 * h)%nat) by (unfold B; rewrite length_lscale, length_lsub; lia).
  replace (2 * S n)%nat with (S (S (2 * n))) by lia. cbn [evs]. rewrite E, E0, !drop_drop.
  replace (2 * h + 2 * h)%nat with (2 * (2 * h))%nat by lia. rewrite E1. replace (h + h)%nat with (2 * h)%nat by lia.
  assert (Et : take (2 * (2 * h)) (A ++ B ++ inv n (2 * h) (k' - 1) rest) = A ++ B) by (rewrite app_assoc; apply take_app_length'; rewrite length_app; lia).
  assert (Ed : drop (2 * (2 * h)) (A ++ B ++ inv n (2 * h) (k' - 1) rest) = inv n (2 * h) (k' - 1) rest) by (rewrite app_assoc; apply drop_app_length'; rewrite length_app; lia).
  rewrite Et, Ed. assert (Eg : take (2 * h) gs = take h gs ++ take h (drop h gs)) by (rewrite take_take_drop; f_equal; lia).
  rewrite Eg, !map_app, <- app_assoc, !map_map. apply Forall2_app; [|apply Forall2_app].
  - apply map_residues. intros g Hin. rewrite (ev_halves g h) by done. unfold A, B. rewrite ev_ladd, ev_lscale, ev_lsub by lia.
    rewrite (Zpow_cong g h (root k)) by (apply Hok1; by apply list_elem_of_In).
    transitivity (padd (padd (ev g lo) (ev g hi)) (pscale (root k * root k') (psub (ev g hi) (ev g lo)))); [apply pcong_of_eq; pring|].
    rewrite Hz. apply pcong_of_eq. pring.
  - apply map_residues. intros g Hin. rewrite (ev_halves g h) by done. unfold A, B. rewrite ev_ladd, ev_lscale, ev_lsub by lia.
    rewrite (Zpow_cong g h (- root k)) by (apply Hok2; by apply list_elem_of_In).
    transitivity (psub (padd (ev g lo) (ev g hi)) (pscale (root k * root k') (psub (ev g hi) (ev g lo)))); [apply pcong_of_eq; pring|].
    rewrite Hz. apply pcong_of_eq. pring.
  - apply (IH (S k)); [done|done|lia|rewrite length_drop; lia].
Qed.

(** ** The transform *)

Definition a_ntt (l : list Z) : list Z := fold_left (λ r '(n, len), fwd n len n r) ntt_layers l.
Definition a_inv (l : list Z) : list Z := fold_left (λ r '(n, len), inv n len (2 * n - 1) r) (rev ntt_layers) l.

(** The polynomials X^2 - g of the transform, in its order. *)
Definition gammas : list Z := concat (map (λ k, [root k; - root k]) (seq 64 64)).

Lemma layers_ok : forallb (λ '(n, len), roots_ok n (len / 2) n gammas && inv_ok n n (2 * n - 1)) ntt_layers = true.
Proof. by vm_compute. Qed.

Lemma layer_ok n h : (n, 2 * h)%nat ∈ ntt_layers → roots_ok n h n gammas = true ∧ inv_ok n n (2 * n - 1) = true.
Proof.
  intros Hin. pose proof layers_ok as Hok. rewrite forallb_forall in Hok.
  specialize (Hok (n, 2 * h)%nat ltac:(by apply list_elem_of_In)). cbn beta iota in Hok.
  rewrite (Nat.mul_comm 2 h), Nat.div_mul in Hok by done. by apply andb_true_iff in Hok.
Qed.

Lemma gammas_roots : forallb (λ g, (Zpow_mod g (Z.of_nat 128) KYBER_Q =? (-1) mod KYBER_Q)) gammas = true.
Proof. by vm_compute. Qed.

Lemma gamma_root g : g ∈ gammas → g ^ 128 =q -1.
Proof.
  intros Hin. pose proof gammas_roots as H. rewrite forallb_forall in H. apply (Zpow_cong g 128), H. by apply list_elem_of_In.
Qed.

Fixpoint pairs (l : list Z) : list residue :=
  match l with x :: y :: l => (x, y) :: pairs l | _ => [] end.

Lemma evs_pairs n : ∀ gs l, length gs = n → length l = (2 * n)%nat → evs n 1 gs l = pairs l.
Proof.
  induction n as [|n IH]; intros gs l Hg Hl; [by destruct l|]. destruct l as [|x [|y l]]; try (cbn in Hl; lia).
  destruct gs as [|g gs]; [discriminate|]. change (evs (S n) 1 (g :: gs) (x :: y :: l)) with (ev g [x; y] :: evs n 1 gs l). cbn [pairs]. f_equal.
  - cbn [ev]. pring.
  - apply IH; [by injection Hg|cbn in Hl; lia].
Qed.

Lemma evs_whole l : length l = 256%nat → evs 1 128 gammas l = map (λ g, ev g l) gammas.
Proof. intros Hl. cbn [evs]. rewrite app_nil_r, !take_ge by (rewrite ?Hl; done). done. Qed.

Lemma pcong_list_trans a b c : a =ps b → b =ps c → a =ps c.
Proof. intros H. revert c. induction H as [|x y a b Hx _ IH]; intros c Hc; inversion Hc; subst; constructor; [by etrans|auto]. Qed.
Lemma pcong_list_refl a : a =ps a.
Proof. induction a; by constructor. Qed.
Lemma pcong_list_sym a b : a =ps b → b =ps a.
Proof. induction 1; constructor; by symmetry || done. Qed.
#[export] Instance pcong_list_equivalence : Equivalence (Forall2 pcong).
Proof. split; [intros ?; apply pcong_list_refl|intros ? ?; apply pcong_list_sym|intros ? ? ?; apply pcong_list_trans]. Qed.

Lemma length_fwd256 n len k l : (n * (2 * len) = 256)%nat → length l = 256%nat → length (fwd n len k l) = 256%nat.
Proof. intros H Hl. rewrite length_fwd; lia. Qed.
Lemma length_inv256 n len k l : (n * (2 * len) = 256)%nat → length l = 256%nat → length (inv n len k l) = 256%nat.
Proof. intros H Hl. rewrite length_inv; lia. Qed.

Lemma length_a_ntt l : length l = 256%nat → length (a_ntt l) = 256%nat.
Proof. intros Hl. unfold a_ntt, ntt_layers. cbn [fold_left]. by repeat apply length_fwd256. Qed.
Lemma length_a_inv l : length l = 256%nat → length (a_inv l) = 256%nat.
Proof. intros Hl. unfold a_inv, ntt_layers. cbn [rev app fold_left]. by repeat apply length_inv256. Qed.

Lemma pscale_list c a b : a =ps b → map (pscale c) a =ps map (pscale c) b.
Proof. induction 1 as [|x y a b Hx _ IH]; constructor; [by rewrite Hx|done]. Qed.

Lemma pscale_pscale c d l : map (pscale c) (map (pscale d) l) = map (pscale (c * d)) l.
Proof. rewrite map_map. apply map_ext. intros x. pring. Qed.

(** One layer, as used in the transform. *)
Lemma evs_layer n h n2 len l : (n, len) ∈ ntt_layers → n2 = (2 * n)%nat → len = (2 * h)%nat → (n2 * len = 256)%nat → length l = 256%nat →
  evs n2 h gammas (fwd n len n l) =ps evs n len gammas l.
Proof. intros Hin -> -> Hn Hl. apply evs_fwd; [by apply layer_ok|lia|]. change (length gammas) with 128%nat. lia. Qed.

Lemma evs_inv_layer n h n2 len k c l : (n, len) ∈ ntt_layers → n2 = (2 * n)%nat → len = (2 * h)%nat → k = (2 * n - 1)%nat →
  (n2 * len = 256)%nat → length l = 256%nat →
  map (pscale c) (evs n len gammas (inv n len k l)) =ps map (pscale (2 * c)) (evs n2 h gammas l).
Proof.
  intros Hin -> -> -> Hn Hl. destruct (layer_ok n h Hin). rewrite Z.mul_comm, <- pscale_pscale. apply pscale_list.
  apply (evs_inv n h n); try done; [lia|]. change (length gammas) with 128%nat. lia.
Qed.

Ltac layer_side :=
  match goal with
  | |- _ ∈ ntt_layers => apply list_elem_of_In; cbn [In ntt_layers]; tauto
  | |- length _ = _ => repeat (apply length_fwd256; [reflexivity|]); repeat (apply length_inv256; [reflexivity|]); assumption
  | |- _ => reflexivity
  end.

(** The transform computes the residues. *)
Lemma a_ntt_residues l : length l = 256%nat → pairs (a_ntt l) =ps map (λ g, ev g l) gammas.
Proof.
  intros Hl. rewrite <- (evs_pairs 128 gammas) by (done || by rewrite length_a_ntt).
  rewrite <- evs_whole by done. unfold a_ntt, ntt_layers. cbn [fold_left].
  etrans; [apply (evs_layer 64 1 128 2); layer_side|]. etrans; [apply (evs_layer 32 2 64 4); layer_side|].
  etrans; [apply (evs_layer 16 4 32 8); layer_side|]. etrans; [apply (evs_layer 8 8 16 16); layer_side|].
  etrans; [apply (evs_layer 4 16 8 32); layer_side|]. etrans; [apply (evs_layer 2 32 4 64); layer_side|].
  apply (evs_layer 1 64 2 128); layer_side.
Qed.

(** The residues of what the inverse computes. *)
Lemma a_inv_residues l : length l = 256%nat → map (λ g, ev g (a_inv l)) gammas =ps map (pscale 128) (pairs l).
Proof.
  intros Hl. rewrite <- evs_whole by (by apply length_a_inv). rewrite <- (evs_pairs 128 gammas l eq_refl Hl).
  assert (E1 : ∀ rs : list residue, rs =ps map (pscale 1) rs) by (induction rs as [|x rs IH]; constructor; [apply pcong_of_eq; pring|done]).
  etrans; [apply E1|]. unfold a_inv, ntt_layers. cbn [rev app fold_left].
  etrans; [apply (evs_inv_layer 1 64 2 128); layer_side|]. etrans; [apply (evs_inv_layer 2 32 4 64); layer_side|].
  etrans; [apply (evs_inv_layer 4 16 8 32); layer_side|]. etrans; [apply (evs_inv_layer 8 8 16 16); layer_side|].
  etrans; [apply (evs_inv_layer 16 4 32 8); layer_side|]. etrans; [apply (evs_inv_layer 32 2 64 4); layer_side|].
  apply (evs_inv_layer 64 1 128 2); layer_side.
Qed.

Lemma lscale_lscale c d l : lscale c (lscale d l) =l lscale (c * d) l.
Proof. induction l as [|x l IH]; cbn; constructor; [qring|done]. Qed.

(** The layers of the inverse undo those of the transform, each up to a factor 2. *)
Lemma inv_layers Ls : ∀ l, Forall (λ '(n, len), (n * (2 * len) = length l)%nat ∧ inv_ok n n (2 * n - 1) = true) Ls →
  fold_left (λ r '(n, len), inv n len (2 * n - 1) r) (rev Ls) (fold_left (λ r '(n, len), fwd n len n r) Ls l) =l
    lscale (2 ^ Z.of_nat (length Ls)) l.
Proof.
  induction Ls as [|[n len] Ls IH]; intros l HL.
  - cbn [rev fold_left length Z.of_nat]. rewrite Z.pow_0_r. clear. induction l as [|x l IH]; cbn; constructor; [qring|done].
  - apply Forall_cons in HL as [[Hl Hok] HL]. cbn [fold_left rev]. rewrite fold_left_app. cbn [fold_left].
    assert (Hlen : length (fwd n len n l) = length l) by (rewrite <- Hl; apply length_fwd; done).
    etrans; [apply inv_cong, IH|].
    { eapply Forall_impl; [exact HL|]. intros [n' len'] [? ?]. by rewrite Hlen. }
    etrans; [apply inv_lscale|]. etrans; [apply lcong_lscale; [reflexivity|apply inv_fwd; done]|].
    etrans; [apply lscale_lscale|]. cbn [length]. rewrite Nat2Z.inj_succ, Z.pow_succ_r, Z.mul_comm by lia. reflexivity.
Qed.

Lemma a_inv_a_ntt l : length l = 256%nat → a_inv (a_ntt l) =l lscale 128 l.
Proof.
  intros Hl. apply (inv_layers ntt_layers). rewrite Hl.
  assert (H : forallb (λ '(n, len), (n * (2 * len) =? 256)%nat && inv_ok n n (2 * n - 1)) ntt_layers = true) by (by vm_compute).
  rewrite forallb_forall in H. apply Forall_forall. intros [n len] Hin. specialize (H (n, len) ltac:(by apply list_elem_of_In)).
  cbn beta iota in H. apply andb_true_iff in H as [H1%Nat.eqb_eq H2]. done.
Qed.

Lemma fold_cong (f : list Z → nat * nat → list Z) (Hf : ∀ x a b, a =l b → f a x =l f b x) Ls :
  ∀ a b, a =l b → fold_left f Ls a =l fold_left f Ls b.
Proof. induction Ls as [|x Ls IH]; intros a b H; cbn [fold_left]; auto. Qed.

Lemma a_ntt_cong a b : a =l b → a_ntt a =l a_ntt b.
Proof. apply fold_cong. intros [n len] ? ?. apply fwd_cong. Qed.
Lemma a_inv_cong a b : a =l b → a_inv a =l a_inv b.
Proof. apply fold_cong. intros [n len] ? ?. apply inv_cong. Qed.

Lemma pairs_cong a b : length a = length b → Nat.Even (length a) → pairs a =ps pairs b → a =l b.
Proof.
  intros Hl [n Hn]. revert a b Hl Hn. induction n as [|n IH]; intros a b Hl Hn H.
  - destruct a, b; try discriminate. constructor.
  - destruct a as [|x [|y a]], b as [|x' [|y' b]]; try (cbn in *; lia). cbn [pairs] in H. inversion H as [|? ? ? ? [H1 H2] H3]; subst.
    constructor; [done|]. constructor; [done|]. apply IH; [by injection Hl|cbn in Hn; lia|done].
Qed.

Lemma lscale_cancel c d a b : d * c =q 1 → lscale c a =l lscale c b → a =l b.
Proof.
  intros Hd. revert b. induction a as [|x a IH]; intros [|y b] H; inversion H; subst; constructor; [|auto].
  transitivity (d * c * x); [rewrite Hd; qring|]. transitivity (d * (c * x)); [qring|].
  match goal with H : c * x =q c * y |- _ => rewrite H end. transitivity (d * c * y); [qring|]. rewrite Hd. qring.
Qed.

(** A polynomial is determined by its residues. *)
Lemma residues_inj a b : length a = 256%nat → length b = 256%nat → (∀ g, g ∈ gammas → ev g a =p ev g b) → a =l b.
Proof.
  intros Ha Hb H. apply (lscale_cancel 128 3303); [by vm_compute|].
  rewrite <- (a_inv_a_ntt a Ha), <- (a_inv_a_ntt b Hb). apply a_inv_cong, pairs_cong.
  - by rewrite !length_a_ntt.
  - rewrite length_a_ntt by done. by exists 128%nat.
  - rewrite (a_ntt_residues a Ha), (a_ntt_residues b Hb). by apply map_residues.
Qed.
