(* ===== verification/MlkemNtt.v ===== *)
(** * MlkemNtt: the arithmetic of ML-KEM is that of the ring

    The functions of [reduce.c], [ntt.c], [poly.c] and [polyvec.c] never overflow an
    [int16_t] on the ranges the scheme uses them with, and compute, up to congruence,
    the operations of [NttRing]: [poly_ntt] the residues of a polynomial, [invntt] the
    polynomial with given residues, [poly_basemul_montgomery] the products of residues.
    The last theorem multiplies two polynomials this way. *)

From S2P Require Import Prelude Mlkem NttRing.

Local Open Scope Z_scope.
Local Open Scope mlkem_scope.

(** ** Reductions *)

Definition within (B x : Z) : Prop := - B <= x <= B.
Abbreviation bounded B l := (Forall (within B) l).

Lemma i16_spec z : ∃ k, i16 z = z + 65536 * k ∧ -32768 <= i16 z < 32768.
Proof.
  unfold i16. pose proof (Z.div_mod (z + 2 ^ 15) (2 ^ 16) ltac:(lia)). pose proof (Z.mod_pos_bound (z + 2 ^ 15) (2 ^ 16) ltac:(lia)).
  exists (- ((z + 2 ^ 15) / 2 ^ 16)). lia.
Qed.

Lemma i16_small z : -32768 <= z < 32768 → i16 z = z.
Proof. intros. unfold i16. rewrite Z.mod_small; lia. Qed.

Lemma montgomery_reduce_spec a : within (KYBER_Q * 2 ^ 15) a →
  montgomery_reduce a =q a * RINV ∧ within KYBER_Q (montgomery_reduce a).
Proof.
  unfold within, montgomery_reduce, KYBER_Q. intros Ha.
  destruct (i16_spec a) as (k1 & E1 & _). destruct (i16_spec (i16 a * QINV)) as (k2 & E2 & Ht). set (t := i16 (i16 a * QINV)) in *.
  assert (Hd : ∃ r, a - t * 3329 = 65536 * r).
  { exists (169 * a - 3329 * (k1 * QINV + k2)). unfold QINV in *. rewrite E2, E1. ring. }
  destruct Hd as [r Hr]. rewrite s32_small, Hr, Z.shiftr_div_pow2 by lia.
  change (2 ^ 16) with 65536. rewrite Z.mul_comm, Z.div_mul by lia. rewrite i16_small by lia. split; [|lia].
  apply cong_divide. unfold KYBER_Q, RINV. exists (- 169 * t - 3327 * r). lia.
Qed.

Lemma barrett_reduce_spec a : -32768 <= a < 32768 → barrett_reduce a =q a ∧ within 1664 (barrett_reduce a).
Proof.
  intros Ha. unfold barrett_reduce. change ((Z.shiftl 1 26 + KYBER_Q / 2) / KYBER_Q) with 20159.
  change (Z.shiftl 1 25) with 33554432. rewrite Z.shiftr_div_pow2 by lia. change (2 ^ 26) with 67108864.
  set (t := (20159 * a + 33554432) / 67108864).
  assert (Ht : 67108864 * t <= 20159 * a + 33554432 < 67108864 * t + 67108864).
  { unfold t. pose proof (Z.div_mod (20159 * a + 33554432) 67108864 ltac:(lia)).
    pose proof (Z.mod_pos_bound (20159 * a + 33554432) 67108864 ltac:(lia)). lia. }
  clearbody t. unfold within. rewrite (i16_small t) by lia.
  assert (Hr : -1664 <= a - t * KYBER_Q <= 1664) by (unfold KYBER_Q; lia).
  destruct (i16_spec (t * KYBER_Q)) as (k & E & Hb). destruct (i16_spec (a - i16 (t * KYBER_Q))) as (k' & E' & Hb').
  assert (Hv : i16 (a - i16 (t * KYBER_Q)) = a - t * KYBER_Q) by lia.
  rewrite Hv. split; [|done]. apply cong_divide. exists (- t). lia.
Qed.

Lemma zeta_bound k : within 1664 (zeta_at k).
Proof.
  assert (H : forallb (λ z, (-1664 <=? z) && (z <=? 1664)) zetas = true) by (by vm_compute).
  rewrite forallb_forall in H. unfold zeta_at, within. destruct (nth_in_or_default k zetas 0) as [Hin|E]; [|rewrite E; lia].
  specialize (H _ Hin). apply andb_true_iff in H as [H1%Z.leb_le H2%Z.leb_le]. done.
Qed.

Lemma fqmul_spec a b : within (KYBER_Q * 2 ^ 15) (a * b) → fqmul a b =q a * b * RINV ∧ within KYBER_Q (fqmul a b).
Proof. apply montgomery_reduce_spec. Qed.

(** With a factor from the table. *)
Lemma fqmul_zeta k x : -32768 <= x < 32768 → fqmul (zeta_at k) x =q root k * x ∧ within KYBER_Q (fqmul (zeta_at k) x).
Proof.
  intros Hx. pose proof (zeta_bound k) as Hz. unfold within in Hz. destruct (fqmul_spec (zeta_at k) x) as [H1 H2].
  { unfold within, KYBER_Q. nia. }
  split; [|done]. rewrite H1. unfold root. qring.
Qed.

(** ** Layers *)

Lemma bounded_weaken B B' l : B <= B' → bounded B l → bounded B' l.
Proof. intros H Hl. eapply Forall_impl; [exact Hl|]. unfold within. lia. Qed.

Lemma butterfly B k lo : ∀ hi, bounded B lo → bounded B hi → B + KYBER_Q <= 32767 → length lo = length hi →
  let t := map (fqmul (zeta_at k)) hi in
  zip_with (λ x t, i16 (x + t)) lo t =l ladd lo (lscale (root k) hi) ∧
  zip_with (λ x t, i16 (x - t)) lo t =l lsub lo (lscale (root k) hi) ∧
  bounded (B + KYBER_Q) (zip_with (λ x t, i16 (x + t)) lo t) ∧ bounded (B + KYBER_Q) (zip_with (λ x t, i16 (x - t)) lo t).
Proof.
  induction lo as [|x lo IH]; intros [|y hi] H1 H2 HB Hl; try discriminate; [by repeat split; constructor|].
  apply Forall_cons in H1 as [Hx H1]. apply Forall_cons in H2 as [Hy H2]. unfold within in *.
  destruct (IH hi H1 H2 HB ltac:(by injection Hl)) as (I1 & I2 & I3 & I4).
  destruct (fqmul_zeta k y) as [F1 F2]; [unfold KYBER_Q in HB; lia|]. unfold within in F2.
  cbn [map zip_with ladd lsub lscale]. rewrite !i16_small by (unfold KYBER_Q in *; lia).
  repeat split; constructor; try done; try (unfold within; lia); by rewrite F1.
Qed.

Lemma ntt_blocks_fwd B n len : ∀ k r, bounded B r → B + KYBER_Q <= 32767 → length r = (n * (2 * len))%nat →
  ntt_blocks n len k r =l fwd n len k r ∧ bounded (B + KYBER_Q) (ntt_blocks n len k r).
Proof.
  induction n as [|n IH]; intros k r Hr HB Hl; [split; [reflexivity|eapply bounded_weaken; [|exact Hr]; unfold KYBER_Q; lia]|].
  split_block n len r. cbn [ntt_blocks fwd]. rewrite E, E0, E1.
  apply Forall_app in Hr as [Hb1 Hr]. apply Forall_app in Hr as [Hb2 Hr].
  destruct (butterfly B k lo hi Hb1 Hb2 HB ltac:(lia)) as (I1 & I2 & I3 & I4). destruct (IH (S k) rest Hr HB Hrest) as [J1 J2].
  split; [by repeat apply Forall2_app|]. by repeat (apply Forall_app; split).
Qed.

Lemma inv_butterfly k lo : ∀ hi, bounded KYBER_Q lo → bounded KYBER_Q hi → length lo = length hi →
  let s := zip_with (λ t y, barrett_reduce (i16 (t + y))) lo hi in
  let d := zip_with (λ t y, fqmul (zeta_at k) (i16 (y - t))) lo hi in
  s =l ladd lo hi ∧ d =l lscale (root k) (lsub hi lo) ∧ bounded KYBER_Q s ∧ bounded KYBER_Q d.
Proof.
  induction lo as [|x lo IH]; intros [|y hi] H1 H2 Hl; try discriminate; [by repeat split; constructor|].
  apply Forall_cons in H1 as [Hx H1]. apply Forall_cons in H2 as [Hy H2]. unfold within, KYBER_Q in *.
  destruct (IH hi H1 H2 ltac:(by injection Hl)) as (I1 & I2 & I3 & I4). cbn [zip_with ladd lsub lscale map].
  rewrite !i16_small by lia. destruct (barrett_reduce_spec (x + y)) as [B1 B2]; [lia|]. destruct (fqmul_zeta k (y - x)) as [F1 F2]; [lia|].
  unfold within in B2. repeat split; constructor; try done. unfold within. lia.
Qed.

Lemma invntt_blocks_inv n len : ∀ k r, bounded KYBER_Q r → length r = (n * (2 * len))%nat →
  invntt_blocks n len k r =l inv n len k r ∧ bounded KYBER_Q (invntt_blocks n len k r).
Proof.
  induction n as [|n IH]; intros k r Hr Hl; [split; [reflexivity|done]|].
  split_block n len r. cbn [invntt_blocks inv]. rewrite E, E0, E1.
  apply Forall_app in Hr as [Hb1 Hr]. apply Forall_app in Hr as [Hb2 Hr].
  destruct (inv_butterfly k lo hi Hb1 Hb2 ltac:(lia)) as (I1 & I2 & I3 & I4). destruct (IH (k - 1)%nat rest Hr Hrest) as [J1 J2].
  split; [by repeat apply Forall2_app|]. by repeat (apply Forall_app; split).
Qed.

Lemma ntt_fold Ls : ∀ B a b, a =l b → bounded B a → B + Z.of_nat (length Ls) * KYBER_Q <= 32767 →
  Forall (λ '(n, len), (n * (2 * len) = length a)%nat) Ls →
  let r := fold_left (λ r '(n, len), ntt_blocks n len n r) Ls a in
  r =l fold_left (λ r '(n, len), fwd n len n r) Ls b ∧ bounded (B + Z.of_nat (length Ls) * KYBER_Q) r.
Proof.
  induction Ls as [|[n len] Ls IH]; intros B a b Hab Ha HB HL; cbn [fold_left length] in *.
  - split; [done|]. by rewrite Z.add_0_r.
  - apply Forall_cons in HL as [Hl HL]. destruct (ntt_blocks_fwd B n len n a Ha) as [H1 H2]; [unfold KYBER_Q in *; lia|done|].
    destruct (IH (B + KYBER_Q) (ntt_blocks n len n a) (fwd n len n b)) as [J1 J2].
    + etrans; [exact H1|by apply fwd_cong].
    + done.
    + unfold KYBER_Q in *. lia.
    + assert (E : length (ntt_blocks n len n a) = length a).
      { rewrite (lcong_length _ _ H1), length_fwd; done. }
      by rewrite E.
    + split; [done|]. eapply bounded_weaken; [|exact J2]. lia.
Qed.

Lemma inv_fold Ls : ∀ a b, a =l b → bounded KYBER_Q a → Forall (λ '(n, len), (n * (2 * len) = length a)%nat) Ls →
  let r := fold_left (λ r '(n, len), invntt_blocks n len (2 * n - 1) r) Ls a in
  r =l fold_left (λ r '(n, len), inv n len (2 * n - 1) r) Ls b ∧ bounded KYBER_Q r.
Proof.
  induction Ls as [|[n len] Ls IH]; intros a b Hab Ha HL; cbn [fold_left] in *; [done|].
  apply Forall_cons in HL as [Hl HL]. destruct (invntt_blocks_inv n len (2 * n - 1) a Ha) as [H1 H2]; [done|].
  apply IH; [etrans; [exact H1|by apply inv_cong]|done|].
  assert (E : length (invntt_blocks n len (2 * n - 1) a) = length a) by (rewrite (lcong_length _ _ H1), length_inv; done).
  by rewrite E.
Qed.

Lemma layers_256 (a : poly) : length a = 256%nat → Forall (λ '(n, len), (n * (2 * len) = length a)%nat) ntt_layers.
Proof. intros ->. by repeat constructor. Qed.

Lemma ntt_a_ntt r : length r = 256%nat → bounded KYBER_Q r → ntt r =l a_ntt r ∧ bounded 26632 (ntt r).
Proof. intros Hl Hr. apply (ntt_fold ntt_layers KYBER_Q r r); [reflexivity|done|by vm_compute|by apply layers_256]. Qed.

(** ** Residues by index *)

Definition gamma (i : nat) : Z := nth i gammas 0.
Definition res (l : poly) (i : nat) : residue := nth i (pairs l) (0, 0).

(** The factor R that Montgomery form carries. *)
Definition MONT_R : Z := 65536.

Lemma gamma_in i : (i < 128)%nat → gamma i ∈ gammas.
Proof. intros Hi. apply list_elem_of_In, nth_In. exact Hi. Qed.

Lemma gamma_root_at i : (i < 128)%nat → gamma i ^ 128 =q -1.
Proof. intros Hi. by apply gamma_root, gamma_in. Qed.

Lemma Forall2_nth {A B} (P : A → B → Prop) l l' d d' : Forall2 P l l' → ∀ i, (i < length l)%nat → P (nth i l d) (nth i l' d').
Proof. induction 1 as [|x y l l' Hx _ IH]; intros [|i] Hi; cbn in *; try lia; [done|]. apply IH. lia. Qed.

Lemma length_pairs n : ∀ l, length l = (2 * n)%nat → length (pairs l) = n.
Proof.
  induction n as [|n IH]; intros l Hl; [by destruct l|]. destruct l as [|x [|y l]]; try (cbn in Hl; lia). cbn [pairs length].
  f_equal. apply IH. cbn in Hl. lia.
Qed.

Lemma length_pairs256 l : length l = 256%nat → length (pairs l) = 128%nat.
Proof. intros. by apply length_pairs. Qed.

Lemma residues_at l f : length l = 256%nat → pairs l =ps map f gammas → ∀ i, (i < 128)%nat → res l i =p f (gamma i).
Proof.
  intros Hl H i Hi. unfold res, gamma. pose proof (Forall2_nth _ _ _ (0, 0) (f 0) H i) as Hn.
  rewrite map_nth in Hn. apply Hn. by rewrite length_pairs256.
Qed.

(** Operations on all coefficients act on residues. *)
Lemma pairs_map2 (f : Z → Z) n : ∀ a, length a = (2 * n)%nat → pairs (map f a) = map (λ x, (f x.1, f x.2)) (pairs a).
Proof.
  induction n as [|n IH]; intros a Ha; [by destruct a|]. destruct a as [|x [|y a]]; try (cbn in Ha; lia). cbn [pairs map].
  f_equal. apply IH. cbn in Ha. lia.
Qed.

Lemma res_cong a b i : a =l b → res a i =p res b i.
Proof.
  intros H. unfold res. assert (Hp : pairs a =ps pairs b).
  { assert (Hn : ∀ n a b, (length a <= n)%nat → a =l b → pairs a =ps pairs b); [|by apply (Hn (length a))].
    clear. induction n as [|n IH]; intros a b Hn H; (destruct H as [|x x' a b Hx H]; [constructor|]); [cbn in Hn; lia|].
    destruct H as [|y y' a b Hy H]; [constructor|]. cbn [pairs]. constructor; [done|]. apply IH; [cbn in Hn; lia|done]. }
  destruct (decide (i < length (pairs a))%nat) as [Hi|Hi]; [by apply Forall2_nth|].
  rewrite !nth_overflow by (rewrite <- ?(Forall2_length _ _ _ Hp); lia). done.
Qed.

Lemma res_ladd n a b i : length a = (2 * n)%nat → length b = (2 * n)%nat → res (ladd a b) i = padd (res a i) (res b i).
Proof.
  revert a b i. unfold res. induction n as [|n IH]; intros a b i Ha Hb.
  - destruct a, b; try discriminate. cbn. by destruct i.
  - destruct a as [|x [|y a]], b as [|x' [|y' b]]; try (cbn in *; lia). cbn [ladd zip_with pairs].
    destruct i as [|i]; [done|]. cbn [nth]. apply IH; cbn in *; lia.
Qed.

Lemma res_lscale n c a i : length a = (2 * n)%nat → res (lscale c a) i = pscale c (res a i).
Proof.
  intros Ha. unfold res, lscale. rewrite (pairs_map2 _ n) by done.
  pose proof (map_nth (λ x : residue, (c * x.1, c * x.2)) (pairs a) (0, 0) i) as E. cbn [fst snd] in E. rewrite !Z.mul_0_r in E. exact E.
Qed.

(** ** The operations of [poly.c] *)

Lemma poly_reduce_ok r : bounded 32767 r → poly_reduce r =l r ∧ bounded 1664 (poly_reduce r).
Proof.
  induction 1 as [|x r Hx _ [IH1 IH2]]; [by split|]. unfold within in Hx. destruct (barrett_reduce_spec x) as [H1 H2]; [lia|].
  cbn. by split; constructor.
Qed.

Lemma poly_add_ok A B a : ∀ b, bounded A a → bounded B b → A + B <= 32767 → length a = length b →
  poly_add a b = ladd a b ∧ bounded (A + B) (poly_add a b).
Proof.
  induction a as [|x a IH]; intros [|y b] Ha Hb HAB Hl; try discriminate; [by split|].
  apply Forall_cons in Ha as [Hx Ha]. apply Forall_cons in Hb as [Hy Hb]. unfold within in Hx, Hy.
  destruct (IH b Ha Hb HAB ltac:(by injection Hl)) as [I1 I2]. cbn [poly_add ladd zip_with].
  fold (poly_add a b). fold (ladd a b). rewrite i16_small by lia. rewrite I1 in *. split; [done|]. constructor; [unfold within; lia|done].
Qed.

Lemma poly_sub_ok A B a : ∀ b, bounded A a → bounded B b → A + B <= 32767 → length a = length b →
  poly_sub a b = lsub a b ∧ bounded (A + B) (poly_sub a b).
Proof.
  induction a as [|x a IH]; intros [|y b] Ha Hb HAB Hl; try discriminate; [by split|].
  apply Forall_cons in Ha as [Hx Ha]. apply Forall_cons in Hb as [Hy Hb]. unfold within in Hx, Hy.
  destruct (IH b Ha Hb HAB ltac:(by injection Hl)) as [I1 I2]. cbn [poly_sub lsub zip_with].
  fold (poly_sub a b). fold (lsub a b). rewrite i16_small by lia. rewrite I1 in *. split; [done|]. constructor; [unfold within; lia|done].
Qed.

Lemma poly_tomont_ok r : bounded 32767 r → poly_tomont r =l lscale MONT_R r ∧ bounded KYBER_Q (poly_tomont r).
Proof.
  unfold poly_tomont. change (2 ^ 32 mod KYBER_Q) with 1353. induction 1 as [|x r Hx _ [IH1 IH2]]; [by split|]. unfold within in Hx.
  destruct (montgomery_reduce_spec (x * 1353)) as [H1 H2]; [unfold within, KYBER_Q; lia|]. cbn. split; constructor; try done.
  rewrite H1. transitivity (1353 * RINV * x); [qring|]. assert (E : 1353 * RINV =q MONT_R) by done. by rewrite E.
Qed.

Lemma poly_ntt_ok r : length r = 256%nat → bounded KYBER_Q r →
  length (poly_ntt r) = 256%nat ∧ bounded 1664 (poly_ntt r) ∧ ∀ i, (i < 128)%nat → res (poly_ntt r) i =p ev (gamma i) r.
Proof.
  intros Hl Hr. destruct (ntt_a_ntt r Hl Hr) as [H1 H2]. destruct (poly_reduce_ok (ntt r)) as [H3 H4]; [eapply bounded_weaken; [|exact H2]; lia|].
  assert (H5 : poly_ntt r =l a_ntt r) by (etrans; [exact H3|exact H1]).
  split; [by rewrite (lcong_length _ _ H5), length_a_ntt|]. split; [done|]. intros i Hi.
  rewrite (res_cong _ _ i H5). apply (residues_at _ (λ g, ev g r)); [by apply length_a_ntt|by apply a_ntt_residues|done].
Qed.

Lemma invntt_ok r : length r = 256%nat → bounded KYBER_Q r →
  length (invntt r) = 256%nat ∧ bounded KYBER_Q (invntt r) ∧
  ∀ i, (i < 128)%nat → ev (gamma i) (invntt r) =p pscale MONT_R (res r i).
Proof.
  intros Hl Hr. unfold invntt. set (s := fold_left _ _ _).
  assert (Hs : s =l a_inv r ∧ bounded KYBER_Q s).
  { apply (inv_fold (rev ntt_layers) r r); [reflexivity|done|]. apply Forall_rev, layers_256, Hl. }
  destruct Hs as [Hs Hb].
  assert (Hm : map (λ x, fqmul x 1441) s =l lscale 512 s ∧ bounded KYBER_Q (map (λ x, fqmul x 1441) s)).
  { clear Hs. induction Hb as [|x s' Hx _ [I1 I2]]; [by split|]. unfold within, KYBER_Q in Hx.
    destruct (fqmul_spec x 1441) as [F1 F2]; [unfold within, KYBER_Q; lia|]. cbn. split; constructor; try done.
    rewrite F1. transitivity (1441 * RINV * x); [qring|]. assert (E : 1441 * RINV =q 512) by done. by rewrite E. }
  destruct Hm as [Hm Hb']. split; [by rewrite length_map, (lcong_length _ _ Hs), length_a_inv|]. split; [done|].
  intros i Hi. rewrite (ev_cong _ _ _ _ (reflexivity _) Hm), ev_lscale, (ev_cong _ _ _ _ (reflexivity _) Hs).
  assert (Hi2 : ev (gamma i) (a_inv r) =p pscale 128 (res r i)).
  { pose proof (Forall2_nth _ _ _ (ev 0 (a_inv r)) (pscale 128 (0, 0)) (a_inv_residues r Hl) i) as Hn.
    rewrite (map_nth (λ g, ev g (a_inv r))), (map_nth (pscale 128)) in Hn. apply Hn. rewrite length_map. exact Hi. }
  rewrite Hi2. apply pcong_of_eq. unfold MONT_R. pring.
Qed.

Lemma basemul_ok a0 a1 b0 b1 z g : within 4096 a0 → within 4096 a1 → within 1664 b0 → within 1664 b1 → within 1664 z → g =q z * RINV →
  ∃ r0 r1, basemul a0 a1 b0 b1 z = [r0; r1] ∧ (r0, r1) =p pscale RINV (pmul g (a0, a1) (b0, b1)) ∧ within 6658 r0 ∧ within 6658 r1.
Proof.
  unfold within, basemul. intros Ha0 Ha1 Hb0 Hb1 Hz Hg.
  destruct (fqmul_spec a1 b1) as [F1 B1]; [unfold within, KYBER_Q; nia|]. unfold within, KYBER_Q in B1.
  destruct (fqmul_spec (fqmul a1 b1) z) as [F2 B2]; [unfold within, KYBER_Q; nia|]. unfold within, KYBER_Q in B2.
  destruct (fqmul_spec a0 b0) as [F3 B3]; [unfold within, KYBER_Q; nia|]. unfold within, KYBER_Q in B3.
  destruct (fqmul_spec a0 b1) as [F4 B4]; [unfold within, KYBER_Q; nia|]. unfold within, KYBER_Q in B4.
  destruct (fqmul_spec a1 b0) as [F5 B5]; [unfold within, KYBER_Q; nia|]. unfold within, KYBER_Q in B5.
  rewrite !i16_small by lia. eexists _, _. split; [reflexivity|]. split; [|lia]. split; cbn [pscale pmul fst snd].
  - rewrite F2, F1, F3, Hg. qring.
  - rewrite F4, F5. qring.
Qed.

(** The products of residues, in Montgomery form. *)
Fixpoint pmuls (gs : list Z) (xs ys : list residue) : list residue :=
  match gs, xs, ys with
  | g :: gs, x :: xs, y :: ys => pscale RINV (pmul g x y) :: pmuls gs xs ys
  | _, _, _ => []
  end.

Lemma basemul_loop_ok n : ∀ k a b, length a = (4 * n)%nat → length b = (4 * n)%nat → bounded 4096 a → bounded 1664 b →
  let r := basemul_loop n k a b in
  pairs r =ps pmuls (concat (map (λ k, [root k; - root k]) (seq k n))) (pairs a) (pairs b) ∧ bounded 6658 r ∧ length r = (4 * n)%nat.
Proof.
  induction n as [|n IH]; intros k a b Ha Hb Ba Bb; [cbn; by split_and!|].
  destruct a as [|a0 [|a1 [|a2 [|a3 a]]]], b as [|b0 [|b1 [|b2 [|b3 b]]]]; try (cbn in *; lia).
  apply Forall_cons in Ba as [A0 Ba]. apply Forall_cons in Ba as [A1 Ba]. apply Forall_cons in Ba as [A2 Ba]. apply Forall_cons in Ba as [A3 Ba].
  apply Forall_cons in Bb as [B0 Bb]. apply Forall_cons in Bb as [B1 Bb]. apply Forall_cons in Bb as [B2 Bb]. apply Forall_cons in Bb as [B3 Bb].
  pose proof (zeta_bound k) as Hz. cbn [basemul_loop].
  destruct (basemul_ok a0 a1 b0 b1 (zeta_at k) (root k)) as (r0 & r1 & E1 & P1 & W0 & W1); try done.
  destruct (basemul_ok a2 a3 b2 b3 (- zeta_at k) (- root k)) as (r2 & r3 & E2 & P2 & W2 & W3); try done;
    [unfold within in *; lia|unfold root; qring|].
  rewrite E1, E2. destruct (IH (S k) a b) as (I1 & I2 & I3); [cbn in *; lia..|done|done|].
  cbn [app pairs seq map concat pmuls]. split_and!; [constructor; [done|]; by constructor|by repeat (constructor; [done|])|cbn [length]; lia].
Qed.

Lemma pmuls_nth gs : ∀ xs ys i, (i < length gs)%nat → length xs = length gs → length ys = length gs →
  nth i (pmuls gs xs ys) (0, 0) = pscale RINV (pmul (nth i gs 0) (nth i xs (0, 0)) (nth i ys (0, 0))).
Proof.
  induction gs as [|g gs IH]; intros [|x xs] [|y ys] [|i] Hi Hx Hy; try (cbn in *; lia); cbn [pmuls nth]; [done|].
  apply IH; cbn in *; lia.
Qed.

Lemma poly_basemul_ok a b : length a = 256%nat → length b = 256%nat → bounded 4096 a → bounded 1664 b →
  length (poly_basemul_montgomery a b) = 256%nat ∧ bounded 6658 (poly_basemul_montgomery a b) ∧
  ∀ i, (i < 128)%nat → res (poly_basemul_montgomery a b) i =p pscale RINV (pmul (gamma i) (res a i) (res b i)).
Proof.
  intros Ha Hb Ba Bb. destruct (basemul_loop_ok 64 64 a b Ha Hb Ba Bb) as (H1 & H2 & H3). split; [exact H3|]. split; [exact H2|].
  intros i Hi. change (concat _) with gammas in H1. pose proof (length_pairs256 _ H3) as Hp.
  pose proof (Forall2_nth _ _ _ (0, 0) (0, 0) H1 i ltac:(unfold poly_basemul_montgomery in Hp; cbn in Hp |- *; lia)) as Hn.
  rewrite pmuls_nth in Hn by (rewrite ?length_pairs256 by done; exact Hi || done). exact Hn.
Qed.

(** ** Vectors *)

Definition poly_in (B : Z) (p : poly) : Prop := length p = 256%nat ∧ bounded B p.
Definition vec_in (B : Z) (v : polyvec) : Prop := length v = KYBER_K ∧ Forall (poly_in B) v.

(** The inner product of residues. *)
Definition pdot (g : Z) (xs ys : list residue) : residue := foldr padd (0, 0) (zip_with (pmul g) xs ys).

Lemma vec_in_3 B v : vec_in B v → ∃ p0 p1 p2, v = [p0; p1; p2] ∧ poly_in B p0 ∧ poly_in B p1 ∧ poly_in B p2.
Proof.
  intros [Hl Hv]. destruct v as [|p0 [|p1 [|p2 [|]]]]; try discriminate.
  apply Forall_cons in Hv as [H0 Hv]. apply Forall_cons in Hv as [H1 Hv]. apply Forall_cons in Hv as [H2 _]. eauto 8.
Qed.

Lemma vec_in_map B B' (f : poly → poly) v : (∀ p, poly_in B p → poly_in B' (f p)) → vec_in B v → vec_in B' (map f v).
Proof.
  intros Hf [Hl Hv]. split; [by rewrite length_map|]. apply Forall_map. eapply Forall_impl; [exact Hv|]. exact Hf.
Qed.

Lemma poly_in_ntt p : poly_in KYBER_Q p → poly_in 1664 (poly_ntt p).
Proof. intros [Hl Hb]. destruct (poly_ntt_ok p Hl Hb) as (? & ? & _). done. Qed.

Lemma basemul_acc_ok a b : vec_in 4096 a → vec_in 1664 b →
  poly_in 1664 (polyvec_basemul_acc_montgomery a b) ∧
  ∀ i, (i < 128)%nat → res (polyvec_basemul_acc_montgomery a b) i =p
    pscale RINV (pdot (gamma i) (map (λ p, res p i) a) (map (λ p, res p i) b)).
Proof.
  intros (a0 & a1 & a2 & -> & [La0 Ba0] & [La1 Ba1] & [La2 Ba2])%vec_in_3 (b0 & b1 & b2 & -> & [Lb0 Bb0] & [Lb1 Bb1] & [Lb2 Bb2])%vec_in_3.
  destruct (poly_basemul_ok a0 b0 La0 Lb0 Ba0 Bb0) as (L0 & B0 & R0). destruct (poly_basemul_ok a1 b1 La1 Lb1 Ba1 Bb1) as (L1 & B1 & R1).
  destruct (poly_basemul_ok a2 b2 La2 Lb2 Ba2 Bb2) as (L2 & B2 & R2). cbn [polyvec_basemul_acc_montgomery zip_with fold_left].
  set (m0 := poly_basemul_montgomery a0 b0) in *. set (m1 := poly_basemul_montgomery a1 b1) in *. set (m2 := poly_basemul_montgomery a2 b2) in *.
  destruct (poly_add_ok 6658 6658 m0 m1 B0 B1) as [E1 C1]; [lia|lia|]. rewrite E1 in *.
  assert (L3 : length (ladd m0 m1) = 256%nat) by (rewrite length_ladd; lia).
  destruct (poly_add_ok (6658 + 6658) 6658 (ladd m0 m1) m2 C1 B2) as [E2 C2]; [lia|lia|]. rewrite E2 in *.
  assert (L4 : length (ladd (ladd m0 m1) m2) = 256%nat) by (rewrite length_ladd; lia).
  destruct (poly_reduce_ok (ladd (ladd m0 m1) m2)) as [E3 C3]; [eapply bounded_weaken; [|exact C2]; lia|].
  split; [split; [by rewrite (lcong_length _ _ E3)|done]|]. intros i Hi. rewrite (res_cong _ _ i E3).
  rewrite (res_ladd 128), (res_ladd 128), R0, R1, R2 by done. apply pcong_of_eq. unfold pdot. cbn [map zip_with foldr]. pring.
Qed.

(** The inner product of vectors of polynomials modulo X^256 + 1. *)
Definition vdot (a b : polyvec) : poly :=
  foldr ladd (zeros 256) (zip_with negmul a b).

Lemma ev_zeros g n : ev g (zeros n) = (0, 0).
Proof. induction n as [|n IH]; [done|]. cbn [zeros replicate ev]. fold (zeros n). rewrite IH. pring. Qed.

Lemma length_negmul256 a b : length b = 256%nat → length (negmul a b) = 256%nat.
Proof. intros Hb. rewrite length_negmul; [done|by destruct b]. Qed.

Lemma vdot_ok a b : length a = length b → Forall (λ p, length p = 256%nat) b →
  length (vdot a b) = 256%nat ∧ ∀ i, (i < 128)%nat → ev (gamma i) (vdot a b) =p pdot (gamma i) (map (ev (gamma i)) a) (map (ev (gamma i)) b).
Proof.
  intros Hl Hb. unfold vdot, pdot. revert a Hl. induction Hb as [|q b Hq Hb IH]; intros [|p a] Hl; try discriminate; cbn [zip_with foldr map].
  - split; [apply length_zeros|]. intros i Hi. by rewrite ev_zeros.
  - destruct (IH a ltac:(by injection Hl)) as [I1 I2]. pose proof (length_negmul256 p q Hq).
    split; [rewrite length_ladd; lia|]. intros i Hi. rewrite ev_ladd by lia. rewrite I2 by done.
    by rewrite ev_negmul by (done || by apply gamma_root_at).
Qed.

Lemma pdot_cong g xs xs' ys ys' : xs =ps xs' → ys =ps ys' → pdot g xs ys =p pdot g xs' ys'.
Proof.
  intros Hx. unfold pdot. revert ys ys'. induction Hx as [|x x' xs xs' Hx _ IH]; intros ys ys' [|y y' zs zs' Hy Hz]; try done.
  cbn [zip_with foldr]. by rewrite Hx, Hy, (IH _ _ Hz).
Qed.

Lemma res_ntt_vec v i : vec_in KYBER_Q v → (i < 128)%nat → map (λ p, res p i) (polyvec_ntt v) =ps map (ev (gamma i)) v.
Proof.
  intros [_ Hv] Hi. unfold polyvec_ntt. rewrite map_map. induction Hv as [|p v [Hl Hb] _ IH]; [constructor|]. cbn [map].
  constructor; [|exact IH]. by apply poly_ntt_ok.
Qed.

(** C13. Multiplication through the transform: for vectors of polynomials with
    coefficients up to q, transforming both, accumulating the products and transforming
    back gives the inner product modulo X^256 + 1 and q, with all coefficients of the
    result in range, although every step computes in 16 bits. *)
Theorem ntt_inner_product a b : vec_in KYBER_Q a → vec_in KYBER_Q b →
  let r := poly_invntt_tomont (polyvec_basemul_acc_montgomery (polyvec_ntt a) (polyvec_ntt b)) in
  r =l vdot a b ∧ poly_in KYBER_Q r.
Proof.
  intros Ha Hb. pose proof (vec_in_map _ _ _ _ poly_in_ntt Ha) as Ha'. pose proof (vec_in_map _ _ _ _ poly_in_ntt Hb) as Hb'.
  destruct (basemul_acc_ok (polyvec_ntt a) (polyvec_ntt b)) as [[L B] R].
  { destruct Ha' as [? Ha']. split; [done|]. eapply Forall_impl; [exact Ha'|]. intros p [? ?]. split; [done|]. eapply bounded_weaken; [|done]. lia. }
  { done. }
  destruct (invntt_ok _ L) as (L' & B' & R'); [eapply bounded_weaken; [|exact B]; unfold KYBER_Q; lia|].
  destruct Ha as [Hla Ha], Hb as [Hlb Hb].
  destruct (vdot_ok a b) as [Lv Rv]; [congruence|eapply Forall_impl; [exact Hb|]; by intros p [? _]|].
  split; [|done]. apply residues_inj; [done|done|]. intros g Hg.
  apply list_elem_of_In, (In_nth _ _ 0) in Hg as (i & Hi & <-). change (nth i gammas 0) with (gamma i). change (length gammas) with 128%nat in Hi.
  unfold poly_invntt_tomont. rewrite R', R, Rv by done.
  rewrite (pdot_cong _ _ _ _ _ (res_ntt_vec a i (conj Hla Ha) Hi) (res_ntt_vec b i (conj Hlb Hb) Hi)).
  generalize (pdot (gamma i) (map (ev (gamma i)) a) (map (ev (gamma i)) b)). intros x.
  transitivity (pscale (MONT_R * RINV) x); [apply pcong_of_eq; pring|]. assert (E : MONT_R * RINV =q 1) by done. rewrite E.
  apply pcong_of_eq. pring.
Qed.

Lemma ntt_inner_product_witness :
  let v := [replicate 256 3329; replicate 256 (-3329); replicate 256 7] in
  poly_invntt_tomont (polyvec_basemul_acc_montgomery (polyvec_ntt v) (polyvec_ntt v)) =l vdot v v.
Proof.
  intros v. assert (Hv : vec_in KYBER_Q v).
  { split; [done|]. repeat (apply List.Forall_cons; [split; [apply length_replicate|apply Forall_replicate; unfold within, KYBER_Q; lia]|]). constructor. }
  exact (proj1 (ntt_inner_product v v Hv Hv)).
Defined.
