(* ===== verification/MlkemPack.v ===== *)
(** * MlkemPack: serialisation, compression and sampling of ML-KEM

    Packing followed by unpacking gives the coefficients modulo q ([frombytes_tobytes])
    or their rounded values ([unpack_pack_ciphertext]), with rounding errors of at most 2
    and 104 ([compress10_error], [compress4_error]); a message survives noise of less
    than a quarter of q ([tomsg_frommsg]); sampled coefficients are in range. *)

From S2P Require Import Prelude Mlkem NttRing MlkemNtt.

Local Open Scope Z_scope.
Local Open Scope mlkem_scope.

(** ** Bits as arithmetic *)

Lemma lor_shiftl a b n : 0 <= n → 0 <= a < 2 ^ n → Z.lor a (Z.shiftl b n) = a + b * 2 ^ n.
Proof. intros Hn Ha. rewrite Z.lor_comm, shiftl_lor_add by done. lia. Qed.

Lemma land_ones_mod a n : 0 <= n → Z.land a (Z.ones n) = a mod 2 ^ n.
Proof. apply Z.land_ones. Qed.

(** ** 12 bits per coefficient *)

Lemma to_positive_u16_spec x : -3329 <= x < 3329 → to_positive_u16 x = x mod KYBER_Q.
Proof.
  intros Hx. unfold to_positive_u16, u16, KYBER_Q. destruct (Z.lt_ge_cases x 0) as [Hn|Hn].
  - replace (x mod 2 ^ 16) with (x + 65536) by (apply (Z.mod_unique_pos _ _ (-1)); lia).
    replace (i16 (x + 65536)) with x by (unfold i16; replace (x + 65536 + 2 ^ 15) with (x + 32768 + 1 * 65536) by lia; change (2 ^ 16) with 65536; rewrite Z.mod_add, Z.mod_small by lia; lia).
    rewrite Z.shiftr_div_pow2 by lia. replace (x / 2 ^ 15) with (-1) by (apply (Z.div_unique_pos _ _ _ (x + 32768)); lia).
    rewrite Z.land_m1_l. replace ((x + 65536 + 3329) mod 2 ^ 16) with (x + 3329) by (apply (Z.mod_unique_pos _ _ 1); lia).
    apply (Z.mod_unique_pos _ _ (-1)); lia.
  - rewrite (Z.mod_small x (2 ^ 16)) by lia. rewrite i16_small by lia. rewrite Z.shiftr_div_pow2 by lia.
    rewrite (Z.div_small x) by lia. rewrite Z.land_0_l, Z.add_0_r, !Z.mod_small by lia. done.
Qed.

Lemma pack12 t0 t1 : 0 <= t0 < 4096 → 0 <= t1 < 4096 →
  let x := u8 t0 in let y := u8 (Z.lor (Z.shiftr t0 8) (Z.shiftl t1 4)) in let z := u8 (Z.shiftr t1 4) in
  Z.land (Z.lor x (Z.shiftl y 8)) 0xFFF = t0 ∧ Z.land (Z.lor (Z.shiftr y 4) (Z.shiftl z 4)) 0xFFF = t1.
Proof.
  intros H0 H1. cbv zeta. change 0xFFF with (Z.ones 12). rewrite !land_ones_mod by lia. rewrite !Z.shiftr_div_pow2 by lia.
  rewrite (lor_shiftl (t0 / 2 ^ 8)) by (try lia; zdiv_lia). unfold u8.
  rewrite !lor_shiftl by (try lia; zdiv_lia). split; zdiv_lia.
Qed.

Lemma mod_q_range x : 0 <= x mod KYBER_Q < 3329.
Proof. apply Z.mod_pos_bound. done. Qed.

Lemma frombytes_tobytes n : ∀ a, length a = (2 * n)%nat → bounded 3328 a → poly_frombytes (poly_tobytes a) = map (λ x, x mod KYBER_Q) a.
Proof.
  induction n as [|n IH]; intros a Ha Hb; [by destruct a|]. destruct a as [|x [|y a]]; try (cbn in Ha; lia).
  apply Forall_cons in Hb as [Hx Hb]. apply Forall_cons in Hb as [Hy Hb]. unfold within in Hx, Hy.
  cbn [poly_tobytes poly_frombytes map]. rewrite !to_positive_u16_spec by lia.
  pose proof (mod_q_range x). pose proof (mod_q_range y).
  destruct (pack12 (x mod KYBER_Q) (y mod KYBER_Q)) as [-> ->]; [lia..|]. do 2 f_equal. apply IH; [cbn in Ha; lia|done].
Qed.

Lemma length_tobytes n : ∀ a, length a = (2 * n)%nat → length (poly_tobytes a) = (3 * n)%nat.
Proof.
  induction n as [|n IH]; intros a Ha; [by destruct a|]. destruct a as [|x [|y a]]; try (cbn in Ha; lia).
  cbn [poly_tobytes length]. rewrite IH by (cbn in Ha; lia). lia.
Qed.

Lemma tobytes_ok a : bytes_ok (poly_tobytes a).
Proof.
  assert (H : ∀ n a, (length a <= n)%nat → bytes_ok (poly_tobytes a)); [|by apply (H (length a))].
  clear. induction n as [|n IH]; intros [|x [|y a]] Hn; try (by constructor); [cbn in Hn; lia|]. cbn [poly_tobytes].
  do 3 (apply List.Forall_cons; [apply u8_range|]). apply IH. cbn in Hn. lia.
Qed.

(** ** Rounded coefficients *)

Lemma pack10 t0 t1 t2 t3 : 0 <= t0 < 1024 → 0 <= t1 < 1024 → 0 <= t2 < 1024 → 0 <= t3 < 1024 →
  let a0 := u8 t0 in let a1 := u8 (Z.lor (Z.shiftr t0 8) (Z.shiftl t1 2)) in let a2 := u8 (Z.lor (Z.shiftr t1 6) (Z.shiftl t2 4)) in
  let a3 := u8 (Z.lor (Z.shiftr t2 4) (Z.shiftl t3 6)) in let a4 := u8 (Z.shiftr t3 2) in
  decompress10 (u16 (Z.lor a0 (Z.shiftl a1 8))) = decompress10 t0 ∧ decompress10 (u16 (Z.lor (Z.shiftr a1 2) (Z.shiftl a2 6))) = decompress10 t1 ∧
  decompress10 (u16 (Z.lor (Z.shiftr a2 4) (Z.shiftl a3 4))) = decompress10 t2 ∧ decompress10 (u16 (Z.lor (Z.shiftr a3 6) (Z.shiftl a4 2))) = decompress10 t3.
Proof.
  intros H0 H1 H2 H3. cbv zeta. assert (E : ∀ x y, x mod 1024 = y → 0 <= y < 1024 → decompress10 x = decompress10 y).
  { intros x y <- Hy. unfold decompress10. change 0x3FF with (Z.ones 10). rewrite !land_ones_mod by lia. change (2 ^ 10) with 1024. by rewrite Z.mod_mod. }
  rewrite !Z.shiftr_div_pow2 by lia. rewrite (lor_shiftl (t0 / 2 ^ 8)), (lor_shiftl (t1 / 2 ^ 6)), (lor_shiftl (t2 / 2 ^ 4)) by (try lia; zdiv_lia).
  unfold u8. rewrite !lor_shiftl by (try lia; zdiv_lia). unfold u16. split_and!; (apply E; [zdiv_lia|done]).
Qed.

Lemma compress10_range x : 0 <= compress10 x < 1024.
Proof. unfold compress10. change 0x3ff with (Z.ones 10). rewrite land_ones_mod by lia. apply Z.mod_pos_bound. lia. Qed.

Lemma compress4_range x : 0 <= compress4 x < 16.
Proof. unfold compress4. change 0xf with (Z.ones 4). rewrite land_ones_mod by lia. apply Z.mod_pos_bound. lia. Qed.

Lemma decompress_compress10 n : ∀ a, length a = (4 * n)%nat → decompress10_loop (compress10_loop a) = map (λ x, decompress10 (compress10 x)) a.
Proof.
  induction n as [|n IH]; intros a Ha; [by destruct a|]. destruct a as [|x0 [|x1 [|x2 [|x3 a]]]]; try (cbn in Ha; lia).
  cbn [compress10_loop decompress10_loop map].
  destruct (pack10 (compress10 x0) (compress10 x1) (compress10 x2) (compress10 x3)) as (-> & -> & -> & ->); try apply compress10_range.
  do 4 f_equal. apply IH. cbn in Ha. lia.
Qed.

Lemma length_compress10 n : ∀ a, length a = (4 * n)%nat → length (compress10_loop a) = (5 * n)%nat.
Proof.
  induction n as [|n IH]; intros a Ha; [by destruct a|]. destruct a as [|x0 [|x1 [|x2 [|x3 a]]]]; try (cbn in Ha; lia).
  cbn [compress10_loop length]. rewrite IH by (cbn in Ha; lia). lia.
Qed.

Lemma decompress_compress4 n : ∀ a, length a = (2 * n)%nat → poly_decompress (poly_compress a) = map (λ x, decompress4 (compress4 x)) a.
Proof.
  induction n as [|n IH]; intros a Ha; [by destruct a|]. destruct a as [|x [|y a]]; try (cbn in Ha; lia).
  cbn [poly_compress poly_decompress map]. pose proof (compress4_range x). pose proof (compress4_range y).
  rewrite lor_shiftl by lia. change 15 with (Z.ones 4). rewrite land_ones_mod, Z.shiftr_div_pow2 by lia.
  replace ((compress4 x + compress4 y * 2 ^ 4) mod 2 ^ 4) with (compress4 x) by zdiv_lia.
  replace ((compress4 x + compress4 y * 2 ^ 4) / 2 ^ 4) with (compress4 y) by zdiv_lia. do 2 f_equal. apply IH. cbn in Ha. lia.
Qed.

Lemma length_compress4 n : ∀ a, length a = (2 * n)%nat → length (poly_compress a) = n.
Proof.
  induction n as [|n IH]; intros a Ha; [by destruct a|]. destruct a as [|x [|y a]]; try (cbn in Ha; lia).
  cbn [poly_compress length]. by rewrite IH by (cbn in Ha; lia).
Qed.

(** A statement about every coefficient that [barrett_reduce] returns, by evaluation. *)
Lemma reduced_cases (P : Z → bool) : forallb P (seqZ (-1664) 3329) = true → ∀ x, within 1664 x → P x = true.
Proof.
  intros H x Hx. unfold within in Hx. rewrite forallb_forall in H. apply H, list_elem_of_In, elem_of_seqZ. lia.
Qed.

(** The signed representative modulo q. *)
Definition centered (x : Z) : Z := let r := x mod KYBER_Q in if r <=? 1664 then r else r - KYBER_Q.

Lemma centered_cong x : centered x =q x.
Proof.
  unfold centered. destruct (_ <=? _); [apply Z.mod_mod; done|]. unfold cong. rewrite Zminus_mod, Z_mod_same_full, Z.sub_0_r, !Z.mod_mod by done. done.
Qed.

Lemma compress10_error x : within 1664 x → within 2 (centered (decompress10 (compress10 x) - x)).
Proof.
  intros Hx. pose proof (reduced_cases (λ x, Z.abs (centered (decompress10 (compress10 x) - x)) <=? 2) ltac:(by vm_compute) x Hx) as H.
  apply Z.leb_le in H. unfold within. lia.
Qed.

Lemma compress4_error x : within 1664 x → within 104 (centered (decompress4 (compress4 x) - x)).
Proof.
  intros Hx. pose proof (reduced_cases (λ x, Z.abs (centered (decompress4 (compress4 x) - x)) <=? 104) ltac:(by vm_compute) x Hx) as H.
  apply Z.leb_le in H. unfold within. lia.
Qed.

Lemma decompress10_range t : 0 <= decompress10 t < 3329.
Proof.
  unfold decompress10. change 0x3FF with (Z.ones 10). rewrite land_ones_mod by lia. pose proof (Z.mod_pos_bound t (2 ^ 10) ltac:(lia)).
  unfold KYBER_Q. rewrite u32_small by (unfold is_u32; lia). rewrite Z.shiftr_div_pow2 by lia. rewrite i16_small; zdiv_lia.
Qed.

Lemma decompress4_range v : 0 <= v < 16 → 0 <= decompress4 v < 3329.
Proof. intros Hv. unfold decompress4, KYBER_Q. rewrite Z.shiftr_div_pow2 by lia. rewrite i16_small; zdiv_lia. Qed.

(** ** Messages *)

Lemma tomsg_bit_spec x : within 1664 x → tomsg_bit x = if (Z.abs x <=? 832) then 0 else 1.
Proof.
  intros Hx. pose proof (reduced_cases (λ x, tomsg_bit x =? if (Z.abs x <=? 832) then 0 else 1) ltac:(by vm_compute) x Hx) as H.
  by apply Z.eqb_eq in H.
Qed.

Lemma cmov_bit b : b = 0 ∨ b = 1 → cmov_int16 0 ((KYBER_Q + 1) / 2) b = b * 1665.
Proof. by intros [-> | ->]. Qed.

(** A bit is recovered from a coefficient that carries it with little noise. *)
Lemma tomsg_noise b n x : b = 0 ∨ b = 1 → within 831 n → within 1664 x → x =q b * 1665 + n → tomsg_bit x = b.
Proof.
  intros Hb Hn Hx [k Hk]%cong_divide. rewrite tomsg_bit_spec by done. unfold within, KYBER_Q in *.
  destruct Hb as [-> | ->]; destruct (Z.leb_spec (Z.abs x) 832); try done; exfalso; assert (-1 <= k <= 0) by lia; assert (k = 0 ∨ k = -1) as [-> | ->] by lia; lia.
Qed.

Lemma byte_cases (P : Z → bool) : forallb P (seqZ 0 256) = true → ∀ m, is_u8 m → P m = true.
Proof. intros H m Hm. unfold is_u8 in Hm. rewrite forallb_forall in H. apply H, list_elem_of_In, elem_of_seqZ. lia. Qed.

Lemma land_one_cases x : Z.land x 1 = 0 ∨ Z.land x 1 = 1.
Proof. rewrite (Z.land_ones x 1 ltac:(lia) : Z.land x 1 = x mod 2 ^ 1). pose proof (Z.mod_pos_bound x (2 ^ 1) ltac:(lia)). lia. Qed.

Definition msg_bits (m : Z) : list Z := map (λ j, Z.land (Z.shiftr m j) 1) bit_positions.

Lemma msg_bits_01 m : Forall (λ b, b = 0 ∨ b = 1) (msg_bits m).
Proof.
  apply Forall_map, Forall_forall. intros j _. apply land_one_cases.
Qed.

Lemma tomsg_byte_bits m xs : is_u8 m → map tomsg_bit xs = msg_bits m → tomsg_byte xs = m.
Proof.
  intros Hm E. unfold tomsg_byte.
  assert (Ef : ∀ ps xs a, fold_left (λ m '(j, x), u8 (Z.lor m (Z.shiftl (tomsg_bit x) j))) (zip ps xs) a =
    fold_left (λ m '(j, b), u8 (Z.lor m (Z.shiftl b j))) (zip ps (map tomsg_bit xs)) a).
  { clear. induction ps as [|j ps IH]; intros [|x xs] a; try done. apply IH. }
  rewrite Ef, E. pose proof (byte_cases (λ m, fold_left (λ m '(j, b), u8 (Z.lor m (Z.shiftl b j))) (zip bit_positions (msg_bits m)) 0 =? m)
    ltac:(by vm_compute) m Hm) as H. by apply Z.eqb_eq in H.
Qed.

Lemma tomsg_bits bs : ∀ ns xs, Forall (λ b, b = 0 ∨ b = 1) bs → bounded 831 ns → bounded 1664 xs → length ns = length bs →
  xs =l ladd (map (λ b, b * 1665) bs) ns → map tomsg_bit xs = bs.
Proof.
  induction bs as [|b bs IH]; intros [|n ns] xs Hb Hn Hx Hl H; try discriminate; inversion H as [|x y xs' ys H1 H2]; subst; [done|].
  apply Forall_cons in Hb as [Hb0 Hb]. apply Forall_cons in Hn as [Hn0 Hn]. apply Forall_cons in Hx as [Hx0 Hx].
  cbn [map]. f_equal; [by eapply tomsg_noise|]. by apply (IH ns); [..|injection Hl|].
Qed.

Lemma tomsg_loop_ok msg : ∀ noise p, bytes_ok msg → length noise = (8 * length msg)%nat → bounded 831 noise → bounded 1664 p →
  p =l ladd (poly_frommsg msg) noise → tomsg_loop (length msg) p = msg.
Proof.
  induction msg as [|m msg IH]; intros noise p Hm Hl Hn Hp H; [done|].
  apply Forall_cons in Hm as [Hm0 Hm]. cbn [length tomsg_loop]. assert (Hb8 : length (msg_bits m) = 8%nat) by done.
  assert (E8 : poly_frommsg (m :: msg) = map (λ b, b * 1665) (msg_bits m) ++ poly_frommsg msg).
  { unfold poly_frommsg. cbn [map concat]. f_equal. unfold msg_bits. rewrite map_map. apply map_ext. intros j.
    apply cmov_bit, land_one_cases. }
  rewrite E8 in H. rewrite <- (take_drop 8 noise) in H. unfold ladd in H. rewrite zip_with_app in H by (rewrite length_map, Hb8, length_take; cbn in Hl; lia).
  apply Forall2_app_inv_r in H as (p1 & p2 & H1 & H2 & ->).
  assert (L1 : length p1 = 8%nat) by (rewrite (Forall2_length _ _ _ H1), length_zip_with, length_map, Hb8, length_take; cbn in Hl; lia).
  rewrite take_app_length', drop_app_length' by done. apply Forall_app in Hp as [Hp1 Hp2]. f_equal.
  - apply tomsg_byte_bits; [done|]. apply (tomsg_bits _ (take 8 noise)); [apply msg_bits_01|by apply Forall_take|done| |exact H1].
    rewrite length_take, Hb8. cbn in Hl. lia.
  - apply (IH (drop 8 noise)); try done; [rewrite length_drop; cbn in *; lia|by apply Forall_drop].
Qed.

(** A message survives noise of less than a quarter of q. *)
Lemma tomsg_frommsg msg noise p : length msg = 32%nat → bytes_ok msg → length noise = 256%nat → bounded 831 noise → bounded 1664 p →
  p =l ladd (poly_frommsg msg) noise → poly_tomsg p = msg.
Proof.
  intros Hl Hm Hn Hb Hp H. unfold poly_tomsg. change (KYBER_N / 8)%nat with 32%nat. rewrite <- Hl. apply (tomsg_loop_ok msg noise); try done. lia.
Qed.

Lemma frommsg_in msg : length msg = 32%nat → poly_in 1665 (poly_frommsg msg).
Proof.
  intros Hl. unfold poly_frommsg. split.
  - rewrite <- (Nat.mul_1_l 256). change 256%nat with (8 * 32)%nat. rewrite <- Hl. clear. induction msg as [|m msg IH]; [done|].
    cbn [map concat]. rewrite length_app. cbn [length bit_positions map] in *. lia.
  - apply Forall_concat, Forall_map, Forall_forall. intros m _. apply Forall_map, Forall_forall. intros j _.
    pose proof (land_one_cases (Z.shiftr m j)). rewrite cmov_bit by done. unfold within. lia.
Qed.

(** ** Sampling *)

(** The sums of neighbouring bits: [c] is 0, 1, 1, 2 on two bits. *)
Lemma land_mask4 x M : 0 <= M → Z.land x (4 * M + 1) = 4 * Z.land (x / 4) M + x mod 2.
Proof.
  intros HM. apply Z.bits_inj'. intros i Hi. rewrite Z.land_spec.
  replace (4 * Z.land (x / 4) M + x mod 2) with (Z.lor (x mod 2) (Z.shiftl (Z.land (x / 4) M) 2))
    by (rewrite lor_shiftl by (try lia; zdiv_lia); lia).
  replace (4 * M + 1) with (Z.lor 1 (Z.shiftl M 2)) by (rewrite lor_shiftl by lia; lia).
  rewrite !Z.lor_spec. change (x mod 2) with (x mod 2 ^ 1). change 4 with (2 ^ 2). rewrite <- Z.shiftr_div_pow2 by lia.
  rewrite !Z.shiftl_spec by done. destruct (Z.lt_ge_cases i 2) as [Hlt|Hge].
  - rewrite !(Z.testbit_neg_r _ (i - 2)) by lia. rewrite !orb_false_r. assert (i = 0 ∨ i = 1) as [-> | ->] by lia.
    + rewrite Z.mod_pow2_bits_low by lia. by rewrite andb_true_r.
    + rewrite Z.mod_pow2_bits_high by lia. by rewrite andb_false_r.
  - rewrite Z.land_spec, Z.shiftr_spec by lia. replace (i - 2 + 2) with i by lia. rewrite Z.mod_pow2_bits_high by lia.
    replace (Z.testbit 1 i) with false; [done|]. symmetry. apply (Z.mod_pow2_bits_high 1 1); lia.
Qed.

Definition pair_sums (t M : Z) : Z := Z.land t M + Z.land (Z.shiftr t 1) M.

Lemma pair_sums_step t M : 0 <= M → ∃ c, 0 <= c <= 2 ∧ pair_sums t (4 * M + 1) = c + 4 * pair_sums (t / 4) M.
Proof.
  intros HM. unfold pair_sums. rewrite !land_mask4 by done. exists (t mod 2 + (t / 2) mod 2).
  rewrite !Z.shiftr_div_pow2 by lia. change (2 ^ 1) with 2. rewrite !Z.div_div by lia. change (2 * 4) with 8. change (4 * 2) with 8. split; [zdiv_lia|lia].
Qed.

(** Masks of [n] ones at even places. *)
Fixpoint mask5 (n : nat) : Z := match n with O => 0 | S n => 4 * mask5 n + 1 end.

Lemma mask5_nonneg n : 0 <= mask5 n.
Proof. induction n; cbn [mask5]; lia. Qed.

Lemma pair_sums_field n : ∀ t k, 0 <= t → (k < n)%nat → 0 <= Z.land (Z.shiftr (pair_sums t (mask5 n)) (2 * Z.of_nat k)) 3 <= 2.
Proof.
  induction n as [|n IH]; intros t k Ht Hk; [lia|]. cbn [mask5].
  destruct (pair_sums_step t (mask5 n) (mask5_nonneg n)) as (c & Hc & ->).
  assert (Hp : 0 <= pair_sums (t / 4) (mask5 n)).
  { unfold pair_sums. pose proof (mask5_nonneg n). assert (0 <= t / 4) by zdiv_lia.
    assert (0 <= Z.land (t / 4) (mask5 n)) by (apply Z.land_nonneg; lia).
    assert (0 <= Z.land (Z.shiftr (t / 4) 1) (mask5 n)) by (apply Z.land_nonneg; right; lia). lia. }
  destruct k as [|k].
  - change (2 * Z.of_nat 0) with 0. rewrite Z.shiftr_0_r. rewrite (Z.land_ones _ 2 ltac:(lia) : Z.land _ 3 = _ mod 2 ^ 2). zdiv_lia.
  - replace (2 * Z.of_nat (S k)) with (2 + 2 * Z.of_nat k) by lia. rewrite <- Z.shiftr_shiftr by lia.
    replace (Z.shiftr (c + 4 * pair_sums (t / 4) (mask5 n)) 2) with (pair_sums (t / 4) (mask5 n)) by (rewrite Z.shiftr_div_pow2 by lia; zdiv_lia).
    apply IH; [zdiv_lia|lia].
Qed.

Lemma pair_sums_u32 t : is_u32 t → is_u32 (pair_sums t 0x55555555).
Proof.
  intros Ht. unfold is_u32 in *. unfold pair_sums. assert (H : ∀ x, 0 <= x → 0 <= Z.land x 0x55555555 <= 0x55555555).
  { intros x Hx. split; [apply Z.land_nonneg; lia|]. destruct (Z.eq_dec (Z.land x 0x55555555) 0) as [->|Hn]; [lia|].
    apply (Z.ldiff_le); [lia|]. apply Z.bits_inj'. intros i Hi. rewrite Z.ldiff_spec, Z.land_spec, Z.bits_0.
    by destruct (Z.testbit x i), (Z.testbit 0x55555555 i). }
  pose proof (H t ltac:(lia)). pose proof (H (Z.shiftr t 1) ltac:(rewrite Z.shiftr_div_pow2 by lia; zdiv_lia)). lia.
Qed.

Lemma cbd2_word_range t : is_u32 t → bounded 2 (cbd2_word t).
Proof.
  intros Ht. unfold cbd2_word. fold (pair_sums t 0x55555555). rewrite u32_small by (by apply pair_sums_u32).
  assert (Hf : ∀ k, (k < 16)%nat → 0 <= Z.land (Z.shiftr (pair_sums t 0x55555555) (2 * Z.of_nat k)) 3 <= 2).
  { intros k Hk. apply (pair_sums_field 16 t k); [apply Ht|done]. }
  apply Forall_map, Forall_forall. intros j Hj. assert (Hj' : 0 <= j < 8) by (rewrite !elem_of_cons, elem_of_nil in Hj; lia).
  pose proof (Hf (2 * Z.to_nat j)%nat ltac:(lia)) as F1. pose proof (Hf (2 * Z.to_nat j + 1)%nat ltac:(lia)) as F2.
  replace (2 * Z.of_nat (2 * Z.to_nat j)) with (4 * j) in F1 by lia.
  replace (2 * Z.of_nat (2 * Z.to_nat j + 1)) with (4 * j + 2) in F2 by lia. unfold within. cbv zeta. lia.
Qed.

Lemma load32_range x0 x1 x2 x3 : is_u8 x0 → is_u8 x1 → is_u8 x2 → is_u8 x3 → is_u32 (load32_littleendian x0 x1 x2 x3).
Proof.
  intros H0 _ _ _. unfold load32_littleendian. repeat apply (lor_range 32); try lia; try apply u32_range. unfold is_u8 in H0. lia.
Qed.

(** Noise is between -2 and 2. *)
Lemma cbd2_in n : ∀ buf, length buf = (4 * n)%nat → bytes_ok buf → length (cbd2 buf) = (8 * n)%nat ∧ bounded 2 (cbd2 buf).
Proof.
  induction n as [|n IH]; intros buf Hl Hb; [by destruct buf|]. destruct buf as [|x0 [|x1 [|x2 [|x3 buf]]]]; try (cbn in Hl; lia).
  apply Forall_cons in Hb as [H0 Hb]. apply Forall_cons in Hb as [H1 Hb]. apply Forall_cons in Hb as [H2 Hb]. apply Forall_cons in Hb as [H3 Hb].
  destruct (IH buf ltac:(cbn in Hl; lia) Hb) as [I1 I2]. cbn [cbd2]. rewrite length_app. split.
  - change (length (cbd2_word _)) with 8%nat. lia.
  - apply Forall_app. split; [by apply cbd2_word_range, load32_range|done].
Qed.

Definition residue_range (x : Z) : Prop := 0 <= x < 3329.

Lemma rej_uniform_ok : ∀ buf len, (length (rej_uniform len buf) <= len)%nat ∧ Forall residue_range (rej_uniform len buf).
Proof.
  assert (H : ∀ n buf len, (length buf <= n)%nat → (length (rej_uniform len buf) <= len)%nat ∧ Forall residue_range (rej_uniform len buf));
    [|intros buf len; by apply (H (length buf))].
  assert (Hland : ∀ x, 0 <= Z.land x 0xFFF) by (intros x; apply Z.land_nonneg; lia).
  induction n as [|n IH]; intros [|x [|y [|z buf]]] len Hn; try (cbn; split; [lia|constructor]); [cbn in Hn; lia|].
  destruct len as [|len]; [cbn; split; [lia|constructor]|]. cbn [rej_uniform].
  set (v0 := Z.land (Z.lor x (Z.shiftl y 8)) 0xFFF). set (v1 := Z.land (Z.lor (Z.shiftr y 4) (Z.shiftl z 4)) 0xFFF).
  assert (Hr : ∀ v, 0 <= v → (v <? KYBER_Q) = true → residue_range v) by (intros v Hv Hq%Z.ltb_lt; unfold residue_range, KYBER_Q in *; lia).
  pose proof (Hland (Z.lor x (Z.shiftl y 8))). pose proof (Hland (Z.lor (Z.shiftr y 4) (Z.shiftl z 4))).
  assert (IH' : ∀ len, (length (rej_uniform len buf) <= len)%nat ∧ Forall residue_range (rej_uniform len buf)) by (intros l; apply IH; cbn in Hn; lia).
  destruct (v0 <? KYBER_Q) eqn:E0; [destruct len as [|len2]; [|destruct (v1 <? KYBER_Q) eqn:E1]|destruct (v1 <? KYBER_Q) eqn:E1].
  - cbn. split; [lia|]. constructor; [auto|constructor].
  - destruct (IH' len2). cbn [length]. split; [lia|]. repeat constructor; auto; apply Hr; done.
  - destruct (IH' (S len2)). cbn [length]. split; [lia|]. constructor; auto.
  - destruct (IH' len). cbn [length]. split; [lia|]. constructor; auto.
  - apply IH'.
Qed.

Lemma residue_range_in p : length p = 256%nat → Forall residue_range p → poly_in 3328 p.
Proof. intros Hl Hp. split; [done|]. eapply Forall_impl; [exact Hp|]. unfold residue_range, within. lia. Qed.

Section Sampling.
  Context `{Symmetric}.

Lemma sample_more_ok fuel : ∀ got st p, (length got <= 256)%nat → Forall residue_range got →
  sample_more fuel got st = Some p → poly_in 3328 p.
Proof.
  induction fuel as [|fuel IH]; intros got st p Hl Hg; cbn [sample_more]; unfold KYBER_N; destruct (Nat.leb_spec 256 (length got)); try done.
  - intros [= <-]. apply residue_range_in; [lia|done].
  - intros [= <-]. apply residue_range_in; [lia|done].
  - destruct (xof_squeezeblock st) as [buf st']. destruct (rej_uniform_ok buf (256 - length got)) as [Hr1 Hr2].
    apply IH; [rewrite length_app; lia|by apply Forall_app].
Qed.

Lemma sample_entry_ok fuel seed x y p : sample_entry fuel seed x y = Some p → poly_in 3328 p.
Proof.
  unfold sample_entry. destruct (squeezeblocks _ _) as [buf st]. destruct (rej_uniform_ok buf KYBER_N). by apply sample_more_ok.
Qed.

(** The two matrices that are generated from a seed are transposes of each other. *)
Lemma gen_matrix_ok fuel seed a : gen_matrix fuel seed false = Some a →
  ∃ m00 m01 m02 m10 m11 m12 m20 m21 m22,
    Forall (poly_in 3328) [m00; m01; m02; m10; m11; m12; m20; m21; m22] ∧
    a = [[m00; m01; m02]; [m10; m11; m12]; [m20; m21; m22]] ∧
    gen_matrix fuel seed true = Some [[m00; m10; m20]; [m01; m11; m21]; [m02; m12; m22]].
Proof.
  unfold gen_matrix. cbn [mapM]. intros Ha.
  destruct (sample_entry fuel seed 0 0) as [m00|] eqn:E00; [|discriminate]. destruct (sample_entry fuel seed 1 0) as [m01|] eqn:E01; [|discriminate].
  destruct (sample_entry fuel seed 2 0) as [m02|] eqn:E02; [|discriminate]. destruct (sample_entry fuel seed 0 1) as [m10|] eqn:E10; [|discriminate].
  destruct (sample_entry fuel seed 1 1) as [m11|] eqn:E11; [|discriminate]. destruct (sample_entry fuel seed 2 1) as [m12|] eqn:E12; [|discriminate].
  destruct (sample_entry fuel seed 0 2) as [m20|] eqn:E20; [|discriminate]. destruct (sample_entry fuel seed 1 2) as [m21|] eqn:E21; [|discriminate].
  destruct (sample_entry fuel seed 2 2) as [m22|] eqn:E22; [|discriminate]. cbn in Ha. injection Ha as <-.
  exists m00, m01, m02, m10, m11, m12, m20, m21, m22. split; [|done].
  repeat (apply List.Forall_cons; [by eapply sample_entry_ok|]). constructor.
Qed.
End Sampling.

(** ** Vectors *)

Lemma polys_concat (f : bytes → poly) (g : poly → bytes) size v rest : Forall (λ p, length (g p) = size) v →
  polys f size (length v) (concat (map g v) ++ rest) = map (λ p, f (g p)) v.
Proof.
  induction 1 as [|p v Hp _ IH]; [done|]. cbn [length map concat polys]. rewrite <- app_assoc.
  rewrite take_app_length', drop_app_length' by done. by rewrite IH.
Qed.

(** The coefficients modulo q. *)
Definition canonical (p : poly) : poly := map (λ x, x mod KYBER_Q) p.

Lemma canonical_ok p : length p = 256%nat → canonical p =l p ∧ poly_in 3328 (canonical p).
Proof.
  unfold canonical. intros Hl. split; [|split; [by rewrite length_map|]].
  - clear. induction p as [|x p IH]; cbn; constructor; [apply Z.mod_mod; done|done].
  - apply Forall_map, Forall_forall. intros x _. pose proof (mod_q_range x). unfold within. lia.
Qed.

Lemma frombytes_tobytes_vec B v rest : vec_in B v → B <= 3328 →
  polyvec_frombytes (polyvec_tobytes v ++ rest) = map canonical v ∧ length (polyvec_tobytes v) = 1152%nat ∧ bytes_ok (polyvec_tobytes v).
Proof.
  intros [Hl Hv] HB. assert (Hlen : Forall (λ p, length (poly_tobytes p) = 384%nat) v).
  { eapply Forall_impl; [exact Hv|]. intros p [Hp _]. by apply (length_tobytes 128). }
  unfold polyvec_frombytes, polyvec_tobytes. rewrite <- Hl. split; [|split].
  - rewrite polys_concat by done. apply map_ext_Forall. eapply Forall_impl; [exact Hv|]. intros p [Hp Hb].
    apply (frombytes_tobytes 128); [done|]. eapply bounded_weaken; [|exact Hb]. done.
  - unfold KYBER_K in Hl. destruct v as [|p0 [|p1 [|p2 [|]]]]; try discriminate. apply Forall_cons in Hlen as [H0 Hlen].
    apply Forall_cons in Hlen as [H1 Hlen]. apply Forall_cons in Hlen as [H2 _]. cbn [map concat]. rewrite !length_app, H0, H1, H2. done.
  - apply Forall_concat, Forall_map, Forall_forall. intros p _. apply tobytes_ok.
Qed.

(** What decompression makes of compressed coefficients. *)
Definition rounded10 (p : poly) : poly := map (λ x, decompress10 (compress10 x)) p.
Definition rounded4 (p : poly) : poly := map (λ x, decompress4 (compress4 x)) p.

Lemma unpack_pack_ciphertext B b v : vec_in B b → poly_in B v →
  unpack_ciphertext (pack_ciphertext b v) = (map rounded10 b, rounded4 v) ∧ length (pack_ciphertext b v) = 1088%nat.
Proof.
  intros [Hl Hb] [Hlv _]. assert (Hlen : Forall (λ p, length (compress10_loop p) = 320%nat) b).
  { eapply Forall_impl; [exact Hb|]. intros p [Hp _]. by apply (length_compress10 64). }
  assert (H960 : length (polyvec_compress b) = 960%nat).
  { unfold polyvec_compress. unfold KYBER_K in Hl. destruct b as [|p0 [|p1 [|p2 [|]]]]; try discriminate. apply Forall_cons in Hlen as [H0 Hlen].
    apply Forall_cons in Hlen as [H1 Hlen]. apply Forall_cons in Hlen as [H2 _]. cbn [map concat]. rewrite !length_app, H0, H1, H2. done. }
  assert (H128 : length (poly_compress v) = 128%nat) by (by apply length_compress4).
  unfold unpack_ciphertext, pack_ciphertext. split; [|rewrite length_app, H960, H128; done]. f_equal.
  - unfold polyvec_decompress, polyvec_compress. rewrite <- Hl, polys_concat by done. apply map_ext_Forall.
    eapply Forall_impl; [exact Hb|]. intros p [Hp _]. by apply (decompress_compress10 64).
  - unfold slice. rewrite drop_app_length', take_ge by (done || lia). by apply (decompress_compress4 128).
Qed.

Lemma rounded10_in p : length p = 256%nat → poly_in KYBER_Q (rounded10 p).
Proof.
  unfold rounded10. intros Hl. split; [by rewrite length_map|]. apply Forall_map, Forall_forall. intros x _.
  pose proof (decompress10_range (compress10 x)). unfold within, KYBER_Q. lia.
Qed.

Lemma rounded4_in p : length p = 256%nat → poly_in KYBER_Q (rounded4 p).
Proof.
  unfold rounded4. intros Hl. split; [by rewrite length_map|]. apply Forall_map, Forall_forall. intros x _.
  pose proof (decompress4_range (compress4 x) (compress4_range x)). unfold within, KYBER_Q. lia.
Qed.

Lemma compress10_loop_ok n : ∀ a, length a = (4 * n)%nat → bytes_ok (compress10_loop a).
Proof.
  induction n as [|n IH]; intros a Ha; [destruct a; [constructor|done]|]. destruct a as [|x0 [|x1 [|x2 [|x3 a]]]]; try (cbn in Ha; lia).
  cbn [compress10_loop]. repeat (apply List.Forall_cons; [apply u8_range|]). apply IH. cbn in Ha. lia.
Qed.

Lemma poly_compress_ok n : ∀ a, length a = (2 * n)%nat → bytes_ok (poly_compress a).
Proof.
  induction n as [|n IH]; intros a Ha; [destruct a; [constructor|done]|]. destruct a as [|x [|y a]]; try (cbn in Ha; lia).
  cbn [poly_compress]. pose proof (compress4_range x). pose proof (compress4_range y).
  apply List.Forall_cons; [rewrite lor_shiftl by lia; unfold is_u8; lia|]. apply IH. cbn in Ha. lia.
Qed.

Lemma pack_ciphertext_ok B b v : vec_in B b → poly_in B v → bytes_ok (pack_ciphertext b v).
Proof.
  intros [_ Hb] [Hv _]. apply Forall_app. split; [|by apply (poly_compress_ok 128)].
  apply Forall_concat, Forall_map. eapply Forall_impl; [exact Hb|]. intros p [Hp _]. by apply (compress10_loop_ok 64).
Qed.

Lemma tomsg_byte_ok xs : is_u8 (tomsg_byte xs).
Proof.
  unfold tomsg_byte. assert (H : ∀ l m, is_u8 m → is_u8 (fold_left (λ m '(j, x), u8 (Z.lor m (Z.shiftl (tomsg_bit x) j))) l m)).
  { induction l as [|[j x] l IH]; intros m Hm; [done|]. apply IH, u8_range. }
  by apply H.
Qed.

Lemma tomsg_ok p : length (poly_tomsg p) = 32%nat ∧ bytes_ok (poly_tomsg p).
Proof.
  unfold poly_tomsg. change (KYBER_N / 8)%nat with 32%nat. generalize 32%nat. intros n. revert p.
  induction n as [|n IH]; intros p; [split; [done|constructor]|]. destruct (IH (drop 8 p)) as [Hl Hb]. cbn [tomsg_loop length].
  split; [by rewrite Hl|]. apply List.Forall_cons; [apply tomsg_byte_ok|done].
Qed.
