(* ===== verification/MlkemKem.v ===== *)
(** * MlkemKem: encapsulated secrets are recovered

    The public-key encryption of [indcpa.c] decrypts what it encrypted whenever the
    noise that the two parties and the rounding add stays below a quarter of q
    ([decryption_noise]), and the key encapsulation of [kem.c] then gives both sides the
    same secret; a ciphertext that was changed gives an unrelated one. The hash functions
    are any with outputs of the right length. *)

From S2P Require Import Prelude Mlkem NttRing MlkemNtt MlkemPack.

Local Open Scope Z_scope.
Local Open Scope mlkem_scope.

(** What is used of [symmetric.h]. *)
Class SymmetricLaws `{Symmetric} : Prop := {
  prf_ok : ∀ n key nonce, length (prf n key nonce) = n ∧ bytes_ok (prf n key nonce);
  hash_g_ok : ∀ m, length (hash_g m) = 64%nat ∧ bytes_ok (hash_g m);
  hash_h_ok : ∀ m, length (hash_h m) = 32%nat ∧ bytes_ok (hash_h m);
  rkprf_ok : ∀ key m, length (rkprf key m) = 32%nat ∧ bytes_ok (rkprf key m);
}.

(** ** The equation of decryption

    With residues for the matrix A, secrets s and r and errors e: the terms with the
    matrix cancel. *)
Lemma decryption_identity g a00 a01 a02 a10 a11 a12 a20 a21 a22 s0 s1 s2 e0 e1 e2 r0 r1 r2 f0 f1 f2 d0 d1 d2 h k dv :
  let s := [s0; s1; s2] in let r := [r0; r1; r2] in
  let t := [padd (pdot g [a00; a01; a02] s) e0; padd (pdot g [a10; a11; a12] s) e1; padd (pdot g [a20; a21; a22] s) e2] in
  let u := [padd (pdot g [a00; a10; a20] r) f0; padd (pdot g [a01; a11; a21] r) f1; padd (pdot g [a02; a12; a22] r) f2] in
  let v := padd (padd (pdot g t r) h) k in
  psub (padd v dv) (pdot g s (zip_with padd u [d0; d1; d2])) =
    padd k (psub (padd (padd (pdot g [e0; e1; e2] r) h) dv) (pdot g s [padd f0 d0; padd f1 d1; padd f2 d2])).
Proof. unfold pdot. cbn [zip_with foldr]. pring. Qed.

(** ** The steps of key generation, encryption and decryption *)

Lemma poly_in_weaken B B' p : B <= B' → poly_in B p → poly_in B' p.
Proof. intros H [Hl Hp]. split; [done|]. by eapply bounded_weaken. Qed.

Lemma vec_in_weaken B B' v : B <= B' → vec_in B v → vec_in B' v.
Proof. intros H [Hl Hv]. split; [done|]. eapply Forall_impl; [exact Hv|]. intros p. by apply poly_in_weaken. Qed.

Lemma poly_add_in A B a b : poly_in A a → poly_in B b → A + B <= 32767 → poly_add a b = ladd a b ∧ poly_in (A + B) (ladd a b).
Proof.
  intros [La Ba] [Lb Bb] H. destruct (poly_add_ok A B a b Ba Bb H) as [E Hb]; [congruence|]. rewrite E in Hb.
  split; [done|]. split; [rewrite length_ladd; congruence|done].
Qed.

Lemma poly_reduce_in B p : poly_in B p → B <= 32767 → poly_reduce p =l p ∧ poly_in 1664 (poly_reduce p).
Proof.
  intros [Lp Bp] H. destruct (poly_reduce_ok p) as [E Hb]; [by eapply bounded_weaken|].
  split; [done|]. split; [by rewrite (lcong_length _ _ E)|done].
Qed.

Lemma mont_cancel x : pscale MONT_R (pscale RINV x) =p x.
Proof.
  transitivity (pscale (MONT_R * RINV) x); [apply pcong_of_eq; pring|]. assert (E : MONT_R * RINV =q 1) by done. rewrite E.
  apply pcong_of_eq. pring.
Qed.

(** The product of a row of residues with a transformed vector. *)
Lemma acc_ntt_ok a s : vec_in 4096 a → vec_in KYBER_Q s →
  poly_in 1664 (polyvec_basemul_acc_montgomery a (polyvec_ntt s)) ∧
  ∀ i, (i < 128)%nat → res (polyvec_basemul_acc_montgomery a (polyvec_ntt s)) i =p
    pscale RINV (pdot (gamma i) (map (λ p, res p i) a) (map (ev (gamma i)) s)).
Proof.
  intros Ha Hs. destruct (basemul_acc_ok a (polyvec_ntt s) Ha (vec_in_map _ _ _ _ poly_in_ntt Hs)) as [H1 H2]. split; [done|].
  intros i Hi. rewrite H2 by done. by rewrite (pdot_cong _ _ _ _ _ (reflexivity _) (res_ntt_vec s i Hs Hi)).
Qed.

Lemma keygen_row a s e : vec_in 4096 a → vec_in KYBER_Q s → poly_in KYBER_Q e →
  let t := poly_reduce (poly_add (poly_tomont (polyvec_basemul_acc_montgomery a (polyvec_ntt s))) (poly_ntt e)) in
  poly_in 1664 t ∧ ∀ i, (i < 128)%nat → res t i =p padd (pdot (gamma i) (map (λ p, res p i) a) (map (ev (gamma i)) s)) (ev (gamma i) e).
Proof.
  intros Ha Hs He. destruct (acc_ntt_ok a s Ha Hs) as [[L B] R]. destruct (poly_tomont_ok _ (bounded_weaken 1664 32767 _ ltac:(lia) B)) as [E1 B1].
  assert (L1 : length (poly_tomont (polyvec_basemul_acc_montgomery a (polyvec_ntt s))) = 256%nat) by (rewrite (lcong_length _ _ E1), length_lscale; done).
  destruct He as [Le Be]. destruct (poly_ntt_ok e Le Be) as (L2 & B2 & R2).
  destruct (poly_add_in KYBER_Q 1664 _ _ (conj L1 B1) (conj L2 B2)) as [-> Hin]; [unfold KYBER_Q; lia|].
  destruct (poly_reduce_in _ _ Hin) as [E3 Hin3]; [unfold KYBER_Q; lia|]. split; [done|]. intros i Hi.
  rewrite (res_cong _ _ i E3), (res_ladd 128), R2 by done. rewrite (res_cong _ _ i E1), (res_lscale 128), R, mont_cancel by done. done.
Qed.

(** Back from the transform, with a small polynomial added. *)
Lemma enc_column a r f : vec_in 4096 a → vec_in KYBER_Q r → poly_in 2 f →
  let u := poly_add (poly_invntt_tomont (polyvec_basemul_acc_montgomery a (polyvec_ntt r))) f in
  poly_in 3331 u ∧ ∀ i, (i < 128)%nat → ev (gamma i) u =p padd (pdot (gamma i) (map (λ p, res p i) a) (map (ev (gamma i)) r)) (ev (gamma i) f).
Proof.
  intros Ha Hr Hf. destruct (acc_ntt_ok a r Ha Hr) as [[L B] R].
  destruct (invntt_ok _ L) as (L1 & B1 & R1); [eapply bounded_weaken; [|exact B]; unfold KYBER_Q; lia|]. unfold poly_invntt_tomont.
  destruct (poly_add_in KYBER_Q 2 _ _ (conj L1 B1) Hf) as [-> Hin]; [unfold KYBER_Q; lia|]. split; [exact Hin|]. intros i Hi.
  rewrite ev_ladd by (destruct Hf; congruence). by rewrite R1, R, mont_cancel by done.
Qed.

Lemma ev_reduce B p : poly_in B p → B <= 32767 → poly_in 1664 (poly_reduce p) ∧ ∀ g, ev g (poly_reduce p) =p ev g p.
Proof. intros Hp HB. destruct (poly_reduce_in B p Hp HB) as [E H]. split; [done|]. intros g. by apply ev_cong. Qed.

Lemma dec_value s b v : vec_in 4096 s → vec_in KYBER_Q b → poly_in KYBER_Q v →
  let mp := poly_reduce (poly_sub v (poly_invntt_tomont (polyvec_basemul_acc_montgomery s (polyvec_ntt b)))) in
  poly_in 1664 mp ∧ ∀ i, (i < 128)%nat → ev (gamma i) mp =p
    psub (ev (gamma i) v) (pdot (gamma i) (map (λ p, res p i) s) (map (ev (gamma i)) b)).
Proof.
  intros Hs Hb [Lv Bv]. destruct (acc_ntt_ok s b Hs Hb) as [[L B] R].
  destruct (invntt_ok _ L) as (L1 & B1 & R1); [eapply bounded_weaken; [|exact B]; unfold KYBER_Q; lia|]. unfold poly_invntt_tomont.
  set (w := invntt _) in *. destruct (poly_sub_ok KYBER_Q KYBER_Q v w Bv B1) as [E Hin]; [unfold KYBER_Q; lia|congruence|]. rewrite E in *.
  destruct (ev_reduce (KYBER_Q + KYBER_Q) (lsub v w)) as [H1 H2]; [split; [rewrite length_lsub; congruence|done]|unfold KYBER_Q; lia|].
  split; [done|]. intros i Hi. rewrite H2, ev_lsub by congruence. by rewrite R1, R, mont_cancel by done.
Qed.

(** ** Decryption *)

(** What is added to the message, from the secrets [s], [r], the errors [e], [f], [h] and
    the rounding of the ciphertext [(b, v)], as signed representatives. *)
Definition decryption_noise (s e r f : polyvec) (h : poly) (b : polyvec) (v : poly) : poly :=
  let du := zip_with lsub (map rounded10 b) b in
  let dv := lsub (rounded4 v) v in
  map centered (lsub (ladd (ladd (vdot e r) h) dv) (vdot s (zip_with ladd f du))).

Lemma ev_centered g l : ev g (map centered l) =p ev g l.
Proof.
  apply ev_cong; [done|]. induction l as [|x l IH]; cbn; constructor; [apply centered_cong|done].
Qed.

Lemma res_canonical p i : length p = 256%nat → res (canonical p) i =p res p i.
Proof. intros Hl. apply res_cong. by apply canonical_ok. Qed.

Lemma length_rounded p : length (rounded10 p) = length p ∧ length (rounded4 p) = length p.
Proof. unfold rounded10, rounded4. by rewrite !length_map. Qed.

(** An entry of the public key, and a polynomial of the ciphertext. *)
Definition key_row (s a : polyvec) (e : poly) : poly :=
  poly_reduce (poly_add (poly_tomont (polyvec_basemul_acc_montgomery a (polyvec_ntt s))) (poly_ntt e)).
Definition enc_col (r a : polyvec) (f : poly) : poly :=
  poly_add (poly_invntt_tomont (polyvec_basemul_acc_montgomery a (polyvec_ntt r))) f.

Section Polynomials.
  Context (m00 m01 m02 m10 m11 m12 m20 m21 m22 : poly) (s0 s1 s2 e0 e1 e2 r0 r1 r2 f0 f1 f2 h : poly) (msg : bytes).
Let matrix : list poly := [m00; m01; m02; m10; m11; m12; m20; m21; m22].
Let smalls : list poly := [s0; s1; s2; e0; e1; e2; r0; r1; r2; f0; f1; f2; h].
  Hypothesis Hmat : Forall (poly_in 3328) matrix.
  Hypothesis Hsmall : Forall (poly_in 2) smalls.
  Hypothesis Hmsg : length msg = 32%nat ∧ bytes_ok msg.

Let row (a0 a1 a2 e : poly) : poly := key_row [s0; s1; s2] [a0; a1; a2] e.
Let column (a : polyvec) (f : poly) : poly := enc_col [r0; r1; r2] a f.

Let t : polyvec := [row m00 m01 m02 e0; row m10 m11 m12 e1; row m20 m21 m22 e2].
Let b : polyvec := [poly_reduce (column [m00; m10; m20] f0); poly_reduce (column [m01; m11; m21] f1); poly_reduce (column [m02; m12; m22] f2)].
Let v : poly := poly_reduce (poly_add (column (map canonical t) h) (poly_frommsg msg)).

Lemma small_vec x y z : x ∈ smalls → y ∈ smalls →
  z ∈ smalls → vec_in KYBER_Q [x; y; z].
Proof. clear Hmsg.
  rewrite Forall_forall in Hsmall. intros Hx Hy Hz. apply (vec_in_weaken 2); [unfold KYBER_Q; lia|].
  split; [done|]. repeat (apply List.Forall_cons; [by apply Hsmall|]). constructor.
Qed.

Lemma mat_vec x y z : x ∈ matrix → y ∈ matrix →
  z ∈ matrix → vec_in 4096 [x; y; z].
Proof. clear Hmsg.
  rewrite Forall_forall in Hmat. intros Hx Hy Hz. apply (vec_in_weaken 3328); [lia|].
  split; [done|]. repeat (apply List.Forall_cons; [by apply Hmat|]). constructor.
Qed.

Lemma small_in x : x ∈ smalls → poly_in 2 x.
Proof. clear Hmsg. rewrite Forall_forall in Hsmall. apply Hsmall. Qed.

Ltac member := apply list_elem_of_In; unfold smalls, matrix; cbn [In]; tauto.

Lemma row_ok a0 a1 a2 e : a0 ∈ matrix → a1 ∈ matrix →
  a2 ∈ matrix → e ∈ smalls →
  poly_in 1664 (row a0 a1 a2 e) ∧ ∀ i, (i < 128)%nat → res (row a0 a1 a2 e) i =p
    padd (pdot (gamma i) [res a0 i; res a1 i; res a2 i] [ev (gamma i) s0; ev (gamma i) s1; ev (gamma i) s2]) (ev (gamma i) e).
Proof. clear Hmsg.
  intros H0 H1 H2 He. apply (keygen_row [a0; a1; a2] [s0; s1; s2] e); [by apply mat_vec|apply small_vec; member|].
  apply (poly_in_weaken 2); [unfold KYBER_Q; lia|by apply small_in].
Qed.

Lemma t_ok : vec_in 1664 t ∧ ∀ i, (i < 128)%nat → 
  let S := [ev (gamma i) s0; ev (gamma i) s1; ev (gamma i) s2] in
  map (λ p, res p i) t =ps [padd (pdot (gamma i) [res m00 i; res m01 i; res m02 i] S) (ev (gamma i) e0);
    padd (pdot (gamma i) [res m10 i; res m11 i; res m12 i] S) (ev (gamma i) e1);
    padd (pdot (gamma i) [res m20 i; res m21 i; res m22 i] S) (ev (gamma i) e2)].
Proof. clear Hmsg.
  destruct (row_ok m00 m01 m02 e0) as [I0 R0]; [member..|]. destruct (row_ok m10 m11 m12 e1) as [I1 R1]; [member..|].
  destruct (row_ok m20 m21 m22 e2) as [I2 R2]; [member..|]. split; [by split; [|repeat (apply List.Forall_cons; [done|])]|].
  intros i Hi. cbn [map t]. by repeat (constructor; [by auto|]).
Qed.

Lemma column_ok a f : vec_in 4096 a → f ∈ smalls →
  poly_in 3331 (column a f) ∧ ∀ i, (i < 128)%nat → ev (gamma i) (column a f) =p
    padd (pdot (gamma i) (map (λ p, res p i) a) [ev (gamma i) r0; ev (gamma i) r1; ev (gamma i) r2]) (ev (gamma i) f).
Proof. clear Hmsg. intros Ha Hf. apply (enc_column a [r0; r1; r2] f Ha); [apply small_vec; member|by apply small_in]. Qed.

Lemma reduced_column_ok a f : vec_in 4096 a → f ∈ smalls →
  poly_in 1664 (poly_reduce (column a f)) ∧ ∀ i, (i < 128)%nat → ev (gamma i) (poly_reduce (column a f)) =p
    padd (pdot (gamma i) (map (λ p, res p i) a) [ev (gamma i) r0; ev (gamma i) r1; ev (gamma i) r2]) (ev (gamma i) f).
Proof. clear Hmsg.
  intros Ha Hf. destruct (column_ok a f Ha Hf) as [H1 H2]. destruct (ev_reduce 3331 _ H1 ltac:(lia)) as [H3 H4].
  split; [done|]. intros i Hi. rewrite H4. by apply H2.
Qed.

Lemma b_ok : vec_in 1664 b ∧ ∀ i, (i < 128)%nat →
  let R := [ev (gamma i) r0; ev (gamma i) r1; ev (gamma i) r2] in
  map (ev (gamma i)) b =ps [padd (pdot (gamma i) [res m00 i; res m10 i; res m20 i] R) (ev (gamma i) f0);
    padd (pdot (gamma i) [res m01 i; res m11 i; res m21 i] R) (ev (gamma i) f1);
    padd (pdot (gamma i) [res m02 i; res m12 i; res m22 i] R) (ev (gamma i) f2)].
Proof. clear Hmsg.
  destruct (reduced_column_ok [m00; m10; m20] f0) as [I0 R0]; [apply mat_vec; member|member|].
  destruct (reduced_column_ok [m01; m11; m21] f1) as [I1 R1]; [apply mat_vec; member|member|].
  destruct (reduced_column_ok [m02; m12; m22] f2) as [I2 R2]; [apply mat_vec; member|member|].
  split; [by split; [|repeat (apply List.Forall_cons; [done|])]|]. intros i Hi. cbn [map b]. by repeat (constructor; [by auto|]).
Qed.

Lemma canonical_vec w : vec_in 1664 w → vec_in 3328 (map canonical w) ∧ ∀ i, map (λ p, res p i) (map canonical w) =ps map (λ p, res p i) w.
Proof.
  intros Hw. split.
  - apply (vec_in_map 1664); [|done]. intros p [Hp _]. by apply canonical_ok.
  - intros i. destruct Hw as [_ Hw]. rewrite map_map. induction Hw as [|p w [Hp _] _ IH]; [constructor|]. cbn [map].
    constructor; [by apply res_canonical|exact IH].
Qed.

Lemma v_ok : poly_in 1664 v ∧ ∀ i, (i < 128)%nat → ev (gamma i) v =p
  padd (padd (pdot (gamma i) (map (λ p, res p i) t) [ev (gamma i) r0; ev (gamma i) r1; ev (gamma i) r2]) (ev (gamma i) h))
       (ev (gamma i) (poly_frommsg msg)).
Proof.
  destruct t_ok as [Ht _]. destruct (canonical_vec t Ht) as [Hc Rc].
  destruct (column_ok (map canonical t) h) as [H1 H2]; [by apply (vec_in_weaken 3328)|member|].
  pose proof (frommsg_in msg (proj1 Hmsg)) as Hm. destruct (poly_add_in 3331 1665 _ _ H1 Hm) as [E H3]; [lia|].
  destruct (ev_reduce _ _ H3) as [H4 H5]; [lia|]. unfold v. rewrite E. split; [done|]. intros i Hi. rewrite H5, ev_ladd by (destruct H1, Hm; congruence).
  rewrite H2 by done. by rewrite (pdot_cong _ _ _ _ _ (Rc i) (reflexivity _)).
Qed.

Lemma ev_pieces p q g : length p = length q → ev g p = padd (ev g q) (ev g (lsub p q)).
Proof. intros Hl. rewrite ev_lsub by done. pring. Qed.

Lemma rounded_b_ok : vec_in KYBER_Q (map rounded10 b) ∧ ∀ g,
  map (ev g) (map rounded10 b) = zip_with padd (map (ev g) b) (map (ev g) (zip_with lsub (map rounded10 b) b)).
Proof.
  destruct b_ok as [Hb _]. split; [apply (vec_in_map 1664); [|done]; intros p [Hp _]; by apply rounded10_in|].
  intros g. clear Hb. induction b as [|p w IH]; [done|]. cbn [map zip_with]. f_equal; [|done]. apply ev_pieces. apply length_rounded.
Qed.

Lemma errors_ok : let du := zip_with lsub (map rounded10 b) b in
  Forall (λ p, length p = 256%nat) (zip_with ladd [f0; f1; f2] du) ∧ length du = 3%nat ∧
  ∀ g, map (ev g) (zip_with ladd [f0; f1; f2] du) = zip_with padd [ev g f0; ev g f1; ev g f2] (map (ev g) du).
Proof.
  destruct b_ok as [(b0 & b1 & b2 & Eb & [L0 _] & [L1 _] & [L2 _])%vec_in_3 _]. rewrite Eb. cbn [map zip_with].
  destruct (small_in f0) as [F0 _]; [member|]. destruct (small_in f1) as [F1 _]; [member|]. destruct (small_in f2) as [F2 _]; [member|].
  destruct (length_rounded b0) as [R0 _], (length_rounded b1) as [R1 _], (length_rounded b2) as [R2 _].
  split; [|split; [done|intros g; rewrite !ev_ladd by (rewrite length_lsub; congruence); done]].
  repeat (apply List.Forall_cons; [rewrite length_ladd by (rewrite length_lsub; congruence); rewrite length_lsub; congruence|]). constructor.
Qed.

Lemma noise_ok : let noise := decryption_noise [s0; s1; s2] [e0; e1; e2] [r0; r1; r2] [f0; f1; f2] h b v in
  length noise = 256%nat ∧ ∀ i, (i < 128)%nat → let g := gamma i in
    ev g noise =p psub (padd (padd (pdot g [ev g e0; ev g e1; ev g e2] [ev g r0; ev g r1; ev g r2]) (ev g h)) (ev g (lsub (rounded4 v) v)))
                    (pdot g [ev g s0; ev g s1; ev g s2] (zip_with padd [ev g f0; ev g f1; ev g f2] (map (ev g) (zip_with lsub (map rounded10 b) b)))).
Proof.
  destruct errors_ok as (Hf & Hdu & Ef). destruct v_ok as [[Lv _] _]. unfold decryption_noise. cbv zeta.
  set (du := zip_with lsub (map rounded10 b) b) in *. set (dv := lsub (rounded4 v) v).
  assert (Ldv : length dv = 256%nat) by (unfold dv; rewrite length_lsub; [done|apply length_rounded]).
  destruct (small_in h) as [Lh _]; [member|].
  destruct (vdot_ok [e0; e1; e2] [r0; r1; r2] eq_refl) as [L1 R1].
  { pose proof (small_in r0 ltac:(member)) as [? _]. pose proof (small_in r1 ltac:(member)) as [? _]. pose proof (small_in r2 ltac:(member)) as [? _].
    by repeat (apply List.Forall_cons; [done|]). }
  destruct (vdot_ok [s0; s1; s2] (zip_with ladd [f0; f1; f2] du)) as [L2 R2]; [rewrite length_zip_with, Hdu; done|done|].
  set (er := vdot [e0; e1; e2] [r0; r1; r2]) in *. set (sf := vdot [s0; s1; s2] _) in *.
  assert (L3 : length (ladd er h) = 256%nat) by (rewrite length_ladd; congruence).
  assert (L4 : length (ladd (ladd er h) dv) = 256%nat) by (rewrite length_ladd; congruence).
  split; [rewrite length_map, length_lsub; congruence|]. intros i Hi. cbv zeta.
  rewrite ev_centered, ev_lsub, !ev_ladd by congruence. rewrite R1, R2, Ef by done. done.
Qed.

(** The decrypted polynomial is the message with the noise. *)
Lemma decrypts : bounded 831 (decryption_noise [s0; s1; s2] [e0; e1; e2] [r0; r1; r2] [f0; f1; f2] h b v) →
  poly_tomsg (poly_reduce (poly_sub (rounded4 v) (poly_invntt_tomont
    (polyvec_basemul_acc_montgomery (map canonical (polyvec_ntt [s0; s1; s2])) (polyvec_ntt (map rounded10 b)))))) = msg.
Proof.
  intros Hn. destruct noise_ok as [Ln Rn]. destruct v_ok as [[Lv _] Rv]. destruct rounded_b_ok as [Hrb Erb]. destruct b_ok as [_ Rb].
  destruct t_ok as [_ Rt]. pose proof (small_vec s0 s1 s2 ltac:(member) ltac:(member) ltac:(member)) as Hs.
  destruct (canonical_vec _ (vec_in_map _ _ _ _ poly_in_ntt Hs)) as [Hc Rc].
  destruct (dec_value _ _ _ (vec_in_weaken 3328 4096 _ ltac:(lia) Hc) Hrb (rounded4_in v Lv)) as [[Lm Bm] Rm].
  pose proof (frommsg_in msg (proj1 Hmsg)) as [Lk _].
  apply (tomsg_frommsg msg _ _ (proj1 Hmsg) (proj2 Hmsg) Ln Hn Bm). apply residues_inj; [done|rewrite length_ladd; congruence|].
  intros g Hg. apply list_elem_of_In, (In_nth _ _ 0) in Hg as (i & Hi & <-). change (nth i gammas 0) with (gamma i). change (length gammas) with 128%nat in Hi.
  rewrite Rm, ev_ladd, Rn, Erb by (done || congruence). rewrite (ev_pieces (rounded4 v) v) by apply length_rounded. rewrite Rv by done.
  pose proof (Rc i) as Es. rewrite (res_ntt_vec _ i Hs Hi) in Es.
  rewrite (pdot_cong _ _ _ _ _ (Rt i Hi) (reflexivity _)), (pdot_cong _ _ _ _ _ Es (reflexivity _)).
  destruct errors_ok as (_ & Hdu & _). destruct (zip_with lsub (map rounded10 b) b) as [|d0 [|d1 [|d2 [|]]]]; try discriminate.
  assert (Ebz : ∀ x y z : list residue, x =ps y → zip_with padd x z =ps zip_with padd y z).
  { clear. intros x y z Hxy. revert z. induction Hxy as [|p q x y Hp _ IH]; intros [|w z]; cbn; try constructor; [by rewrite Hp|apply IH]. }
  rewrite (pdot_cong _ _ _ _ _ (reflexivity _) (Ebz _ _ _ (Rb i Hi))). apply pcong_of_eq. cbn [map zip_with]. apply decryption_identity.
Qed.
End Polynomials.

(** ** The scheme *)

(** Comparison and selection in constant time. *)
Lemma verify_ok a b : length a = length b → bytes_ok a → bytes_ok b → verify a b = if bytes_eqb a b then 0 else 1.
Proof.
  intros Hl Ha Hb. unfold verify.
  assert (H : ∀ r, is_u8 r → let f := fold_left (λ r '(x, y), u8 (Z.lor r (Z.lxor x y))) (zip a b) r in is_u8 f ∧ (f = 0 ↔ r = 0 ∧ a = b)).
  { revert b Hl Hb. induction Ha as [|x a Hx Ha IH]; intros [|y b] Hl Hb r Hr; try discriminate; cbn [zip zip_with fold_left].
    - split; [done|]. split; [done|by intros [? _]].
    - apply Forall_cons in Hb as [Hy Hb]. pose proof (is_u8_lxor x y Hx Hy) as Hxy. pose proof (lor_range 8 r (Z.lxor x y) ltac:(lia) Hr Hxy) as Hlor.
      rewrite u8_small by done. destruct (IH b ltac:(by injection Hl) Hb _ Hlor) as [I1 I2]. split; [done|]. rewrite I2, Z.lor_eq_0_iff, Z.lxor_eq_0_iff.
      split; [by intros [[-> ->] ->]|]. by intros [-> [= -> ->]]. }
  destruct (H 0 ltac:(done)) as [H1 H2]. set (f := fold_left _ _ _) in *. unfold bytes_eqb. case_bool_decide as E.
  - rewrite (proj2 H2) by done. done.
  - assert (Hf : f ≠ 0) by (intros Hf; apply E; by apply H2). unfold is_u8 in H1. rewrite Z.shiftr_div_pow2 by lia. unfold u64.
    replace ((- f) mod 2 ^ 64) with (2 ^ 64 - f) by (apply (Z.mod_unique_pos _ _ (-1)); lia). symmetry. apply (Z.div_unique_pos _ _ _ (2 ^ 63 - f)); lia.
Qed.

Lemma cmov_ok r x b : length r = length x → bytes_ok r → bytes_ok x → b = 0 ∨ b = 1 → cmov r x b = if b =? 1 then x else r.
Proof.
  intros Hl Hr Hx Hb. unfold cmov. assert (Hmask : ∀ z, is_u8 z → Z.land 255 z = z).
  { intros z Hz. rewrite Z.land_comm. rewrite (Z.land_ones z 8 ltac:(lia) : Z.land z 255 = _). by apply Z.mod_small. }
  revert x Hl Hx. induction Hr as [|y r Hy Hr IH]; intros [|z x] Hl Hx; try discriminate; [by destruct (b =? 1)|].
  apply Forall_cons in Hx as [Hz Hx]. cbn [zip_with]. rewrite (IH x) by (done || by injection Hl).
  destruct Hb as [-> | ->]; cbn [Z.eqb Pos.eqb]; f_equal.
  - change (u8 (- 0)) with 0. by rewrite Z.land_0_l, Z.lxor_0_r.
  - change (u8 (- (1))) with 255. rewrite Hmask by (by apply is_u8_lxor). by rewrite <- Z.lxor_assoc, Z.lxor_nilpotent, Z.lxor_0_l.
Qed.

Section Scheme.
  Context `{SymmetricLaws}.

Lemma getnoise_in seed n : poly_in 2 (poly_getnoise_eta1 seed n).
Proof. destruct (prf_ok 128 seed n) as [Hl Hb]. destruct (cbd2_in 32 (prf 128 seed n) Hl Hb) as [? ?]. done. Qed.

(** The two seeds of a key, and its secret and error vectors. *)
Definition key_seeds (d : bytes) : bytes * bytes := let buf := hash_g (take 32 d ++ [Z.of_nat KYBER_K]) in (take 32 buf, drop 32 buf).
Definition key_secret (d : bytes) : polyvec := map (poly_getnoise_eta1 (key_seeds d).2) [0; 1; 2].
Definition key_errors (d : bytes) : polyvec := map (poly_getnoise_eta1 (key_seeds d).2) [3; 4; 5].

(** The noise when the message encrypted as [(b, v)] with [coins] is decrypted with the key
    of [d]. *)
Definition noise_of (d coins : bytes) (b : polyvec) (v : poly) : poly :=
  decryption_noise (key_secret d) (key_errors d) (map (poly_getnoise_eta1 coins) [0; 1; 2])
    (map (poly_getnoise_eta2 coins) [3; 4; 5]) (poly_getnoise_eta2 coins 6) b v.

Lemma unpack_pk_app t seed rest : vec_in 1664 t → length seed = 32%nat →
  unpack_pk ((polyvec_tobytes t ++ seed) ++ rest) = (map canonical t, seed).
Proof.
  intros Ht Hs. destruct (frombytes_tobytes_vec 1664 t (seed ++ rest) Ht ltac:(lia)) as (E & Hl & _). unfold unpack_pk. rewrite <- app_assoc, E.
  f_equal. unfold slice. rewrite drop_app_length', take_app_length' by done. done.
Qed.

Lemma getnoise_vec co x y z : vec_in KYBER_Q [poly_getnoise_eta1 co x; poly_getnoise_eta1 co y; poly_getnoise_eta1 co z].
Proof.
  apply (vec_in_weaken 2); [unfold KYBER_Q; lia|]. split; [done|]. repeat (apply List.Forall_cons; [apply getnoise_in|]). constructor.
Qed.

Lemma key_seed_ok d : length (key_seeds d).1 = 32%nat ∧ bytes_ok (key_seeds d).1.
Proof.
  destruct (hash_g_ok (take 32 d ++ [Z.of_nat KYBER_K])) as [Hl Hb]. cbn [key_seeds fst]. rewrite length_take.
  split; [lia|by apply Forall_take].
Qed.

(** The key pair of a matrix. *)
Definition public_of (s0 s1 s2 e0 e1 e2 m00 m01 m02 m10 m11 m12 m20 m21 m22 : poly) : polyvec :=
  [key_row [s0; s1; s2] [m00; m01; m02] e0; key_row [s0; s1; s2] [m10; m11; m12] e1; key_row [s0; s1; s2] [m20; m21; m22] e2].

Lemma keypair_form fuel d pk sk : indcpa_keypair_derand fuel d = Some (pk, sk) →
  let g := poly_getnoise_eta1 (key_seeds d).2 in
  ∃ m00 m01 m02 m10 m11 m12 m20 m21 m22,
    Forall (poly_in 3328) [m00; m01; m02; m10; m11; m12; m20; m21; m22] ∧
    gen_matrix fuel (key_seeds d).1 true = Some [[m00; m10; m20]; [m01; m11; m21]; [m02; m12; m22]] ∧
    pk = polyvec_tobytes (public_of (g 0) (g 1) (g 2) (g 3) (g 4) (g 5) m00 m01 m02 m10 m11 m12 m20 m21 m22) ++ (key_seeds d).1 ∧
    sk = polyvec_tobytes (polyvec_ntt [g 0; g 1; g 2]).
Proof.
  intros Hk g. destruct (gen_matrix fuel (key_seeds d).1 false) as [a|] eqn:Ea.
  2: { unfold indcpa_keypair_derand in Hk. change (take 32 (hash_g (take 32 d ++ [Z.of_nat KYBER_K]))) with (key_seeds d).1 in Hk. by rewrite Ea in Hk. }
  destruct (gen_matrix_ok fuel _ _ Ea) as (m00 & m01 & m02 & m10 & m11 & m12 & m20 & m21 & m22 & Hm & -> & Eat).
  exists m00, m01, m02, m10, m11, m12, m20, m21, m22. split; [done|]. split; [done|].
  set (t := public_of _ _ _ _ _ _ _ _ _ _ _ _ _ _ _).
  assert (E : indcpa_keypair_derand fuel d = Some (polyvec_tobytes t ++ (key_seeds d).1, polyvec_tobytes (polyvec_ntt [g 0; g 1; g 2]))).
  { unfold indcpa_keypair_derand. change (take 32 (hash_g (take 32 d ++ [Z.of_nat KYBER_K]))) with (key_seeds d).1. rewrite Ea. reflexivity. }
  rewrite E in Hk. clearbody t. split; congruence.
Qed.

Lemma indcpa_ok fuel d pk sk : indcpa_keypair_derand fuel d = Some (pk, sk) →
  length pk = 1184%nat ∧ length sk = 1152%nat ∧ bytes_ok pk ∧ bytes_ok sk ∧
  ∀ msg coins, length msg = 32%nat → bytes_ok msg → ∃ b v, poly_in 1664 v ∧ vec_in 1664 b ∧
    (∀ rest, enc_polys fuel msg (pk ++ rest) coins = Some (b, v)) ∧
    (∀ rest, bounded 831 (noise_of d coins b v) → indcpa_dec (pack_ciphertext b v) (sk ++ rest) = msg).
Proof.
  intros Hk. destruct (keypair_form _ _ _ _ Hk) as (m00 & m01 & m02 & m10 & m11 & m12 & m20 & m21 & m22 & Hm & Eat & -> & ->). clear Hk.
  unfold noise_of, key_secret, key_errors. destruct (key_seed_ok d) as [Hl Hb]. set (seed := (key_seeds d).1) in *. set (g := poly_getnoise_eta1 (key_seeds d).2).
  set (t := public_of _ _ _ _ _ _ _ _ _ _ _ _ _ _ _).
  assert (Hs : vec_in 1664 (polyvec_ntt [g 0; g 1; g 2])) by (eapply vec_in_map; [exact poly_in_ntt|apply getnoise_vec]).
  destruct (t_ok m00 m01 m02 m10 m11 m12 m20 m21 m22 (g 0) (g 1) (g 2) (g 3) (g 4) (g 5) (g 0) (g 0) (g 0) (g 0) (g 0) (g 0) (g 0) Hm) as [Ht _].
  { repeat (apply List.Forall_cons; [apply getnoise_in|]). constructor. }
  change (vec_in 1664 t) in Ht.
  destruct (frombytes_tobytes_vec _ _ [] Ht ltac:(lia)) as (_ & Lt & Bt). destruct (frombytes_tobytes_vec _ _ [] Hs ltac:(lia)) as (_ & Ls & Bs).
  split; [rewrite length_app; lia|]. split; [done|]. split; [by apply Forall_app|]. split; [done|]. intros msg coins Hml Hmb.
  set (r := poly_getnoise_eta1 coins).
  assert (Hsmall : Forall (poly_in 2) [g 0; g 1; g 2; g 3; g 4; g 5; r 0; r 1; r 2; r 3; r 4; r 5; r 6]).
  { repeat (apply List.Forall_cons; [apply getnoise_in|]). constructor. }
  set (b := [poly_reduce (enc_col [r 0; r 1; r 2] [m00; m10; m20] (r 3)); poly_reduce (enc_col [r 0; r 1; r 2] [m01; m11; m21] (r 4));
             poly_reduce (enc_col [r 0; r 1; r 2] [m02; m12; m22] (r 5))]).
  set (v := poly_reduce (poly_add (enc_col [r 0; r 1; r 2] (map canonical t) (r 6)) (poly_frommsg msg))).
  destruct (b_ok _ _ _ _ _ _ _ _ _ _ _ _ _ _ _ _ _ _ _ _ _ _ Hm Hsmall) as [Hb' _]. change (vec_in 1664 b) in Hb'.
  destruct (v_ok _ _ _ _ _ _ _ _ _ _ _ _ _ _ _ _ _ _ _ _ _ _ msg Hm Hsmall (conj Hml Hmb)) as [Hv _]. change (poly_in 1664 v) in Hv.
  pose proof (decrypts _ _ _ _ _ _ _ _ _ _ _ _ _ _ _ _ _ _ _ _ _ _ msg Hm Hsmall (conj Hml Hmb)) as Hd.
  exists b, v. split; [done|]. split; [done|]. split; intros rest.
  - unfold enc_polys. rewrite unpack_pk_app by done. rewrite Eat. cbn [mbind option_bind].
    change poly_getnoise_eta2 with poly_getnoise_eta1. unfold b, v, enc_col. fold r.
    cbn [map polyvec_ntt polyvec_add polyvec_reduce polyvec_invntt_tomont zip_with]. reflexivity.
  - intros Hn. destruct (unpack_pack_ciphertext _ _ _ Hb' Hv) as [Eu _]. unfold indcpa_dec, unpack_sk. rewrite Eu.
    destruct (frombytes_tobytes_vec _ _ rest Hs ltac:(lia)) as (-> & _). exact (Hd Hn).
Qed.
(** [indcpa_enc] with the key at the front of a buffer. *)
Lemma indcpa_enc_ok fuel d pk sk msg coins : indcpa_keypair_derand fuel d = Some (pk, sk) → length msg = 32%nat → bytes_ok msg →
  ∃ ct, length ct = 1088%nat ∧ bytes_ok ct ∧ ∀ rest, indcpa_enc fuel msg (pk ++ rest) coins = Some ct.
Proof.
  intros Hk Hl Hb. destruct (indcpa_ok _ _ _ _ Hk) as (_ & _ & _ & _ & He). destruct (He msg coins Hl Hb) as (b & v & Hv & Hb' & E & _).
  exists (pack_ciphertext b v). split; [by eapply unpack_pack_ciphertext|]. split; [by eapply pack_ciphertext_ok|].
  intros rest. unfold indcpa_enc. by rewrite E.
Qed.

(** The parts of a decapsulation key. *)
Lemma keypair_parts fuel coins pk sk : crypto_kem_keypair_derand fuel coins = Some (pk, sk) → ∃ s,
  indcpa_keypair_derand fuel coins = Some (pk, s) ∧ sk = s ++ pk ++ hash_h pk ++ slice 32 32 coins ∧ length pk = 1184%nat ∧
  drop 1152 sk = pk ++ hash_h pk ++ slice 32 32 coins ∧ slice 2336 32 sk = hash_h pk ∧
  (length coins = 64%nat → slice 2368 32 sk = slice 32 32 coins).
Proof.
  unfold crypto_kem_keypair_derand. destruct (indcpa_keypair_derand fuel coins) as [[pk' s]|] eqn:E; [|discriminate].
  cbn [mbind option_bind]. intros [= -> <-]. destruct (indcpa_ok _ _ _ _ E) as (Lp & Ls & _). destruct (hash_h_ok pk) as [Lh _].
  exists s. split; [done|]. split; [done|]. split; [done|]. unfold slice.
  split; [by apply drop_app_length'|]. split.
  - rewrite app_assoc, drop_app_length' by (rewrite length_app; lia). by apply take_app_length'.
  - intros Hc. rewrite !app_assoc, drop_app_length' by (rewrite !length_app; lia). apply take_ge. rewrite length_take. lia.
Qed.

Lemma kem_enc_eq fuel pk m : length m = 32%nat → length pk = 1184%nat →
  let kr := hash_g (m ++ hash_h pk) in
  crypto_kem_enc_derand fuel pk m = (ct ← indcpa_enc fuel m pk (drop 32 kr); Some (ct, take 32 kr)).
Proof.
  intros Hm Hp kr. unfold crypto_kem_enc_derand. rewrite !(take_ge m), !(take_ge pk) by lia. by rewrite take_app_length'.
Qed.

(** Decapsulation recovers a message, encrypts it again, and compares. *)
Lemma kem_dec_eq fuel coins pk sk ct : crypto_kem_keypair_derand fuel coins = Some (pk, sk) → length coins = 64%nat →
  length ct = 1088%nat → bytes_ok ct → ∃ ct' K, crypto_kem_enc_derand fuel pk (indcpa_dec ct sk) = Some (ct', K) ∧
    crypto_kem_dec fuel ct sk = Some (if bytes_eqb ct ct' then K else rkprf (slice 32 32 coins) ct).
Proof.
  intros Hk Hc Hl Hb. destruct (keypair_parts _ _ _ _ Hk) as (s & Hi & Esk & Lp & Ed & Eh & Ez). specialize (Ez Hc).
  destruct (tomsg_ok (poly_reduce (poly_sub (unpack_ciphertext ct).2 (poly_invntt_tomont (polyvec_basemul_acc_montgomery (unpack_sk sk)
    (polyvec_ntt (unpack_ciphertext ct).1)))))) as [Lm Bm].
  change (poly_tomsg _) with (indcpa_dec ct sk) in Lm, Bm. rewrite (kem_enc_eq fuel pk _ Lm Lp). unfold crypto_kem_dec.
  set (m := indcpa_dec ct sk) in *. rewrite Ed, (Eh : slice (2400 - 64) 32 sk = _), (Ez : slice (2400 - 32) 32 sk = _), (take_ge ct), take_app_length' by lia.
  set (kr := hash_g (m ++ hash_h pk)). destruct (hash_g_ok (m ++ hash_h pk)) as [Lg Bg]. fold kr in Lg, Bg.
  destruct (indcpa_enc_ok _ _ _ _ m (drop 32 kr) Hi Lm Bm) as (ct' & Lc & Bc & E). rewrite (E (hash_h pk ++ slice 32 32 coins)).
  pose proof (E []) as E0. rewrite app_nil_r in E0. rewrite E0. cbn [mbind option_bind]. exists ct', (take 32 kr). split; [done|].
  destruct (rkprf_ok (slice 32 32 coins) ct) as [Lr Br]. rewrite verify_ok by (congruence || done). f_equal.
  assert (Lt : length (take 32 kr) = 32%nat) by (rewrite length_take; lia). pose proof (Forall_take _ 32 _ Bg : bytes_ok (take 32 kr)) as Bt.
  destruct (bytes_eqb ct ct'); by rewrite cmov_ok by (congruence || done || by auto).
Qed.

(** The noise of the encapsulation with [m] to the key of [coins]. *)
Definition kem_noise (fuel : nat) (coins pk m : bytes) : option poly :=
  let r := drop 32 (hash_g (m ++ hash_h pk)) in
  '(b, v) ← enc_polys fuel m pk r; Some (noise_of coins r b v).

Lemma kem_exchange fuel coins pk sk m : crypto_kem_keypair_derand fuel coins = Some (pk, sk) → length coins = 64%nat →
  length m = 32%nat → bytes_ok m → ∃ ct ss noise, crypto_kem_enc_derand fuel pk m = Some (ct, ss) ∧
    length ct = 1088%nat ∧ bytes_ok ct ∧ length ss = 32%nat ∧ kem_noise fuel coins pk m = Some noise ∧
    (bounded 831 noise → crypto_kem_dec fuel ct sk = Some ss).
Proof.
  intros Hk Hc Hm Hb. destruct (keypair_parts _ _ _ _ Hk) as (s & Hi & Esk & Lp & _). destruct (indcpa_ok _ _ _ _ Hi) as (_ & _ & _ & _ & He).
  unfold kem_noise. rewrite (kem_enc_eq fuel pk m Hm Lp). unfold indcpa_enc. set (kr := hash_g (m ++ hash_h pk)).
  destruct (He m (drop 32 kr) Hm Hb) as (b & v & Hv & Hb' & E & Hd). pose proof (E []) as E0. rewrite app_nil_r in E0. rewrite E0.
  cbn [mbind option_bind]. exists (pack_ciphertext b v), (take 32 kr), (noise_of coins (drop 32 kr) b v).
  destruct (unpack_pack_ciphertext _ _ _ Hb' Hv) as [_ Lct]. split; [done|]. split; [done|].
  split; [by eapply pack_ciphertext_ok|].
  split; [unfold kr; by rewrite length_take, (proj1 (hash_g_ok _))|]. split; [done|]. intros Hn.
  destruct (kem_dec_eq _ _ _ _ (pack_ciphertext b v) Hk Hc Lct (pack_ciphertext_ok _ _ _ Hb' Hv)) as (ct' & K & E1 & ->).
  rewrite Esk, Hd in E1 by done. rewrite (kem_enc_eq fuel pk m Hm Lp) in E1. unfold indcpa_enc in E1. fold kr in E1. rewrite E0 in E1.
  cbn [mbind option_bind] in E1. injection E1 as <- <-. unfold bytes_eqb. by rewrite bool_decide_true.
Qed.
(** C5. Encapsulation and decapsulation agree. For every key pair that key generation
    returns and every 32 random bytes, encapsulation returns a ciphertext of 1088 bytes and
    a secret of 32, and if the coefficients of the noise between the two parties stay
    below a quarter of the modulus, decapsulation of the ciphertext returns the secret. *)
Theorem kem_agrees fuel coins pk sk m : crypto_kem_keypair_derand fuel coins = Some (pk, sk) → length coins = 64%nat →
  length m = 32%nat → bytes_ok m → ∃ ct ss noise, crypto_kem_enc_derand fuel pk m = Some (ct, ss) ∧
    length ct = 1088%nat ∧ length ss = 32%nat ∧ kem_noise fuel coins pk m = Some noise ∧
    (bounded 831 noise → crypto_kem_dec fuel ct sk = Some ss).
Proof.
  intros Hk Hc Hm Hb. destruct (kem_exchange fuel coins pk sk m Hk Hc Hm Hb) as (ct & ss & noise & E1 & E2 & _ & E3). by exists ct, ss, noise.
Qed.

(** C15. Implicit rejection. With a key pair that key generation returned, decapsulation
    of any 1088 bytes returns a secret: either the bytes are an encapsulation of that secret
    to the key, or they are not the encapsulation of the message they decrypt to, and the secret is
    the pseudorandom function of the ciphertext under the seed z of the key. *)
Theorem decapsulate_rejects fuel coins pk sk ct : moor_kem_keygen fuel coins = Some (pk, sk) → length coins = 64%nat →
  length ct = 1088%nat → bytes_ok ct → ∃ ss, moor_kem_decapsulate fuel ct sk = Some ss ∧
    (moor_kem_encapsulate fuel (indcpa_dec ct sk) pk = Some (ct, ss) ∨
     ss = rkprf (slice 32 32 coins) ct ∧ ∀ ss', moor_kem_encapsulate fuel (indcpa_dec ct sk) pk ≠ Some (ct, ss')).
Proof.
  intros Hk Hc Hl Hb. destruct (kem_dec_eq _ _ _ _ ct Hk Hc Hl Hb) as (ct' & K & E & Ed). unfold moor_kem_decapsulate, moor_kem_encapsulate.
  rewrite Ed, E. eexists. split; [done|]. unfold bytes_eqb. case_bool_decide as Ec; [left; congruence|]. right. split; [done|]. congruence.
Qed.
End Scheme.

(** ** An instance

    With hash functions whose output is constant and zero where polynomials come from, the
    matrix, the secrets and the errors are zero, and so is the noise of the zero message. *)
Module ToyHash.
#[export] Instance toy_symmetric : Symmetric := {|
  xof_state := unit;
  xof_absorb := λ _ _ _, tt;
  xof_squeezeblock := λ _, (zeros 168, tt);
  hash_h := λ _, zeros 32;
  hash_g := λ _, replicate 64 1;
  prf := λ n _ _, zeros n;
  rkprf := λ _ _, zeros 32;
|}.

Lemma zeros_ok n : length (zeros n) = n ∧ bytes_ok (zeros n).
Proof. split; [apply length_replicate|]. by apply Forall_replicate. Qed.

#[export] Instance toy_laws : SymmetricLaws.
Proof. split; intros; [apply zeros_ok| |apply zeros_ok..]. split; [done|by apply Forall_replicate]. Qed.

(** The key pair of the zero seed. *)
Definition toy_pk : bytes := zeros 1152 ++ replicate 32 1.
Definition toy_sk : bytes := zeros 1152 ++ toy_pk ++ zeros 64.

Lemma matrix seed t : gen_matrix 0 seed t = Some [[zeros 256; zeros 256; zeros 256]; [zeros 256; zeros 256; zeros 256]; [zeros 256; zeros 256; zeros 256]].
Proof. destruct t; by vm_compute. Qed.

Lemma noise seed n : poly_getnoise_eta1 seed n = zeros 256.
Proof. by vm_compute. Qed.

(** The transforms take zero to zero. *)
Lemma zero_ntt : poly_ntt (zeros 256) = zeros 256.
Proof. by vm_compute. Qed.

Lemma zero_acc : polyvec_basemul_acc_montgomery [zeros 256; zeros 256; zeros 256] [zeros 256; zeros 256; zeros 256] = zeros 256.
Proof. by vm_compute. Qed.

Lemma zero_invntt : poly_invntt_tomont (zeros 256) = zeros 256.
Proof. by vm_compute. Qed.
Lemma keypair : crypto_kem_keypair_derand 0 (zeros 64) = Some (toy_pk, toy_sk).
Proof.
  unfold crypto_kem_keypair_derand, indcpa_keypair_derand. rewrite matrix. cbn [mbind option_bind map polyvec_ntt].
  rewrite !noise, !zero_ntt, zero_acc. by vm_compute.
Qed.

Lemma encrypted r : enc_polys 0 (zeros 32) toy_pk r = Some ([zeros 256; zeros 256; zeros 256], zeros 256).
Proof.
  assert (Et : unpack_pk toy_pk = ([zeros 256; zeros 256; zeros 256], replicate 32 1)) by (by vm_compute).
  unfold enc_polys. rewrite Et, matrix. change poly_getnoise_eta2 with poly_getnoise_eta1.
  cbn [mbind option_bind map polyvec_ntt polyvec_invntt_tomont]. rewrite !noise, !zero_ntt, zero_acc, zero_invntt. by vm_compute.
Qed.

Lemma silent : ∃ noise, kem_noise 0 (zeros 64) toy_pk (zeros 32) = Some noise ∧ bounded 831 noise.
Proof.
  unfold kem_noise. rewrite encrypted. cbn [mbind option_bind]. eexists. split; [done|].
  apply (Forall_impl (λ x, (Z.abs x <=? 831) = true)); [|intros x Hx; apply Z.leb_le in Hx; unfold within; lia].
  apply Forall_forall. intros x Hx. apply list_elem_of_In in Hx. revert x Hx. apply forallb_forall. by vm_compute.
Qed.
End ToyHash.

#[local] Existing Instance ToyHash.toy_symmetric.
#[local] Existing Instance ToyHash.toy_laws.

Lemma kem_agrees_witness : ∃ ct ss, crypto_kem_enc_derand 0 ToyHash.toy_pk (zeros 32) = Some (ct, ss) ∧ crypto_kem_dec 0 ct ToyHash.toy_sk = Some ss.
Proof.
  destruct (kem_agrees 0 (zeros 64) ToyHash.toy_pk ToyHash.toy_sk (zeros 32) ToyHash.keypair eq_refl eq_refl (proj2 (ToyHash.zeros_ok 32)))
    as (ct & ss & noise & E & _ & _ & En & Hd).
  exists ct, ss. split; [exact E|]. apply Hd. destruct ToyHash.silent as (noise' & En' & Hb). congruence.
Defined.

Lemma decapsulate_rejects_witness : ∃ ss, moor_kem_decapsulate 0 (zeros 1088) ToyHash.toy_sk = Some ss.
Proof.
  destruct (decapsulate_rejects 0 (zeros 64) ToyHash.toy_pk ToyHash.toy_sk (zeros 1088) ToyHash.keypair eq_refl eq_refl (proj2 (ToyHash.zeros_ok 1088)))
    as (ss & E & _).
  exists ss. exact E.
Defined.
