(* ===== verification/MlkemSym.v ===== *)
(** * MlkemSym: the hash functions of ML-KEM

    Model of [src/src/pqclean/ml_kem_768/symmetric-shake.c] and the macros of
    [symmetric.h]: the functions that [Mlkem] takes from the class [Symmetric], built from
    those of [Fips202], and that their outputs have the lengths that [MlkemKem] relies on. *)

From S2P Require Import Prelude Fips202 Sponge Mlkem MlkemKem.

Local Open Scope Z_scope.

Definition kyber_shake128_absorb (seed : bytes) (x y : Z) : list Z := shake128_absorb (take 32 seed ++ [x; y]).
Definition kyber_shake256_prf (outlen : nat) (key : bytes) (nonce : Z) : bytes := shake256 outlen (take 32 key ++ [nonce]).
Definition kyber_shake256_rkprf (key input : bytes) : bytes :=
  let s := keccak_inc_init in
  let s := shake256_inc_absorb s (take 32 key) in
  let s := shake256_inc_absorb s (take 1088 input) in
  let s := shake256_inc_finalize s in
  (shake256_inc_squeeze 32 s).1.

#[export] Instance sha3_symmetric : Symmetric := {|
  xof_state := list Z;
  xof_absorb := kyber_shake128_absorb;
  xof_squeezeblock := shake128_squeezeblocks 1;
  hash_h := sha3_256;
  hash_g := sha3_512;
  prf := kyber_shake256_prf;
  rkprf := kyber_shake256_rkprf;
|}.

#[export] Instance sha3_laws : SymmetricLaws.
Proof.
  split.
  - intros n key nonce. apply (squeeze_bytes_ok SHAKE256_RATE n); [cbv; lia|done|cbv; lia|apply length_absorb].
  - intros m. destruct (squeezeblocks_ok SHA3_512_RATE 1 ltac:(cbv; lia) eq_refl ltac:(cbv; lia) (keccak_absorb SHA3_512_RATE m 0x06)) as (Hl & Hb & _); [apply length_absorb|].
    cbn [hash_g sha3_symmetric]. unfold sha3_512. rewrite length_take, Hl. split; [done|by apply Forall_take].
  - intros m. destruct (squeezeblocks_ok SHA3_256_RATE 1 ltac:(cbv; lia) eq_refl ltac:(cbv; lia) (keccak_absorb SHA3_256_RATE m 0x06)) as (Hl & Hb & _); [apply length_absorb|].
    cbn [hash_h sha3_symmetric]. unfold sha3_256. rewrite length_take, Hl. split; [done|by apply Forall_take].
  - intros key m. by apply (inc_squeeze_ok SHAKE256_RATE 32); [cbv; lia|cbv; lia|].
Qed.
