(* ===== verification/PqBuild.v ===== *)
(** * PqBuild: circuits over ML-KEM

    Puts the key encapsulation of [Mlkem] into the construction of circuits of [Build]:
    the descriptor of a post-quantum relay carries a key that [moor_kem_keygen] made with
    the secret key of the relay, and [MlkemKem] provides what [Build] needs of it. The hash functions
    of ML-KEM are any that satisfy [SymmetricLaws]; [MlkemSym] has those of the code. *)

From Stdlib Require Import String.
From S2P Require Import Prelude Wire Text Cell Onion Descriptor Crypto Handshake Build Mlkem MlkemNtt MlkemKem.

Local Open Scope Z_scope.

Section Network.
  Context `{SymmetricLaws} (fuel : nat).
  Context (hash : bytes → bytes) (hash_keyed : bytes → bytes → bytes) (kdf : bytes → Z → bytes → bytes).
  Context (crypto_scalarmult : bytes → bytes → option bytes).
  Context (chacha : bytes → bytes → bytes → Z * bytes) (ks : bytes → bytes → nat → bytes).
  Context (inet_pton4 inet_pton6 : bytes → option bytes) (inet_ntop4 inet_ntop6 : bytes → bytes).
  Context (pub : bytes → bytes) (old : moor_relay_payload_t) (now : Z).
  Hypothesis chacha_xors : ∀ m n k, chacha m n k = (0, xor_bytes (ks n k (length m)) m).
  Hypothesis ks_length : ∀ n k l, length (ks n k l) = l.
  Hypothesis hash_length : ∀ m, length (hash m) = 32%nat.
  Hypothesis hash_keyed_length : ∀ k m, length (hash_keyed k m) = 32%nat.
  Hypothesis hash_keyed_ok : ∀ k m, bytes_ok (hash_keyed k m).
  Hypothesis pub_length : ∀ sk, length (pub sk) = 32%nat.
  Hypothesis pub_ok : ∀ sk, bytes_ok (pub sk).
  Hypothesis dh_agrees : ∀ a b, ∃ s,
    crypto_scalarmult a (pub b) = Some s ∧ crypto_scalarmult b (pub a) = Some s ∧ is_zero s = false.
  Hypothesis old_length : length (data old) = MOOR_RELAY_DATA.

(** The descriptor has the keys of the relay, and the 32 coins of the encapsulation to a
    post-quantum one give a noise that decryption tolerates. *)
Definition pq_describes (coins : bytes) (d : moor_node_descriptor_t) (cfg : relay_config) : Prop :=
  identity_pk d = cfg_identity_pk cfg ∧ onion_pk d = pub (cfg_onion_sk cfg) ∧
  (wants_pq d = true → ∃ seed noise, length seed = 64%nat ∧ length coins = 32%nat ∧ bytes_ok coins ∧
     moor_kem_keygen fuel seed = Some (kem_pk d, cfg_kem_sk cfg) ∧
     kem_noise fuel seed (kem_pk d) coins = Some noise ∧ bounded 831 noise).

Lemma pq_describes_kem coins d cfg : pq_describes coins d cfg → describes pub (moor_kem_encapsulate fuel) (moor_kem_decapsulate fuel) coins d cfg.
Proof.
  intros (Hid & Honion & Hpq). split; [done|]. split; [done|]. intros Hw.
  destruct (Hpq Hw) as (seed & noise & Hs & Hc & Hb & Hk & Hn & Hbd). unfold moor_kem_encapsulate, moor_kem_decapsulate.
  destruct (kem_exchange fuel seed _ _ coins Hk Hs Hc Hb) as (ct & ss & noise' & E1 & E2 & E3 & _ & E4 & E5).
  exists ct, ss. split_and!; try done. apply E5. congruence.
Qed.

(** C2. Circuits are built: a client with a path of three relays, whose descriptors
    have their keys, ends its build with status 0 and three hops, on each of which it
    agrees with the relay on keys, nonces and digests, for classical hops and hops with ML-KEM in any
    combination. The only other outcome is that a relay on the way took a
    cell for its own because the 32-bit digest matched by accident. *)
Theorem build_completes c ctx d0 d1 d2 coins0 coins1 coins2 kem_coins env0 env1 env2 :
  cc_build c = Some ctx → ctx_path ctx = [d0; d1; d2] → cc_hops c = [] → env_cid env0 = cc_id c →
  Forall (λ co, coin_eph_pk co = pub (coin_eph_sk co)) [coins0; coins1; coins2] →
  pq_describes kem_coins d0 (env_cfg env0) → pq_describes (coin_kem coins1) d1 (env_cfg env1) →
  pq_describes (coin_kem coins2) d2 (env_cfg env2) →
  Forall (reachable inet_pton4 inet_pton6 inet_ntop4 inet_ntop6) [d0; d1; d2] →
  Forall (λ e, fst (count_create now (env_window e)) = true) [env0; env1; env2] →
  identity_pk d1 ≠ cfg_identity_pk (env_cfg env0) → identity_pk d2 ≠ cfg_identity_pk (env_cfg env1) →
  let run := build_run hash hash_keyed kdf crypto_scalarmult (moor_kem_encapsulate fuel) (moor_kem_decapsulate fuel) chacha
    inet_pton4 inet_pton6 inet_ntop4 inet_ntop6 pub old now coins0 coins1 coins2 kem_coins env0 env1 env2 c in
  run = Early ∨
  ∃ c' ri r, run = Ran (c', ri ++ [r]) ∧ cc_status c' = Some 0 ∧ cc_build c' = None ∧ length (cc_hops c') = MOOR_CIRCUIT_HOPS ∧
    Forall2 hop_sync (cc_hops c') (ri ++ [r]) ∧ Forall (hop_bound 3000) (cc_hops c') ∧
    Forall (λ r, can_forward r ∧ prev_open r = true) ri.
Proof.
  intros Hb Hp Hh Hi Hc Hd0%pq_describes_kem Hd1%pq_describes_kem Hd2%pq_describes_kem. by eapply (build_runs _ _ _ _ _ _ _ ks).
Qed.
End Network.

(** The network of [ToyNet] with ML-KEM over the hash functions of [ToyHash]; the second
    relay is classical. *)
Module ToyPq.
#[local] Existing Instance ToyHash.toy_symmetric.
#[local] Existing Instance ToyHash.toy_laws.

Definition config (k : Z) : relay_config := mk_config (replicate 32 k) (replicate 32 (k + 10)) ToyHash.toy_sk.
Definition desc (k : Z) : moor_node_descriptor_t := let d := ToyNet.desc k in {| d with kem_pk := ToyHash.toy_pk |}.
Definition coins (k : Z) : hop_coins := mk_coins (ToyNet.pub (replicate 32 (k + 30))) (replicate 32 (k + 30)) (zeros 32).
Definition env (k : Z) : relay_env := mk_env (config k) (replicate 32 (k + 40)) (mk_window 0 0) (100 + k).
Definition context : moor_cbuild_ctx_t := mk_ctx CBUILD_IDLE [desc 1; desc 2; desc 3] [] [] [] false [] [].
Definition client : client_circ := mk_client 101 [] [] (Some context) None.

Lemma described k : pq_describes 0 ToyNet.pub (zeros 32) (desc k) (config k).
Proof.
  split; [done|]. split; [done|]. intros _. destruct ToyHash.silent as (noise & En & Hn). exists (zeros 64), noise.
  split; [done|]. split; [done|]. split; [apply ToyHash.zeros_ok|]. split; [exact ToyHash.keypair|]. by split.
Qed.

Lemma reached : Forall (reachable ToyNet.inet_pton4 ToyNet.inet_pton6 ToyNet.inet_ntop4 ToyNet.inet_ntop6) [desc 1; desc 2; desc 3].
Proof.
  pose proof ToyNet.desc_reachable as Hr. apply Forall_cons_1 in Hr as [H1 Hr]. apply Forall_cons_1 in Hr as [H2 Hr]. apply Forall_cons_1 in Hr as [H3 _].
  apply List.Forall_cons; [exact H1|]. apply List.Forall_cons; [exact H2|]. apply List.Forall_cons; [exact H3|constructor].
Qed.

Lemma mixed : map (λ k, wants_pq (desc k)) [1; 2; 3] = [true; false; true].
Proof. by vm_compute. Qed.
End ToyPq.

#[local] Existing Instance ToyHash.toy_symmetric.
#[local] Existing Instance ToyHash.toy_laws.

Lemma build_completes_witness :
  let run := build_run ToyNet.hash toy_mac ToyNet.kdf ToyNet.crypto_scalarmult (moor_kem_encapsulate 0) (moor_kem_decapsulate 0) toy_chacha
    ToyNet.inet_pton4 ToyNet.inet_pton6 ToyNet.inet_ntop4 ToyNet.inet_ntop6 ToyNet.pub zero_relay 1000
    (ToyPq.coins 1) (ToyPq.coins 2) (ToyPq.coins 3) (zeros 32) (ToyPq.env 1) (ToyPq.env 2) (ToyPq.env 3) ToyPq.client in
  run = Early ∨ ∃ c' rs, run = Ran (c', rs) ∧ cc_status c' = Some 0 ∧ length (cc_hops c') = MOOR_CIRCUIT_HOPS ∧ Forall2 hop_sync (cc_hops c') rs.
Proof.
  intros run.
  destruct (build_completes 0 ToyNet.hash toy_mac ToyNet.kdf ToyNet.crypto_scalarmult toy_chacha toy_ks ToyNet.inet_pton4 ToyNet.inet_pton6
    ToyNet.inet_ntop4 ToyNet.inet_ntop6 ToyNet.pub zero_relay 1000
    (λ m n k, eq_refl) toy_ks_length (λ _, length_be_put 32 _) (λ _ _, length_be_put 32 _) (λ _ _, be_put_ok 32 _)
    (λ _, eq_refl) ToyNet.pub_ok ToyNet.dh_agrees eq_refl ToyPq.client ToyPq.context
    (ToyPq.desc 1) (ToyPq.desc 2) (ToyPq.desc 3) (ToyPq.coins 1) (ToyPq.coins 2) (ToyPq.coins 3) (zeros 32)
    (ToyPq.env 1) (ToyPq.env 2) (ToyPq.env 3) eq_refl eq_refl eq_refl eq_refl ltac:(repeat constructor)
    (ToyPq.described 1) (ToyPq.described 2) (ToyPq.described 3) ToyPq.reached ltac:(repeat constructor)
    ltac:(discriminate) ltac:(discriminate)) as [E|(c' & ri & r & E & E1 & _ & E2 & E3 & _)].
  - left. exact E.
  - right. exists c', (ri ++ [r]). split; [exact E|]. split; [exact E1|]. split; [exact E2|exact E3].
Defined.
