(* ===== verification/Link.v ===== *)
(** * Link: the encrypted link between two nodes

    Model of the link layer of [src/src/connection.c] and of its output queue in
    [scheduler.c]: the Noise_IK handshake of initiator and responder, the exchange of a
    KEM secret that follows it, the framing, encryption and rekeying of cells, and
    sending over a socket that takes part of a frame. Connections without a pluggable
    transport are modelled; statistics, activity times and the stall watchdog are left
    out, and so is the wiping of secrets.

    The socket is an argument: what it accepts is a list of [write_result], what it
    delivers a list of [read_event]. The clock is an argument too. *)

From Stdlib Require Import String.
From S2P Require Import Prelude Wire Text Cell Onion Crypto Handshake.

Local Open Scope Z_scope.

Inductive moor_conn_state_t :=
  | CONN_STATE_NONE
  | CONN_STATE_TCP_CONNECTING
  | CONN_STATE_HS_SENDING
  | CONN_STATE_HS_RECEIVING
  | CONN_STATE_PQ_SENDING
  | CONN_STATE_PQ_RECEIVING
  | CONN_STATE_HANDSHAKING
  | CONN_STATE_OPEN
  | CONN_STATE_CLOSING.

#[export] Instance conn_state_eq_dec : EqDecision moor_conn_state_t.
Proof. solve_decision. Defined.

(** [struct moor_connection]; [recv_buf] holds the [recv_len] bytes in use, and [outq]
    the data of the queued frames from the head on. *)
Record moor_connection_t := mk_conn {
  link_state : moor_conn_state_t;
  peer_identity : bytes;
  send_key : bytes;
  recv_key : bytes;
  send_nonce : Z;
  recv_nonce : Z;
  recv_buf : bytes;
  our_kx_pk : bytes;
  our_kx_sk : bytes;
  is_initiator : bool;
  outq : list bytes;
  write_off : nat;
  pq_handshake_done : bool;
  send_epoch : Z;
  recv_epoch : Z;
  send_epoch_records : Z;
  recv_epoch_records : Z;
  send_epoch_start_ms : Z;
  recv_epoch_start_ms : Z;
  send_chain : bytes;
  recv_chain : bytes;
  send_prev_key : bytes;
  recv_prev_key : bytes;
  send_prev_valid : bool;
  recv_prev_valid : bool;
}.

Definition RECV_BUF_SIZE : nat := 4096.
Definition MOOR_MAC_LEN : Z := 16.
Definition MOOR_CELL_WIRE_SIZE : nat := 532.
Definition MOOR_LINK_REKEY_RECORDS : Z := 2 ^ 31.
Definition MOOR_LINK_REKEY_INTERVAL_MS : Z := 30 * 60 * 1000.
Definition UINT64_MAX : Z := 2 ^ 64 - 1.

(** What [send] on the socket does: takes [n] bytes, takes none, or fails. *)
Inductive write_result :=
  | Wrote (n : nat)
  | WouldBlock
  | WriteError.

(** What [poll] and [recv] give: nothing, bytes, the end of the stream, or an error. *)
Inductive read_event :=
  | NotReady
  | Read (b : bytes)
  | Closed
  | ReadError.

(** ** The output queue ([scheduler.c]) *)

(** [push_ok] is whether the limit on queued cells and [malloc] allow the push. *)
Definition moor_queue_push (push_ok : bool) (q : list bytes) (wire_data : bytes) : option (list bytes) :=
  if push_ok then Some (q ++ [take MOOR_CELL_WIRE_SIZE wire_data]) else None.

(** What was written, the queue and the offset into its head; the count of frames that
    were sent, or -1. *)
Fixpoint moor_queue_flush (writes : list write_result) (flushed : Z) (q : list bytes) (off : nat) {struct q}
    : bytes * list bytes * nat * Z :=
  match q with
  | [] => ([], [], off, flushed)
  | cell :: q' =>
      match writes with
      | [] | WouldBlock :: _ => ([], q, off, flushed)
      | WriteError :: _ => ([], q, off, -1)
      | Wrote n :: writes =>
          let n := (n `min` (length cell - off))%nat in
          if (n =? 0)%nat then ([], q, off, flushed)
          else if (length cell <=? off + n)%nat then
            let '(written, q'', off', r) := moor_queue_flush writes (flushed + 1) q' 0 in
            (slice off n cell ++ written, q'', off', r)
          else (slice off n cell, q, off + n, flushed)%nat
      end
  end.

Definition conn_flush (writes : list write_result) (c : moor_connection_t) : Z * moor_connection_t * bytes :=
  let '(written, q, off, r) := moor_queue_flush writes 0 (outq c) (write_off c) in
  (r, {| c with outq := q; write_off := off |}, written).

Section Link.
  Context (hash : bytes → bytes).
  Context (aead_encrypt : bytes → bytes → bytes → bytes → option bytes).
  Context (aead_decrypt : bytes → bytes → bytes → bytes → option bytes).

(** ** Rekeying *)

Definition moor_link_rekey_init (now : Z) (c : moor_connection_t) : moor_connection_t :=
  {| c with send_epoch := 0; recv_epoch := 0; send_epoch_records := 0; recv_epoch_records := 0;
     send_epoch_start_ms := now; recv_epoch_start_ms := now; send_chain := send_key c; recv_chain := recv_key c;
     send_prev_key := zeros 32; recv_prev_key := zeros 32; send_prev_valid := false; recv_prev_valid := false |}.

(** The thresholds of an epoch that began at [start]. *)
Definition rekey_due (now start records : Z) : bool :=
  let elapsed := if start <=? now then now - start else 0 in
  negb ((records <? MOOR_LINK_REKEY_RECORDS) && (elapsed <? MOOR_LINK_REKEY_INTERVAL_MS)).

Definition link_rekey_send_maybe_rotate (now : Z) (c : moor_connection_t) : moor_connection_t :=
  if negb (pq_handshake_done c) then c
  else if negb (rekey_due now (send_epoch_start_ms c) (send_epoch_records c)) then c
  else
    let next_epoch := u64 (send_epoch c + 1) in
    let next_key := moor_crypto_link_rekey hash (send_chain c) next_epoch in
    {| c with send_prev_key := send_key c; send_prev_valid := true; send_key := next_key; send_chain := next_key;
       send_epoch := next_epoch; send_epoch_records := 0; send_epoch_start_ms := now |}.

Definition link_rekey_recv_maybe_rotate (now : Z) (c : moor_connection_t) : moor_connection_t :=
  if negb (pq_handshake_done c) then c
  else if negb (rekey_due now (recv_epoch_start_ms c) (recv_epoch_records c)) then c
  else
    let next_epoch := u64 (recv_epoch c + 1) in
    let next_key := moor_crypto_link_rekey hash (recv_chain c) next_epoch in
    {| c with recv_prev_key := recv_key c; recv_prev_valid := true; recv_key := next_key; recv_chain := next_key;
       recv_epoch := next_epoch; recv_epoch_records := 0; recv_epoch_start_ms := now |}.

(** ** Sending *)

Definition link_frame (ct : bytes) : bytes :=
  [u8 (Z.shiftr (Z.of_nat (length ct)) 8); u8 (Z.of_nat (length ct))] ++ ct.

(** The connection after the encryption, and the frame; [None] with the connection as
    the refusal left it. *)
Definition moor_connection_encrypt_cell (now : Z) (c : moor_connection_t) (cell : moor_cell_t)
    : moor_connection_t * option bytes :=
  if negb (bool_decide (link_state c = CONN_STATE_OPEN)) then (c, None)
  else if send_nonce c =? UINT64_MAX then ({| c with link_state := CONN_STATE_NONE |}, None)
  else
    let c := link_rekey_send_maybe_rotate now c in
    match moor_crypto_aead_encrypt aead_encrypt (moor_cell_pack cell) [] (send_key c) (send_nonce c) with
    | None => (c, None)
    | Some ct =>
        ({| c with send_nonce := u64 (send_nonce c + 1); send_epoch_records := u64 (send_epoch_records c + 1) |},
         Some (link_frame ct))
    end.

(** The writing of a frame to the socket: what was written, and how it ended. *)
Inductive send_end :=
  | AllSent
  | Queue (rest : bytes)
  | Dead.

Fixpoint send_loop (writes : list write_result) (data : bytes) : bytes * send_end :=
  match data with
  | [] => ([], AllSent)
  | _ =>
      match writes with
      | [] | WouldBlock :: _ | Wrote 0 :: _ => ([], Queue data)
      | WriteError :: _ => ([], Dead)
      | Wrote n :: writes => let '(written, r) := send_loop writes (drop n data) in (take n data ++ written, r)
      end
  end.

Definition moor_connection_send_cell (now : Z) (writes : list write_result) (push_ok : bool) (c : moor_connection_t)
    (cell : moor_cell_t) : Z * moor_connection_t * bytes :=
  match moor_connection_encrypt_cell now c cell with
  | (c, None) => (-1, c, [])
  | (c, Some wire) =>
      match send_loop writes wire with
      | (written, AllSent) => (0, c, written)
      | (written, Queue rest) =>
          match moor_queue_push push_ok (outq c) rest with
          | Some q => (0, {| c with outq := q |}, written)
          | None => (-1, {| c with link_state := CONN_STATE_NONE |}, written)
          end
      | (written, Dead) => (-1, {| c with link_state := CONN_STATE_NONE |}, written)
      end
  end.

(** ** Receiving *)

Definition frame_len (buf : bytes) : Z := Z.lor (Z.shiftl (byte_at 0 buf) 8) (byte_at 1 buf).

Definition have_complete (buf : bytes) : bool :=
  (2 <=? length buf)%nat && (2 + frame_len buf <=? Z.of_nat (length buf)).

(** Reading more bytes when no frame is complete: [inl] is an early return. Bytes for
    which the buffer has no room stay in the socket. *)
Definition recv_more (reads : list read_event) (c : moor_connection_t) : (Z * list read_event) + (moor_connection_t * list read_event) :=
  if have_complete (recv_buf c) || (RECV_BUF_SIZE <=? length (recv_buf c))%nat then inr (c, reads) else
  match reads with
  | [] => inl (0, [])
  | NotReady :: reads => inl (0, reads)
  | Closed :: reads => inl (-1, reads)
  | ReadError :: reads => inr (c, reads)
  | Read b :: reads =>
      let room := (RECV_BUF_SIZE - length (recv_buf c))%nat in
      if (length b =? 0)%nat then inl (-1, reads) else
      inr ({| c with recv_buf := recv_buf c ++ take room b |}, if (room <? length b)%nat then Read (drop room b) :: reads else reads)
  end.

(** The first frame of the buffer, if it is there; [plain] before the decryption writes to it is [stale]. *)
Definition recv_frame (now : Z) (stale : bytes) (c : moor_connection_t) : Z * moor_connection_t * option moor_cell_t :=
  if (length (recv_buf c) <? 2)%nat then (0, c, None) else
  let ct_len := frame_len (recv_buf c) in
  if (ct_len <? MOOR_MAC_LEN) || (Z.of_nat MOOR_CELL_SIZE + MOOR_MAC_LEN <? ct_len) then (-1, c, None) else
  let total_needed := 2 + ct_len in
  if Z.of_nat (length (recv_buf c)) <? total_needed then (0, c, None) else
  if recv_nonce c =? UINT64_MAX then (-1, {| c with link_state := CONN_STATE_NONE |}, None) else
  let c := link_rekey_recv_maybe_rotate now c in
  let ct := slice 2 (Z.to_nat ct_len) (recv_buf c) in
  let opened :=
    match moor_crypto_aead_decrypt aead_decrypt ct [] (recv_key c) (recv_nonce c) with
    | Some pt => Some pt
    | None =>
        if recv_prev_valid c then moor_crypto_aead_decrypt aead_decrypt ct [] (recv_prev_key c) (recv_nonce c) else None
    end in
  match opened with
  | None => (-1, {| c with recv_buf := [] |}, None)
  | Some pt =>
      (1, {| c with recv_nonce := u64 (recv_nonce c + 1); recv_epoch_records := u64 (recv_epoch_records c + 1);
             recv_buf := drop (Z.to_nat total_needed) (recv_buf c) |},
       Some (moor_cell_unpack (blit 0 pt stale)))
  end.

Definition moor_connection_recv_cell (now : Z) (stale : bytes) (reads : list read_event) (c : moor_connection_t)
    : Z * moor_connection_t * option moor_cell_t * list read_event :=
  if negb (bool_decide (link_state c = CONN_STATE_OPEN)) then (-1, c, None, reads) else
  match recv_more reads c with
  | inl (r, reads) => (r, c, None, reads)
  | inr (c, reads) => (recv_frame now stale c, reads)
  end.

(** ** The Noise_IK handshake *)

Definition NOISE_PROTOCOL_NAME : bytes := str "Noise_IK_25519_ChaChaPoly_BLAKE2b" ++ [0].

(** [h] and [ck] *)
Definition noise_init : bytes * bytes := let h := hash NOISE_PROTOCOL_NAME in (h, h).

Definition noise_mix_hash (h data : bytes) : bytes := hash (h ++ take 1200 data).

Definition noise_mix_key (ck ikm : bytes) : bytes * bytes := moor_crypto_hkdf hash ck ikm.

Definition noise_encrypt_and_hash (pt h k : bytes) : option (bytes * bytes) :=
  match moor_crypto_aead_encrypt aead_encrypt pt h k 0 with
  | None => None
  | Some ct => Some (ct, noise_mix_hash h ct)
  end.

Definition noise_decrypt_and_hash (ct h k : bytes) : option (bytes * bytes) :=
  match moor_crypto_aead_decrypt aead_decrypt ct h k 0 with
  | None => None
  | Some pt => Some (pt, noise_mix_hash h ct)
  end.

(** Reading exactly [n] bytes in a blocking loop. *)
Fixpoint read_exact (n : nat) (reads : list read_event) : option (bytes * list read_event) :=
  if (n =? 0)%nat then Some ([], reads) else
  match reads with
  | Read b :: reads =>
      if (length b =? 0)%nat then None
      else if (length b <=? n)%nat then '(rest, reads) ← read_exact (n - length b) reads; Some (b ++ rest, reads)
      else Some (take n b, Read (drop n b) :: reads)
  | _ => None
  end.

(** The same through [conn_recv_buffered], which first empties the receive buffer. *)
Definition read_exact_buffered (n : nat) (c : moor_connection_t) (reads : list read_event)
    : option (bytes * moor_connection_t * list read_event) :=
  let avail := (n `min` length (recv_buf c))%nat in
  '(rest, reads) ← read_exact (n - avail) reads;
  Some (take avail (recv_buf c) ++ rest, {| c with recv_buf := drop avail (recv_buf c) |}, reads).

  Context (crypto_scalarmult : bytes → bytes → option bytes).
  Context (ed25519_pk_to_curve25519 ed25519_sk_to_curve25519 : bytes → option bytes).

(** What the initiator keeps between its message and the answer. *)
Record noise_state := mk_noise {
  noise_h : bytes;
  noise_ck : bytes;
  noise_e_sk : bytes;
  noise_pk : bytes;
  noise_sk : bytes;
}.

(** The first message: ephemeral key, encrypted static key. *)
Definition noise_msg1 (c : moor_connection_t) (our_identity_pk our_identity_sk e_pk e_sk : bytes) : option (bytes * noise_state) :=
  our_curve_pk ← ed25519_pk_to_curve25519 our_identity_pk;
  our_curve_sk ← ed25519_sk_to_curve25519 our_identity_sk;
  let '(h, ck) := noise_init in
  if is_zero (peer_identity c) then None else
  peer_curve_pk ← ed25519_pk_to_curve25519 (peer_identity c);
  let h := noise_mix_hash h peer_curve_pk in
  let h := noise_mix_hash h e_pk in
  dh_es ← moor_crypto_dh crypto_scalarmult e_sk peer_curve_pk;
  let '(ck, k) := noise_mix_key ck dh_es in
  '(encrypted_s, h) ← noise_encrypt_and_hash our_curve_pk h k;
  dh_ss ← moor_crypto_dh crypto_scalarmult our_curve_sk peer_curve_pk;
  let '(ck, k) := noise_mix_key ck dh_ss in
  Some (e_pk ++ encrypted_s, mk_noise h ck e_sk our_curve_pk our_curve_sk).

(** The keys of a finished handshake. *)
Definition install_keys (initiator : bool) (ck pk sk : bytes) (c : moor_connection_t) : moor_connection_t :=
  let '(k1, k2) := moor_crypto_hkdf hash ck [] in
  {| c with send_key := if initiator then k1 else k2; recv_key := if initiator then k2 else k1;
     send_nonce := 0; recv_nonce := 0; is_initiator := initiator; our_kx_pk := pk; our_kx_sk := sk |}.

(** The answer of 48 bytes at the initiator. *)
Definition noise_msg2 (st : noise_state) (msg2 : bytes) (c : moor_connection_t) : option moor_connection_t :=
  let re_pk := take 32 msg2 in
  let h := noise_mix_hash (noise_h st) re_pk in
  dh_ee ← moor_crypto_dh crypto_scalarmult (noise_e_sk st) re_pk;
  let '(ck, k) := noise_mix_key (noise_ck st) dh_ee in
  dh_se ← moor_crypto_dh crypto_scalarmult (noise_sk st) re_pk;
  let '(ck, k) := noise_mix_key ck dh_se in
  '(_, h) ← noise_decrypt_and_hash (drop 32 msg2) h k;
  Some (install_keys true ck (noise_pk st) (noise_sk st) c).

(** [net] is what the socket delivers after the first message, none when it cannot be
    sent. *)
Definition link_handshake_client (net : bytes → option (list read_event)) (e_pk e_sk : bytes) (c : moor_connection_t)
    (our_identity_pk our_identity_sk : bytes) : option (moor_connection_t * list read_event) :=
  '(msg1, st) ← noise_msg1 c our_identity_pk our_identity_sk e_pk e_sk;
  reads ← net msg1;
  '(msg2, reads) ← read_exact 48 reads;
  c ← noise_msg2 st msg2 c;
  Some (c, reads).

(** The responder: the connection, what is left in the socket, and the second message;
    [None] for it when the handshake fails. *)
Definition link_handshake_server (reads : list read_event) (send_ok : bool) (e_pk e_sk : bytes) (c : moor_connection_t)
    (our_identity_pk our_identity_sk : bytes) : moor_connection_t * list read_event * option bytes :=
  match ed25519_pk_to_curve25519 our_identity_pk, ed25519_sk_to_curve25519 our_identity_sk with
  | Some our_curve_pk, Some our_curve_sk =>
      let '(h, ck) := noise_init in
      let h := noise_mix_hash h our_curve_pk in
      match read_exact_buffered 80 c reads with
      | None => ({| c with recv_buf := [] |}, [], None)
      | Some (msg1, c, reads) =>
          let ie_pk := take 32 msg1 in
          let h := noise_mix_hash h ie_pk in
          match moor_crypto_dh crypto_scalarmult our_curve_sk ie_pk with
          | None => (c, reads, None)
          | Some dh_es =>
              let '(ck, k) := noise_mix_key ck dh_es in
              match noise_decrypt_and_hash (drop 32 msg1) h k with
              | None => (c, reads, None)
              | Some (initiator_curve_pk, h) =>
                  match moor_crypto_dh crypto_scalarmult our_curve_sk initiator_curve_pk with
                  | None => (c, reads, None)
                  | Some dh_ss =>
                      let '(ck, k) := noise_mix_key ck dh_ss in
                      let c := {| c with peer_identity := initiator_curve_pk |} in
                      let h := noise_mix_hash h e_pk in
                      let answer :=
                        dh_ee ← moor_crypto_dh crypto_scalarmult e_sk ie_pk;
                        let '(ck, k) := noise_mix_key ck dh_ee in
                        dh_se ← moor_crypto_dh crypto_scalarmult e_sk initiator_curve_pk;
                        let '(ck, k) := noise_mix_key ck dh_se in
                        '(encrypted_empty, h) ← noise_encrypt_and_hash [] h k;
                        if send_ok then Some (e_pk ++ encrypted_empty, ck) else None in
                      match answer with
                      | None => (c, reads, None)
                      | Some (msg2, ck) => (install_keys false ck our_curve_pk our_curve_sk c, reads, Some msg2)
                      end
                  end
              end
          end
      end
  | _, _ => (c, reads, None)
  end.

(** ** The KEM exchange after it *)

  Context (kem_keygen : bytes → option (bytes * bytes)).
  Context (kem_encapsulate : bytes → bytes → option (bytes * bytes)).
  Context (kem_decapsulate : bytes → bytes → option bytes).
  (** Time and uninitialised memory at each call. *)
  Context (clock : nat → Z) (stale : bytes).

Definition MOOR_KEM_PK_LEN : nat := 1184.

(** Cells one after the other, each with what the socket takes of it. *)
Fixpoint send_cells (sends : list (list write_result)) (c : moor_connection_t) (cells : list moor_cell_t) : option (moor_connection_t * bytes) :=
  match cells with
  | [] => Some (c, [])
  | cell :: cells =>
      match moor_connection_send_cell (clock (length cells)) (default [] (head sends)) true c cell with
      | (0, c, written) => '(c, more) ← send_cells (tail sends) c cells; Some (c, written ++ more)
      | _ => None
      end
  end.

(** [n] bytes from [CELL_KEM_CT] cells; waiting for the socket ends when it has nothing
    more. *)
Fixpoint recv_kem (fuel n : nat) (reads : list read_event) (c : moor_connection_t) : option (bytes * moor_connection_t * list read_event) :=
  if (n =? 0)%nat then Some ([], c, reads) else
  match fuel with
  | O => None
  | S fuel =>
      match moor_connection_recv_cell (clock fuel) stale reads c with
      | (1, c, Some kcell, reads) =>
          if command kcell =? cell_code CELL_KEM_CT then
            let chunk := (MOOR_CELL_PAYLOAD `min` n)%nat in
            '(rest, c, reads) ← recv_kem fuel (n - chunk) reads c;
            Some (take chunk (payload kcell) ++ rest, c, reads)
          else None
      | (0, c, _, reads) => if (length reads =? 0)%nat then None else recv_kem fuel n reads c
      | _ => None
      end
  end.

(** The secret mixed into both keys. *)
Definition mix_kem (now : Z) (kem_shared : bytes) (c : moor_connection_t) : moor_connection_t :=
  let new_send := fst (moor_crypto_hkdf hash (send_key c) kem_shared) in
  let new_recv2 := fst (moor_crypto_hkdf hash (recv_key c) kem_shared) in
  let c := moor_link_rekey_init now {| c with send_key := new_send; recv_key := new_recv2 |} in
  {| c with pq_handshake_done := true |}.

Definition pq_begin (c : moor_connection_t) : moor_connection_t :=
  {| c with link_state := CONN_STATE_OPEN; pq_handshake_done := false |}.

(** [net2] is what the socket delivers once the KEM key is sent. *)
Definition link_handshake_client_pq (fuel : nat) (net : bytes → option (list read_event)) (net2 : bytes → option (list read_event))
    (sends : list (list write_result)) (now : Z) (e_pk e_sk kem_seed : bytes) (c : moor_connection_t) (our_identity_pk our_identity_sk : bytes)
    : option (moor_connection_t * list read_event) :=
  '(c, reads) ← link_handshake_client net e_pk e_sk c our_identity_pk our_identity_sk;
  let c := pq_begin c in
  '(kem_pk, kem_sk) ← kem_keygen kem_seed;
  '(c, wire) ← send_cells sends c (kem_ct_cells MOOR_KEM_PK_LEN 0 kem_pk);
  more ← net2 wire;
  '(kem_ct, c, reads) ← recv_kem fuel MOOR_KEM_CT_LEN (reads ++ more) c;
  kem_shared ← kem_decapsulate kem_ct kem_sk;
  Some (mix_kem now kem_shared c, reads).

(** The second half of the responder, with the KEM ciphertext it sends. *)
Definition server_pq (fuel : nat) (reads : list read_event) (sends : list (list write_result)) (now : Z) (kem_coins : bytes) (c : moor_connection_t)
    : option (moor_connection_t * list read_event * bytes) :=
  let c := pq_begin c in
  '(kem_pk, c, reads) ← recv_kem fuel MOOR_KEM_PK_LEN reads c;
  '(kem_ct, kem_shared) ← kem_encapsulate kem_coins kem_pk;
  '(c, wire) ← send_cells sends c (kem_ct_cells MOOR_KEM_CT_LEN 0 kem_ct);
  Some (mix_kem now kem_shared c, reads, wire).

Definition link_handshake_server_pq (fuel : nat) (reads1 : list read_event) (send_ok : bool) (net : bytes → option (list read_event))
    (sends : list (list write_result)) (now : Z) (e_pk e_sk kem_coins : bytes) (c : moor_connection_t) (our_identity_pk our_identity_sk : bytes)
    : option (moor_connection_t * list read_event * bytes) :=
  match link_handshake_server reads1 send_ok e_pk e_sk c our_identity_pk our_identity_sk with
  | (c, reads, Some msg2) => more ← net msg2; server_pq fuel (reads ++ more) sends now kem_coins c
  | _ => None
  end.
End Link.
