(* ===== verification/LinkSafe.v ===== *)
(** * LinkSafe: links deliver cells in order

    Theorems about [Link]: two ends that are in step stay in step while cells travel, in
    whatever pieces the sockets take and deliver them, and the handshake leaves both ends
    in step in both directions. Rekeying by the number of records preserves this; rekeying
    by the clocks of the two ends does not. *)

From Stdlib Require Import String.
From S2P Require Import Prelude Wire Text Cell Onion Crypto Handshake Link.

Local Open Scope Z_scope.

(** ** The output queue *)

(** What has been encrypted and not yet written. *)
Definition pending (c : moor_connection_t) : bytes :=
  match outq c with [] => [] | f :: q => drop (write_off c) f ++ concat q end.

(** The offset lies in the head of the queue. *)
Definition queue_ok (c : moor_connection_t) : Prop :=
  Forall (λ f, f ≠ []) (outq c) ∧ match outq c with [] => write_off c = 0%nat | f :: _ => (write_off c < length f)%nat end.

Lemma flush_stream q : ∀ writes off n, Forall (λ f, f ≠ []) q → match q with [] => off = 0%nat | f :: _ => (off < length f)%nat end →
  let '(written, q', off', r) := moor_queue_flush writes n q off in
  written ++ match q' with [] => [] | f :: q => drop off' f ++ concat q end = match q with [] => [] | f :: q => drop off f ++ concat q end ∧
  Forall (λ f, f ≠ []) q' ∧ match q' with [] => off' = 0%nat | f :: _ => (off' < length f)%nat end.
Proof.
  induction q as [|f q IH]; intros writes off n Hne Hoff; cbn [moor_queue_flush].
  { split; [done|split; [constructor|done]]. }
  destruct writes as [|[k| |] writes]; [by split_and!| |by split_and!|by split_and!]. pose proof Hne as [Hf Hne']%Forall_cons.
  destruct (Nat.eqb_spec (k `min` (length f - off)) 0); [by split_and!|].
  set (m := (k `min` (length f - off))%nat) in *. destruct (Nat.leb_spec (length f) (off + m)) as [Hl|Hl].
  - specialize (IH writes 0%nat (n + 1) Hne'). destruct (moor_queue_flush writes (n + 1) q 0) as [[[w q'] off'] r].
    destruct IH as (I1 & I2 & I3). { destruct q as [|g q]; [done|]. apply Forall_cons in Hne' as [Hg _]. destruct g; [done|cbn; lia]. }
    split; [|done]. rewrite <- app_assoc, I1. unfold slice.
    rewrite (take_ge (drop off f)).
    2: { rewrite length_drop. lia. }
    destruct q as [|g q]; [done|]. by rewrite drop_0.
  - split; [|split; [done|lia]]. unfold slice. rewrite app_assoc. f_equal. rewrite <- drop_drop. apply take_drop.
Qed.

Lemma conn_flush_stream writes c r c' w : queue_ok c → conn_flush writes c = (r, c', w) →
  w ++ pending c' = pending c ∧ queue_ok c' ∧ c' = {| c with outq := outq c'; write_off := write_off c' |}.
Proof.
  intros [H1 H2]. unfold conn_flush. pose proof (flush_stream (outq c) writes (write_off c) 0 H1 H2) as H.
  destruct (moor_queue_flush _ _ _ _) as [[[w' q'] off'] r']. intros [= <- <- <-]. destruct H as (H3 & H4 & H5). by split; [|split].
Qed.

(** Whether a write takes bytes at once. *)
Definition takes (writes : list write_result) : bool :=
  match writes with Wrote (S _) :: _ => true | _ => false end.

Lemma send_loop_stream writes : ∀ data,
  match send_loop writes data with
  | (w, AllSent) => w = data ∧ (takes writes = false → data = [])
  | (w, Queue rest) => w ++ rest = data ∧ rest ≠ [] ∧ (takes writes = false → w = [])
  | (_, Dead) => True
  end.
Proof.
  induction writes as [|[[|n]| |] writes IH]; intros [|x data]; cbn [send_loop]; try done.
  specialize (IH (drop (S n) (x :: data))). destruct (send_loop writes (drop (S n) (x :: data))) as [w [|rest|]]; [| |done].
  - destruct IH as [-> _]. split; [apply take_drop|done].
  - destruct IH as (I1 & I2 & _). split; [|done]. rewrite <- app_assoc, I1. apply take_drop.
Qed.

(** What the socket takes before it blocks. *)
Fixpoint capacity (writes : list write_result) : nat :=
  match writes with
  | Wrote (S n) :: writes => S n + capacity writes
  | _ => 0
  end.

Lemma send_loop_capacity writes : ∀ data, (length data <= capacity writes)%nat → send_loop writes data = (data, AllSent).
Proof.
  induction writes as [|[[|n]| |] writes IH]; intros [|x data] Hl; cbn [send_loop capacity length] in *; try done; try lia.
  rewrite IH by (rewrite length_drop; cbn [length]; lia). by rewrite take_drop.
Qed.

(** ** Reading a stream of frames *)

Definition read_bytes (reads : list read_event) : bytes := concat (map (λ e, match e with Read b => b | _ => [] end) reads).
Definition readable (e : read_event) : Prop := match e with Read b => b ≠ [] | Closed => False | _ => True end.

(** Each call uses up bytes, of the socket or of the buffer, or an event. *)
Definition work (reads : list read_event) (c : moor_connection_t) : nat :=
  (length reads + 2 * length (read_bytes reads) + length (recv_buf c))%nat.

Lemma recv_more_ok reads c : Forall readable reads → have_complete (recv_buf c) = false → (length (recv_buf c) < 532)%nat →
  match recv_more reads c with
  | inl (r, reads') => r = 0 ∧ read_bytes reads' = read_bytes reads ∧ Forall readable reads' ∧ (reads' = [] ∨ work reads' c < work reads c)%nat
  | inr (c', reads') => c' = {| c with recv_buf := recv_buf c' |} ∧ recv_buf c' ++ read_bytes reads' = recv_buf c ++ read_bytes reads ∧
      Forall readable reads' ∧ (work reads' c' < work reads c)%nat
  end.
Proof.
  intros Hr Hh Hl. unfold recv_more. rewrite Hh, (proj2 (Nat.leb_gt _ _)) by (unfold RECV_BUF_SIZE; lia). cbn [orb].
  destruct reads as [|[|b| |] reads]; [by split_and!; [..|left]|..]; apply Forall_cons in Hr as [He Hr]; unfold work.
  - split_and!; try done. right. cbn [length]. change (read_bytes (NotReady :: reads)) with (read_bytes reads). lia.
  - destruct b as [|x b]; [done|]. cbn [length Nat.eqb]. set (room := (RECV_BUF_SIZE - length (recv_buf c))%nat). set (data := x :: b).
    assert (Hroom : (0 < room)%nat) by (unfold room, RECV_BUF_SIZE; lia). change (S (length b)) with (length data). assert (Hd : (0 < length data)%nat) by (cbn; lia).
    cbn [recv_buf]. change (read_bytes (Read data :: reads)) with (data ++ read_bytes reads). rewrite !length_app, length_take.
    destruct (Nat.ltb_spec room (length data)).
    + change (read_bytes (Read (drop room data) :: reads)) with (drop room data ++ read_bytes reads). rewrite length_app, length_drop. cbn [length].
      split; [done|]. split; [by rewrite <- app_assoc, (app_assoc (take room data)), take_drop|]. split; [|lia].
      apply List.Forall_cons; [|done]. intros E. pose proof (f_equal length E) as E'. rewrite length_drop in E'. cbn [length] in E'. lia.
    + rewrite take_ge by lia. split; [done|]. split; [by rewrite <- app_assoc|]. split; [done|]. cbn [length]. lia.
  - destruct He.
  - split; [by destruct c|]. split_and!; try done. cbn [length]. change (read_bytes (ReadError :: reads)) with (read_bytes reads). lia.
Qed.

Lemma length_link_frame ct : length (link_frame ct) = (2 + length ct)%nat.
Proof. unfold link_frame. by rewrite length_app. Qed.

Definition is_frame (f : bytes) : Prop := ∃ ct, length ct = 530%nat ∧ f = link_frame ct.

Lemma length_is_frame f : is_frame f → length f = 532%nat.
Proof. intros (ct & Hc & ->). by rewrite length_link_frame, Hc. Qed.

Lemma length_frames fs : Forall is_frame fs → length (concat fs) = (532 * length fs)%nat.
Proof. induction 1 as [|f fs Hf _ IH]; [done|]. cbn [concat length]. rewrite length_app, (length_is_frame f), IH by done. lia. Qed.

(** The length of a frame is in its first two bytes. *)
Lemma frame_len_stream buf tl fs : Forall is_frame fs → buf ++ tl = concat fs → (2 <= length buf)%nat → frame_len buf = 530.
Proof.
  intros Hfs E H2. destruct buf as [|x [|y l]]; try (cbn in H2; lia). destruct Hfs as [|f fs (ct & Hc & ->) _]; [done|].
  unfold link_frame in E. cbn [concat app] in E. injection E as Ex Ey _. rewrite Hc in Ex, Ey. unfold frame_len. cbn. by subst.
Qed.

Lemma complete_stream buf tl fs : Forall is_frame fs → buf ++ tl = concat fs → have_complete buf = (532 <=? length buf)%nat.
Proof.
  intros Hfs E. unfold have_complete. destruct (Nat.leb_spec 2 (length buf)) as [H2|H2]; [|by rewrite (proj2 (Nat.leb_gt _ _)) by lia].
  rewrite (frame_len_stream buf tl fs) by done. cbn [andb]. destruct (Nat.leb_spec 532 (length buf)); [apply Z.leb_le|apply Z.leb_gt]; lia.
Qed.

(** How many frames a number of bytes holds. *)
Lemma frames_split got buf fut fs k : Forall is_frame fs → got ++ fut = concat fs → (k <= length fs)%nat → buf ++ fut = concat (drop k fs) → (length buf < 532)%nat →
  (length got / 532 = k)%nat ∧ buf = drop (532 * k) got.
Proof.
  intros Hfs E1 Hk E2 Hl. assert (Ec : concat fs = concat (take k fs) ++ concat (drop k fs)) by by rewrite <- concat_app, take_drop.
  rewrite <- E2, app_assoc in Ec. rewrite Ec in E1. apply app_inv_tail in E1. subst got.
  assert (Hlen : length (concat (take k fs)) = (532 * k)%nat).
  { rewrite length_frames by by apply Forall_take. rewrite length_take. lia. }
  split; [|by rewrite drop_app_length' by done]. rewrite length_app, Hlen. symmetry. apply (Nat.div_unique _ 532 k (length buf)); lia.
Qed.

(** ** Two ends in step *)

(** What [B] receives is opened by the state in which [A] sends it. *)
Record paired (A B : moor_connection_t) : Prop := mk_step {
  st_key : send_key A = recv_key B;
  st_nonce : send_nonce A = recv_nonce B;
  st_pq : pq_handshake_done A = pq_handshake_done B;
  st_epoch : pq_handshake_done A = true →
    send_epoch A = recv_epoch B ∧ send_epoch_records A = recv_epoch_records B ∧ send_chain A = recv_chain B;
}.

(** The epochs of both directions began in the half hour from [T] on. *)
Definition in_window (T t : Z) : Prop := T <= t < T + MOOR_LINK_REKEY_INTERVAL_MS.
Definition timely (T : Z) (c : moor_connection_t) : Prop :=
  pq_handshake_done c = true → in_window T (send_epoch_start_ms c) ∧ in_window T (recv_epoch_start_ms c).

(** Only then do times matter. *)
Definition timed (T : Z) (c : moor_connection_t) (t : Z) : Prop := pq_handshake_done c = true → in_window T t.

Lemma rekey_due_window T now start records : in_window T now → in_window T start →
  rekey_due now start records = negb (records <? MOOR_LINK_REKEY_RECORDS).
Proof.
  unfold in_window, rekey_due. intros H1 H2. rewrite (proj2 (Z.ltb_lt (if start <=? now then now - start else 0) _)); [by rewrite andb_true_r|].
  destruct (Z.leb_spec start now); lia.
Qed.

(** Receiving leaves the sending half alone, and the reverse. *)
Definition same_send (c c' : moor_connection_t) : Prop :=
  send_key c' = send_key c ∧ send_nonce c' = send_nonce c ∧ pq_handshake_done c' = pq_handshake_done c ∧ outq c' = outq c ∧ write_off c' = write_off c ∧
  peer_identity c' = peer_identity c.
Definition same_recv (c c' : moor_connection_t) : Prop :=
  recv_key c' = recv_key c ∧ recv_nonce c' = recv_nonce c ∧ pq_handshake_done c' = pq_handshake_done c ∧ recv_buf c' = recv_buf c ∧
  peer_identity c' = peer_identity c.

Section Delivery.
  Context (hash : bytes → bytes).
  Context (aead_encrypt aead_decrypt : bytes → bytes → bytes → bytes → option bytes).
  (** ChaCha20-Poly1305 adds 16 bytes and opens what it sealed. *)
  Hypothesis aead_opens : ∀ pt ad n k, ∃ ct,
    aead_encrypt pt ad n k = Some ct ∧ length ct = (length pt + 16)%nat ∧ aead_decrypt ct ad n k = Some pt.
  Context (stale : bytes).
  Hypothesis stale_length : length stale = MOOR_CELL_SIZE.

Abbreviation encrypt_cell := (moor_connection_encrypt_cell hash aead_encrypt).
Abbreviation send_cell := (moor_connection_send_cell hash aead_encrypt).
Abbreviation recv_cell := (moor_connection_recv_cell hash aead_decrypt).
Abbreviation rotate_send := (link_rekey_send_maybe_rotate hash).
Abbreviation rotate_recv := (link_rekey_recv_maybe_rotate hash).

(** The parts of a connection that rotation leaves alone. *)
Lemma rotate_send_fields now c : let c' := rotate_send now c in
  link_state c' = link_state c ∧ send_nonce c' = send_nonce c ∧ pq_handshake_done c' = pq_handshake_done c ∧ outq c' = outq c ∧ write_off c' = write_off c.
Proof. unfold link_rekey_send_maybe_rotate. destruct (pq_handshake_done c) eqn:E, (rekey_due _ _ _); cbn; by rewrite ?E. Qed.

Lemma rotate_recv_fields now c : let c' := rotate_recv now c in
  link_state c' = link_state c ∧ recv_nonce c' = recv_nonce c ∧ pq_handshake_done c' = pq_handshake_done c ∧ recv_buf c' = recv_buf c.
Proof. unfold link_rekey_recv_maybe_rotate. destruct (pq_handshake_done c) eqn:E, (rekey_due _ _ _); cbn; by rewrite ?E. Qed.

Lemma rotate_recv_same now c : same_send c (rotate_recv now c).
Proof. unfold link_rekey_recv_maybe_rotate. destruct (pq_handshake_done c) eqn:E, (rekey_due _ _ _); by unfold same_send; cbn; rewrite ?E. Qed.

Lemma rotate_send_same now c : same_recv c (rotate_send now c).
Proof. unfold link_rekey_send_maybe_rotate. destruct (pq_handshake_done c) eqn:E, (rekey_due _ _ _); by unfold same_recv; cbn; rewrite ?E. Qed.

Lemma send_cell_same now writes ok c cell r c' w : send_cell now writes ok c cell = (r, c', w) → same_recv c c'.
Proof.
  unfold moor_connection_send_cell, moor_connection_encrypt_cell. destruct (negb _); [by intros [= _ <- _]|].
  destruct (_ =? _); [by intros [= _ <- _]|]. pose proof (rotate_send_same now c) as Hs. set (c1 := rotate_send now c) in *. clearbody c1.
  destruct (moor_crypto_aead_encrypt _ _ _ _ _) as [ct|]; [|by intros [= _ <- _]]. destruct (send_loop _ _) as [w' [|rest|]]; [by intros [= _ <- _]| |by intros [= _ <- _]].
  destruct (moor_queue_push _ _ _); by intros [= _ <- _].
Qed.

Lemma rotate_paired S T s t A B : paired A B → timely S A → timely T B → timed S A s → timed T B t →
  paired (rotate_send s A) (rotate_recv t B) ∧ timely S (rotate_send s A) ∧ timely T (rotate_recv t B).
Proof.
  intros [Hk Hn Hp He] HS HT Hs Ht. unfold link_rekey_send_maybe_rotate, link_rekey_recv_maybe_rotate. rewrite <- Hp.
  destruct (pq_handshake_done A) eqn:EA; cbn [negb]; [|by split; [split; rewrite ?EA|]].
  destruct (He eq_refl) as (E1 & E2 & E3). destruct (HS EA) as [S1 S2]. destruct (HT (eq_sym Hp)) as [T1 T2].
  specialize (Hs EA). specialize (Ht (eq_sym Hp)).
  rewrite (rekey_due_window S), (rekey_due_window T), E2 by done. destruct (recv_epoch_records B <? _); cbn [negb].
  - split; [split; rewrite ?EA; auto|]. by split.
  - split; [|by split]. split; cbn; rewrite ?E1, ?E3; try done; congruence.
Qed.

(** ** Frames *)

Lemma encrypt_cell_ok now c cell : link_state c = CONN_STATE_OPEN → 0 <= send_nonce c < UINT64_MAX → cell_ok cell →
  ∃ ct, let c1 := rotate_send now c in
    encrypt_cell now c cell = ({| c1 with send_nonce := send_nonce c + 1; send_epoch_records := u64 (send_epoch_records c1 + 1) |}, Some (link_frame ct)) ∧
    length ct = 530%nat ∧ aead_decrypt ct [] (nonce_buf (send_nonce c)) (send_key c1) = Some (moor_cell_pack cell).
Proof.
  clear stale_length.
  intros Ho Hn Hc. destruct (rotate_send_fields now c) as (_ & En & _). cbv zeta in *.
  destruct (aead_opens (moor_cell_pack cell) [] (nonce_buf (send_nonce c)) (send_key (rotate_send now c))) as (ct & E1 & E2 & E3).
  exists ct. unfold moor_connection_encrypt_cell. rewrite bool_decide_true by done. cbn [negb]. rewrite (proj2 (Z.eqb_neq _ _)) by lia.
  unfold moor_crypto_aead_encrypt. rewrite En, E1. rewrite u64_small by (unfold is_u64, UINT64_MAX in *; lia).
  split; [done|]. split; [|done]. rewrite E2, length_moor_cell_pack; [done|]. destruct Hc as (_ & _ & Hp). exact Hp.
Qed.

Lemma recv_frame_short now c tl fs : Forall is_frame fs → recv_buf c ++ tl = concat fs → (length (recv_buf c) < 532)%nat →
  recv_frame hash aead_decrypt now stale c = (0, c, None).
Proof.
  clear stale_length.
  intros Hfs E Hl. unfold recv_frame. destruct (Nat.ltb_spec (length (recv_buf c)) 2) as [H2|H2]; [done|].
  cbv zeta. rewrite (frame_len_stream _ tl fs) by (done || lia). change (530 <? MOOR_MAC_LEN) with false.
  change (Z.of_nat MOOR_CELL_SIZE + MOOR_MAC_LEN <? 530) with false. cbn [orb]. by rewrite (proj2 (Z.ltb_lt _ _)) by lia.
Qed.

(** A call finds too little for a frame, or goes on to take the first one. *)
Lemma recv_cell_progress now reads B fs fut : link_state B = CONN_STATE_OPEN → Forall is_frame fs → Forall readable reads →
  recv_buf B ++ read_bytes reads ++ fut = concat fs →
  ∃ buf reads', let B1 := {| B with recv_buf := buf |} in
    Forall readable reads' ∧ buf ++ read_bytes reads' ++ fut = concat fs ∧
    if (532 <=? length buf)%nat
    then recv_cell now stale reads B = (recv_frame hash aead_decrypt now stale B1, reads') ∧ (work reads' B1 <= work reads B)%nat
    else recv_cell now stale reads B = (0, B1, None, reads') ∧ (reads' = [] ∨ (work reads' B1 < work reads B)%nat).
Proof.
  clear stale_length.
  intros Ho Hfs Hr E. unfold moor_connection_recv_cell. rewrite bool_decide_true by done. cbn [negb]. pose proof (complete_stream _ _ _ Hfs E) as Hc.
  destruct (Nat.leb_spec 532 (length (recv_buf B))) as [Hl|Hl].
  { exists (recv_buf B), reads. unfold recv_more. rewrite Hc. cbn [orb]. rewrite (proj2 (Nat.leb_le _ _)) by lia. by destruct B. }
  pose proof (recv_more_ok reads B Hr Hc Hl) as H. destruct (recv_more reads B) as [[r reads']|[B1 reads']].
  - destruct H as (-> & E1 & Hr' & Hw). exists (recv_buf B), reads'. rewrite E1, (proj2 (Nat.leb_gt _ _)) by lia.
    replace {| B with recv_buf := recv_buf B |} with B by by destruct B. by split_and!.
  - destruct H as (E1 & E2 & Hr' & Hw). exists (recv_buf B1), reads'. cbv zeta. rewrite <- E1, app_assoc, E2, <- app_assoc.
    split; [done|]. split; [done|]. destruct (Nat.leb_spec 532 (length (recv_buf B1))) as [Hl1|Hl1]; [split; [done|lia]|].
    split; [|by right]. f_equal. apply (recv_frame_short _ _ (read_bytes reads' ++ fut) fs); [done| |done]. by rewrite app_assoc, E2, <- app_assoc.
Qed.

(** With a whole frame in the buffer all depends on whether it opens. *)
Lemma recv_frame_at now c ct tl : length ct = 530%nat → recv_buf c = link_frame ct ++ tl → recv_nonce c ≠ UINT64_MAX →
  let c1 := rotate_recv now c in let opens k := moor_crypto_aead_decrypt aead_decrypt ct [] k (recv_nonce c) in
  recv_frame hash aead_decrypt now stale c =
    match (match opens (recv_key c1) with Some pt => Some pt | None => if recv_prev_valid c1 then opens (recv_prev_key c1) else None end) with
    | None => (-1, {| c1 with recv_buf := [] |}, None)
    | Some pt => (1, {| c1 with recv_nonce := u64 (recv_nonce c + 1); recv_epoch_records := u64 (recv_epoch_records c1 + 1); recv_buf := tl |},
                  Some (moor_cell_unpack (blit 0 pt stale)))
    end.
Proof.
  intros Hc Hb Hn c1 opens. destruct (rotate_recv_fields now c) as (_ & En & _ & Eb). fold c1 in En, Eb. unfold recv_frame.
  assert (Hlen : (532 <= length (recv_buf c))%nat) by (rewrite Hb, length_app, length_link_frame, Hc; lia).
  rewrite (proj2 (Nat.ltb_ge _ _)) by lia. cbv zeta.
  assert (Hf : frame_len (recv_buf c) = 530) by (rewrite Hb; unfold frame_len, link_frame; rewrite Hc; done). rewrite Hf.
  change (530 <? MOOR_MAC_LEN) with false. change (Z.of_nat MOOR_CELL_SIZE + MOOR_MAC_LEN <? 530) with false. cbn [orb].
  rewrite (proj2 (Z.ltb_ge _ _)) by lia. rewrite (proj2 (Z.eqb_neq _ _)) by done. fold c1. rewrite Eb, Hb, En.
  assert (Ect : slice 2 (Z.to_nat 530) (link_frame ct ++ tl) = ct).
  { unfold slice, link_frame. cbn [app drop]. change (Z.to_nat 530) with 530%nat. by apply take_app_length'. }
  rewrite Ect. change (Z.to_nat (2 + 530)) with 532%nat. by rewrite drop_app_length' by (rewrite length_link_frame, Hc; done).
Qed.

Lemma recv_frame_full S T s t A B cell ct tl : paired A B → timely S A → timely T B → timed S A s → timed T B t →
  0 <= send_nonce A < UINT64_MAX → cell_ok cell → length ct = 530%nat →
  aead_decrypt ct [] (nonce_buf (send_nonce A)) (send_key (rotate_send s A)) = Some (moor_cell_pack cell) →
  recv_buf B = link_frame ct ++ tl →
  let A1 := rotate_send s A in let B1 := rotate_recv t B in
  recv_frame hash aead_decrypt t stale B =
    (1, {| B1 with recv_nonce := send_nonce A + 1; recv_epoch_records := u64 (recv_epoch_records B1 + 1); recv_buf := tl |}, Some cell).
Proof.
  intros Hst HS HT Hs Ht Hn Hcell Hc Hd Hb A1 B1. destruct (rotate_paired S T s t A B Hst HS HT Hs Ht) as ([K1 _ _ _] & _ & _).
  fold A1 B1 in K1, Hd. pose proof (st_nonce _ _ Hst) as Hnn. rewrite (recv_frame_at t B ct tl Hc Hb) by lia. fold B1. cbv zeta.
  unfold moor_crypto_aead_decrypt. rewrite <- Hnn, <- K1, Hd. rewrite u64_small by (unfold is_u64, UINT64_MAX in *; lia).
  assert (Hp : length (moor_cell_pack cell) = MOOR_CELL_SIZE) by (apply length_moor_cell_pack; destruct Hcell as (_ & _ & Hp); exact Hp).
  assert (Ebl : blit 0 (moor_cell_pack cell) stale = moor_cell_pack cell).
  { unfold blit. rewrite take_0, drop_ge by (rewrite Hp; lia). apply app_nil_r. }
  by rewrite Ebl, cell_unpack_pack.
Qed.

(** ** Sending a sequence of cells *)

(** The frames of cells encrypted one after the other, while frames are queued and
    flushed. *)
Inductive encrypts (S : Z) : moor_connection_t → list moor_cell_t → list bytes → moor_connection_t → Prop :=
  | enc_done A : encrypts S A [] [] A
  | enc_queue A q off cells fs A' :
      encrypts S {| A with outq := q; write_off := off |} cells fs A' → encrypts S A cells fs A'
  | enc_cell A now cell f A1 cells fs A' :
      timed S A now → encrypt_cell now A cell = (A1, Some f) → encrypts S A1 cells fs A' → encrypts S A (cell :: cells) (f :: fs) A'.

(** Cells sent one after the other at times of the window that begins at [S], with the
    bytes that the socket took. While frames are queued the socket takes nothing from
    [send_cell]: it takes again when it is writable, and then the queue is flushed
    first. *)
Inductive sends (S : Z) : moor_connection_t → list moor_cell_t → bytes → moor_connection_t → Prop :=
  | sends_done A : sends S A [] [] A
  | sends_flush A writes r A1 w cells w' A' :
      conn_flush writes A = (r, A1, w) → sends S A1 cells w' A' → sends S A cells (w ++ w') A'
  | sends_cell A now writes cell A1 w cells w' A' :
      timed S A now → outq A = [] ∨ takes writes = false → send_cell now writes true A cell = (0, A1, w) →
      sends S A1 cells w' A' → sends S A (cell :: cells) (w ++ w') A'.

(** A connection that can send [n] cells. *)
Definition can_send (n : nat) (c : moor_connection_t) : Prop :=
  link_state c = CONN_STATE_OPEN ∧ 0 <= send_nonce c ∧ send_nonce c + Z.of_nat n <= UINT64_MAX.

Lemma send_cell_stream now writes A cell A1 w n : can_send (S n) A → cell_ok cell → queue_ok A → outq A = [] ∨ takes writes = false →
  send_cell now writes true A cell = (0, A1, w) →
  ∃ f A0, encrypt_cell now A cell = (A0, Some f) ∧ is_frame f ∧ w ++ pending A1 = pending A ++ f ∧ queue_ok A1 ∧ can_send n A1 ∧
    A1 = {| A0 with outq := outq A1; write_off := write_off A1 |}.
Proof.
  clear stale_length.
  intros (Ho & Hn0 & Hn) Hc [Hq1 Hq2] Hor Hs. destruct (encrypt_cell_ok now A cell Ho) as (ct & E & Hct & _); [lia|done|].
  destruct (rotate_send_fields now A) as (E1 & E2 & _ & E4 & E5). unfold moor_connection_send_cell in Hs. cbv zeta in E. rewrite E in Hs.
  exists (link_frame ct). eexists. split; [exact E|]. assert (Hf : is_frame (link_frame ct)) by (by exists ct). split; [done|].
  assert (Hcs : can_send n A1).
  { destruct (send_loop _ _) as [w0 [|rest|]]; cbn in Hs; simplify_eq; (split; [by rewrite <- Ho, <- E1|cbn; lia]). }
  pose proof (send_loop_stream writes (link_frame ct)) as Hl. destruct (send_loop writes (link_frame ct)) as [w0 [|rest|]]; cbn in Hs; simplify_eq.
  - destruct Hl as [-> Hl]. unfold pending, queue_ok in *; cbn in *; rewrite E4, E5. destruct Hor as [Hor|Hor].
    + rewrite Hor in *. cbn. rewrite app_nil_r. split_and!; try done.
    + apply length_is_frame in Hf. rewrite (Hl Hor) in Hf. done.
  - destruct Hl as (El & Hne & Ht). apply length_is_frame in Hf as Hlen. assert (Hr : (length rest <= 532)%nat) by (rewrite <- Hlen, <- El, length_app; lia).
    unfold MOOR_CELL_WIRE_SIZE in *. unfold pending, queue_ok in *; cbn in *; rewrite E4, E5, (take_ge rest) by lia.
    destruct (outq A) as [|g q] eqn:Eq; cbn.
    + rewrite Hq2. cbn. rewrite drop_0, app_nil_r. split; [done|]. split; [|done]. split; [by repeat constructor|]. destruct rest; [done|cbn; lia].
    + destruct Hor as [|Hor]; [done|]. rewrite (Ht Hor) in *. cbn in El |- *. rewrite concat_app. cbn. rewrite app_nil_r, El, app_assoc.
      split; [done|]. split; [|done]. split; [|done]. apply Forall_cons in Hq1 as [? ?]. constructor; [done|]. apply Forall_app. split; [done|]. by repeat constructor; rewrite <- El.
Qed.

(** What was written and what is queued are the frames in order. *)
Lemma sends_encrypts S A cells w A' : sends S A cells w A' → queue_ok A → can_send (length cells) A → Forall cell_ok cells →
  ∃ fs, encrypts S A cells fs A' ∧ Forall is_frame fs ∧ w ++ pending A' = pending A ++ concat fs.
Proof.
  clear stale_length.
  induction 1 as [A|A writes r A1 w cells w' A' Hf _ IH|A now writes cell A1 w cells w' A' Hn Hor Hs _ IH]; intros Hq Hc Hok.
  - exists []. rewrite app_nil_r. split_and!; [constructor..|done].
  - destruct (conn_flush_stream writes A r A1 w Hq Hf) as (E1 & Hq1 & E2). destruct IH as (fs & I1 & I2 & I3); [done| |done|].
    { rewrite E2. exact Hc. }
    exists fs. split; [|split; [done|by rewrite <- app_assoc, I3, app_assoc, E1]]. apply (enc_queue S A (outq A1) (write_off A1)). by rewrite <- E2.
  - apply Forall_cons in Hok as [Hc1 Hok]. destruct (send_cell_stream now writes A cell A1 w (length cells) Hc Hc1 Hq Hor Hs) as (f & A0 & F1 & F2 & F3 & F4 & F5 & F6).
    destruct IH as (fs & I1 & I2 & I3); [done..|]. exists (f :: fs). split; [|split; [by constructor|]].
    + apply (enc_cell S A now cell f A0); [done..|]. apply (enc_queue S A0 (outq A1) (write_off A1)). by rewrite <- F6.
    + cbn [concat]. by rewrite <- app_assoc, I3, app_assoc, F3, <- app_assoc.
Qed.

(** ** Receiving them *)

(** Cells until the socket has nothing more; [clock] is the time of each call. *)
Fixpoint recv_all (clock : nat → Z) (fuel : nat) (reads : list read_event) (c : moor_connection_t)
    : list moor_cell_t * moor_connection_t * list read_event :=
  match fuel with
  | O => ([], c, reads)
  | S fuel =>
      match recv_cell (clock fuel) stale reads c with
      | (1, c, Some cell, reads) => let '(cells, c, reads) := recv_all clock fuel reads c in (cell :: cells, c, reads)
      | (0, c, _, reads) => if (length reads =? 0)%nat then ([], c, reads) else recv_all clock fuel reads c
      | (_, c, _, reads) => ([], c, reads)
      end
  end.

(** The first frame arrives as its cell, and leaves the ends in step. *)
Lemma recv_next S T s t A B cell f A1 n tl : paired A B → timely S A → timely T B → timed S A s → timed T B t →
  can_send (Datatypes.S n) A → link_state B = CONN_STATE_OPEN → cell_ok cell → encrypt_cell s A cell = (A1, Some f) → recv_buf B = f ++ tl →
  ∃ B', recv_frame hash aead_decrypt t stale B = (1, B', Some cell) ∧ recv_buf B' = tl ∧ paired A1 B' ∧ timely S A1 ∧ timely T B' ∧
    can_send n A1 ∧ link_state B' = CONN_STATE_OPEN ∧ same_send B B'.
Proof.
  intros Hst HS HT Hs Ht (Ho & Hn0 & Hn) HB Hc He Hb. destruct (encrypt_cell_ok s A cell Ho) as (ct & E & Hct & Hd); [lia|done|]. cbv zeta in E.
  rewrite E in He. simplify_eq. destruct (rotate_paired S T s t A B Hst HS HT Hs Ht) as ([K1 K2 K3 K4] & HS1 & HT1).
  destruct (rotate_send_fields s A) as (E1 & _). destruct (rotate_recv_fields t B) as (E2 & _).
  eexists. split; [eapply (recv_frame_full S T s t A B cell ct tl); try done; lia|]. split; [done|]. split.
  { split; cbn; try done. intros Hp. destruct (K4 Hp) as (? & ? & ?). split_and!; [done|f_equal; f_equal; done|done]. }
  split; [done|]. split; [done|]. split; [|split; [by cbn; rewrite E2|exact (rotate_recv_same t B)]]. split; [by cbn; rewrite E1|cbn; lia].
Qed.

Definition delivers (S T : Z) (A B : moor_connection_t) (cells : list moor_cell_t) : Prop :=
  paired A B ∧ timely S A ∧ timely T B ∧ can_send (length cells) A ∧ link_state B = CONN_STATE_OPEN ∧ Forall cell_ok cells.

Lemma encrypts_inv S A cells fs A' : encrypts S A cells fs A' →
  (cells = [] ∧ fs = []) ∨
  ∃ q off now cell f A1 cells' fs', cells = cell :: cells' ∧ fs = f :: fs' ∧ timed S A now ∧
    encrypt_cell now {| A with outq := q; write_off := off |} cell = (A1, Some f) ∧ encrypts S A1 cells' fs' A'.
Proof.
  induction 1 as [A|A q off cells fs A' Henc IH|A now cell f A1 cells fs A' Hn He Henc IH]; [by left| |].
  - destruct IH as [IH|(q' & off' & now & cell & f & A1 & cells' & fs' & IH)]; [by left|]. right. by exists q', off', now, cell, f, A1, cells', fs'.
  - right. exists (outq A), (write_off A), now, cell, f, A1, cells, fs. by replace {| A with outq := outq A; write_off := write_off A |} with A by by destruct A.
Qed.

(** Of the cells on the way those whose frames have arrived in full are received. *)
Lemma recv_all_ok S T clock A' : (∀ i, in_window T (clock i)) → ∀ fuel A cells fs B reads fut, encrypts S A cells fs A' →
  delivers S T A B cells → Forall is_frame fs → Forall readable reads → recv_buf B ++ read_bytes reads ++ fut = concat fs →
  (work reads B < fuel)%nat →
  ∃ k A1 B', recv_all clock fuel reads B = (take k cells, B', []) ∧ (k <= length fs)%nat ∧ delivers S T A1 B' (drop k cells) ∧
    encrypts S A1 (drop k cells) (drop k fs) A' ∧ recv_buf B' ++ fut = concat (drop k fs) ∧ (length (recv_buf B') < 532)%nat.
Proof.
  intros Hclk fuel. induction fuel as [|fuel IH]; [lia|]. intros A cells fs B reads fut Henc Hd Hfs Hr E Hw. cbn [recv_all].
  pose proof Hd as (Hst & HS & HT & Hcs & Ho & Hok).
  destruct (recv_cell_progress (clock fuel) reads B fs fut Ho Hfs Hr E) as (buf & reads' & Hr' & E' & Hp). cbv zeta in Hp.
  destruct (Nat.leb_spec 532 (length buf)) as [Hl|Hl]; destruct Hp as [Hp Hw'].
  - destruct (encrypts_inv S A cells fs A' Henc) as [[-> ->]|(q & off & now & cell & f & A1 & cells' & fs' & -> & -> & Hn & He & Henc')].
    { apply (f_equal length) in E'. rewrite length_app in E'. cbn in E'. lia. }
    apply Forall_cons in Hfs as [Hf Hfs]. apply Forall_cons in Hok as [Hc Hok]. cbn [concat] in E'. apply length_is_frame in Hf.
    assert (Eb : buf = f ++ drop 532 buf).
    { rewrite <- (take_drop 532 buf) at 1. f_equal. apply (f_equal (take 532)) in E'. by rewrite take_app_le, take_app_length' in E' by lia. }
    destruct (recv_next S T now (clock fuel) {| A with outq := q; write_off := off |} {| B with recv_buf := buf |} cell f A1 (length cells') (drop 532 buf)
      ltac:(by destruct Hst) HS HT Hn (λ _, Hclk fuel) Hcs Ho Hc He Eb) as (B' & F1 & F2 & F3 & F4 & F5 & F6 & F7 & _).
    rewrite Hp, F1. destruct (IH A1 cells' fs' B' reads' fut Henc') as (k & A2 & B2 & I1 & I2 & I3); [done|done|done| | |].
    { apply (app_inv_head f). by rewrite F2, app_assoc, <- Eb. }
    { unfold work in *. rewrite F2, length_drop. cbn in Hw'. lia. }
    exists (Datatypes.S k), A2, B2. rewrite I1. split; [done|]. split; [cbn; lia|done].
  - rewrite Hp. destruct reads' as [|e reads']; cbn [length Nat.eqb].
    { exists 0%nat, A, {| B with recv_buf := buf |}. rewrite take_0, !drop_0. split; [done|]. split; [lia|]. split; [|by split_and!].
      split; [by destruct Hst|done]. }
    destruct Hw' as [|Hw']; [done|]. apply (IH A cells fs); [done| |done|done|done|lia]. split; [by destruct Hst|done].
Qed.

Lemma encrypts_nil S A A' B : encrypts S A [] [] A' → paired A B → paired A' B.
Proof.
  intros Henc. remember ([] : list moor_cell_t) as cs eqn:Ec. remember ([] : list bytes) as fs0 eqn:Ef. revert Ec Ef. induction Henc as [A|A q off cells fs A' _ IH|]; intros Ec Ef Hst; [done| |done].
  apply IH; [done..|]. by destruct Hst.
Qed.


(** ** Where the ends part *)

(** C39. Rekeying by time takes a link down: the epoch of the sender has lasted half an
    hour on its clock, that of the receiver has not on its own, for example since its
    handshake ended later, and records are far from the limit. The sender encrypts the
    next record with the next key of the chain, with which it opens. The receiver tries
    its current key and the previous one and, when they do not open it, returns -1 and
    empties its buffer. *)
Theorem rekey_desync s t T A B cell :
  paired A B → pq_handshake_done A = true → can_send 1 A → cell_ok cell →
  send_epoch_records A < MOOR_LINK_REKEY_RECORDS → MOOR_LINK_REKEY_INTERVAL_MS <= s - send_epoch_start_ms A →
  in_window T t → in_window T (recv_epoch_start_ms B) →
  ∃ A' ct, encrypt_cell s A cell = (A', Some (link_frame ct)) ∧
    let opens k := aead_decrypt ct [] (nonce_buf (recv_nonce B)) k in
    opens (moor_crypto_link_rekey hash (recv_chain B) (u64 (recv_epoch B + 1))) = Some (moor_cell_pack cell) ∧
    (opens (recv_key B) = None → (recv_prev_valid B = true → opens (recv_prev_key B) = None) →
     ∀ rest, recv_frame hash aead_decrypt t stale {| B with recv_buf := link_frame ct ++ rest |} = (-1, {| B with recv_buf := [] |}, None)).
Proof.
  intros [Hk Hn Hp He] Hpq (Ho & Hn0 & Hn1) Hc Hrec Hs Ht Hst. destruct (He Hpq) as (E1 & E2 & E3).
  destruct (encrypt_cell_ok s A cell Ho ltac:(lia) Hc) as (ct & Eenc & Hct & Hd). cbv zeta in *. do 2 eexists. split; [exact Eenc|]. clear Eenc. split.
  - rewrite <- Hn, <- E1, <- E3, <- Hd. unfold link_rekey_send_maybe_rotate. rewrite Hpq. cbn [negb]. unfold rekey_due.
    rewrite (proj2 (Z.leb_le (send_epoch_start_ms A) s)) by (unfold MOOR_LINK_REKEY_INTERVAL_MS in Hs; lia).
    by rewrite (proj2 (Z.ltb_ge _ MOOR_LINK_REKEY_INTERVAL_MS)), andb_false_r by lia.
  - intros H1 H2 rest. set (B1 := {| B with recv_buf := link_frame ct ++ rest |}). assert (Er : rotate_recv t B1 = B1).
    { unfold link_rekey_recv_maybe_rotate. cbn. rewrite <- Hp, Hpq. cbn [negb]. rewrite (rekey_due_window T) by done. by rewrite <- E2, (proj2 (Z.ltb_lt _ _)). }
    rewrite (recv_frame_at t B1 ct rest Hct eq_refl) by (cbn; lia). cbv zeta. rewrite Er. unfold moor_crypto_aead_decrypt, B1. cbn [recv_key recv_nonce recv_prev_valid recv_prev_key]. rewrite H1.
    destruct (recv_prev_valid B); [by rewrite H2|done].
Qed.

(** C40. A frame overtakes the rest of an earlier one: while bytes are queued and the
    socket has room again, [moor_connection_send_cell] writes its frame to the socket at
    once, and the queued bytes, which may begin inside a frame, still wait. *)
Theorem send_overtakes now writes A cell : can_send 1 A → queue_ok A → outq A ≠ [] → cell_ok cell →
  (MOOR_CELL_WIRE_SIZE <= capacity writes)%nat →
  ∃ f A', send_cell now writes true A cell = (0, A', f) ∧ is_frame f ∧ pending A' = pending A ∧ pending A ≠ [].
Proof.
  clear stale_length.
  intros (Ho & Hn0 & Hn) [Hq1 Hq2] Hq Hc Hw. destruct (encrypt_cell_ok now A cell Ho ltac:(lia) Hc) as (ct & E & Hct & _). cbv zeta in E.
  destruct (rotate_send_fields now A) as (_ & _ & _ & E4 & E5). exists (link_frame ct). eexists.
  split; [unfold moor_connection_send_cell; rewrite E, send_loop_capacity by (by rewrite length_link_frame, Hct); reflexivity|]. split; [by exists ct|].
  unfold pending. cbn. rewrite E4, E5. split; [done|]. destruct (outq A) as [|g q]; [done|]. intros [Hg _]%app_eq_nil.
  apply (f_equal length) in Hg. rewrite length_drop in Hg. cbn in Hg. lia.
Qed.
End Delivery.

(** ** Instances *)

(** An AEAD whose tag is the beginning of the key. *)
Module ToyLink.
Definition tag (k : bytes) : bytes := take 16 (k ++ zeros 16).
Definition aead_encrypt (pt ad n k : bytes) : option bytes := Some (pt ++ tag k).
Definition aead_decrypt (ct ad n k : bytes) : option bytes :=
  let m := (length ct - 16)%nat in if bytes_eqb (drop m ct) (tag k) then Some (take m ct) else None.
Definition hash (m : bytes) : bytes := replicate 32 1.
Definition stale : bytes := zeros MOOR_CELL_SIZE.

Lemma length_tag k : length (tag k) = 16%nat.
Proof. unfold tag. rewrite length_take, length_app. unfold zeros. rewrite length_replicate. lia. Qed.

Lemma aead_opens pt ad n k : ∃ ct, aead_encrypt pt ad n k = Some ct ∧ length ct = (length pt + 16)%nat ∧ aead_decrypt ct ad n k = Some pt.
Proof.
  exists (pt ++ tag k). split; [done|]. rewrite length_app, length_tag. split; [done|]. unfold aead_decrypt. rewrite length_app, length_tag.
  replace (length pt + 16 - 16)%nat with (length pt) by lia. rewrite drop_app_length, take_app_length. unfold bytes_eqb. by rewrite bool_decide_true.
Qed.

Definition stale_length : length stale = MOOR_CELL_SIZE := eq_refl.

(** An end whose epochs began at [start]. *)
Definition conn (start : Z) : moor_connection_t :=
  let key := replicate 32 7 in
  mk_conn CONN_STATE_OPEN (zeros 32) key key 3 3 [] [] [] true [] 0 true 0 0 10 10 start start key key (zeros 32) (zeros 32) false false.

Lemma in_step_conn s t : paired (conn s) (conn t).
Proof. by split. Qed.

Definition cell (k : Z) : moor_cell_t := mk_cell 5 4 (replicate MOOR_CELL_PAYLOAD k).

Lemma cell_fine k : 0 <= k < 256 → cell_ok (cell k).
Proof. intros Hk. split; [done|]. split; [done|]. split; [apply length_replicate|]. by apply Forall_replicate. Qed.

(** A first cell of which the socket takes 100 bytes at once, a flush of the rest, and a
    second cell. *)
Definition step1 := moor_connection_send_cell hash aead_encrypt 2000 [Wrote 100; WouldBlock] true (conn 1000) (cell 1).
Definition step2 := conn_flush [Wrote 432] step1.1.2.
Definition step3 := moor_connection_send_cell hash aead_encrypt 3000 [Wrote 500; Wrote 32] true step2.1.2 (cell 2).
Definition stream : bytes := step1.2 ++ step2.2 ++ step3.2.
Definition reads : list read_event := [Read (take 40 stream); NotReady; Read (drop 40 stream)].

Lemma sent : sends hash aead_encrypt 1000 (conn 1000) [cell 1; cell 2] (step1.2 ++ step2.2 ++ step3.2 ++ []) step3.1.2.
Proof.
  assert (Hw : ∀ c t, 1000 <= t <= 3000 → timed 1000 c t) by (intros c t Ht _; unfold in_window, MOOR_LINK_REKEY_INTERVAL_MS; lia).
  apply (sends_cell _ _ _ (conn 1000) 2000 [Wrote 100; WouldBlock] (cell 1) step1.1.2); [apply Hw; lia|by left|by vm_compute|].
  apply (sends_flush _ _ _ step1.1.2 [Wrote 432] 1 step2.1.2); [by vm_compute|].
  apply (sends_cell _ _ _ step2.1.2 3000 [Wrote 500; Wrote 32] (cell 2) step3.1.2); [apply Hw; lia|left; by vm_compute|by vm_compute|constructor].
Qed.

Lemma ready : delivers 1000 1500 (conn 1000) (conn 1500) [cell 1; cell 2].
Proof.
  assert (Ht : ∀ t, timely t (conn t)) by (intros t _; unfold in_window, MOOR_LINK_REKEY_INTERVAL_MS; cbn; lia).
  split; [apply in_step_conn|]. split; [apply Ht|]. split; [apply Ht|]. split; [split; [done|cbn; unfold UINT64_MAX; lia]|]. split; [done|].
  apply List.Forall_cons; [by apply cell_fine|]. apply List.Forall_cons; [by apply cell_fine|constructor].
Qed.
End ToyLink.


(** The receiver finished its handshake a second later. *)
Lemma rekey_desync_witness : ∃ A' ct, moor_connection_encrypt_cell ToyLink.hash ToyLink.aead_encrypt 1800000 (ToyLink.conn 0) (ToyLink.cell 1) = (A', Some (link_frame ct)) ∧
  let B := ToyLink.conn 1000 in
  recv_frame ToyLink.hash ToyLink.aead_decrypt 1800500 ToyLink.stale {| B with recv_buf := link_frame ct |} = (-1, B, None).
Proof.
  destruct (rekey_desync ToyLink.hash ToyLink.aead_encrypt ToyLink.aead_decrypt ToyLink.aead_opens ToyLink.stale ToyLink.stale_length 1800000 1800500 1000
    (ToyLink.conn 0) (ToyLink.conn 1000) (ToyLink.cell 1) (ToyLink.in_step_conn 0 1000) eq_refl) as (A' & ct & E1 & E2 & E3).
  - split; [done|]. cbn. unfold UINT64_MAX. lia.
  - by apply ToyLink.cell_fine.
  - done.
  - done.
  - done.
  - done.
  - exists A', ct. split; [exact E1|]. assert (Ec : ct = moor_cell_pack (ToyLink.cell 1) ++ ToyLink.tag (replicate 32 1)).
    { apply (f_equal (λ r, drop 2 (default [] r.2))) in E1. symmetry. exact E1. }
    rewrite <- (app_nil_r (link_frame ct)). apply E3; [|discriminate]. rewrite Ec. vm_compute. reflexivity.
Defined.

Lemma send_overtakes_witness :
  let A := ToyLink.step1.1.2 in
  ∃ f A', moor_connection_send_cell ToyLink.hash ToyLink.aead_encrypt 2000 [Wrote 532] true A (ToyLink.cell 2) = (0, A', f) ∧ length f = 532%nat ∧
    pending A' = drop 100 (link_frame (moor_cell_pack (ToyLink.cell 1) ++ ToyLink.tag (replicate 32 7))).
Proof.
  intros A. destruct (send_overtakes ToyLink.hash ToyLink.aead_encrypt ToyLink.aead_decrypt ToyLink.aead_opens 2000 [Wrote 532]
    A (ToyLink.cell 2)) as (f & A' & E1 & E2 & E3 & _).
  - split; [by vm_compute|]. split; by vm_compute.
  - split; [|by vm_compute; lia]. apply List.Forall_cons; [by vm_compute|constructor].
  - by vm_compute.
  - by apply ToyLink.cell_fine.
  - apply Nat.leb_le. vm_compute. reflexivity.
  - exists f, A'. split; [exact E1|]. split; [by apply length_is_frame|]. rewrite E3. vm_compute. reflexivity.
Defined.
