(* ===== verification/LinkUp.v ===== *)
(** * LinkUp: the handshake of a link

    Two honest ends of [Link] that run the Noise_IK handshake and the KEM exchange end in
    step in both directions, so that [LinkSafe] applies to every cell they send then. The
    KEM is ML-KEM, with what [MlkemKem] proves of it. *)

From Stdlib Require Import String.
From S2P Require Import Prelude Wire Text Cell Onion Crypto Handshake Build Mlkem MlkemNtt MlkemKem Link LinkSafe.

Local Open Scope Z_scope.

(** ** Reading and writing during the handshake *)

(** The events of a socket that delivers bytes in pieces. *)
Definition is_read (e : read_event) : Prop := match e with Read b => b ≠ [] | _ => False end.

Lemma is_read_readable reads : Forall is_read reads → Forall readable reads.
Proof. intros H. apply (Forall_impl _ _ _ H). by intros []. Qed.

Lemma read_exact_all reads : Forall is_read reads → read_exact (length (read_bytes reads)) reads = Some (read_bytes reads, []).
Proof.
  induction 1 as [|[|b| |] reads Hb _ IH]; try done. change (read_bytes (Read b :: reads)) with (b ++ read_bytes reads). rewrite length_app.
  assert (Hl : (0 < length b)%nat) by (destruct b; [done|cbn; lia]). cbn [read_exact].
  rewrite (proj2 (Nat.eqb_neq (length b + _) 0)), (proj2 (Nat.eqb_neq (length b) 0)), (proj2 (Nat.leb_le _ _)) by lia.
  replace (length b + length (read_bytes reads) - length b)%nat with (length (read_bytes reads)) by lia. by rewrite IH.
Qed.

Lemma read_buffered_all reads c msg : Forall is_read reads → recv_buf c ++ read_bytes reads = msg →
  read_exact_buffered (length msg) c reads = Some (msg, {| c with recv_buf := [] |}, []).
Proof.
  intros Hr <-. unfold read_exact_buffered. rewrite length_app, Nat.min_r by lia.
  replace (length (recv_buf c) + length (read_bytes reads) - length (recv_buf c))%nat with (length (read_bytes reads)) by lia.
  rewrite read_exact_all by done. cbn [mbind option_bind]. by rewrite take_ge, drop_ge by lia.
Qed.

Lemma is_read_count reads : Forall is_read reads → (length reads <= length (read_bytes reads))%nat.
Proof.
  induction 1 as [|[|b| |] reads Hb _ IH]; try done. change (read_bytes (Read b :: reads)) with (b ++ read_bytes reads). rewrite length_app.
  destruct b; [done|]. cbn [length]. lia.
Qed.

(** ** The cells of a KEM key or ciphertext *)

Lemma kem_cells_ok m : ∀ data, bytes_ok data → Forall cell_ok (kem_ct_cells m 0 data).
Proof.
  induction m as [|m IH]; intros [|b data] Hb; cbn [kem_ct_cells]; constructor; [|by apply IH, Forall_drop].
  split; [done|]. split; [done|]. cbn [payload]. set (l := take MOOR_CELL_PAYLOAD (b :: data)).
  assert (Hl : (length l <= MOOR_CELL_PAYLOAD)%nat) by (unfold l; rewrite length_take; lia). rewrite kem_chunk_cell by done. split.
  - rewrite length_app. unfold zeros. rewrite length_replicate. lia.
  - apply Forall_app. split; [by apply Forall_take|by apply Forall_replicate].
Qed.

(** The first of the cells, and the data of the others. *)
Lemma kem_cells_cons m data : data ≠ [] → (length data <= m)%nat → ∃ m', m = S m' ∧ (length (drop MOOR_CELL_PAYLOAD data) <= m')%nat ∧
  kem_ct_cells m 0 data = mk_cell 0 (cell_code CELL_KEM_CT) (blit 0 (take MOOR_CELL_PAYLOAD data) (zeros MOOR_CELL_PAYLOAD))
    :: kem_ct_cells m' 0 (drop MOOR_CELL_PAYLOAD data).
Proof.
  intros Hd Hm. destruct data as [|b data]; [done|]. destruct m as [|m]; [cbn in Hm; lia|]. exists m. split; [done|]. split; [|done].
  rewrite length_drop. cbn [length] in *. unfold MOOR_CELL_PAYLOAD. lia.
Qed.

Lemma kem_chunk data : take (MOOR_CELL_PAYLOAD `min` length data) (blit 0 (take MOOR_CELL_PAYLOAD data) (zeros MOOR_CELL_PAYLOAD)) =
  take MOOR_CELL_PAYLOAD data.
Proof. rewrite kem_chunk_cell by (rewrite length_take; lia). apply take_app_length'. by rewrite length_take. Qed.

Lemma kem_cells_count k : ∀ m data, (length data <= m)%nat → (length data <= MOOR_CELL_PAYLOAD * k)%nat → (length (kem_ct_cells m 0 data) <= k)%nat.
Proof.
  induction k as [|k IH]; intros m data Hm Hk; [destruct data, m; cbn in *; lia|]. destruct (decide (data = [])) as [->|Hne]; [destruct m; cbn; lia|].
  destruct (kem_cells_cons m data Hne Hm) as (m' & -> & Hm' & ->). cbn [length]. apply le_n_S, IH; [done|]. rewrite length_drop. lia.
Qed.

(** ** The halves of a connection *)

Lemma same_send_trans c1 c2 c3 : same_send c1 c2 → same_send c2 c3 → same_send c1 c3.
Proof. unfold same_send. intuition congruence. Qed.

Lemma same_recv_trans c1 c2 c3 : same_recv c1 c2 → same_recv c2 c3 → same_recv c1 c3.
Proof. unfold same_recv. intuition congruence. Qed.

(** Before the KEM secret is mixed in, keys and nonces are all that matters. *)
Lemma paired_same A B A' B' : pq_handshake_done A = false → paired A B → same_send A A' → same_recv B B' → paired A' B'.
Proof.
  intros Hf [H1 H2 H3 _] (S1 & S2 & S3 & _) (R1 & R2 & R3 & _). split; [congruence..|]. intros Ht. congruence.
Qed.

Definition quiet (c : moor_connection_t) : Prop := outq c = [] ∧ write_off c = 0%nat ∧ recv_buf c = [].

Section Handshake.
  Context (hash : bytes → bytes).
  Context (aead_encrypt aead_decrypt : bytes → bytes → bytes → bytes → option bytes).
  Hypothesis aead_opens : ∀ pt ad n k, ∃ ct,
    aead_encrypt pt ad n k = Some ct ∧ length ct = (length pt + 16)%nat ∧ aead_decrypt ct ad n k = Some pt.
  Context (stale : bytes).
  Hypothesis stale_length : length stale = MOOR_CELL_SIZE.
  Context (crypto_scalarmult : bytes → bytes → option bytes) (pub : bytes → bytes).
  Hypothesis pub_length : ∀ sk, length (pub sk) = 32%nat.
  (** X25519 is commutative, and honest keys have no zero product. *)
  Hypothesis dh_agrees : ∀ a b, ∃ s,
    crypto_scalarmult a (pub b) = Some s ∧ crypto_scalarmult b (pub a) = Some s ∧ is_zero s = false.
  Context (ed25519_pk_to_curve25519 ed25519_sk_to_curve25519 : bytes → option bytes).

(** The two halves of an identity convert to a key pair. *)
Definition identity_ok (pk sk x : bytes) : Prop :=
  ed25519_pk_to_curve25519 pk = Some (pub x) ∧ ed25519_sk_to_curve25519 sk = Some x.

Abbreviation dh := (moor_crypto_dh crypto_scalarmult).

Lemma dh_both a b : ∃ s, dh a (pub b) = Some s ∧ dh b (pub a) = Some s.
Proof. destruct (dh_agrees a b) as (s & E1 & E2 & E3). exists s. unfold moor_crypto_dh. by rewrite E1, E2, E3. Qed.

Lemma noise_seal pt h k : ∃ ct, noise_encrypt_and_hash hash aead_encrypt pt h k = Some (ct, noise_mix_hash hash h ct) ∧
  length ct = (length pt + 16)%nat ∧ noise_decrypt_and_hash hash aead_decrypt ct h k = Some (pt, noise_mix_hash hash h ct).
Proof.
  destruct (aead_opens pt h (nonce_buf 0) k) as (ct & E1 & E2 & E3). exists ct.
  unfold noise_encrypt_and_hash, noise_decrypt_and_hash, moor_crypto_aead_encrypt, moor_crypto_aead_decrypt. by rewrite E1, E3.
Qed.

(** ** Noise_IK *)

Abbreviation msg1_of := (noise_msg1 hash aead_encrypt crypto_scalarmult ed25519_pk_to_curve25519 ed25519_sk_to_curve25519).
Abbreviation msg2_at := (noise_msg2 hash aead_decrypt crypto_scalarmult).

(** The two messages. *)
Lemma noise_messages ipk isk xi rpk rsk xr e f C : identity_ok ipk isk xi → identity_ok rpk rsk xr → peer_identity C = rpk → is_zero rpk = false →
  ∃ msg1 msg2 ck st, length msg1 = 80%nat ∧ length msg2 = 48%nat ∧
    msg1_of C ipk isk (pub e) e = Some (msg1, st) ∧ (∀ c, msg2_at st msg2 c = Some (install_keys hash true ck (pub xi) xi c)) ∧
    (∀ S reads, Forall is_read reads → recv_buf S ++ read_bytes reads = msg1 →
      link_handshake_server hash aead_encrypt aead_decrypt crypto_scalarmult ed25519_pk_to_curve25519 ed25519_sk_to_curve25519 reads true (pub f) f S rpk rsk =
        (install_keys hash false ck (pub xr) xr {| S with recv_buf := []; peer_identity := pub xi |}, [], Some msg2)).
Proof.
  intros [Hi1 Hi2] [Hr1 Hr2] Hpeer Hz.
  destruct (dh_both e xr) as (es & Ees & Ees'). destruct (dh_both xi xr) as (ss & Ess & Ess').
  destruct (dh_both e f) as (ee & Eee & Eee'). destruct (dh_both xi f) as (se & Ese & Ese').
  destruct (noise_init hash) as [h0 ck0] eqn:Einit. set (h1 := noise_mix_hash hash (noise_mix_hash hash h0 (pub xr)) (pub e)).
  destruct (noise_mix_key hash ck0 es) as [ck1 k1] eqn:K1. destruct (noise_seal (pub xi) h1 k1) as (cs & Es & Ls & Ds).
  destruct (noise_mix_key hash ck1 ss) as [ck2 k2] eqn:K2. set (h2 := noise_mix_hash hash (noise_mix_hash hash h1 cs) (pub f)).
  destruct (noise_mix_key hash ck2 ee) as [ck3 k3] eqn:K3. destruct (noise_mix_key hash ck3 se) as [ck4 k4] eqn:K4.
  destruct (noise_seal [] h2 k4) as (ce & Ee & Le & De). rewrite pub_length in Ls.
  exists (pub e ++ cs), (pub f ++ ce), ck4. eexists.
  assert (L1 : length (pub e ++ cs) = 80%nat) by (rewrite length_app, pub_length, Ls; done).
  split; [done|]. split; [rewrite length_app, pub_length, Le; done|]. split; [|split].
  - unfold noise_msg1. rewrite Hi1, Hi2. cbn [mbind option_bind]. rewrite Einit, Hpeer, Hz, Hr1. cbn [mbind option_bind].
    rewrite Ees. cbn [mbind option_bind]. rewrite K1. fold h1. rewrite Es. cbn [mbind option_bind]. rewrite Ess. cbn [mbind option_bind]. rewrite K2. reflexivity.
  - intros c. unfold noise_msg2. rewrite take_app_length', drop_app_length' by (by rewrite pub_length). cbn [noise_h noise_ck noise_e_sk noise_pk noise_sk]. fold h2.
    rewrite Eee. cbn [mbind option_bind]. rewrite K3, Ese. cbn [mbind option_bind]. rewrite K4, De. done.
  - intros S reads Hr Hb. unfold link_handshake_server. rewrite Hr1, Hr2, Einit. rewrite <- L1 at 1. rewrite (read_buffered_all reads S _ Hr Hb).
    rewrite take_app_length', drop_app_length' by (by rewrite pub_length). fold h1. rewrite Ees', K1, Ds, Ess', K2. cbn [mbind option_bind]. fold h2. rewrite Eee'. cbn [mbind option_bind].
    rewrite K3, Ese'. cbn [mbind option_bind]. rewrite K4, Ee. done.
Qed.

Lemma noise_client ipk isk xi ck msg1 msg2 st e C net reads : msg1_of C ipk isk (pub e) e = Some (msg1, st) → length msg2 = 48%nat →
  (∀ c, msg2_at st msg2 c = Some (install_keys hash true ck (pub xi) xi c)) → net msg1 = Some reads → Forall is_read reads → read_bytes reads = msg2 →
  link_handshake_client hash aead_encrypt aead_decrypt crypto_scalarmult ed25519_pk_to_curve25519 ed25519_sk_to_curve25519 net (pub e) e C ipk isk =
    Some (install_keys hash true ck (pub xi) xi C, []).
Proof.
  intros H1 L2 H2 Hnet Hr Hb. unfold link_handshake_client. rewrite H1. cbn [mbind option_bind]. rewrite Hnet. cbn [mbind option_bind].
  replace 48%nat with (length (read_bytes reads)) by (by rewrite Hb). rewrite read_exact_all by done. cbn [mbind option_bind]. by rewrite Hb, H2.
Qed.

(** ** The cells of the KEM exchange *)

Abbreviation sent := (sends hash aead_encrypt).

Lemma sent_same S A cells w A' : sent S A cells w A' → same_recv A A'.
Proof.
  induction 1 as [A|A writes r A1 w cells w' A' Hf _ IH|A now writes cell A1 w cells w' A' _ _ Hs _ IH]; [done| |].
  - unfold conn_flush in Hf. destruct (moor_queue_flush _ _ _ _) as [[[w0 q] off] r']. injection Hf as _ <- _. exact IH.
  - apply (same_recv_trans A A1); [|done]. by apply send_cell_same in Hs.
Qed.

Lemma send_cells_ok clock k : ∀ cells wss c, can_send (length cells + k) c → pq_handshake_done c = false → outq c = [] → write_off c = 0%nat →
  Forall cell_ok cells → Forall (λ ws, 532 <= capacity ws)%nat wss → (length cells <= length wss)%nat →
  ∃ c' w, send_cells hash aead_encrypt clock wss c cells = Some (c', w) ∧ sent 0 c cells w c' ∧ outq c' = [] ∧ write_off c' = 0%nat ∧
    can_send k c'.
Proof.
  induction cells as [|cell cells IH]; intros wss c Hcs Hpq Hq Hoff Hok Hws Hl.
  { exists c, []. split_and!; try done. constructor. }
  destruct wss as [|ws wss]; [cbn in Hl; lia|]. apply Forall_cons in Hok as [Hc Hok]. apply Forall_cons in Hws as [Hw Hws]. cbn [send_cells]. change (default [] (head (ws :: wss))) with ws. cbn [tail].
  destruct Hcs as (Ho & Hn0 & Hn). cbn [length] in Hn.
  set (now := clock (length cells)). destruct (encrypt_cell_ok hash aead_encrypt aead_decrypt aead_opens now c cell Ho ltac:(lia) Hc) as (ct & E & Hct & _). cbv zeta in E.
  destruct (rotate_send_fields hash now c) as (F1 & F2 & F3 & F4 & F5). cbv zeta in *.
  set (c0 := link_rekey_send_maybe_rotate hash now c) in *. set (c1 := {| c0 with send_nonce := send_nonce c + 1; send_epoch_records := u64 (send_epoch_records c0 + 1) |}).
  assert (Es : moor_connection_send_cell hash aead_encrypt now ws true c cell = (0, c1, link_frame ct)).
  { unfold moor_connection_send_cell. rewrite E, send_loop_capacity; [done|]. rewrite length_link_frame, Hct. lia. }
  destruct (IH wss c1) as (c' & w & I1 & I2 & I3); [split; [by cbn; rewrite F1|cbn; lia]|by cbn; rewrite F3|by cbn; rewrite F4|by cbn; rewrite F5|done|done|cbn in Hl; lia|].
  exists c', (link_frame ct ++ w). fold now. rewrite Es, I1. split; [done|]. split; [|done]. eapply (sends_cell _ _ 0 c now ws); [|by left|exact Es|done]. intros Ht. congruence.
Qed.

Abbreviation encrypted := (encrypts hash aead_encrypt).

(** The receiver has the data when the last of its cells has arrived. *)
Lemma recv_kem_ok clock A' : ∀ fuel A m data fs B reads, (length data <= m)%nat → encrypted 0 A (kem_ct_cells m 0 data) fs A' →
  delivers 0 0 A B (kem_ct_cells m 0 data) → pq_handshake_done B = false → Forall is_frame fs → Forall readable reads →
  recv_buf B ++ read_bytes reads = concat fs → (work reads B < fuel)%nat →
  ∃ B' reads', recv_kem hash aead_decrypt clock stale fuel (length data) reads B = Some (data, B', reads') ∧ paired A' B' ∧
    link_state B' = CONN_STATE_OPEN ∧ same_send B B' ∧ recv_buf B' = [] ∧ read_bytes reads' = [].
Proof.
  induction fuel as [|fuel IH]; [lia|]. intros A m data fs B reads Hm Henc Hd Hpq Hfs Hr E Hw. pose proof Hd as (Hst & HS & HT & Hcs & Ho & Hok).
  destruct data as [|b data0] eqn:Ed; [|rewrite <- Ed in *].
  { exists B, reads. replace (kem_ct_cells m 0 []) with ([] : list moor_cell_t) in Henc by by destruct m.
    destruct (encrypts_inv hash aead_encrypt 0 A [] fs A' Henc) as [[_ ->]|(? & ? & ? & ? & ? & ? & ? & ? & ? & _)]; [|done].
    apply app_eq_nil in E as [E1 E2]. split_and!; try done. by eapply encrypts_nil. }
  assert (Hne : data ≠ []) by (by rewrite Ed). destruct (kem_cells_cons m data Hne Hm) as (m' & -> & Hm' & Ec). rewrite Ec in *.
  destruct (encrypts_inv hash aead_encrypt 0 A _ fs A' Henc) as [[? _]|(q & off & now & cell & f & A1 & cells & fs' & Ecell & -> & Hn & He & Henc')]; [done|].
  injection Ecell as <- <-. apply Forall_cons in Hfs as [Hf Hfs]. apply length_is_frame in Hf as Lf. apply Forall_cons in Hok as [Hc Hok].
  cbn [recv_kem]. rewrite (proj2 (Nat.eqb_neq _ _)) by (rewrite Ed; cbn; lia).
  destruct (recv_cell_progress hash aead_decrypt stale (clock fuel) reads B (f :: fs') [] Ho) as (buf & reads' & Hr' & E' & Hp); [by constructor|done|by rewrite app_nil_r|].
  rewrite app_nil_r in E'. cbv zeta in Hp. destruct (Nat.leb_spec 532 (length buf)) as [Hl|Hl]; destruct Hp as [Hp Hw']; rewrite Hp.
  - cbn [concat] in E'. assert (Eb : buf = f ++ drop 532 buf).
    { rewrite <- (take_drop 532 buf) at 1. f_equal. apply (f_equal (take 532)) in E'. by rewrite take_app_le, take_app_length' in E' by lia. }
    destruct (recv_next hash aead_encrypt aead_decrypt aead_opens stale stale_length 0 0 now (clock fuel) {| A with outq := q; write_off := off |} {| B with recv_buf := buf |} _ f A1
      (length (kem_ct_cells m' 0 (drop MOOR_CELL_PAYLOAD data))) (drop 532 buf)
      ltac:(by destruct Hst) HS HT Hn ltac:(intros Ht; cbn in Ht; congruence) Hcs Ho Hc He Eb) as (B' & F1 & F2 & F3 & F4 & F5 & F6 & F7 & F8).
    rewrite F1. change (command _ =? cell_code CELL_KEM_CT) with true. cbn [payload]. rewrite kem_chunk.
    replace (length data - MOOR_CELL_PAYLOAD `min` length data)%nat with (length (drop MOOR_CELL_PAYLOAD data)) by (rewrite length_drop; lia).
    destruct (IH A1 m' (drop MOOR_CELL_PAYLOAD data) fs' B' reads') as (B2 & reads2 & I1 & I2 & I3 & I4 & I5); try done.
    { destruct F8 as (_ & _ & E8 & _). by rewrite E8. }
    { apply (app_inv_head f). by rewrite F2, app_assoc, <- Eb. }
    { unfold work in *. rewrite F2, length_drop. cbn in Hw'. lia. }
    exists B2, reads2. rewrite I1. cbn [mbind option_bind]. rewrite take_drop. split; [done|]. split; [done|]. split; [done|]. split; [exact (same_send_trans B B' B2 F8 I4)|exact I5].
  - assert (Hlen : (0 < length (read_bytes reads'))%nat).
    { apply (f_equal length) in E'. cbn [concat] in E'. rewrite !length_app, Lf in E'. lia. }
    destruct reads' as [|ev reads']; [cbn in Hlen; lia|]. cbn [length Nat.eqb]. destruct Hw' as [|Hw']; [done|].
    destruct (IH A (S m') data (f :: fs') {| B with recv_buf := buf |} (ev :: reads')) as (B2 & reads2 & I); try done.
    + by rewrite Ec.
    + rewrite Ec. split; [by destruct Hst|]. split_and!; try done. by constructor.
    + by constructor.
    + lia.
    + by exists B2, reads2.
Qed.

(** The frames of data of up to three cells. *)
Lemma kem_sent clock n m data A wss : pq_handshake_done A = false → quiet A → can_send (3 + n) A → bytes_ok data → (length data <= m)%nat → (length data <= 1527)%nat →
  Forall (λ ws, 532 <= capacity ws)%nat wss → (3 <= length wss)%nat →
  ∃ A' fs, send_cells hash aead_encrypt clock wss A (kem_ct_cells m 0 data) = Some (A', concat fs) ∧ encrypted 0 A (kem_ct_cells m 0 data) fs A' ∧
    Forall is_frame fs ∧ length fs = length (kem_ct_cells m 0 data) ∧ same_recv A A' ∧ quiet A' ∧ can_send n A'.
Proof.
  intros Hpq (Q1 & Q2 & Q3) Hcs Hb Hm Hl Hws Hwl.
  pose proof (kem_cells_count 3 m data Hm ltac:(unfold MOOR_CELL_PAYLOAD; lia)) as Hcount. pose proof (kem_cells_ok m data Hb) as Hok. set (cells := kem_ct_cells m 0 data) in *.
  assert (Hcs' : can_send (length cells + n) A) by (destruct Hcs as (? & ? & ?); split; [done|lia]).
  destruct (send_cells_ok clock n cells wss A Hcs' Hpq Q1 Q2 Hok Hws ltac:(lia)) as (A' & w & E1 & E2 & E3 & E4 & E5).
  pose proof (sent_same _ _ _ _ _ E2) as Hsame.
  assert (Hcs2 : can_send (length cells) A) by (destruct Hcs as (? & ? & ?); split; [done|lia]).
  destruct (sends_encrypts hash aead_encrypt aead_decrypt aead_opens 0 A cells w A' E2 ltac:(by unfold queue_ok; rewrite Q1) Hcs2 Hok) as (fs & F1 & F2 & F3).
  unfold pending in F3. rewrite E3, Q1, app_nil_r in F3. cbn [app] in F3. subst w.
  assert (Hlen : length fs = length cells) by (clear -F1; induction F1; cbn; congruence).
  exists A', fs. split; [done|]. split; [done|]. split; [done|]. split; [done|]. split; [done|]. split; [|done].
  destruct Hsame as (_ & _ & _ & S4 & _). split; [done|]. split; [done|]. by rewrite S4.
Qed.

Lemma kem_received clock fuel n m data A A' fs B : paired A B → pq_handshake_done A = false → quiet B → can_send (3 + n) A → link_state B = CONN_STATE_OPEN →
  bytes_ok data → (length data <= m)%nat → (length data <= 1527)%nat →
  encrypted 0 A (kem_ct_cells m 0 data) fs A' → Forall is_frame fs → length fs = length (kem_ct_cells m 0 data) → (4788 < fuel)%nat →
  ∀ reads, Forall is_read reads → read_bytes reads = concat fs →
  ∃ B' rest, recv_kem hash aead_decrypt clock stale fuel (length data) reads B = Some (data, B', rest) ∧ read_bytes rest = [] ∧
    paired A' B' ∧ same_send B B' ∧ quiet B' ∧ link_state B' = CONN_STATE_OPEN.
Proof.
  intros HAB Hpq (R1 & R2 & R3) Hcs Ho Hb Hm Hl Henc Hfs Hlen Hf reads Hr Hrd.
  pose proof (kem_cells_count 3 m data Hm ltac:(unfold MOOR_CELL_PAYLOAD; lia)) as Hcount. pose proof (kem_cells_ok m data Hb) as Hok. set (cells := kem_ct_cells m 0 data) in *.
  assert (Hcs2 : can_send (length cells) A) by (destruct Hcs as (? & ? & ?); split; [done|lia]).
  assert (Hpq' : pq_handshake_done B = false) by (rewrite <- Hpq; symmetry; apply HAB).
  destruct (recv_kem_ok clock A' fuel A m data fs B reads) as (B' & rest & G1 & G2 & G3 & G4 & G5 & G6); try done.
  - split; [done|]. split; [intros ?; congruence|]. split; [intros ?; congruence|]. by split.
  - by apply is_read_readable.
  - by rewrite R3, Hrd.
  - pose proof (is_read_count reads Hr) as Hc. unfold work. rewrite Hrd, length_frames in Hc by done. rewrite R3, Hrd, length_frames by done. cbn [length]. lia.
  - pose proof G4 as (_ & _ & _ & G8 & G9 & _). assert (HqB : quiet B') by (by split; [rewrite G8|split; [rewrite G9|]]). by exists B', rest.
Qed.

(** ** Both halves of the handshake *)

(** The ends can exchange cells in both directions, up to [n] each. *)
Definition established (n : nat) (S T : Z) (A B : moor_connection_t) : Prop :=
  pq_handshake_done A = true ∧ quiet A ∧ quiet B ∧
  ∀ cells, Forall cell_ok cells → (length cells <= n)%nat → delivers S T A B cells ∧ delivers T S B A cells.

Lemma mix_paired S T ss A B : paired A B → paired (mix_kem hash S ss A) (mix_kem hash T ss B).
Proof. intros [H1 H2 _ _]. split; unfold mix_kem; cbn; rewrite ?H1; done. Qed.

Lemma mix_established n S T ss A B : paired A B → paired B A → quiet A → quiet B → link_state A = CONN_STATE_OPEN → link_state B = CONN_STATE_OPEN →
  can_send n A → can_send n B → established n S T (mix_kem hash S ss A) (mix_kem hash T ss B).
Proof.
  clear stale_length.
  intros HAB HBA HA HB HoA HoB (_ & HnA1 & HnA2) (_ & HnB1 & HnB2). split; [done|]. split; [done|]. split; [done|]. intros cells Hok Hl.
  assert (Hw : ∀ t, in_window t t) by (intros t; unfold in_window, MOOR_LINK_REKEY_INTERVAL_MS; lia).
  assert (Ht : ∀ t c, timely t (mix_kem hash t ss c)) by (intros t c _; cbn; split; apply Hw).
  split; (split; [by apply mix_paired|split; [apply Ht|split; [apply Ht|split; [|by split]]]]); (split; [done|cbn; lia]).
Qed.

Lemma noise_keys n ck pk sk pk' sk' C S : quiet C → quiet S → Z.of_nat n <= UINT64_MAX →
  let A := pq_begin (install_keys hash true ck pk sk C) in let B := pq_begin (install_keys hash false ck pk' sk' S) in
  paired A B ∧ paired B A ∧ can_send n A ∧ can_send n B ∧ quiet A ∧ quiet B ∧ peer_identity B = peer_identity S.
Proof.
  clear stale_length.
  intros HqC HqS Hn. unfold pq_begin, install_keys. destruct (moor_crypto_hkdf hash ck []) as [k1 k2]. cbv zeta.
  split; [by split|]. split; [by split|]. split; [split; [done|cbn; lia]|]. split; [split; [done|cbn; lia]|]. done.
Qed.

  Context (kem_keygen : bytes → option (bytes * bytes)).
  Context (kem_encapsulate : bytes → bytes → option (bytes * bytes)).
  Context (kem_decapsulate : bytes → bytes → option bytes).
  (** Each message arrives in pieces of its own. *)
  Context (cut : nat → bytes → list read_event).
  Hypothesis cut_reads : ∀ i b, Forall is_read (cut i b).
  Hypothesis cut_bytes : ∀ i b, read_bytes (cut i b) = b.

(** A socket that delivers [reply] once [sent] was sent. *)
Definition answers (i : nat) (sent reply : bytes) : bytes → option (list read_event) :=
  λ m, if bytes_eqb m sent then Some (cut i reply) else None.

Lemma answers_sent i m r : answers i m r m = Some (cut i r).
Proof. unfold answers, bytes_eqb. by rewrite bool_decide_true. Qed.

Abbreviation client := (link_handshake_client_pq hash aead_encrypt aead_decrypt crypto_scalarmult ed25519_pk_to_curve25519 ed25519_sk_to_curve25519 kem_keygen kem_decapsulate).
Abbreviation server := (link_handshake_server_pq hash aead_encrypt aead_decrypt crypto_scalarmult ed25519_pk_to_curve25519 ed25519_sk_to_curve25519 kem_encapsulate).

(** The messages of a handshake and the ends between them: the initiator [A] after the Noise
    messages and [A2] after it sent the KEM key in the frames [fs], the responder [B2] that
    received it and [B3] after it sent the ciphertext in [fs']. *)
Record transcript (n : nat) (C : moor_connection_t) (ipk isk xi e kpk ct msg1 msg2 ck : bytes) (st : noise_state) (A A2 B2 B3 : moor_connection_t)
    (fs fs' : list bytes) : Prop := mk_transcript {
  tr_len1 : length msg1 = 80%nat;
  tr_len2 : length msg2 = 48%nat;
  tr_msg1 : msg1_of C ipk isk (pub e) e = Some (msg1, st);
  tr_msg2 : ∀ c, msg2_at st msg2 c = Some (install_keys hash true ck (pub xi) xi c);
  tr_A : A = pq_begin (install_keys hash true ck (pub xi) xi C);
  tr_enc : encrypted 0 A (kem_ct_cells MOOR_KEM_PK_LEN 0 kpk) fs A2;
  tr_frames : Forall is_frame fs;
  tr_count : length fs = length (kem_ct_cells MOOR_KEM_PK_LEN 0 kpk);
  tr_recv : same_recv A A2;
  tr_quiet : quiet A2;
  tr_can : can_send n A2;
  tr_enc' : encrypted 0 B2 (kem_ct_cells MOOR_KEM_CT_LEN 0 ct) fs' B3;
  tr_frames' : Forall is_frame fs';
  tr_count' : length fs' = length (kem_ct_cells MOOR_KEM_CT_LEN 0 ct);
  tr_back : paired B2 A2;
  tr_pq : pq_handshake_done B2 = false;
  tr_can2 : can_send (3 + n) B2;
  tr_forth : paired A2 B3;
  tr_quiet3 : quiet B3;
  tr_can3 : can_send n B3;
}.

  Context (n fuel : nat) (clock clock' : nat → Z) (ipk isk xi rpk rsk xr e f seed coins kpk ksk ct ss : bytes) (C S : moor_connection_t).
  Context (wss wss' : list (list write_result)) (now now' : Z).
  Hypothesis Hi : identity_ok ipk isk xi.
  Hypothesis Hr : identity_ok rpk rsk xr.
  Hypothesis Hpeer : peer_identity C = rpk.
  Hypothesis Hz : is_zero rpk = false.
  Hypothesis HqC : quiet C.
  Hypothesis HqS : quiet S.
  Hypothesis Hkg : kem_keygen seed = Some (kpk, ksk).
  Hypothesis Lpk : length kpk = MOOR_KEM_PK_LEN.
  Hypothesis Bpk : bytes_ok kpk.
  Hypothesis Henc : kem_encapsulate coins kpk = Some (ct, ss).
  Hypothesis Lct : length ct = MOOR_KEM_CT_LEN.
  Hypothesis Bct : bytes_ok ct.
  Hypothesis Hdec : kem_decapsulate ct ksk = Some ss.
  Hypothesis Hw1 : Forall (λ ws, 532 <= capacity ws)%nat wss.
  Hypothesis Lw1 : (3 <= length wss)%nat.
  Hypothesis Hw2 : Forall (λ ws, 532 <= capacity ws)%nat wss'.
  Hypothesis Lw2 : (3 <= length wss')%nat.
  Hypothesis Hf : (4788 < fuel)%nat.
  Hypothesis Hn : Z.of_nat (3 + n) <= UINT64_MAX.

Lemma server_runs : ∃ msg1 msg2 ck st A A2 B2 B3 fs fs' rest', transcript n C ipk isk xi e kpk ct msg1 msg2 ck st A A2 B2 B3 fs fs' ∧
  send_cells hash aead_encrypt clock wss A (kem_ct_cells MOOR_KEM_PK_LEN 0 kpk) = Some (A2, concat fs) ∧
  server clock' stale fuel (cut 2 msg1) true (answers 3 msg2 (concat fs)) wss' now' (pub f) f coins S rpk rsk = Some (mix_kem hash now' ss B3, rest', concat fs') ∧
  read_bytes rest' = [] ∧ peer_identity B3 = pub xi.
Proof.
  destruct (noise_messages ipk isk xi rpk rsk xr e f C Hi Hr Hpeer Hz) as (msg1 & msg2 & ck & st & L1 & L2 & Hm1 & Hm2 & Hs).
  pose proof HqS as (Q1 & Q2 & Q3). destruct (noise_keys (3 + n) ck (pub xi) xi (pub xr) xr C {| S with recv_buf := []; peer_identity := pub xi |} HqC) as (P1 & P2 & S1 & S2 & QA & QB & PI); [done..|].
  set (A := pq_begin (install_keys hash true ck (pub xi) xi C)) in *. cbv zeta in P1, P2, S2, QB, PI. set (B := pq_begin (install_keys hash false ck _ _ _)) in *.
  assert (HpA : pq_handshake_done A = false) by done. assert (HoB : link_state B = CONN_STATE_OPEN) by done.
  destruct (kem_sent clock n MOOR_KEM_PK_LEN kpk A wss HpA QA S1 Bpk) as (A2 & fs & E1 & F1 & F2 & F3 & M1 & QA2 & S3);
    [by rewrite Lpk|rewrite Lpk; unfold MOOR_KEM_PK_LEN; lia|done..|].
  destruct (kem_received clock' fuel n MOOR_KEM_PK_LEN kpk A A2 fs B P1 HpA QB S1 HoB Bpk ltac:(by rewrite Lpk) ltac:(rewrite Lpk; unfold MOOR_KEM_PK_LEN; lia) F1 F2 F3 Hf
    (cut 3 (concat fs)) (cut_reads _ _) (cut_bytes _ _)) as (B2 & rest' & E2 & Hr2 & P3 & M2 & QB2 & HoB2).
  assert (HpB2 : pq_handshake_done B2 = false) by (by destruct M2 as (_ & _ & -> & _)).
  assert (P4 : paired B2 A2) by (by apply (paired_same B A)).
  assert (S4 : can_send (3 + n) B2) by (destruct S2 as (_ & ? & ?), M2 as (_ & M2 & _); split; [done|by rewrite M2]).
  destruct (kem_sent clock' n MOOR_KEM_CT_LEN ct B2 wss' HpB2 QB2 S4 Bct) as (B3 & fs' & E3 & F4 & F5 & F6 & M3 & QB3 & S5);
    [by rewrite Lct|rewrite Lct; unfold MOOR_KEM_CT_LEN; lia|done..|].
  assert (HpA2 : pq_handshake_done A2 = false) by (by destruct M1 as (_ & _ & -> & _)).
  exists msg1, msg2, ck, st, A, A2, B2, B3, fs, fs', rest'. split; [split; try done; by apply (paired_same A2 B2)|]. split; [done|]. split; [|split; [done|]].
  - unfold link_handshake_server_pq. rewrite Hs by (rewrite ?cut_bytes, ?Q3; done). rewrite answers_sent. cbn [mbind option_bind app]. rewrite Lpk in E2.
    unfold server_pq. fold B. rewrite E2. cbn [mbind option_bind]. rewrite Henc. cbn [mbind option_bind]. by rewrite E3.
  - destruct M3 as (_ & _ & _ & _ & ->), M2 as (_ & _ & _ & _ & _ & ->). by rewrite PI.
Qed.

Lemma handshake_runs : ∃ msg1 msg2 wire wire' C' S' rest rest',
    client clock stale fuel (answers 0 msg1 msg2) (answers 1 wire wire') wss now (pub e) e seed C ipk isk = Some (C', rest) ∧
    server clock' stale fuel (cut 2 msg1) true (answers 3 msg2 wire) wss' now' (pub f) f coins S rpk rsk = Some (S', rest', wire') ∧
    read_bytes rest = [] ∧ read_bytes rest' = [] ∧ peer_identity S' = pub xi ∧ established n now now' C' S'.
Proof.
  destruct server_runs as (msg1 & msg2 & ck & st & A & A2 & B2 & B3 & fs & fs' & rest' & [L1 L2 Hm1 Hm2 EA F1 F2 F3 M1 QA2 S3 F4 F5 F6 P4 HpB2 S4 P5 QB3 S5] & E1 & E2 & Hr' & PI).
  assert (HoA2 : link_state A2 = CONN_STATE_OPEN) by (by destruct S3).
  destruct (kem_received clock fuel n MOOR_KEM_CT_LEN ct B2 B3 fs' A2 P4 HpB2 QA2 S4 HoA2 Bct ltac:(by rewrite Lct) ltac:(rewrite Lct; unfold MOOR_KEM_CT_LEN; lia) F4 F5 F6 Hf
    (cut 1 (concat fs')) (cut_reads _ _) (cut_bytes _ _)) as (A3 & rest & E4 & Hr4 & P6 & M4 & QA3 & HoA3).
  assert (HpA2 : pq_handshake_done A2 = false) by (rewrite <- HpB2; symmetry; apply P4).
  assert (P7 : paired A3 B3) by (by apply (paired_same A2 B3)).
  assert (S6 : can_send n A3) by (destruct S3 as (_ & ? & ?), M4 as (_ & M4 & _); split; [done|by rewrite M4]).
  exists msg1, msg2, (concat fs), (concat fs'), (mix_kem hash now ss A3), (mix_kem hash now' ss B3), rest, rest'. rewrite Lct in E4. split.
  - unfold link_handshake_client_pq. rewrite (noise_client ipk isk xi ck msg1 msg2 st e C _ (cut 0 msg2)) by (rewrite ?answers_sent; done).
    cbn [mbind option_bind]. rewrite <- EA, Hkg. cbn [mbind option_bind].
    rewrite E1. cbn [mbind option_bind]. rewrite answers_sent. cbn [mbind option_bind app]. rewrite E4. cbn [mbind option_bind]. by rewrite Hdec.
  - split; [done|]. split; [done|]. split; [done|]. split; [done|]. apply mix_established; try done. by destruct S5.
Qed.
End Handshake.

(** ** Links over ML-KEM *)
Section Network.
  Context `{SymmetricLaws} (kem_fuel : nat).
  Context (hash : bytes → bytes).
  Context (aead_encrypt aead_decrypt : bytes → bytes → bytes → bytes → option bytes).
  Hypothesis aead_opens : ∀ pt ad n k, ∃ ct,
    aead_encrypt pt ad n k = Some ct ∧ length ct = (length pt + 16)%nat ∧ aead_decrypt ct ad n k = Some pt.
  Context (stale : bytes).
  Hypothesis stale_length : length stale = MOOR_CELL_SIZE.
  Context (crypto_scalarmult : bytes → bytes → option bytes) (pub : bytes → bytes).
  Hypothesis pub_length : ∀ sk, length (pub sk) = 32%nat.
  Hypothesis dh_agrees : ∀ a b, ∃ s,
    crypto_scalarmult a (pub b) = Some s ∧ crypto_scalarmult b (pub a) = Some s ∧ is_zero s = false.
  Context (ed25519_pk_to_curve25519 ed25519_sk_to_curve25519 : bytes → option bytes).
  Context (cut : nat → bytes → list read_event).
  Hypothesis cut_reads : ∀ i b, Forall is_read (cut i b).
  Hypothesis cut_bytes : ∀ i b, read_bytes (cut i b) = b.

(** C16. Links come up: an initiator that knows the identity of the responder and a
    responder run [link_handshake_client_pq] and [link_handshake_server_pq] over sockets
    that take whole frames and deliver what the other end sent, in pieces of any size.
    Both return success; no bytes are left over; the responder knows the static key of
    the initiator; and the two are ready to deliver cells in both directions, under keys
    that contain the secret of ML-KEM. The coins of the encapsulation are such that the
    noise of decryption is tolerated. *)
Theorem link_established n fuel clock clock' ipk isk xi rpk rsk xr e f seed coins kpk ksk noise C S wss wss' now now' :
  identity_ok pub ed25519_pk_to_curve25519 ed25519_sk_to_curve25519 ipk isk xi →
  identity_ok pub ed25519_pk_to_curve25519 ed25519_sk_to_curve25519 rpk rsk xr →
  peer_identity C = rpk → is_zero rpk = false → quiet C → quiet S →
  moor_kem_keygen kem_fuel seed = Some (kpk, ksk) → length seed = 64%nat → length coins = 32%nat → bytes_ok coins →
  kem_noise kem_fuel seed kpk coins = Some noise → bounded 831 noise →
  Forall (λ ws, 532 <= capacity ws)%nat (wss ++ wss') → (3 <= length wss)%nat → (3 <= length wss')%nat →
  (4788 < fuel)%nat → Z.of_nat (3 + n) <= UINT64_MAX →
  ∃ msg1 msg2 wire wire' C' S' rest rest',
    link_handshake_client_pq hash aead_encrypt aead_decrypt crypto_scalarmult ed25519_pk_to_curve25519 ed25519_sk_to_curve25519
      (moor_kem_keygen kem_fuel) (moor_kem_decapsulate kem_fuel) clock stale fuel (answers cut 0 msg1 msg2) (answers cut 1 wire wire')
      wss now (pub e) e seed C ipk isk = Some (C', rest) ∧
    link_handshake_server_pq hash aead_encrypt aead_decrypt crypto_scalarmult ed25519_pk_to_curve25519 ed25519_sk_to_curve25519
      (moor_kem_encapsulate kem_fuel) clock' stale fuel (cut 2 msg1) true (answers cut 3 msg2 wire)
      wss' now' (pub f) f coins S rpk rsk = Some (S', rest', wire') ∧
    read_bytes rest = [] ∧ read_bytes rest' = [] ∧ peer_identity S' = pub xi ∧ established n now now' C' S'.
Proof.
  intros Hi Hr Hp Hz HqC HqS Hk Hs Hc Hb Hn Hbd Hw Hw1 Hw2 Hf Hmax. apply Forall_app in Hw as [HwC HwS].
  destruct (keypair_parts _ _ _ _ Hk) as (s & Hcpa & _). destruct (indcpa_ok _ _ _ _ Hcpa) as (Lpk & _ & Bpk & _).
  destruct (kem_exchange kem_fuel seed kpk ksk coins Hk Hs Hc Hb) as (ct & ss & noise' & E1 & Lct & Bct & _ & E2 & E3).
  apply (handshake_runs hash aead_encrypt aead_decrypt aead_opens stale stale_length crypto_scalarmult pub pub_length dh_agrees _ _
    (moor_kem_keygen kem_fuel) (moor_kem_encapsulate kem_fuel) (moor_kem_decapsulate kem_fuel) cut cut_reads cut_bytes n fuel clock clock'
    ipk isk xi rpk rsk xr e f seed coins kpk ksk ct ss C S wss wss' now now'); try done.
  apply E3. congruence.
Qed.
End Network.

(** A network that delivers single bytes. *)
Module ToyLinks.
#[local] Existing Instance ToyHash.toy_symmetric.
#[local] Existing Instance ToyHash.toy_laws.

Definition cut (i : nat) (b : bytes) : list read_event := map (λ x, Read [x]) b.

Lemma cut_reads i b : Forall is_read (cut i b).
Proof. apply Forall_fmap. by apply Forall_true. Qed.

Lemma cut_bytes i b : read_bytes (cut i b) = b.
Proof. induction b as [|x b IH]; [done|]. change (x :: read_bytes (cut i b) = x :: b). by rewrite IH. Qed.

Definition fresh (peer : bytes) : moor_connection_t :=
  mk_conn CONN_STATE_HANDSHAKING peer [] [] 0 0 [] [] [] false [] 0 false 0 0 0 0 0 0 [] [] [] [] false false.
End ToyLinks.

#[local] Existing Instance ToyHash.toy_symmetric.
#[local] Existing Instance ToyHash.toy_laws.

Lemma link_established_witness : ∃ msg1 msg2 wire wire' C' S' rest rest',
  link_handshake_client_pq ToyLink.hash ToyLink.aead_encrypt ToyLink.aead_decrypt ToyNet.crypto_scalarmult Some Some
    (moor_kem_keygen 0) (moor_kem_decapsulate 0) (λ _, 0) ToyLink.stale 5000 (answers ToyLinks.cut 0 msg1 msg2) (answers ToyLinks.cut 1 wire wire')
    (replicate 3 [Wrote 532]) 70 (ToyNet.pub [3]) [3] (zeros 64) (ToyLinks.fresh (ToyNet.pub [2])) (ToyNet.pub [1]) [1] = Some (C', rest) ∧
  link_handshake_server_pq ToyLink.hash ToyLink.aead_encrypt ToyLink.aead_decrypt ToyNet.crypto_scalarmult Some Some
    (moor_kem_encapsulate 0) (λ _, 0) ToyLink.stale 5000 (ToyLinks.cut 2 msg1) true (answers ToyLinks.cut 3 msg2 wire)
    (replicate 3 [Wrote 532]) 90 (ToyNet.pub [4]) [4] (zeros 32) (ToyLinks.fresh []) (ToyNet.pub [2]) [2] = Some (S', rest', wire') ∧
  established 1000 70 90 C' S'.
Proof.
  destruct ToyHash.silent as (noise & En & Hn).
  destruct (link_established 0 ToyLink.hash ToyLink.aead_encrypt ToyLink.aead_decrypt ToyLink.aead_opens ToyLink.stale ToyLink.stale_length
    ToyNet.crypto_scalarmult ToyNet.pub (λ _, eq_refl) ToyNet.dh_agrees Some Some ToyLinks.cut ToyLinks.cut_reads ToyLinks.cut_bytes
    1000 5000 (λ _, 0) (λ _, 0) (ToyNet.pub [1]) [1] [1] (ToyNet.pub [2]) [2] [2] [3] [4] (zeros 64) (zeros 32) ToyHash.toy_pk ToyHash.toy_sk noise
    (ToyLinks.fresh (ToyNet.pub [2])) (ToyLinks.fresh []) (replicate 3 [Wrote 532]) (replicate 3 [Wrote 532]) 70 90
    (conj eq_refl eq_refl) (conj eq_refl eq_refl) eq_refl eq_refl (conj eq_refl (conj eq_refl eq_refl)) (conj eq_refl (conj eq_refl eq_refl))
    ToyHash.keypair eq_refl eq_refl (proj2 (ToyHash.zeros_ok 32)) En Hn) as (msg1 & msg2 & wire & wire' & C' & S' & rest & rest' & E1 & E2 & _ & _ & _ & E3).
  - repeat (apply List.Forall_cons; [apply Nat.leb_le; vm_compute; reflexivity|]). constructor.
  - cbn. lia.
  - cbn. lia.
  - apply Nat.ltb_lt. vm_compute. reflexivity.
  - apply Z.leb_le. vm_compute. reflexivity.
  - exists msg1, msg2, wire, wire', C', S', rest, rest'. split; [exact E1|]. split; [exact E2|exact E3].
Defined.
