(* ===== verification/LinkAsync.v ===== *)
(** * LinkAsync: the handshake as an event-driven state machine

    Model of the asynchronous connect of [src/src/connection.c]: the callbacks that the
    event loop calls when the socket of an outgoing connection is ready, from the end of
    the TCP connect to the last cell of the KEM exchange. The computations of the Noise
    messages are those of [Link]. Event registrations, the timer, socket options and the
    insertion into the table of connections are left out; the timeout itself is an event. Theorems: however the callbacks are cut, the machine
    completes and the link is established as in [LinkUp]; whatever happens, the
    completion function is called exactly once. *)

From Stdlib Require Import String.
From S2P Require Import Prelude Wire Text Cell Onion Crypto Handshake Build Mlkem MlkemNtt MlkemKem Link LinkSafe LinkUp.

Local Open Scope Z_scope.

(** The parts of [moor_hs_state_t] that the initiator uses; the Noise state and the
    static keys are in [hs_noise]. *)
Record moor_hs_state_t := mk_hs {
  hs_noise : noise_state;
  our_id_pk : bytes;
  our_id_sk : bytes;
  msg_buf : bytes;
  msg_expected : nat;
  msg_offset : nat;
  phase : nat;
  hs_kem_sk : bytes;
  wire_frame : bytes;
}.

(** A connection with its handshake state, the statuses with which [on_complete] was
    called, and what the socket took. *)
Record async_conn := mk_async {
  ac_conn : moor_connection_t;
  hs_state : option moor_hs_state_t;
  fd_open : bool;
  completions : list Z;
  ac_sent : bytes;
}.

(** What the socket answers to the calls of one callback. *)
Record sock := mk_sock {
  so_error : bool;
  refused : bool;
  on_send : write_result;
  on_recv : read_event;
}.

Definition set_state (s : moor_conn_state_t) (a : async_conn) : async_conn :=
  let c := ac_conn a in {| a with ac_conn := {| c with link_state := s |} |}.

Definition hs_finish (status : Z) (a : async_conn) : async_conn :=
  match hs_state a with
  | Some _ => {| a with hs_state := None; completions := completions a ++ [status] |}
  | None => a
  end.

(** [hs_async_fail], and the failure of the TCP connect with another status. *)
Definition hs_async_fail_with (status : Z) (a : async_conn) : async_conn :=
  let a := hs_finish status (set_state CONN_STATE_NONE a) in {| a with fd_open := false |}.
Definition hs_async_fail : async_conn → async_conn := hs_async_fail_with (-1).

Definition hs_async_complete (a : async_conn) : async_conn := hs_finish 0 a.

Definition hs_timeout_cb (a : async_conn) : async_conn :=
  match hs_state a with
  | None => a
  | Some _ => if bool_decide (link_state (ac_conn a) = CONN_STATE_OPEN) then a else hs_async_fail a
  end.

Section Async.
  Context (hash : bytes → bytes).
  Context (aead_encrypt aead_decrypt : bytes → bytes → bytes → bytes → option bytes).
  Context (crypto_scalarmult : bytes → bytes → option bytes).
  Context (ed25519_pk_to_curve25519 ed25519_sk_to_curve25519 : bytes → option bytes).
  Context (kem_keygen : bytes → option (bytes * bytes)).
  Context (kem_decapsulate : bytes → bytes → option bytes).
  (** The ephemeral key pair, the seed of the KEM key and the time at the end. *)
  Context (e_pk e_sk kem_seed : bytes) (now : Z).

Definition hs_encrypt_cell_raw (c : moor_connection_t) (cell : moor_cell_t) : option (moor_connection_t * bytes) :=
  if send_nonce c =? UINT64_MAX then None else
  match moor_crypto_aead_encrypt aead_encrypt (moor_cell_pack cell) [] (send_key c) (send_nonce c) with
  | None => None
  | Some ct => Some ({| c with send_nonce := u64 (send_nonce c + 1) |}, link_frame ct)
  end.

Definition hs_decrypt_cell_raw (c : moor_connection_t) : Z * moor_connection_t * option moor_cell_t :=
  if (length (recv_buf c) <? 2)%nat then (0, c, None) else
  let ct_len := frame_len (recv_buf c) in
  if negb (ct_len =? Z.of_nat MOOR_CELL_SIZE + MOOR_MAC_LEN) then (-1, c, None) else
  if Z.of_nat (length (recv_buf c)) <? 2 + ct_len then (0, c, None) else
  match moor_crypto_aead_decrypt aead_decrypt (slice 2 (Z.to_nat ct_len) (recv_buf c)) [] (recv_key c) (recv_nonce c) with
  | None => (-1, c, None)
  | Some plain =>
      (1, {| c with recv_nonce := u64 (recv_nonce c + 1); recv_buf := drop (Z.to_nat (2 + ct_len)) (recv_buf c) |}, Some (moor_cell_unpack plain))
  end.

(** The cell of the KEM key for the current phase, encrypted into [wire_frame]. *)
Definition pq_cell (c : moor_connection_t) (hs : moor_hs_state_t) : option (moor_connection_t * moor_hs_state_t) :=
  let pk_off := (phase hs * MOOR_CELL_PAYLOAD)%nat in
  let chunk := ((MOOR_KEM_PK_LEN - pk_off) `min` MOOR_CELL_PAYLOAD)%nat in
  let kcell := mk_cell 0 (cell_code CELL_KEM_CT) (blit 0 (slice pk_off chunk (msg_buf hs)) (zeros MOOR_CELL_PAYLOAD)) in
  '(c, wire) ← hs_encrypt_cell_raw c kcell;
  Some (c, {| hs with wire_frame := wire; msg_offset := 0%nat; msg_expected := length wire |}).

Definition handle_hs_sending (ev : sock) (hs : moor_hs_state_t) (a : async_conn) : async_conn :=
  let rest := slice (msg_offset hs) (msg_expected hs - msg_offset hs) (msg_buf hs) in
  match on_send ev with
  | Wrote (S n) =>
      let taken := take (S n) rest in
      let off := (msg_offset hs + length taken)%nat in
      let a := {| a with ac_sent := ac_sent a ++ taken |} in
      if (off =? msg_expected hs)%nat
      then let a := {| a with hs_state := Some {| hs with msg_offset := 0%nat; msg_expected := 48%nat |} |} in set_state CONN_STATE_HS_RECEIVING a
      else {| a with hs_state := Some {| hs with msg_offset := off |} |}
  | WouldBlock => a
  | _ => hs_async_fail a
  end.

Definition handle_tcp_connect (ev : sock) (hs : moor_hs_state_t) (a : async_conn) : async_conn :=
  if so_error ev then hs_async_fail_with (if refused ev then -2 else -1) a else
  match noise_msg1 hash aead_encrypt crypto_scalarmult ed25519_pk_to_curve25519 ed25519_sk_to_curve25519 (ac_conn a) (our_id_pk hs) (our_id_sk hs) e_pk e_sk with
  | None => hs_async_fail a
  | Some (msg1, st) =>
      let hs := {| hs with hs_noise := st; msg_buf := blit 0 msg1 (msg_buf hs); msg_expected := 80%nat; msg_offset := 0%nat |} in
      let a := {| a with hs_state := Some hs |} in
      handle_hs_sending ev hs (set_state CONN_STATE_HS_SENDING a)
  end.

(** The end of the Noise handshake, and the first cell of the KEM key. *)
Definition process_msg2 (hs : moor_hs_state_t) (a : async_conn) : async_conn :=
  match noise_msg2 hash aead_decrypt crypto_scalarmult (hs_noise hs) (take 48 (msg_buf hs)) (ac_conn a) with
  | None => hs_async_fail a
  | Some c =>
      let c := {| c with pq_handshake_done := false |} in
      let a := {| a with ac_conn := c |} in
      match kem_keygen kem_seed with
      | None => hs_async_fail a
      | Some (pk, sk) =>
          match pq_cell c {| hs with msg_buf := blit 0 pk (msg_buf hs); hs_kem_sk := sk; phase := 0%nat |} with
          | None => hs_async_fail a
          | Some (c, hs) => let a := {| a with ac_conn := c; hs_state := Some hs |} in set_state CONN_STATE_PQ_SENDING a
          end
      end
  end.

(** Besides the new state, how many bytes were read. *)
Definition handle_hs_receiving (ev : sock) (hs : moor_hs_state_t) (a : async_conn) : async_conn * nat :=
  match on_recv ev with
  | Read (x :: b) =>
      let got := take (msg_expected hs - msg_offset hs) (x :: b) in
      let off := (msg_offset hs + length got)%nat in
      let hs := {| hs with msg_buf := blit (msg_offset hs) got (msg_buf hs); msg_offset := off |} in
      let a := {| a with hs_state := Some hs |} in
      (if (off <? msg_expected hs)%nat then a else process_msg2 hs a, length got)
  | NotReady => (a, 0%nat)
  | _ => (hs_async_fail a, 0%nat)
  end.

Definition total_cells : nat := ((MOOR_KEM_PK_LEN + MOOR_CELL_PAYLOAD - 1) / MOOR_CELL_PAYLOAD)%nat.

Definition handle_pq_sending (ev : sock) (hs : moor_hs_state_t) (a : async_conn) : async_conn :=
  let rest := slice (msg_offset hs) (msg_expected hs - msg_offset hs) (wire_frame hs) in
  match on_send ev with
  | Wrote (S n) =>
      let taken := take (S n) rest in
      let off := (msg_offset hs + length taken)%nat in
      let a := {| a with ac_sent := ac_sent a ++ taken |} in
      if (off <? msg_expected hs)%nat then {| a with hs_state := Some {| hs with msg_offset := off |} |} else
      let hs := {| hs with phase := (phase hs + 1)%nat; msg_offset := off |} in
      if (phase hs <? total_cells)%nat then
        match pq_cell (ac_conn a) hs with
        | None => hs_async_fail a
        | Some (c, hs) => {| a with ac_conn := c; hs_state := Some hs |}
        end
      else let a := {| a with hs_state := Some {| hs with phase := 0%nat; msg_offset := 0%nat |} |} in set_state CONN_STATE_PQ_RECEIVING a
  | WouldBlock => a
  | _ => hs_async_fail a
  end.

(** The cells in the buffer, up to the whole ciphertext; the first component is whether
    the handshake goes on. *)
Fixpoint pq_extract (fuel : nat) (c : moor_connection_t) (hs : moor_hs_state_t) : bool * moor_connection_t * moor_hs_state_t :=
  if negb (msg_offset hs <? MOOR_KEM_CT_LEN)%nat then (true, c, hs) else
  match fuel with
  | O => (false, c, hs)
  | S fuel =>
      match hs_decrypt_cell_raw c with
      | (1, c, Some kcell) =>
          if negb (command kcell =? cell_code CELL_KEM_CT) then (false, c, hs) else
          let chunk := (MOOR_CELL_PAYLOAD `min` (MOOR_KEM_CT_LEN - msg_offset hs))%nat in
          pq_extract fuel c {| hs with msg_buf := blit (msg_offset hs) (take chunk (payload kcell)) (msg_buf hs); msg_offset := (msg_offset hs + chunk)%nat |}
      | (0, c, _) => (true, c, hs)
      | (_, c, _) => (false, c, hs)
      end
  end.

(** A cell adds at least one byte, so that [MOOR_KEM_CT_LEN] rounds are enough. *)
Definition pq_finish (hs : moor_hs_state_t) (a : async_conn) : async_conn :=
  let '(ok, c, hs) := pq_extract MOOR_KEM_CT_LEN (ac_conn a) hs in
  let a := {| a with ac_conn := c; hs_state := Some hs |} in
  if negb ok then hs_async_fail a else
  if (msg_offset hs <? MOOR_KEM_CT_LEN)%nat then a else
  match kem_decapsulate (take MOOR_KEM_CT_LEN (msg_buf hs)) (hs_kem_sk hs) with
  | None => hs_async_fail a
  | Some kem_shared =>
      let a := {| a with ac_conn := mix_kem hash now kem_shared c |} in hs_async_complete (set_state CONN_STATE_OPEN a)
  end.

Definition handle_pq_receiving (ev : sock) (hs : moor_hs_state_t) (a : async_conn) : async_conn * nat :=
  let c := ac_conn a in
  if (RECV_BUF_SIZE <=? length (recv_buf c))%nat then (pq_finish hs a, 0%nat) else
  match on_recv ev with
  | Read (x :: b) =>
      let got := take (RECV_BUF_SIZE - length (recv_buf c)) (x :: b) in
      let a := {| a with ac_conn := {| c with recv_buf := recv_buf c ++ got |} |} in
      (pq_finish hs a, length got)
  | NotReady => (pq_finish hs a, 0%nat)
  | _ => (hs_async_fail a, 0%nat)
  end.

(** The dispatch. *)
Definition hs_async_cb (ev : sock) (a : async_conn) : async_conn * nat :=
  match hs_state a with
  | None => (a, 0%nat)
  | Some hs =>
      match link_state (ac_conn a) with
      | CONN_STATE_TCP_CONNECTING => (handle_tcp_connect ev hs a, 0%nat)
      | CONN_STATE_HS_SENDING => (handle_hs_sending ev hs a, 0%nat)
      | CONN_STATE_HS_RECEIVING => handle_hs_receiving ev hs a
      | CONN_STATE_PQ_SENDING => (handle_pq_sending ev hs a, 0%nat)
      | CONN_STATE_PQ_RECEIVING => handle_pq_receiving ev hs a
      | _ => (a, 0%nat)
      end
  end.
End Async.

Definition hs_new (our_identity_pk our_identity_sk : bytes) : moor_hs_state_t :=
  mk_hs (mk_noise (zeros 32) (zeros 32) (zeros 32) (zeros 32) (zeros 32)) our_identity_pk our_identity_sk (zeros 1184) 0 0 0 (zeros 2400) (zeros 532).

(** [self_target], [connected] and [allocated] are the results of the check of the
    address, of the socket calls and of [calloc]. *)
Definition moor_connection_connect_async (self_target connected allocated : bool) (c : moor_connection_t) (our_identity_pk our_identity_sk : bytes)
    : Z * async_conn :=
  if self_target then (-1, mk_async c None false [] [])
  else if negb connected then (-1, mk_async c None false [] [])
  else if negb allocated then (-1, mk_async {| c with link_state := CONN_STATE_NONE |} None false [] [])
  else (0, mk_async {| c with link_state := CONN_STATE_TCP_CONNECTING |} (Some (hs_new our_identity_pk our_identity_sk)) true [] []).

(** ** Exactly one completion *)

(** What the event loop does with a connection: a callback, or the timeout. *)
Inductive loop_event :=
  | Callback (ev : sock)
  | Timeout.

(** Before the completion the descriptor is open and the state is one of the handshake;
    then the status tells which state was left. *)
Definition handshaking (c : moor_connection_t) : bool :=
  match link_state c with
  | CONN_STATE_TCP_CONNECTING | CONN_STATE_HS_SENDING | CONN_STATE_HS_RECEIVING | CONN_STATE_PQ_SENDING | CONN_STATE_PQ_RECEIVING => true
  | _ => false
  end.

Definition pending_or_done (a : async_conn) : Prop :=
  match hs_state a with
  | Some _ => completions a = [] ∧ fd_open a = true ∧ handshaking (ac_conn a) = true
  | None => ∃ status, completions a = [status] ∧
      (status = 0 ∧ link_state (ac_conn a) = CONN_STATE_OPEN ∧ pq_handshake_done (ac_conn a) = true ∧ fd_open a = true ∨
       (status = -1 ∨ status = -2) ∧ link_state (ac_conn a) = CONN_STATE_NONE ∧ fd_open a = false)
  end.

Lemma fail_done status hs a : hs_state a = Some hs → completions a = [] → (status = -1 ∨ status = -2) → pending_or_done (hs_async_fail_with status a).
Proof.
  intros Hs Hc Hst. unfold hs_async_fail_with, hs_finish. cbn. rewrite Hs. unfold pending_or_done. cbn. rewrite Hc. exists status. split; [done|by right].
Qed.

Section Once.
  Context (hash : bytes → bytes).
  Context (aead_encrypt aead_decrypt : bytes → bytes → bytes → bytes → option bytes).
  Context (crypto_scalarmult : bytes → bytes → option bytes).
  Context (ed25519_pk_to_curve25519 ed25519_sk_to_curve25519 : bytes → option bytes).
  Context (kem_keygen : bytes → option (bytes * bytes)).
  Context (kem_decapsulate : bytes → bytes → option bytes).
  Context (e_pk e_sk kem_seed : bytes) (now : Z).

Abbreviation callback := (hs_async_cb hash aead_encrypt aead_decrypt crypto_scalarmult ed25519_pk_to_curve25519 ed25519_sk_to_curve25519
  kem_keygen kem_decapsulate e_pk e_sk kem_seed now).

Definition loop_step (a : async_conn) (ev : loop_event) : async_conn :=
  match ev with
  | Callback ev => fst (callback ev a)
  | Timeout => hs_timeout_cb a
  end.

Lemma hs_sending_once ev hs hs' a : hs_state a = Some hs' → completions a = [] → fd_open a = true → handshaking (ac_conn a) = true →
  pending_or_done (handle_hs_sending ev hs a).
Proof.
  intros Hs Hc Hf Hh. unfold handle_hs_sending. destruct (on_send ev) as [[|n]| |]; try (eapply fail_done; eauto).
  - destruct (_ =? _)%nat; by unfold pending_or_done; cbn.
  - unfold pending_or_done. by rewrite Hs.
Qed.

Lemma pq_cell_state c hs c' hs' : pq_cell aead_encrypt c hs = Some (c', hs') → link_state c' = link_state c.
Proof.
  unfold pq_cell, hs_encrypt_cell_raw. destruct (_ =? _); [done|]. destruct (moor_crypto_aead_encrypt _ _ _ _ _); [|done]. by intros [= <- <-].
Qed.

Lemma process_msg2_once hs hs' a : hs_state a = Some hs' → completions a = [] → fd_open a = true →
  pending_or_done (process_msg2 hash aead_encrypt aead_decrypt crypto_scalarmult kem_keygen kem_seed hs a).
Proof.
  intros Hs Hc Hf. unfold process_msg2. destruct (noise_msg2 _ _ _ _ _ _) as [c|]; [|eapply fail_done; eauto].
  destruct (kem_keygen kem_seed) as [[pk sk]|]; [|eapply fail_done; cbn; eauto].
  destruct (pq_cell _ _ _) as [[c' hs'']|]; [|eapply fail_done; cbn; eauto]. by unfold pending_or_done; cbn.
Qed.

Lemma hs_receiving_once ev hs a : hs_state a = Some hs → completions a = [] → fd_open a = true → handshaking (ac_conn a) = true →
  pending_or_done (fst (handle_hs_receiving hash aead_encrypt aead_decrypt crypto_scalarmult kem_keygen kem_seed ev hs a)).
Proof.
  intros Hs Hc Hf Hh. unfold handle_hs_receiving. destruct (on_recv ev) as [|[|x b]| |]; cbn [fst]; try (eapply fail_done; eauto).
  - unfold pending_or_done. by rewrite Hs.
  - destruct (_ <? _)%nat; [by unfold pending_or_done; cbn|]. by eapply process_msg2_once.
Qed.

Lemma pq_sending_once ev hs a : hs_state a = Some hs → completions a = [] → fd_open a = true → handshaking (ac_conn a) = true →
  pending_or_done (handle_pq_sending aead_encrypt ev hs a).
Proof.
  intros Hs Hc Hf Hh. unfold handle_pq_sending. destruct (on_send ev) as [[|n]| |]; try (eapply fail_done; eauto).
  - destruct (_ <? msg_expected hs)%nat; [by unfold pending_or_done; cbn|]. destruct (_ <? total_cells)%nat; [|by unfold pending_or_done; cbn].
    destruct (pq_cell _ _ _) as [[c' hs'']|] eqn:E; [|eapply fail_done; cbn; eauto]. unfold pending_or_done; cbn. apply pq_cell_state in E. cbn in E.
    unfold handshaking in *. by rewrite E.
  - unfold pending_or_done. by rewrite Hs.
Qed.

Lemma pq_extract_state fuel : ∀ c hs, link_state (pq_extract aead_decrypt fuel c hs).1.2 = link_state c.
Proof.
  induction fuel as [|fuel IH]; intros c hs; cbn [pq_extract]; destruct (negb _); try done. unfold hs_decrypt_cell_raw.
  destruct (_ <? 2)%nat; [done|]. cbv zeta. destruct (negb (_ =? _)); [done|]. destruct (_ <? _); [done|].
  destruct (moor_crypto_aead_decrypt _ _ _ _ _); [|done]. destruct (negb _); [done|]. by rewrite IH.
Qed.

Lemma pq_finish_once hs a : completions a = [] → fd_open a = true → handshaking (ac_conn a) = true →
  pending_or_done (pq_finish hash aead_decrypt kem_decapsulate now hs a).
Proof.
  intros Hc Hf Hh. unfold pq_finish. pose proof (pq_extract_state MOOR_KEM_CT_LEN (ac_conn a) hs) as He.
  destruct (pq_extract _ _ _ _) as [[ok c] hs']. cbn in He. destruct (negb ok); [eapply fail_done; cbn; eauto|].
  destruct (_ <? _)%nat; [unfold pending_or_done, handshaking in *; cbn; by rewrite He|].
  destruct (kem_decapsulate _ _); [|eapply fail_done; cbn; eauto]. unfold pending_or_done. cbn. rewrite Hc. exists 0. split; [done|by left].
Qed.

Lemma pq_receiving_once ev hs a : hs_state a = Some hs → completions a = [] → fd_open a = true → handshaking (ac_conn a) = true →
  pending_or_done (fst (handle_pq_receiving hash aead_decrypt kem_decapsulate now ev hs a)).
Proof.
  intros Hs Hc Hf Hh. unfold handle_pq_receiving. destruct (_ <=? _)%nat; [by apply pq_finish_once|].
  destruct (on_recv ev) as [|[|x b]| |]; cbn [fst]; try (eapply fail_done; eauto); by apply pq_finish_once.
Qed.

Lemma loop_step_once a ev : pending_or_done a → pending_or_done (loop_step a ev).
Proof.
  intros H. destruct ev as [ev|]; cbn [loop_step].
  - unfold hs_async_cb. destruct (hs_state a) as [hs|] eqn:Hs; [|done]. unfold pending_or_done in H. rewrite Hs in H. destruct H as (Hc & Hf & Hh).
    destruct (link_state (ac_conn a)) eqn:El; cbn [fst]; try (unfold pending_or_done; rewrite Hs; done).
    + unfold handle_tcp_connect. destruct (so_error ev); [eapply fail_done; eauto; destruct (refused ev); auto|].
      destruct (noise_msg1 _ _ _ _ _ _ _ _ _ _) as [[msg1 st]|]; [|eapply fail_done; eauto]. by eapply hs_sending_once.
    + by eapply hs_sending_once.
    + by apply hs_receiving_once.
    + by apply pq_sending_once.
    + by apply pq_receiving_once.
  - unfold hs_timeout_cb. destruct (hs_state a) as [hs|] eqn:Hs; [|done]. unfold pending_or_done in H. rewrite Hs in H. destruct H as (Hc & Hf & Hh).
    destruct (bool_decide _); [unfold pending_or_done; by rewrite Hs|]. eapply fail_done; eauto.
Qed.

(** C17. The completion function of an asynchronous connect is called exactly once. After
    any sequence of callbacks and timeouts, with any answers of the socket and any keys,
    the handshake is still pending, with the descriptor open and no call made, or the
    function was called once: with 0 and the link open under keys that contain the KEM
    secret, or with -1 or -2 and the descriptor closed. What happens later changes
    nothing. *)
Theorem completes_once c our_identity_pk our_identity_sk a evs evs' :
  moor_connection_connect_async false true true c our_identity_pk our_identity_sk = (0, a) →
  let a1 := foldl loop_step a evs in let a2 := foldl loop_step a1 evs' in
  pending_or_done a1 ∧ (hs_state a1 = None → a2 = a1).
Proof.
  intros [= <-]. cbv zeta. split.
  - set (a0 := mk_async _ _ _ _ _). assert (H0 : pending_or_done a0) by done. clearbody a0. revert a0 H0. induction evs as [|ev evs IH]; intros a0 H0; [done|]. by apply IH, loop_step_once.
  - generalize (foldl loop_step (mk_async {| c with link_state := CONN_STATE_TCP_CONNECTING |} (Some (hs_new our_identity_pk our_identity_sk)) true [] []) evs). intros a1 Hn.
    induction evs' as [|ev evs' IH]; [done|]. cbn [foldl]. replace (loop_step a1 ev) with a1; [done|].
    destruct ev; cbn [loop_step]; [unfold hs_async_cb|unfold hs_timeout_cb]; by rewrite Hn.
Qed.
End Once.

(** ** The handshake completes *)

(** The cells of data by index. *)
Lemma kem_cells_lookup p : ∀ m data, (length data <= m)%nat → (MOOR_CELL_PAYLOAD * p < length data)%nat →
  kem_ct_cells m 0 data !! p =
    Some (mk_cell 0 (cell_code CELL_KEM_CT) (blit 0 (take MOOR_CELL_PAYLOAD (drop (MOOR_CELL_PAYLOAD * p) data)) (zeros MOOR_CELL_PAYLOAD))).
Proof.
  induction p as [|p IH]; intros m data Hm Hp.
  - destruct (kem_cells_cons m data) as (m' & -> & Hm' & ->); [intros ->; cbn [length] in Hp; lia|done|]. by rewrite Nat.mul_0_r, drop_0.
  - destruct (kem_cells_cons m data) as (m' & -> & Hm' & ->); [intros ->; cbn [length] in Hp; lia|done|]. cbn [lookup list_lookup]. rewrite IH; [|done|rewrite length_drop; lia].
    by rewrite drop_drop, Nat.mul_succ_r, Nat.add_comm.
Qed.

Lemma kem_cells_three m data : (length data <= m)%nat → (1018 < length data <= 1527)%nat → length (kem_ct_cells m 0 data) = 3%nat.
Proof.
  intros Hm Hl. pose proof (kem_cells_count 3 m data Hm ltac:(unfold MOOR_CELL_PAYLOAD; lia)).
  pose proof (kem_cells_lookup 2 m data Hm ltac:(unfold MOOR_CELL_PAYLOAD; lia)) as E. apply lookup_lt_Some in E. lia.
Qed.

Lemma blit_prefix (off : nat) (b buf : bytes) : (off + length b <= length buf)%nat →
  length (blit off b buf) = length buf ∧ take (off + length b) (blit off b buf) = take off buf ++ b.
Proof.
  intros Hl. unfold blit. split; [rewrite !length_app, length_take, length_drop; lia|].
  rewrite app_assoc. apply take_app_length'. rewrite length_app, length_take. lia.
Qed.

#[local] Opaque kem_ct_cells.

Section Completion.
  Context (hash : bytes → bytes).
  Context (aead_encrypt aead_decrypt : bytes → bytes → bytes → bytes → option bytes).
  Hypothesis aead_opens : ∀ pt ad n k, ∃ ct,
    aead_encrypt pt ad n k = Some ct ∧ length ct = (length pt + 16)%nat ∧ aead_decrypt ct ad n k = Some pt.

Abbreviation encrypt_cell := (moor_connection_encrypt_cell hash aead_encrypt).
Abbreviation encrypted := (encrypts hash aead_encrypt).

(** The two ways of encrypting a cell before the end of the handshake. *)
Definition like (A c : moor_connection_t) : Prop :=
  send_key c = send_key A ∧ send_nonce c = send_nonce A ∧ pq_handshake_done A = false ∧ pq_handshake_done c = false.

Lemma raw_encrypt s A c cell A1 f : like A c → encrypt_cell s A cell = (A1, Some f) →
  ∃ x, let c1 := {| c with send_nonce := x |} in hs_encrypt_cell_raw aead_encrypt c cell = Some (c1, f) ∧ like A1 c1.
Proof.
  intros (Hk & Hn & HA & Hc). unfold moor_connection_encrypt_cell, hs_encrypt_cell_raw. destruct (negb _); [done|]. rewrite Hn.
  destruct (_ =? _) eqn:Emax; [done|]. unfold link_rekey_send_maybe_rotate. rewrite HA. cbn [negb]. rewrite Hk.
  destruct (moor_crypto_aead_encrypt _ _ _ _ _) as [ct|]; [|done]. intros [= <- <-]. by exists (u64 (send_nonce A + 1)).
Qed.

Lemma raw_decrypt s A c cell A1 f tl n : paired A c → pq_handshake_done A = false → can_send (S n) A → cell_ok cell →
  encrypt_cell s A cell = (A1, Some f) → recv_buf c = f ++ tl →
  let c' := {| c with recv_nonce := u64 (recv_nonce c + 1); recv_buf := tl |} in
  hs_decrypt_cell_raw aead_decrypt c = (1, c', Some cell) ∧ paired A1 c' ∧ can_send n A1 ∧ pq_handshake_done A1 = false.
Proof.
  intros [Hk Hn Hp _] HA (Ho & Hn0 & Hn1) Hc He Hb c'. destruct (encrypt_cell_ok hash aead_encrypt aead_decrypt aead_opens s A cell Ho ltac:(lia) Hc)
    as (ct & E & Hct & Hd). cbv zeta in E. rewrite E in He. simplify_eq. clear E. unfold link_rekey_send_maybe_rotate in *. rewrite HA in Hd |- *. cbn [negb] in Hd |- *.
  assert (Hf : frame_len (recv_buf c) = 530) by (rewrite Hb; unfold frame_len, link_frame; rewrite Hct; done).
  assert (Hlen : (532 <= length (recv_buf c))%nat) by (rewrite Hb, length_app, length_link_frame, Hct; lia).
  assert (Eu : u64 (recv_nonce c + 1) = send_nonce A + 1) by (rewrite <- Hn; apply u64_small; unfold is_u64, UINT64_MAX in *; lia).
  split; [|split; [split; cbn; [done|by rewrite Eu|done|intros ?; congruence]|split; [split; [done|cbn; lia]|done]]].
  unfold hs_decrypt_cell_raw. rewrite (proj2 (Nat.ltb_ge _ _)) by lia. cbv zeta. rewrite Hf. change (530 =? Z.of_nat MOOR_CELL_SIZE + MOOR_MAC_LEN) with true. cbn [negb].
  rewrite (proj2 (Z.ltb_ge _ _)) by lia. rewrite Hb.
  assert (Ect : slice 2 (Z.to_nat 530) (link_frame ct ++ tl) = ct).
  { unfold slice, link_frame. cbn [app drop]. change (Z.to_nat 530) with 530%nat. by apply take_app_length'. }
  rewrite Ect. unfold moor_crypto_aead_decrypt. rewrite <- Hk, <- Hn, Hd. change (Z.to_nat (2 + 530)) with 532%nat.
  rewrite drop_app_length' by (rewrite length_link_frame, Hct; done). unfold c'. by rewrite <- ?Hn, <- Hk, cell_unpack_pack.
Qed.

Lemma raw_short c tl fs : Forall is_frame fs → recv_buf c ++ tl = concat fs → (length (recv_buf c) < 532)%nat → hs_decrypt_cell_raw aead_decrypt c = (0, c, None).
Proof.
  intros Hfs E Hl. unfold hs_decrypt_cell_raw. destruct (Nat.ltb_spec (length (recv_buf c)) 2) as [H2|H2]; [done|].
  cbv zeta. rewrite (frame_len_stream _ tl fs) by (done || lia). change (530 =? Z.of_nat MOOR_CELL_SIZE + MOOR_MAC_LEN) with true. cbn [negb].
  by rewrite (proj2 (Z.ltb_lt _ _)) by lia.
Qed.

  Context (crypto_scalarmult : bytes → bytes → option bytes) (pub : bytes → bytes).
  Context (ed25519_pk_to_curve25519 ed25519_sk_to_curve25519 : bytes → option bytes).
  Context (kem_keygen : bytes → option (bytes * bytes)) (kem_decapsulate : bytes → bytes → option bytes).
  Context (n : nat) (C : moor_connection_t) (ipk isk xi e seed kpk ksk ct ss msg1 msg2 ck : bytes) (st : noise_state).
  Context (A A2 B2 B3 : moor_connection_t) (fs fs' : list bytes) (now now' : Z).
  Hypothesis HT : transcript hash aead_encrypt aead_decrypt crypto_scalarmult pub ed25519_pk_to_curve25519 ed25519_sk_to_curve25519
    n C ipk isk xi e kpk ct msg1 msg2 ck st A A2 B2 B3 fs fs'.
  Hypothesis Hkg : kem_keygen seed = Some (kpk, ksk).
  Hypothesis Lpk : length kpk = MOOR_KEM_PK_LEN.
  Hypothesis Bct : bytes_ok ct.
  Hypothesis Lct : length ct = MOOR_KEM_CT_LEN.
  Hypothesis Hdec : kem_decapsulate ct ksk = Some ss.
  Hypothesis HqC : quiet C.

Abbreviation callback := (hs_async_cb hash aead_encrypt aead_decrypt crypto_scalarmult ed25519_pk_to_curve25519 ed25519_sk_to_curve25519
  kem_keygen kem_decapsulate (pub e) e seed now).

(** A callback in which the socket takes up to [k] bytes, or has up to [j] of the input;
    with 0 it would block. *)
Definition ready (k j : nat) (input : bytes) : sock :=
  mk_sock false false (match k with O => WouldBlock | S _ => Wrote k end) (match take j input with [] => NotReady | b => Read b end).

Fixpoint async_run (sched : list (nat * nat)) (input : bytes) (a : async_conn) : async_conn * bytes :=
  match sched with
  | [] => (a, input)
  | (k, j) :: sched => let '(a, m) := callback (ready k j input) a in async_run sched (drop m input) a
  end.

Abbreviation key_cells := (kem_ct_cells MOOR_KEM_PK_LEN 0 kpk).
Abbreviation ct_cells := (kem_ct_cells MOOR_KEM_CT_LEN 0 ct).

(** How far the handshake is: what was sent and what is left of the input. *)
Inductive stage : async_conn → bytes → Prop :=
  | stage_connect :
      stage (mk_async {| C with link_state := CONN_STATE_TCP_CONNECTING |} (Some (hs_new ipk isk)) true [] []) (msg2 ++ concat fs')
  | stage_msg1 hs : (msg_offset hs < 80)%nat → hs_noise hs = st → length (msg_buf hs) = 1184%nat → take 80 (msg_buf hs) = msg1 → msg_expected hs = 80%nat →
      stage (mk_async {| C with link_state := CONN_STATE_HS_SENDING |} (Some hs) true [] (take (msg_offset hs) msg1)) (msg2 ++ concat fs')
  | stage_msg2 hs : (msg_offset hs < 48)%nat → hs_noise hs = st → length (msg_buf hs) = 1184%nat →
      take (msg_offset hs) (msg_buf hs) = take (msg_offset hs) msg2 → msg_expected hs = 48%nat →
      stage (mk_async {| C with link_state := CONN_STATE_HS_RECEIVING |} (Some hs) true [] msg1) (drop (msg_offset hs) msg2 ++ concat fs')
  | stage_key hs c A1 : fs !! phase hs = Some (wire_frame hs) → (msg_offset hs < 532)%nat → msg_expected hs = 532%nat → msg_buf hs = kpk → hs_kem_sk hs = ksk →
      link_state c = CONN_STATE_PQ_SENDING → quiet c → same_recv A c → like A1 c →
      encrypted 0 A1 (drop (S (phase hs)) key_cells) (drop (S (phase hs)) fs) A2 →
      stage (mk_async c (Some hs) true [] (msg1 ++ concat (take (phase hs) fs) ++ take (msg_offset hs) (wire_frame hs))) (concat fs')
  | stage_ct k hs c B input : (k < 3)%nat → msg_offset hs = (MOOR_CELL_PAYLOAD * k)%nat → length (msg_buf hs) = 1184%nat →
      take (msg_offset hs) (msg_buf hs) = take (msg_offset hs) ct → hs_kem_sk hs = ksk →
      link_state c = CONN_STATE_PQ_RECEIVING → outq c = [] → write_off c = 0%nat → like A2 c →
      paired B c → pq_handshake_done B = false → can_send (3 - k) B → encrypted 0 B (drop k ct_cells) (drop k fs') B3 →
      recv_buf c ++ input = concat (drop k fs') → (length (recv_buf c) < 532)%nat →
      stage (mk_async c (Some hs) true [] (msg1 ++ concat fs)) input
  | stage_done c : established n now now' c (mix_kem hash now' ss B3) → stage (mk_async c None true [0] (msg1 ++ concat fs)) [].

(** The bytes that are still to be sent and received. *)
Definition remaining (a : async_conn) (input : bytes) : nat := (1676 - length (ac_sent a) + length input)%nat.

Definition advances (a : async_conn) (input : bytes) (r : async_conn * nat) : Prop :=
  stage r.1 (drop r.2 input) ∧ (remaining r.1 (drop r.2 input) < remaining a input)%nat.

(** The part of a buffer that is still to be sent. *)
Lemma rest_to_send (buf msg : bytes) off (total : nat) : take total buf = msg → slice off (total - off) buf = drop off msg.
Proof. intros <-. unfold slice. by rewrite skipn_firstn_comm. Qed.

Lemma send_some (msg : bytes) off k : (off < length msg)%nat → (0 < k)%nat → ∃ t, t = length (take k (drop off msg)) ∧ (0 < t)%nat ∧ (off + t <= length msg)%nat ∧
  take off msg ++ take k (drop off msg) = take (off + t) msg.
Proof.
  intros Ho Hk. exists (length (take k (drop off msg))). split; [done|]. rewrite length_take, length_drop. split; [lia|]. split; [lia|].
  rewrite take_take_drop. destruct (decide (k <= length msg - off)%nat); [f_equal; lia|]. rewrite !take_ge by lia. done.
Qed.

Lemma msg1_advances k j input hs : let a := mk_async {| C with link_state := CONN_STATE_HS_SENDING |} (Some hs) true [] (take (msg_offset hs) msg1) in
  (0 < k)%nat → (msg_offset hs < 80)%nat → hs_noise hs = st → length (msg_buf hs) = 1184%nat → take 80 (msg_buf hs) = msg1 → msg_expected hs = 80%nat →
  advances a (msg2 ++ concat fs') (handle_hs_sending (ready k j input) hs a, 0%nat).
Proof.
  intros a Hk Ho Hst Hl Hb He. destruct HT as [L1 L2 _ _ _ _ _ _ _ _ _ _ _ _ _ _ _ _ _ _]. unfold handle_hs_sending, ready. cbn [on_send].
  rewrite He, (rest_to_send _ msg1 _ 80 Hb). destruct k as [|k]; [lia|]. destruct (send_some msg1 (msg_offset hs) (S k)) as (t & Et & Ht & Hlt & Es); [lia..|].
  cbv zeta. rewrite <- Et. cbn [ac_sent a]. rewrite Es. unfold advances. cbn [fst snd]. rewrite drop_0. unfold remaining.
  destruct (Nat.eqb_spec (msg_offset hs + t) 80) as [E80|E80]; cbn [ac_sent set_state ac_conn a].
  - rewrite E80, take_ge, length_take by lia. split; [|lia]. apply stage_msg2; cbn; try done; lia.
  - rewrite !length_take. split; [|lia]. apply (stage_msg1 {| hs with msg_expected := 80%nat; msg_offset := (msg_offset hs + t)%nat |}); cbn; try done; lia.
Qed.

Lemma connect_advances k j : let a := mk_async {| C with link_state := CONN_STATE_TCP_CONNECTING |} (Some (hs_new ipk isk)) true [] [] in
  (0 < k)%nat → advances a (msg2 ++ concat fs') (callback (ready k j (msg2 ++ concat fs')) a).
Proof.
  intros a Hk. pose proof HT as [L1 L2 Hm1 _ _ _ _ _ _ _ _ _ _ _ _ _ _ _ _ _]. unfold hs_async_cb. cbn [hs_state a link_state ac_conn]. unfold handle_tcp_connect. cbn [so_error ready].
  match goal with |- context [noise_msg1 _ _ _ _ _ ?c ?p ?q ?x ?y] =>
    replace (noise_msg1 hash aead_encrypt crypto_scalarmult ed25519_pk_to_curve25519 ed25519_sk_to_curve25519 c p q x y) with (Some (msg1, st)) by (symmetry; exact Hm1) end.
  destruct (blit_prefix 0 msg1 (zeros 1184)) as [Lb Pb]; [rewrite L1; vm_compute; lia|]. rewrite L1 in Pb. cbn [Nat.add] in Pb. rewrite take_0 in Pb.
  set (hs0 := hs_new ipk isk). refine (msg1_advances k j (msg2 ++ concat fs') {| hs0 with hs_noise := st; msg_buf := blit 0 msg1 (zeros 1184); msg_expected := 80%nat; msg_offset := 0%nat |} Hk _ eq_refl _ _ eq_refl); cbn; try done; lia.
Qed.

Lemma key_count : length key_cells = 3%nat.
Proof. apply kem_cells_three; rewrite Lpk; unfold MOOR_KEM_PK_LEN; lia. Qed.

Lemma ct_count : length ct_cells = 3%nat.
Proof. apply kem_cells_three; rewrite Lct; unfold MOOR_KEM_CT_LEN; lia. Qed.

(** The next of a list of cells and its frame. *)
Lemma encrypted_next cells frames A1 A' p cell : encrypted 0 A1 (drop p cells) (drop p frames) A' → cells !! p = Some cell →
  ∃ q off s A1' f, encrypt_cell s {| A1 with outq := q; write_off := off |} cell = (A1', Some f) ∧ frames !! p = Some f ∧
    encrypted 0 A1' (drop (S p) cells) (drop (S p) frames) A'.
Proof.
  intros Henc Hp. rewrite (drop_S cells cell p Hp) in Henc.
  destruct (encrypts_inv hash aead_encrypt 0 A1 _ _ A' Henc) as [[? _]|(q & off & s & cell' & f & A1' & cells' & fs1 & Ec & Ef & _ & He & Henc')]; [done|].
  injection Ec as <- <-. exists q, off, s, A1', f. split; [done|]. assert (Hf : frames !! p = Some f) by (rewrite <- (Nat.add_0_r p), <- lookup_drop, Ef; done). split; [done|].
  rewrite (drop_S frames f p Hf) in Ef. by injection Ef as ->.
Qed.

(** Building the next cell of the KEM key. *)
Lemma pq_cell_next A1 c hs : (phase hs < 3)%nat → msg_buf hs = kpk → like A1 c → encrypted 0 A1 (drop (phase hs) key_cells) (drop (phase hs) fs) A2 →
  ∃ A1' x f, let c1 := {| c with send_nonce := x |} in
    pq_cell aead_encrypt c hs = Some (c1, {| hs with wire_frame := f; msg_offset := 0%nat; msg_expected := 532%nat |}) ∧
    fs !! phase hs = Some f ∧ like A1' c1 ∧ encrypted 0 A1' (drop (S (phase hs)) key_cells) (drop (S (phase hs)) fs) A2.
Proof.
  intros Hp Hb Hlike Henc. pose proof HT as [_ _ _ _ _ _ F2 _ _ _ _ _ _ _ _ _ _ _ _ _].
  pose proof (kem_cells_lookup (phase hs) MOOR_KEM_PK_LEN kpk ltac:(by rewrite Lpk) ltac:(rewrite Lpk; unfold MOOR_CELL_PAYLOAD, MOOR_KEM_PK_LEN; lia)) as Hcell.
  destruct (encrypted_next key_cells fs A1 A2 (phase hs) _ Henc Hcell) as (q & off & s & A1' & f & He & Hf & Henc').
  destruct (raw_encrypt s {| A1 with outq := q; write_off := off |} c _ A1' f Hlike He) as (x & Ex & Hx). exists A1', x, f. cbv zeta in *. split; [|done].
  unfold pq_cell. rewrite Hb. rewrite (Nat.mul_comm (phase hs)). unfold slice at 1.
  replace (take ((MOOR_KEM_PK_LEN - MOOR_CELL_PAYLOAD * phase hs) `min` MOOR_CELL_PAYLOAD) (drop (MOOR_CELL_PAYLOAD * phase hs) kpk))
    with (take MOOR_CELL_PAYLOAD (drop (MOOR_CELL_PAYLOAD * phase hs) kpk)).
  2: { rewrite Nat.min_comm, <- take_take. f_equal. symmetry. apply take_ge. rewrite length_drop, Lpk. lia. }
  rewrite Ex. cbn [mbind option_bind]. by rewrite (length_is_frame f) by (eapply Forall_lookup_1; eassumption).
Qed.

Lemma process_advances hs : let a := mk_async {| C with link_state := CONN_STATE_HS_RECEIVING |} (Some hs) true [] msg1 in
  hs_noise hs = st → length (msg_buf hs) = 1184%nat → take 48 (msg_buf hs) = msg2 →
  let r := process_msg2 hash aead_encrypt aead_decrypt crypto_scalarmult kem_keygen seed hs a in
  stage r (concat fs') ∧ ac_sent r = msg1.
Proof.
  intros a Hst Hl Hb r. unfold r. clear r. pose proof HT as [_ _ _ Hm2 EA F1 _ _ _ _ _ _ _ _ _ _ _ _ _ _]. unfold process_msg2. rewrite Hst, Hb, Hm2, Hkg.
  assert (Eb : blit 0 kpk (msg_buf hs) = kpk) by (unfold blit; rewrite take_0, drop_ge by (rewrite Lpk, Hl; done); apply app_nil_r). cbv zeta. rewrite Eb.
  set (c0 := install_keys hash true ck (pub xi) xi _). set (c := {| c0 with pq_handshake_done := false |}).
  assert (Hlike : like A c) by (rewrite EA; unfold like, c, c0, pq_begin, install_keys; destruct (moor_crypto_hkdf hash ck []); done).
  assert (Hsame : same_recv A c) by (rewrite EA; unfold same_recv, c, c0, pq_begin, install_keys; destruct (moor_crypto_hkdf hash ck []); done).
  assert (Hq : quiet c) by (unfold quiet, c, c0, install_keys; destruct (moor_crypto_hkdf hash ck []); done).
  destruct (pq_cell_next A c {| hs with hs_noise := st; msg_buf := kpk; hs_kem_sk := ksk; phase := 0%nat |}) as (A1' & x & f & E & Hf & Hlike' & Henc); [cbn; lia|done|done|done|].
  cbv zeta in E, Hlike'. rewrite E. cbn [phase] in Hf, Henc. unfold set_state. cbn [ac_conn].
  set (hs1 := {| hs with hs_noise := st; msg_buf := kpk; hs_kem_sk := ksk; phase := 0%nat; wire_frame := f; msg_offset := 0%nat; msg_expected := 532%nat |}).
  set (c1 := {| c with send_nonce := x; link_state := CONN_STATE_PQ_SENDING |}).
  assert (Hstage : stage (mk_async c1 (Some hs1) true [] (msg1 ++ [])) (concat fs')) by (apply (stage_key hs1 c1 A1'); cbn; try done; lia).
  rewrite app_nil_r in Hstage. split; [exact Hstage|done].
Qed.

Lemma msg2_advances k j hs : let a := mk_async {| C with link_state := CONN_STATE_HS_RECEIVING |} (Some hs) true [] msg1 in
  let input := drop (msg_offset hs) msg2 ++ concat fs' in
  (0 < j)%nat → (msg_offset hs < 48)%nat → hs_noise hs = st → length (msg_buf hs) = 1184%nat →
  take (msg_offset hs) (msg_buf hs) = take (msg_offset hs) msg2 → msg_expected hs = 48%nat →
  advances a input (callback (ready k j input) a).
Proof.
  intros a input Hj Ho Hst Hl Hb He. pose proof HT as [_ L2 _ _ _ _ _ _ _ _ _ _ _ _ _ _ _ _ _ _].
  assert (Hd : length (drop (msg_offset hs) msg2) = (48 - msg_offset hs)%nat) by (rewrite length_drop; lia).
  unfold hs_async_cb. cbn [hs_state a link_state ac_conn]. unfold handle_hs_receiving, ready. cbn [on_recv].
  destruct (take j input) as [|x b] eqn:Ej.
  { apply (f_equal length) in Ej. unfold input in Ej. rewrite length_take, length_app in Ej. cbn in Ej. lia. }
  rewrite He, <- Ej. set (got := take (48 - msg_offset hs) (take j input)).
  assert (Eg : got = take j (drop (msg_offset hs) msg2)).
  { unfold got, input. rewrite take_take, Nat.min_comm, <- take_take. f_equal. by apply take_app_length'. }
  destruct (send_some msg2 (msg_offset hs) j) as (t & Et & Ht & Hlt & Es); [lia..|]. rewrite <- Eg in Et, Es. rewrite <- Et.
  destruct (blit_prefix (msg_offset hs) got (msg_buf hs)) as [Lb Pb]; [lia|]. rewrite <- Et, Hb, Es in Pb.
  assert (Edrop : drop t input = drop (msg_offset hs + t) msg2 ++ concat fs').
  { unfold input. rewrite drop_app_le by lia. by rewrite drop_drop. }
  unfold advances. cbn [fst snd]. rewrite Edrop. unfold remaining. cbv zeta. cbn [msg_expected].
  assert (Hrem : (length (drop (msg_offset hs + t) msg2 ++ concat fs') < length input)%nat) by (unfold input; rewrite !length_app, !length_drop; lia).
  destruct (Nat.ltb_spec (msg_offset hs + t) 48) as [H48|H48].
  - split; [|cbn [ac_sent a]; lia].
    apply (stage_msg2 {| hs with msg_buf := blit (msg_offset hs) got (msg_buf hs); msg_offset := (msg_offset hs + t)%nat; msg_expected := 48%nat |}); cbn; try done. lia.
  - assert (E48 : (msg_offset hs + t = 48)%nat) by lia. rewrite E48 in Pb |- *. rewrite (drop_ge msg2) by lia. rewrite (take_ge msg2) in Pb by lia. cbn [app].
    rewrite E48, (drop_ge msg2) in Hrem by lia. cbn [app] in Hrem.
    set (hs1 := {| hs with msg_buf := blit (msg_offset hs) got (msg_buf hs); msg_offset := 48%nat; msg_expected := 48%nat |}) in *.
    pose proof (process_advances hs1 Hst ltac:(by rewrite <- Hl) Pb) as [Hstage Hsent].
    split; [exact Hstage|]. cbv zeta in Hsent. cbn [ac_sent a] in *.
    match goal with |- (_ - length ?x + _ < _)%nat => change x with (ac_sent (process_msg2 hash aead_encrypt aead_decrypt crypto_scalarmult kem_keygen seed hs1 (mk_async {| C with link_state := CONN_STATE_HS_RECEIVING |} (Some hs1) true [] msg1))) end.
    rewrite Hsent. lia.
Qed.

Lemma encrypts_nil_like A1 A' c : encrypted 0 A1 [] [] A' → like A1 c → like A' c.
Proof.
  intros Henc. remember ([] : list moor_cell_t) as cs eqn:Ec. remember ([] : list bytes) as fs0 eqn:Ef. revert Ec Ef. induction Henc as [?|? q off cells ? A' _ IH|]; intros Ec Ef Hl; [done| |done].
  by apply IH.
Qed.

Lemma frame_count : length fs = 3%nat ∧ length fs' = 3%nat ∧ length (concat fs) = 1596%nat ∧ length (concat fs') = 1596%nat.
Proof.
  destruct HT as [_ _ _ _ _ _ F2 F3 _ _ _ _ F5 F6 _ _ _ _ _ _]. rewrite key_count in F3. rewrite ct_count in F6. rewrite !length_frames, F3, F6 by done. done.
Qed.

Lemma key_advances k j hs c A1 : let a := mk_async c (Some hs) true [] (msg1 ++ concat (take (phase hs) fs) ++ take (msg_offset hs) (wire_frame hs)) in
  (0 < k)%nat → fs !! phase hs = Some (wire_frame hs) → (msg_offset hs < 532)%nat → msg_expected hs = 532%nat → msg_buf hs = kpk → hs_kem_sk hs = ksk →
  link_state c = CONN_STATE_PQ_SENDING → quiet c → same_recv A c → like A1 c →
  encrypted 0 A1 (drop (S (phase hs)) key_cells) (drop (S (phase hs)) fs) A2 →
  advances a (concat fs') (callback (ready k j (concat fs')) a).
Proof.
  intros a Hk Hf Ho He Hb Hsk Hs Hq Hr Hlike Henc. pose proof HT as [L1 _ _ _ _ _ F2 _ M1 _ _ F4 F5 _ P4 HpB2 S4 _ _ _].
  destruct frame_count as (C1 & C2 & C3 & C4). assert (Lf : length (wire_frame hs) = 532%nat) by exact (length_is_frame _ (Forall_lookup_1 _ _ _ _ F2 Hf)).
  unfold hs_async_cb. cbn [hs_state a ac_conn]. rewrite Hs. unfold handle_pq_sending, ready. cbn [on_send]. rewrite He, (rest_to_send _ (wire_frame hs) _ 532) by (apply take_ge; lia).
  destruct k as [|k]; [lia|]. destruct (send_some (wire_frame hs) (msg_offset hs) (S k)) as (t & Et & Ht & Hlt & Es); [lia..|].
  cbv zeta. rewrite <- Et. cbn [ac_sent a ac_conn]. rewrite <- !app_assoc, Es. unfold advances. cbn [fst snd]. rewrite drop_0. unfold remaining.
  assert (Hp : (phase hs < 3)%nat) by (rewrite <- C1; exact (lookup_lt_Some _ _ _ Hf)). assert (Hle : (length (concat (take (phase hs) fs)) = 532 * phase hs)%nat).
  { rewrite length_frames by by apply Forall_take. rewrite length_take. lia. }
  destruct (Nat.ltb_spec (msg_offset hs + t) 532) as [H532|H532].
  - cbn [ac_sent a]. rewrite !length_app, !length_take, Hle. split; [|lia].
    apply (stage_key {| hs with msg_offset := (msg_offset hs + t)%nat; msg_expected := 532%nat |} c A1); try done.
  - rewrite (take_ge (wire_frame hs)) by lia. assert (Esent : concat (take (phase hs) fs) ++ wire_frame hs = concat (take (S (phase hs)) fs)).
    { rewrite (take_S_r fs (phase hs) (wire_frame hs)) by done. rewrite concat_app. cbn. by rewrite app_nil_r. }
    rewrite Esent. cbn [phase]. replace (phase hs + 1)%nat with (S (phase hs)) by lia. change total_cells with 3%nat. destruct (Nat.ltb_spec (S (phase hs)) 3) as [H3|H3].
    + set (hs1 := {| hs with phase := S (phase hs); msg_offset := (msg_offset hs + t)%nat; msg_expected := 532%nat |}).
      destruct (pq_cell_next A1 c hs1 H3 Hb Hlike Henc) as (A1' & x & f & E & Hf' & Hlike' & Henc'). cbv zeta in E, Hlike'. rewrite E. cbn [ac_sent a].
      split; [|rewrite !length_app, !length_take, Hle, <- Esent, length_app, Hle; lia]. rewrite <- (app_nil_r (concat (take (S (phase hs)) fs))).
      apply (stage_key {| hs1 with wire_frame := f; msg_offset := 0%nat; msg_expected := 532%nat |} {| c with send_nonce := x |} A1'); try done.
      cbn [msg_offset]. lia.
    + assert (Ep : S (phase hs) = 3%nat) by lia. rewrite Ep in *. rewrite (drop_ge key_cells), (drop_ge fs) in Henc by (rewrite ?key_count; lia). rewrite (take_ge fs 3) by lia.
      rewrite (take_ge fs 3) in Esent by lia. cbn [ac_sent a set_state ac_conn].
      split; [|rewrite !length_app, !length_take, Hle, <- Esent, length_app, Hle; lia].
      destruct Hq as (Q1 & Q2 & Q3), M1 as (R1 & R2 & R3 & R4 & R5), Hr as (T1 & T2 & T3 & T4 & T5).
      apply (stage_ct 0 _ _ B2); cbn; try done; try lia.
      * by rewrite Hb, Lpk.
      * by apply (encrypts_nil_like A1).
      * apply (paired_same B2 A2); [done|done|done|]. unfold same_recv. cbn. by rewrite T1, T2, T3, T4, T5.
      * destruct S4 as (? & ? & ?). split; [done|]. split; [done|]. cbn in *. lia.
      * by rewrite Q3.
      * rewrite Q3. cbn [length]. lia.
Qed.

(** The ciphertext after [k] cells, at an initiator that is in step with the responder [B]. *)
Record ct_state (k : nat) (hs : moor_hs_state_t) (c B : moor_connection_t) (input : bytes) : Prop := mk_ct_state {
  cs_le : (k <= 3)%nat;
  cs_offset : msg_offset hs = ((MOOR_CELL_PAYLOAD * k) `min` MOOR_KEM_CT_LEN)%nat;
  cs_length : length (msg_buf hs) = 1184%nat;
  cs_prefix : take (msg_offset hs) (msg_buf hs) = take (msg_offset hs) ct;
  cs_paired : paired B c;
  cs_pq : pq_handshake_done B = false;
  cs_can : can_send (3 - k) B;
  cs_enc : encrypted 0 B (drop k ct_cells) (drop k fs') B3;
  cs_stream : recv_buf c ++ input = concat (drop k fs');
}.

(** One round of the loop that takes cells from the buffer. *)
Lemma extract_round k hs c B input : ct_state k hs c B input → (k < 3)%nat → (532 <= length (recv_buf c))%nat →
  ∃ B' cell c', hs_decrypt_cell_raw aead_decrypt c = (1, c', Some cell) ∧ command cell = cell_code CELL_KEM_CT ∧ same_send c c' ∧ link_state c' = link_state c ∧
    let chunk := (MOOR_CELL_PAYLOAD `min` (MOOR_KEM_CT_LEN - msg_offset hs))%nat in
    ct_state (S k) {| hs with msg_buf := blit (msg_offset hs) (take chunk (payload cell)) (msg_buf hs); msg_offset := (msg_offset hs + chunk)%nat |} c' B' input.
Proof.
  intros [_ Ho Hl Hp Hpair Hpq Hcan Henc Hst] Hk Hlen. pose proof HT as [_ _ _ _ _ _ _ _ _ _ _ _ F5 _ _ _ _ _ _ _].
  assert (Hoff : msg_offset hs = (MOOR_CELL_PAYLOAD * k)%nat) by (rewrite Ho; unfold MOOR_CELL_PAYLOAD, MOOR_KEM_CT_LEN; lia).
  pose proof (kem_cells_lookup k MOOR_KEM_CT_LEN ct ltac:(by rewrite Lct) ltac:(rewrite Lct; unfold MOOR_CELL_PAYLOAD, MOOR_KEM_CT_LEN; lia)) as Hcell.
  set (kcell := mk_cell 0 _ _) in Hcell. pose proof (kem_cells_ok MOOR_KEM_CT_LEN ct Bct) as Hok. pose proof (Forall_lookup_1 _ _ _ _ Hok Hcell) as Hcok.
  destruct (encrypted_next ct_cells fs' B B3 k kcell Henc Hcell) as (q & off & s & B' & f & He & Hf & Henc').
  assert (Lf : length f = 532%nat) by exact (length_is_frame _ (Forall_lookup_1 _ _ _ _ F5 Hf)).
  rewrite (drop_S fs' f k Hf) in Hst. cbn [concat] in Hst.
  assert (Eb : recv_buf c = f ++ drop 532 (recv_buf c)).
  { rewrite <- (take_drop 532 (recv_buf c)) at 1. f_equal. apply (f_equal (take 532)) in Hst. by rewrite take_app_le, take_app_length' in Hst by lia. }
  destruct (raw_decrypt s {| B with outq := q; write_off := off |} c kcell B' f (drop 532 (recv_buf c)) (3 - S k)) as (E & Hpair' & Hcan' & Hpq'); [by destruct Hpair|done| |done|done|done|].
  { by replace (S (3 - S k)) with (3 - k)%nat by lia. }
  exists B', kcell. eexists. split; [exact E|]. split; [done|]. split; [done|]. split; [done|]. unfold kcell. cbn [payload].
  set (data := drop (MOOR_CELL_PAYLOAD * k) ct) in *. assert (Ld : length data = (MOOR_KEM_CT_LEN - msg_offset hs)%nat) by (unfold data; rewrite length_drop, Lct, Hoff; done).
  rewrite <- Ld, kem_chunk. assert (Lc : length (take MOOR_CELL_PAYLOAD data) = (MOOR_CELL_PAYLOAD `min` length data)%nat) by (by rewrite length_take).
  destruct (blit_prefix (msg_offset hs) (take MOOR_CELL_PAYLOAD data) (msg_buf hs)) as [Lb Pb].
  { rewrite Lc, Ld, Hl, Hoff. unfold MOOR_CELL_PAYLOAD, MOOR_KEM_CT_LEN. lia. }
  rewrite Lc, Hp in Pb. split; cbn [msg_offset msg_buf recv_buf]; try done; try lia.
  - rewrite Pb, <- Lc. unfold data. rewrite <- Hoff. destruct (send_some ct (msg_offset hs) MOOR_CELL_PAYLOAD) as (t & -> & _ & _ & ->); [|unfold MOOR_CELL_PAYLOAD; lia|done].
    rewrite Lct, Hoff. unfold MOOR_CELL_PAYLOAD, MOOR_KEM_CT_LEN. lia.
  - apply (app_inv_head f). by rewrite app_assoc, <- Eb.
Qed.

Lemma extract_ok fuel : ∀ k hs c B input, (3 - k <= fuel)%nat → ct_state k hs c B input →
  ∃ k' hs' c' B', pq_extract aead_decrypt fuel c hs = (true, c', hs') ∧ ct_state k' hs' c' B' input ∧ (length (recv_buf c') < 532)%nat ∧
    same_send c c' ∧ link_state c' = link_state c ∧ hs_kem_sk hs' = hs_kem_sk hs.
Proof.
  pose proof HT as [_ _ _ _ _ _ _ _ _ _ _ _ F5 _ _ _ _ _ _ _].
  assert (Hend : ∀ fuel hs c B input, ct_state 3 hs c B input → pq_extract aead_decrypt fuel c hs = (true, c, hs) ∧ (length (recv_buf c) < 532)%nat).
  { intros fl hs c B input [_ Ho _ _ _ _ _ _ Hst]. rewrite (drop_ge fs') in Hst by (destruct frame_count as (_ & -> & _); lia). apply app_eq_nil in Hst as [Hb _].
    rewrite Hb. split; [|cbn [length]; lia]. destruct fl; cbn [pq_extract]; by rewrite Ho, (proj2 (Nat.ltb_ge _ _)) by (unfold MOOR_CELL_PAYLOAD, MOOR_KEM_CT_LEN; lia). }
  induction fuel as [|fuel IH]; intros k hs c B input Hf Hcs; pose proof Hcs as [Hk Ho _ _ _ _ _ _ Hst]; destruct (decide (k = 3%nat)) as [->|H3].
  - destruct (Hend 0%nat hs c B input Hcs) as [E1 E2]. exists 3%nat, hs, c, B. split; [exact E1|]. split; [exact Hcs|]. split; [exact E2|]. by split.
  - lia.
  - destruct (Hend (S fuel) hs c B input Hcs) as [E1 E2]. exists 3%nat, hs, c, B. split; [exact E1|]. split; [exact Hcs|]. split; [exact E2|]. by split.
  - cbn [pq_extract]. rewrite (proj2 (Nat.ltb_lt _ _)) by (rewrite Ho; unfold MOOR_CELL_PAYLOAD, MOOR_KEM_CT_LEN; lia). cbn [negb].
    destruct (decide (length (recv_buf c) < 532)%nat) as [Hs|Hs].
    { rewrite (raw_short c input (drop k fs')); [|by apply Forall_drop|done|done]. exists k, hs, c, B. split; [reflexivity|]. split; [exact Hcs|]. split; [exact Hs|]. by split. }
    destruct (extract_round k hs c B input Hcs ltac:(lia) ltac:(lia)) as (B' & cell & c' & E & Ecmd & Hsame & Hls & Hcs'). rewrite E, Ecmd, Z.eqb_refl. cbn [negb]. cbv zeta in Hcs'.
    destruct (IH (S k) _ c' B' input ltac:(lia) Hcs') as (k2 & hs2 & c2 & B2' & I1 & I2 & I3 & I4 & I5 & I6).
    exists k2, hs2, c2, B2'. split; [exact I1|]. split; [exact I2|]. split; [exact I3|]. split; [exact (same_send_trans c c' c2 Hsame I4)|]. split; [congruence|exact I6].
Qed.

(** A callback keeps the stage, and brings the end nearer when the socket moves bytes. *)
Definition keeps (a : async_conn) (input : bytes) (r : async_conn * nat) : Prop :=
  stage r.1 (drop r.2 input) ∧ (remaining r.1 (drop r.2 input) <= remaining a input)%nat.

Lemma advances_keeps a input r : advances a input r → keeps a input r.
Proof. intros [Hs Hr]. split; [exact Hs|lia]. Qed.

Lemma take_own_length (m : nat) (l : bytes) : take m l = take (length (take m l)) l.
Proof. rewrite length_take. destruct (Nat.min_spec m (length l)) as [[? ->]|[? ->]]; [done|by rewrite !take_ge by lia]. Qed.

Lemma ct_rest : drop 3 ct_cells = [] ∧ drop 3 fs' = [].
Proof. destruct frame_count as (_ & C2 & _). split; apply drop_ge; [by rewrite ct_count|by rewrite C2]. Qed.

Lemma ct_done hs c B input : ct_state 3 hs c B input → hs_kem_sk hs = ksk → outq c = [] → write_off c = 0%nat → like A2 c →
  input = [] ∧ take MOOR_KEM_CT_LEN (msg_buf hs) = ct ∧ ∀ s, s = mix_kem hash now ss {| c with link_state := CONN_STATE_OPEN |} →
    established n now now' s (mix_kem hash now' ss B3).
Proof.
  intros [_ Ho _ Hp Hpair Hpq _ Henc Hst] Hsk Q1 Q2 (Hk & Hn & HpA & Hpc). pose proof HT as [_ _ _ _ _ _ _ _ _ _ [HoA2 HnA2] _ _ _ _ _ _ [P1 P2 P3 _] QB3 S5].
  destruct ct_rest as [D1 D2]. rewrite D1, D2 in Henc. rewrite D2 in Hst. apply app_eq_nil in Hst as [Hb Hi].
  assert (Eoff : msg_offset hs = MOOR_KEM_CT_LEN) by (rewrite Ho; unfold MOOR_CELL_PAYLOAD, MOOR_KEM_CT_LEN; lia).
  split; [exact Hi|]. split; [rewrite Eoff in Hp; rewrite Hp; apply take_ge; rewrite Lct; lia|]. intros s ->.
  pose proof (encrypts_nil hash aead_encrypt 0 B B3 c Henc Hpair) as Hback. apply mix_established.
  - split; cbn; [congruence..|]. intros Ht. congruence.
  - destruct Hback as [K1 K2 K3 _]. split; cbn; [congruence..|]. intros Ht. congruence.
  - by split; [|split].
  - exact QB3.
  - done.
  - by destruct S5.
  - split; [done|]. cbn. by rewrite Hn.
  - exact S5.
Qed.

(** The handler at the end: cells from the buffer, and the secret when all are there. *)
Lemma finish_stage k hs c B input : ct_state k hs c B input → hs_kem_sk hs = ksk → link_state c = CONN_STATE_PQ_RECEIVING → outq c = [] → write_off c = 0%nat → like A2 c →
  let r := pq_finish hash aead_decrypt kem_decapsulate now hs (mk_async c (Some hs) true [] (msg1 ++ concat fs)) in
  stage r input ∧ ac_sent r = msg1 ++ concat fs.
Proof.
  intros Hcs Hsk Hls Q1 Q2 Hlike. cbv zeta. unfold pq_finish. cbn [ac_conn].
  destruct (extract_ok MOOR_KEM_CT_LEN k hs c B input ltac:(unfold MOOR_KEM_CT_LEN; lia) Hcs) as (k' & hs' & c' & B' & E & Hcs' & Hl & Hsame & Hls' & Hsk'). rewrite E. cbn [negb].
  destruct Hsame as (M1 & M2 & M3 & M4 & M5 & _). rewrite Hls in Hls'. rewrite Hsk in Hsk'. rewrite Q1 in M4. rewrite Q2 in M5.
  assert (Hlike' : like A2 c') by (destruct Hlike as (? & ? & ? & ?); split_and!; congruence). pose proof Hcs' as [Hk Ho _ _ _ _ _ _ _].
  destruct (decide (k' = 3%nat)) as [->|H3].
  - destruct (ct_done hs' c' B' input Hcs' Hsk' M4 M5 Hlike') as (-> & Ect & Hest).
    rewrite (proj2 (Nat.ltb_ge _ _)) by (rewrite Ho; unfold MOOR_CELL_PAYLOAD, MOOR_KEM_CT_LEN; lia). rewrite Ect, Hsk', Hdec.
    split; [|done]. apply stage_done. by apply Hest.
  - rewrite (proj2 (Nat.ltb_lt _ _)) by (rewrite Ho; unfold MOOR_CELL_PAYLOAD, MOOR_KEM_CT_LEN; lia). split; [|done].
    destruct Hcs' as [_ Ho' Hlen Hp Hpair Hpq Hcan Henc Hst]. apply (stage_ct k' hs' c' B' input); try done; [lia|].
    rewrite Ho'. unfold MOOR_CELL_PAYLOAD, MOOR_KEM_CT_LEN. lia.
Qed.

Lemma ct_keeps k0 j k hs c B input : (k < 3)%nat → ct_state k hs c B input → hs_kem_sk hs = ksk → link_state c = CONN_STATE_PQ_RECEIVING → outq c = [] →
  write_off c = 0%nat → like A2 c → (length (recv_buf c) < 532)%nat →
  let a := mk_async c (Some hs) true [] (msg1 ++ concat fs) in
  let r := callback (ready k0 j input) a in keeps a input r ∧ ((0 < j)%nat → advances a input r).
Proof.
  intros Hk Hcs Hsk Hls Q1 Q2 Hlike Hl a. unfold hs_async_cb. cbn [hs_state a ac_conn]. rewrite Hls. unfold handle_pq_receiving. cbv zeta. cbn [ac_conn a].
  assert (Hroom : (RECV_BUF_SIZE <=? length (recv_buf c))%nat = false) by (apply Nat.leb_gt; unfold RECV_BUF_SIZE; lia). rewrite Hroom. unfold ready. cbn [on_recv].
  pose proof (finish_stage k hs c B input Hcs Hsk Hls Q1 Q2 Hlike) as [Hst Hsent]. cbv zeta in Hst, Hsent. fold a in Hst, Hsent. destruct (take j input) as [|x b] eqn:Ej.
  - unfold keeps, remaining. cbn [fst snd]. rewrite drop_0. split; [split; [exact Hst|by rewrite Hsent]|]. intros Hj. exfalso.
    assert (Hin : input = []) by (destruct input, j; [done|done|lia|done]). destruct Hcs as [_ _ _ _ _ _ _ _ Hstr]. rewrite Hin, app_nil_r in Hstr.
    pose proof HT as [_ _ _ _ _ _ _ _ _ _ _ _ F5 _ _ _ _ _ _ _]. destruct frame_count as (_ & C2 & _).
    apply (f_equal length) in Hstr. rewrite length_frames, length_drop, C2 in Hstr by by apply Forall_drop. lia.
  - rewrite <- Ej. set (got := take (RECV_BUF_SIZE - length (recv_buf c)) (take j input)). set (c1 := {| c with recv_buf := recv_buf c ++ got |}).
    assert (Hlen : (0 < length got <= length input)%nat).
    { unfold got. rewrite Ej, !length_take. apply (f_equal length) in Ej. rewrite length_take in Ej. cbn [length] in *. unfold RECV_BUF_SIZE. lia. }
    assert (Egot : got = take (length got) input) by (unfold got; rewrite take_take; apply take_own_length).
    assert (Hcs1 : ct_state k hs c1 B (drop (length got) input)).
    { destruct Hcs as [G1 G2 G3 G4 [P1 P2 P3 P4] G6 G7 G8 G9]. split; try done.
      change ((recv_buf c ++ got) ++ drop (length got) input = concat (drop k fs')). rewrite <- app_assoc, <- G9. f_equal. rewrite <- (take_drop (length got) input) at 2. f_equal. exact Egot. }
    pose proof (finish_stage k hs c1 B _ Hcs1 Hsk Hls Q1 Q2 Hlike) as [Hst1 Hsent1].
    assert (Hadv : advances a input (pq_finish hash aead_decrypt kem_decapsulate now hs (mk_async c1 (Some hs) true [] (msg1 ++ concat fs)), length got)).
    { unfold advances, remaining. cbn [fst snd]. split; [exact Hst1|]. rewrite Hsent1, length_drop. cbn [ac_sent a]. lia. }
    split; [apply advances_keeps|intros _]; exact Hadv.
Qed.

Lemma keeps_same a input : stage a input → keeps a input (a, 0%nat).
Proof. intros H. unfold keeps. cbn [fst snd]. by rewrite drop_0. Qed.

Lemma connect_blocked j : let a := mk_async {| C with link_state := CONN_STATE_TCP_CONNECTING |} (Some (hs_new ipk isk)) true [] [] in
  keeps a (msg2 ++ concat fs') (callback (ready 0 j (msg2 ++ concat fs')) a).
Proof.
  intros a. pose proof HT as [L1 L2 Hm1 _ _ _ _ _ _ _ _ _ _ _ _ _ _ _ _ _]. unfold hs_async_cb. cbn [hs_state a link_state ac_conn]. unfold handle_tcp_connect. cbn [so_error ready].
  match goal with |- context [noise_msg1 _ _ _ _ _ ?c ?p ?q ?x ?y] =>
    replace (noise_msg1 hash aead_encrypt crypto_scalarmult ed25519_pk_to_curve25519 ed25519_sk_to_curve25519 c p q x y) with (Some (msg1, st)) by (symmetry; exact Hm1) end.
  destruct (blit_prefix 0 msg1 (zeros 1184)) as [Lb Pb]; [rewrite L1; vm_compute; lia|]. rewrite L1 in Pb. cbn [Nat.add] in Pb. rewrite take_0 in Pb.
  unfold keeps. cbn [fst snd]. rewrite drop_0. split; [|done]. set (hs0 := hs_new ipk isk).
  refine (stage_msg1 {| hs0 with hs_noise := st; msg_buf := blit 0 msg1 (zeros 1184); msg_expected := 80%nat; msg_offset := 0%nat |} _ eq_refl _ _ eq_refl); cbn; try done; lia.
Qed.

Lemma stage_step k j a input : stage a input →
  keeps a input (callback (ready k j input) a) ∧ (hs_state a = None ∨ ((0 < k)%nat → (0 < j)%nat → advances a input (callback (ready k j input) a))).
Proof.
  intros Hstage. pose proof (keeps_same a input Hstage) as Hsame.
  destruct Hstage as [|hs G1 G2 G3 G4 G5|hs G1 G2 G3 G4 G5|hs c A1 G1 G2 G3 G4 G5 G6 G7 G8 G9 G10|i hs c B input G1 G2 G3 G4 G5 G6 G7 G8 G9 G10 G11 G12 G13 G14 G15|c Hest].
  - destruct k as [|k]; [split; [apply connect_blocked|right; lia]|]. split; [apply advances_keeps|right; intros _ _]; apply connect_advances; lia.
  - destruct k as [|k]; [split; [exact Hsame|right; lia]|]. split; [apply advances_keeps|right; intros _ _]; apply msg1_advances; try done; lia.
  - destruct j as [|j]; [split; [|right; lia]|]; [|split; [apply advances_keeps|right; intros _ _]; apply msg2_advances; try done; lia].
    unfold ready. rewrite take_0. exact Hsame.
  - destruct k as [|k].
    + split; [|right; lia]. unfold hs_async_cb. cbn [hs_state ac_conn]. rewrite G6. exact Hsame.
    + split; [apply advances_keeps|right; intros _ _]; apply (key_advances (S k) j hs c A1); try done; lia.
  - assert (Hcs : ct_state i hs c B input).
    { split; try done; [lia|]. rewrite G2. unfold MOOR_CELL_PAYLOAD, MOOR_KEM_CT_LEN. lia. }
    destruct (ct_keeps k j i hs c B input G1 Hcs G5 G6 G7 G8 G9 G15) as [K1 K2]. split; [exact K1|]. right. intros _. exact K2.
  - split; [exact Hsame|by left].
Qed.

(** The callbacks in which the socket is ready. *)
Definition live (s : nat * nat) : bool := (0 <? fst s)%nat && (0 <? snd s)%nat.

Lemma run_stage sched : ∀ a input, stage a input → (remaining a input <= length (List.filter live sched))%nat →
  ∃ a', async_run sched input a = (a', []) ∧ stage a' [] ∧ hs_state a' = None.
Proof.
  induction sched as [|[k j] sched IH]; intros a input Hs Hr.
  - destruct (stage_step 1 1 a input Hs) as [_ [Hn|Ha]].
    + exists a. destruct Hs; try done. split; [done|]. split; [by apply stage_done|done].
    + destruct (Ha ltac:(lia) ltac:(lia)) as [_ Hlt]. cbn in Hr. lia.
  - destruct (stage_step k j a input Hs) as [[Hs' Hk] Hp]. cbn [async_run].
    destruct (callback (ready k j input) a) as [a1 m] eqn:Ecb. cbn [fst snd] in *.
    destruct Hp as [Hn|Ha].
    + exists a. assert (Einput : input = [] ∧ stage a []) by (destruct Hs; try done; split; [done|by apply stage_done]). destruct Einput as [-> Hs0].
      assert (Efix : ∀ sc, async_run sc [] a = (a, [])).
      { induction sc as [|[k' j'] sc IHs]; [done|]. cbn [async_run]. unfold hs_async_cb. rewrite Hn. exact IHs. }
      split; [|done]. pose proof (Efix ((k, j) :: sched)) as E. cbn [async_run] in E. by rewrite Ecb in E.
    + apply IH; [exact Hs'|]. cbn [List.filter] in Hr. unfold live in Hr. cbn [fst snd] in Hr.
      destruct (Nat.ltb_spec 0 k) as [H1|H1], (Nat.ltb_spec 0 j) as [H2|H2]; cbn [andb] in Hr; fold live in Hr; try lia.
      destruct (Ha H1 H2) as [_ Hlt]. cbn [length] in Hr. change (λ s : nat * nat, (0 <? s.1)%nat && (0 <? s.2)%nat) with live in Hr. cbn [fst snd] in Hlt. lia.
Qed.
Lemma run_completes sched : (3320 <= length (List.filter live sched))%nat →
  ∃ a', async_run sched (msg2 ++ concat fs') (mk_async {| C with link_state := CONN_STATE_TCP_CONNECTING |} (Some (hs_new ipk isk)) true [] []) = (a', []) ∧
    hs_state a' = None ∧ completions a' = [0] ∧ ac_sent a' = msg1 ++ concat fs ∧ established n now now' (ac_conn a') (mix_kem hash now' ss B3).
Proof.
  intros Hl. destruct (run_stage sched _ _ stage_connect) as (a' & R1 & R2 & R3).
  - destruct frame_count as (_ & _ & _ & C4). destruct HT as [_ L2 _ _ _ _ _ _ _ _ _ _ _ _ _ _ _ _ _ _]. unfold remaining. cbn [ac_sent length]. rewrite length_app, L2, C4. exact Hl.
  - exists a'. split; [exact R1|]. split; [exact R3|]. by destruct R2.
Qed.
End Completion.

Section AsyncNetwork.
  Context `{SymmetricLaws} (kem_fuel : nat).
  Context (hash : bytes → bytes).
  Context (aead_encrypt aead_decrypt : bytes → bytes → bytes → bytes → option bytes).
  Hypothesis aead_opens : ∀ pt ad n k, ∃ ct,
    aead_encrypt pt ad n k = Some ct ∧ length ct = (length pt + 16)%nat ∧ aead_decrypt ct ad n k = Some pt.
  Context (stale : bytes).
  Hypothesis stale_length : length stale = MOOR_CELL_SIZE.
  Context (crypto_scalarmult : bytes → bytes → option bytes) (pub : bytes → bytes).
  Hypothesis pub_length : ∀ sk, length (pub sk) = 32%nat.
  Hypothesis dh_agrees : ∀ a b, ∃ s,
    crypto_scalarmult a (pub b) = Some s ∧ crypto_scalarmult b (pub a) = Some s ∧ is_zero s = false.
  Context (ed25519_pk_to_curve25519 ed25519_sk_to_curve25519 : bytes → option bytes).
  Context (cut : nat → bytes → list read_event).
  Hypothesis cut_reads : ∀ i b, Forall is_read (cut i b).
  Hypothesis cut_bytes : ∀ i b, read_bytes (cut i b) = b.

End AsyncNetwork.

#[local] Existing Instance ToyHash.toy_symmetric.
#[local] Existing Instance ToyHash.toy_laws.


(** A connect that is refused, and a callback after it. *)
Lemma completes_once_witness : let c := ToyLinks.fresh (ToyNet.pub [2]) in
  let a := snd (moor_connection_connect_async false true true c (ToyNet.pub [1]) [1]) in
  let step := loop_step ToyLink.hash ToyLink.aead_encrypt ToyLink.aead_decrypt ToyNet.crypto_scalarmult Some Some
    (moor_kem_keygen 0) (moor_kem_decapsulate 0) (ToyNet.pub [3]) [3] (zeros 64) 70 in
  let evs := [Callback (mk_sock true true WouldBlock NotReady); Timeout] in
  pending_or_done (foldl step a evs) ∧ completions (foldl step a evs) = [-2].
Proof.
  intros c a step evs. split; [|reflexivity].
  exact (proj1 (completes_once ToyLink.hash ToyLink.aead_encrypt ToyLink.aead_decrypt ToyNet.crypto_scalarmult Some Some
    (moor_kem_keygen 0) (moor_kem_decapsulate 0) (ToyNet.pub [3]) [3] (zeros 64) 70 c (ToyNet.pub [1]) [1] a evs [] eq_refl)).
Defined.
